(* ===== verification/_CoqProject ===== *)
-Q . S2P
Prelude.v
Effects.v
Urls.v
StateMachine.v
Bytes.v
Wal.v
Journal.v
Store.v
Codec.v
StoreProps.v
Events.v
Node.v
NodeInv.v
NodeRPC.v
NodeSteps.v
NodeOpen.v
Trace.v
NodeProps.v
NodeExamples.v
Database.v
Raft.v
Cluster.v
Refine.v
ClusterProps.v
ClusterExamples.v
Linear.v
LinearExamples.v
Simulation.v
SimulationProps.v
Http.v
Client.v
Api.v
Transport.v
Lab.v
LabHttp.v
LabProps.v
LabViews.v
LabProxy.v
LabControl.v
Service.v
Commands.v
LabNodes.v
Defer.v
Processes.v
Explorer.v
