(* ===== verification/Prelude.v ===== *)
(** * ShardZero: a verification library

    ShardZero is a replicated key-value store in Go: a Raft node over a
    checksummed write-ahead log, a replicated state machine with client sessions,
    a deterministic simulator, a standalone server and a laboratory that runs a
    cluster of processes.  This library models the parts that carry its
    guarantees and proves them.

    ** The program's parts and the files that model them

    - [Prelude], [Effects], [Bytes]: fixed-width integers, slices, errors; the
      state-and-panic monad of the handlers with its weakest preconditions; the
      byte encodings of the Go library (PutUint32, CRC-32).
    - [StateMachine] (src/internal/statemachine/machine.go): [Validate], [Check],
      [Apply], [Get], [Snapshot], [Restore] on an explicit machine.
    - [Wal] (src/internal/storage/wal.go, file_unix.go): the journal file byte by
      byte.  Every system call may fail, or be short, as an arbitrary plan of
      faults says.  [crash] ends the process, between any two operations, and as an
      arbitrary plan of outages says the power fails with it: then the disk keeps
      of each file what was synced and some of what was not, and of the directory
      the present entries or earlier ones that no sync has replaced.
    - [Journal]: what the Raft store needs of a journal, as a type class with
      laws; the file of [Wal] and the simulator's disk are its two instances.
    - [Store] with [StoreProps] (src/internal/raft/store.go): the durable term,
      vote, commit index and log over any journal.  JSON is the interface
      [Codec]; [Codec] is also the name of the file with an instance that
      evaluates.
    - [Events] (src/internal/events/events.go): the ring of operational events.
    - [Node] (src/internal/raft/node.go, rpc.go, runtime.go, types.go): one
      member.  Every method that runs under the node's mutex is one computation,
      hence one atomic step; goroutines and channels are the node's [n_calls],
      [n_wake] and [n_chans].  [NodeInv], [NodeRPC], [NodeSteps] and [NodeOpen]
      prove that the methods keep the node's invariant [Inv] and what they
      answer; [NodeProps] states the properties of a node's life and
      [NodeExamples] evaluates them on three nodes on in-memory disks.
    - [Raft]: the protocol without its implementation, on full logs, with its
      safety proof.  [Trace]: every method of a node is a sequence of [move]s,
      each under the guards the code has tested.  [Cluster]: members and the
      messages between them.  [Refine] and [ClusterProps]: every step of the
      network is steps of the protocol, and what follows for the nodes.
      [ClusterExamples] evaluates an election, replication, a crash of the leader
      and a succession.  [Linear] adds what clients observe, submissions, outcomes
      and ended processes, and proves the cluster linearizable; [LinearExamples]
      has a write through one leader and a read from the next.
    - [Database] (src/internal/database/database.go): the standalone server.
    - [Simulation] (src/internal/simulation/simulation.go): the scenario runner,
      the event queue, the faults, the checks and the minimizer; its theorems are
      in [SimulationProps].
    - [Urls], [Http]: what the program uses of net/url, net/http and encoding/json,
      which are the Go library: URL parsing as the interface [URLs], readers and
      their limits, escaping of path segments, the routing of ServeMux, and JSON
      as a type class with laws.  The tests that the program makes of a parsed URL
      are its own: [valid_origin] in [Node], [validOrigin] in [Client].  [Client] (src/internal/cluster/client.go), [Api]
      (src/internal/api/http.go) and [Transport] (src/internal/transport/http.go)
      are the program's HTTP client, its handlers, and the RPCs over HTTP.
    - [Lab], [LabHttp] (src/internal/lab/manager.go, proxy.go, http.go): the
      control plane of a demonstration: processes, injected faults, polling,
      metrics, proxies and the dashboard's handler.  Every section under the
      manager's mutex is one computation on [Manager], whose fields [mg_waiting]
      and [mg_works] are the goroutines that wait for a process or run a
      workload.  What [New] writes to disk is kept in [mg_files].
      [LabProps] has the invariant, [LabViews] the snapshot and the event stream,
      [LabProxy] the proxies, [LabControl] the guard.
    - [Service] follows a command from the lab or the command line through path
      and body to the server's handler.  [Commands] (src/cmd/client/main.go,
      src/internal/raft/config.go) has the command-line client, the membership
      file, the flags of the node's command and what the launcher checks.
      [LabNodes] joins [Lab], [Commands] and [Node]: what the lab writes and passes
      on is what its nodes read and accept.  [Defer] has functions with deferred
      calls and what it means that a log of acts releases what it opened;
      [Processes] the lives of the node, the launcher and the laboratory
      (src/cmd/node, src/cmd/cluster, src/cmd/lab: main.go), [Explorer] the
      simulator's command (src/cmd/simulator/main.go).

    A definition carries the name of the function it models; the state of a
    component is a record with the fields of its struct.  A run-time panic is
    [None]; an error is a value.

    ** What is proved

    - The cluster (ClusterProps): at most one leader per term; logs match;
      a leader has everything committed before; members never commit different
      entries at one index; members' machines are folds of histories of which one
      begins the other.  All of it for the nodes of [Node], under loss,
      duplication, reordering and delay of messages, crashes and restarts at any
      moment between two calls, and failing disks; by refinement to [Raft].
    - Clients of the cluster (Linear): operations take effect one after the other
      on one sequence of log entries, each between its submission and its outcome
      and with the outcome that its place in the sequence gives it, whichever
      members are asked and also when logs are compacted.  A client that gets no
      outcome, or a refusal, does not know whether its command took effect.
    - The node (NodeProps): what the handlers answer on every branch, what a
      client's ticket can receive, one vote per term across crashes, the commit
      rule, recovery, compaction, and that no call panics while compaction is
      off.  Three theorems show calls that panic or do not progress with it on.
    - Storage (Wal, StoreProps, Database): what was acknowledged survives the end of
      the process and the failure of the power, which rests on every sync of the
      source; torn tails are cut, corruption is reported, replacement is atomic.
    - Over HTTP (Client, Api, Transport): the client sends one and the same
      command until a definitive answer and reaches a live server; the server's
      answers tell what has become of a command, and a retry is executed once;
      an RPC over a connection that delivers is the call on the other node, and
      what a leader replicates fits the receiver's limit.
    - Composition (Service, Commands, LabNodes): the command that is typed or clicked is
      the one the server executes; the client's exit status tells the truth; the
      lab's nodes, started at any time, read from their arguments and the lab's file
      the membership of the lab and accept it.
    - The processes (Processes, Explorer): on every path, whatever fails, a
      command closes what it has opened in an order in which nothing is closed
      before the servers that use it; the launcher leaves no child behind, nor the
      laboratory a node; the simulator's command tells the truth about its runs.
    - The lab (LabProps, LabViews, LabProxy, LabControl): its invariant under any
      sequence of operations, that no event is passed on twice or lost without
      being counted, partitions and the exact loss rate, and who may change it.
    - The simulator (SimulationProps): it ends, its trace is in order of time,
      the queue yields the earliest event, and minimized scenarios fail.
    - The machine (StateMachine) and the event ring (Events): exactly-once
      application, refinement of sequential registers, snapshot round trip.

    ** Fuel and bounds

    Loops that are not structural take fuel that their callers compute: the
    commit and conflict searches as many steps as there are indexes to search
    (theorems show they return), [batch_end] 33 since a batch has at most 32
    entries, [inspect_log] 101 for a window of a hundred, [apply_loop] the
    distance from the applied to the commit index, the simulator's run one more
    than the scenario's step limit, its minimizer one more than its budget.
    Machine integers are [N] below two to the 64 with their wrap-around written
    out.  A slice has fewer than two to the 63 elements: where a log would grow
    past that, the model panics as Go does.

    ** What is assumed

    The laws of [JournalLaws] are proved of both journals.  [CodecLaws] states
    that JSON decodes what it encodes and decodes only representable values;
    [PlatformLaws] that the formatting of identities yields valid text.  Clocks
    and random numbers are arbitrary; so is the order in which a map is traversed.
    Disk faults are arbitrary plans.  A power failure may take what no completed
    sync has covered; assumed is that a completed sync makes the file's contents, or
    the directory's entries, stable, that a rename is atomic, that of what was
    appended since the last sync a beginning survives, and that no call fails while
    a journal is opened again after a crash.  The errors of the operating system
    are none of the program's own.  [url.Parse] is arbitrary but where a theorem
    names an address: it then understands addresses of the local machine.

    ** What is not modelled

    The parsing of flags but for the node's command, the lines that the commands
    print about their progress and the timeouts of the HTTP servers; the web page;
    sockets, processes and timers, whose answers are arguments of the operations;
    the hashes that reports carry; the Windows variant of the file locks.  The
    simulator's report of its trace hash is an interface ([Digests]).  In the lab the log files of the processes, the asset directory
    and the context's cancellation are left out of the records. *)

From stdpp Require Import base numbers list gmap strings fin_maps pretty options.

(** ** Machine integers

    Go's [uint64] and [uint32] are natural numbers below the modulus; every
    addition and subtraction the source performs wraps. *)

Definition two64 : N := 18446744073709551616%N.
Definition two32 : N := 4294967296%N.

Definition add64 (a b : N) : N := ((a + b) mod two64)%N.
Definition sub64 (a b : N) : N := ((a + (two64 - b mod two64)) mod two64)%N.
Definition add32 (a b : N) : N := ((a + b) mod two32)%N.

(** Go's [len] as a [uint64]. *)
Definition lenN {A} (l : list A) : N := N.of_nat (length l).
Definition strlenN (s : string) : N := N.of_nat (String.length s).

(** ** Go slices

    Indexing a slice by a [uint64] panics out of range: [None].  The bound is
    tested in binary before the index is turned into a [nat], so the
    definitions evaluate on every index a program can compute. *)

Definition slice_get {A} (l : list A) (i : N) : option A :=
  if (i <? lenN l)%N then l !! N.to_nat i else None.

(** [l[:n]] and [l[n:]] for an [n] within the slice. *)
Fixpoint takeN {A} (n : N) (l : list A) : list A :=
  match l with
  | [] => []
  | x :: l' => if (n =? 0)%N then [] else x :: takeN (N.pred n) l'
  end.

Fixpoint dropN {A} (n : N) (l : list A) : list A :=
  match l with
  | [] => []
  | x :: l' => if (n =? 0)%N then l else dropN (N.pred n) l'
  end.

(** [append(l1, l2...)]: growing a slice past the largest [int] is a panic. *)
Definition two63 : N := 9223372036854775808%N.
Definition append_slice {A} (l1 l2 : list A) : option (list A) :=
  if (lenN l1 + lenN l2 <? two63)%N then Some (l1 ++ l2) else None.

(** [l[:n]] where the bound is checked: a larger [n] is a panic. *)
Definition slice_to {A} (l : list A) (n : N) : option (list A) :=
  if (n <=? lenN l)%N then Some (takeN n l) else None.
Definition slice_from {A} (l : list A) (n : N) : option (list A) :=
  if (n <=? lenN l)%N then Some (dropN n l) else None.

(** ** Errors

    One constructor per sentinel or typed error of the source; errors made
    with [errors.New] keep their text, [fmt.Errorf("...: %w", err)] is
    [ErrWrap], [errors.Join] is [ErrJoin]. *)

Inductive error :=
  | ErrInvalid (msg : string)
  | ErrStale
  | ErrReused
  | ErrUnavailable
  | ErrDatabaseUnavailable
  | ErrNoQuorum
  | NotLeaderError (LeaderID LeaderURL : string)
  | ErrShortWrite
  | ErrInjectedDisk
  | ErrContext (msg : string)
  | ErrNew (msg : string)
  | ErrWrap (prefix : string) (e : error)
  | ErrJoin (e1 e2 : error).

#[export] Instance error_eq_dec : EqDecision error.
Proof. solve_decision. Defined.

(** [errors.Is(e, target)] for the sentinels: wrapped and joined errors are
    searched, and [ErrInvalid] is wrapped with a message of its own. *)
Fixpoint error_is (target : error → bool) (e : error) : bool :=
  target e ||
  match e with
  | ErrWrap _ e' => error_is target e'
  | ErrJoin e1 e2 => error_is target e1 || error_is target e2
  | _ => false
  end.

Definition is_ErrInvalid (e : error) : bool :=
  match e with ErrInvalid _ => true | _ => false end.
Definition is_ErrStale (e : error) : bool :=
  match e with ErrStale => true | _ => false end.
Definition is_ErrReused (e : error) : bool :=
  match e with ErrReused => true | _ => false end.
Definition is_ErrNoQuorum (e : error) : bool :=
  match e with ErrNoQuorum => true | _ => false end.


(** ** Lemmas *)

Lemma two64_pos : (0 < two64)%N.
Proof. reflexivity. Qed.

Lemma add64_small a b : (a + b < two64)%N → add64 a b = (a + b)%N.
Proof. apply N.mod_small. Qed.

Lemma add64_lt a b : (add64 a b < two64)%N.
Proof. apply N.mod_lt. discriminate. Qed.

Lemma sub64_small a b : (b ≤ a)%N → (a < two64)%N → sub64 a b = (a - b)%N.
Proof.
  intros Hb Ha. unfold sub64. rewrite (N.mod_small b) by lia.
  replace (a + (two64 - b))%N with ((a - b) + 1 * two64)%N by lia.
  rewrite N.Div0.mod_add. apply N.mod_small. lia.
Qed.

(** Below the subtrahend the difference wraps to a number larger than any
    slice of the program: the index is out of range. *)
Lemma sub64_wrap a b :
  (a < b)%N → (b < two64)%N → sub64 a b = (two64 - (b - a))%N.
Proof.
  intros Ha Hb. unfold sub64. rewrite (N.mod_small b) by lia.
  rewrite N.mod_small by lia. lia.
Qed.

Lemma add64_0_max : add64 (two64 - 1) 1 = 0%N.
Proof. reflexivity. Qed.

Lemma slice_get_lookup {A} (l : list A) i : slice_get l i = l !! N.to_nat i.
Proof.
  unfold slice_get, lenN. destruct (N.ltb_spec i (N.of_nat (length l))); [done|].
  symmetry. apply lookup_ge_None_2. lia.
Qed.

Lemma takeN_take {A} (l : list A) n : takeN n l = take (N.to_nat n) l.
Proof.
  revert n. induction l as [|x l IH]; intros n; simpl; [by rewrite take_nil|].
  destruct (N.eqb_spec n 0) as [->|Hn]; [done|].
  rewrite IH. replace (N.to_nat n) with (S (N.to_nat (N.pred n))) by lia. done.
Qed.

Lemma dropN_drop {A} (l : list A) n : dropN n l = drop (N.to_nat n) l.
Proof.
  revert n. induction l as [|x l IH]; intros n; simpl; [by rewrite drop_nil|].
  destruct (N.eqb_spec n 0) as [->|Hn]; [done|].
  rewrite IH. replace (N.to_nat n) with (S (N.to_nat (N.pred n))) by lia. done.
Qed.

Lemma lenN_nil {A} : lenN (@nil A) = 0%N.
Proof. done. Qed.

Lemma lenN_cons {A} (x : A) l : lenN (x :: l) = (lenN l + 1)%N.
Proof. unfold lenN. rewrite length_cons. lia. Qed.

Lemma lenN_app {A} (l1 l2 : list A) : lenN (l1 ++ l2) = (lenN l1 + lenN l2)%N.
Proof. unfold lenN. rewrite length_app. lia. Qed.

Lemma filter_all {A} (P : A → Prop) `{!∀ x, Decision (P x)} (l : list A) :
  (∀ x, x ∈ l → P x) → filter P l = l.
Proof.
  induction l as [|x l IH]; intros Hl; [done|].
  rewrite filter_cons_True by (apply Hl; by left).
  rewrite IH; [done|]. intros y Hy. apply Hl. by right.
Qed.

Lemma filter_none {A} (P : A → Prop) `{!∀ x, Decision (P x)} (l : list A) :
  (∀ x, x ∈ l → ¬ P x) → filter P l = [].
Proof.
  induction l as [|x l IH]; intros Hl; [done|].
  rewrite filter_cons_False by (apply Hl; by left).
  apply IH. intros y Hy. apply Hl. by right.
Qed.

Lemma error_is_self (t : error → bool) e : t e = true → error_is t e = true.
Proof. destruct e; simpl; intros ->; done. Qed.

(** ** Automation *)

Create HintDb shardzero.
Create Rewrite HintDb shardzero_rw.
#[export] Hint Rewrite @lenN_nil @lenN_cons @lenN_app @slice_get_lookup @takeN_take @dropN_drop : shardzero_rw.

(** Turn the boolean tests of the code into the facts they decide. *)
Ltac tests :=
  repeat match goal with
  | H : (_ && _) = true |- _ => apply andb_true_iff in H as [? ?]
  | H : (_ || _) = false |- _ => apply orb_false_iff in H as [? ?]
  | H : negb _ = true |- _ => apply negb_true_iff in H
  | H : negb _ = false |- _ => apply negb_false_iff in H
  | H : (_ <? _)%N = true |- _ => apply N.ltb_lt in H
  | H : (_ <? _)%N = false |- _ => apply N.ltb_ge in H
  | H : (_ <=? _)%N = true |- _ => apply N.leb_le in H
  | H : (_ <=? _)%N = false |- _ => apply N.leb_gt in H
  | H : (_ =? _)%N = true |- _ => apply N.eqb_eq in H
  | H : (_ =? _)%N = false |- _ => apply N.eqb_neq in H
  | H : bool_decide _ = true |- _ => apply bool_decide_eq_true in H
  | H : bool_decide _ = false |- _ => apply bool_decide_eq_false in H
  end.
