(* ===== verification/Effects.v ===== *)
(** * Effects: the state-and-panic monad of the handlers, and its weakest
    preconditions. *)

From stdpp Require Import base numbers list gmap strings fin_maps options.
From S2P Require Import Prelude.

(** ** The effect monad of the handlers

    A handler runs on a state [S]; [None] is a run-time panic (in this
    program always an index out of range). *)

Definition M (S A : Type) : Type := S → option (A * S).

#[export] Instance M_ret S : MRet (M S) := λ A a s, Some (a, s).
#[export] Instance M_bind S : MBind (M S) := λ A B f m s,
  match m s with
  | None => None
  | Some (a, s') => f a s'
  end.

Section ops.
Context {S : Type}.

Definition get : M S S := λ s, Some (s, s).
Definition gets {A} (f : S → A) : M S A := λ s, Some (f s, s).
Definition modify (f : S → S) : M S unit := λ s, Some (tt, f s).
Definition panic {A} : M S A := λ _, None.

(** A value that is absent only when the program has panicked. *)
Definition lift {A} (o : option A) : M S A := λ s,
  match o with None => None | Some a => Some (a, s) end.

Definition when (b : bool) (m : M S unit) : M S unit :=
  if b then m else mret tt.

(** Run an operation of a sub-object in place. *)
Definition zoom {T A} (proj : S → T) (set : T → S → S) (m : M T A) : M S A := λ s,
  match m (proj s) with
  | None => None
  | Some (a, t) => Some (a, set t s)
  end.

Fixpoint for_each {A} (body : A → M S unit) (l : list A) : M S unit :=
  match l with
  | [] => mret tt
  | x :: l' => body x ≫= λ _, for_each body l'
  end.

(** Weakest preconditions: [E] is what is claimed of a run that panics, so
    [E := False] is total and [E := True] partial correctness. *)
Definition wp (E : Prop) {A} (m : M S A) (Q : A → S → Prop) (s : S) : Prop :=
  match m s with
  | None => E
  | Some (a, s') => Q a s'
  end.

End ops.


(** ** Reasoning *)

Section wp.
Context {S : Type} (E : Prop).

Lemma wp_ret {A} (a : A) (Q : A → S → Prop) s : Q a s → wp E (mret a : M S A) Q s.
Proof. done. Qed.

Lemma wp_bind {A B} (m : M S A) (f : A → M S B) (Q : B → S → Prop) s :
  wp E m (λ a s', wp E (f a) Q s') s → wp E (m ≫= f) Q s.
Proof. unfold wp, mbind, M_bind. by destruct (m s) as [[a s']|]. Qed.

Lemma wp_mono {A} (m : M S A) (P Q : A → S → Prop) s :
  wp E m P s → (∀ a s', P a s' → Q a s') → wp E m Q s.
Proof. unfold wp. destruct (m s) as [[a s']|]; auto. Qed.

Lemma wp_get (Q : S → S → Prop) s : Q s s → wp E get Q s.
Proof. done. Qed.

Lemma wp_gets {A} (f : S → A) (Q : A → S → Prop) s : Q (f s) s → wp E (gets f) Q s.
Proof. done. Qed.

Lemma wp_modify (f : S → S) (Q : unit → S → Prop) s : Q tt (f s) → wp E (modify f) Q s.
Proof. done. Qed.

Lemma wp_modify_bind {A} (f : S → S) (k : unit → M S A) (Q : A → S → Prop) s :
  wp E (modify f ≫= k) Q s = wp E (k tt) Q (f s).
Proof. done. Qed.

Lemma wp_get_bind {A} (k : S → M S A) (Q : A → S → Prop) s :
  wp E (get ≫= k) Q s = wp E (k s) Q s.
Proof. done. Qed.

Lemma wp_lift {A} (o : option A) (Q : A → S → Prop) s :
  (o = None → E) → (∀ a, o = Some a → Q a s) → wp E (lift o) Q s.
Proof. unfold wp, lift. destruct o; auto. Qed.

Lemma wp_lift_some {A} (a : A) (Q : A → S → Prop) s : Q a s → wp E (lift (Some a)) Q s.
Proof. done. Qed.

Lemma wp_when (b : bool) m (Q : unit → S → Prop) s :
  (b = true → wp E m Q s) → (b = false → Q tt s) → wp E (when b m) Q s.
Proof. destruct b; intros H1 H2; [by apply H1 | by apply H2]. Qed.

Lemma wp_zoom {T A} (proj : S → T) (set : T → S → S) (m : M T A) (Q : A → S → Prop) s :
  wp E m (λ a t, Q a (set t s)) (proj s) → wp E (zoom proj set m) Q s.
Proof. unfold wp, zoom. by destruct (m (proj s)) as [[a t]|]. Qed.

(** A loop over a list keeps an invariant that its body keeps. *)
Lemma wp_for_each {A} (body : A → M S unit) (I : S → Prop) l s :
  (∀ x s', x ∈ l → I s' → wp E (body x) (λ _, I) s') → I s →
  wp E (for_each body l) (λ _, I) s.
Proof.
  revert s. induction l as [|x l IH]; intros s Hb HI; [done|]. simpl.
  apply wp_bind. eapply wp_mono; [apply Hb; [left|done]|].
  intros [] s' HI'. apply IH; [|done]. intros y s'' Hy. apply Hb. by right.
Qed.

End wp.

Lemma wp_total {S A} (m : M S A) Q s :
  wp False m Q s ↔ ∃ a s', m s = Some (a, s') ∧ Q a s'.
Proof. unfold wp. destruct (m s) as [[a s']|]; naive_solver. Qed.

Lemma wp_partial {S A} (m : M S A) Q s :
  wp True m Q s ↔ ∀ a s', m s = Some (a, s') → Q a s'.
Proof. unfold wp. destruct (m s) as [[a s']|]; naive_solver. Qed.

Lemma wp_E_mono {S A} (E E' : Prop) (m : M S A) Q s :
  (E → E') → wp E m Q s → wp E' m Q s.
Proof. unfold wp. destruct (m s) as [[a s']|]; auto. Qed.

(** Symbolic execution of a handler: one rule per construct. *)
Ltac wp_step :=
  first
    [ apply wp_bind
    | apply wp_ret
    | apply wp_get
    | apply wp_gets
    | apply wp_modify
    | apply wp_zoom
    | apply wp_when; intros ? ].
