(* ===== verification/Urls.v ===== *)
(** * Urls: what the program uses of net/url

    The interface [URLs] is [url.Parse], with the quotation of [fmt] in the errors
    that name an address; [ex_urls] is an instance that evaluates. *)

From Stdlib Require Import Strings.Ascii Strings.String.
From stdpp Require Import base numbers list gmap strings fin_maps pretty options.
From S2P Require Import Prelude.

Record URL := mkURL {
  u_Scheme : string;
  u_Host : string;
  u_User : bool;          (* User is not nil *)
  u_Path : string;
  u_RawQuery : string;
  u_Fragment : string;
}.

(** [url.Parse], and [%q]. *)
Class URLs := {
  Parse : string → error + URL;
  Quote : string → string;
}.

(** [net/url] on URLs without queries, fragments, users and escapes. *)
Definition cut_slash (s : string) : string * string :=
  match String.index 0 "/" s with
  | Some i => (String.substring 0 i s, String.substring i (String.length s - i) s)
  | None => (s, "")
  end.

Definition plain_Parse (s : string) : error + URL :=
  if String.prefix "http://" s then
    let '(host, path) := cut_slash (String.substring 7 (String.length s - 7) s) in
    inr (mkURL "http" host false path "" "")
  else inl (ErrNew "parse").

Definition ex_urls : URLs := {| Parse := plain_Parse; Quote := λ s, s |}.
