(* ===== verification/StateMachine.v ===== *)
(** * StateMachine: the replicated key-value machine
    (src/internal/statemachine/machine.go)

    Commands are validated, deduplicated by the client's last request and then
    applied to a map of values.  [Apply], [Check], [Get], [Snapshot] and
    [Restore] are the methods of the source on an explicit machine; the
    read-write mutex is the atomicity of each definition.

    The specification side is the sequential register of
    src/internal/raft/history_test.go ([stepRegister]): the machine refines one
    such register per key. *)

From Stdlib Require Import Ascii.
From stdpp Require Import base numbers list gmap strings fin_maps options.
From S2P Require Import Prelude.

Local Open Scope N_scope.

(** ** [utf8.ValidString] of the Go library *)

Definition between (lo hi b : N) : bool := (lo <=? b) && (b <=? hi).
Definition continuation (b : N) : bool := between 128 191 b.

(** The second byte a lead byte accepts (RFC 3629: no overlong form, no
    surrogate, nothing above U+10FFFF). *)
Definition accept_second (b b1 : N) : bool :=
  if b =? 224 then between 160 191 b1
  else if b =? 237 then between 128 159 b1
  else if b =? 240 then between 144 191 b1
  else if b =? 244 then between 128 143 b1
  else continuation b1.

Fixpoint ValidString (s : string) : bool :=
  match s with
  | EmptyString => true
  | String a s1 =>
    let b := N_of_ascii a in
    if b <? 128 then ValidString s1 else
    match s1 with
    | EmptyString => false
    | String a1 s2 =>
      if between 194 223 b then continuation (N_of_ascii a1) && ValidString s2 else
      match s2 with
      | EmptyString => false
      | String a2 s3 =>
        if between 224 239 b
        then accept_second b (N_of_ascii a1) && continuation (N_of_ascii a2) && ValidString s3
        else
        match s3 with
        | EmptyString => false
        | String a3 s4 =>
          between 240 244 b && accept_second b (N_of_ascii a1) &&
          continuation (N_of_ascii a2) && continuation (N_of_ascii a3) && ValidString s4
        end
      end
    end
  end.

(** ** Data *)

Definition MaxValueBytes : N := 1048576.

Record Command := mkCommand {
  c_ClientID : string;
  c_RequestID : N;
  c_Operation : string;
  c_Key : string;
  c_Value : string;
  c_Expected : string;
}.

Record Result := mkResult {
  r_Value : string;
  r_Found : bool;
  r_Applied : bool;
  r_Conflict : bool;
}.

Record session := mkSession {
  s_Command : Command;
  s_Result : Result;
}.

(** The exported snapshot type; its sessions have the same two fields. *)
Record Snapshot := mkSnapshot {
  snap_Values : gmap string string;
  snap_Sessions : gmap string session;
  snap_Count : N;
}.

Record Machine := mkMachine {
  values : gmap string string;
  sessions : gmap string session;
  count : N;
}.

#[export] Instance Command_eq_dec : EqDecision Command.
Proof. solve_decision. Defined.
#[export] Instance Result_eq_dec : EqDecision Result.
Proof. solve_decision. Defined.
#[export] Instance session_eq_dec : EqDecision session.
Proof. solve_decision. Defined.
#[export] Instance Snapshot_eq_dec : EqDecision Snapshot.
Proof. solve_decision. Defined.
#[export] Instance Machine_eq_dec : EqDecision Machine.
Proof. solve_decision. Defined.

Definition zeroResult : Result := mkResult "" false false false.

(** ** Operations *)

Definition New : Machine := mkMachine ∅ ∅ 0.

Definition Validate (c : Command) : option error :=
  if existsb (λ text, negb (ValidString text))
       [c_ClientID c; c_Key c; c_Value c; c_Expected c]
  then Some (ErrInvalid "text must be valid UTF-8")
  else if bool_decide (c_ClientID c = "") || (128 <? strlenN (c_ClientID c)) ||
          (c_RequestID c =? 0)
  then Some (ErrInvalid "clientId (1–128 bytes) and positive requestId required")
  else if bool_decide (c_Key c = "") || (1024 <? strlenN (c_Key c))
  then Some (ErrInvalid "key must contain 1–1024 bytes")
  else if (MaxValueBytes <? strlenN (c_Value c)) || (MaxValueBytes <? strlenN (c_Expected c))
  then Some (ErrInvalid "value exceeds 1 MiB")
  else if bool_decide (c_Operation c = "SET") then
    if bool_decide (c_Expected c ≠ "")
    then Some (ErrInvalid "SET does not accept expected") else None
  else if bool_decide (c_Operation c = "DELETE") then
    if bool_decide (c_Value c ≠ "") || bool_decide (c_Expected c ≠ "")
    then Some (ErrInvalid "DELETE does not accept values") else None
  else if bool_decide (c_Operation c = "CAS") then None
  else Some (ErrInvalid "unknown operation").

(** [check]: the cached result of a duplicate, or an error, or neither. *)
Definition Check (m : Machine) (c : Command) : Result * bool * option error :=
  match Validate c with
  | Some err => (zeroResult, false, Some err)
  | None =>
    match sessions m !! c_ClientID c with
    | Some previous =>
      if c_RequestID c <? c_RequestID (s_Command previous)
      then (zeroResult, false, Some ErrStale)
      else if c_RequestID c =? c_RequestID (s_Command previous) then
        if bool_decide (c ≠ s_Command previous)
        then (zeroResult, false, Some ErrReused)
        else (s_Result previous, true, None)
      else (zeroResult, false, None)
    | None => (zeroResult, false, None)
    end
  end.

(** The [switch] of [Apply]: the new values and the result. *)
Definition execute (vals : gmap string string) (c : Command) : gmap string string * Result :=
  let '(value, found) :=
    match vals !! c_Key c with Some v => (v, true) | None => ("", false) end in
  let result := mkResult value found false false in
  if bool_decide (c_Operation c = "SET") then
    (<[c_Key c := c_Value c]> vals, mkResult (c_Value c) true true false)
  else if bool_decide (c_Operation c = "DELETE") then
    (delete (c_Key c) vals, mkResult value found found false)
  else if bool_decide (c_Operation c = "CAS") then
    if found && bool_decide (value = c_Expected c)
    then (<[c_Key c := c_Value c]> vals, mkResult (c_Value c) true true false)
    else (vals, mkResult value found false true)
  else (vals, result).

Definition Apply (m : Machine) (c : Command) : Machine * (Result * option error) :=
  match Check m c with
  | (result, duplicate, err) =>
    if duplicate || bool_decide (err ≠ None) then (m, (result, err))
    else
      let '(vals, result) := execute (values m) c in
      (mkMachine vals (<[c_ClientID c := mkSession c result]> (sessions m))
                 (add64 (count m) 1),
       (result, None))
  end.

Definition Get (m : Machine) (key : string) : string * bool :=
  match values m !! key with Some v => (v, true) | None => ("", false) end.

Definition Stats (m : Machine) : nat * N := (size (values m), count m).

Definition takeSnapshot (m : Machine) : Snapshot :=
  mkSnapshot (values m) (sessions m) (count m).

(** The checks of [Restore]; Go visits a map in an unspecified order, and the
    order of [map_to_list] is one of them. *)
Definition restore_value (kv : string * string) : option error :=
  let '(k, v) := kv in
  if bool_decide (k = "") || (1024 <? strlenN k) || negb (ValidString k) ||
     negb (ValidString v) || (MaxValueBytes <? strlenN v)
  then Some (ErrInvalid "invalid snapshot value") else None.

Definition restore_session (iv : string * session) : option error :=
  let '(id, v) := iv in
  if bool_decide (id ≠ c_ClientID (s_Command v))
  then Some (ErrInvalid "invalid snapshot session")
  else Validate (s_Command v).

Fixpoint first_error {A} (check : A → option error) (l : list A) : option error :=
  match l with
  | [] => None
  | x :: l' => match check x with Some e => Some e | None => first_error check l' end
  end.

Definition Restore (m : Machine) (s : Snapshot) : Machine * option error :=
  match first_error restore_value (map_to_list (snap_Values s)) with
  | Some e => (m, Some e)
  | None =>
    match first_error restore_session (map_to_list (snap_Sessions s)) with
    | Some e => (m, Some e)
    | None => (mkMachine (snap_Values s) (snap_Sessions s) (snap_Count s), None)
    end
  end.

(** Applying a sequence of commands, keeping the results. *)
Fixpoint ApplyAll (m : Machine) (cs : list Command) : Machine * list (Result * option error) :=
  match cs with
  | [] => (m, [])
  | c :: cs' =>
    let '(m1, r) := Apply m c in
    let '(m2, rs) := ApplyAll m1 cs' in
    (m2, r :: rs)
  end.

(** ** Specification: one register per key (history_test.go) *)

Record register := mkRegister { reg_value : string; reg_found : bool }.

Definition stepRegister (s : register) (op expected value : string) : register * Result :=
  let r := mkResult (reg_value s) (reg_found s) false false in
  if bool_decide (op = "GET") then (s, r)
  else if bool_decide (op = "SET") then
    (mkRegister value true, mkResult value true true false)
  else if bool_decide (op = "DELETE") then
    (mkRegister "" false, mkResult (reg_value s) (reg_found s) (reg_found s) false)
  else if bool_decide (op = "CAS") then
    if reg_found s && bool_decide (reg_value s = expected)
    then (mkRegister value true, mkResult value true true false)
    else (s, mkResult (reg_value s) (reg_found s) false true)
  else (s, r).

(** The register a machine holds at a key. *)
Definition at_key (m : Machine) (k : string) : register :=
  mkRegister (Get m k).1 (Get m k).2.

(** ** Well-formed machines *)

Definition valid_key (k : string) : Prop :=
  k ≠ "" ∧ strlenN k ≤ 1024 ∧ ValidString k = true.
Definition valid_value (v : string) : Prop :=
  strlenN v ≤ MaxValueBytes ∧ ValidString v = true.

Record wf_machine (m : Machine) : Prop := {
  wf_values : ∀ k v, values m !! k = Some v → valid_key k ∧ valid_value v;
  wf_sessions : ∀ id s, sessions m !! id = Some s →
    id = c_ClientID (s_Command s) ∧ Validate (s_Command s) = None;
  wf_count : count m < two64;
}.

(** A command the machine has not seen: neither an error nor a duplicate. *)
Definition fresh (m : Machine) (c : Command) : Prop :=
  Check m c = (zeroResult, false, None).

Definition applied_count (rs : list (Result * option error)) : nat :=
  length (filter (λ r, r_Applied (r.1) = true) rs).

(** ** Lemmas *)

Lemma first_error_None {A} (check : A → option error) l :
  first_error check l = None ↔ ∀ x, x ∈ l → check x = None.
Proof.
  induction l as [|x l IH]; simpl; [set_solver|].
  destruct (check x) eqn:E.
  - split; [done|]. intros H. rewrite H in E by left. done.
  - rewrite IH. set_solver.
Qed.

Lemma Validate_None c :
  Validate c = None →
  (ValidString (c_ClientID c) = true ∧ c_ClientID c ≠ "" ∧ strlenN (c_ClientID c) ≤ 128) ∧
  c_RequestID c ≠ 0 ∧ valid_key (c_Key c) ∧ valid_value (c_Value c) ∧
  valid_value (c_Expected c) ∧
  (c_Operation c = "SET" ∨ c_Operation c = "DELETE" ∨ c_Operation c = "CAS").
Proof.
  unfold Validate, valid_key, valid_value. simpl.
  intros H. repeat case_match; try discriminate; tests;
    repeat match goal with H : negb _ = false |- _ => apply negb_false_iff in H end;
    unfold strlenN, MaxValueBytes in *; naive_solver lia.
Qed.

Lemma Check_cases m c :
  (∃ e, Check m c = (zeroResult, false, Some e)) ∨
  (∃ p, sessions m !! c_ClientID c = Some p ∧ c = s_Command p ∧ Validate c = None ∧
        Check m c = (s_Result p, true, None)) ∨
  fresh m c.
Proof.
  unfold fresh, Check. destruct (Validate c) as [e|] eqn:Hv; [eauto|].
  destruct (sessions m !! c_ClientID c) as [p|] eqn:Hp; [|by eauto].
  destruct (c_RequestID c <? _) eqn:E1; [by eauto|].
  destruct (c_RequestID c =? _) eqn:E2; [|by eauto].
  case_bool_decide as Hc; [by eauto|]. right; left. exists p. split_and!; auto.
Qed.

Lemma fresh_valid m c : fresh m c → Validate c = None.
Proof. unfold fresh, Check. by destruct (Validate c). Qed.

Lemma fresh_request m c p :
  fresh m c → sessions m !! c_ClientID c = Some p →
  c_RequestID (s_Command p) < c_RequestID c.
Proof.
  unfold fresh, Check. intros H Hp. rewrite Hp in H.
  destruct (Validate c); [done|].
  destruct (c_RequestID c <? _) eqn:E1; [done|].
  destruct (c_RequestID c =? _) eqn:E2; [by case_bool_decide|]. tests. lia.
Qed.

(** The three outcomes of [Apply]. *)
Lemma Apply_error m c r b e :
  Check m c = (r, b, Some e) → Apply m c = (m, (r, Some e)).
Proof. unfold Apply. intros ->. by rewrite bool_decide_eq_true_2, orb_true_r by done. Qed.

Lemma Apply_dup m c r : Check m c = (r, true, None) → Apply m c = (m, (r, None)).
Proof. unfold Apply. by intros ->. Qed.

Lemma Apply_fresh m c :
  fresh m c →
  Apply m c =
    (mkMachine (execute (values m) c).1
       (<[c_ClientID c := mkSession c (execute (values m) c).2]> (sessions m))
       (add64 (count m) 1),
     ((execute (values m) c).2, None)).
Proof.
  unfold fresh, Apply. intros ->. simpl.
  by destruct (execute (values m) c).
Qed.

Lemma Apply_None_cases m c m' r :
  Apply m c = (m', (r, None)) →
  (m' = m ∧ ∃ p, sessions m !! c_ClientID c = Some p ∧ s_Command p = c ∧ s_Result p = r)
  ∨ (fresh m c ∧ sessions m' = <[c_ClientID c := mkSession c r]> (sessions m)).
Proof.
  destruct (Check_cases m c) as [[e He]|[(p&Hp&Hc&_&Hd)|Hf]].
  - rewrite (Apply_error _ _ _ _ _ He). done.
  - rewrite (Apply_dup _ _ _ Hd). intros [= <- <-]. left. eauto 10.
  - rewrite (Apply_fresh _ _ Hf). intros [= <- <-]. right. done.
Qed.

Lemma Apply_sessions_other m c id :
  id ≠ c_ClientID c → sessions (Apply m c).1 !! id = sessions m !! id.
Proof.
  intros Hid. destruct (Check_cases m c) as [[e He]|[(p&_&_&_&Hd)|Hf]].
  - by rewrite (Apply_error _ _ _ _ _ He).
  - by rewrite (Apply_dup _ _ _ Hd).
  - rewrite (Apply_fresh _ _ Hf). simpl. by rewrite lookup_insert_ne.
Qed.

Lemma ApplyAll_sessions_other m cs id :
  (∀ c, c ∈ cs → c_ClientID c ≠ id) →
  sessions (ApplyAll m cs).1 !! id = sessions m !! id.
Proof.
  revert m. induction cs as [|c cs IH]; intros m Hcs; [done|]. simpl.
  destruct (Apply m c) as [m1 r] eqn:E.
  destruct (ApplyAll m1 cs) as [m2 rs] eqn:E2. simpl.
  replace m2 with (ApplyAll m1 cs).1 by (by rewrite E2).
  rewrite IH by (intros; apply Hcs; by right).
  replace m1 with (Apply m c).1 by (by rewrite E).
  apply Apply_sessions_other. intros ->. by apply (Hcs c); [left|].
Qed.

(** A client whose last request is [c] gets the cached result, whatever the
    machine does in between. *)
Lemma Check_session m c p :
  Validate c = None → sessions m !! c_ClientID c = Some p → s_Command p = c →
  Check m c = (s_Result p, true, None).
Proof.
  intros Hv Hp <-. unfold Check. rewrite Hv, Hp, N.ltb_irrefl, N.eqb_refl.
  by rewrite bool_decide_eq_false_2 by (by intros ?).
Qed.

Lemma Apply_valid m c m' r : Apply m c = (m', (r, None)) → Validate c = None.
Proof.
  unfold Apply, Check. destruct (Validate c); [|done].
  by rewrite bool_decide_eq_true_2, orb_true_r.
Qed.

Lemma Apply_session m c m' r :
  Apply m c = (m', (r, None)) →
  ∃ p, sessions m' !! c_ClientID c = Some p ∧ s_Command p = c ∧ s_Result p = r.
Proof.
  intros H. apply Apply_None_cases in H as [(->&p&?&?&?)|[_ ->]]; [eauto|].
  rewrite lookup_insert_eq. eauto.
Qed.

(** *** The register specification *)

Lemma execute_other vals c k :
  k ≠ c_Key c → (execute vals c).1 !! k = vals !! k.
Proof.
  intros Hk. unfold execute. destruct (vals !! c_Key c);
    repeat (case_bool_decide || case_match); simpl;
    rewrite ?lookup_insert_ne, ?lookup_delete_ne by done; done.
Qed.

Lemma execute_at m c m' :
  values m' = (execute (values m) c).1 →
  (at_key m' (c_Key c), (execute (values m) c).2) =
    stepRegister (at_key m (c_Key c)) (c_Operation c) (c_Expected c) (c_Value c) ∨
  c_Operation c = "GET".
Proof.
  intros Hm. unfold at_key, Get, execute, stepRegister in *. rewrite Hm. clear Hm m'.
  destruct (decide (c_Operation c = "GET")); [by right|left].
  rewrite (bool_decide_eq_false_2 (c_Operation c = "GET")) by done.
  destruct (values m !! c_Key c) as [v|] eqn:Hv; simpl;
    repeat (case_bool_decide; simplify_eq/=);
    rewrite ?lookup_insert_eq, ?lookup_delete_eq, ?Hv; done.
Qed.

(** *** Well-formedness *)

Lemma execute_values vals c k v :
  (execute vals c).1 !! k = Some v →
  vals !! k = Some v ∨ (k = c_Key c ∧ v = c_Value c).
Proof.
  unfold execute. destruct (vals !! c_Key c);
    repeat (case_bool_decide || case_match); simpl;
    rewrite ?lookup_insert_Some, ?lookup_delete_Some; naive_solver.
Qed.

Lemma wf_New : wf_machine New.
Proof. split; simpl; [intros ??; by rewrite lookup_empty..|]. reflexivity. Qed.

Lemma wf_Apply m c : wf_machine m → wf_machine (Apply m c).1.
Proof.
  intros [Hv Hs Hc]. destruct (Check_cases m c) as [[e He]|[(p&_&_&_&Hd)|Hf]].
  - by rewrite (Apply_error _ _ _ _ _ He).
  - by rewrite (Apply_dup _ _ _ Hd).
  - rewrite (Apply_fresh _ _ Hf). pose proof (fresh_valid _ _ Hf) as Hval.
    split; simpl.
    + intros k v H. apply execute_values in H as [H|[-> ->]]; [eauto|].
      apply Validate_None in Hval. naive_solver.
    + intros id s [[<- <-]|[_ H]]%lookup_insert_Some; [done|eauto].
    + apply add64_lt.
Qed.

Lemma wf_ApplyAll m cs : wf_machine m → wf_machine (ApplyAll m cs).1.
Proof.
  revert m. induction cs as [|c cs IH]; intros m Hm; [done|]. simpl.
  pose proof (wf_Apply m c Hm) as H1. destruct (Apply m c) as [m1 r].
  specialize (IH m1 H1). by destruct (ApplyAll m1 cs).
Qed.

Lemma ApplyAll_app m cs1 cs2 :
  (ApplyAll m (cs1 ++ cs2)).1 = (ApplyAll (ApplyAll m cs1).1 cs2).1.
Proof.
  revert m. induction cs1 as [|c cs1 IH]; intros m; [done|]. simpl.
  destruct (Apply m c) as [m1 r]. specialize (IH m1).
  destruct (ApplyAll m1 (cs1 ++ cs2)), (ApplyAll m1 cs1). done.
Qed.

Lemma ApplyAll_cons m c cs :
  (ApplyAll m (c :: cs)).1 = (ApplyAll (Apply m c).1 cs).1.
Proof.
  simpl. destruct (Apply m c) as [m1 r]; simpl. by destruct (ApplyAll m1 cs).
Qed.

(** *** Snapshots *)

Lemma restore_value_None k v :
  restore_value (k, v) = None ↔ valid_key k ∧ valid_value v.
Proof.
  unfold restore_value, valid_key, valid_value.
  destruct (_ || _) eqn:E; [split; [done|]|split; [intros _|done]].
  - intros [(?&?&?)[? ?]].
    rewrite !orb_true_iff, !negb_true_iff, bool_decide_eq_true, !N.ltb_lt in E.
    destruct E as [[[[?|?]|?]|?]|?]; (congruence || lia).
  - tests. repeat match goal with H : negb _ = false |- _ => apply negb_false_iff in H end.
    done.
Qed.

Lemma Restore_ok m0 s :
  (∀ k v, snap_Values s !! k = Some v → valid_key k ∧ valid_value v) →
  (∀ id v, snap_Sessions s !! id = Some v →
     id = c_ClientID (s_Command v) ∧ Validate (s_Command v) = None) →
  Restore m0 s = (mkMachine (snap_Values s) (snap_Sessions s) (snap_Count s), None).
Proof.
  intros Hv Hs. unfold Restore.
  rewrite (proj2 (first_error_None restore_value _)).
  2: { intros [k v] Hkv%elem_of_map_to_list. by apply restore_value_None, Hv. }
  rewrite (proj2 (first_error_None restore_session _)); [done|].
  intros [id v] Hiv%elem_of_map_to_list. unfold restore_session.
  destruct (Hs _ _ Hiv) as [-> ?]. by rewrite bool_decide_eq_false_2 by (by intros ?).
Qed.

Lemma Restore_None m0 s m' :
  Restore m0 s = (m', None) →
  m' = mkMachine (snap_Values s) (snap_Sessions s) (snap_Count s) ∧
  (∀ k v, snap_Values s !! k = Some v → valid_key k ∧ valid_value v) ∧
  (∀ id v, snap_Sessions s !! id = Some v →
     id = c_ClientID (s_Command v) ∧ Validate (s_Command v) = None).
Proof.
  unfold Restore. destruct (first_error restore_value _) eqn:E1; [done|].
  destruct (first_error restore_session _) eqn:E2; [done|]. intros [= <-].
  split_and!; [done|..].
  - intros k v Hkv. apply restore_value_None.
    eapply first_error_None; [done|]. by apply elem_of_map_to_list.
  - intros id v Hiv. assert (restore_session (id, v) = None) as H.
    { eapply first_error_None; [done|]. by apply elem_of_map_to_list. }
    unfold restore_session in H. by case_bool_decide.
Qed.

Lemma Restore_takeSnapshot m0 m :
  wf_machine m → Restore m0 (takeSnapshot m) = (m, None).
Proof. intros [Hv Hs _]. rewrite Restore_ok by done. by destruct m. Qed.

#[export] Hint Resolve wf_New wf_Apply wf_ApplyAll : shardzero.

(** *** Sessions under retries *)

(** A request of the same client that is not newer leaves the machine alone. *)
Lemma Apply_not_newer m d p :
  sessions m !! c_ClientID d = Some p →
  c_RequestID d ≤ c_RequestID (s_Command p) → (Apply m d).1 = m.
Proof.
  intros Hp Hle. destruct (Check_cases m d) as [[e He]|[(q&_&_&_&Hd)|Hf]].
  - by rewrite (Apply_error _ _ _ _ _ He).
  - by rewrite (Apply_dup _ _ _ Hd).
  - pose proof (fresh_request _ _ _ Hf Hp). lia.
Qed.

Lemma ApplyAll_session_stable m cs id p :
  sessions m !! id = Some p →
  (∀ d, d ∈ cs → c_ClientID d = id → c_RequestID d ≤ c_RequestID (s_Command p)) →
  sessions (ApplyAll m cs).1 !! id = Some p.
Proof.
  revert m. induction cs as [|d cs IH]; intros m Hp Hcs; [done|].
  rewrite ApplyAll_cons. apply IH; [|intros; apply Hcs; [by right|done]].
  destruct (decide (c_ClientID d = id)) as [Heq|Hne].
  - rewrite (Apply_not_newer m d p); [done|by rewrite Heq|].
    apply Hcs; [by left|done].
  - by rewrite Apply_sessions_other by done.
Qed.

(** *** Compare-and-set *)

Lemma execute_CAS vals c :
  c_Operation c = "CAS" →
  execute vals c =
    match vals !! c_Key c with
    | Some v => if bool_decide (v = c_Expected c)
                then (<[c_Key c := c_Value c]> vals, mkResult (c_Value c) true true false)
                else (vals, mkResult v true false true)
    | None => (vals, mkResult "" false false true)
    end.
Proof.
  intros Hop. unfold execute. rewrite Hop.
  by destruct (vals !! c_Key c); simpl; repeat case_bool_decide.
Qed.

(** Commands of clients with no session are fresh. *)
Lemma fresh_new_client m c :
  Validate c = None → sessions m !! c_ClientID c = None → fresh m c.
Proof. unfold fresh, Check. by intros -> ->. Qed.

Lemma applied_count_cons r rs :
  applied_count (r :: rs) = ((if r_Applied r.1 then 1 else 0) + applied_count rs)%nat.
Proof. unfold applied_count. rewrite filter_cons. destruct (r_Applied r.1); by case_decide. Qed.

Section cas.
Context (k v : string).

(** The commands of the race: compare-and-set on [k] from [v] to something
    else, each by a client of its own that has no session yet. *)
Definition cas_from (m : Machine) (c : Command) : Prop :=
  Validate c = None ∧ c_Operation c = "CAS" ∧ c_Key c = k ∧ c_Expected c = v ∧
  c_Value c ≠ v ∧ sessions m !! c_ClientID c = None.

Lemma Apply_cas_from m c :
  cas_from m c →
  values (Apply m c).1 !! k =
    (if bool_decide (values m !! k = Some v) then Some (c_Value c) else values m !! k) ∧
  r_Applied (Apply m c).2.1 = bool_decide (values m !! k = Some v).
Proof.
  intros (Hv&Hop&<-&<-&Hne&Hs).
  rewrite (Apply_fresh _ _ (fresh_new_client _ _ Hv Hs)). simpl.
  rewrite execute_CAS by done.
  destruct (values m !! c_Key c) as [w|] eqn:Hw; simpl; [|by rewrite Hw].
  destruct (decide (w = c_Expected c)) as [->|Hne'].
  - rewrite !bool_decide_eq_true_2 by done. simpl. by rewrite lookup_insert_eq.
  - rewrite !bool_decide_eq_false_2 by congruence. simpl. by rewrite ?Hw.
Qed.

Lemma cas_from_step m c d :
  cas_from m d → c_ClientID d ≠ c_ClientID c → cas_from (Apply m c).1 d.
Proof.
  intros (?&?&?&?&?&?) ?. unfold cas_from. rewrite Apply_sessions_other by done. done.
Qed.

Lemma cas_race_lost m cs :
  values m !! k ≠ Some v → NoDup (c_ClientID <$> cs) →
  (∀ c, c ∈ cs → cas_from m c) → applied_count (ApplyAll m cs).2 = 0%nat.
Proof.
  revert m. induction cs as [|c cs IH]; intros m Hm Hnd Hcs; [done|].
  apply NoDup_cons in Hnd as [Hc Hnd].
  destruct (Apply_cas_from m c) as [Hv Ha]; [apply Hcs; by left|].
  rewrite bool_decide_eq_false_2 in Hv, Ha by done.
  assert (∀ d, d ∈ cs → cas_from (Apply m c).1 d) as Hcs'.
  { intros d Hd. apply cas_from_step; [apply Hcs; by right|].
    intros Heq. apply Hc. rewrite <-Heq. by apply list_elem_of_fmap_2. }
  simpl. destruct (Apply m c) as [m1 r]; simpl in *.
  specialize (IH m1). destruct (ApplyAll m1 cs) as [m2 rs]; simpl in *.
  rewrite applied_count_cons, Ha, IH; [done|by rewrite Hv|done|done].
Qed.

End cas.

(** ** Properties *)

(** C17. Exactly-once application: once a command has been applied with result
    [r], a retry of it returns the same [r] and leaves the machine unchanged,
    after any sequence of commands of other clients and of retries or older
    requests of the same client. *)
Theorem Apply_exactly_once m c m' r cs :
  Apply m c = (m', (r, None)) →
  (∀ d, d ∈ cs → c_ClientID d = c_ClientID c → c_RequestID d ≤ c_RequestID c) →
  Apply (ApplyAll m' cs).1 c = ((ApplyAll m' cs).1, (r, None)).
Proof.
  intros Ha Hcs. pose proof (Apply_valid _ _ _ _ Ha) as Hv.
  destruct (Apply_session _ _ _ _ Ha) as (p&Hp&Hc&<-).
  apply Apply_dup, (Check_session _ _ p); [done| |done].
  apply ApplyAll_session_stable; [done|]. by rewrite Hc.
Qed.

(** C18. The machine refines one sequential register per key: a command that is
    neither rejected nor a retry takes exactly the specification's step on the
    register at its key with the specification's result, leaves every other
    key alone, records the command and result as the client's session, and
    counts one operation. *)
Theorem Apply_refines_register m c m' r :
  fresh m c → Apply m c = (m', (r, None)) →
  (at_key m' (c_Key c), r) =
    stepRegister (at_key m (c_Key c)) (c_Operation c) (c_Expected c) (c_Value c) ∧
  (∀ k, k ≠ c_Key c → at_key m' k = at_key m k) ∧
  sessions m' = <[c_ClientID c := mkSession c r]> (sessions m) ∧
  count m' = add64 (count m) 1.
Proof.
  intros Hf. rewrite (Apply_fresh _ _ Hf). intros [= <- <-]. simpl. split_and!.
  - destruct (execute_at m c
      (mkMachine (execute (values m) c).1 (sessions m) 0)) as [H|H]; [done|done|].
    apply fresh_valid, Validate_None in Hf as (_&_&_&_&_&[?|[?|?]]); congruence.
  - intros k Hk. unfold at_key, Get. simpl. by rewrite execute_other.
  - done.
  - done.
Qed.

(** Every rejected command leaves the machine unchanged, and the errors are
    exactly these: an invalid command; a request id below the client's last
    one ([ErrStale]); the last request id with a different command
    ([ErrReused]). *)
Theorem Apply_error_spec m c e :
  (Apply m c).2.2 = Some e ↔
  Validate c = Some e ∧ Apply m c = (m, (zeroResult, Some e)) ∨
  ∃ p, Validate c = None ∧ sessions m !! c_ClientID c = Some p ∧
       Apply m c = (m, (zeroResult, Some e)) ∧
       (e = ErrStale ∧ c_RequestID c < c_RequestID (s_Command p) ∨
        e = ErrReused ∧ c_RequestID c = c_RequestID (s_Command p) ∧ c ≠ s_Command p).
Proof.
  split.
  - unfold Apply, Check. destruct (Validate c) as [e'|] eqn:Hv.
    { simpl. intros [= ->]. by left. }
    destruct (sessions m !! c_ClientID c) as [p|] eqn:Hp.
    2: { simpl. by destruct (execute (values m) c). }
    destruct (c_RequestID c <? _) eqn:E1.
    { simpl. intros [= <-]. tests. right. exists p. auto 10. }
    destruct (c_RequestID c =? _) eqn:E2.
    2: { simpl. by destruct (execute (values m) c). }
    case_bool_decide; simpl; [|done].
    intros [= <-]. tests. right. exists p. auto 10.
  - intros [[_ ->]|(p&_&_&->&_)]; done.
Qed.

(** A compare-and-set race has exactly one winner: among commands of
    distinct new clients that all replace the current value [v] of [k] by
    something else, in whatever order they are applied, exactly one is
    applied. *)
Theorem CAS_one_winner k v m cs :
  values m !! k = Some v → cs ≠ [] → NoDup (c_ClientID <$> cs) →
  (∀ c, c ∈ cs → cas_from k v m c) →
  applied_count (ApplyAll m cs).2 = 1%nat.
Proof.
  intros Hm Hne Hnd Hcs. destruct cs as [|c cs]; [done|].
  apply NoDup_cons in Hnd as [Hc Hnd].
  assert (cas_from k v m c) as Hcc by (apply Hcs; by left).
  destruct (Apply_cas_from k v m c Hcc) as [Hv Ha].
  rewrite bool_decide_eq_true_2 in Hv, Ha by done.
  assert (∀ d, d ∈ cs → cas_from k v (Apply m c).1 d) as Hcs'.
  { intros d Hd. apply cas_from_step; [apply Hcs; by right|].
    intros Heq. apply Hc. rewrite <-Heq. by apply list_elem_of_fmap_2. }
  simpl. destruct (Apply m c) as [m1 r]; simpl in *.
  pose proof (cas_race_lost k v m1 cs) as Hl.
  destruct (ApplyAll m1 cs) as [m2 rs]; simpl in *.
  rewrite applied_count_cons, Ha, Hl; [done| |done|done].
  rewrite Hv. intros [= ?]. by destruct Hcc as (_&_&_&_&?&_).
Qed.

(** C22. Snapshots round-trip: restoring the snapshot of any machine the program
    can reach succeeds, whatever machine it is restored into, and gives that
    machine back, retry sessions included. *)
Theorem Snapshot_roundtrip m0 cs :
  Restore m0 (takeSnapshot (ApplyAll New cs).1) = ((ApplyAll New cs).1, None).
Proof. apply Restore_takeSnapshot. auto with shardzero. Qed.

(** ** Witnesses *)

Definition ex_set : Command := mkCommand "a" 1 "SET" "score" "950" "".
Definition ex_cas (id : string) : Command := mkCommand id 1 "CAS" "score" "1000" "950".
Definition ex_machine : Machine := (Apply New ex_set).1.

Lemma Apply_exactly_once_witness :
  Apply (ApplyAll ex_machine [ex_cas "b"; ex_set]).1 ex_set =
    ((ApplyAll ex_machine [ex_cas "b"; ex_set]).1, (mkResult "950" true true false, None)).
Proof.
  apply (Apply_exactly_once New); [vm_compute; reflexivity|].
  intros d Hd. apply list_elem_of_In in Hd. simpl in Hd.
  destruct Hd as [<-|[<-|[]]]; vm_compute; congruence.
Defined.

Lemma Apply_refines_register_witness :
  fresh New ex_set ∧ Get ex_machine "score" = ("950", true) ∧
  (at_key ex_machine "score", mkResult "950" true true false) =
    stepRegister (at_key New "score") "SET" "" "950".
Proof.
  split_and!; [vm_compute; reflexivity..|].
  apply (Apply_refines_register New ex_set ex_machine (mkResult "950" true true false));
    vm_compute; reflexivity.
Defined.

Lemma CAS_one_winner_witness :
  applied_count (ApplyAll ex_machine [ex_cas "b"; ex_cas "c"]).2 = 1%nat.
Proof.
  apply (CAS_one_winner "score" "950"); [vm_compute; reflexivity|discriminate|..].
  - apply (bool_decide_unpack _). vm_compute. exact I.
  - intros c Hc. apply list_elem_of_In in Hc. simpl in Hc.
    destruct Hc as [<-|[<-|[]]]; split_and!; try (vm_compute; reflexivity); discriminate.
Defined.
