(* ===== verification/Bytes.v ===== *)
(** * Bytes: the encodings the journal relies on

    [binary.BigEndian.PutUint32]/[Uint32] and [crc32.ChecksumIEEE] of the Go
    library, computed on byte lists, with the facts the journal needs: the
    32-bit round trip, and that a checksum changes whenever exactly one byte of
    its input does. *)

From Stdlib Require Import Strings.Byte.
From stdpp Require Import base numbers list options.
From S2P Require Import Prelude.

Local Open Scope N_scope.

Notation bytes := (list byte).

#[export] Instance byte_eq_dec : EqDecision byte := Byte.byte_eq_dec.

(** ** Big-endian 32-bit integers *)

Definition byte_of_N (n : N) : byte :=
  match Byte.of_N (n mod 256) with Some b => b | None => x00 end.

Definition PutUint32 (n : N) : bytes :=
  [byte_of_N (N.shiftr n 24); byte_of_N (N.shiftr n 16);
   byte_of_N (N.shiftr n 8); byte_of_N n].

Definition Uint32 (b : bytes) : N :=
  match b with
  | b0 :: b1 :: b2 :: b3 :: _ =>
    Byte.to_N b0 * 16777216 + Byte.to_N b1 * 65536 + Byte.to_N b2 * 256 + Byte.to_N b3
  | _ => 0
  end.

(** ** CRC-32 (IEEE, reflected) *)

Definition crc_poly : N := 3988292384. (* 0xEDB88320 *)
Definition crc_mask : N := 4294967295.

(** One bit of the shift register. *)
Definition crc_bit (s : N) : N :=
  if N.odd s then N.lxor (N.shiftr s 1) crc_poly else N.shiftr s 1.

Definition crc_byte (s : N) (b : byte) : N :=
  Nat.iter 8 crc_bit (N.lxor s (Byte.to_N b)).

Definition ChecksumIEEE (p : bytes) : N :=
  N.lxor (fold_left crc_byte p crc_mask) crc_mask.

(** ** Lemmas *)

Lemma to_N_lt b : Byte.to_N b < 256.
Proof. pose proof (Byte.to_N_bounded b). lia. Qed.

Lemma to_N_byte_of_N n : Byte.to_N (byte_of_N n) = n mod 256.
Proof.
  unfold byte_of_N. destruct (Byte.of_N (n mod 256)) as [b|] eqn:E.
  - by apply Byte.to_of_N in E.
  - apply Byte.of_N_None_iff in E. pose proof (N.mod_lt n 256). lia.
Qed.

Lemma to_N_inj b c : Byte.to_N b = Byte.to_N c → b = c.
Proof.
  intros H. pose proof (Byte.of_to_N b) as Hb. rewrite H, Byte.of_to_N in Hb.
  by injection Hb.
Qed.

Lemma Uint32_PutUint32 n rest : n < two32 → Uint32 (PutUint32 n ++ rest) = n.
Proof.
  intros Hn. unfold two32 in Hn. unfold Uint32, PutUint32. cbn [app].
  rewrite !to_N_byte_of_N, !N.shiftr_div_pow2.
  replace (n / 2 ^ 24) with (n / 256 / 256 / 256) by (by rewrite !N.Div0.div_div).
  replace (n / 2 ^ 16) with (n / 256 / 256) by (by rewrite !N.Div0.div_div).
  change (2 ^ 8) with 256.
  pose proof (N.Div0.div_mod n 256) as H0.
  pose proof (N.Div0.div_mod (n / 256) 256) as H1.
  pose proof (N.Div0.div_mod (n / 256 / 256) 256) as H2.
  assert (n / 256 / 256 / 256 < 256) as H3.
  { rewrite !N.Div0.div_div. by apply N.Div0.div_lt_upper_bound. }
  rewrite (N.mod_small (n / 256 / 256 / 256)) by done.
  revert H0 H1 H2 H3.
  generalize (n mod 256), (n / 256 mod 256), (n / 256 / 256 mod 256).
  generalize (n / 256 / 256 / 256). generalize (n / 256 / 256). generalize (n / 256).
  intros. lia.
Qed.

Lemma length_PutUint32 n : length (PutUint32 n) = 4%nat.
Proof. done. Qed.

(** *** The checksum register *)

Lemma lxor_lt32 a b : a < two32 → b < two32 → N.lxor a b < two32.
Proof.
  intros Ha Hb. change two32 with (2 ^ 32) in *.
  destruct (N.eq_dec (N.lxor a b) 0) as [->|Hne]; [done|].
  apply N.log2_lt_pow2; [lia|].
  pose proof (N.log2_lxor a b).
  assert (∀ x, x < 2 ^ 32 → N.log2 x < 32) as Hl.
  { intros x Hx. destruct (N.eq_dec x 0) as [->|]; [done|].
    apply N.log2_lt_pow2; lia. }
  pose proof (Hl a Ha). pose proof (Hl b Hb). lia.
Qed.

Lemma crc_bit_lt s : s < two32 → crc_bit s < two32.
Proof.
  intros Hs. assert (N.shiftr s 1 < two32) as Hsh.
  { rewrite N.shiftr_div_pow2. change (2 ^ 1) with 2.
    pose proof (N.Div0.div_le_upper_bound s 2 s). lia. }
  unfold crc_bit. destruct (N.odd s); [|done]. by apply lxor_lt32.
Qed.

(** The top bit of the shifted register is the bit shifted out, so a step can
    be undone. *)
Lemma crc_bit_top s : s < two32 → N.testbit (crc_bit s) 31 = N.odd s.
Proof.
  intros Hs.
  assert (N.testbit (N.shiftr s 1) 31 = false) as Hsh.
  { rewrite N.shiftr_spec'. change (31 + 1) with 32.
    destruct (N.eq_dec s 0) as [->|]; [done|].
    apply N.bits_above_log2. apply N.log2_lt_pow2; [lia|exact Hs]. }
  unfold crc_bit. destruct (N.odd s); [|done].
  by rewrite N.lxor_spec, Hsh.
Qed.

Lemma crc_bit_inj s t : s < two32 → t < two32 → crc_bit s = crc_bit t → s = t.
Proof.
  intros Hs Ht H.
  assert (N.odd s = N.odd t) as Hodd by (by rewrite <-!crc_bit_top, H).
  assert (N.shiftr s 1 = N.shiftr t 1) as Hsh.
  { unfold crc_bit in H. rewrite Hodd in H. destruct (N.odd t); [|done].
    apply (f_equal (λ x, N.lxor x crc_poly)) in H.
    by rewrite !N.lxor_assoc, N.lxor_nilpotent, !N.lxor_0_r in H. }
  rewrite <-!N.div2_spec in Hsh.
  rewrite (N.div2_odd s), (N.div2_odd t). by rewrite Hsh, Hodd.
Qed.

Lemma crc_iter_inj n s t :
  s < two32 → t < two32 →
  Nat.iter n crc_bit s = Nat.iter n crc_bit t → s = t.
Proof.
  assert (∀ n x, x < two32 → Nat.iter n crc_bit x < two32) as Hlt.
  { intros k x Hx. induction k; simpl; auto using crc_bit_lt. }
  intros Hs Ht. induction n; simpl; [done|].
  intros H. apply IHn. apply crc_bit_inj; auto.
Qed.

Lemma crc_byte_lt s b : s < two32 → crc_byte s b < two32.
Proof.
  intros Hs. unfold crc_byte.
  assert (N.lxor s (Byte.to_N b) < two32) as Hx.
  { apply lxor_lt32; [done|]. pose proof (to_N_lt b). unfold two32. lia. }
  revert Hx. generalize (N.lxor s (Byte.to_N b)). generalize 8%nat.
  intros n x Hx. induction n; simpl; auto using crc_bit_lt.
Qed.

Lemma lxor_cancel_r a b c : N.lxor a c = N.lxor b c → a = b.
Proof.
  intros H. apply (f_equal (λ x, N.lxor x c)) in H.
  by rewrite !N.lxor_assoc, N.lxor_nilpotent, !N.lxor_0_r in H.
Qed.

Lemma lxor_cancel_l a b c : N.lxor c a = N.lxor c b → a = b.
Proof. rewrite !(N.lxor_comm c). apply lxor_cancel_r. Qed.

Lemma crc_byte_inj_state s t b :
  s < two32 → t < two32 → crc_byte s b = crc_byte t b → s = t.
Proof.
  intros Hs Ht H. pose proof (to_N_lt b).
  assert (Byte.to_N b < two32) by (unfold two32; lia).
  apply crc_iter_inj in H; [|by apply lxor_lt32..].
  by apply lxor_cancel_r in H.
Qed.

Lemma crc_byte_inj_byte s b c : s < two32 → crc_byte s b = crc_byte s c → b = c.
Proof.
  intros Hs H. pose proof (to_N_lt b). pose proof (to_N_lt c).
  assert (Byte.to_N b < two32) by (unfold two32; lia).
  assert (Byte.to_N c < two32) by (unfold two32; lia).
  apply crc_iter_inj in H; [|by apply lxor_lt32..].
  by apply lxor_cancel_l, to_N_inj in H.
Qed.

Lemma crc_fold_lt p s : s < two32 → fold_left crc_byte p s < two32.
Proof. revert s. induction p; simpl; auto using crc_byte_lt. Qed.

Lemma crc_fold_inj p s t :
  s < two32 → t < two32 → fold_left crc_byte p s = fold_left crc_byte p t → s = t.
Proof.
  revert s t. induction p as [|b p IH]; intros s t Hs Ht H; simpl in *; [done|].
  apply IH in H; [|by apply crc_byte_lt..]. by apply crc_byte_inj_state in H.
Qed.

Lemma ChecksumIEEE_lt p : ChecksumIEEE p < two32.
Proof. apply lxor_lt32; [by apply crc_fold_lt|done]. Qed.

(** A change of one byte changes the checksum. *)
Lemma ChecksumIEEE_one_byte p b c q :
  b ≠ c → ChecksumIEEE (p ++ b :: q) ≠ ChecksumIEEE (p ++ c :: q).
Proof.
  intros Hbc H. unfold ChecksumIEEE in H. apply lxor_cancel_r in H.
  rewrite !fold_left_app in H. simpl in H.
  assert (fold_left crc_byte p crc_mask < two32) by (by apply crc_fold_lt).
  apply crc_fold_inj in H; [|by apply crc_byte_lt..].
  by apply crc_byte_inj_byte in H.
Qed.

(** The published check value of CRC-32: "123456789" gives 0xCBF43926. *)
Lemma ChecksumIEEE_check :
  ChecksumIEEE [x31; x32; x33; x34; x35; x36; x37; x38; x39] = 3421780262.
Proof. vm_compute. reflexivity. Qed.
