(* ===== verification/Wal.v ===== *)
(** * Wal: the checksummed journal (src/internal/storage/wal.go)

    The model runs on a [Disk]: the files of one data directory with their
    bytes, the part of them that has been synced, the advisory locks held, and a
    plan of injected I/O outcomes.  Every system call of the source takes the next
    outcome of the plan (an empty plan means success), so each early return of the
    source is a branch of the model.  Writes append at the end of the file: the
    journal seeks there on opening and is its only writer.

    What a file holds before it is synced, and the names of a directory before it
    is synced, may be lost when the power fails.  The disk carries a plan of
    [outages] too, which says of each end of the process whether the power fails,
    and then how much of what is not synced is lost. *)

From Stdlib Require Import Strings.Byte.
From stdpp Require Import base numbers list gmap strings fin_maps pretty options.
From S2P Require Import Prelude Effects Bytes.

Local Open Scope N_scope.

Definition MaxRecordBytes : N := 16777216.

(** ** The operating system *)

(** What one system call does: [f_written] is the number of bytes a write gets
    through when it is short, [f_err] the error returned. *)
Record fault := mkFault { f_written : option nat; f_err : option error }.
Definition no_fault : fault := mkFault None None.

(** A file on the disk: what its last sync has made stable, and what it holds. *)
Definition file : Type := bytes * bytes.

(** What a power failure does to a name: [da_entry] is the directory entry that is
    found, the present one or one of those that it has replaced since the directory
    was synced; of the file's contents, what was not synced is lost but for
    [da_kept] bytes, of the new contents or, where they had been cut, of the old. *)
Record damage := mkDamage { da_entry : nat; da_newer : bool; da_kept : nat }.

Inductive outage :=
  | ProcessEnd                              (* the system goes on *)
  | PowerLoss (damages : string → damage).

Record Disk := mkDisk {
  files : gmap string bytes;
  synced : gmap string bytes;
  earlier : gmap string (list (option file));   (* the entries replaced since the directory was synced *)
  locks : gset string;
  faults : list fault;
  outages : list outage;
}.

Definition next_fault : M Disk fault := λ d,
  match faults d with
  | [] => Some (no_fault, d)
  | f :: fs => Some (f, mkDisk (files d) (synced d) (earlier d) (locks d) fs (outages d))
  end.

(** A call that can fail and changes nothing of the model ([MkdirAll], [Stat],
    [Seek], reads). *)
Definition sys : M Disk (option error) :=
  f ← next_fault; mret (f_err f).

Definition set_file (name : string) (b : bytes) (d : Disk) : Disk :=
  mkDisk (<[name := b]> (files d)) (synced d) (earlier d) (locks d) (faults d) (outages d).

Definition set_locks (ls : gset string) (d : Disk) : Disk :=
  mkDisk (files d) (synced d) (earlier d) ls (faults d) (outages d).

Definition file_at (d : Disk) (name : string) : option file :=
  (λ b, (default [] (synced d !! name), b)) <$> files d !! name.

(** A directory entry changes: [name] is now the file [x], or gone. *)
Definition link (name : string) (x : option file) (d : Disk) : Disk :=
  mkDisk (partial_alter (λ _, snd <$> x) name (files d)) (partial_alter (λ _, fst <$> x) name (synced d))
    (<[name := file_at d name :: default [] (earlier d !! name)]> (earlier d)) (locks d) (faults d) (outages d).

(** [file.Sync] and [syncDirectory]: when they succeed, the contents of the file, or
    the names of the directory, are stable. *)
Definition sync_file (name : string) : M Disk (option error) :=
  e ← sys;
  match e with
  | Some e => mret (Some e)
  | None =>
    modify (λ d, mkDisk (files d) (<[name := default [] (files d !! name)]> (synced d)) (earlier d)
                   (locks d) (faults d) (outages d)) ;;
    mret None
  end.

Definition syncDirectory : M Disk (option error) :=
  e ← sys;
  match e with
  | Some e => mret (Some e)
  | None => modify (λ d, mkDisk (files d) (synced d) ∅ (locks d) (faults d) (outages d)) ;; mret None
  end.

(** [os.OpenFile] with [O_CREATE], and with [O_TRUNC] too. *)
Definition open_create (name : string) : M Disk (option error) :=
  e ← sys;
  match e with
  | Some e => mret (Some e)
  | None =>
    modify (λ d, match files d !! name with Some _ => d | None => link name (Some ([], [])) d end) ;;
    mret None
  end.

Definition open_truncate (name : string) : M Disk (option error) :=
  e ← open_create name;
  match e with
  | Some e => mret (Some e)
  | None => modify (set_file name []) ;; mret None
  end.

(** [lockFile]: an exclusive lock, refused when another handle holds it. *)
Definition lockFile (name : string) : M Disk (option error) :=
  e ← sys;
  match e with
  | Some e => mret (Some e)
  | None =>
    d ← get;
    if bool_decide (name ∈ locks d) then mret (Some (ErrNew "resource temporarily unavailable"))
    else modify (λ d, set_locks ({[name]} ∪ locks d) d) ;; mret None
  end.

(** Closing a handle releases its lock. *)
Definition close_file (name : string) : M Disk (option error) :=
  e ← sys;
  modify (λ d, set_locks (locks d ∖ {[name]}) d) ;;
  mret e.

(** [file.Write]: the number of bytes written and the error. *)
Definition write_file (name : string) (b : bytes) : M Disk (nat * option error) :=
  f ← next_fault;
  let n := match f_written f with None => length b | Some k => Nat.min k (length b) end in
  modify (λ d, set_file name (default [] (files d !! name) ++ take n b) d) ;;
  mret (n, f_err f).

Definition truncateTail (name : string) (offset : N) : M Disk (option error) :=
  e ← sys;
  match e with
  | Some e => mret (Some e)
  | None =>
    modify (λ d, set_file name (takeN offset (default [] (files d !! name))) d) ;;
    sync_file name
  end.

(** ** The journal *)

Record WAL := mkWAL {
  w_path : string;             (* file name within the directory *)
  w_open : bool;               (* [w.file] is an open handle on it *)
  w_lock : option bool;        (* [w.lock]: nil, or a handle, open or closed *)
  w_failed : option error;
}.

Definition directory_lock : string := "directory.lock".

(** A framed record: length, checksum, payload. *)
Definition frame (payload : bytes) : bytes :=
  PutUint32 (lenN payload mod two32) ++ PutUint32 (ChecksumIEEE payload) ++ payload.
#[global] Arguments frame : simpl never.

Definition replay_error (offset : N) (err : error) : error :=
  ErrWrap ("WAL replay at byte " +:+ pretty offset +:+ ": ") err.

(** The replay loop of [OpenJournal].  [rest] is the part of the file from
    [offset] on; [r] is the state of the [replay] callback.  Every iteration
    consumes at least eight bytes, so [length rest] iterations are enough. *)
Section scan.
Context {R : Type} (replay : bytes → R → R * option error) (name : string).

Fixpoint scan (fuel : nat) (offset : N) (rest : bytes) (r : R) : M Disk (R * option error) :=
  match fuel with
  | O => mret (r, None)
  | S fuel =>
    e ← sys;
    match e with
    | Some e => mret (r, Some e)
    | None =>
      if bool_decide (rest = []) then mret (r, None) (* io.EOF *)
      else if lenN rest <? 8 then (* io.ErrUnexpectedEOF *)
        e ← truncateTail name offset; mret (r, e)
      else
        let header := takeN 8 rest in
        let body := dropN 8 rest in
        let len := Uint32 (takeN 4 header) in
        if (len =? 0) || (MaxRecordBytes <? len)
        then mret (r, Some (ErrNew ("invalid WAL length at byte " +:+ pretty offset)))
        else
          e ← sys;
          match e with
          | Some e => mret (r, Some e)
          | None =>
            if lenN body <? len then
              e ← truncateTail name offset; mret (r, e)
            else
              let payload := takeN len body in
              if negb (ChecksumIEEE payload =? Uint32 (dropN 4 header))
              then mret (r, Some (ErrNew ("WAL checksum mismatch at byte " +:+ pretty offset)))
              else
                let '(r, err) := replay payload r in
                match err with
                | Some err => mret (r, Some (replay_error offset err))
                | None => scan fuel (offset + add32 8 len) (dropN len body) r
                end
          end
    end
  end.

Definition other_journal : string :=
  if bool_decide (name = "raft.wal") then "commands.wal" else "raft.wal".

(** [fail]: both handles are closed, their results ignored. *)
Definition open_fail (r : R) (err : error) : M Disk (R * (error + WAL)) :=
  _ ← close_file name;
  _ ← close_file directory_lock;
  mret (r, inl err).

Definition OpenJournal (r : R) : M Disk (R * (error + WAL)) :=
  if negb (bool_decide (name = "commands.wal") || bool_decide (name = "raft.wal"))
  then mret (r, inl (ErrNew "unknown journal"))
  else
  e ← sys; (* MkdirAll *)
  match e with Some e => mret (r, inl e) | None =>
  e ← open_create directory_lock;
  match e with Some e => mret (r, inl e) | None =>
  e ← lockFile directory_lock;
  match e with
  | Some e =>
    (* the handle that failed to lock is closed; the owner's lock stays *)
    _ ← sys; mret (r, inl (ErrWrap "data directory is already in use: " e))
  | None =>
  e ← sys; (* Stat of the other journal *)
  d ← get;
  if bool_decide (e ≠ None) || bool_decide (is_Some (files d !! other_journal)) then
    _ ← close_file directory_lock; 
    mret (r, inl (ErrNew ("incompatible data directory: " +:+ other_journal +:+
                          " exists or cannot be inspected; use a fresh directory")))
  else
  e ← open_create name;
  match e with Some e => _ ← close_file directory_lock; mret (r, inl e) | None =>
  e ← lockFile name;
  match e with
  | Some e =>
    _ ← sys; _ ← close_file directory_lock;
    mret (r, inl (ErrWrap "data directory is already in use or cannot be locked: " e))
  | None =>
  d ← get;
  let content := default [] (files d !! name) in
  x ← scan (S (length content)) 0 content r;
  let '(r, err) := x in
  match err with Some err => open_fail r err | None =>
  e ← sys; (* Seek *)
  match e with Some e => open_fail r e | None =>
  e ← sync_file name;
  match e with Some e => open_fail r e | None =>
  e ← syncDirectory;
  match e with Some e => open_fail r e | None =>
  mret (r, inr (mkWAL name true (Some true) None))
  end end end end end end end end end.

End scan.

(** [Open]: the standalone journal. *)
Definition Open {R} (replay : bytes → R → R * option error) (r : R) :=
  OpenJournal replay "commands.wal" r.

Definition invalid_size (payload : bytes) : bool :=
  (lenN payload =? 0) || (MaxRecordBytes <? lenN payload).

(** [WAL.Append], on the journal and its disk. *)
Definition Append (payload : bytes) : M (WAL * Disk) (option error) := λ '(w, d),
  match w_failed w with
  | Some e => Some (Some e, (w, d))
  | None =>
    if invalid_size payload then Some (Some (ErrNew "invalid record size"), (w, d))
    else
      let record := frame payload in
      match
        (* a closed handle writes nothing *)
        (if w_open w then write_file (w_path w) record d
         else Some ((0%nat, Some (ErrNew "file already closed")), d)) with
      | None => None
      | Some ((n, err), d) =>
        let err := match err with
                   | None => if negb (n =? length record)%nat then Some ErrShortWrite else None
                   | e => e end in
        match (match err with None => sync_file (w_path w) d | Some e => Some (Some e, d) end) with
        | None => None
        | Some (err, d) =>
          let failed := match err with
                        | Some e => Some (ErrWrap "WAL unavailable; restart required: " e)
                        | None => None end in
          Some (failed, (mkWAL (w_path w) (w_open w) (w_lock w) failed, d))
        end
      end
  end.

(** Closing a handle that may already be closed. *)
Definition close_handle (name : string) (is_open : bool) : M Disk (option error) :=
  if is_open then close_file name else mret (Some (ErrNew "file already closed")).

Definition join (e1 e2 : option error) : option error :=
  match e1, e2 with
  | None, e | e, None => e
  | Some e, Some e' => Some (ErrJoin e e')
  end.

Definition Close : M (WAL * Disk) (option error) := λ '(w, d),
  match
    (err ← close_handle (w_path w) (w_open w);
     match w_lock w with
     | None => mret err
     | Some is_open => e ← close_handle directory_lock is_open; mret (join err e)
     end) d with
  | None => None
  | Some (err, d) =>
    Some (err, (mkWAL (w_path w) false ((λ _, false) <$> w_lock w) (w_failed w), d))
  end.

Definition tmp_name (w : WAL) : string := w_path w +:+ ".compact".

Definition remove_file (name : string) : M Disk unit :=
  e ← sys;
  match e with
  | Some _ => mret tt
  | None => modify (link name None)
  end.

(** [os.Rename]. *)
Definition rename_file (old new : string) : M Disk (option error) :=
  e ← sys;
  match e with
  | Some e => mret (Some e)
  | None =>
    d ← get;
    match file_at d old with
    | None => mret (Some (ErrNew "no such file or directory"))
    | Some x => modify (λ d, link old None (link new (Some x) d)) ;; mret None
    end
  end.

(** [fail] of [Replace]. *)
Definition replace_fail (tmp : string) (e : error) : M Disk (option error) :=
  _ ← close_file tmp; remove_file tmp ;; mret (Some e).

Fixpoint write_all (tmp : string) (payloads : list bytes) : M Disk (option error) :=
  match payloads with
  | [] => mret None
  | payload :: payloads' =>
    if invalid_size payload then mret (Some (ErrNew "invalid record size"))
    else
      x ← write_file tmp (frame payload);
      let '(n, e) := x in
      if bool_decide (e ≠ None) || negb (n =? length (frame payload))%nat
      then mret (Some (default ErrShortWrite e))
      else write_all tmp payloads'
  end.

(** The part of [Replace] after the temporary file is complete.  The returned
    flags say whether [w.file] is an open handle on the path. *)
Definition install (w : WAL) (tmp : string) : M Disk (option error * bool) :=
  e ← close_file tmp;
  match e with Some e => remove_file tmp ;; mret (Some e, w_open w) | None =>
  e ← close_handle (w_path w) (w_open w); (* old.Close() *)
  match e with Some e => remove_file tmp ;; mret (Some e, false) | None =>
  e ← rename_file tmp (w_path w);
  match e with Some e => mret (Some e, false) | None =>
  e ← syncDirectory;
  match e with Some e => mret (Some e, false) | None =>
  e ← sys; (* OpenFile *)
  match e with Some e => mret (Some e, false) | None =>
  e ← lockFile (w_path w);
  match e with
  | Some e => _ ← sys; mret (Some e, false)
  | None => mret (None, true)
  end end end end end end.

Definition Replace (payloads : list bytes) : M (WAL * Disk) (option error) := λ '(w, d),
  match w_failed w with
  | Some e => Some (Some e, (w, d))
  | None =>
    let tmp := tmp_name w in
    match
      (e ← open_truncate tmp;
       match e with Some e => mret (Some e, w_open w) | None =>
       e ← write_all tmp payloads;
       match e with Some e => e ← replace_fail tmp e; mret (e, w_open w) | None =>
       e ← sync_file tmp;
       match e with Some e => e ← replace_fail tmp e; mret (e, w_open w) | None =>
       install w tmp
       end end end) d with
    | None => None
    | Some ((err, is_open), d) =>
      Some (err, (mkWAL (w_path w) is_open (w_lock w) (w_failed w), d))
    end
  end.

(** *** The end of the process

    Its locks are released, its handles are gone.  If the power fails with it, every
    file is left with what was synced and some of what was not. *)

(** The length of the longest common prefix: what is stable and still there. *)
Fixpoint common (s b : bytes) : nat :=
  match s, b with
  | x :: s, y :: b => if Byte.eqb x y then S (common s b) else 0
  | _, _ => 0
  end.

Definition settle (g : damage) (x : file) : bytes :=
  take (common x.1 x.2 + da_kept g) (if da_newer g then x.2 else x.1).

(** The entry that is found under a name. *)
Definition found (i : nat) (now : option file) (before : list (option file)) : option file :=
  match i with O => now | S i => default now (before !! i) end.

Definition left_of (damages : string → damage) (d : Disk) (name : string) : option bytes :=
  let g := damages name in
  settle g <$> found (da_entry g) (file_at d name) (default [] (earlier d !! name)).

Definition remains (damages : string → damage) (d : Disk) : gmap string bytes :=
  map_imap (λ name _, left_of damages d name) (gset_to_gmap tt (dom (files d) ∪ dom (earlier d))).

Definition crash (d : Disk) : Disk :=
  match outages d with
  | PowerLoss damages :: os => mkDisk (remains damages d) (remains damages d) ∅ ∅ [] os
  | os => mkDisk (files d) (synced d) (earlier d) ∅ [] (tail os)
  end.

(** ** What a journal file holds

    Complete frames, then possibly the beginning of one more: what a write that
    was cut short leaves behind. *)

Definition valid_payload (p : bytes) : Prop := 0 < lenN p ∧ lenN p ≤ MaxRecordBytes.
Definition valid_payload_bool (p : bytes) : bool :=
  (0 <? lenN p) && (lenN p <=? MaxRecordBytes).

Definition torn_tail (t : bytes) : Prop :=
  t = [] ∨ ∃ p k, valid_payload p ∧ (k < length (frame p))%nat ∧ t = take k (frame p).

Definition frames (bs : list bytes) : bytes := concat (frame <$> bs).

Record holds (name : string) (d : Disk) (bs : list bytes) (torn : bytes) : Prop := {
  holds_file : files d !! name = Some (frames bs ++ torn);
  holds_valid : Forall valid_payload bs;
  holds_torn : torn_tail torn;
}.

(** A file that no outage can change. *)
Record settled (name : string) (b : bytes) (d : Disk) : Prop := {
  se_file : files d !! name = Some b;
  se_synced : synced d !! name = Some b;
  se_entry : earlier d !! name = None;
}.

(** There is no file of this name, and there has been none. *)
Record absent (name : string) (d : Disk) : Prop := {
  ab_file : files d !! name = None;
  ab_entry : earlier d !! name = None;
}.

(** A journal in use: the next outage leaves [bs], and possibly a torn tail; one
    that can still be appended to is stable. *)
Record wal_holds (w : WAL) (d : Disk) (bs : list bytes) : Prop := {
  wh_left : ∃ torn, holds (w_path w) (crash d) bs torn;
  wh_stable : w_failed w = None → w_open w = true → settled (w_path w) (frames bs) d;
}.

(** Replaying a list of payloads with the callback of [OpenJournal]. *)
Fixpoint replay_all {R} (replay : bytes → R → R * option error) (bs : list bytes) (r : R)
    : R * option error :=
  match bs with
  | [] => (r, None)
  | b :: bs' =>
    let '(r, err) := replay b r in
    match err with
    | Some err => (r, Some err)
    | None => replay_all replay bs' r
    end
  end.

(** The offset of the record whose replay fails. *)
Fixpoint failing_at {R} (replay : bytes → R → R * option error) (offset : N) (bs : list bytes) (r : R) : N :=
  match bs with
  | [] => offset
  | b :: bs' =>
    match replay b r with
    | (_, Some _) => offset
    | (r, None) => failing_at replay (offset + (8 + lenN b)) bs' r
    end
  end.

(** A disk no process is using, with no I/O error planned. *)
Definition quiet (d : Disk) : Prop := locks d = ∅ ∧ faults d = [].

(** ** Lemmas *)

Lemma takeN_app_exact {A} (l1 l2 : list A) n :
  n = lenN l1 → takeN n (l1 ++ l2) = l1.
Proof. intros ->. rewrite takeN_take. unfold lenN. by rewrite Nat2N.id, take_app_length. Qed.

Lemma dropN_app_exact {A} (l1 l2 : list A) n :
  n = lenN l1 → dropN n (l1 ++ l2) = l2.
Proof. intros ->. rewrite dropN_drop. unfold lenN. by rewrite Nat2N.id, drop_app_length. Qed.

Lemma length_frame p : length (frame p) = (8 + length p)%nat.
Proof. unfold frame. rewrite !length_app, !length_PutUint32. lia. Qed.

Lemma invalid_size_valid p : invalid_size p = false ↔ valid_payload p.
Proof.
  unfold invalid_size, valid_payload. rewrite orb_false_iff, N.eqb_neq, N.ltb_ge. lia.
Qed.

Lemma frame_header p rest :
  takeN 8 (frame p ++ rest) = PutUint32 (lenN p mod two32) ++ PutUint32 (ChecksumIEEE p).
Proof. unfold frame. rewrite !app_assoc, <-(app_assoc _ p). by apply takeN_app_exact. Qed.

Lemma frame_body p rest : dropN 8 (frame p ++ rest) = p ++ rest.
Proof. unfold frame. rewrite !app_assoc, <-(app_assoc _ p). by apply dropN_app_exact. Qed.

Lemma header_length p (c : bytes) :
  valid_payload p → Uint32 (takeN 4 (PutUint32 (lenN p mod two32) ++ c)) = lenN p.
Proof.
  intros [? Hp]. rewrite takeN_app_exact by done.
  rewrite <-(app_nil_r (PutUint32 _)), Uint32_PutUint32; unfold two32, MaxRecordBytes in *.
  - by rewrite N.mod_small by lia.
  - by apply N.mod_lt.
Qed.

Lemma header_checksum p n :
  Uint32 (dropN 4 (PutUint32 n ++ PutUint32 (ChecksumIEEE p))) = ChecksumIEEE p.
Proof.
  rewrite dropN_app_exact by done.
  rewrite <-(app_nil_r (PutUint32 _)). apply Uint32_PutUint32, ChecksumIEEE_lt.
Qed.

Lemma frames_cons b bs : frames (b :: bs) = frame b ++ frames bs.
Proof. done. Qed.

Lemma frames_snoc bs b : frames (bs ++ [b]) = frames bs ++ frame b.
Proof. unfold frames. rewrite fmap_app, concat_app. simpl. by rewrite app_nil_r. Qed.

Lemma sys_quiet d : faults d = [] → sys d = Some (None, d).
Proof. intros H. unfold sys, next_fault, mbind, M_bind. by rewrite H. Qed.

Lemma bind_ok {S A B} (m : M S A) (f : A → M S B) s a s' :
  m s = Some (a, s') → (m ≫= f) s = f a s'.
Proof. unfold mbind, M_bind. by intros ->. Qed.

Lemma bind_None {S A B} (m : M S A) (f : A → M S B) s :
  m s = None → (m ≫= f) s = None.
Proof. unfold mbind, M_bind. by intros ->. Qed.

(** A file after a sync. *)
Definition set_synced (name : string) (d : Disk) : Disk :=
  mkDisk (files d) (<[name := default [] (files d !! name)]> (synced d)) (earlier d) (locks d) (faults d) (outages d).

Lemma sync_file_quiet name d : faults d = [] → sync_file name d = Some (None, set_synced name d).
Proof. intros H. unfold sync_file. by rewrite (bind_ok _ _ _ _ _ (sys_quiet d H)). Qed.

Lemma syncDirectory_quiet d :
  faults d = [] → syncDirectory d = Some (None, mkDisk (files d) (synced d) ∅ (locks d) (faults d) (outages d)).
Proof. intros H. unfold syncDirectory. by rewrite (bind_ok _ _ _ _ _ (sys_quiet d H)). Qed.

(** The file after it has been cut and synced. *)
Definition cut (name : string) (off : N) (d : Disk) : Disk :=
  set_synced name (set_file name (takeN off (default [] (files d !! name))) d).

Lemma truncateTail_quiet name off d : faults d = [] → truncateTail name off d = Some (None, cut name off d).
Proof.
  intros H. unfold truncateTail. rewrite (bind_ok _ _ _ _ _ (sys_quiet d H)).
  unfold mbind, M_bind, modify. by rewrite sync_file_quiet.
Qed.

(** One complete frame is read, checked and handed to the callback. *)
Lemma scan_frame {R} (replay : bytes → R → R * option error) name fuel off p rest r d :
  faults d = [] → valid_payload p →
  scan replay name (S fuel) off (frame p ++ rest) r d =
    match replay p r with
    | (r', Some e) => Some ((r', Some (replay_error off e)), d)
    | (r', None) => scan replay name fuel (off + (8 + lenN p)) rest r' d
    end.
Proof.
  intros Hq Hp. cbn [scan]. rewrite (bind_ok _ _ _ _ _ (sys_quiet d Hq)).
  rewrite bool_decide_eq_false_2.
  2: { intros H. apply (f_equal length) in H. rewrite length_app, length_frame in H. simpl in H. lia. }
  replace (lenN (frame p ++ rest) <? 8) with false.
  2: { symmetry. apply N.ltb_ge. unfold lenN. rewrite length_app, length_frame. lia. }
  rewrite frame_header, frame_body, header_length, header_checksum by done.
  rewrite (takeN_app_exact p rest), (dropN_app_exact p rest) by done.
  replace ((lenN p =? 0) || (MaxRecordBytes <? lenN p)) with false
    by (symmetry; by apply invalid_size_valid).
  rewrite (bind_ok _ _ _ _ _ (sys_quiet d Hq)).
  replace (lenN (p ++ rest) <? lenN p) with false
    by (symmetry; apply N.ltb_ge; rewrite lenN_app; lia).
  rewrite N.eqb_refl. simpl. destruct (replay p r) as [r' [e|]]; [done|].
  destruct Hp as [_ Hp]. unfold add32, MaxRecordBytes in *.
  rewrite N.mod_small; [done|]. unfold two32. lia.
Qed.

Lemma take_frame_header p k :
  (8 ≤ k)%nat →
  take k (frame p) =
    (PutUint32 (lenN p mod two32) ++ PutUint32 (ChecksumIEEE p)) ++ take (k - 8) p.
Proof.
  intros Hk. unfold frame. rewrite app_assoc.
  rewrite take_app_ge by (rewrite length_app, !length_PutUint32; lia).
  by rewrite length_app, !length_PutUint32.
Qed.

Lemma scan_torn {R} (replay : bytes → R → R * option error) name fuel off torn r d :
  faults d = [] → torn_tail torn →
  scan replay name (S fuel) off torn r d =
    Some ((r, None),
      if decide (torn = []) then d
      else cut name off d).
Proof.
  intros Hq Ht. cbn [scan]. rewrite (bind_ok _ _ _ _ _ (sys_quiet d Hq)).
  destruct (decide (torn = [])) as [Hn|Hn]; [by rewrite bool_decide_eq_true_2|].
  rewrite bool_decide_eq_false_2 by done.
  destruct Ht as [?|(p&k&Hp&Hk&->)]; [done|].
  destruct (N.ltb_spec (lenN (take k (frame p))) 8) as [Hlt|Hge].
  { rewrite (bind_ok _ _ _ _ _ (truncateTail_quiet name off d Hq)). done. }
  assert (8 ≤ k)%nat as H8 by (unfold lenN in Hge; rewrite length_take in Hge; lia).
  rewrite length_frame in Hk. rewrite take_frame_header by done.
  rewrite takeN_app_exact, dropN_app_exact by done.
  rewrite header_length by done.
  replace ((lenN p =? 0) || (MaxRecordBytes <? lenN p)) with false
    by (symmetry; by apply invalid_size_valid).
  rewrite (bind_ok _ _ _ _ _ (sys_quiet d Hq)).
  replace (lenN (take (k - 8) p) <? lenN p) with true.
  2: { symmetry. apply N.ltb_lt. unfold lenN. rewrite length_take. lia. }
  rewrite (bind_ok _ _ _ _ _ (truncateTail_quiet name off d Hq)). done.
Qed.

Lemma scan_frames {R} (replay : bytes → R → R * option error) name bs torn fuel off r d :
  faults d = [] → Forall valid_payload bs → torn_tail torn →
  (length bs < fuel)%nat →
  scan replay name fuel off (frames bs ++ torn) r d =
    match replay_all replay bs r with
    | (r', Some e) => Some ((r', Some (replay_error (failing_at replay off bs r) e)), d)
    | (r', None) =>
      Some ((r', None),
        if decide (torn = []) then d
        else cut name (off + lenN (frames bs)) d)
    end.
Proof.
  intros Hq Hbs Ht. revert fuel off r. induction Hbs as [|b bs Hb Hbs IH];
    intros fuel off r Hf; destruct fuel as [|fuel]; simpl in Hf; try lia.
  - rewrite scan_torn by done. simpl. by rewrite N.add_0_r.
  - rewrite frames_cons, <-app_assoc, scan_frame by done. cbn [replay_all failing_at].
    destruct (replay b r) as [r' [e|]]; [done|].
    rewrite IH by lia. destruct (replay_all replay bs r') as [r'' [e|]]; [done|].
    do 2 f_equal. destruct (decide (torn = [])); [done|].
    f_equal. rewrite lenN_app. unfold lenN. rewrite length_frame. lia.
Qed.

Lemma length_frames bs : (length bs ≤ length (frames bs))%nat.
Proof.
  induction bs as [|b bs IH]; [done|].
  rewrite frames_cons, length_app, length_frame, length_cons. lia.
Qed.

(** Run the next operation of a handler, whose outcome [tac] establishes. *)
Tactic Notation "run" tactic3(tac) := erewrite bind_ok by tac; cbv beta match.

(** *** Opening *)

(** The disk after [open_create]. *)
Definition created (name : string) (d : Disk) : Disk :=
  match files d !! name with Some _ => d | None => link name (Some ([], [])) d end.

Lemma open_create_quiet name d : faults d = [] → open_create name d = Some (None, created name d).
Proof. intros H. unfold open_create. by rewrite (bind_ok _ _ _ _ _ (sys_quiet d H)). Qed.

Lemma lockFile_quiet name d :
  faults d = [] → name ∉ locks d →
  lockFile name d = Some (None, set_locks ({[name]} ∪ locks d) d).
Proof.
  intros H Hn. unfold lockFile. rewrite (bind_ok _ _ _ _ _ (sys_quiet d H)).
  unfold mbind, M_bind, get. by rewrite bool_decide_eq_false_2.
Qed.

Lemma close_file_quiet name d :
  faults d = [] →
  close_file name d = Some (None, set_locks (locks d ∖ {[name]}) d).
Proof. intros H. unfold close_file. by rewrite (bind_ok _ _ _ _ _ (sys_quiet d H)). Qed.

Lemma open_fail_quiet {R} name (r : R) e d :
  faults d = [] →
  open_fail name r e d =
    Some ((r, inl e), set_locks (locks d ∖ {[name]} ∖ {[directory_lock]}) d).
Proof.
  intros H. unfold open_fail.
  rewrite (bind_ok _ _ _ _ _ (close_file_quiet name d H)).
  by rewrite (bind_ok _ _ _ _ _ (close_file_quiet directory_lock (set_locks _ _) H)).
Qed.

Lemma created_content name f d : default [] (files (created name d) !! f) = default [] (files d !! f).
Proof.
  unfold created. destruct (files d !! name) eqn:E; [done|]. cbn [link files].
  destruct (decide (f = name)) as [->|]; [by rewrite E, lookup_partial_alter_eq|].
  by rewrite lookup_partial_alter_ne.
Qed.

(** What is known of a name does not change. *)
Record same_at (d d' : Disk) (f : string) : Prop := {
  sa_file : files d' !! f = files d !! f;
  sa_synced : synced d' !! f = synced d !! f;
  sa_entry : earlier d' !! f = earlier d !! f;
}.

Lemma same_at_trans d1 d2 d3 f : same_at d1 d2 f → same_at d2 d3 f → same_at d1 d3 f.
Proof. intros [] []. split; congruence. Qed.

Lemma absent_same d d' f : same_at d d' f → absent f d → absent f d'.
Proof. intros [H1 _ H3] [? ?]. split; congruence. Qed.

Lemma settled_same d d' f b : same_at d d' f → settled f b d → settled f b d'.
Proof. intros [H1 H2 H3] [? ? ?]. split; congruence. Qed.

Lemma link_other name x d f : f ≠ name → same_at d (link name x d) f.
Proof. intros H. split; cbn [link files synced earlier]; by rewrite ?lookup_partial_alter_ne, ?lookup_insert_ne. Qed.

Lemma set_file_other name b d f : f ≠ name → same_at d (set_file name b d) f.
Proof. intros H. split; cbn [set_file files synced earlier]; by rewrite ?lookup_insert_ne. Qed.

Lemma set_synced_other name d f : f ≠ name → same_at d (set_synced name d) f.
Proof. intros H. split; cbn [set_synced files synced earlier]; by rewrite ?lookup_insert_ne. Qed.

Lemma created_other name f d : f ≠ name → same_at d (created name d) f.
Proof. intros H. unfold created. destruct (files d !! name); [done|]. by apply link_other. Qed.

Lemma created_is_Some name d : is_Some (files (created name d) !! name).
Proof.
  unfold created. destruct (files d !! name) eqn:E; [by rewrite E|]. cbn [link files].
  rewrite lookup_partial_alter_eq. by eexists.
Qed.

Lemma created_rest name d : faults (created name d) = faults d ∧ locks (created name d) = locks d ∧ outages (created name d) = outages d.
Proof. unfold created. by destruct (files d !! name). Qed.

(** *** Outages *)

Lemma lookup_remains damages d name : remains damages d !! name = left_of damages d name.
Proof.
  unfold remains. rewrite map_lookup_imap, lookup_gset_to_gmap. unfold left_of.
  case_guard as Hin; [done|]. cbn. apply not_elem_of_union in Hin as [H1%not_elem_of_dom H2%not_elem_of_dom].
  unfold file_at. rewrite H1, H2. by destruct (da_entry _) as [|[|?]].
Qed.

Lemma crash_file d name :
  files (crash d) !! name =
    match outages d with PowerLoss damages :: _ => left_of damages d name | _ => files d !! name end.
Proof. unfold crash. destruct (outages d) as [|[|damages] os]; try done. cbn [files]. apply lookup_remains. Qed.

(** What an outage leaves under a name depends on nothing else. *)
Lemma crash_same d d' name :
  same_at d d' name → outages d' = outages d → files (crash d') !! name = files (crash d) !! name.
Proof.
  intros [H1 H2 H3] Ho. rewrite !crash_file, Ho. destruct (outages d) as [|[|damages] os]; try done.
  unfold left_of, file_at. by rewrite H1, H2, H3.
Qed.

Lemma absent_crash d name : absent name d → absent name (crash d).
Proof.
  intros [H1 H2]. split.
  - rewrite crash_file. destruct (outages d) as [|[|damages] os]; try done.
    unfold left_of, file_at. rewrite H1, H2. by destruct (da_entry _) as [|[|?]].
  - unfold crash. by destruct (outages d) as [|[|damages] os].
Qed.

Lemma common_app s t : common s (s ++ t) = length s.
Proof. induction s as [|x s IH]; [done|]. cbn. rewrite (Byte.byte_dec_lb (eq_refl x)). by f_equal. Qed.

Lemma common_self s : common s s = length s.
Proof. rewrite <-(app_nil_r s) at 2. apply common_app. Qed.

(** Of what was appended since the last sync a beginning is left. *)
Lemma settle_app g s t : ∃ k, settle g (s, s ++ t) = s ++ take k t.
Proof.
  unfold settle. cbn [fst snd]. rewrite common_app. destruct (da_newer g).
  - exists (da_kept g). rewrite take_app_ge by lia. f_equal. f_equal. lia.
  - exists 0%nat. rewrite take_ge by lia. by rewrite app_nil_r.
Qed.

Lemma settle_stable g s : settle g (s, s) = s.
Proof. unfold settle. cbn [fst snd]. rewrite common_self. destruct (da_newer g); apply take_ge; lia. Qed.

(** A file whose directory entry is stable, and which has only been appended to. *)
Lemma crash_appended d name s t :
  files d !! name = Some (s ++ t) → synced d !! name = Some s → earlier d !! name = None →
  ∃ k, files (crash d) !! name = Some (s ++ take k t).
Proof.
  intros Hf Hs He. rewrite crash_file. destruct (outages d) as [|[|damages] os].
  - exists (length t). by rewrite firstn_all.
  - exists (length t). by rewrite firstn_all.
  - unfold left_of, file_at. rewrite Hf, Hs, He.
    destruct (settle_app (damages name) s t) as [k Hk]. exists k.
    by destruct (da_entry _) as [|[|?]]; apply (f_equal Some), Hk.
Qed.

Lemma settled_crash name b d : settled name b d → settled name b (crash d).
Proof.
  intros [Hf Hs He].
  assert (files (crash d) !! name = Some b) as Hc.
  { destruct (crash_appended d name b []) as [k ->]; [by rewrite app_nil_r|done..|]. by rewrite take_nil, app_nil_r. }
  split; [done| |]; unfold crash in *; by destruct (outages d) as [|[|damages] os].
Qed.

Lemma crash_quiet d : quiet (crash d).
Proof. unfold crash, quiet. by destruct (outages d) as [|[|damages] os]. Qed.

Definition journal_name (name : string) : Prop := name = "commands.wal" ∨ name = "raft.wal".

(** The directory when the replay begins, and when it has been synced. *)
Definition prepared (name : string) (d : Disk) : Disk :=
  set_locks ({[name]} ∪ {[directory_lock]}) (created name (created directory_lock d)).
Definition stable (name : string) (d : Disk) : Disk :=
  mkDisk (files d) (<[name := default [] (files d !! name)]> (synced d)) ∅ (locks d) (faults d) (outages d).

Lemma created_set_locks name ls d : created name (set_locks ls d) = set_locks ls (created name d).
Proof. unfold created. cbn [set_locks files]. by destruct (files d !! name). Qed.

Lemma prepared_other name d f : f ≠ name → f ≠ directory_lock → same_at d (prepared name d) f.
Proof.
  intros H1 H2. apply (same_at_trans _ (created name (created directory_lock d))); [|done].
  eapply same_at_trans; by apply created_other.
Qed.

Lemma prepared_content name d : default [] (files (prepared name d) !! name) = default [] (files d !! name).
Proof. unfold prepared. cbn [set_locks files]. by rewrite !created_content. Qed.

Lemma prepared_is_Some name d : is_Some (files (prepared name d) !! name).
Proof. apply created_is_Some. Qed.

Lemma prepared_rest name d : faults (prepared name d) = faults d ∧ outages (prepared name d) = outages d.
Proof.
  unfold prepared. cbn [set_locks faults outages].
  destruct (created_rest name (created directory_lock d)) as (->&_&->), (created_rest directory_lock d) as (->&_&->). done.
Qed.

(** [OpenJournal] on a quiet directory, up to the outcome of the replay loop. *)
Lemma OpenJournal_quiet {R} (replay : bytes → R → R * option error) name d r :
  quiet d → journal_name name → files d !! other_journal name = None →
  let content := default [] (files d !! name) in
  OpenJournal replay name r d =
    match scan replay name (S (length content)) 0 content r (prepared name d) with
    | None => None
    | Some ((r', Some e), d') => open_fail name r' e d'
    | Some ((r', None), d') =>
      (e ← sys; match e with Some e => open_fail name r' e | None =>
       e ← sync_file name; match e with Some e => open_fail name r' e | None =>
       e ← syncDirectory; match e with Some e => open_fail name r' e | None =>
       mret (r', inr (mkWAL name true (Some true) None)) end end end) d'
    end.
Proof.
  intros [Hl Hf] Hn Ho content.
  assert (name ≠ directory_lock) as Hne by (by destruct Hn as [-> | ->]).
  assert (other_journal name ≠ directory_lock) as Hne2 by (by destruct Hn as [-> | ->]).
  destruct (created_rest directory_lock d) as (Hf1&Hl1&_). rewrite Hf in Hf1. rewrite Hl in Hl1.
  destruct (created_rest name (created directory_lock d)) as (Hf2&_&_). rewrite Hf1 in Hf2.
  unfold OpenJournal.
  replace (negb _) with false by (by destruct Hn as [-> | ->]).
  run (by apply sys_quiet).
  run (by apply open_create_quiet).
  run (apply lockFile_quiet; [done|rewrite Hl1; apply not_elem_of_empty]).
  run (by apply sys_quiet).
  run reflexivity. cbn [set_locks files].
  rewrite (sa_file _ _ _ (created_other directory_lock (other_journal name) d Hne2)), Ho.
  rewrite (bool_decide_eq_false_2 (None ≠ None)) by (by intros []).
  rewrite (bool_decide_eq_false_2 (is_Some _)) by (by intros [? ?]). cbv delta [orb] beta match.
  run (by apply open_create_quiet). rewrite created_set_locks, Hl1.
  run (apply lockFile_quiet; [done|cbn [set_locks locks]; set_solver]).
  replace (set_locks _ _) with (prepared name d).
  2: { unfold prepared, set_locks. cbn. by rewrite union_empty_r_L. }
  run reflexivity. rewrite prepared_content. fold content.
  destruct (scan replay name (S (length content)) 0 content r (prepared name d)) as [[[r' [e|]] d']|] eqn:Hs.
  - run (exact Hs). reflexivity.
  - run (exact Hs). reflexivity.
  - by apply bind_None.
Qed.

Lemma OpenJournal_holds {R} (replay : bytes → R → R * option error) name d bs torn r :
  quiet d → journal_name name → absent (other_journal name) d →
  default [] (files d !! name) = frames bs ++ torn →
  Forall valid_payload bs → torn_tail torn →
  match replay_all replay bs r with
  | (r', None) => ∃ d',
      OpenJournal replay name r d = Some ((r', inr (mkWAL name true (Some true) None)), d') ∧
      holds name d' bs [] ∧ settled name (frames bs) d' ∧ faults d' = [] ∧
      locks d' = {[name]} ∪ {[directory_lock]} ∧ absent (other_journal name) d'
  | (r', Some e) => ∃ d',
      OpenJournal replay name r d = Some ((r', inl (replay_error (failing_at replay 0 bs r) e)), d') ∧
      locks d' = ∅ ∧ default [] (files d' !! name) = default [] (files d !! name)
  end.
Proof.
  intros Hq Hn Ho Hc Hbs Ht. rewrite OpenJournal_quiet by (done || apply Ho).
  assert (name ≠ directory_lock) as Hne by (by destruct Hn as [-> | ->]).
  assert (other_journal name ≠ directory_lock) as Hne2 by (by destruct Hn as [-> | ->]).
  assert (other_journal name ≠ name) as Hne3 by (by destruct Hn as [-> | ->]).
  destruct (prepared_rest name d) as [Hfl _]. rewrite (proj2 Hq) in Hfl.
  pose proof (prepared_other name d _ Hne3 Hne2) as Hsame.
  rewrite Hc, scan_frames; [|done..|].
  2: { rewrite length_app. pose proof (length_frames bs). lia. }
  destruct (replay_all replay bs r) as [r' [e|]].
  - rewrite open_fail_quiet by done. eexists. split; [done|]. split.
    + cbn. set_solver.
    + cbn [set_locks files]. by rewrite prepared_content.
  - assert (∀ d', faults d' = [] →
      (e ← sys; match e with Some e => open_fail name r' e | None =>
       e ← sync_file name; match e with Some e => open_fail name r' e | None =>
       e ← syncDirectory; match e with Some e => open_fail name r' e | None =>
       mret (r', inr (mkWAL name true (Some true) None)) end end end) d' =
       Some ((r', inr (mkWAL name true (Some true) None)), stable name d')) as Htail.
    { intros d' Hd'. run (by apply sys_quiet). run (by apply sync_file_quiet).
      run (by apply syncDirectory_quiet). done. }
    rewrite Htail by (by destruct (decide _)).
    eexists. split; [done|].
    assert (files (if decide (torn = []) then prepared name d else cut name (0 + lenN (frames bs)) (prepared name d)) !! name =
      Some (frames bs)) as Hfile.
    { destruct (decide (torn = [])) as [->|Htn].
      - destruct (prepared_is_Some name d) as [c Hcr]. rewrite Hcr. f_equal. pose proof (prepared_content name d) as Hp.
        rewrite Hcr, Hc, app_nil_r in Hp. exact Hp.
      - cbn [cut set_synced set_file files]. rewrite lookup_insert_eq, prepared_content, Hc.
        by rewrite takeN_app_exact by (by rewrite N.add_0_l). }
    split_and!.
    + split; [cbn [stable files]; by rewrite app_nil_r|done|by left].
    + split; cbn [stable files synced earlier]; [done| |done]. rewrite lookup_insert_eq. by rewrite Hfile.
    + cbn. by destruct (decide _).
    + cbn. by destruct (decide _).
    + split; [|done]. cbn [stable files]. rewrite <-(ab_file _ _ (absent_same _ _ _ Hsame Ho)).
      destruct (decide _); [done|]. cbn [cut set_synced set_file files]. by rewrite lookup_insert_ne.
Qed.

(** *** Appending *)

#[local] Opaque frame.

(** Nothing but the locks and the plan of faults has changed. *)
Record unmoved (d d' : Disk) : Prop := {
  un_files : files d' = files d;
  un_synced : synced d' = synced d;
  un_earlier : earlier d' = earlier d;
  un_outages : outages d' = outages d;
}.

Lemma unmoved_same d d' f : unmoved d d' → same_at d d' f.
Proof. intros [H1 H2 H3 _]. split; by rewrite ?H1, ?H2, ?H3. Qed.

Lemma write_file_spec name b d :
  ∃ n e d', write_file name b d = Some ((n, e), d') ∧ (n ≤ length b)%nat ∧
    files d' = <[name := default [] (files d !! name) ++ take n b]> (files d) ∧
    synced d' = synced d ∧ earlier d' = earlier d ∧ outages d' = outages d ∧
    locks d' = locks d ∧ faults d' = tail (faults d) ∧
    (faults d = [] → n = length b ∧ e = None).
Proof.
  destruct d as [fs sy ea ls fl os]. unfold write_file, next_fault, mbind, M_bind. simpl.
  destruct fl as [|[[k|] fe] fl]; simpl; do 3 eexists; (split; [reflexivity|]);
    simpl; split_and!; try done; lia.
Qed.

Lemma sys_spec d :
  ∃ e d', sys d = Some (e, d') ∧ unmoved d d' ∧ locks d' = locks d ∧
    faults d' = tail (faults d) ∧ (faults d = [] → e = None).
Proof.
  destruct d as [fs sy ea ls fl os]. unfold sys, next_fault, mbind, M_bind.
  destruct fl as [|f fl]; do 2 eexists; (split; [reflexivity|]); by split.
Qed.

Lemma sync_file_spec name d :
  ∃ e d', sync_file name d = Some (e, d') ∧ files d' = files d ∧ earlier d' = earlier d ∧
    outages d' = outages d ∧ locks d' = locks d ∧ faults d' = tail (faults d) ∧
    (faults d = [] → e = None) ∧ (∀ f, f ≠ name → synced d' !! f = synced d !! f) ∧
    synced d' !! name = match e with Some _ => synced d !! name | None => Some (default [] (files d !! name)) end.
Proof.
  unfold sync_file. destruct (sys_spec d) as (e&d1&Hs&[H1 H2 H3 H4]&Hl&Hf&He). rewrite (bind_ok _ _ _ _ _ Hs).
  destruct e as [e|]; do 2 eexists; (split; [reflexivity|]); cbn [files synced earlier locks faults outages].
  - rewrite H1, H2. by split_and!.
  - split_and!; try done; [|by rewrite lookup_insert_eq, H1]. intros f Hne. by rewrite lookup_insert_ne, H2.
Qed.

Lemma torn_take p n : valid_payload p → (n ≤ length (frame p))%nat →
  take n (frame p) = frame p ∨ torn_tail (take n (frame p)).
Proof.
  intros Hp Hn. destruct (decide (n = length (frame p))) as [->|].
  - left. by rewrite firstn_all.
  - right. right. exists p, n. split_and!; [done|lia|done].
Qed.

(** A stable journal holds its records, whatever comes. *)
Lemma settled_holds w d bs :
  Forall valid_payload bs → settled (w_path w) (frames bs) d → wal_holds w d bs.
Proof.
  intros Hv Hs. split; [|done]. exists []. destruct (settled_crash _ _ _ Hs) as [Hf _ _].
  split; [by rewrite app_nil_r|done|by left].
Qed.

Lemma wal_holds_valid w d bs : wal_holds w d bs → Forall valid_payload bs.
Proof. by intros [[torn [_ ? _]] _]. Qed.

(** A journal to which the beginning of one record was written, and not synced. *)
Lemma appended_holds w d bs p n :
  Forall valid_payload bs → valid_payload p → (n ≤ length (frame p))%nat → w_failed w ≠ None →
  files d !! w_path w = Some (frames bs ++ take n (frame p)) → synced d !! w_path w = Some (frames bs) →
  earlier d !! w_path w = None → wal_holds w d bs ∨ wal_holds w d (bs ++ [p]).
Proof.
  intros Hbs Hp Hn Hw Hf Hs He. destruct (crash_appended _ _ _ _ Hf Hs He) as [k Hk]. rewrite take_take in Hk.
  destruct (torn_take p (k `min` n) Hp ltac:(lia)) as [Heq|Htorn].
  - right. split; [|done]. exists []. split; [|by apply Forall_app_2; [|constructor]|by left].
    by rewrite Hk, Heq, frames_snoc, app_nil_r.
  - left. split; [|done]. by exists (take (k `min` n) (frame p)).
Qed.

Lemma Append_spec p w d bs :
  wal_holds w d bs →
  ∃ err w' d', Append p (w, d) = Some (err, (w', d')) ∧
    w_path w' = w_path w ∧ w_open w' = w_open w ∧ w_lock w' = w_lock w ∧
    (∀ f, f ≠ w_path w → same_at d d' f) ∧ locks d' = locks d ∧
    (err = None → valid_payload p ∧ w_failed w' = None ∧ w_open w = true ∧
                  wal_holds w' d' (bs ++ [p])) ∧
    (err ≠ None → wal_holds w' d' bs ∨ valid_payload p ∧ wal_holds w' d' (bs ++ [p])) ∧
    (valid_payload p → err ≠ None → w_failed w' ≠ None) ∧
    (w_failed w = None → w_open w = true → faults d = [] → valid_payload p →
       err = None ∧ faults d' = []).
Proof.
  intros Hh. unfold Append.
  destruct (w_failed w) as [e0|] eqn:Hfail.
  { exists (Some e0), w, d. split_and!; try done.
    - intros _. by left.
    - intros _ _. by rewrite Hfail. }
  destruct (invalid_size p) eqn:Hsz.
  { do 3 eexists. split; [reflexivity|]. split_and!; try done.
    - intros _. by left.
    - intros Hp%invalid_size_valid. congruence.
    - intros _ _ _ Hp%invalid_size_valid. congruence. }
  apply invalid_size_valid in Hsz as Hp. pose proof (wal_holds_valid _ _ _ Hh) as Hbs.
  destruct (w_open w) eqn:Hopen.
  2: { do 3 eexists. split; [reflexivity|]. simpl. split_and!; try done.
       intros _. left. by split; [apply Hh|]. }
  destruct (wh_stable _ _ _ Hh Hfail Hopen) as [Hfile Hsync Hentry].
  destruct (write_file_spec (w_path w) (frame p) d) as (n&e&d1&Hw&Hn&Hf1&Hs1&He1&Ho1&Hl1&Hq1&Hq1').
  rewrite Hw. rewrite Hfile in Hf1. cbn [default from_option id] in Hf1.
  assert (∀ f, f ≠ w_path w → same_at d d1 f) as Hother1.
  { intros f Hf. split; rewrite ?Hf1, ?Hs1, ?He1; [by rewrite lookup_insert_ne|done..]. }
  assert (files d1 !! w_path w = Some (frames bs ++ take n (frame p))) as Hfile1 by (by rewrite Hf1, lookup_insert_eq).
  assert (∀ d2 e', files d2 = files d1 → synced d2 !! w_path w = synced d1 !! w_path w → earlier d2 = earlier d1 →
    wal_holds (mkWAL (w_path w) true (w_lock w) (Some e')) d2 bs ∨
    valid_payload p ∧ wal_holds (mkWAL (w_path w) true (w_lock w) (Some e')) d2 (bs ++ [p])) as Hend.
  { intros d2 e' E1 E2 E3. destruct (appended_holds (mkWAL (w_path w) true (w_lock w) (Some e')) d2 bs p n);
      cbn [w_path w_failed]; rewrite ?E1, ?E2, ?E3, ?Hs1, ?He1; auto. }
  destruct e as [e|]; simpl.
  { do 3 eexists. split; [reflexivity|]. simpl. split_and!; try done.
    - intros _. by apply Hend.
    - intros _ _ Hq _. destruct (Hq1' Hq). done. }
  destruct (n =? length (frame p))%nat eqn:Hneq; simpl.
  2: { do 3 eexists. split; [reflexivity|]. simpl. split_and!; try done.
    - intros _. by apply Hend.
    - intros _ _ Hq _. destruct (Hq1' Hq) as [-> _]. by rewrite Nat.eqb_refl in Hneq. }
  apply Nat.eqb_eq in Hneq.
  destruct (sync_file_spec (w_path w) d1) as (e2&d2&Hs&Hf2&He2&Ho2&Hl2&Hq2&Hq2'&Hso2&Hs2). rewrite Hs.
  do 3 eexists. split; [reflexivity|]. simpl. split_and!; try done.
  - intros f Hf. apply (same_at_trans _ d1); [by apply Hother1|]. split; rewrite ?Hf2, ?He2; [done|by apply Hso2|done].
  - by rewrite Hl2.
  - destruct e2 as [e2|]; [done|]. intros _. split_and!; try done.
    rewrite Hneq, firstn_all in Hfile1.
    apply settled_holds; [by apply Forall_app_2; [|constructor]|]. cbn [w_path]. rewrite frames_snoc.
    split; [by rewrite Hf2|by rewrite Hs2, Hfile1|by rewrite He2, He1].
  - destruct e2 as [e2|]; [|done]. intros _. by apply Hend.
  - intros _ _ Hq _. rewrite Hq2' by (by rewrite Hq1, Hq).
    by rewrite Hq2, Hq1, Hq.
Qed.

(** *** Replacing *)

Lemma write_all_spec tmp ps d c :
  files d !! tmp = Some c →
  ∃ err d' c', write_all tmp ps d = Some (err, d') ∧
    files d' !! tmp = Some c' ∧
    (∀ f, f ≠ tmp → same_at d d' f) ∧ outages d' = outages d ∧
    (err = None → c' = c ++ frames ps ∧ Forall valid_payload ps).
Proof.
  revert d c. induction ps as [|p ps IH]; intros d c Hc; cbn [write_all].
  { exists None, d, c. by rewrite app_nil_r. }
  destruct (invalid_size p) eqn:Hsz.
  { do 3 eexists. split; [reflexivity|]. by split_and!. }
  apply invalid_size_valid in Hsz.
  destruct (write_file_spec tmp (frame p) d) as (n&e&d1&Hw&Hn&Hf1&Hs1&He1&Ho1&_&_&_).
  run (exact Hw). rewrite Hc in Hf1. cbn [default from_option id] in Hf1.
  assert (∀ f, f ≠ tmp → same_at d d1 f) as Hother.
  { intros f Hf. split; rewrite ?Hf1, ?Hs1, ?He1; [by rewrite lookup_insert_ne|done..]. }
  assert (files d1 !! tmp = Some (c ++ take n (frame p))) as Hc1
    by (by rewrite Hf1, lookup_insert_eq).
  destruct (bool_decide (e ≠ None) || negb (n =? length (frame p))%nat) eqn:Hb.
  { do 3 eexists. split; [reflexivity|]. by split_and!. }
  apply orb_false_iff in Hb as [_ Hb]. apply negb_false_iff, Nat.eqb_eq in Hb. subst n.
  rewrite firstn_all in Hc1.
  destruct (IH d1 _ Hc1) as (err&d2&c2&Hr&Hc2&Ho2&Hou2&Hok).
  exists err, d2, c2. split; [done|]. split_and!; try done.
  - intros f Hf. eapply same_at_trans; [by apply Hother|by apply Ho2].
  - congruence.
  - intros He. destruct (Hok He) as [-> Hv]. rewrite frames_cons, app_assoc. auto.
Qed.

(** Nothing but the temporary file has changed. *)
Record same_but (tmp : string) (d d' : Disk) : Prop := {
  sb_at : ∀ f, f ≠ tmp → same_at d d' f;
  sb_outages : outages d' = outages d;
}.

Lemma same_but_trans tmp d1 d2 d3 : same_but tmp d1 d2 → same_but tmp d2 d3 → same_but tmp d1 d3.
Proof. intros [H1 O1] [H2 O2]. split; [|congruence]. intros f Hf. eapply same_at_trans; [by apply H1|by apply H2]. Qed.

Lemma same_but_unmoved tmp d d' : unmoved d d' → same_but tmp d d'.
Proof. intros H. split; [|apply H]. intros f _. by apply unmoved_same. Qed.

Lemma same_but_link tmp x d : same_but tmp d (link tmp x d).
Proof. split; [|done]. intros f Hf. by apply link_other. Qed.

(** A journal that was not touched. *)
Lemma same_but_holds w tmp o d d' bs :
  tmp ≠ w_path w → w_failed w = None → (o = true → w_open w = true) → same_but tmp d d' → wal_holds w d bs →
  wal_holds (mkWAL (w_path w) o (w_lock w) (w_failed w)) d' bs.
Proof.
  intros Hne Hf Ho [Hs Hout] [(torn&[H1 H2 H3]) Hst]. pose proof (Hs (w_path w) (not_eq_sym Hne)) as Hp.
  split; cbn [w_path w_failed w_open].
  - exists torn. split; [|done|done]. by rewrite (crash_same d d').
  - intros _ Hopen. eapply settled_same; [exact Hp|]. apply Hst; [done|by apply Ho].
Qed.

Lemma wp_sys_unmoved (E : Prop) (Q : option error → Disk → Prop) d :
  (∀ e d', unmoved d d' → Q e d') → wp E sys Q d.
Proof. intros HQ. destruct (sys_spec d) as (e&d'&Hs&Hu&_). unfold wp. rewrite Hs. by apply HQ. Qed.

Lemma wp_close_unmoved (E : Prop) name (Q : option error → Disk → Prop) d :
  (∀ e d', unmoved d d' → Q e d') → wp E (close_file name) Q d.
Proof.
  intros HQ. unfold close_file. apply wp_bind, wp_sys_unmoved. intros e d' [H1 H2 H3 H4].
  apply wp_bind, wp_modify, wp_ret. apply HQ. by split.
Qed.

Lemma wp_lock_unmoved (E : Prop) name (Q : option error → Disk → Prop) d :
  (∀ e d', unmoved d d' → Q e d') → wp E (lockFile name) Q d.
Proof.
  intros HQ. unfold lockFile. apply wp_bind, wp_sys_unmoved. intros e d' H.
  destruct e; [by apply wp_ret, HQ|]. apply wp_bind, wp_get.
  case_bool_decide; [by apply wp_ret, HQ|]. apply wp_bind, wp_modify, wp_ret, HQ. destruct H. by split.
Qed.

Lemma wp_close_handle_unmoved (E : Prop) name o (Q : option error → Disk → Prop) d :
  (∀ e d', unmoved d d' → (o = false → e ≠ None) → Q e d') → wp E (close_handle name o) Q d.
Proof.
  intros HQ. unfold close_handle. destruct o; [apply wp_close_unmoved; intros; by apply HQ|].
  by apply wp_ret, HQ.
Qed.

Lemma wp_remove (E : Prop) tmp (Q : unit → Disk → Prop) d :
  (∀ d', same_but tmp d d' → Q tt d') → wp E (remove_file tmp) Q d.
Proof.
  intros HQ. unfold remove_file. apply wp_bind, wp_sys_unmoved. intros e d' Hu.
  destruct e; [by apply wp_ret, HQ, same_but_unmoved|]. apply wp_modify, HQ.
  eapply same_but_trans; [by apply same_but_unmoved|apply same_but_link].
Qed.

Lemma wp_open_truncate (E : Prop) tmp (Q : option error → Disk → Prop) d :
  (∀ e d', same_but tmp d d' → (e = None → files d' !! tmp = Some []) → Q e d') → wp E (open_truncate tmp) Q d.
Proof.
  intros HQ. unfold open_truncate, open_create. apply wp_bind, wp_bind, wp_sys_unmoved. intros e d1 Hu.
  pose proof (same_but_unmoved tmp _ _ Hu) as H1.
  destruct e as [e|]; [by apply wp_ret, wp_ret, HQ|]. apply wp_bind, wp_modify, wp_ret, wp_bind, wp_modify, wp_ret, HQ.
  - eapply same_but_trans; [exact H1|]. split; [|by destruct (files d1 !! tmp)]. intros f Hf.
    apply (same_at_trans _ (created tmp d1)); [by apply created_other|by apply set_file_other].
  - intros _. cbn. by rewrite lookup_insert_eq.
Qed.

Lemma wp_sync_file (E : Prop) name (Q : option error → Disk → Prop) d :
  (∀ e d', same_but name d d' → files d' = files d →
     (e = None → synced d' !! name = Some (default [] (files d !! name))) → Q e d') → wp E (sync_file name) Q d.
Proof.
  intros HQ. destruct (sync_file_spec name d) as (e&d'&Hs&H1&H2&H3&_&_&_&H4&H5). unfold wp. rewrite Hs.
  apply HQ; [|done|by intros ->]. split; [|done]. intros f Hf. split; rewrite ?H1, ?H2; auto.
Qed.

Section replace.
Context (w : WAL) (other : string) (bs ps : list bytes).

Definition with_open (o : bool) : WAL := mkWAL (w_path w) o (w_lock w) (w_failed w).

(** What [Replace] may leave: the old records or the new, and only the new when it
    succeeds; another file that is not there stays so. *)
Definition replaced (d0 : Disk) (x : option error * bool) (d : Disk) : Prop :=
  (absent other d0 → absent other d) ∧
  (wal_holds (with_open x.2) d bs ∨ wal_holds (with_open x.2) d ps) ∧
  (x.1 = None → wal_holds (with_open x.2) d ps ∧ x.2 = true).

(** The journal under its new name, before and after the directory is synced. *)
Lemma renamed_holds d d' :
  settled (w_path w) (frames bs) d → Forall valid_payload bs → Forall valid_payload ps →
  files d' !! w_path w = Some (frames ps) → synced d' !! w_path w = Some (frames ps) →
  earlier d' !! w_path w = Some [file_at d (w_path w)] →
  wal_holds (with_open false) d' bs ∨ wal_holds (with_open false) d' ps.
Proof.
  intros [Hf Hs _] Hbs Hps Hf' Hs' He'.
  assert (files (crash d') !! w_path w = Some (frames bs) ∨ files (crash d') !! w_path w = Some (frames ps)) as Hc.
  { rewrite crash_file. destruct (outages d') as [|[|damages] os]; [by right..|].
    unfold left_of, file_at. rewrite Hf', Hs', He'. unfold file_at. rewrite Hf, Hs.
    destruct (da_entry _) as [|[|i]]; [right|left|right]; apply (f_equal Some), settle_stable. }
  destruct Hc as [Hc|Hc]; [left|right]; (split; [|done]); exists [];
    (split; [by rewrite app_nil_r|done|by left]).
Qed.

Lemma wp_install tmp d :
  tmp ≠ w_path w → tmp ≠ other → other ≠ w_path w → w_failed w = None →
  wal_holds w d bs → Forall valid_payload ps → file_at d tmp = Some (frames ps, frames ps) →
  wp False (install w tmp) (replaced d) d.
Proof.
  intros Hne Hno Hop Hwf Hold Hps Hnew. unfold install.
  assert (∀ e o d', (o = true → w_open w = true) → same_but tmp d d' → replaced d (Some e, o) d') as Hkeep.
  { intros e o d' Ho Hs. split; [|split; [left; by apply (same_but_holds w tmp o d)|done]].
    apply absent_same. by apply Hs. }
  apply wp_bind, wp_close_unmoved. intros e1 d1 U1. pose proof (same_but_unmoved tmp _ _ U1) as S1.
  destruct e1 as [e|].
  { apply wp_bind, wp_remove. intros d2 S2. apply wp_ret, Hkeep; [done|]. by eapply same_but_trans. }
  apply wp_bind, wp_close_handle_unmoved. intros e2 d2 U2 Hopen.
  pose proof (same_but_trans _ _ _ _ S1 (same_but_unmoved tmp _ _ U2)) as S2.
  destruct e2 as [e|].
  { apply wp_bind, wp_remove. intros d3 S3. apply wp_ret, Hkeep; [done|]. by eapply same_but_trans. }
  assert (w_open w = true) as Ho by (destruct (w_open w); [done|by destruct Hopen]). clear Hopen.
  apply wp_bind. unfold rename_file. apply wp_bind, wp_sys_unmoved. intros e3 d3 U3.
  pose proof (same_but_trans _ _ _ _ S2 (same_but_unmoved tmp _ _ U3)) as S3.
  destruct e3 as [e|]; [by apply wp_ret, wp_ret, Hkeep|]. apply wp_bind, wp_get.
  assert (file_at d3 tmp = Some (frames ps, frames ps)) as ->.
  { rewrite <-Hnew. unfold file_at.
    by rewrite (un_files _ _ U3), (un_files _ _ U2), (un_files _ _ U1), (un_synced _ _ U3), (un_synced _ _ U2), (un_synced _ _ U1). }
  apply wp_bind, wp_modify, wp_ret. cbv beta. set (d4 := link tmp None (link (w_path w) (Some (frames ps, frames ps)) d3)).
  assert (settled (w_path w) (frames bs) d3) as Hst3.
  { eapply settled_same; [by apply S3|]. by apply Hold. }
  assert (files d4 !! w_path w = Some (frames ps) ∧ synced d4 !! w_path w = Some (frames ps) ∧
    earlier d4 !! w_path w = Some [file_at d3 (w_path w)]) as (F4&Y4&E4).
  { destruct (link_other tmp None (link (w_path w) (Some (frames ps, frames ps)) d3) (w_path w) ltac:(done)) as [A B C].
    fold d4 in A, B, C. rewrite A, B, C. cbn [link files synced earlier].
    by rewrite !lookup_partial_alter_eq, lookup_insert_eq, (se_entry _ _ _ Hst3). }
  assert (absent other d → absent other d4) as Hab.
  { intros Ha. apply (absent_same d3); [|by eapply absent_same; [by apply S3|]].
    eapply same_at_trans; apply link_other; done. }
  pose proof (renamed_holds d3 d4 Hst3 (wal_holds_valid _ _ _ Hold) Hps F4 Y4 E4) as Hon.
  apply wp_bind. unfold syncDirectory. apply wp_bind, wp_sys_unmoved. intros e5 d5 U5. change (unmoved d4 d5) in U5. destruct U5 as [A5 B5 C5 D5].
  destruct e5 as [e|].
  { apply wp_ret, wp_ret. split; [|split; [|done]].
    - intros [H1 H2]%Hab. split; congruence.
    - apply (renamed_holds d3 d5); [done|by eapply wal_holds_valid|done|congruence..]. }
  apply wp_bind, wp_modify, wp_ret. cbv beta.
  set (d6 := mkDisk (files d5) (synced d5) ∅ (locks d5) (faults d5) (outages d5)).
  assert (settled (w_path w) (frames ps) d6) as Hst6 by (split; cbn; [congruence|congruence|done]).
  assert (absent other d → absent other d6) as Hab6 by (intros [H1 H2]%Hab; split; cbn; [congruence|done]).
  assert (∀ e o d', unmoved d6 d' → (e = None → o = true) → replaced d (e, o) d') as Hdone.
  { intros e o d' Hu He. pose proof (settled_same _ _ _ _ (unmoved_same _ _ (w_path w) Hu) Hst6) as Hst.
    assert (wal_holds (with_open o) d' ps) as Hh by (by apply settled_holds).
    split; [|split; [by right|by auto]]. intros Ha. eapply absent_same; [by apply unmoved_same|by apply Hab6]. }
  apply wp_bind, wp_sys_unmoved. intros e7 d7 U7. destruct e7 as [e|]; [by apply wp_ret, Hdone|].
  assert (∀ d', unmoved d7 d' → unmoved d6 d') as Htr by (intros d' []; destruct U7; split; congruence).
  apply wp_bind, wp_lock_unmoved. intros e8 d8 U8. destruct e8 as [e|].
  { apply wp_bind, wp_sys_unmoved. intros e9 d9 U9. apply wp_ret, Hdone; [|done].
    apply Htr. destruct U8, U9; split; congruence. }
  apply wp_ret, Hdone; [by apply Htr|done].
Qed.

End replace.

Lemma tmp_name_ne w : tmp_name w ≠ w_path w.
Proof.
  unfold tmp_name. intros H. apply (f_equal String.length) in H.
  assert (∀ a b, String.length (a +:+ b) = String.length a + String.length b)%nat as Hl.
  { intros a b. induction a as [|x a IH]; [done|]. unfold String.app. simpl. f_equal. exact IH. }
  rewrite Hl in H. simpl in H. lia.
Qed.

Lemma Replace_spec ps w d bs other :
  other ≠ w_path w → other ≠ tmp_name w →
  wal_holds w d bs → w_failed w = None →
  wp False (Replace ps) (λ err '(w', d'),
    w_path w' = w_path w ∧ w_failed w' = None ∧ (absent other d → absent other d') ∧
    (wal_holds w' d' bs ∨ wal_holds w' d' ps) ∧
    (err = None → wal_holds w' d' ps ∧ w_open w' = true)) (w, d).
Proof.
  intros Hop Hno Hh Hfail. pose proof (tmp_name_ne w) as Hne. set (tmp := tmp_name w) in *.
  set (body := (e ← open_truncate tmp; match e with Some e => mret (Some e, w_open w) | None =>
     e ← write_all tmp ps;
     match e with Some e => e ← replace_fail tmp e; mret (e, w_open w) | None =>
     e ← sync_file tmp;
     match e with Some e => e ← replace_fail tmp e; mret (e, w_open w) | None =>
     install w tmp end end end) : M Disk (option error * bool)).
  assert (wp False body (replaced w other bs ps d) d) as Hbody.
  { assert (∀ e d', same_but tmp d d' → replaced w other bs ps d (Some e, w_open w) d') as Hkeep.
    { intros e d' Hs. split; [|split; [left; by apply (same_but_holds w tmp (w_open w) d)|done]].
      apply absent_same. by apply Hs. }
    assert (∀ e d', same_but tmp d d' →
      wp False (e ← replace_fail tmp e; mret (e, w_open w)) (replaced w other bs ps d) d') as Hrf.
    { intros e d' He. apply wp_bind. unfold replace_fail.
      apply wp_bind, wp_close_unmoved. intros e1 d1 U1.
      apply wp_bind, wp_remove. intros d2 S2. apply wp_ret, wp_ret, Hkeep.
      eapply same_but_trans; [exact He|]. eapply same_but_trans; [by apply same_but_unmoved|done]. }
    unfold body. apply wp_bind, wp_open_truncate. intros e1 d1 S1 F1.
    destruct e1 as [e|]; [by apply wp_ret, Hkeep|]. apply wp_bind.
    destruct (write_all_spec tmp ps d1 [] (F1 eq_refl)) as (err&d2&c2&Hr&Hc2&Ho2&Hou2&Hok).
    unfold wp at 1. rewrite Hr. pose proof (same_but_trans _ _ _ _ S1 (Build_same_but _ _ _ Ho2 Hou2)) as S2.
    destruct err as [e|]; [by apply Hrf|]. destruct (Hok eq_refl) as [-> Hv].
    apply wp_bind, wp_sync_file. intros e3 d3 S3 F3 Y3. pose proof (same_but_trans _ _ _ _ S2 S3) as S13.
    destruct e3 as [e|]; [by apply Hrf|].
    eapply wp_mono; [apply (wp_install w other bs ps tmp d3); try done|].
    - destruct w as [wp wo wl wf]. cbn in Hfail. subst wf.
      by apply (same_but_holds (mkWAL wp wo wl None) tmp wo d).
    - unfold file_at. by rewrite (Y3 eq_refl), F3, Hc2.
    - intros x d' (H1&H2&H3). split; [|done]. intros Ha. apply H1. eapply absent_same; [by apply S13|done]. }
  unfold Replace, wp. rewrite Hfail. cbv zeta. fold tmp. fold body. unfold wp in Hbody.
  destruct (body d) as [[[err op] d']|]; [|done]. destruct Hbody as (Hab&Hon&Hok).
  unfold with_open in Hon, Hok. rewrite Hfail in Hon, Hok. cbn [fst snd] in *. split_and!; done.
Qed.

(** *** Corruption *)

(** A complete record whose payload does not have the stored checksum stops
    the replay: neither it nor anything after it reaches the callback. *)
Lemma scan_mismatch {R} (replay : bytes → R → R * option error) name fuel off p q rest r d :
  faults d = [] → valid_payload p → length q = length p → ChecksumIEEE q ≠ ChecksumIEEE p →
  scan replay name (S fuel) off
    ((PutUint32 (lenN p mod two32) ++ PutUint32 (ChecksumIEEE p) ++ q) ++ rest) r d =
    Some ((r, Some (ErrNew ("WAL checksum mismatch at byte " +:+ pretty off))), d).
Proof.
  intros Hf Hp Hl Hc. cbn [scan]. run (by apply sys_quiet).
  assert (lenN q = lenN p) as HlN by (unfold lenN; by rewrite Hl).
  rewrite bool_decide_eq_false_2 by done.
  replace (lenN _ <? 8) with false.
  2: { symmetry. apply N.ltb_ge. unfold lenN. rewrite !length_app, !length_PutUint32. lia. }
  rewrite !app_assoc, <-(app_assoc _ q).
  rewrite takeN_app_exact, dropN_app_exact by done.
  rewrite header_length, header_checksum by done.
  replace ((lenN p =? 0) || (MaxRecordBytes <? lenN p)) with false
    by (symmetry; by apply invalid_size_valid).
  run (by apply sys_quiet).
  replace (lenN (q ++ rest) <? lenN p) with false
    by (symmetry; apply N.ltb_ge; rewrite lenN_app; lia).
  rewrite takeN_app_exact by done.
  apply N.eqb_neq in Hc. by rewrite Hc.
Qed.

Lemma scan_frames_then {R} (replay : bytes → R → R * option error) name bs fuel off rest r r' d :
  faults d = [] → Forall valid_payload bs → replay_all replay bs r = (r', None) →
  scan replay name (length bs + fuel) off (frames bs ++ rest) r d =
    scan replay name fuel (off + lenN (frames bs)) rest r' d.
Proof.
  intros Hf Hbs. revert off r. induction Hbs as [|b bs Hb Hbs IH]; intros off r Hr.
  - simpl in Hr. injection Hr as ->. unfold frames, lenN. simpl. by rewrite N.add_0_r.
  - cbn [length Nat.add]. rewrite frames_cons, <-app_assoc, scan_frame by done.
    cbn [replay_all] in Hr. destruct (replay b r) as [r1 [e|]]; [done|].
    rewrite IH by done. f_equal. rewrite lenN_app. unfold lenN. rewrite length_frame. lia.
Qed.

(** *** Sequences of appends *)

Fixpoint append_all (ps : list bytes) : M (WAL * Disk) (list (option error)) :=
  match ps with
  | [] => mret []
  | p :: ps' => e ← Append p; es ← append_all ps'; mret (e :: es)
  end.

(** The payloads whose append was acknowledged. *)
Fixpoint acked (ps : list bytes) (es : list (option error)) : list bytes :=
  match ps, es with
  | p :: ps', None :: es' => p :: acked ps' es'
  | _ :: ps', Some _ :: es' => acked ps' es'
  | _, _ => []
  end.

Lemma append_all_poisoned ps w d e :
  w_failed w = Some e →
  append_all ps (w, d) = Some (replicate (length ps) (Some e), (w, d)).
Proof.
  intros Hf. induction ps as [|p ps IH]; [done|]. cbn [append_all].
  erewrite bind_ok by (unfold Append; by rewrite Hf).
  run (exact IH). done.
Qed.

Lemma acked_replicate ps e : acked ps (replicate (length ps) (Some e)) = [].
Proof. by induction ps. Qed.

Lemma append_all_spec ps w d bs :
  wal_holds w d bs → w_failed w = None →
  ∃ es w' d' extra, append_all ps (w, d) = Some (es, (w', d')) ∧
    w_path w' = w_path w ∧ (∀ f, f ≠ w_path w → same_at d d' f) ∧
    (extra = [] ∨ ∃ p, p ∈ ps ∧ extra = [p]) ∧
    (Forall (λ e, e = None) es → extra = []) ∧
    wal_holds w' d' (bs ++ acked ps es ++ extra).
Proof.
  revert w d bs. induction ps as [|p ps IH]; intros w d bs Hh Hf; cbn [append_all].
  { exists [], w, d, []. rewrite app_nil_r. split_and!; auto. by intros f _. }
  destruct (Append_spec p w d bs Hh) as
    (err&w1&d1&Ha&Hp1&Ho1&Hl1&Hoth&_&Hok&Herr&Hpois&_).
  run (exact Ha). destruct err as [e|].
  - destruct (w_failed w1) as [e1|] eqn:Hf1.
    + run (apply append_all_poisoned; exact Hf1).
      exists (Some e :: replicate (length ps) (Some e1)), w1, d1.
      destruct (Herr ltac:(done)) as [Hh1|[_ Hh1]].
      * exists []. cbn [acked]. rewrite acked_replicate, !app_nil_r.
        split_and!; [done..|by left|done|done].
      * exists [p]. cbn [acked]. rewrite acked_replicate. simpl.
        split_and!; [done..|right; exists p; split; [by left|done]| |done].
        by intros [? _]%Forall_cons.
    + (* an invalid size: refused, nothing written *)
      assert (¬ valid_payload p) as Hnv by naive_solver.
      destruct (Herr ltac:(done)) as [Hh1|[? _]]; [|done].
      destruct (IH w1 d1 bs Hh1 Hf1) as (es&w2&d2&extra&Hr&Hp2&Hoth2&Hex&Hall&Hh2).
      run (exact Hr). exists (Some e :: es), w2, d2, extra.
      split_and!; [done|congruence| | | |done].
      * intros f Hfn. apply (same_at_trans _ d1); [by apply Hoth|apply Hoth2; congruence].
      * destruct Hex as [->|(q&Hq&->)]; [by left|right]. exists q. split; [by right|done].
      * by intros [? _]%Forall_cons.
  - destruct (Hok eq_refl) as (Hv&Hf1&_&Hh1).
    destruct (IH w1 d1 _ Hh1 Hf1) as (es&w2&d2&extra&Hr&Hp2&Hoth2&Hex&Hall&Hh2).
    run (exact Hr). exists (None :: es), w2, d2, extra.
    split_and!; [done|congruence| | | |].
    + intros f Hfn. apply (same_at_trans _ d1); [by apply Hoth|apply Hoth2; congruence].
    + destruct Hex as [->|(q&Hq&->)]; [by left|right]. exists q. split; [by right|done].
    + intros [_ ?]%Forall_cons. auto.
    + cbn [acked]. by rewrite <-app_assoc in Hh2.
Qed.

(** A journal that was just opened. *)
Definition opened (name : string) : WAL := mkWAL name true (Some true) None.

(** Reopening after an outage. *)
Lemma reopen_holds {R} (replay : bytes → R → R * option error) w d bs r :
  journal_name (w_path w) → absent (other_journal (w_path w)) d → wal_holds w d bs →
  match replay_all replay bs r with
  | (r', None) => ∃ d',
      OpenJournal replay (w_path w) r (crash d) = Some ((r', inr (opened (w_path w))), d') ∧
      wal_holds (opened (w_path w)) d' bs ∧ faults d' = [] ∧
      locks d' = {[w_path w]} ∪ {[directory_lock]} ∧ absent (other_journal (w_path w)) d'
  | (r', Some e) => ∃ d',
      OpenJournal replay (w_path w) r (crash d) =
        Some ((r', inl (replay_error (failing_at replay 0 bs r) e)), d') ∧ locks d' = ∅
  end.
Proof.
  intros Hn Ho [(torn&[Hf Hv Ht]) _].
  pose proof (OpenJournal_holds replay (w_path w) (crash d) bs torn r (crash_quiet d) Hn (absent_crash _ _ Ho)) as H.
  rewrite Hf in H. specialize (H eq_refl Hv Ht). destruct (replay_all replay bs r) as [r' [e|]].
  - destruct H as (d'&H1&H2&_). by exists d'.
  - destruct H as (d'&H1&H2&H3&H4&H5&H6). exists d'. split_and!; try done. by apply settled_holds.
Qed.

(** ** Properties *)

(** C15. Durability of the journal under arbitrary I/O failures and outages: append
    any payloads to a journal holding [bs], with any plan of short writes and
    failing writes and syncs, then let the process end, or the power fail and take
    what was not synced, and reopen the directory.  The replay is handed exactly
    [bs], the acknowledged payloads in order, and at most one more: a payload whose
    append failed.  If every append succeeded there is no extra one.  The journal
    that is open then holds the same again, whatever the next outage does. *)
Theorem Journal_durability {R} (replay : bytes → R → R * option error) ps w d bs r :
  journal_name (w_path w) → absent (other_journal (w_path w)) d →
  wal_holds w d bs → w_failed w = None →
  ∃ es w' d' extra, append_all ps (w, d) = Some (es, (w', d')) ∧
    (extra = [] ∨ ∃ p, p ∈ ps ∧ extra = [p]) ∧
    (Forall (λ e, e = None) es → extra = []) ∧
    ∀ r', replay_all replay (bs ++ acked ps es ++ extra) r = (r', None) →
      ∃ d'', OpenJournal replay (w_path w) r (crash d') = Some ((r', inr (opened (w_path w))), d'') ∧
        wal_holds (opened (w_path w)) d'' (bs ++ acked ps es ++ extra).
Proof.
  intros Hn Ho Hh Hf.
  destruct (append_all_spec ps w d bs Hh Hf) as (es&w'&d'&extra&Hr&Hp&Hoth&Hex&Hall&Hh').
  exists es, w', d', extra. split_and!; [done..|]. intros r' Hrep.
  pose proof (reopen_holds replay w' d' (bs ++ acked ps es ++ extra) r) as H. rewrite Hp, Hrep in H.
  destruct H as (d''&H&Hd''&_); [done| |done|by exists d''].
  eapply absent_same; [|exact Ho]. apply Hoth. by destruct Hn as [-> | ->].
Qed.

(** An incomplete final record is removed, whichever byte it is cut at:
    opening a file of complete frames followed by a strict prefix of one more
    replays the complete records only and leaves exactly them in the file, so
    the next append starts at a record boundary. *)
Theorem Torn_tail_removed {R} (replay : bytes → R → R * option error) name d bs p k r r' :
  quiet d → journal_name name → absent (other_journal name) d →
  Forall valid_payload bs → valid_payload p → (k < 8 + length p)%nat →
  files d !! name = Some (frames bs ++ take k (frame p)) →
  replay_all replay bs r = (r', None) →
  ∃ w d', OpenJournal replay name r d = Some ((r', inr w), d') ∧
    files d' !! name = Some (frames bs) ∧
    ∀ q, valid_payload q → ∃ w'' d'',
      Append q (w, d') = Some (None, (w'', d'')) ∧
      files d'' !! name = Some (frames (bs ++ [q])).
Proof.
  intros Hq Hn Ho Hbs Hp Hk Hfile Hr.
  pose proof (OpenJournal_holds replay name d bs (take k (frame p)) r) as H.
  rewrite Hfile, Hr in H.
  destruct H as (d'&Hopen&Hh&Hst&Hf'&_&_); [done..| |].
  { right. exists p, k. by rewrite length_frame. }
  eexists _, d'. split; [exact Hopen|].
  split; [by apply Hst|].
  intros q Hvq.
  destruct (Append_spec q (mkWAL name true (Some true) None) d' bs)
    as (err&w''&d''&Ha&Hp''&Ho''&_&_&_&Hok&_&_&Hsucc); [by apply settled_holds|].
  destruct Hsucc as [-> _]; [done..|].
  exists w'', d''. split; [exact Ha|].
  destruct (Hok eq_refl) as (_&Hf''&Hopen''&Hh'').
  destruct (wh_stable _ _ _ Hh'' Hf'') as [Hfl _ _]; [by rewrite Ho''|]. by rewrite Hp'' in Hfl.
Qed.

(** Corruption of a complete record is detected: if any one byte of a
    journaled payload has been changed, opening the journal fails with the
    checksum error after replaying the records before it, hands nothing of the
    damaged record to the replay, leaves the file as it was and releases both
    locks. *)
Theorem Corrupt_record_rejected {R} (replay : bytes → R → R * option error)
    name d bs a x y b rest r r' :
  quiet d → journal_name name → files d !! other_journal name = None →
  Forall valid_payload bs → valid_payload (a ++ x :: b) → x ≠ y →
  files d !! name = Some (frames bs ++
    (PutUint32 (lenN (a ++ x :: b) mod two32) ++
     PutUint32 (ChecksumIEEE (a ++ x :: b)) ++ (a ++ y :: b)) ++ rest) →
  replay_all replay bs r = (r', None) →
  ∃ d', OpenJournal replay name r d =
      Some ((r', inl (ErrNew ("WAL checksum mismatch at byte " +:+ pretty (lenN (frames bs))))), d') ∧
    files d' !! name = files d !! name ∧ locks d' = ∅.
Proof.
  intros Hq Hn Ho Hbs Hv Hxy Hfile Hr.
  assert (name ≠ directory_lock) as Hne by (by destruct Hn as [-> | ->]).
  rewrite OpenJournal_quiet, Hfile by done. cbn [default from_option id].
  match goal with |- context [scan _ _ ?n] =>
    assert (∃ k, n = (length bs + S k)%nat) as [k ->] end.
  { exists (length (frames bs ++ (PutUint32 (lenN (a ++ x :: b) mod two32) ++
     PutUint32 (ChecksumIEEE (a ++ x :: b)) ++ (a ++ y :: b)) ++ rest) - length bs)%nat.
    pose proof (length_frames bs). rewrite length_app. lia. }
  destruct (prepared_rest name d) as [Hpf _]. rewrite (proj2 Hq) in Hpf.
  rewrite (scan_frames_then _ _ _ _ _ _ _ r') by done.
  rewrite scan_mismatch; [|done|done|by rewrite !length_app|].
  2: { apply ChecksumIEEE_one_byte. done. }
  rewrite open_fail_quiet by done. eexists. split; [done|]. split; [|cbn; set_solver].
  destruct (prepared_is_Some name d) as [c Hcr]. pose proof (prepared_content name d) as Hpc.
  cbn [set_locks files]. rewrite Hcr in *. rewrite Hfile in Hpc. exact (f_equal Some Hpc).
Qed.

(** C21. Replacing the journal is atomic: whatever I/O call fails, the process
    can end or the power fail at the end of [Replace], and the reopened journal
    replays either exactly the old records or exactly the new ones, with nothing
    lost; the new ones if [Replace] reported success. *)
Theorem Replace_atomic {R} (replay : bytes → R → R * option error) ps w d bs r :
  journal_name (w_path w) → absent (other_journal (w_path w)) d →
  wal_holds w d bs → w_failed w = None →
  ∃ err w' d' content, Replace ps (w, d) = Some (err, (w', d')) ∧
    (content = bs ∨ content = ps) ∧ (err = None → content = ps) ∧
    ∀ r', replay_all replay content r = (r', None) →
      ∃ d'', OpenJournal replay (w_path w) r (crash d') = Some ((r', inr (opened (w_path w))), d'') ∧
        wal_holds (opened (w_path w)) d'' content.
Proof.
  intros Hn Ho Hh Hf.
  pose proof (Replace_spec ps w d bs (other_journal (w_path w))) as H.
  apply wp_total in H as (err&[w' d']&Hr&Hp&_&Hoth&Hon&Hok);
    [|unfold tmp_name; by destruct Hn as [-> | ->]..|done|done].
  assert (∃ content, (content = bs ∨ content = ps) ∧ (err = None → content = ps) ∧
            wal_holds w' d' content) as (content&Hc&Hce&Hhc).
  { destruct err as [e|]; [|exists ps; split_and!; auto; by apply Hok].
    destruct Hon as [Hbs|Hps]; [exists bs|exists ps]; split_and!; naive_solver. }
  exists err, w', d', content. split_and!; [done..|]. intros r' Hrep.
  pose proof (reopen_holds replay w' d' content r) as H. rewrite Hp, Hrep in H.
  destruct H as (d''&H&Hd''&_); [done|by apply Hoth|done|by exists d''].
Qed.

(** ** Witnesses *)

(** A directory with one file, which is synced. *)
Definition disk_of (name : string) (b : bytes) (ls : gset string) (fs : list fault) (os : list outage) : Disk :=
  mkDisk {[ name := b ]} {[ name := b ]} ∅ ls fs os.

Definition ex_collect (b : bytes) (r : list bytes) : list bytes * option error := (r ++ [b], None).
Definition ex_payload : bytes := [x61; x62; x63].
Definition ex_torn_disk : Disk :=
  disk_of "raft.wal" (frames [ex_payload] ++ take 9 (frame ex_payload)) ∅ [] [].
Definition ex_corrupt_disk : Disk :=
  disk_of "raft.wal" (frames [ex_payload] ++
     (PutUint32 (lenN ex_payload mod two32) ++ PutUint32 (ChecksumIEEE ex_payload) ++
      [x61; x7a; x63]) ++ frames [ex_payload]) ∅ [] [].
Definition ex_wal : WAL := mkWAL "raft.wal" true (Some true) None.
(** Two appends succeed (write and sync), the third writes five bytes only, of
    which the power failure leaves three. *)
Definition ex_faulty_disk : Disk :=
  disk_of "raft.wal" [] {["raft.wal"; directory_lock]}
    [no_fault; no_fault; no_fault; no_fault; mkFault (Some 5%nat) (Some (ErrNew "disk full"))]
    [PowerLoss (λ _, mkDamage 0 true 3)].

Lemma ex_valid : valid_payload ex_payload.
Proof. by split. Qed.

Lemma Journal_durability_witness :
  ∃ es w' d' extra,
    append_all [ex_payload; ex_payload; ex_payload] (ex_wal, ex_faulty_disk) =
      Some (es, (w', d')) ∧
    (extra = [] ∨ ∃ p, p ∈ [ex_payload; ex_payload; ex_payload] ∧ extra = [p]) ∧
    (Forall (λ e, e = None) es → extra = []) ∧
    ∀ r', replay_all ex_collect ([] ++ acked [ex_payload; ex_payload; ex_payload] es ++ extra) [] =
        (r', None) →
      ∃ d'', OpenJournal ex_collect "raft.wal" [] (crash d') = Some ((r', inr (opened "raft.wal")), d'') ∧
        wal_holds (opened "raft.wal") d'' ([] ++ acked [ex_payload; ex_payload; ex_payload] es ++ extra).
Proof.
  apply (Journal_durability ex_collect _ ex_wal ex_faulty_disk []).
  - by right.
  - by split.
  - by apply settled_holds; [constructor|split].
  - reflexivity.
Defined.

Lemma Torn_tail_removed_witness :
  ∃ w d', OpenJournal ex_collect "raft.wal" [] ex_torn_disk = Some (([ex_payload], inr w), d') ∧
    files d' !! "raft.wal" = Some (frames [ex_payload]) ∧
    ∀ q, valid_payload q → ∃ w'' d'',
      Append q (w, d') = Some (None, (w'', d'')) ∧
      files d'' !! "raft.wal" = Some (frames ([ex_payload] ++ [q])).
Proof.
  apply (Torn_tail_removed ex_collect "raft.wal" ex_torn_disk [ex_payload] ex_payload 9);
    [done|by right|by split|by constructor; [apply ex_valid|]|apply ex_valid|simpl; lia|
     reflexivity|reflexivity].
Defined.

Lemma Corrupt_record_rejected_witness :
  ∃ d', OpenJournal ex_collect "raft.wal" [] ex_corrupt_disk =
      Some (([ex_payload], inl (ErrNew "WAL checksum mismatch at byte 11")), d') ∧
    files d' !! "raft.wal" = files ex_corrupt_disk !! "raft.wal" ∧ locks d' = ∅.
Proof.
  apply (Corrupt_record_rejected ex_collect "raft.wal" ex_corrupt_disk [ex_payload]
           [x61] x62 x7a [x63] (frames [ex_payload]));
    [done|by right|reflexivity|by constructor; [apply ex_valid|]|apply ex_valid|done|
     reflexivity|reflexivity].
Defined.

(** The directory is not synced after the renaming, and the power failure brings the
    old file back. *)
Definition ex_replace_disk : Disk :=
  disk_of "raft.wal" (frames [ex_payload; ex_payload]) {["raft.wal"; directory_lock]}
    [no_fault; no_fault; no_fault; no_fault; no_fault; no_fault; mkFault None (Some ErrInjectedDisk)]
    [PowerLoss (λ _, mkDamage 1 true 0)].

Lemma Replace_atomic_witness :
  ∃ err w' d' content, Replace [ex_payload] (ex_wal, ex_replace_disk) = Some (err, (w', d')) ∧
    (content = [ex_payload; ex_payload] ∨ content = [ex_payload]) ∧
    (err = None → content = [ex_payload]) ∧
    ∀ r', replay_all ex_collect content [] = (r', None) →
      ∃ d'', OpenJournal ex_collect "raft.wal" [] (crash d') = Some ((r', inr (opened "raft.wal")), d'') ∧
        wal_holds (opened "raft.wal") d'' content.
Proof.
  apply (Replace_atomic ex_collect [ex_payload] ex_wal ex_replace_disk
            [ex_payload; ex_payload] []); [by right|by split| |reflexivity].
  apply settled_holds; [repeat constructor; apply ex_valid|by split].
Defined.

(** What that outage leaves. *)
Example ex_replace_lost :
  match Replace [ex_payload] (ex_wal, ex_replace_disk) with
  | Some (Some _, (_, d)) =>
    files d !! "raft.wal" = Some (frames [ex_payload]) ∧
    files (crash d) !! "raft.wal" = Some (frames [ex_payload; ex_payload])
  | _ => False
  end.
Proof. by vm_compute. Qed.
