(* ===== verification/Journal.v ===== *)
(** * Journal: what the Raft store needs of its journal

    The [journal] interface of src/internal/raft/store.go with its optional
    [Replace] method, as a type class; its contract, as a class of laws; and
    its two implementations: the checksummed file of [Wal] (storage.WAL) and
    the in-memory disk of src/internal/simulation/simulation.go. *)

From Stdlib Require Import Strings.Byte.
From stdpp Require Import base numbers list gmap strings fin_maps options.
From S2P Require Import Prelude Effects Bytes Wal.

(** ** The interface *)

Class Journal (J : Type) := {
  (* [Append]: the error returned and the journal afterwards *)
  j_append : bytes → J → option error * J;
  (* [Replace], which only some journals have *)
  j_replace : option (list bytes → J → option error * J);
  j_close : J → option error * J;
  (* the process has ended, perhaps because the power failed; open the journal
     again with a replay callback on a state [R]: the state after the replay, and
     the new handle *)
  j_open : ∀ {R : Type}, (bytes → R → R * option error) → R → J → R * (error + J);
  (* the environment decides anew which operations of the journal will fail *)
  j_faults : J → J → Prop;
  (* the records that reopening will replay, whatever the outage before it loses *)
  j_holds : J → list bytes → Prop;
}.

(** The contract: an acknowledged record is in the journal, a refused one may
    or may not be; replacing is atomic; reopening hands the callback what is
    held, in order, and fails when the callback does. *)
Class JournalLaws (J : Type) `{Journal J} : Prop := {
  j_append_law : ∀ b j bs, j_holds j bs →
    match j_append b j with
    | (None, j') => j_holds j' (bs ++ [b])
    | (Some _, j') => j_holds j' bs ∨ j_holds j' (bs ++ [b])
    end;
  j_replace_law : ∀ f bs' j bs, j_replace = Some f → j_holds j bs →
    match f bs' j with
    | (None, j') => j_holds j' bs'
    | (Some _, j') => j_holds j' bs ∨ j_holds j' bs'
    end;
  j_close_law : ∀ j bs, j_holds j bs → j_holds (j_close j).2 bs;
  j_open_law : ∀ R (replay : bytes → R → R * option error) r j bs, j_holds j bs →
    match replay_all replay bs r with
    | (r', None) => ∃ j', j_open replay r j = (r', inr j') ∧ j_holds j' bs
    | (r', Some _) => ∃ e, j_open replay r j = (r', inl e)
    end;
  j_faults_law : ∀ j j' bs, j_faults j j' → j_holds j bs → j_holds j' bs;
}.

(** ** [memoryDisk] *)

Record memoryDisk := mkMemoryDisk {
  md_records : list bytes;
  md_failure : string;
}.

Definition memoryDisk_Append (b : bytes) (d : memoryDisk) : option error * memoryDisk :=
  if bool_decide (md_failure d = "before") then (Some ErrInjectedDisk, d)
  else
    let d' := mkMemoryDisk (md_records d ++ [b]) (md_failure d) in
    if bool_decide (md_failure d = "after") then (Some ErrInjectedDisk, d') else (None, d').

(** [Open] hands every record to the callback and returns the disk itself. *)
Fixpoint memoryDisk_replay {R} (replay : bytes → R → R * option error)
    (records : list bytes) (r : R) : R * option error :=
  match records with
  | [] => (r, None)
  | b :: records' =>
    match replay b r with
    | (r', Some err) => (r', Some err)
    | (r', None) => memoryDisk_replay replay records' r'
    end
  end.

Definition memoryDisk_Open {R} (replay : bytes → R → R * option error) (r : R)
    (d : memoryDisk) : R * (error + memoryDisk) :=
  match memoryDisk_replay replay (md_records d) r with
  | (r', Some err) => (r', inl err)
  | (r', None) => (r', inr d)
  end.

Definition memoryDisk_Close (d : memoryDisk) : option error * memoryDisk := (None, d).

#[export] Instance memoryDisk_Journal : Journal memoryDisk := {
  j_append := memoryDisk_Append;
  j_replace := None;
  j_close := memoryDisk_Close;
  j_open := @memoryDisk_Open;
  j_faults d d' := md_records d' = md_records d;
  j_holds d bs := md_records d = bs;
}.

(** ** [storage.WAL] in a directory *)

Definition raft_wal : string := "raft.wal".

(** The outcome of an operation of [Wal]; none of them panics, and the journal
    is unchanged in the branch that cannot happen. *)
Definition run_wal (m : M (WAL * Disk) (option error)) (s : WAL * Disk)
    : option error * (WAL * Disk) :=
  match m s with Some r => r | None => (Some (ErrNew "panic"), s) end.

Definition wal_open {R} (replay : bytes → R → R * option error) (r : R) (s : WAL * Disk)
    : R * (error + (WAL * Disk)) :=
  match OpenJournal replay raft_wal r (crash s.2) with
  | Some ((r', inr w), d) => (r', inr (w, d))
  | Some ((r', inl e), _) => (r', inl e)
  | None => (r, inl (ErrNew "panic"))
  end.

Definition wal_disk_holds (s : WAL * Disk) (bs : list bytes) : Prop :=
  w_path s.1 = raft_wal ∧ wal_holds s.1 s.2 bs ∧ absent "commands.wal" s.2.

#[export] Instance wal_Journal : Journal (WAL * Disk) := {
  j_append b := run_wal (Append b);
  j_replace := Some (λ bs, run_wal (Replace bs));
  j_close := run_wal Close;
  j_open := @wal_open;
  j_faults s s' := s'.1 = s.1 ∧ unmoved s.2 s'.2 ∧ locks s'.2 = locks s.2;
  j_holds := wal_disk_holds;
}.

(** ** The laws *)

Lemma memoryDisk_replay_all {R} (replay : bytes → R → R * option error) bs r :
  match replay_all replay bs r with
  | (r', None) => memoryDisk_replay replay bs r = (r', None)
  | (r', Some _) => ∃ e, memoryDisk_replay replay bs r = (r', Some e)
  end.
Proof.
  revert r. induction bs as [|b bs IH]; intros r; simpl; [done|].
  destruct (replay b r) as [r' [e|]]; [by eexists|]. apply IH.
Qed.

#[export] Instance memoryDisk_laws : JournalLaws memoryDisk.
Proof.
  split; simpl; try done.
  - intros b j bs <-. unfold memoryDisk_Append. repeat case_bool_decide; simpl; auto.
  - intros R replay r j bs <-. unfold memoryDisk_Open.
    pose proof (memoryDisk_replay_all replay (md_records j) r) as H.
    destruct (replay_all replay (md_records j) r) as [r' [e|]].
    + destruct H as [e' ->]. by eexists.
    + rewrite H. by eexists.
  - intros j j' bs -> Hh. done.
Qed.

Lemma unmoved_trans d1 d2 d3 : unmoved d1 d2 → unmoved d2 d3 → unmoved d1 d3.
Proof. intros [] []. split; congruence. Qed.

Lemma Close_unmoved w d :
  ∃ err w' d', Close (w, d) = Some (err, (w', d')) ∧
    w_path w' = w_path w ∧ w_failed w' = w_failed w ∧ w_open w' = false ∧ unmoved d d'.
Proof.
  assert (∀ n b d, ∃ e d', close_handle n b d = Some (e, d') ∧ unmoved d d') as Hch.
  { intros n b d0. unfold close_handle. destruct b; [|by eexists _, _].
    unfold close_file. destruct (sys_spec d0) as (e&d1&Hs&[]&_).
    run (exact Hs). eexists _, _. by split. }
  unfold Close. destruct (Hch (w_path w) (w_open w) d) as (e&d1&H1&Hf1).
  run (exact H1). destruct (w_lock w) as [b|].
  - destruct (Hch directory_lock b d1) as (e2&d2&H2&Hf2). run (exact H2).
    eexists _, _, _. split; [reflexivity|]. simpl. split_and!; try done. by eapply unmoved_trans.
  - eexists _, _, _. split; [reflexivity|]. by simpl.
Qed.

(** A journal on a disk whose files are the same. *)
Lemma unmoved_holds w w' d d' bs :
  w_path w' = w_path w → w_failed w' = w_failed w → (w_open w' = true → w_open w = true) →
  unmoved d d' → wal_holds w d bs → wal_holds w' d' bs.
Proof.
  intros Hp Hf Ho Hu [(torn&[H1 H2 H3]) Hst]. pose proof (unmoved_same d d' (w_path w) Hu) as Hs.
  split; rewrite Hp.
  - exists torn. split; [|done|done]. by rewrite (crash_same d d') by (done || apply Hu).
  - rewrite Hf. intros Hf' Ho'. eapply settled_same; [exact Hs|by auto].
Qed.

#[export] Instance wal_laws : JournalLaws (WAL * Disk).
Proof.
  split; simpl.
  - intros b [w d] bs (Hp&Hh&Ho). unfold run_wal.
    destruct (Append_spec b w d bs Hh) as (err&w'&d'&Ha&Hp'&_&_&Hoth&_&Hok&Herr&_).
    rewrite Ha. simpl in *.
    assert (absent "commands.wal" d') by (eapply absent_same; [|exact Ho]; apply Hoth; by rewrite Hp).
    destruct err as [e|].
    + destruct (Herr ltac:(done)) as [?|[_ ?]]; [left|right]; split_and!; simpl; try done; congruence.
    + destruct (Hok eq_refl) as (_&_&_&?). split_and!; simpl; try done; congruence.
  - intros f bs' [w d] bs [= <-] (Hp&Hh&Ho). simpl in *. unfold run_wal.
    destruct (w_failed w) as [e|] eqn:Hf.
    { unfold Replace. rewrite Hf. by left. }
    pose proof (Replace_spec bs' w d bs "commands.wal") as H.
    apply wp_total in H as (err&[w' d']&Hr&Hp'&_&Hoth&Hon&Hok);
      [|by rewrite Hp|unfold tmp_name; by rewrite Hp|done|done].
    rewrite Hr. destruct err as [e|].
    + destruct Hon as [?|?]; [left|right]; split_and!; simpl; auto; congruence.
    + destruct (Hok eq_refl). split_and!; simpl; auto; congruence.
  - intros [w d] bs (Hp&Hh&Ho). simpl in *. unfold run_wal.
    destruct (Close_unmoved w d) as (err&w'&d'&Hc&Hp'&Hfl&Hop&Hu). rewrite Hc.
    split_and!; simpl; [congruence| |by eapply absent_same; [apply unmoved_same|]].
    apply (unmoved_holds w w' d d'); [done|done|by rewrite Hop|done|done].
  - intros R replay r [w d] bs (Hp&Hh&Ho). simpl in *. unfold wal_open. simpl.
    pose proof (reopen_holds replay w d bs r) as H. rewrite Hp in H.
    destruct (replay_all replay bs r) as [r' [e|]].
    + destruct H as (d'&Hopen&_); [by right|done..|]. rewrite Hopen. by eexists.
    + destruct H as (d'&Hopen&Hh'&_&_&Ho'); [by right|done..|]. rewrite Hopen.
      eexists. split; [done|]. by split_and!.
  - intros [w d] [w' d'] bs (Hw&Hu&_) (Hp&Hh&Ho). simpl in *. subst w'.
    split_and!; [done| |by eapply absent_same; [apply unmoved_same|]]. by eapply unmoved_holds.
Qed.
