(* ===== verification/Store.v ===== *)
(** * Store: the durable state of a Raft node (src/internal/raft/store.go)

    Term, vote, commit index and log are kept in memory and in a journal of
    JSON records; every record is validated before it is written and again when
    it is replayed.  A checkpoint replaces the journal by one record that holds
    the machine and the uncompacted suffix of the log.

    The journal is any implementation of [Journal]; the JSON codec of
    [encoding/json] is the interface [Codec]. *)

From Stdlib Require Import Strings.Byte.
From stdpp Require Import base numbers list gmap strings fin_maps options.
From S2P Require Import Prelude Effects Bytes StateMachine Wal Journal.

Local Open Scope N_scope.
#[local] Set Default Proof Using "Type*".

(** ** Data *)

Record Entry := mkEntry {
  e_Index : N;
  e_Term : N;
  e_Command : option Command;
}.

#[export] Instance Entry_eq_dec : EqDecision Entry.
Proof. solve_decision. Defined.

Definition zeroEntry : Entry := mkEntry 0 0 None.

Record checkpoint := mkCheckpoint {
  k_Index : N;
  k_Term : N;
  k_Machine : Snapshot;
  k_RaftTerm : N;
  k_Vote : string;
  k_Commit : N;
  k_Log : list Entry;
}.

Record record := mkRecord {
  rc_Identity : string;
  rc_Term : N;
  rc_Vote : string;
  rc_Commit : N;
  rc_From : N;
  rc_Entries : list Entry;
  rc_Checkpoint : option checkpoint;
}.

Record durableState := mkState {
  ds_term : N;
  ds_vote : string;
  ds_commit : N;
  ds_base : N;
  ds_log : list Entry;
}.

#[export] Instance durableState_eq_dec : EqDecision durableState.
Proof. solve_decision. Defined.

(** [W] is the type of the journal; a store that is being opened has none. *)
Record diskStore (W : Type) := mkStore {
  st_wal : W;
  st_identity : string;
  st_state : durableState;
  st_snapshot : Snapshot;
}.
Arguments mkStore {W}.
Arguments st_wal {W}.
Arguments st_identity {W}.
Arguments st_state {W}.
Arguments st_snapshot {W}.

Definition set_wal {W W'} (w : W') (s : diskStore W) : diskStore W' :=
  mkStore w (st_identity s) (st_state s) (st_snapshot s).
Definition set_state {W} (d : durableState) (s : diskStore W) : diskStore W :=
  mkStore (st_wal s) (st_identity s) d (st_snapshot s).

Definition zeroSnapshot : Snapshot := mkSnapshot ∅ ∅ 0.

(** The store [openStoreUsing] starts from: one sentinel entry. *)
Definition emptyStore (identity : string) : diskStore unit :=
  mkStore tt identity (mkState 0 "" 0 0 [zeroEntry]) zeroSnapshot.

(** ** The codec of journal records *)

Class Codec (A : Type) := {
  marshal : A → error + bytes;
  unmarshal : bytes → error + A;
}.

(** ** Operations *)

(** [s.entry]: the index is relative to the base and wraps below it. *)
Definition entry {W} (s : diskStore W) (index : N) : option Entry :=
  slice_get (ds_log (st_state s)) (sub64 index (ds_base (st_state s))).

Definition last {W} (s : diskStore W) : N :=
  add64 (ds_base (st_state s)) (sub64 (lenN (ds_log (st_state s))) 1).

(** The loop over new entries that both branches of [validate] run: the [i]-th
    entry must have index [first + i] and a term between its predecessor's and
    [max]. *)
Fixpoint check_entries (bad : error) (first max previousTerm i : N) (es : list Entry)
    : option error :=
  match es with
  | [] => None
  | e :: es' =>
    if negb (e_Index e =? add64 first i) || (e_Term e =? 0) || (max <? e_Term e) ||
       (e_Term e <? previousTerm)
    then Some bad
    else
      match (match e_Command e with Some c => Validate c | None => None end) with
      | Some err => Some err
      | None => check_entries bad first max (e_Term e) (i + 1) es'
      end
  end.

Definition validate_checkpoint {W} (s : diskStore W) (r : record) (c : checkpoint)
    : option error :=
  let d := st_state s in
  if bool_decide (rc_Identity r ≠ st_identity s) || negb (rc_Term r =? 0) ||
     bool_decide (rc_Vote r ≠ "") || negb (rc_Commit r =? 0) || negb (rc_From r =? 0) ||
     negb (lenN (rc_Entries r) =? 0)
  then Some (ErrNew "invalid checkpoint record")
  else if (k_Index c <? ds_base d) || (k_Commit c <? k_Index c) ||
     (k_RaftTerm c <? ds_term d) || (k_Commit c <? ds_commit d) ||
     match k_Log c with
     | [] => true
     | e :: _ => negb (e_Index e =? k_Index c) || negb (e_Term e =? k_Term c)
     end
  then Some (ErrNew "invalid checkpoint state")
  else
    match (Restore New (k_Machine c)).2 with
    | Some err => Some err
    | None =>
      match check_entries (ErrNew "invalid checkpoint log") (add64 (k_Index c) 1)
              (k_RaftTerm c) (k_Term c) 0 (tail (k_Log c)) with
      | Some err => Some err
      | None =>
        if add64 (k_Index c) (sub64 (lenN (k_Log c)) 1) <? k_Commit c
        then Some (ErrNew "checkpoint commit exceeds log") else None
      end
    end.

(** [None] is a panic: the entry before the replaced suffix is out of range. *)
Definition validate {W} (s : diskStore W) (r : record) : option (option error) :=
  let d := st_state s in
  match rc_Checkpoint r with
  | Some c => Some (validate_checkpoint s r c)
  | None =>
    if bool_decide (rc_Identity r ≠ st_identity s)
    then Some (Some (ErrNew "data belongs to another node, cluster, membership, or election mode"))
    else if (rc_Term r <? ds_term d) || (rc_Commit r <? ds_commit d)
    then Some (Some (ErrNew "durable term or commit regressed"))
    else if (rc_Term r =? ds_term d) && bool_decide (ds_vote d ≠ "") &&
            bool_decide (rc_Vote r ≠ ds_vote d)
    then Some (Some (ErrNew "attempt to change vote within a term"))
    else
      let length := add64 (ds_base d) (lenN (ds_log d)) in
      let exceeds (length : N) :=
        if length <=? rc_Commit r then Some (ErrNew "commit exceeds log") else None in
      if negb (rc_From r =? 0) then
        if (rc_From r <=? ds_commit d) || (length <? rc_From r)
        then Some (Some (ErrNew "attempt to replace committed entries or create log gap"))
        else
          previous ← entry s (sub64 (rc_From r) 1);
          match check_entries (ErrNew "invalid log index or term") (rc_From r) (rc_Term r)
                  (e_Term previous) 0 (rc_Entries r) with
          | Some err => Some (Some err)
          | None => Some (exceeds (add64 (rc_From r) (lenN (rc_Entries r))))
          end
      else if negb (lenN (rc_Entries r) =? 0)
      then Some (Some (ErrNew "entries without replacement index"))
      else Some (exceeds length)
  end.

(** [s.accept]; [cloneEntries] copies, so the values are unchanged. *)
Definition cloneEntries (entries : list Entry) : list Entry := entries.

Definition accept {W} (r : record) (s : diskStore W) : option (diskStore W) :=
  match rc_Checkpoint r with
  | Some c =>
    Some (mkStore (st_wal s) (st_identity s)
            (mkState (k_RaftTerm c) (k_Vote c) (k_Commit c) (k_Index c)
               (cloneEntries (k_Log c)))
            (k_Machine c))
  | None =>
    let d := st_state s in
    if rc_From r =? 0
    then Some (set_state (mkState (rc_Term r) (rc_Vote r) (rc_Commit r) (ds_base d) (ds_log d)) s)
    else
      kept ← slice_to (ds_log d) (sub64 (rc_From r) (ds_base d));
      log ← append_slice kept (cloneEntries (rc_Entries r));
      Some (set_state (mkState (rc_Term r) (rc_Vote r) (rc_Commit r) (ds_base d) log) s)
  end.

Section store.
Context {J : Type} `{!Journal J} `{!Codec record}.

(** Appending to the journal of the store. *)
Definition wal_Append (b : bytes) : M (diskStore J) (option error) :=
  zoom st_wal set_wal (λ w, Some (j_append b w)).

Definition acceptM (r : record) : M (diskStore J) unit := λ s,
  s' ← accept r s; Some (tt, s').

Definition save (term : N) (vote : string) (commit from : N) (entries : list Entry)
    : M (diskStore J) (option error) :=
  s ← get;
  let r := mkRecord (st_identity s) term vote commit from entries None in
  err ← lift (validate s r);
  match err with Some err => mret (Some err) | None =>
  match marshal r with inl err => mret (Some err) | inr b =>
  err ← wal_Append b;
  match err with Some err => mret (Some (ErrWrap "persist raft state: " err)) | None =>
  acceptM r ;; mret None
  end end end.

Definition store_checkpoint (machine : Snapshot) (index : N) : M (diskStore J) (option error) :=
  s ← get;
  let d := st_state s in
  if (index <=? ds_base d) || (ds_commit d <? index) || (last s <? index)
  then mret (Some (ErrNew "invalid checkpoint index"))
  else
  let offset := sub64 index (ds_base d) in
  e ← lift (slice_get (ds_log d) offset);
  suffix ← lift (slice_from (ds_log d) offset);
  let c := mkCheckpoint index (e_Term e) machine (ds_term d) (ds_vote d) (ds_commit d)
             (cloneEntries suffix) in
  let r := mkRecord (st_identity s) 0 "" 0 0 [] (Some c) in
  err ← lift (validate s r);
  match err with Some err => mret (Some err) | None =>
  match marshal r with inl err => mret (Some err) | inr b =>
  match j_replace with
  | None => mret (Some (ErrNew "journal does not support compaction"))
  | Some replacer =>
    err ← zoom st_wal set_wal (λ w, Some (replacer [b] w));
    match err with Some err => mret (Some (ErrWrap "persist checkpoint: " err)) | None =>
    acceptM r ;; mret None
    end
  end end end.

(** The replay callback of [openStoreUsing], on the store being built and the
    flag [seen]; [None] is a panic inside the callback. *)
Definition replay_record (b : bytes) (x : option (diskStore unit * bool))
    : option (diskStore unit * bool) * option error :=
  match x with
  | None => (None, Some (ErrNew "panic"))
  | Some (s, seen) =>
    match unmarshal b with inl err => (x, Some err) | inr r =>
    match validate s r with
    | None => (None, Some (ErrNew "panic"))
    | Some (Some err) => (x, Some err)
    | Some None =>
      match accept r s with
      | None => (None, Some (ErrNew "panic"))
      | Some s' => (Some (s', true), None)
      end
    end end
  end.

Definition openStoreUsing (identity : string) (j : J) : option (error + diskStore J) :=
  let '(x, w) := j_open replay_record (Some (emptyStore identity, false)) j in
  '(s, seen) ← x;
  match w with
  | inl err => Some (inl err)
  | inr w =>
    if (seen : bool) then Some (inr (set_wal w s))
    else
      match save 0 "" 0 0 [] (set_wal w s) with
      | None => None
      | Some (Some err, s') => let _ := j_close (st_wal s') in Some (inl err)
      | Some (None, s') => Some (inr s')
      end
  end.

End store.

(** ** Specification *)

(** Values that JSON represents exactly: valid UTF-8 text and numbers of the
    source's width. *)
Definition text (s : string) : Prop := ValidString s = true.

Record rep_command (c : Command) : Prop := {
  rep_ClientID : text (c_ClientID c);
  rep_RequestID : c_RequestID c < two64;
  rep_Operation : text (c_Operation c);
  rep_Key : text (c_Key c);
  rep_Value : text (c_Value c);
  rep_Expected : text (c_Expected c);
}.

Record rep_entry (e : Entry) : Prop := {
  rep_Index : e_Index e < two64;
  rep_Term : e_Term e < two64;
  rep_Command : ∀ c, e_Command e = Some c → rep_command c;
}.

Definition rep_entries (es : list Entry) : Prop := lenN es < two63 ∧ Forall rep_entry es.

Record rep_snapshot (s : Snapshot) : Prop := {
  rep_Values : ∀ k v, snap_Values s !! k = Some v → text k ∧ text v;
  rep_Sessions : ∀ id v, snap_Sessions s !! id = Some v →
    text id ∧ rep_command (s_Command v) ∧ text (r_Value (s_Result v));
  rep_Count : snap_Count s < two64;
}.

Record rep_checkpoint (c : checkpoint) : Prop := {
  rep_k_Index : k_Index c < two64;
  rep_k_Term : k_Term c < two64;
  rep_k_Machine : rep_snapshot (k_Machine c);
  rep_k_RaftTerm : k_RaftTerm c < two64;
  rep_k_Vote : text (k_Vote c);
  rep_k_Commit : k_Commit c < two64;
  rep_k_Log : rep_entries (k_Log c);
}.

Record representable (r : record) : Prop := {
  rep_rc_Identity : text (rc_Identity r);
  rep_rc_Term : rc_Term r < two64;
  rep_rc_Vote : text (rc_Vote r);
  rep_rc_Commit : rc_Commit r < two64;
  rep_rc_From : rc_From r < two64;
  rep_rc_Entries : rep_entries (rc_Entries r);
  rep_rc_Checkpoint : ∀ c, rc_Checkpoint r = Some c → rep_checkpoint c;
}.

(** What [encoding/json] promises of journal records: a representable record
    survives the round trip, and decoding yields only representable values. *)
Class CodecLaws `{Codec record} : Prop := {
  codec_roundtrip : ∀ r, representable r → ∃ b, marshal r = inr b ∧ unmarshal b = inr r;
  codec_decodes : ∀ b r, unmarshal b = inr r → representable r;
}.

(** The entry at a log index, and the last index. *)
Definition log_at (d : durableState) (i : N) : option Entry :=
  if i <? ds_base d then None else ds_log d !! N.to_nat (i - ds_base d).
Definition last_index (d : durableState) : N := ds_base d + lenN (ds_log d) - 1.
Definition log_end (d : durableState) : N := ds_base d + lenN (ds_log d).

Definition terms_sorted (es : list Entry) : Prop :=
  ∀ i j ei ej, (i ≤ j)%nat → es !! i = Some ei → es !! j = Some ej → e_Term ei ≤ e_Term ej.

Definition valid_entry (e : Entry) : Prop :=
  ∀ c, e_Command e = Some c → Validate c = None.

Record wf_state (d : durableState) : Prop := {
  wf_log : ds_log d ≠ [];
  wf_fits : lenN (ds_log d) < two63;
  wf_end : log_end d ≤ two64;
  wf_index : ∀ i e, ds_log d !! i = Some e → e_Index e = ds_base d + N.of_nat i;
  wf_sorted : terms_sorted (ds_log d);
  wf_entries : ∀ i e, ds_log d !! S i = Some e →
    e_Term e ≠ 0 ∧ e_Term e ≤ ds_term d ∧ valid_entry e;
  wf_commit : ds_base d ≤ ds_commit d ∧ ds_commit d < log_end d;
  wf_rep : Forall rep_entry (ds_log d);
  wf_term : ds_term d < two64;
  wf_vote : text (ds_vote d);
}.

Record wf_store {W} (s : diskStore W) : Prop := {
  wf_st_state : wf_state (st_state s);
  wf_st_identity : text (st_identity s);
  wf_st_snapshot : (Restore New (st_snapshot s)).2 = None;
  wf_st_rep : rep_snapshot (st_snapshot s);
}.

(** [d'] is a later durable state than [d]: nothing durable is taken back. *)
Record extends (d d' : durableState) : Prop := {
  ext_term : ds_term d ≤ ds_term d';
  ext_vote : ds_term d = ds_term d' → ds_vote d ≠ "" → ds_vote d' = ds_vote d;
  ext_commit : ds_commit d ≤ ds_commit d';
  ext_base : ds_base d ≤ ds_base d';
  ext_log : ∀ i, ds_base d' ≤ i → i ≤ ds_commit d → log_at d' i = log_at d i;
}.

(** The state an accepted record without a checkpoint leads to. *)
Definition updated (d : durableState) (r : record) : durableState :=
  mkState (rc_Term r) (rc_Vote r) (rc_Commit r) (ds_base d)
    (if rc_From r =? 0 then ds_log d
     else take (N.to_nat (rc_From r - ds_base d)) (ds_log d) ++ rc_Entries r).

(** What the records of a journal amount to, every one of them valid. *)
Fixpoint replay_records `{Codec record} (bs : list bytes) (s : diskStore unit)
    : option (diskStore unit) :=
  match bs with
  | [] => Some s
  | b :: bs' =>
    match unmarshal b with inl _ => None | inr r =>
    match validate s r with
    | Some None => s' ← accept r s; replay_records bs' s'
    | _ => None
    end end
  end.

(** A journal whose records lead to the store [s]. *)
Definition content `{Journal J, Codec record} (w : J) (s : diskStore unit) : Prop :=
  ∃ bs, bs ≠ [] ∧ j_holds w bs ∧ replay_records bs (emptyStore (st_identity s)) = Some s.

Definition without_wal {W} (s : diskStore W) : diskStore unit := set_wal tt s.

(** A journal that cannot be read back: the log it holds is longer than any
    slice, so replaying it panics. *)
Definition overflowing `{Journal J, Codec record} (w : J) (identity : string) : Prop :=
  ∃ bs, j_holds w bs ∧ (replay_all replay_record bs (Some (emptyStore identity, false))).1 = None.

(** ** Lemmas *)

#[export] Instance extends_preorder : PreOrder extends.
Proof.
  split.
  - intros d. by split.
  - intros d1 d2 d3 [] []. split; try lia.
    + intros H1 H2. assert (ds_term d1 = ds_term d2) as H12 by lia.
      rewrite ext_vote1; [by apply ext_vote0|lia|]. by rewrite ext_vote0.
    + intros i H1 H2. rewrite ext_log1 by lia. apply ext_log0; lia.
Qed.

Lemma check_entries_None bad first max p i es :
  check_entries bad first max p i es = None ↔
    (∀ k e, es !! k = Some e → e_Index e = add64 first (i + N.of_nat k) ∧ e_Term e ≠ 0 ∧
       e_Term e ≤ max ∧ p ≤ e_Term e ∧ valid_entry e) ∧ terms_sorted es.
Proof.
  revert p i. induction es as [|e es IH]; intros p i.
  { simpl. split; [|done]. split; [done|]. intros ????? Hn. by rewrite lookup_nil in Hn. }
  cbn [check_entries].
  destruct (negb _ || _ || _ || _) eqn:Ht.
  { split; [done|]. intros [Hx _]. destruct (Hx 0%nat e eq_refl) as (H1&H2&H3&H4&_).
    rewrite N.add_0_r in H1. rewrite H1, N.eqb_refl in Ht. simpl in Ht.
    apply orb_true_iff in Ht as [Ht|Ht]; [apply orb_true_iff in Ht as [Ht|Ht]|]; tests; lia. }
  tests.
  assert (valid_entry e ↔ match e_Command e with Some c => Validate c | None => None end = None) as Hv.
  { unfold valid_entry. destruct (e_Command e); naive_solver. }
  destruct (match e_Command e with Some c => Validate c | None => None end) as [err|] eqn:Hc.
  { split; [done|]. intros [Hx _]. destruct (Hx 0%nat e eq_refl) as (_&_&_&_&Hb).
    apply Hv in Hb. done. }
  rewrite IH. split.
  - intros [Hall Hs]. split.
    + intros [|k] e' He'.
      * injection He' as <-. rewrite N.add_0_r. naive_solver.
      * destruct (Hall k e' He') as (H1'&?&?&?&?). split_and!; try done; [|lia].
        rewrite H1'. f_equal. lia.
    + intros [|a] [|b] ea eb Hab Ha Hb; try lia.
      * injection Ha as <-. injection Hb as <-. lia.
      * injection Ha as <-. destruct (Hall b eb Hb) as (_&_&_&?&_). lia.
      * apply (Hs a b); [lia|done..].
  - intros [Hall Hs]. split.
    + intros k e' He'. destruct (Hall (S k) e' He') as (H1'&?&?&?&?).
      split_and!; try done.
      * rewrite H1'. f_equal. lia.
      * apply (Hs 0%nat (S k)); [lia|done..].
    + intros a b ea eb Hab Ha Hb. apply (Hs (S a) (S b)); [lia|done..].
Qed.

Lemma lenN_pos {A} (l : list A) : l ≠ [] → 0 < lenN l.
Proof. destruct l; [done|]. intros _. rewrite lenN_cons. lia. Qed.

Lemma lookup_lenN {A} (l : list A) (i : nat) : is_Some (l !! i) ↔ N.of_nat i < lenN l.
Proof. rewrite lookup_lt_is_Some. unfold lenN. lia. Qed.

Lemma log_at_is_Some d i : is_Some (log_at d i) ↔ ds_base d ≤ i ∧ i < log_end d.
Proof.
  unfold log_at, log_end. destruct (N.ltb_spec i (ds_base d)).
  - split; [by intros []|lia].
  - rewrite lookup_lenN. lia.
Qed.

Lemma log_at_lookup d i k : k = N.to_nat (i - ds_base d) → ds_base d ≤ i →
  log_at d i = ds_log d !! k.
Proof. intros -> H. unfold log_at. by destruct (N.ltb_spec i (ds_base d)); [lia|]. Qed.

Lemma log_at_base d k : log_at d (ds_base d + N.of_nat k) = ds_log d !! k.
Proof. apply log_at_lookup; lia. Qed.

Section wf.
Context (d : durableState) (Hwf : wf_state d).

Lemma wf_len : 0 < lenN (ds_log d).
Proof. apply lenN_pos, Hwf. Qed.

Lemma last_index_lt : last_index d < two64 ∧ ds_base d ≤ last_index d ∧
  ds_commit d ≤ last_index d ∧ log_end d = last_index d + 1.
Proof.
  pose proof wf_len. destruct Hwf as [_ _ He _ _ _ Hc _ _]. unfold last_index, log_end in *. lia.
Qed.

Lemma log_at_Index i e : log_at d i = Some e → e_Index e = i ∧ rep_entry e.
Proof.
  intros H. assert (is_Some (log_at d i)) as Hs by done. apply log_at_is_Some in Hs.
  rewrite (log_at_lookup d i _ eq_refl) in H by lia.
  pose proof (wf_index d Hwf _ _ H). split; [lia|].
  eapply Forall_lookup_1; [apply Hwf|done].
Qed.

(** Entries above the base carry a positive term no later than the state's and
    a valid command. *)
Lemma log_at_entry i e : log_at d i = Some e → ds_base d < i →
  e_Term e ≠ 0 ∧ e_Term e ≤ ds_term d ∧ valid_entry e.
Proof.
  intros H Hi. rewrite (log_at_lookup d i (S (N.to_nat (i - ds_base d - 1)))) in H by lia.
  by eapply wf_entries.
Qed.

Lemma log_at_sorted i j ei ej :
  log_at d i = Some ei → log_at d j = Some ej → i ≤ j → e_Term ei ≤ e_Term ej.
Proof.
  intros Hi Hj Hij. assert (is_Some (log_at d i)) as Hs by done. apply log_at_is_Some in Hs.
  rewrite (log_at_lookup d i _ eq_refl) in Hi by lia.
  rewrite (log_at_lookup d j _ eq_refl) in Hj by lia.
  eapply wf_sorted; [apply Hwf| |done|done]. lia.
Qed.

Lemma log_at_some i : ds_base d ≤ i → i ≤ last_index d → ∃ e, log_at d i = Some e.
Proof.
  intros H1 H2. destruct last_index_lt as (_&_&_&He).
  assert (is_Some (log_at d i)) as [e ?] by (apply log_at_is_Some; lia). by exists e.
Qed.

End wf.

Lemma last_spec {W} (s : diskStore W) : wf_state (st_state s) → last s = last_index (st_state s).
Proof.
  intros Hwf. pose proof (wf_len _ Hwf). destruct (last_index_lt _ Hwf) as (Hl&_).
  pose proof (wf_fits _ Hwf). unfold last, last_index, two63 in *.
  rewrite (sub64_small _ 1) by (unfold two64; lia).
  rewrite add64_small by lia. lia.
Qed.

Lemma entry_spec {W} (s : diskStore W) i :
  wf_state (st_state s) → i < two64 → entry s i = log_at (st_state s) i.
Proof.
  intros Hwf Hi. unfold entry, log_at. rewrite slice_get_lookup.
  pose proof (wf_end _ Hwf) as He. pose proof (wf_len _ Hwf). unfold log_end in He.
  destruct (N.ltb_spec i (ds_base (st_state s))).
  - rewrite sub64_wrap by lia. apply lookup_ge_None_2. unfold lenN in *. lia.
  - by rewrite sub64_small by lia.
Qed.

(** ** What [validate] accepts *)

Record valid_update (identity : string) (d : durableState) (r : record) : Prop := {
  vu_identity : rc_Identity r = identity;
  vu_term : ds_term d ≤ rc_Term r;
  vu_vote : rc_Term r = ds_term d → ds_vote d ≠ "" → rc_Vote r = ds_vote d;
  vu_commit : ds_commit d ≤ rc_Commit r;
  vu_end : log_end d < two64;
  vu_same : rc_From r = 0 → rc_Entries r = [] ∧ rc_Commit r < log_end d;
  vu_from : rc_From r ≠ 0 →
    ds_commit d < rc_From r ∧ rc_From r ≤ log_end d ∧
    rc_Commit r < rc_From r + lenN (rc_Entries r) ∧
    rc_From r + lenN (rc_Entries r) < two64 ∧
    terms_sorted (rc_Entries r) ∧
    ∀ k e, rc_Entries r !! k = Some e →
      e_Index e = rc_From r + N.of_nat k ∧ e_Term e ≠ 0 ∧ e_Term e ≤ rc_Term r ∧
      valid_entry e ∧ ∀ p, log_at d (rc_From r - 1) = Some p → e_Term p ≤ e_Term e;
}.

Lemma add64_log_end d : wf_state d →
  add64 (ds_base d) (lenN (ds_log d)) = if log_end d <? two64 then log_end d else 0.
Proof.
  intros Hwf. pose proof (wf_end d Hwf) as He. unfold log_end in *.
  destruct (N.ltb_spec (ds_base d + lenN (ds_log d)) two64).
  - by apply add64_small.
  - unfold add64. replace (ds_base d + lenN (ds_log d)) with two64 by lia. done.
Qed.

(** A sum of two numbers below the modulus wraps at most once. *)
Lemma add64_cases a b : a < two64 → b < two64 →
  (a + b < two64 ∧ add64 a b = a + b) ∨ (two64 ≤ a + b ∧ add64 a b = a + b - two64).
Proof.
  intros Ha Hb. destruct (N.lt_ge_cases (a + b) two64).
  - left. by rewrite add64_small.
  - right. split; [done|]. unfold add64.
    replace (a + b) with ((a + b - two64) + 1 * two64) at 1 by lia.
    rewrite N.Div0.mod_add. apply N.mod_small. lia.
Qed.

Lemma validate_update {W} (s : diskStore W) r :
  wf_state (st_state s) → representable r → rc_Checkpoint r = None →
  (∃ v, validate s r = Some v) ∧
  (validate s r = Some None ↔ valid_update (st_identity s) (st_state s) r).
Proof.
  intros Hwf Hrep Hk. set (d := st_state s) in *.
  pose proof (last_index_lt d Hwf) as (Hlast&Hbl&Hcl&Hel).
  unfold validate. rewrite Hk. fold d. rewrite add64_log_end by done.
  case_bool_decide as Hid; [split; [by eexists|split; [done|by intros []]]|].
  destruct (_ || _) eqn:Hreg.
  { split; [by eexists|]. split; [done|]. intros [].
    apply orb_true_iff in Hreg as [?|?]; tests; lia. }
  destruct (_ && _) eqn:Hvote.
  { split; [by eexists|]. split; [done|]. intros []. tests. naive_solver. }
  assert (rc_Term r = ds_term d → ds_vote d ≠ "" → rc_Vote r = ds_vote d) as Hv.
  { intros He Hne. rewrite He, N.eqb_refl in Hvote. cbn [andb] in Hvote.
    rewrite (bool_decide_eq_true_2 (ds_vote d ≠ "")) in Hvote by done.
    apply bool_decide_eq_false in Hvote. by apply dec_stable. }
  clear Hvote. tests. cbv zeta.
  pose proof (rep_rc_Entries r Hrep) as [Hfit _]. pose proof (rep_rc_Commit r Hrep).
  pose proof (rep_rc_From r Hrep) as HF64.
  destruct (N.eqb_spec (rc_From r) 0) as [HF|HF]; cbn [negb].
  - (* the log stays *)
    destruct (N.eqb_spec (lenN (rc_Entries r)) 0) as [He|He]; cbn [negb].
    + split; [by eexists|].
      destruct (N.ltb_spec (log_end d) two64);
        [|destruct (N.leb_spec 0 (rc_Commit r)); [|lia]; split; [done|]; intros []; lia].
      destruct (N.leb_spec (log_end d) (rc_Commit r)).
      * split; [done|]. intros []. naive_solver lia.
      * split; [|done]. intros _. split; try done. intros _. split; [|done].
        destruct (rc_Entries r); [done|]. rewrite lenN_cons in He. lia.
    + split; [by eexists|]. split; [done|]. intros []. destruct vu_same0 as [He' _]; [done|].
      by rewrite He' in He.
  - destruct (N.leb_spec (rc_From r) (ds_commit d)); cbn [orb].
    { split; [by eexists|]. split; [done|]. intros []. naive_solver lia. }
    destruct (N.ltb_spec (log_end d) two64) as [Hend|Hend]; cycle 1.
    { destruct (N.ltb_spec 0 (rc_From r)); [|lia].
      split; [by eexists|]. split; [done|]. intros []. lia. }
    destruct (N.ltb_spec (log_end d) (rc_From r)).
    { split; [by eexists|]. split; [done|]. intros []. naive_solver lia. }
    destruct (wf_commit d Hwf) as [Hb _].
    rewrite sub64_small by lia. rewrite entry_spec by (done || lia).
    destruct (log_at_some d Hwf (rc_From r - 1)) as [p Hp]; [lia..|]. fold d. rewrite Hp.
    cbn [mbind option_bind].
    destruct (check_entries _ _ _ _ _ _) as [err|] eqn:Hc.
    { split; [by eexists|]. split; [done|]. intros [].
      destruct (vu_from0 HF) as (_&_&_&Hfit'&Hs&Hall).
      rewrite (proj2 (check_entries_None _ _ _ _ _ _)) in Hc; [done|]. split; [|done].
      intros k e He. destruct (Hall k e He) as (Hi&?&?&?&Hpr). split_and!; auto.
      assert (N.of_nat k < lenN (rc_Entries r)) by (by apply lookup_lenN).
      rewrite N.add_0_l, add64_small by lia. done. }
    split; [by eexists|]. apply check_entries_None in Hc as [Hall Hs].
    destruct (add64_cases (rc_From r) (lenN (rc_Entries r))) as [[Hlt ->]|[Hge ->]];
      [done|unfold two63, two64 in *; lia| |].
    + destruct (N.leb_spec (rc_From r + lenN (rc_Entries r)) (rc_Commit r)).
      * split; [done|]. intros []. naive_solver lia.
      * split; [|done]. intros _. split; try done; try lia.
        intros _. split_and!; try done.
        intros k e He. destruct (Hall k e He) as (Hi&?&?&?&?). split_and!; try done.
        -- assert (N.of_nat k < lenN (rc_Entries r)) by (by apply lookup_lenN).
           rewrite N.add_0_l, add64_small in Hi by lia. done.
        -- intros p' Hp'. rewrite Hp in Hp'. by injection Hp' as <-.
    + (* the new end of the log wraps below the commit index *)
      pose proof (wf_fits d Hwf). unfold log_end in *.
      destruct (N.leb_spec (rc_From r + lenN (rc_Entries r) - two64) (rc_Commit r)).
      * split; [done|]. intros []. naive_solver lia.
      * exfalso. unfold two63, two64 in *. lia.
Qed.

Lemma updated_length d r :
  wf_state d → valid_update (rc_Identity r) d r → rc_From r ≠ 0 →
  lenN (take (N.to_nat (rc_From r - ds_base d)) (ds_log d)) = rc_From r - ds_base d ∧
  log_end (updated d r) = rc_From r + lenN (rc_Entries r).
Proof.
  intros Hwf Hv HF. destruct (vu_from _ _ _ Hv HF) as (?&Hle&_).
  destruct (wf_commit d Hwf). unfold log_end in *.
  assert (lenN (take (N.to_nat (rc_From r - ds_base d)) (ds_log d)) = rc_From r - ds_base d) as Ht.
  { unfold lenN in *. rewrite length_take. lia. }
  split; [done|]. unfold updated. simpl.
  destruct (N.eqb_spec (rc_From r) 0); [done|]. rewrite lenN_app, Ht. lia.
Qed.

Lemma log_at_updated d r i :
  wf_state d → valid_update (rc_Identity r) d r →
  log_at (updated d r) i =
    if (rc_From r =? 0) || (i <? rc_From r) then log_at d i
    else rc_Entries r !! N.to_nat (i - rc_From r).
Proof.
  intros Hwf Hv. unfold updated. destruct (N.eqb_spec (rc_From r) 0) as [HF|HF]; [done|].
  destruct (vu_from _ _ _ Hv HF) as (?&Hle&_). destruct (wf_commit d Hwf).
  destruct (updated_length d r Hwf Hv HF) as [Ht _]. simpl.
  unfold log_at at 1. simpl. destruct (N.ltb_spec i (ds_base d)).
  { destruct (N.ltb_spec i (rc_From r)); [|lia]. unfold log_at.
    by destruct (N.ltb_spec i (ds_base d)); [|lia]. }
  destruct (N.ltb_spec i (rc_From r)).
  - rewrite lookup_app_l by (unfold lenN in Ht; lia).
    rewrite lookup_take_lt by lia. by rewrite (log_at_lookup _ _ _ eq_refl) by lia.
  - rewrite lookup_app_r by (unfold lenN in Ht; lia). f_equal. unfold lenN in Ht. lia.
Qed.

Lemma accept_update {W} (s : diskStore W) r :
  wf_state (st_state s) → representable r → rc_Checkpoint r = None →
  valid_update (st_identity s) (st_state s) r →
  accept r s = if lenN (ds_log (updated (st_state s) r)) <? two63
               then Some (set_state (updated (st_state s) r) s) else None.
Proof.
  intros Hwf Hrep Hk Hv. unfold accept. rewrite Hk. unfold updated.
  destruct (N.eqb_spec (rc_From r) 0) as [HF|HF]; simpl.
  { destruct (N.ltb_spec (lenN (ds_log (st_state s))) two63); [done|].
    pose proof (wf_fits _ Hwf). lia. }
  pose proof Hv as Hv'. rewrite <-(vu_identity _ _ _ Hv) in Hv'.
  destruct (vu_from _ _ _ Hv HF) as (?&Hle&_). destruct (wf_commit _ Hwf).
  destruct (updated_length _ r Hwf Hv' HF) as [Ht _].
  pose proof (rep_rc_From _ Hrep). unfold log_end in *.
  rewrite sub64_small by lia. unfold slice_to.
  destruct (N.leb_spec (rc_From r - ds_base (st_state s)) (lenN (ds_log (st_state s)))); [|lia].
  cbn [mbind option_bind]. unfold append_slice, cloneEntries.
  rewrite takeN_take, lenN_app. by destruct (_ <? _).
Qed.

Lemma wf_updated d r :
  wf_state d → representable r → valid_update (rc_Identity r) d r →
  lenN (ds_log (updated d r)) < two63 → wf_state (updated d r).
Proof.
  intros Hwf Hrep Hv Hfit. pose proof Hv as [_ Ht _ Hc He Hsame Hfrom].
  destruct (wf_commit d Hwf) as [Hb Hce].
  pose proof (log_at_updated d r) as Hat.
  assert (∀ k e, ds_log (updated d r) !! k = Some e →
    log_at d (ds_base d + N.of_nat k) = Some e ∧
      (rc_From r = 0 ∨ ds_base d + N.of_nat k < rc_From r) ∨
    (rc_From r ≠ 0 ∧ rc_From r ≤ ds_base d + N.of_nat k ∧
     rc_Entries r !! N.to_nat (ds_base d + N.of_nat k - rc_From r) = Some e)) as Hlook.
  { intros k e Hk. change (ds_base d) with (ds_base (updated d r)).
    rewrite <-log_at_base, Hat in Hk by done. simpl in *.
    destruct (N.eqb_spec (rc_From r) 0), (N.ltb_spec (ds_base d + N.of_nat k) (rc_From r));
      simpl in Hk; [left|left|left|right]; split_and?; auto; lia. }
  assert (rc_Commit r < log_end (updated d r)) as Hend.
  { destruct (N.eq_dec (rc_From r) 0) as [HF|HF].
    - destruct (Hsame HF). unfold updated, log_end. simpl. by rewrite HF.
    - destruct (updated_length d r Hwf Hv HF) as [_ ->]. naive_solver. }
  split; try done.
  - intros Hnil. unfold log_end in Hend. rewrite Hnil in Hend. cbn [updated ds_base] in Hend.
    change (lenN []) with 0 in Hend. lia.
  - destruct (N.eq_dec (rc_From r) 0) as [HF|HF].
    + unfold updated, log_end in *. rewrite HF. simpl. lia.
    + destruct (updated_length d r Hwf Hv HF) as [_ ->]. destruct (Hfrom HF) as (_&_&_&?&_). lia.
  - intros k e Hk. simpl. destruct (Hlook k e Hk) as [[H _]|(HF&Hge&H)].
    + by apply log_at_Index in H as [? _].
    + destruct (Hfrom HF) as (_&_&_&_&_&Hall). destruct (Hall _ _ H) as [-> _]. lia.
  - intros i j ei ej Hij Hi Hj.
    destruct (Hlook i ei Hi) as [[H1 H1']|(HF&Hge&H1)], (Hlook j ej Hj) as [[H2 H2']|(HF2&Hge2&H2)].
    + eapply log_at_sorted; [done|done|done|lia].
    + destruct (Hfrom HF2) as (?&?&_&_&_&Hall). destruct (Hall _ _ H2) as (_&_&_&_&Hp).
      destruct (log_at_some d Hwf (rc_From r - 1)) as [p Hpp];
        [lia|unfold last_index, log_end in *; lia|].
      transitivity (e_Term p); [|by apply Hp].
      destruct H1' as [?|?]; [done|]. eapply log_at_sorted; [done|done|done|lia].
    + destruct H2' as [?|?]; [done|lia].
    + destruct (Hfrom HF) as (_&_&_&_&Hs&_). eapply Hs; [|done|done]. lia.
  - intros i e Hi. destruct (Hlook (S i) e Hi) as [[H _]|(HF&Hge&H)].
    + apply log_at_entry in H as (?&?&?); [|done|lia]. split_and!; try done. simpl. lia.
    + destruct (Hfrom HF) as (_&_&_&_&_&Hall). destruct (Hall _ _ H) as (_&?&?&?&_). done.
  - split; [|done]. simpl. lia.
  - apply Forall_lookup. intros k e Hk. destruct (Hlook k e Hk) as [[H _]|(HF&Hge&H)].
    + by apply log_at_Index in H as [_ ?].
    + eapply Forall_lookup_1; [apply (rep_rc_Entries r Hrep)|done].
  - apply Hrep.
  - apply Hrep.
Qed.

Lemma extends_updated d r :
  wf_state d → valid_update (rc_Identity r) d r → extends d (updated d r).
Proof.
  intros Hwf Hv. pose proof Hv as [_ Ht Hvote Hc He Hsame Hfrom]. split; simpl; auto; try lia.
  intros i Hi1 Hi2. rewrite log_at_updated by done.
  destruct (N.eqb_spec (rc_From r) 0) as [HF|HF]; [done|]. destruct (Hfrom HF).
  by destruct (N.ltb_spec i (rc_From r)); [|lia].
Qed.

Definition checkpointed (c : checkpoint) : durableState :=
  mkState (k_RaftTerm c) (k_Vote c) (k_Commit c) (k_Index c) (k_Log c).

Lemma tail_lookup {A} (l : list A) k : tail l !! k = l !! S k.
Proof. by destruct l; [rewrite !lookup_nil|]. Qed.

(** A checkpoint that [validate] accepts holds a well-formed state. *)
Lemma validate_checkpoint_wf {W} (s : diskStore W) r c :
  rep_checkpoint c → validate_checkpoint s r c = None →
  wf_state (checkpointed c) ∧ (Restore New (k_Machine c)).2 = None.
Proof.
  intros Hrep. unfold validate_checkpoint.
  match goal with |- context [if ?b then _ else _] => destruct b end; [done|].
  match goal with |- context [if ?b then _ else _] => destruct b eqn:Hst end; [done|].
  destruct (Restore New (k_Machine c)).2 as [|] eqn:Hm; [done|].
  destruct (check_entries _ _ _ _ _ _) as [|] eqn:Hc; [done|].
  destruct (add64 _ _ <? _) eqn:Hcl; [done|]. intros _. split; [|done]. tests.
  destruct (k_Log c) as [|e0 l] eqn:Hlog; [done|]. tests.
  apply check_entries_None in Hc as [Hall Hs]. cbn [tail] in Hall, Hs.
  pose proof (rep_k_Log c Hrep) as [Hfit Hrl]. pose proof (rep_k_Index c Hrep).
  pose proof (rep_k_RaftTerm c Hrep). pose proof (rep_k_Vote c Hrep). rewrite Hlog in *.
  rewrite lenN_cons in *.
  rewrite (sub64_small _ 1), N.add_sub in Hcl by (unfold two63, two64 in *; lia).
  assert (k_Index c + lenN l < two64 ∧ k_Commit c ≤ k_Index c + lenN l) as [Hend Hcl'].
  { destruct (add64_cases (k_Index c) (lenN l)) as [[? Ha]|[? Ha]];
      rewrite ?Ha in *; unfold two63, two64 in *; lia. }
  assert (∀ k e, l !! k = Some e → e_Index e = k_Index c + N.of_nat (S k)) as Hidx.
  { intros k e Hk. destruct (Hall k e Hk) as [-> _].
    assert (N.of_nat k < lenN l) by (by apply lookup_lenN).
    rewrite (add64_small _ 1) by lia. rewrite add64_small by lia. lia. }
  split; simpl; rewrite ?Hlog; try done.
  - by rewrite lenN_cons.
  - unfold log_end. simpl. rewrite Hlog, lenN_cons. lia.
  - intros [|k] e He; simpl in He; [injection He as <-; lia|by apply Hidx].
  - intros [|i] [|j] ei ej Hij Hi Hj; simpl in *; simplify_eq; try lia.
    + destruct (Hall j ej Hj) as (_&_&_&?&_). lia.
    + apply (Hs i j); [lia|done..].
  - intros i e Hi. destruct (Hall i e Hi) as (_&?&?&_&?). done.
  - unfold log_end. simpl. rewrite Hlog, lenN_cons. lia.
Qed.

Lemma validate_accept_wf {W} (s s' : diskStore W) r :
  wf_store s → representable r → validate s r = Some None → accept r s = Some s' →
  wf_store s' ∧ st_identity s' = st_identity s ∧ st_wal s' = st_wal s.
Proof.
  intros [Hwf Hid Hm Hrm] Hrep Hv Ha.
  destruct (rc_Checkpoint r) as [c|] eqn:Hk.
  - unfold validate, accept in *. rewrite Hk in *. injection Hv as Hv. injection Ha as <-.
    pose proof (rep_rc_Checkpoint r Hrep c Hk) as Hrc.
    destruct (validate_checkpoint_wf s r c Hrc Hv). split_and!; try done.
    split; simpl; try done. by apply Hrc.
  - apply validate_update in Hv; [|done..]. rewrite accept_update in Ha by done.
    destruct (N.ltb_spec (lenN (ds_log (updated (st_state s) r))) two63); [|done].
    injection Ha as <-. split_and!; try done. split; simpl; try done.
    apply wf_updated; try done. by rewrite (vu_identity _ _ _ Hv).
Qed.

Lemma text_empty : text "".
Proof. done. Qed.

Lemma wf_emptyStore identity : text identity → wf_store (emptyStore identity).
Proof.
  intros Hid. split; simpl; try done.
  split; simpl; try done.
  - intros [|i] e He; [by injection He as <-|done].
  - intros [|i] [|j] ei ej _ Hi Hj; simplify_eq/=; done.
  - apply Forall_singleton. by split.
Qed.

(** Whatever a journal holds, replaying it ends in a well-formed store or in an
    error; it cannot panic. *)
Lemma replay_records_wf `{!Codec record, !CodecLaws} bs s s' :
  wf_store s → replay_records bs s = Some s' → wf_store s' ∧ st_identity s' = st_identity s.
Proof.
  revert s. induction bs as [|b bs IH]; intros s Hwf Hr; cbn [replay_records] in Hr.
  { by injection Hr as <-. }
  destruct (unmarshal b) as [|r] eqn:Hu; [done|].
  destruct (validate s r) as [[]|] eqn:Hv; [done| |done].
  destruct (accept r s) as [s1|] eqn:Ha; [|done]. cbn [mbind option_bind] in Hr.
  destruct (validate_accept_wf s s1 r Hwf (codec_decodes _ _ Hu) Hv Ha) as (Hwf1&Hid&_).
  destruct (IH s1 Hwf1 Hr) as [? ->]. done.
Qed.

(** ** The operations *)

(** The state after compaction up to [index]. *)
Definition compacted (d : durableState) (index : N) : durableState :=
  mkState (ds_term d) (ds_vote d) (ds_commit d) index
    (drop (N.to_nat (index - ds_base d)) (ds_log d)).

Lemma log_at_compacted d index i :
  ds_base d ≤ index → log_at (compacted d index) i = if i <? index then None else log_at d i.
Proof.
  intros Hb. unfold log_at, compacted. simpl. destruct (N.ltb_spec i index); [done|].
  destruct (N.ltb_spec i (ds_base d)); [lia|]. rewrite lookup_drop. f_equal. lia.
Qed.

Lemma log_end_compacted d index :
  ds_base d ≤ index → index ≤ log_end d → log_end (compacted d index) = log_end d.
Proof.
  unfold log_end, compacted, lenN. simpl. rewrite length_drop. lia.
Qed.

Lemma extends_compacted d index :
  ds_base d ≤ index → extends d (compacted d index).
Proof.
  intros Hb. split; simpl; try lia; auto.
  intros i Hi _. rewrite log_at_compacted by done. by destruct (N.ltb_spec i index); [lia|].
Qed.

Lemma last_index_compacted d index :
  wf_state d → ds_base d ≤ index → index ≤ ds_commit d →
  last_index (compacted d index) = last_index d.
Proof.
  intros Hwf Hb Hc. destruct (wf_commit d Hwf). unfold last_index.
  pose proof (log_end_compacted d index Hb) as He. unfold log_end in *. rewrite He by lia. done.
Qed.

(** Later updates cannot tell a compacted state from the whole one. *)
Lemma valid_update_compacted identity d index r :
  wf_state d → ds_base d ≤ index → index ≤ ds_commit d →
  valid_update identity (compacted d index) r ↔ valid_update identity d r.
Proof.
  intros Hwf Hb Hc. destruct (wf_commit d Hwf) as [_ Hce].
  pose proof (log_end_compacted d index Hb ltac:(lia)) as He.
  assert (∀ i, index ≤ i → log_at (compacted d index) i = log_at d i) as Hat.
  { intros i Hi. rewrite log_at_compacted by done. by destruct (N.ltb_spec i index); [lia|]. }
  split; intros [Hid Ht Hv Hcm Hend Hsame Hfrom]; split; rewrite ?He in *; try done;
    intros HF; destruct (Hfrom HF) as (H1&H2&H3&H4&H5&H6); split_and!; try done;
    intros k e Hk; destruct (H6 k e Hk) as (?&?&?&?&Hp); split_and!; try done;
    intros p Hpp; apply Hp; cbn in *; rewrite ?Hat in * by lia; done.
Qed.

Lemma updated_compacted d index r :
  wf_state d → ds_base d ≤ index → index ≤ ds_commit d → valid_update (rc_Identity r) d r →
  updated (compacted d index) r = compacted (updated d r) index.
Proof.
  intros Hwf Hb Hc Hv. unfold updated, compacted. cbn. f_equal.
  destruct (N.eqb_spec (rc_From r) 0) as [|HF]; [done|].
  destruct (vu_from _ _ _ Hv HF) as (?&?&_). unfold log_end, lenN in *.
  rewrite drop_app_le by (rewrite length_take; lia). f_equal.
  rewrite take_drop_commute. do 2 f_equal. lia.
Qed.

Definition save_record {W} (s : diskStore W) term vote commit from entries : record :=
  mkRecord (st_identity s) term vote commit from entries None.

Lemma validate_checkpoint_machine {W} (s : diskStore W) r c :
  validate_checkpoint s r c = None → (Restore New (k_Machine c)).2 = None.
Proof.
  unfold validate_checkpoint.
  do 2 (match goal with |- context [if ?b then _ else _] => destruct b end; [done|]).
  by destruct (Restore New (k_Machine c)).2.
Qed.

(** The record [checkpoint] writes. *)
Definition checkpoint_of (d : durableState) (machine : Snapshot) (index : N) : checkpoint :=
  mkCheckpoint index (default 0 (e_Term <$> log_at d index)) machine (ds_term d) (ds_vote d)
    (ds_commit d) (ds_log (compacted d index)).
Definition checkpoint_record {W} (s : diskStore W) (machine : Snapshot) (index : N) : record :=
  mkRecord (st_identity s) 0 "" 0 0 [] (Some (checkpoint_of (st_state s) machine index)).

(** A checkpoint of a well-formed state is always accepted. *)
Lemma validate_own_checkpoint {W} (s : diskStore W) machine index e :
  wf_state (st_state s) → (Restore New machine).2 = None →
  ds_base (st_state s) < index → index ≤ ds_commit (st_state s) →
  log_at (st_state s) index = Some e →
  let d := st_state s in
  let c := mkCheckpoint index (e_Term e) machine (ds_term d) (ds_vote d) (ds_commit d)
             (ds_log (compacted d index)) in
  validate_checkpoint s (mkRecord (st_identity s) 0 "" 0 0 [] (Some c)) c = None.
Proof.
  intros Hwf Hm Hb Hc He d c. fold d in Hwf, Hb, Hc, He.
  destruct (last_index_lt d Hwf) as (Hl&_&Hcl&Hend). destruct (wf_commit d Hwf) as [_ Hce].
  assert (∀ k, ds_log (compacted d index) !! k = log_at d (index + N.of_nat k)) as Hlook.
  { intros k. rewrite (log_at_lookup d _ _ eq_refl) by lia. simpl. rewrite lookup_drop. f_equal. lia. }
  unfold validate_checkpoint. cbn [rc_Identity rc_Term rc_Vote rc_Commit rc_From rc_Entries].
  rewrite bool_decide_eq_false_2 by (intros Hn; by apply Hn).
  rewrite bool_decide_eq_false_2 by (intros Hn; by apply Hn).
  cbn [N.eqb lenN length N.of_nat orb negb]. fold d.
  unfold c. cbn [k_Index k_Term k_Machine k_RaftTerm k_Vote k_Commit k_Log].
  rewrite !(proj2 (N.ltb_ge _ _)) by lia. cbn [orb].
  pose proof (Hlook 0%nat) as H0. rewrite N.add_0_r, He in H0.
  pose proof (log_end_compacted d index ltac:(lia) ltac:(lia)) as Hle.
  unfold log_end in Hle at 1. cbn [ds_base compacted] in Hle. fold (compacted d index) in Hle.
  pose proof (wf_fits d Hwf) as Hfit. unfold log_end in Hend.
  destruct (ds_log (compacted d index)) as [|e0 l] eqn:Hlog; [done|].
  injection H0 as ->. destruct (log_at_Index d Hwf _ _ He) as [Hie _].
  rewrite Hie, !N.eqb_refl. cbn [negb orb]. rewrite Hm. cbn [tail].
  rewrite lenN_cons in Hle. unfold log_end in Hle.
  rewrite (proj2 (check_entries_None _ _ _ _ _ _)).
  - rewrite lenN_cons, (sub64_small _ 1), N.add_sub by (unfold two63, two64 in *; lia).
    rewrite add64_small by lia. destruct (N.ltb_spec (index + lenN l) (ds_commit d)); [lia|done].
  - assert (∀ k e', l !! k = Some e' → log_at d (index + 1 + N.of_nat k) = Some e') as Hl'.
    { intros k e' Hk. rewrite <-Hk. specialize (Hlook (S k)). simpl in Hlook. rewrite Hlook.
      f_equal. lia. }
    split.
    + intros k e' Hk. pose proof (Hl' k e' Hk) as Ha.
      destruct (log_at_entry d Hwf _ _ Ha) as (?&?&?); [lia|].
      destruct (log_at_Index d Hwf _ _ Ha) as [-> _].
      assert (N.of_nat k < lenN l) by (by apply lookup_lenN).
      rewrite (add64_small index 1), add64_small by lia.
      split_and!; try done.
      eapply log_at_sorted; [done|exact He|exact Ha|lia].
    + intros i j ei ej Hij Hi Hj. eapply log_at_sorted; [done|by apply Hl'|by apply Hl'|lia].
Qed.

#[local] Arguments validate : simpl never.
#[local] Arguments accept : simpl never.
#[local] Arguments validate_checkpoint : simpl never.

Section durable.
Context {J : Type} `{HJ : Journal J, HJL : !JournalLaws J, HC : Codec record, HCL : !CodecLaws}.

(** [save], on every branch.  The state changes only if the journal has
    acknowledged the record. *)
Lemma save_spec (s : diskStore J) term vote commit from entries :
  let r := save_record s term vote commit from entries in
  wf_state (st_state s) → representable r →
  match save term vote commit from entries s with
  | None => valid_update (st_identity s) (st_state s) r ∧
            two63 ≤ lenN (ds_log (updated (st_state s) r))
  | Some (None, s') =>
    valid_update (st_identity s) (st_state s) r ∧
    lenN (ds_log (updated (st_state s) r)) < two63 ∧
    ∃ b w, marshal r = inr b ∧ unmarshal b = inr r ∧
      j_append b (st_wal s) = (None, w) ∧
      s' = set_wal w (set_state (updated (st_state s) r) s)
  | Some (Some e, s') =>
    (¬ valid_update (st_identity s) (st_state s) r ∧ s' = s) ∨
    (valid_update (st_identity s) (st_state s) r ∧
     ∃ b e' w, marshal r = inr b ∧ unmarshal b = inr r ∧
       j_append b (st_wal s) = (Some e', w) ∧ s' = set_wal w s ∧
       e = ErrWrap "persist raft state: " e')
  end.
Proof.
  intros r Hwf Hrep.
  destruct (validate_update s r Hwf Hrep eq_refl) as [[v Hv] Hiff].
  unfold save. cbv zeta beta delta [mbind M_bind get lift]. cbn.
  change (mkRecord _ _ _ _ _ _ _) with r. rewrite Hv.
  destruct v as [err|]; cbn.
  { left. split; [|done]. intros Hu. apply Hiff in Hu. congruence. }
  assert (valid_update (st_identity s) (st_state s) r) as Hu by (by apply Hiff).
  destruct (codec_roundtrip r Hrep) as (b&Hb&Hub). rewrite Hb.
  unfold wal_Append, zoom. destruct (j_append b (st_wal s)) as [[e'|] w] eqn:Hj; cbn.
  { right. split; [done|]. exists b, e', w. done. }
  unfold acceptM.
  rewrite (accept_update (set_wal w s) r) by done. cbn [st_state set_wal].
  destruct (N.ltb_spec (lenN (ds_log (updated (st_state s) r))) two63); cbn.
  - split_and!; [done..|]. exists b, w. by destruct s.
  - done.
Qed.

(** The only errors of [checkpoint] besides the journal's: an index outside
    the committed prefix, an ill-formed machine, a journal that cannot replace. *)
Lemma store_checkpoint_spec (s : diskStore J) machine index :
  let r := checkpoint_record s machine index in
  wf_store s → rep_snapshot machine → index < two64 →
  match store_checkpoint machine index s with
  | None => False
  | Some (None, s') =>
    ds_base (st_state s) < index ∧ index ≤ ds_commit (st_state s) ∧
    (Restore New machine).2 = None ∧
    ∃ b f w, marshal r = inr b ∧ unmarshal b = inr r ∧ representable r ∧
      validate s r = Some None ∧ j_replace = Some f ∧ f [b] (st_wal s) = (None, w) ∧
      s' = mkStore w (st_identity s) (compacted (st_state s) index) machine
  | Some (Some e, s') =>
    s' = s ∧ (index ≤ ds_base (st_state s) ∨ ds_commit (st_state s) < index ∨
              (Restore New machine).2 ≠ None ∨ j_replace (J := J) = None) ∨
    ∃ b f e' w, marshal r = inr b ∧ unmarshal b = inr r ∧ representable r ∧
      validate s r = Some None ∧ j_replace = Some f ∧ f [b] (st_wal s) = (Some e', w) ∧ s' = set_wal w s ∧
      e = ErrWrap "persist checkpoint: " e' ∧
      ds_base (st_state s) < index ∧ index ≤ ds_commit (st_state s)
  end.
Proof.
  intros r [Hwf Hid Hsm Hsr] Hrm Hi64. set (d := st_state s) in *.
  destruct (last_index_lt d Hwf) as (Hl&_&Hcl&Hend).
  unfold store_checkpoint. cbv zeta beta delta [mbind M_bind get]. cbn.
  rewrite last_spec by done. fold d.
  destruct (N.leb_spec index (ds_base d)); [left; auto|].
  destruct (N.ltb_spec (ds_commit d) index); [left; auto|].
  destruct (N.ltb_spec (last_index d) index); [lia|]. cbn [orb].
  rewrite sub64_small by lia. rewrite slice_get_lookup.
  destruct (log_at_some d Hwf index) as [e He]; [lia..|].
  rewrite <-(log_at_lookup d index _ eq_refl) by lia. rewrite He. cbn.
  unfold slice_from. destruct (N.leb_spec (index - ds_base d) (lenN (ds_log d)));
    [|unfold log_end in *; lia]. cbn. rewrite dropN_drop. unfold cloneEntries.
  change (drop (N.to_nat (index - ds_base d)) (ds_log d)) with (ds_log (compacted d index)).
  set (c := mkCheckpoint _ _ _ _ _ _ _).
  assert (mkRecord (st_identity s) 0 "" 0 0 [] (Some c) = r) as ->.
  { unfold r, checkpoint_record, checkpoint_of. fold d. by rewrite He. }
  assert (rc_Checkpoint r = Some c) as Hrc.
  { unfold r, checkpoint_record, checkpoint_of. fold d. by rewrite He. }
  destruct (Restore New machine).2 as [err|] eqn:Hm.
  { assert (∃ err, validate_checkpoint s r c = Some err) as [err' Herr].
    { destruct (validate_checkpoint s r c) eqn:Hv; [by eexists|].
      pose proof (validate_checkpoint_machine s r c Hv) as Hx.
      change (k_Machine c) with machine in Hx. congruence. }
    unfold lift, validate. rewrite Hrc. cbn. rewrite Herr. cbn. left. split; [done|]. right; right; left. done. }
  pose proof (validate_own_checkpoint s machine index e Hwf Hm ltac:(fold d; lia) ltac:(done) He) as Hv.
  fold d in Hv. cbv zeta in Hv. fold c in Hv.
  assert (mkRecord (st_identity s) 0 "" 0 0 [] (Some c) = r) as Hcr.
  { unfold r, checkpoint_record, checkpoint_of. fold d. by rewrite He. }
  rewrite Hcr in Hv.
  assert (validate s r = Some None) as Hv' by (unfold validate; rewrite Hrc; by rewrite Hv).
  unfold lift. rewrite Hv'. cbn.
  assert (representable r) as Hrep.
  { split; simpl; try done.
    change (rc_Checkpoint r) with (Some (checkpoint_of d machine index)).
    intros c' [= <-]. destruct (wf_commit d Hwf). pose proof (wf_end d Hwf).
    split; simpl; try done; try lia; try apply Hwf.
    - fold d. rewrite He. destruct (log_at_Index d Hwf _ _ He) as [_ []]. done.
    - fold d. lia.
    - split; [|apply Forall_drop, Hwf]. fold d. unfold lenN. rewrite length_drop.
        pose proof (wf_fits d Hwf). unfold lenN in *. lia. }
  destruct (codec_roundtrip r Hrep) as (b&Hb&Hub). rewrite Hb.
  destruct j_replace as [f|] eqn:Hf; [|cbn; left; auto].
  unfold zoom. destruct (f [b] (st_wal s)) as [[e'|] w] eqn:Hfb; cbn.
  - right. exists b, f, e', w. split_and!; done.
  - split_and!; try done. exists b, f, w. split_and!; done.
Qed.

Lemma replay_records_app bs1 bs2 s :
  replay_records (bs1 ++ bs2) s = replay_records bs1 s ≫= replay_records bs2.
Proof using HC.
  revert s. induction bs1 as [|b bs1 IH]; intros s; [done|]. cbn [replay_records app].
  destruct (unmarshal b) as [|r]; [done|]. destruct (validate s r) as [[]|]; try done.
  destruct (accept r s); [|done]. cbn [mbind option_bind]. apply IH.
Qed.

Lemma content_append w w' (s s1 : diskStore unit) b r err :
  content w s → unmarshal b = inr r → validate s r = Some None → accept r s = Some s1 →
  st_identity s1 = st_identity s → j_append b w = (err, w') →
  match err with
  | None => content w' s1
  | Some _ => content w' s ∨ content w' s1
  end.
Proof.
  intros (bs&Hne&Hh&Hr) Hu Hv Ha Hid Hj.
  pose proof (j_append_law b w bs Hh) as H. rewrite Hj in H.
  assert (replay_records (bs ++ [b]) (emptyStore (st_identity s1)) = Some s1) as Hr1.
  { rewrite replay_records_app, Hid, Hr. cbn. by rewrite Hu, Hv, Ha. }
  assert (bs ++ [b] ≠ []) by (by destruct bs).
  destruct err as [e|]; [destruct H as [H|H]; [left|right]|].
  - by exists bs.
  - by exists (bs ++ [b]).
  - by exists (bs ++ [b]).
Qed.

Lemma content_replace w w' (s s1 : diskStore unit) b r c f err :
  content w s → unmarshal b = inr r → rc_Checkpoint r = Some c → validate s r = Some None →
  accept r s = Some s1 → j_replace = Some f → f [b] w = (err, w') →
  match err with
  | None => content w' s1
  | Some _ => content w' s ∨ content w' s1
  end.
Proof.
  intros (bs&Hne&Hh&Hr) Hu Hc Hv Ha Hf Hj.
  pose proof (j_replace_law f [b] w bs Hf Hh) as H. rewrite Hj in H.
  assert (st_identity s1 = st_identity s) as Hid.
  { unfold accept in Ha. rewrite Hc in Ha. by injection Ha as <-. }
  assert (replay_records [b] (emptyStore (st_identity s1)) = Some s1) as Hr1.
  { cbn [replay_records]. rewrite Hu.
    assert (validate (emptyStore (st_identity s1)) r = Some None) as ->.
    { unfold validate in *. rewrite Hc in *. rewrite Hid. revert Hv. clear.
      unfold validate_checkpoint. cbn [st_identity st_state emptyStore].
      match goal with |- context [if ?b then _ else _] => destruct b end; [done|].
      match goal with |- context [if ?b then _ else _] => destruct b eqn:Hb end; [done|].
      cbn [ds_base ds_term ds_commit]. tests.
      rewrite (proj2 (N.ltb_ge (k_Index c) 0)), (proj2 (N.ltb_ge (k_Commit c) (k_Index c))),
        (proj2 (N.ltb_ge (k_RaftTerm c) 0)), (proj2 (N.ltb_ge (k_Commit c) 0)) by lia.
      cbn [orb].
      match goal with Hx : _ = false |- _ => by rewrite Hx end. }
    unfold accept in *. rewrite Hc in *. injection Ha as <-. by destruct s as [[] ? ? ?]. }
  destruct err as [e|]; [destruct H as [H|H]; [left|right]|].
  - by exists bs.
  - by exists [b].
  - by exists [b].
Qed.

Lemma replay_all_records bs s s' seen :
  replay_records bs s = Some s' →
  replay_all replay_record bs (Some (s, seen)) =
    (Some (s', seen || negb (bool_decide (bs = []))), None).
Proof using HC.
  revert s seen. induction bs as [|b bs IH]; intros s seen Hr; cbn [replay_records] in Hr.
  { injection Hr as <-. cbn. by rewrite orb_false_r. }
  cbn [replay_all]. unfold replay_record at 1.
  destruct (unmarshal b) as [|r]; [done|].
  destruct (validate s r) as [[]|]; [done| |done]. destruct (accept r s) as [s1|]; [|done].
  cbn [mbind option_bind] in Hr. rewrite (IH s1 true Hr). by rewrite orb_true_r.
Qed.

Lemma replay_all_app {R} (replay : bytes → R → R * option error) bs1 bs2 r r' :
  replay_all replay bs1 r = (r', None) → replay_all replay (bs1 ++ bs2) r = replay_all replay bs2 r'.
Proof using Type.
  revert r. induction bs1 as [|b bs1 IH]; intros r Hr; cbn [replay_all app] in *.
  { by injection Hr as ->. }
  destruct (replay b r) as [r1 [e|]]; [done|]. by apply IH.
Qed.

(** A failed append of a record too large to be read back. *)
Lemma append_overflow w w' (s : diskStore unit) b r err :
  content w s → unmarshal b = inr r → validate s r = Some None → accept r s = None →
  j_append b w = (Some err, w') → content w' s ∨ overflowing w' (st_identity s).
Proof.
  intros (bs&Hne&Hh&Hr) Hu Hv Ha Hj.
  pose proof (j_append_law b w bs Hh) as H. rewrite Hj in H. destruct H as [H|H]; [left; by exists bs|right].
  exists (bs ++ [b]). split; [done|].
  rewrite (replay_all_app replay_record bs [b] _ _ (replay_all_records bs _ s false Hr)).
  cbn [replay_all]. unfold replay_record. by rewrite Hu, Hv, Ha.
Qed.

Lemma overflowing_open w identity : overflowing w identity → openStoreUsing identity w = None.
Proof.
  intros (bs&Hh&Hr).
  pose proof (j_open_law _ replay_record (Some (emptyStore identity, false)) w bs Hh) as H.
  unfold openStoreUsing. destruct (replay_all _ _ _) as [x [e|]]; cbn in Hr; subst x.
  - destruct H as [e' ->]. done.
  - destruct H as (w'&->&_). done.
Qed.

Lemma overflowing_holds w w' identity :
  (∀ bs, j_holds w bs → j_holds w' bs) → overflowing w identity → overflowing w' identity.
Proof using Type. intros Hk (bs&Hh&Hr). exists bs. auto. Qed.

Lemma content_holds w w' s :
  (∀ bs, j_holds w bs → j_holds w' bs) → content w s → content w' s.
Proof using Type. intros Hk (bs&Hne&Hh&Hr). exists bs. auto. Qed.

(** Opening a journal that holds a store yields that store. *)
Lemma openStoreUsing_content w s :
  content w s →
  ∃ w', openStoreUsing (st_identity s) w = Some (inr (set_wal w' s)) ∧ content w' s.
Proof.
  intros (bs&Hne&Hh&Hr).
  pose proof (j_open_law _ replay_record (Some (emptyStore (st_identity s), false)) w bs Hh) as H.
  rewrite (replay_all_records bs _ s false Hr) in H.
  destruct H as (w'&Hopen&Hh'). exists w'. split; [|by exists bs].
  unfold openStoreUsing. rewrite Hopen. cbn.
  by rewrite bool_decide_eq_false_2.
Qed.

Lemma replay_all_inv bs s seen s' seen' :
  replay_all replay_record bs (Some (s, seen)) = (Some (s', seen'), None) →
  replay_records bs s = Some s' ∧ seen' = seen || negb (bool_decide (bs = [])).
Proof using HC.
  revert s seen. induction bs as [|b bs IH]; intros s seen Hr; cbn [replay_all] in Hr.
  { injection Hr as <- <-. cbn. by rewrite orb_false_r. }
  unfold replay_record in Hr at 1. cbn [replay_records].
  destruct (unmarshal b) as [|r]; [done|].
  destruct (validate s r) as [[]|]; [done| |done]. destruct (accept r s) as [s1|]; [|done].
  apply IH in Hr as [Hr ->]. cbn [mbind option_bind]. by rewrite orb_true_r.
Qed.

Lemma rep_save_record {W} (s : diskStore W) term vote commit from entries :
  text (st_identity s) → term < two64 → text vote → commit < two64 → from < two64 →
  rep_entries entries → representable (save_record s term vote commit from entries).
Proof. by split. Qed.

Lemma rep_entries_nil : rep_entries [].
Proof. by split; [|apply Forall_nil]. Qed.

Lemma wf_save (s s' : diskStore J) term vote commit from entries err :
  wf_store s → representable (save_record s term vote commit from entries) →
  save term vote commit from entries s = Some (err, s') →
  wf_store s' ∧ st_identity s' = st_identity s ∧ st_snapshot s' = st_snapshot s ∧
  extends (st_state s) (st_state s') ∧
  match err with
  | None => st_state s' = updated (st_state s) (save_record s term vote commit from entries)
  | Some _ => st_state s' = st_state s
  end.
Proof.
  intros Hwf Hrep Hs. destruct Hwf as [Hwf Hid Hm Hsr].
  pose proof (save_spec s term vote commit from entries Hwf Hrep) as H. rewrite Hs in H.
  destruct err as [e|].
  - assert (∃ w, s' = set_wal w s) as [w ->].
    { destruct H as [[_ ->]|(_&b&e'&w&_&_&_&->&_)]; [|by exists w].
      exists (st_wal s). by destruct s. }
    by split_and!.
  - destruct H as (Hv&Hfit&b&w&_&_&_&->). split_and!; try done.
    + split; try done. by apply wf_updated.
    + by apply extends_updated.
Qed.

(** ** Runs of a store *)

Inductive store_op :=
  | Save (term : N) (vote : string) (commit from : N) (entries : list Entry)
  | Checkpoint (machine : Snapshot) (index : N).

Definition run_op (op : store_op) : M (diskStore J) (option error) :=
  match op with
  | Save term vote commit from entries => save term vote commit from entries
  | Checkpoint machine index => store_checkpoint machine index
  end.

Definition typed_op (op : store_op) : Prop :=
  match op with
  | Save term vote commit from entries =>
    term < two64 ∧ text vote ∧ commit < two64 ∧ from < two64 ∧ rep_entries entries
  | Checkpoint machine index => rep_snapshot machine ∧ index < two64
  end.

(** Successful operations, and the environment changing its mind about which
    I/O will fail. *)
Inductive store_step : diskStore J → diskStore J → Prop :=
  | step_op op s s' : typed_op op → run_op op s = Some (None, s') → store_step s s'
  | step_faults s w : j_faults (st_wal s) w → store_step s (set_wal w s).

(** What an operation would make of the store. *)
Definition op_result (op : store_op) (s : diskStore J) : diskStore unit :=
  match op with
  | Save term vote commit from entries =>
    set_state (updated (st_state s) (save_record s term vote commit from entries)) (without_wal s)
  | Checkpoint machine index =>
    mkStore tt (st_identity s) (compacted (st_state s) index) machine
  end.

(** No slice has 2^63 elements. *)
Definition op_fits (op : store_op) (s : diskStore J) : Prop :=
  lenN (ds_log (st_state (op_result op s))) < two63.

(** An operation leaves memory and journal in agreement, or fails and leaves
    the journal with either of two stores. *)
Lemma save_content term vote commit from entries (s s' : diskStore J) err :
  let op := Save term vote commit from entries in
  wf_store s → content (st_wal s) (without_wal s) →
  representable (save_record s term vote commit from entries) →
  op_fits op s → run_op op s = Some (err, s') →
  match err with
  | None => without_wal s' = op_result op s ∧ content (st_wal s') (op_result op s)
  | Some _ => without_wal s' = without_wal s ∧
      (content (st_wal s') (without_wal s) ∨
       extends (st_state s) (st_state (op_result op s)) ∧ content (st_wal s') (op_result op s))
  end.
Proof.
  intros op [Hwf Hid Hm Hsr] Hc Hrep Hfit Hrun. cbn [run_op op] in Hrun.
  pose proof (save_spec s term vote commit from entries Hwf Hrep) as Hspec. rewrite Hrun in Hspec.
  set (r := save_record s term vote commit from entries) in *.
  assert (valid_update (st_identity s) (st_state s) r →
    validate (without_wal s) r = Some None ∧ accept r (without_wal s) = Some (op_result op s)) as Hval.
  { intros Hv. split; [by apply (validate_update (without_wal s) r Hwf Hrep eq_refl)|].
    rewrite accept_update by done. cbn [st_state without_wal set_wal].
    pose proof (Hfit : lenN (ds_log (updated (st_state s) r)) < two63) as Hfit'.
    by rewrite (proj2 (N.ltb_lt _ _) Hfit'). }
  destruct err as [e|].
  - destruct Hspec as [[_ ->]|(Hv&b&e'&w&_&Hu&Hj&->&_)]; [by auto|]. split; [done|].
    destruct (Hval Hv) as [Hv' Ha].
    destruct (content_append _ w _ _ _ r (Some e') Hc Hu Hv' Ha eq_refl Hj); [by left|right].
    split; [|done]. by apply extends_updated.
  - destruct Hspec as (Hv&_&b&w&_&Hu&Hj&->). destruct (Hval Hv) as [Hv' Ha]. split; [done|].
    apply (content_append _ w _ _ _ r None Hc Hu Hv' Ha eq_refl Hj).
Qed.

Lemma checkpoint_content machine index (s s' : diskStore J) err :
  let op := Checkpoint machine index in
  wf_store s → content (st_wal s) (without_wal s) → rep_snapshot machine → index < two64 →
  run_op op s = Some (err, s') →
  match err with
  | None => without_wal s' = op_result op s ∧ content (st_wal s') (op_result op s)
  | Some _ => without_wal s' = without_wal s ∧
      (content (st_wal s') (without_wal s) ∨
       extends (st_state s) (st_state (op_result op s)) ∧ content (st_wal s') (op_result op s))
  end.
Proof.
  intros op Hwf Hc Hsr Hi Hrun. cbn [run_op op] in Hrun.
  pose proof (store_checkpoint_spec s machine index Hwf Hsr Hi) as Hspec. rewrite Hrun in Hspec.
  set (r := checkpoint_record s machine index) in *.
  assert (∀ b f w err, unmarshal b = inr r → validate s r = Some None →
    j_replace = Some f → f [b] (st_wal s) = (err, w) →
    match err with
    | None => content w (op_result op s)
    | Some _ => content w (without_wal s) ∨
        extends (st_state s) (st_state (op_result op s)) ∧ content w (op_result op s)
    end) as Hrep.
  { intros b f w err' Hu Hv Hf Hfb.
    assert (ds_base (st_state s) ≤ index) as Hb.
    { unfold validate, validate_checkpoint in Hv. cbn in Hv.
      do 2 (match type of Hv with context [if ?b then _ else _] => destruct b eqn:? end; [done|]).
      tests. lia. }
    assert (accept r (without_wal s) = Some (op_result op s)) as Ha by done.
    pose proof (content_replace _ w _ _ _ r _ f err' Hc Hu eq_refl Hv Ha Hf Hfb) as H'.
    destruct err' as [e|]; [|done]. destruct H' as [?|?]; [by left|right; split; [|done]].
    by apply extends_compacted. }
  destruct err as [e|].
  - destruct Hspec as [[-> _]|(b&f&e'&w&_&Hu&_&Hv&Hf&Hfb&->&_)]; [by auto|].
    split; [done|]. by apply (Hrep b f w (Some e')).
  - destruct Hspec as (_&_&_&b&f&w&_&Hu&_&Hv&Hf&Hfb&->).
    split; [done|]. by apply (Hrep b f w None).
Qed.

Lemma wf_checkpoint machine index (s s' : diskStore J) err :
  wf_store s → rep_snapshot machine → index < two64 →
  store_checkpoint machine index s = Some (err, s') →
  wf_store s' ∧ st_identity s' = st_identity s ∧ extends (st_state s) (st_state s') ∧
  match err with
  | None => ds_base (st_state s) < index ∧ index ≤ ds_commit (st_state s) ∧
      st_state s' = compacted (st_state s) index ∧ st_snapshot s' = machine
  | Some _ => without_wal s' = without_wal s
  end.
Proof.
  intros Hwf Hsr Hi Hrun.
  pose proof (store_checkpoint_spec s machine index Hwf Hsr Hi) as Hspec. rewrite Hrun in Hspec.
  destruct err as [e|].
  - destruct Hspec as [[-> _]|(b&f&e'&w&_&_&_&_&_&_&->&_)].
    + by split_and!.
    + destruct Hwf. by split_and!.
  - destruct Hspec as (Hb&Hc&_&b&f&w&_&_&Hrep&Hv&_&_&->).
    pose proof (validate_accept_wf s (mkStore (st_wal s) (st_identity s)
      (compacted (st_state s) index) machine) _ Hwf Hrep Hv eq_refl) as (Hwf'&_).
    split_and!; try done.
    + destruct Hwf'. by split.
    + apply extends_compacted. lia.
Qed.

Lemma run_op_step op (s s' : diskStore J) :
  wf_store s → content (st_wal s) (without_wal s) → typed_op op →
  run_op op s = Some (None, s') →
  wf_store s' ∧ content (st_wal s') (without_wal s') ∧ st_identity s' = st_identity s ∧
  extends (st_state s) (st_state s').
Proof.
  intros Hwf Hc Hty Hrun. destruct op as [term vote commit from entries|machine index].
  - destruct Hty as (?&?&?&?&?).
    pose proof (rep_save_record s term vote commit from entries) as Hrep.
    specialize (Hrep (wf_st_identity s Hwf) ltac:(done) ltac:(done) ltac:(done) ltac:(done) ltac:(done)).
    destruct (wf_save s s' _ _ _ _ _ None Hwf Hrep Hrun) as (Hwf'&Hid&_&Hext&Hst).
    destruct (save_content term vote commit from entries s s' None Hwf Hc Hrep) as [Heq Hc'].
    + unfold op_fits, op_result, set_state. cbn [st_state]. rewrite <-Hst.
      apply wf_fits, Hwf'.
    + done.
    + rewrite <-Heq in Hc'. done.
  - destruct Hty as [Hsr Hi].
    destruct (wf_checkpoint machine index s s' None Hwf Hsr Hi Hrun) as (Hwf'&Hid&Hext&_).
    destruct (checkpoint_content machine index s s' None Hwf Hc Hsr Hi Hrun) as [Heq Hc'].
    rewrite <-Heq in Hc'. done.
Qed.

Lemma store_steps (s s' : diskStore J) :
  rtc store_step s s' → wf_store s → content (st_wal s) (without_wal s) →
  wf_store s' ∧ content (st_wal s') (without_wal s') ∧ st_identity s' = st_identity s ∧
  extends (st_state s) (st_state s').
Proof.
  induction 1 as [s|s s1 s' Hstep _ IH]; intros Hwf Hc; [done|].
  assert (wf_store s1 ∧ content (st_wal s1) (without_wal s1) ∧ st_identity s1 = st_identity s ∧
    extends (st_state s) (st_state s1)) as (Hwf1&Hc1&Hid1&Hext1).
  { destruct Hstep as [op s s1 Hty Hrun|s w Hf].
    - by apply (run_op_step op).
    - split_and!; [by destruct Hwf| |done|done].
      destruct Hc as (bs&?&Hh&?). exists bs. split_and!; try done.
      by eapply j_faults_law. }
  destruct (IH Hwf1 Hc1) as (?&?&->&?). split_and!; try done. by etransitivity.
Qed.

(** Opening whatever the journal holds. *)
Lemma openStoreUsing_wf identity (w : J) bs s :
  text identity → j_holds w bs → openStoreUsing identity w = Some (inr s) →
  wf_store s ∧ st_identity s = identity ∧ content (st_wal s) (without_wal s).
Proof.
  intros Hid Hh Hopen. unfold openStoreUsing in Hopen.
  pose proof (j_open_law _ replay_record (Some (emptyStore identity, false)) w bs Hh) as Hlaw.
  destruct (replay_all replay_record bs _) as [x err] eqn:Hrep.
  destruct err as [err|].
  { destruct Hlaw as [e He]. rewrite He in Hopen.
    destruct x as [[s0 seen]|]; cbn in Hopen; done. }
  destruct Hlaw as (w'&He&Hh'). rewrite He in Hopen.
  destruct x as [[s0 seen]|]; cbn in Hopen; [|done].
  apply replay_all_inv in Hrep as [Hrep Hseen].
  destruct (replay_records_wf bs _ s0 (wf_emptyStore identity Hid) Hrep) as [[] Hid0].
  cbn in Hid0. destruct seen.
  - injection Hopen as <-. split_and!; [by split|done|]. exists bs.
    assert (bs ≠ []) by (by intros ->). split_and!; [done..|].
    cbn [st_identity without_wal set_wal]. rewrite Hid0. by destruct s0 as [[] ? ? ?].
  - assert (bs = []) as ->.
    { symmetry in Hseen. cbn in Hseen. apply negb_false_iff in Hseen. by case_bool_decide. }
    injection Hrep as <-. clear Hseen Hid0.
    set (s0 := set_wal w' (emptyStore identity)) in *.
    assert (wf_store s0) as Hwf0 by (by split).
    assert (representable (save_record s0 0 "" 0 0 [])) as Hrec.
    { by apply rep_save_record; try done. }
    pose proof (save_spec s0 0 "" 0 0 [] (wf_st_state s0 Hwf0) Hrec) as Hspec.
    destruct (save 0 "" 0 0 [] s0) as [[[e|] s1]|]; [done| |done]. injection Hopen as <-.
    destruct Hspec as (Hv&_&b&w1&_&Hu&Hj&->).
    split_and!; [by split|done|].
    pose proof (j_append_law b w' [] Hh') as Hl. cbn [st_wal s0 set_wal] in Hj. rewrite Hj in Hl.
    exists [b]. split_and!; [done|done|]. cbn [replay_records].
    rewrite Hu. cbn [st_identity without_wal set_wal set_state s0].
    change (st_identity (emptyStore identity)) with identity.
    pose proof (proj2 (proj2 (validate_update (emptyStore identity) _
      (wf_st_state s0 Hwf0) Hrec eq_refl)) Hv) as ->. done.
Qed.

(** Opening an empty journal writes the initial record. *)
(** What a [save] on a working disk leaves in memory and in the journal. *)
Lemma save_outcome term vote commit from entries (s s' : diskStore J) err :
  let r := save_record s term vote commit from entries in
  wf_store s → content (st_wal s) (without_wal s) → representable r →
  save term vote commit from entries s = Some (err, s') →
  match err with
  | None => valid_update (st_identity s) (st_state s) r ∧
      lenN (ds_log (updated (st_state s) r)) < two63 ∧
      without_wal s' = set_state (updated (st_state s) r) (without_wal s) ∧
      content (st_wal s') (without_wal s')
  | Some _ => without_wal s' = without_wal s ∧
      (content (st_wal s') (without_wal s) ∨
       (valid_update (st_identity s) (st_state s) r ∧ lenN (ds_log (updated (st_state s) r)) < two63 ∧
        content (st_wal s') (set_state (updated (st_state s) r) (without_wal s))) ∨
       overflowing (st_wal s') (st_identity s))
  end.
Proof.
  intros r Hwf Hc Hrep Hsave. pose proof (wf_st_state _ Hwf) as Hwfs.
  pose proof (save_spec s term vote commit from entries Hwfs Hrep) as Hs. fold r in Hs. rewrite Hsave in Hs.
  assert (without_wal s' = match err with None => set_state (updated (st_state s) r) (without_wal s)
    | Some _ => without_wal s end) as Hmem.
  { destruct err; [destruct Hs as [[_ ->]|(_&b&e'&w&_&_&_&->&_)]|destruct Hs as (_&_&b&w&_&_&_&->)]; done. }
  destruct (N.lt_ge_cases (lenN (ds_log (updated (st_state s) r))) two63) as [Hfit|Hbig].
  - pose proof (save_content term vote commit from entries s s' err Hwf Hc Hrep Hfit Hsave) as Hsc.
    cbn [run_op op_result] in Hsc. fold r in Hsc. destruct err as [err|].
    + destruct Hsc as [_ Hcon]. split; [done|]. destruct Hs as [[_ ->]|(Hv&_)]; [by left|].
      destruct Hcon as [?|[_ ?]]; [by left|right; by left].
    + destruct Hs as (Hv&_&_). destruct Hsc as [_ Hcon]. split_and!; [done..|]. by rewrite Hmem.
  - destruct err as [err|]; [|destruct Hs as (_&Hfit&_); exfalso; clear -Hbig Hfit; lia].
    split; [done|]. destruct Hs as [[_ ->]|(Hv&b&e'&w&_&Hu&Hj&->&_)]; [by left|].
    assert (validate (without_wal s) r = Some None) as Hva
      by (by apply (validate_update (without_wal s) r Hwfs Hrep eq_refl)).
    assert (accept r (without_wal s) = None) as Hac.
    { rewrite accept_update by done. cbn [st_state without_wal set_wal].
      by rewrite (proj2 (N.ltb_ge _ _) Hbig). }
    destruct (append_overflow _ w _ b r e' Hc Hu Hva Hac Hj) as [Hold|Hover]; [by left|by right; right].
Qed.

Lemma openStoreUsing_empty identity (w : J) s :
  text identity → j_holds w [] → openStoreUsing identity w = Some (inr s) →
  st_state s = mkState 0 "" 0 0 [zeroEntry].
Proof.
  intros Hid Hh Hopen. unfold openStoreUsing in Hopen.
  pose proof (j_open_law _ replay_record (Some (emptyStore identity, false)) w [] Hh) as Hlaw.
  cbn [replay_all] in Hlaw. destruct Hlaw as (w'&He&_). rewrite He in Hopen.
  cbn [mbind option_bind] in Hopen.
  set (s0 := set_wal w' (emptyStore identity)) in *.
  pose proof (wf_emptyStore identity Hid) as [Hwf _ _ _].
  assert (representable (save_record s0 0 "" 0 0 [])) as Hrec by (by apply rep_save_record).
  pose proof (save_spec s0 0 "" 0 0 [] Hwf Hrec) as Hspec.
  destruct (save 0 "" 0 0 [] s0) as [[[e|] s1]|]; [done| |done]. injection Hopen as <-.
  destruct Hspec as (_&_&b&w1&_&_&_&->). done.
Qed.

End durable.
