(* ===== verification/Codec.v ===== *)
(** * Codec: an instance of the codec interface that evaluates

    [Store] is proved against the interface [Codec] and its laws; this instance
    satisfies them by stdpp's encoding of countable types, so that the
    witnesses run the store, the node and the cluster on concrete journals. *)

From Stdlib Require Import Strings.Byte.
From stdpp Require Import base numbers list gmap strings fin_maps countable options.
From S2P Require Import Prelude Effects Bytes StateMachine Wal Journal Store.

Local Open Scope N_scope.

(** ** Positive numbers as bytes, one for each binary digit *)

Fixpoint pos_to_bytes (p : positive) : bytes :=
  match p with
  | xH => [x01]
  | xO p' => x00 :: pos_to_bytes p'
  | xI p' => x02 :: pos_to_bytes p'
  end.

Fixpoint bytes_to_pos (bs : bytes) : option positive :=
  match bs with
  | [] => None
  | b :: bs' =>
    match b, bs' with
    | x01, [] => Some xH
    | x00, _ => xO <$> bytes_to_pos bs'
    | x02, _ => xI <$> bytes_to_pos bs'
    | _, _ => None
    end
  end.

Lemma pos_bytes_roundtrip p : bytes_to_pos (pos_to_bytes p) = Some p.
Proof. induction p as [p IH|p IH|]; cbn; [..|done]; by rewrite IH. Qed.

(** ** Records as trees of texts and numbers

    A tree has one node for a record or a list, so the encoding is linear. *)

Definition tree : Type := gen_tree (string + N).
Definition T (s : string) : tree := GenLeaf (inl s).
Definition Nm (n : N) : tree := GenLeaf (inr n).
Definition Bl (b : bool) : tree := Nm (if b then 1 else 0).

Definition unT (t : tree) : string := match t with GenLeaf (inl s) => s | _ => "" end.
Definition unN (t : tree) : N := match t with GenLeaf (inr n) => n | _ => 0 end.
Definition unB (t : tree) : bool := unN t =? 1.

(** A list and its decoding, by a given decoding of the elements. *)
Definition tree_list {A} (f : A → tree) (l : list A) : tree := GenNode 1 (f <$> l).
Definition un_list {A} (g : tree → A) (t : tree) : list A :=
  match t with GenNode _ ts => g <$> ts | _ => [] end.

Definition tree_option {A} (f : A → tree) (o : option A) : tree :=
  match o with Some a => GenNode 2 [f a] | None => GenNode 3 [] end.
Definition un_option {A} (g : tree → A) (t : tree) : option A :=
  match t with GenNode 2 [t'] => Some (g t') | _ => None end.

Definition tree_map {A} (f : A → tree) (m : gmap string A) : tree :=
  tree_list (λ '(k, v), GenNode 0 [T k; f v]) (map_to_list m).
Definition un_map {A} (g : tree → A) (t : tree) : gmap string A :=
  list_to_map (un_list (λ t, match t with GenNode _ [k; v] => (unT k, g v) | _ => ("", g t) end) t).

Lemma un_list_tree {A} (f : A → tree) g l :
  (∀ a, g (f a) = a) → un_list g (tree_list f l) = l.
Proof.
  intros H. cbn. rewrite <-list_fmap_compose. rewrite <-(list_fmap_id l) at 2.
  apply list_fmap_ext. intros i x _. apply H.
Qed.

Lemma un_option_tree {A} (f : A → tree) g o :
  (∀ a, g (f a) = a) → un_option g (tree_option f o) = o.
Proof. intros H. destruct o; cbn; [by rewrite H|done]. Qed.

Lemma un_map_tree {A} (f : A → tree) g m :
  (∀ a, g (f a) = a) → un_map g (tree_map f m) = m.
Proof.
  intros H. unfold un_map, tree_map. rewrite un_list_tree; [apply list_to_map_to_list|].
  intros [k v]. cbn. by rewrite H.
Qed.

Lemma unB_Bl b : unB (Bl b) = b.
Proof. by destruct b. Qed.

Definition tree_command (c : Command) : tree :=
  GenNode 0 [T (c_ClientID c); Nm (c_RequestID c); T (c_Operation c); T (c_Key c); T (c_Value c);
             T (c_Expected c)].
Definition un_command (t : tree) : Command :=
  match t with
  | GenNode _ [a; b; c; d; e; f] => mkCommand (unT a) (unN b) (unT c) (unT d) (unT e) (unT f)
  | _ => mkCommand "" 0 "" "" "" ""
  end.

Definition tree_session (s : session) : tree :=
  let r := s_Result s in
  GenNode 0 [tree_command (s_Command s); T (r_Value r); Bl (r_Found r); Bl (r_Applied r);
             Bl (r_Conflict r)].
Definition un_session (t : tree) : session :=
  match t with
  | GenNode _ [a; b; c; d; e] => mkSession (un_command a) (mkResult (unT b) (unB c) (unB d) (unB e))
  | _ => mkSession (un_command t) zeroResult
  end.

Definition tree_snapshot (s : Snapshot) : tree :=
  GenNode 0 [tree_map T (snap_Values s); tree_map tree_session (snap_Sessions s); Nm (snap_Count s)].
Definition un_snapshot (t : tree) : Snapshot :=
  match t with
  | GenNode _ [a; b; c] => mkSnapshot (un_map unT a) (un_map un_session b) (unN c)
  | _ => zeroSnapshot
  end.

Definition tree_entry (e : Entry) : tree :=
  GenNode 0 [Nm (e_Index e); Nm (e_Term e); tree_option tree_command (e_Command e)].
Definition un_entry (t : tree) : Entry :=
  match t with
  | GenNode _ [a; b; c] => mkEntry (unN a) (unN b) (un_option un_command c)
  | _ => zeroEntry
  end.

Definition tree_checkpoint (c : checkpoint) : tree :=
  GenNode 0 [Nm (k_Index c); Nm (k_Term c); tree_snapshot (k_Machine c); Nm (k_RaftTerm c);
             T (k_Vote c); Nm (k_Commit c); tree_list tree_entry (k_Log c)].
Definition un_checkpoint (t : tree) : checkpoint :=
  match t with
  | GenNode _ [a; b; c; d; e; f; g] =>
    mkCheckpoint (unN a) (unN b) (un_snapshot c) (unN d) (unT e) (unN f) (un_list un_entry g)
  | _ => mkCheckpoint 0 0 zeroSnapshot 0 "" 0 []
  end.

Definition tree_record (r : record) : tree :=
  GenNode 0 [T (rc_Identity r); Nm (rc_Term r); T (rc_Vote r); Nm (rc_Commit r); Nm (rc_From r);
             tree_list tree_entry (rc_Entries r); tree_option tree_checkpoint (rc_Checkpoint r)].
Definition un_record (t : tree) : record :=
  match t with
  | GenNode _ [a; b; c; d; e; f; g] =>
    mkRecord (unT a) (unN b) (unT c) (unN d) (unN e) (un_list un_entry f) (un_option un_checkpoint g)
  | _ => mkRecord "" 0 "" 0 0 [] None
  end.

Lemma un_tree_command c : un_command (tree_command c) = c.
Proof. by destruct c. Qed.

Lemma un_tree_session s : un_session (tree_session s) = s.
Proof.
  destruct s as [c [v f a o]]. cbn [tree_session un_session s_Command s_Result r_Value r_Found
    r_Applied r_Conflict]. by rewrite un_tree_command, !unB_Bl.
Qed.

Lemma un_tree_snapshot s : un_snapshot (tree_snapshot s) = s.
Proof.
  destruct s as [v ss n]. cbn [tree_snapshot un_snapshot snap_Values snap_Sessions snap_Count].
  rewrite !un_map_tree; [done|apply un_tree_session|done].
Qed.

Lemma un_tree_entry e : un_entry (tree_entry e) = e.
Proof.
  destruct e as [i t o]. cbn [tree_entry un_entry e_Index e_Term e_Command].
  rewrite un_option_tree; [done|apply un_tree_command].
Qed.

Lemma un_tree_checkpoint c : un_checkpoint (tree_checkpoint c) = c.
Proof.
  destruct c as [i t m rt v c l]. cbn [tree_checkpoint un_checkpoint k_Index k_Term k_Machine k_RaftTerm k_Vote k_Commit k_Log].
  rewrite un_tree_snapshot, un_list_tree; [done|apply un_tree_entry].
Qed.

Lemma un_tree_record r : un_record (tree_record r) = r.
Proof.
  destruct r as [i t v c f es k]. cbn [tree_record un_record rc_Identity rc_Term rc_Vote rc_Commit rc_From rc_Entries
    rc_Checkpoint].
  rewrite un_list_tree, un_option_tree; [done|apply un_tree_checkpoint|apply un_tree_entry].
Qed.

(** ** Representability is decidable *)

#[export] Instance text_dec s : Decision (text s).
Proof. unfold text. apply _. Defined.

Definition dec_iff {P Q : Prop} (H : P ↔ Q) (d : Decision Q) : Decision P :=
  match d with
  | left q => left (proj2 H q)
  | right n => right (λ p, n (proj1 H p))
  end.

Lemma rep_command_iff c : rep_command c ↔
  text (c_ClientID c) ∧ c_RequestID c < two64 ∧ text (c_Operation c) ∧ text (c_Key c) ∧
  text (c_Value c) ∧ text (c_Expected c).
Proof. split; [by intros []|]. intros (?&?&?&?&?&?). by split. Qed.
#[export] Instance rep_command_dec c : Decision (rep_command c) := dec_iff (rep_command_iff c) _.

Lemma rep_entry_iff e : rep_entry e ↔
  e_Index e < two64 ∧ e_Term e < two64 ∧
  match e_Command e with Some c => rep_command c | None => True end.
Proof.
  split.
  - intros [? ? Hc]. split_and!; try done. destruct (e_Command e); auto.
  - intros (?&?&Hc). split; try done. intros c He. by rewrite He in Hc.
Qed.
#[export] Instance rep_entry_dec e : Decision (rep_entry e).
Proof. apply (dec_iff (rep_entry_iff e)). destruct (e_Command e); apply _. Defined.
#[export] Instance rep_entries_dec es : Decision (rep_entries es).
Proof. unfold rep_entries. apply _. Defined.

Lemma rep_snapshot_iff s : rep_snapshot s ↔
  map_Forall (λ k v, text k ∧ text v) (snap_Values s) ∧
  map_Forall (λ id v, text id ∧ rep_command (s_Command v) ∧ text (r_Value (s_Result v)))
    (snap_Sessions s) ∧
  snap_Count s < two64.
Proof. split; [by intros []|]. intros (?&?&?). by split. Qed.
#[export] Instance rep_snapshot_dec s : Decision (rep_snapshot s) := dec_iff (rep_snapshot_iff s) _.

Lemma rep_checkpoint_iff c : rep_checkpoint c ↔
  k_Index c < two64 ∧ k_Term c < two64 ∧ rep_snapshot (k_Machine c) ∧ k_RaftTerm c < two64 ∧
  text (k_Vote c) ∧ k_Commit c < two64 ∧ rep_entries (k_Log c).
Proof. split; [by intros []|]. intros (?&?&?&?&?&?&?). by split. Qed.
#[export] Instance rep_checkpoint_dec c : Decision (rep_checkpoint c) := dec_iff (rep_checkpoint_iff c) _.

Lemma representable_iff r : representable r ↔
  text (rc_Identity r) ∧ rc_Term r < two64 ∧ text (rc_Vote r) ∧ rc_Commit r < two64 ∧
  rc_From r < two64 ∧ rep_entries (rc_Entries r) ∧
  match rc_Checkpoint r with Some c => rep_checkpoint c | None => True end.
Proof.
  split.
  - intros [? ? ? ? ? ? Hc]. split_and!; try done. destruct (rc_Checkpoint r); auto.
  - intros (?&?&?&?&?&?&Hc). split; try done. intros c He. by rewrite He in Hc.
Qed.
#[export] Instance representable_dec r : Decision (representable r).
Proof. apply (dec_iff (representable_iff r)). destruct (rc_Checkpoint r); apply _. Defined.

(** ** The codec *)

Definition reference_marshal (r : record) : error + bytes := inr (pos_to_bytes (encode (tree_record r))).

Definition reference_unmarshal (b : bytes) : error + record :=
  match bytes_to_pos b ≫= decode with
  | Some t =>
    let r := un_record t in
    if decide (representable r) then inr r else inl (ErrNew "invalid record")
  | None => inl (ErrNew "invalid record")
  end.

#[export] Instance reference_codec : Codec record :=
  {| marshal := reference_marshal; unmarshal := reference_unmarshal |}.

#[export] Instance reference_codec_laws : CodecLaws.
Proof.
  split.
  - intros r Hr. exists (pos_to_bytes (encode (tree_record r))). split; [done|]. cbn.
    unfold reference_unmarshal. rewrite pos_bytes_roundtrip. cbn. rewrite decode_encode, un_tree_record.
    by rewrite decide_True.
  - intros b r. cbn. unfold reference_unmarshal.
    destruct (bytes_to_pos b ≫= decode) as [t|]; [|done].
    case_decide; [|done]. by intros [= <-].
Qed.
