(* ===== verification/StoreProps.v ===== *)
(** * StoreProps: what the durable store guarantees

    The properties of [Store] as theorems, with their witnesses on the in-memory
    disk and the reference codec. *)

From stdpp Require Import base numbers list gmap strings fin_maps relations options.
From S2P Require Import Prelude Effects Bytes StateMachine Wal Journal Store Codec.

Local Open Scope N_scope.
#[local] Set Default Proof Using "Type*".

Section props.
Context {J : Type} `{HJ : Journal J, HJL : !JournalLaws J, HC : Codec record, HCL : !CodecLaws}.

(** C16. Crash consistency of the Raft store, for any journal that meets its
    contract.  Take a store that agrees with its journal, let it run any
    successful saves and checkpoints while I/O faults come and go, then any last
    operation, failing or not, and let the process end.  Reopening the journal
    succeeds and yields the in-memory state at the end of the run or, only if
    the last operation reported an error, the state that operation was writing.
    In both cases nothing durable before is taken back: terms and commit index
    have not decreased, no vote has changed within its term, no committed entry
    has changed. *)
Theorem Store_crash_recovery (s s1 s2 : diskStore J) op err :
  wf_store s → content (st_wal s) (without_wal s) → rtc store_step s s1 →
  typed_op op → op_fits op s1 → run_op op s1 = Some (err, s2) →
  ∃ s3, openStoreUsing (st_identity s) (st_wal s2) = Some (inr s3) ∧
    extends (st_state s) (st_state s3) ∧
    (without_wal s3 = without_wal s2 ∨ err ≠ None ∧ without_wal s3 = op_result op s1).
Proof.
  intros Hwf Hc Hrun Hty Hfit Hop.
  destruct (store_steps s s1 Hrun Hwf Hc) as (Hwf1&Hc1&Hid1&Hext1).
  assert (∀ t, content (st_wal s2) t → st_identity t = st_identity s →
    ∃ s3, openStoreUsing (st_identity s) (st_wal s2) = Some (inr s3) ∧ without_wal s3 = t) as Hopen.
  { intros t Ht <-. destruct (openStoreUsing_content _ _ Ht) as (w'&Ho&_).
    eexists. split; [exact Ho|]. by destruct t as [[] ? ? ?]. }
  assert (match err with
    | None => content (st_wal s2) (without_wal s2) ∧ st_identity s2 = st_identity s1 ∧
        extends (st_state s1) (st_state s2)
    | Some _ => without_wal s2 = without_wal s1 ∧
      (content (st_wal s2) (without_wal s1) ∨
       extends (st_state s1) (st_state (op_result op s1)) ∧ content (st_wal s2) (op_result op s1))
    end) as Hlast.
  { destruct err as [e|].
    - destruct op as [term vote commit from entries|machine index]; destruct_and?; cbn in Hty.
      + eapply (save_content term vote commit from entries s1 s2 (Some e)); try done.
        destruct Hty as (?&?&?&?&?). by apply rep_save_record; [apply Hwf1|..].
      + eapply (checkpoint_content machine index s1 s2 (Some e)); naive_solver.
    - by destruct (run_op_step op s1 s2 Hwf1 Hc1 Hty Hop) as (_&?&?&?). }
  destruct err as [e|].
  - destruct Hlast as [Heq [H|[Hext H]]].
    + destruct (Hopen _ H) as (s3&Ho&H3); [done|]. exists s3. split_and!; [done| |left; congruence].
      by change (st_state s3) with (st_state (without_wal s3)); rewrite H3.
    + destruct (Hopen _ H) as (s3&Ho&H3); [by destruct op|]. exists s3. split_and!; [done| |by right].
      change (st_state s3) with (st_state (without_wal s3)). rewrite H3. by etransitivity.
  - destruct Hlast as (H&Hid&Hext).
    destruct (Hopen _ H) as (s3&Ho&H3); [cbn; congruence|]. exists s3. split_and!; [done| |by left].
    change (st_state s3) with (st_state (without_wal s3)). rewrite H3. by etransitivity.
Qed.

(** A store opened from a journal is well formed whatever records the
    journal holds, even records no node ever wrote: it has the asked identity, a
    log without gaps whose terms never decrease nor exceed the current term,
    only valid commands above its base, a commit index within the log, a machine
    snapshot that restores; and the journal again holds exactly that store. *)
Theorem Open_validates identity (w : J) bs s :
  text identity → j_holds w bs → openStoreUsing identity w = Some (inr s) →
  wf_store s ∧ st_identity s = identity ∧ content (st_wal s) (without_wal s).
Proof. apply openStoreUsing_wf. Qed.

(** [save] succeeds, on a journal that accepts the record, exactly for the
    updates that respect the durable state: same identity, no older term, no
    changed vote within the term, no smaller commit index, no replaced committed
    entry, no gap, consecutive indices, terms sorted and at most the record's
    term, valid commands, a commit index within the new log.  Any other update
    is refused before anything is written. *)
Theorem save_accepts_iff (s : diskStore J) term vote commit from entries :
  let r := save_record s term vote commit from entries in
  wf_store s → representable r →
  (∀ b, marshal r = inr b → (j_append b (st_wal s)).1 = None) →
  lenN (ds_log (st_state s)) + lenN entries < two63 →
  (valid_update (st_identity s) (st_state s) r ∧
   ∃ w, save term vote commit from entries s =
     Some (None, set_wal w (set_state (updated (st_state s) r) s))) ∨
  (¬ valid_update (st_identity s) (st_state s) r ∧
   ∃ e, save term vote commit from entries s = Some (Some e, s)).
Proof.
  intros r Hwf Hrep Hj Hfit. pose proof (wf_st_state s Hwf) as Hwfs.
  pose proof (save_spec s term vote commit from entries Hwfs Hrep) as Hspec. fold r in Hspec.
  destruct (save term vote commit from entries s) as [[[e|] s']|] eqn:Hs.
  - destruct Hspec as [[Hv ->]|(Hv&b&e'&w&Hb&_&Hja&_)].
    + right. split; [done|]. by eexists.
    + specialize (Hj b Hb). by rewrite Hja in Hj.
  - destruct Hspec as (Hv&_&b&w&_&_&_&->). left. split; [done|]. by eexists.
  - destruct Hspec as [Hv Hbig]. exfalso. revert Hbig. unfold updated. cbn.
    destruct (from =? 0); unfold lenN in *; rewrite ?length_app, ?length_take; cbn; lia.
Qed.

(** C20. Compaction is transparent: after a successful checkpoint at [i], every
    entry from [i] on and the last index are what they were, every further
    update is accepted exactly when it would have been accepted without the
    checkpoint, and leads to the same state with the same prefix compacted. *)
Theorem checkpoint_transparent (s s' : diskStore J) machine i :
  wf_store s → rep_snapshot machine → i < two64 →
  store_checkpoint machine i s = Some (None, s') →
  (∀ j, i ≤ j → j < two64 → entry s' j = entry s j) ∧ last s' = last s ∧
  ∀ r, representable r → rc_Checkpoint r = None →
    (validate s' r = Some None ↔ validate s r = Some None) ∧
    ∀ s1, validate s r = Some None → accept r s = Some s1 →
      ∃ s1', accept r s' = Some s1' ∧ st_state s1' = compacted (st_state s1) i.
Proof.
  intros Hwf Hsr Hi Hck. pose proof (wf_st_state s Hwf) as Hwfs.
  destruct (wf_checkpoint machine i s s' None Hwf Hsr Hi Hck) as (Hwf'&Hid&_&Hb&Hc&Hst&_).
  pose proof (wf_st_state s' Hwf') as Hwfs'.
  split_and!.
  - intros j Hj Hj64. rewrite !entry_spec by done. rewrite Hst, log_at_compacted by lia.
    by destruct (N.ltb_spec j i); [lia|].
  - rewrite !last_spec by done. rewrite Hst. by apply last_index_compacted; [|lia|lia].
  - intros r Hrep Hk.
    destruct (validate_update s r Hwfs Hrep Hk) as [_ Hv].
    destruct (validate_update s' r Hwfs' Hrep Hk) as [_ Hv'].
    rewrite Hst, Hid in Hv'. rewrite Hv, Hv', valid_update_compacted by (done || lia).
    split; [done|]. intros s1 Hval Ha. apply Hv in Hval.
    assert (valid_update (st_identity s') (st_state s') r) as Hval'.
    { rewrite Hst, Hid. apply (valid_update_compacted _ _ i r Hwfs); [lia|lia|done]. }
    rewrite (accept_update s) in Ha by done. rewrite (accept_update s') by done.
    destruct (N.ltb_spec (lenN (ds_log (updated (st_state s) r))) two63) as [Hlt|]; [|done].
    injection Ha as <-. rewrite Hst, updated_compacted by
      (done || lia || by rewrite (vu_identity _ _ _ Hval)).
    assert (lenN (ds_log (compacted (updated (st_state s) r) i)) < two63) as Hlt'.
    { unfold lenN in *. cbn [compacted ds_log]. rewrite length_drop. lia. }
    rewrite (proj2 (N.ltb_lt _ _) Hlt'). by eexists.
Qed.

(** On a journal whose [Replace] accepts the record, [checkpoint] succeeds exactly for an
    index above the base and within the committed prefix, with a machine that
    can be restored; then the log starts at that index, the committed suffix
    and everything after it is kept, and reopening the journal restores exactly
    that machine.  Otherwise nothing is written. *)
Theorem checkpoint_spec (s : diskStore J) machine i f :
  wf_store s → content (st_wal s) (without_wal s) → rep_snapshot machine → i < two64 →
  j_replace = Some f →
  (∀ b, marshal (checkpoint_record s machine i) = inr b → (f [b] (st_wal s)).1 = None) →
  (ds_base (st_state s) < i ∧ i ≤ ds_commit (st_state s) ∧ (Restore New machine).2 = None ∧
   ∃ s' s'', store_checkpoint machine i s = Some (None, s') ∧
     st_state s' = compacted (st_state s) i ∧
     openStoreUsing (st_identity s) (st_wal s') = Some (inr s'') ∧
     st_state s'' = compacted (st_state s) i ∧ st_snapshot s'' = machine) ∨
  (¬ (ds_base (st_state s) < i ∧ i ≤ ds_commit (st_state s) ∧ (Restore New machine).2 = None) ∧
   ∃ e, store_checkpoint machine i s = Some (Some e, s)).
Proof.
  intros Hwf Hc Hsr Hi Hf Hok.
  pose proof (store_checkpoint_spec s machine i Hwf Hsr Hi) as Hspec.
  destruct (store_checkpoint machine i s) as [[[e|] s']|] eqn:Hck; [| |done].
  - destruct Hspec as [[-> Hbad]|(b&f'&e'&w&Hbm&_&_&_&Hf'&Hfb&_)].
    + right. split; [|by eexists]. intros (?&?&Hm). rewrite Hf in Hbad. naive_solver lia.
    + rewrite Hf in Hf'. injection Hf' as <-. specialize (Hok b Hbm). by rewrite Hfb in Hok.
  - left. destruct Hspec as (Hb&Hcm&Hm&_). split_and!; try done.
    destruct (checkpoint_content machine i s s' None Hwf Hc Hsr Hi Hck) as [Heq Hc'].
    destruct (openStoreUsing_content _ _ Hc') as (w'&Ho&_).
    exists s'. eexists. split_and!; [done| |exact Ho|done|done].
    by change (st_state s') with (st_state (without_wal s')); rewrite Heq.
Qed.

End props.

(** ** Witnesses *)

Definition ex_disk : memoryDisk := mkMemoryDisk [] "".
Definition ex_command : Command := mkCommand "client" 1 "SET" "k" "v" "".

(** A node that voted for itself in term one, took one entry and committed it. *)
Definition ex_store : option (diskStore memoryDisk) :=
  match openStoreUsing "identity" ex_disk with
  | Some (inr s) =>
    match (_ ← save 1 "n1" 0 0 []; save 1 "n1" 1 1 [mkEntry 1 1 (Some ex_command)]) s with
    | Some (None, s') => Some s'
    | _ => None
    end
  | _ => None
  end.

Definition ex_s : diskStore memoryDisk :=
  default (set_wal ex_disk (emptyStore "identity")) ex_store.

Lemma ex_s_reopens :
  openStoreUsing "identity" (st_wal ex_s) = Some (inr ex_s).
Proof. vm_cast_no_check (@eq_refl (option (error + diskStore memoryDisk)) (Some (inr ex_s))). Qed.

Lemma ex_s_ok : wf_store ex_s ∧ content (st_wal ex_s) (without_wal ex_s).
Proof.
  assert (j_holds (st_wal ex_s) (md_records (st_wal ex_s))) as Hh
    by exact (eq_refl (md_records (st_wal ex_s))).
  destruct (openStoreUsing_wf "identity" _ _ ex_s eq_refl Hh ex_s_reopens) as (?&_&?). done.
Qed.

(** The same store on a checksummed file in a directory. *)
Definition ex_dir : WAL * Disk :=
  (mkWAL raft_wal false None None, disk_of raft_wal [] ∅ [] []).

Definition ex_w0 : diskStore (WAL * Disk) :=
  match openStoreUsing "identity" ex_dir with
  | Some (inr s) => s
  | _ => set_wal ex_dir (emptyStore "identity")
  end.

Definition ex_after (op : store_op) (s : diskStore (WAL * Disk)) : diskStore (WAL * Disk) :=
  match run_op op s with Some (_, s') => s' | None => s end.

Definition ex_w1 : diskStore (WAL * Disk) := ex_after (Save 1 "n1" 0 0 []) ex_w0.
Definition ex_w : diskStore (WAL * Disk) :=
  ex_after (Save 1 "n1" 1 1 [mkEntry 1 1 (Some ex_command)]) ex_w1.

Lemma ex_after_ok op s :
  match run_op op s with Some (None, _) => true | _ => false end = true →
  run_op op s = Some (None, ex_after op s).
Proof. unfold ex_after. by destruct (run_op op s) as [[[]]|]. Qed.

Lemma ex_dir_holds : j_holds ex_dir [].
Proof.
  split_and!; [done| |by split]. by apply settled_holds; [apply Forall_nil|split].
Qed.

Lemma ex_w0_opens : openStoreUsing "identity" ex_dir = Some (inr ex_w0).
Proof. vm_cast_no_check (@eq_refl (option (error + diskStore (WAL * Disk))) (Some (inr ex_w0))). Qed.

Lemma rep_ex_entry : rep_entries [mkEntry 1 1 (Some ex_command)].
Proof. apply (bool_decide_unpack _). vm_compute. done. Qed.

Lemma ex_w_ok : wf_store ex_w ∧ content (st_wal ex_w) (without_wal ex_w).
Proof.
  destruct (openStoreUsing_wf "identity" ex_dir [] ex_w0 eq_refl ex_dir_holds ex_w0_opens)
    as (H0&_&Hc0).
  assert (rtc store_step ex_w0 ex_w) as Hs.
  { eapply rtc_l; [|eapply rtc_l; [|apply rtc_refl]]; eapply step_op.
    2,4: (apply ex_after_ok; vm_cast_no_check (@eq_refl bool true)).
    - by split_and!.
    - split_and!; [done..|apply rep_ex_entry]. }
  by destruct (store_steps ex_w0 ex_w Hs H0 Hc0) as (?&?&_).
Qed.

Lemma rep_ex_entry2 : rep_entries [mkEntry 2 2 None].
Proof. apply (bool_decide_unpack _). vm_compute. done. Qed.

Lemma Store_crash_recovery_witness :
  ∃ s3, openStoreUsing "identity" (st_wal (default ex_s (snd <$> run_op (Save 2 "n2" 1 2 [mkEntry 2 2 None])
      (set_wal (mkMemoryDisk (md_records (st_wal ex_s)) "after") ex_s)))) = Some (inr s3) ∧
    extends (st_state ex_s) (st_state s3) ∧ ds_term (st_state s3) = 2.
Proof.
  set (s1 := set_wal (mkMemoryDisk (md_records (st_wal ex_s)) "after") ex_s).
  set (op := Save 2 "n2" 1 2 [mkEntry 2 2 None]).
  set (s2 := default ex_s (snd <$> run_op op s1)).
  assert (run_op op s1 = Some (Some (ErrWrap "persist raft state: " ErrInjectedDisk), s2)) as Hop.
  { vm_cast_no_check (@eq_refl (option (option error * diskStore memoryDisk))
      (Some (Some (ErrWrap "persist raft state: " ErrInjectedDisk), s2))). }
  assert (rtc store_step ex_s s1) as Hrun by (apply rtc_once, step_faults; exact eq_refl).
  assert (typed_op op) as Hty by exact (conj eq_refl (conj eq_refl
    (conj eq_refl (conj eq_refl rep_ex_entry2)))).
  assert (op_fits op s1) as Hfit by (vm_cast_no_check (@eq_refl comparison Lt)).
  destruct (Store_crash_recovery ex_s s1 s2 op _ (proj1 ex_s_ok) (proj2 ex_s_ok) Hrun Hty Hfit Hop)
    as (s3&Ho&He&_).
  exists s3. split_and!; [exact Ho|exact He|].
  assert (match openStoreUsing "identity" (st_wal s2) with
            | Some (inr s) => ds_term (st_state s) | _ => 0 end = 2) as Ht
    by (vm_cast_no_check (@eq_refl N 2)).
  change (openStoreUsing "identity" (st_wal s2) = Some (inr s3)) in Ho.
  by rewrite Ho in Ht.
Defined.

Lemma Open_validates_witness :
  wf_store ex_s ∧ st_identity ex_s = "identity" ∧ content (st_wal ex_s) (without_wal ex_s).
Proof.
  assert (j_holds (st_wal ex_s) (md_records (st_wal ex_s))) as Hh
    by exact (eq_refl (md_records (st_wal ex_s))).
  exact (Open_validates "identity" _ _ ex_s eq_refl Hh ex_s_reopens).
Defined.

(** A second vote in the same term is refused, and nothing is written. *)
Lemma save_accepts_iff_witness :
  ∃ e, save 1 "n2" 1 0 [] ex_s = Some (Some e, ex_s).
Proof.
  assert (representable (save_record ex_s 1 "n2" 1 0 [])) as Hrep
    by (apply (bool_decide_unpack _); vm_compute; done).
  assert (md_failure (st_wal ex_s) = "") as Hf by (vm_cast_no_check (@eq_refl string "")).
  assert (∀ b, marshal (save_record ex_s 1 "n2" 1 0 []) = inr b →
    (j_append b (st_wal ex_s)).1 = None) as Hj.
  { intros b _. cbn [j_append memoryDisk_Journal]. unfold memoryDisk_Append. by rewrite Hf. }
  assert (lenN (ds_log (st_state ex_s)) + lenN (@nil Entry) < two63) as Hfit
    by (vm_cast_no_check (@eq_refl comparison Lt)).
  assert (match save 1 "n2" 1 0 [] ex_s with Some (Some _, _) => true | _ => false end = true) as Hr
    by (vm_cast_no_check (@eq_refl bool true)).
  destruct (save_accepts_iff ex_s 1 "n2" 1 0 [] (proj1 ex_s_ok) Hrep Hj Hfit) as [(_&w&Hs)|(_&Hs)].
  - rewrite Hs in Hr. exfalso. by inversion Hr.
  - exact Hs.
Defined.

#[local] Opaque ex_w ex_s.

Definition ex_snapshot : Snapshot := takeSnapshot (Apply New ex_command).1.

Lemma rep_ex_snapshot : rep_snapshot ex_snapshot.
Proof. apply (bool_decide_unpack _). vm_compute. done. Qed.

Lemma run_op_checkpoint {J} `{Journal J, Codec record} machine i (s : diskStore J) :
  run_op (Checkpoint machine i) s = store_checkpoint machine i s.
Proof. done. Qed.

Lemma ex_checkpoint_ok :
  store_checkpoint ex_snapshot 1 ex_w = Some (None, ex_after (Checkpoint ex_snapshot 1) ex_w).
Proof.
  rewrite <-run_op_checkpoint. apply ex_after_ok. vm_cast_no_check (@eq_refl bool true).
Qed.

Lemma checkpoint_transparent_witness :
  entry (ex_after (Checkpoint ex_snapshot 1) ex_w) 1 = entry ex_w 1 ∧
  last (ex_after (Checkpoint ex_snapshot 1) ex_w) = last ex_w.
Proof.
  destruct (checkpoint_transparent ex_w _ ex_snapshot 1 (proj1 ex_w_ok) rep_ex_snapshot
    eq_refl ex_checkpoint_ok) as (He&Hl&_).
  exact (conj (He 1 (N.le_refl 1) eq_refl) Hl).
Defined.

Lemma checkpoint_spec_witness :
  ∃ s' s'', store_checkpoint ex_snapshot 1 ex_w = Some (None, s') ∧
    openStoreUsing "identity" (st_wal s') = Some (inr s'') ∧ st_snapshot s'' = ex_snapshot.
Proof.
  assert (∀ b, marshal (checkpoint_record ex_w ex_snapshot 1) = inr b →
    (run_wal (Replace [b]) (st_wal ex_w)).1 = None) as Hf.
  { assert (match marshal (checkpoint_record ex_w ex_snapshot 1) with
            | inr b => (run_wal (Replace [b]) (st_wal ex_w)).1 = None | _ => True end) as Hb
      by (vm_cast_no_check (@eq_refl (option error) None)).
    intros b Hm. by rewrite Hm in Hb. }
  assert (j_replace = Some (λ bs, run_wal (Replace bs))) as Hrw by exact eq_refl.
  destruct (checkpoint_spec ex_w ex_snapshot 1 _ (proj1 ex_w_ok) (proj2 ex_w_ok) rep_ex_snapshot
    eq_refl Hrw Hf) as [(_&_&_&s'&s''&Hs&_&Ho&_&Hm)|(_&e&He)].
  - exists s', s''. split_and!; [exact Hs|exact Ho|exact Hm].
  - assert (match store_checkpoint ex_snapshot 1 ex_w with
            | Some (None, _) => true | _ => false end = true) as Hr
      by (vm_cast_no_check (@eq_refl bool true)).
    rewrite He in Hr. exfalso. by inversion Hr.
Defined.
