(* ===== verification/Events.v ===== *)
(** * Events: the bounded operational event stream
    (src/internal/events/events.go)

    A buffer keeps the last [capacity] published events and numbers them from
    one; [After] is what a reader that has seen the events up to [id] still
    gets. *)

From stdpp Require Import base numbers list strings options.
From S2P Require Import Prelude.

Local Open Scope N_scope.

Record Event := mkEvent {
  ev_ID : N;
  ev_Time : Z;
  ev_NodeID : string;
  ev_Type : string;
  ev_Term : N;
  ev_Index : N;
  ev_Peer : string;
  ev_MessageID : string;
  ev_Detail : string;
}.

#[export] Instance Event_eq_dec : EqDecision Event.
Proof. solve_decision. Defined.

Definition set_ID (id : N) (e : Event) : Event :=
  mkEvent id (ev_Time e) (ev_NodeID e) (ev_Type e) (ev_Term e) (ev_Index e)
    (ev_Peer e) (ev_MessageID e) (ev_Detail e).

Record Buffer := mkBuffer {
  b_next : N;
  b_items : list Event;
  b_capacity : Z;
}.

Definition NewBuffer (capacity : Z) : Buffer :=
  mkBuffer 0 [] (if (capacity <? 1)%Z then 1%Z else capacity).

Definition Publish (e : Event) (b : Buffer) : Buffer :=
  let next := add64 (b_next b) 1 in
  let items :=
    (* copy(b.items, b.items[1:]); b.items = b.items[:len(b.items)-1] *)
    if (Z.of_nat (length (b_items b)) =? b_capacity b)%Z then tail (b_items b)
    else b_items b in
  mkBuffer next (items ++ [set_ID next e]) (b_capacity b).

Definition After (id : N) (b : Buffer) : list Event :=
  filter (λ e, id < ev_ID e) (b_items b).

(** Publishing a sequence of events. *)
Definition publish_all (es : list Event) (b : Buffer) : Buffer :=
  fold_left (λ b e, Publish e b) es b.

(** The events of a sequence under the numbers [n+1], [n+2], ... *)
Fixpoint number (n : N) (es : list Event) : list Event :=
  match es with
  | [] => []
  | e :: es' => set_ID (n + 1) e :: number (n + 1) es'
  end.

(** ** Lemmas *)

Lemma length_number n es : length (number n es) = length es.
Proof. revert n. induction es; intros n; simpl; auto. Qed.

Lemma number_app n es1 es2 :
  number n (es1 ++ es2) = number n es1 ++ number (n + lenN es1) es2.
Proof.
  revert n. induction es1 as [|e es1 IH]; intros n; simpl.
  - by rewrite N.add_0_r.
  - rewrite IH, lenN_cons. by replace (n + 1 + lenN es1) with (n + (lenN es1 + 1)) by lia.
Qed.

Lemma number_lookup n es i e :
  number n es !! i = Some e → ev_ID e = n + 1 + N.of_nat i.
Proof.
  revert n i. induction es as [|e' es IH]; intros n [|i] H; cbn [number] in H; [done|done| |].
  - injection H as <-. simpl. lia.
  - apply IH in H. lia.
Qed.

Lemma filter_number_all n es id :
  id ≤ n → filter (λ e, id < ev_ID e) (number n es) = number n es.
Proof.
  revert n. induction es as [|e es IH]; intros n Hid; [done|]. simpl.
  rewrite filter_cons_True by (simpl; lia). rewrite IH by lia. done.
Qed.

Lemma filter_number n es k :
  filter (λ e, n + N.of_nat k < ev_ID e) (number n es) = drop k (number n es).
Proof.
  revert n es. induction k as [|k IH]; intros n es.
  - rewrite drop_0. apply filter_number_all. lia.
  - destruct es as [|e es]; [done|]. cbn [number drop].
    rewrite filter_cons_False by (simpl; lia).
    rewrite <-IH. apply list_filter_iff. intros x. lia.
Qed.

Lemma drop_S_tail {A} k (l : list A) : drop (S k) l = tail (drop k l).
Proof. revert l. induction k; intros [|x l]; simpl; auto using drop_nil. Qed.

(** The state of a buffer after any number of publications. *)
Lemma publish_all_items c es :
  lenN es < two64 →
  let cap := Z.to_nat (Z.max 1 c) in
  let b := publish_all es (NewBuffer c) in
  b_next b = lenN es ∧ b_capacity b = Z.max 1 c ∧
  b_items b = drop (length es - cap) (number 0 es).
Proof.
  intros Hlen cap. induction es as [|e es IH] using rev_ind.
  { cbv zeta. simpl. split_and!; [done| |done]. destruct (Z.ltb_spec c 1); lia. }
  assert (lenN es < two64) as Hlen'.
  { unfold lenN in *. rewrite length_app in Hlen. simpl in Hlen. lia. }
  destruct (IH Hlen') as (Hn&Hc&Hi). cbv zeta in *.
  unfold publish_all in *. rewrite fold_left_app. simpl.
  set (b := fold_left _ es _) in *. unfold Publish.
  assert (add64 (b_next b) 1 = lenN es + 1) as Hadd.
  { rewrite Hn. apply add64_small. unfold lenN in *. rewrite length_app in Hlen. simpl in Hlen. lia. }
  assert (lenN (es ++ [e]) = lenN es + 1) as Hl.
  { unfold lenN. rewrite length_app. simpl. lia. }
  split_and!; simpl; [by rewrite Hadd|done|].
  rewrite Hadd, number_app, length_app, N.add_0_l. simpl.
  assert (1 ≤ cap)%nat as Hcap by lia.
  rewrite Hi, Hc. rewrite length_drop, length_number.
  destruct (Z.eqb_spec (Z.of_nat (length es - (length es - cap))) (Z.max 1 c)) as [He|He].
  - replace (length es + 1 - cap)%nat with (S (length es - cap)) by lia.
    rewrite <-drop_S_tail.
    rewrite drop_app_le by (rewrite length_number; lia). done.
  - replace (length es + 1 - cap)%nat with (length es - cap)%nat by lia.
    rewrite drop_app_le by (rewrite length_number; lia). done.
Qed.

(** ** Properties *)

(** The buffer never exceeds its capacity and never loses an event a
    reader can still expect: after any [es] have been published, a reader that
    has seen the first [id] events gets all the later ones, numbered
    consecutively from [id + 1], as long as it is at most [capacity] events
    behind; one that is further behind gets the last [capacity] events, so the
    first number it sees betrays the gap. *)
Theorem After_complete c es id :
  lenN es < two64 → id ≤ lenN es →
  let cap := Z.to_nat (Z.max 1 c) in
  let b := publish_all es (NewBuffer c) in
  (length (b_items b) ≤ cap)%nat ∧
  After id b = drop (Nat.max (N.to_nat id) (length es - cap)) (number 0 es).
Proof.
  intros Hlen Hid cap b.
  destruct (publish_all_items c es Hlen) as (_&_&Hi). fold cap b in Hi.
  split.
  - rewrite Hi, length_drop, length_number. lia.
  - unfold After. rewrite Hi.
    pose proof (take_drop (length es - cap) (number 0 es)) as Htd.
    pose proof (filter_number 0 es (N.to_nat id)) as Hf.
    rewrite N.add_0_l, N2Nat.id in Hf.
    destruct (decide (N.to_nat id ≤ length es - cap)%nat) as [Hle|Hgt].
    + rewrite Nat.max_r by done.
      apply filter_all. intros e He.
      apply list_elem_of_lookup in He as [i He]. rewrite lookup_drop in He.
      apply number_lookup in He. lia.
    + rewrite Nat.max_l by lia. rewrite <-Hf. symmetry.
      rewrite <-Htd at 1. rewrite filter_app.
      rewrite (filter_none _ (take _ _)); [done|].
      intros e He. apply list_elem_of_lookup in He as [i He].
      apply lookup_take_Some in He as [He Hi']. apply number_lookup in He. lia.
Qed.

(** ** Witness *)

Definition ex_event : Event := mkEvent 0 0 "node-1" "APPLIED" 1 1 "" "" "".

Lemma After_complete_witness :
  (length (b_items (publish_all [ex_event; ex_event; ex_event] (NewBuffer 2))) ≤ 2)%nat ∧
  After 1 (publish_all [ex_event; ex_event; ex_event] (NewBuffer 2)) =
    [set_ID 2 ex_event; set_ID 3 ex_event].
Proof.
  apply (After_complete 2 [ex_event; ex_event; ex_event] 1); vm_compute; congruence.
Defined.
