(* ===== verification/Node.v ===== *)
(** * Node: one member of the Raft group
    (src/internal/raft/node.go, rpc.go, runtime.go, types.go)

    The node's fields are the record [Node]; every method that runs under the
    node's mutex is a computation in the monad [M Node], so a method is one
    atomic step.  [None] stands for a run that does not return: an index out of
    range, or a send on a channel that is full.

    Time and randomness come from the [Runtime]: the readings of the clock and
    the random draws are sequences, read one after the other.  A live node
    (Manual = false) hands its requests to goroutines; the requests it has
    started and not yet answered are kept in [n_calls], and a goroutine's return
    is the handler it runs then.  Logging has no effect on the state. *)

From stdpp Require Import base numbers list gmap strings fin_maps pretty sorting options.
From S2P Require Import Prelude Effects Urls StateMachine Wal Journal Store Events.

Local Open Scope N_scope.

(** ** Data (types.go) *)

Record Peer := mkPeer { p_ID : string; p_PeerURL : string; p_ClientURL : string }.

Definition zeroPeer : Peer := mkPeer "" "" "".

(** The membership file (config.go). *)
Record Membership := mkMembership { mm_ClusterID : string; mm_Peers : list Peer }.

(** Durations are nanoseconds. *)
Record Config := mkConfig {
  cfg_ID : string;
  cfg_ClusterID : string;
  cfg_DataDir : string;
  cfg_Peers : list Peer;
  cfg_FixedLeader : string;
  cfg_ElectionMin : Z;
  cfg_ElectionMax : Z;
  cfg_Heartbeat : Z;
  cfg_RPCTimeout : Z;
  cfg_RequestTimeout : Z;
  cfg_SnapshotEvery : N;
}.

Record VoteRequest := mkVoteRequest {
  vq_MessageID : string;
  vq_ClusterID : string;
  vq_Term : N;
  vq_CandidateID : string;
  vq_LastLogIndex : N;
  vq_LastLogTerm : N;
}.

Record VoteResponse := mkVoteResponse { vr_Term : N; vr_Granted : bool }.

Record AppendRequest := mkAppendRequest {
  aq_MessageID : string;
  aq_ClusterID : string;
  aq_Term : N;
  aq_LeaderID : string;
  aq_PrevLogIndex : N;
  aq_PrevLogTerm : N;
  aq_Entries : list Entry;
  aq_LeaderCommit : N;
}.

Record AppendResponse := mkAppendResponse {
  ar_Term : N;
  ar_Success : bool;
  ar_MatchIndex : N;
  ar_ConflictIndex : N;
}.

Record Status := mkStatus {
  sx_NodeID : string;
  sx_Mode : string;
  sx_Role : string;
  sx_Term : N;
  sx_LeaderID : string;
  sx_LeaderURL : string;
  sx_LastLogIndex : N;
  sx_CommitIndex : N;
  sx_LastApplied : N;
  sx_Keys : nat;
  sx_AppliedOperations : N;
  sx_SnapshotIndex : N;
  sx_Healthy : bool;
  sx_Paused : bool;
  sx_Peers : list Peer;
}.

(** ** Data (runtime.go, node.go) *)

Record Message := mkMessage {
  m_Sequence : N;
  m_From : string;
  m_To : string;
  m_Vote : option VoteRequest;
  m_Append : option AppendRequest;
}.

(** The [i]-th reading of the clock and the [i]-th draw below a bound. *)
Record Runtime := mkRuntime {
  rt_Manual : bool;
  rt_Now : N → Z;
  rt_Int64N : N → Z → Z;
}.

Record outcome := mkOutcome { o_result : Result; o_err : option error }.

#[export] Instance outcome_eq_dec : EqDecision outcome.
Proof. solve_decision. Defined.

(** A channel of capacity one is known by its number. *)
Record waiter := mkWaiter { w_readKey : option string; w_done : N }.
Record Ticket := mkTicket { t_Index : N; t_done : N }.

Inductive role := follower | candidate | leader.

#[export] Instance role_eq_dec : EqDecision role.
Proof. solve_decision. Defined.

Definition role_string (r : role) : string :=
  match r with follower => "follower" | candidate => "candidate" | leader => "leader" end.

Record Node (J : Type) := mkNode {
  n_cfg : Config;
  n_peers : gmap string Peer;
  n_rt : Runtime;
  n_bootID : string;
  n_store : diskStore J;
  n_machine : Machine;
  n_role : role;
  n_leader : string;
  n_applied : N;
  n_next : gmap string N;
  n_match : gmap string N;
  n_wake : gmap string bool;
  n_pending : gmap N waiter;
  n_deadline : Z;
  n_failed : option error;
  n_closed : bool;
  n_outbox : list Message;
  n_busy : gmap string N;
  n_votes : gmap string bool;
  n_sequence : N;
  n_paused : bool;
  n_events : Buffer;
  n_calls : list (Peer * VoteRequest);
  n_chans : gmap N (option outcome);
  n_newchan : N;
  n_reads : N;
  n_draws : N;
}.

Arguments mkNode {J}.
Arguments n_cfg {J}.
Arguments n_peers {J}.
Arguments n_rt {J}.
Arguments n_bootID {J}.
Arguments n_store {J}.
Arguments n_machine {J}.
Arguments n_role {J}.
Arguments n_leader {J}.
Arguments n_applied {J}.
Arguments n_next {J}.
Arguments n_match {J}.
Arguments n_wake {J}.
Arguments n_pending {J}.
Arguments n_deadline {J}.
Arguments n_failed {J}.
Arguments n_closed {J}.
Arguments n_outbox {J}.
Arguments n_busy {J}.
Arguments n_votes {J}.
Arguments n_sequence {J}.
Arguments n_paused {J}.
Arguments n_events {J}.
Arguments n_calls {J}.
Arguments n_chans {J}.
Arguments n_newchan {J}.
Arguments n_reads {J}.
Arguments n_draws {J}.

(** Assignments to the fields. *)

Section fields.
Context {J : Type}.
Implicit Type n : Node J.

Definition set_nstore (x : diskStore J) n : Node J :=
  mkNode (n_cfg n) (n_peers n) (n_rt n) (n_bootID n) x (n_machine n) (n_role n) (n_leader n)
    (n_applied n) (n_next n) (n_match n) (n_wake n) (n_pending n) (n_deadline n) (n_failed
    n) (n_closed n) (n_outbox n) (n_busy n) (n_votes n) (n_sequence n) (n_paused n)
    (n_events n) (n_calls n) (n_chans n) (n_newchan n) (n_reads n) (n_draws n).
Definition set_machine (x : Machine) n : Node J :=
  mkNode (n_cfg n) (n_peers n) (n_rt n) (n_bootID n) (n_store n) x (n_role n) (n_leader n)
    (n_applied n) (n_next n) (n_match n) (n_wake n) (n_pending n) (n_deadline n) (n_failed
    n) (n_closed n) (n_outbox n) (n_busy n) (n_votes n) (n_sequence n) (n_paused n)
    (n_events n) (n_calls n) (n_chans n) (n_newchan n) (n_reads n) (n_draws n).
Definition set_role (x : role) n : Node J :=
  mkNode (n_cfg n) (n_peers n) (n_rt n) (n_bootID n) (n_store n) (n_machine n) x (n_leader
    n) (n_applied n) (n_next n) (n_match n) (n_wake n) (n_pending n) (n_deadline n)
    (n_failed n) (n_closed n) (n_outbox n) (n_busy n) (n_votes n) (n_sequence n) (n_paused
    n) (n_events n) (n_calls n) (n_chans n) (n_newchan n) (n_reads n) (n_draws n).
Definition set_leader (x : string) n : Node J :=
  mkNode (n_cfg n) (n_peers n) (n_rt n) (n_bootID n) (n_store n) (n_machine n) (n_role n) x
    (n_applied n) (n_next n) (n_match n) (n_wake n) (n_pending n) (n_deadline n) (n_failed
    n) (n_closed n) (n_outbox n) (n_busy n) (n_votes n) (n_sequence n) (n_paused n)
    (n_events n) (n_calls n) (n_chans n) (n_newchan n) (n_reads n) (n_draws n).
Definition set_applied (x : N) n : Node J :=
  mkNode (n_cfg n) (n_peers n) (n_rt n) (n_bootID n) (n_store n) (n_machine n) (n_role n)
    (n_leader n) x (n_next n) (n_match n) (n_wake n) (n_pending n) (n_deadline n) (n_failed
    n) (n_closed n) (n_outbox n) (n_busy n) (n_votes n) (n_sequence n) (n_paused n)
    (n_events n) (n_calls n) (n_chans n) (n_newchan n) (n_reads n) (n_draws n).
Definition set_next (x : gmap string N) n : Node J :=
  mkNode (n_cfg n) (n_peers n) (n_rt n) (n_bootID n) (n_store n) (n_machine n) (n_role n)
    (n_leader n) (n_applied n) x (n_match n) (n_wake n) (n_pending n) (n_deadline n)
    (n_failed n) (n_closed n) (n_outbox n) (n_busy n) (n_votes n) (n_sequence n) (n_paused
    n) (n_events n) (n_calls n) (n_chans n) (n_newchan n) (n_reads n) (n_draws n).
Definition set_match (x : gmap string N) n : Node J :=
  mkNode (n_cfg n) (n_peers n) (n_rt n) (n_bootID n) (n_store n) (n_machine n) (n_role n)
    (n_leader n) (n_applied n) (n_next n) x (n_wake n) (n_pending n) (n_deadline n)
    (n_failed n) (n_closed n) (n_outbox n) (n_busy n) (n_votes n) (n_sequence n) (n_paused
    n) (n_events n) (n_calls n) (n_chans n) (n_newchan n) (n_reads n) (n_draws n).
Definition set_wake (x : gmap string bool) n : Node J :=
  mkNode (n_cfg n) (n_peers n) (n_rt n) (n_bootID n) (n_store n) (n_machine n) (n_role n)
    (n_leader n) (n_applied n) (n_next n) (n_match n) x (n_pending n) (n_deadline n)
    (n_failed n) (n_closed n) (n_outbox n) (n_busy n) (n_votes n) (n_sequence n) (n_paused
    n) (n_events n) (n_calls n) (n_chans n) (n_newchan n) (n_reads n) (n_draws n).
Definition set_pending (x : gmap N waiter) n : Node J :=
  mkNode (n_cfg n) (n_peers n) (n_rt n) (n_bootID n) (n_store n) (n_machine n) (n_role n)
    (n_leader n) (n_applied n) (n_next n) (n_match n) (n_wake n) x (n_deadline n) (n_failed
    n) (n_closed n) (n_outbox n) (n_busy n) (n_votes n) (n_sequence n) (n_paused n)
    (n_events n) (n_calls n) (n_chans n) (n_newchan n) (n_reads n) (n_draws n).
Definition set_deadline (x : Z) n : Node J :=
  mkNode (n_cfg n) (n_peers n) (n_rt n) (n_bootID n) (n_store n) (n_machine n) (n_role n)
    (n_leader n) (n_applied n) (n_next n) (n_match n) (n_wake n) (n_pending n) x (n_failed
    n) (n_closed n) (n_outbox n) (n_busy n) (n_votes n) (n_sequence n) (n_paused n)
    (n_events n) (n_calls n) (n_chans n) (n_newchan n) (n_reads n) (n_draws n).
Definition set_failed (x : option error) n : Node J :=
  mkNode (n_cfg n) (n_peers n) (n_rt n) (n_bootID n) (n_store n) (n_machine n) (n_role n)
    (n_leader n) (n_applied n) (n_next n) (n_match n) (n_wake n) (n_pending n) (n_deadline
    n) x (n_closed n) (n_outbox n) (n_busy n) (n_votes n) (n_sequence n) (n_paused n)
    (n_events n) (n_calls n) (n_chans n) (n_newchan n) (n_reads n) (n_draws n).
Definition set_closed (x : bool) n : Node J :=
  mkNode (n_cfg n) (n_peers n) (n_rt n) (n_bootID n) (n_store n) (n_machine n) (n_role n)
    (n_leader n) (n_applied n) (n_next n) (n_match n) (n_wake n) (n_pending n) (n_deadline
    n) (n_failed n) x (n_outbox n) (n_busy n) (n_votes n) (n_sequence n) (n_paused n)
    (n_events n) (n_calls n) (n_chans n) (n_newchan n) (n_reads n) (n_draws n).
Definition set_outbox (x : list Message) n : Node J :=
  mkNode (n_cfg n) (n_peers n) (n_rt n) (n_bootID n) (n_store n) (n_machine n) (n_role n)
    (n_leader n) (n_applied n) (n_next n) (n_match n) (n_wake n) (n_pending n) (n_deadline
    n) (n_failed n) (n_closed n) x (n_busy n) (n_votes n) (n_sequence n) (n_paused n)
    (n_events n) (n_calls n) (n_chans n) (n_newchan n) (n_reads n) (n_draws n).
Definition set_busy (x : gmap string N) n : Node J :=
  mkNode (n_cfg n) (n_peers n) (n_rt n) (n_bootID n) (n_store n) (n_machine n) (n_role n)
    (n_leader n) (n_applied n) (n_next n) (n_match n) (n_wake n) (n_pending n) (n_deadline
    n) (n_failed n) (n_closed n) (n_outbox n) x (n_votes n) (n_sequence n) (n_paused n)
    (n_events n) (n_calls n) (n_chans n) (n_newchan n) (n_reads n) (n_draws n).
Definition set_votes (x : gmap string bool) n : Node J :=
  mkNode (n_cfg n) (n_peers n) (n_rt n) (n_bootID n) (n_store n) (n_machine n) (n_role n)
    (n_leader n) (n_applied n) (n_next n) (n_match n) (n_wake n) (n_pending n) (n_deadline
    n) (n_failed n) (n_closed n) (n_outbox n) (n_busy n) x (n_sequence n) (n_paused n)
    (n_events n) (n_calls n) (n_chans n) (n_newchan n) (n_reads n) (n_draws n).
Definition set_sequence (x : N) n : Node J :=
  mkNode (n_cfg n) (n_peers n) (n_rt n) (n_bootID n) (n_store n) (n_machine n) (n_role n)
    (n_leader n) (n_applied n) (n_next n) (n_match n) (n_wake n) (n_pending n) (n_deadline
    n) (n_failed n) (n_closed n) (n_outbox n) (n_busy n) (n_votes n) x (n_paused n)
    (n_events n) (n_calls n) (n_chans n) (n_newchan n) (n_reads n) (n_draws n).
Definition set_paused (x : bool) n : Node J :=
  mkNode (n_cfg n) (n_peers n) (n_rt n) (n_bootID n) (n_store n) (n_machine n) (n_role n)
    (n_leader n) (n_applied n) (n_next n) (n_match n) (n_wake n) (n_pending n) (n_deadline
    n) (n_failed n) (n_closed n) (n_outbox n) (n_busy n) (n_votes n) (n_sequence n) x
    (n_events n) (n_calls n) (n_chans n) (n_newchan n) (n_reads n) (n_draws n).
Definition set_events (x : Buffer) n : Node J :=
  mkNode (n_cfg n) (n_peers n) (n_rt n) (n_bootID n) (n_store n) (n_machine n) (n_role n)
    (n_leader n) (n_applied n) (n_next n) (n_match n) (n_wake n) (n_pending n) (n_deadline
    n) (n_failed n) (n_closed n) (n_outbox n) (n_busy n) (n_votes n) (n_sequence n)
    (n_paused n) x (n_calls n) (n_chans n) (n_newchan n) (n_reads n) (n_draws n).
Definition set_calls (x : list (Peer * VoteRequest)) n : Node J :=
  mkNode (n_cfg n) (n_peers n) (n_rt n) (n_bootID n) (n_store n) (n_machine n) (n_role n)
    (n_leader n) (n_applied n) (n_next n) (n_match n) (n_wake n) (n_pending n) (n_deadline
    n) (n_failed n) (n_closed n) (n_outbox n) (n_busy n) (n_votes n) (n_sequence n)
    (n_paused n) (n_events n) x (n_chans n) (n_newchan n) (n_reads n) (n_draws n).
Definition set_chans (x : gmap N (option outcome)) n : Node J :=
  mkNode (n_cfg n) (n_peers n) (n_rt n) (n_bootID n) (n_store n) (n_machine n) (n_role n)
    (n_leader n) (n_applied n) (n_next n) (n_match n) (n_wake n) (n_pending n) (n_deadline
    n) (n_failed n) (n_closed n) (n_outbox n) (n_busy n) (n_votes n) (n_sequence n)
    (n_paused n) (n_events n) (n_calls n) x (n_newchan n) (n_reads n) (n_draws n).
Definition set_newchan (x : N) n : Node J :=
  mkNode (n_cfg n) (n_peers n) (n_rt n) (n_bootID n) (n_store n) (n_machine n) (n_role n)
    (n_leader n) (n_applied n) (n_next n) (n_match n) (n_wake n) (n_pending n) (n_deadline
    n) (n_failed n) (n_closed n) (n_outbox n) (n_busy n) (n_votes n) (n_sequence n)
    (n_paused n) (n_events n) (n_calls n) (n_chans n) x (n_reads n) (n_draws n).
Definition set_reads (x : N) n : Node J :=
  mkNode (n_cfg n) (n_peers n) (n_rt n) (n_bootID n) (n_store n) (n_machine n) (n_role n)
    (n_leader n) (n_applied n) (n_next n) (n_match n) (n_wake n) (n_pending n) (n_deadline
    n) (n_failed n) (n_closed n) (n_outbox n) (n_busy n) (n_votes n) (n_sequence n)
    (n_paused n) (n_events n) (n_calls n) (n_chans n) (n_newchan n) x (n_draws n).
Definition set_draws (x : N) n : Node J :=
  mkNode (n_cfg n) (n_peers n) (n_rt n) (n_bootID n) (n_store n) (n_machine n) (n_role n)
    (n_leader n) (n_applied n) (n_next n) (n_match n) (n_wake n) (n_pending n) (n_deadline
    n) (n_failed n) (n_closed n) (n_outbox n) (n_busy n) (n_votes n) (n_sequence n)
    (n_paused n) (n_events n) (n_calls n) (n_chans n) (n_newchan n) (n_reads n) x.

End fields.

(** ** Reading the state *)

Section node.
Context {J : Type} `{HJ : Journal J, HC : Codec record}.
Implicit Type n : Node J.

Definition n_state n : durableState := st_state (n_store n).
Definition lastLocked n : N := last (n_store n).
Definition entryLocked n (index : N) : option Entry := entry (n_store n) index.
Definition availableLocked n : bool :=
  negb (n_closed n) && negb (n_paused n) && bool_decide (n_failed n = None).
Definition peer_of n (id : string) : Peer := default zeroPeer (n_peers n !! id).
Definition next_of n (id : string) : N := default 0 (n_next n !! id).
Definition match_of n (id : string) : N := default 0 (n_match n !! id).
Definition leaderErrorLocked n : error :=
  NotLeaderError (n_leader n) (p_ClientURL (peer_of n (n_leader n))).

Definition member n (id cluster : string) : bool :=
  bool_decide (is_Some (n_peers n !! id)) && bool_decide (id ≠ cfg_ID (n_cfg n)) &&
  bool_decide (cluster = cfg_ClusterID (n_cfg n)).

(** The other members, in the order of the configuration. *)
Definition others n : list Peer :=
  filter (λ p, p_ID p ≠ cfg_ID (n_cfg n)) (cfg_Peers (n_cfg n)).

(** [len(n.peers)/2] *)
Definition half n : nat := Nat.div (size (n_peers n)) 2.

(** ** Clock, randomness, channels *)

Definition now : M (Node J) Z :=
  n ← get; modify (set_reads (n_reads n + 1)) ;; mret (rt_Now (n_rt n) (n_reads n)).

Definition random (bound : Z) : M (Node J) Z :=
  n ← get; modify (set_draws (n_draws n + 1)) ;; mret (rt_Int64N (n_rt n) (n_draws n) bound).

Definition make_chan : M (Node J) N :=
  n ← get;
  modify (set_chans (<[n_newchan n := None]> (n_chans n))) ;;
  modify (set_newchan (n_newchan n + 1)) ;;
  mret (n_newchan n).

(** Sending on a full channel blocks for ever: the buffer holds one outcome. *)
Definition send (c : N) (out : outcome) : M (Node J) unit :=
  n ← get;
  match n_chans n !! c with
  | Some None => modify (set_chans (<[c := Some out]> (n_chans n)))
  | _ => panic
  end.

(** ** Helpers that run under the mutex *)

Definition emitLocked (kind : string) (index : N) (peer message detail : string)
    : M (Node J) unit :=
  t ← now;
  n ← get;
  modify (set_events (Publish
    (mkEvent 0 t (cfg_ID (n_cfg n)) kind (ds_term (n_state n)) index peer message detail)
    (n_events n))).

Definition resetTimerLocked : M (Node J) unit :=
  t ← now;
  n ← get;
  r ← random (cfg_ElectionMax (n_cfg n) - cfg_ElectionMin (n_cfg n))%Z;
  modify (set_deadline (t + (cfg_ElectionMin (n_cfg n) + r))%Z).

Definition fail_waiter (err : error) (iw : N * waiter) : M (Node J) unit :=
  let '(index, w) := iw in
  send (w_done w) (mkOutcome zeroResult (Some err)) ;;
  n ← get; modify (set_pending (delete index (n_pending n))).

Definition failPendingLocked (err : error) : M (Node J) unit :=
  n ← get; for_each (fail_waiter err) (map_to_list (n_pending n)).

Definition persistLocked (term : N) (vote : string) (commit from : N) (entries : list Entry)
    : M (Node J) bool :=
  err ← zoom n_store set_nstore (save term vote commit from entries);
  match err with
  | Some err =>
    modify (set_failed (Some err)) ;;
    emitLocked "DISK_ERROR" 0 "" "" "" ;;
    modify (set_role follower) ;;
    modify (set_leader "") ;;
    failPendingLocked ErrUnavailable ;;
    mret false
  | None => mret true
  end.

Definition stepDownLocked (term : N) (leader : string) : M (Node J) bool :=
  n ← get;
  let changed := bool_decide (n_role n ≠ follower) || (ds_term (n_state n) <? term) in
  ok ← (if ds_term (n_state n) <? term
        then persistLocked term "" (ds_commit (n_state n)) 0 [] else mret true);
  if negb ok then mret false
  else
    modify (set_role follower) ;;
    modify (set_leader leader) ;;
    when changed (emitLocked "STEPPED_DOWN" 0 leader "" "") ;;
    n ← get;
    failPendingLocked (leaderErrorLocked n) ;;
    mret true.

(** [n.store.checkpoint] under the node. *)
Definition maybeSnapshotLocked : M (Node J) unit :=
  n ← get;
  let d := n_state n in
  if (cfg_SnapshotEvery (n_cfg n) =? 0) ||
     (sub64 (ds_commit d) (ds_base d) <? cfg_SnapshotEvery (n_cfg n)) ||
     bool_decide (n_role n ≠ leader)
  then mret tt
  else if existsb (λ '(id, _), bool_decide (id ≠ cfg_ID (n_cfg n)) && (match_of n id <? ds_commit d))
            (map_to_list (n_peers n))
  then mret tt
  else
    err ← zoom n_store set_nstore (store_checkpoint (takeSnapshot (n_machine n)) (ds_commit d));
    match err with
    | Some err =>
      modify (set_failed (Some err)) ;;
      modify (set_role follower) ;;
      modify (set_leader "") ;;
      failPendingLocked ErrUnavailable ;;
      emitLocked "DISK_ERROR" 0 "" "" ""
    | None =>
      n ← get; emitLocked "SNAPSHOT_CREATED" (ds_base (n_state n)) "" "" ""
    end.

(** One round of the loop of [applyLocked]. *)
Definition apply_one : M (Node J) unit :=
  n ← get;
  modify (set_applied (add64 (n_applied n) 1)) ;;
  n ← get;
  entry ← lift (entryLocked n (n_applied n));
  emitLocked "APPLIED" (n_applied n) "" "" "" ;;
  out ← match e_Command entry with
        | Some c =>
          n ← get;
          let '(m, (result, err)) := Apply (n_machine n) c in
          modify (set_machine m) ;; mret (mkOutcome result err)
        | None => mret (mkOutcome zeroResult None)
        end;
  n ← get;
  match n_pending n !! n_applied n with
  | None => mret tt
  | Some w =>
    let out :=
      match w_readKey w with
      | None => out
      | Some key =>
        let '(value, found) := Get (n_machine n) key in
        mkOutcome (mkResult value found (r_Applied (o_result out)) (r_Conflict (o_result out)))
          (o_err out)
      end in
    send (w_done w) out ;;
    modify (set_pending (delete (n_applied n) (n_pending n)))
  end.

(** The loop, one unit of fuel for each index up to the commit index. *)
Fixpoint apply_loop (fuel : nat) : M (Node J) unit :=
  match fuel with
  | O => mret tt
  | S fuel =>
    n ← get;
    if n_applied n <? ds_commit (n_state n) then apply_one ;; apply_loop fuel else mret tt
  end.

Definition applyLocked : M (Node J) unit :=
  n ← get;
  apply_loop (N.to_nat (ds_commit (n_state n) - n_applied n)) ;;
  maybeSnapshotLocked.

(** *** Replication, the leader's side *)

(** The batching loop of [prepareAppendLocked]: the end of the batch. *)
Fixpoint batch_end (fuel : nat) n (next end_ bytes : N) : option N :=
  match fuel with
  | O => Some end_
  | S fuel =>
    if (end_ <=? lastLocked n) && (sub64 end_ next <? 32) then
      e ← entryLocked n end_;
      let size :=
        match e_Command e with
        | Some c => 1024 + 6 * (strlenN (c_Key c) + strlenN (c_Value c) +
                                strlenN (c_Expected c) + strlenN (c_ClientID c))
        | None => 1024
        end in
      if 15728640 <? bytes + size then Some end_
      else batch_end fuel n next (add64 end_ 1) (bytes + size)
    else Some end_
  end.

(** [for i := next; i < end; i++] *)
Fixpoint entries_between (fuel : nat) n (i end_ : N) : option (list Entry) :=
  match fuel with
  | O => Some []
  | S fuel =>
    if i <? end_ then
      e ← entryLocked n i; es ← entries_between fuel n (add64 i 1) end_; Some (e :: es)
    else Some []
  end.

Definition message_id n (sequence : N) : string := n_bootID n +:+ "/" +:+ pretty sequence.

Definition next_sequence : M (Node J) N :=
  n ← get; modify (set_sequence (add64 (n_sequence n) 1)) ;; gets n_sequence.

Definition prepareAppendLocked (peer : Peer) : M (Node J) AppendRequest :=
  n ← get;
  let d := n_state n in
  let next := N.max 1 (next_of n (p_ID peer)) in
  let next := N.min next (add64 (lastLocked n) 1) in
  end_ ← lift (batch_end 33 n next next 1024);
  let prev := sub64 next 1 in
  let '(prev, next) := if prev <? ds_base d then (ds_base d, add64 (ds_base d) 1) else (prev, next) in
  (* make panics when the capacity end-next is negative *)
  if end_ <? next then panic
  else
  entries ← lift (entries_between (N.to_nat (end_ - next)) n next end_);
  previous ← lift (entryLocked n prev);
  sequence ← next_sequence;
  let req := mkAppendRequest (message_id n sequence) (cfg_ClusterID (n_cfg n)) (ds_term d)
               (cfg_ID (n_cfg n)) prev (e_Term previous) (cloneEntries entries) (ds_commit d) in
  emitLocked "APPEND_SENT" (add64 prev (lenN entries)) (p_ID peer) (aq_MessageID req) "" ;;
  mret req.

Definition busy_of n (id : string) : N := default 0 (n_busy n !! id).

Definition queueAppendLocked (peer : Peer) : M (Node J) unit :=
  n ← get;
  if negb (busy_of n (p_ID peer) =? 0) || negb (availableLocked n) || bool_decide (n_role n ≠ leader)
  then mret tt
  else
    req ← prepareAppendLocked peer;
    n ← get;
    modify (set_busy (<[p_ID peer := n_sequence n]> (n_busy n))) ;;
    modify (set_outbox (n_outbox n ++
      [mkMessage (n_sequence n) (cfg_ID (n_cfg n)) (p_ID peer) None (Some req)])).

(** A live node wakes its replicators, whose channels hold one token. *)
Definition kickLocked : M (Node J) unit :=
  n ← get;
  if rt_Manual (n_rt n) then for_each queueAppendLocked (others n)
  else modify (set_wake ((λ _, true) <$> n_wake n)).

(** The votes for an index: its own and those of the peers that match it. *)
Definition replicas n (index : N) : nat :=
  S (length (filter (λ x, x.1 ≠ cfg_ID (n_cfg n) ∧ index ≤ match_of n x.1)
       (map_to_list (n_peers n)))).

(** The search of [advanceCommitLocked] from [index] down to the commit index:
    the index to commit. *)
Fixpoint commit_index (fuel : nat) n (index : N) : option (option N) :=
  match fuel with
  | O => Some None
  | S fuel =>
    if ds_commit (n_state n) <? index then
      e ← entryLocked n index;
      if negb (e_Term e =? ds_term (n_state n)) then commit_index fuel n (sub64 index 1)
      else if (half n <? replicas n index)%nat then Some (Some index)
      else commit_index fuel n (sub64 index 1)
    else Some None
  end.

Definition advanceCommitLocked : M (Node J) unit :=
  n ← get;
  let d := n_state n in
  if bool_decide (n_role n ≠ leader) || negb (availableLocked n) then mret tt
  else
    found ← lift (commit_index (N.to_nat (lastLocked n - ds_commit d)) n (lastLocked n));
    match found with
    | None => mret tt
    | Some index =>
      ok ← persistLocked (ds_term d) (ds_vote d) index 0 [];
      when ok (emitLocked "COMMITTED" index "" "" "" ;; applyLocked ;; kickLocked)
    end.

(** The loop over the peers sets [next] and [match] for every member. *)
Definition becomeLeaderLocked : M (Node J) unit :=
  modify (set_role leader) ;;
  n ← get;
  modify (set_leader (cfg_ID (n_cfg n))) ;;
  emitLocked "LEADER_ELECTED" 0 "" "" "" ;;
  n ← get;
  modify (set_next (((λ _, add64 (lastLocked n) 1) <$> n_peers n) ∪ n_next n)) ;;
  modify (set_match (((λ _, 0) <$> n_peers n) ∪ n_match n)) ;;
  n ← get;
  let d := n_state n in
  let entry := mkEntry (add64 (lastLocked n) 1) (ds_term d) None in
  ok ← persistLocked (ds_term d) (ds_vote d) (ds_commit d) (e_Index entry) [entry];
  when ok
    (n ← get;
     modify (set_match (<[cfg_ID (n_cfg n) := e_Index entry]> (n_match n))) ;;
     advanceCommitLocked ;;
     kickLocked).

(** Sending one vote request: into the outbox, or as a goroutine's call. *)
Definition send_vote (req : VoteRequest) (peer : Peer) : M (Node J) unit :=
  sequence ← next_sequence;
  n ← get;
  let request := mkVoteRequest (message_id n sequence) (vq_ClusterID req) (vq_Term req)
                   (vq_CandidateID req) (vq_LastLogIndex req) (vq_LastLogTerm req) in
  emitLocked "VOTE_SENT" 0 (p_ID peer) (vq_MessageID request) "" ;;
  n ← get;
  if rt_Manual (n_rt n) then
    modify (set_outbox (n_outbox n ++
      [mkMessage (n_sequence n) (cfg_ID (n_cfg n)) (p_ID peer) (Some request) None]))
  else modify (set_calls (n_calls n ++ [(peer, request)])).

Definition startElectionLocked : M (Node J) unit :=
  n ← get;
  let d := n_state n in
  let term := add64 (ds_term d) 1 in
  ok ← persistLocked term (cfg_ID (n_cfg n)) (ds_commit d) 0 [];
  if negb ok then mret tt
  else
    modify (set_role candidate) ;;
    modify (set_leader "") ;;
    resetTimerLocked ;;
    n ← get;
    modify (set_votes {[ cfg_ID (n_cfg n) := true ]}) ;;
    emitLocked "ELECTION_STARTED" 0 "" "" "" ;;
    n ← get;
    if (half n <? size (n_votes n))%nat then becomeLeaderLocked
    else
      e ← lift (entryLocked n (lastLocked n));
      let req := mkVoteRequest "" (cfg_ClusterID (n_cfg n)) term (cfg_ID (n_cfg n))
                   (lastLocked n) (e_Term e) in
      for_each (send_vote req) (others n).

(** ** The methods: RPC handlers *)

Definition vote_response (granted : bool) (err : option error)
    : M (Node J) (VoteResponse * option error) :=
  n ← get; mret (mkVoteResponse (ds_term (n_state n)) granted, err).

Definition RequestVote (req : VoteRequest) : M (Node J) (VoteResponse * option error) :=
  n ← get;
  if negb (availableLocked n) then vote_response false (Some ErrUnavailable)
  else if negb (member n (vq_CandidateID req) (vq_ClusterID req))
  then vote_response false (Some (ErrNew "unknown candidate or cluster"))
  else
  emitLocked "VOTE_RECEIVED" 0 (vq_CandidateID req) (vq_MessageID req) "" ;;
  if bool_decide (cfg_FixedLeader (n_cfg n) ≠ "") then vote_response false None
  else if vq_Term req <? ds_term (n_state n) then vote_response false None
  else
  ok ← (if ds_term (n_state n) <? vq_Term req then stepDownLocked (vq_Term req) "" else mret true);
  if negb ok then vote_response false (Some ErrUnavailable)
  else
  n ← get;
  lastEntry ← lift (entryLocked n (lastLocked n));
  let vote := ds_vote (n_state n) in
  let upToDate := (e_Term lastEntry <? vq_LastLogTerm req) ||
    (vq_LastLogTerm req =? e_Term lastEntry) && (e_Index lastEntry <=? vq_LastLogIndex req) in
  if upToDate && (bool_decide (vote = "") || bool_decide (vote = vq_CandidateID req)) then
    ok ← (if bool_decide (vote = "")
          then persistLocked (vq_Term req) (vq_CandidateID req) (ds_commit (n_state n)) 0 []
          else mret true);
    if negb ok then vote_response false (Some ErrUnavailable)
    else
      resetTimerLocked ;;
      emitLocked "VOTE_GRANTED" 0 (vq_CandidateID req) (vq_MessageID req) "" ;;
      vote_response true None
  else vote_response false None.

(** [response()] of [AppendEntries]. *)
Definition append_response (err : option error) : M (Node J) (AppendResponse * option error) :=
  n ← get;
  mret (mkAppendResponse (ds_term (n_state n)) false 0 (add64 (lastLocked n) 1), err).

Definition append_conflict (conflict : N) : M (Node J) (AppendResponse * option error) :=
  n ← get; mret (mkAppendResponse (ds_term (n_state n)) false 0 conflict, None).

(** The walk back to the first entry of the conflicting term. *)
Fixpoint conflict_index (fuel : nat) n (prev conflict : N) : option N :=
  match fuel with
  | O => Some conflict
  | S fuel =>
    if ds_base (n_state n) <? conflict then
      e ← entryLocked n (sub64 conflict 1);
      p ← entryLocked n prev;
      if e_Term e =? e_Term p then conflict_index fuel n prev (sub64 conflict 1)
      else Some conflict
    else Some conflict
  end.

(** The loop over the received entries: an error, or the first new entry with
    everything after it ([from] is zero when nothing is new). *)
Fixpoint new_entries n (req : AppendRequest) (i : N) (es : list Entry)
    : option (error + (N * list Entry)) :=
  match es with
  | [] => Some (inr (0, []))
  | e :: es' =>
    if negb (e_Index e =? add64 (add64 (aq_PrevLogIndex req) 1) i) ||
       (aq_Term req <? e_Term e) || (e_Term e =? 0)
    then Some (inl (ErrNew "malformed log entry"))
    else if e_Index e <=? ds_base (n_state n) then new_entries n req (i + 1) es'
    else if lastLocked n <? e_Index e then Some (inr (e_Index e, es))
    else
      mine ← entryLocked n (e_Index e);
      if negb (e_Term mine =? e_Term e) then Some (inr (e_Index e, es))
      else if bool_decide (e ≠ mine)
      then Some (inl (ErrNew "same index and term with different command"))
      else new_entries n req (i + 1) es'
  end.

(** The part of [AppendEntries] after the consistency check. *)
Definition append_entries (req : AppendRequest) : M (Node J) (AppendResponse * option error) :=
  n ← get;
  found ← lift (new_entries n req 0 (aq_Entries req));
  match found with
  | inl err => append_response (Some err)
  | inr (from, entries) =>
    let matched := add64 (aq_PrevLogIndex req) (lenN (aq_Entries req)) in
    let current := ds_commit (n_state n) in
    let commit := if current <? aq_LeaderCommit req
                  then N.max (N.min (aq_LeaderCommit req) matched) current else current in
    if negb (from =? 0) && (from <=? current)
    then append_response (Some (ErrNew "attempt to overwrite committed entry"))
    else
    let done :=
      n ← get; mret (mkAppendResponse (ds_term (n_state n)) true matched 0, None) in
    if negb (from =? 0) || negb (commit =? current) then
      when (negb (from =? 0) && (from <=? lastLocked n))
        (emitLocked "LOG_REPAIRED" from (aq_LeaderID req) (aq_MessageID req) "") ;;
      ok ← persistLocked (ds_term (n_state n)) (ds_vote (n_state n)) commit from entries;
      if negb ok then append_response (Some ErrUnavailable)
      else applyLocked ;; done
    else done
  end.

Definition AppendEntries (req : AppendRequest) : M (Node J) (AppendResponse * option error) :=
  n ← get;
  if negb (availableLocked n) then append_response (Some ErrUnavailable)
  else if negb (member n (aq_LeaderID req) (aq_ClusterID req)) ||
     (bool_decide (cfg_FixedLeader (n_cfg n) ≠ "") &&
      bool_decide (aq_LeaderID req ≠ cfg_FixedLeader (n_cfg n)))
  then append_response (Some (ErrNew "unknown leader or cluster"))
  else
  emitLocked "APPEND_RECEIVED" (aq_PrevLogIndex req) (aq_LeaderID req) (aq_MessageID req) "" ;;
  if aq_Term req <? ds_term (n_state n) then append_response None
  else
  ok ← stepDownLocked (aq_Term req) (aq_LeaderID req);
  if negb ok then append_response (Some ErrUnavailable)
  else
  resetTimerLocked ;;
  n ← get;
  if lastLocked n <? aq_PrevLogIndex req then append_response None
  else if aq_PrevLogIndex req <? ds_base (n_state n)
  then append_conflict (add64 (ds_base (n_state n)) 1)
  else
  p ← lift (entryLocked n (aq_PrevLogIndex req));
  if negb (e_Term p =? aq_PrevLogTerm req) then
    c ← lift (conflict_index (N.to_nat (aq_PrevLogIndex req - ds_base (n_state n))) n
                (aq_PrevLogIndex req) (aq_PrevLogIndex req));
    append_conflict c
  else append_entries req.

(** ** The methods: responses *)

Definition voteResponseLocked (peer : Peer) (req : VoteRequest) (resp : VoteResponse)
    (err : option error) : M (Node J) unit :=
  n ← get;
  if negb (availableLocked n) || bool_decide (err ≠ None) then mret tt
  else
  emitLocked "VOTE_RESPONSE" 0 (p_ID peer) (vq_MessageID req) "" ;;
  n ← get;
  let term := ds_term (n_state n) in
  if term <? vr_Term resp then _ ← stepDownLocked (vr_Term resp) ""; mret tt
  else if bool_decide (n_role n ≠ candidate) || negb (term =? vq_Term req) ||
          negb (vr_Term resp =? vq_Term req)
  then mret tt
  else
  when (vr_Granted resp)
    (modify (set_votes (<[p_ID peer := true]> (n_votes n))) ;;
     n ← get;
     when (half n <? size (n_votes n))%nat becomeLeaderLocked).

Definition acceptAppendLocked (peer : Peer) (req : AppendRequest) (resp : AppendResponse)
    (err : option error) : M (Node J) bool :=
  n ← get;
  if negb (availableLocked n) then mret false
  else
  (match err with
   | None => emitLocked "APPEND_RESPONSE" (ar_MatchIndex resp) (p_ID peer) (aq_MessageID req) ""
   | Some _ => emitLocked "RPC_FAILED" 0 (p_ID peer) (aq_MessageID req) ""
   end) ;;
  n ← get;
  let term := ds_term (n_state n) in
  if bool_decide (err = None) && (term <? ar_Term resp)
  then _ ← stepDownLocked (ar_Term resp) ""; mret false
  else if bool_decide (err ≠ None) || bool_decide (n_role n ≠ leader) ||
          negb (term =? aq_Term req) || negb (ar_Term resp =? aq_Term req)
  then mret false
  else if ar_Success resp then
    let matched := add64 (aq_PrevLogIndex req) (lenN (aq_Entries req)) in
    let m := N.max (match_of n (p_ID peer)) matched in
    modify (set_match (<[p_ID peer := m]> (n_match n))) ;;
    modify (set_next (<[p_ID peer := add64 m 1]> (n_next n))) ;;
    advanceCommitLocked ;;
    maybeSnapshotLocked ;;
    n ← get; mret (next_of n (p_ID peer) <=? lastLocked n)
  else
    let next := add64 (aq_PrevLogIndex req) 1 in
    if next <=? 1 then mret false
    else
      modify (set_next (<[p_ID peer := N.max 1 (N.min (sub64 next 1) (ar_ConflictIndex resp))]>
                          (n_next n))) ;;
      mret true.

(** A goroutine started by [startElectionLocked] returns. *)
Definition vote_returns (i : nat) (resp : VoteResponse) (err : option error) : M (Node J) unit :=
  n ← get;
  match n_calls n !! i with
  | None => mret tt
  | Some (peer, req) =>
    modify (set_calls (take i (n_calls n) ++ drop (S i) (n_calls n))) ;;
    voteResponseLocked peer req resp err
  end.

(** [replicateOnce] up to the call, and after it. *)
Definition replicate_call (peer : Peer) : M (Node J) (option AppendRequest) :=
  n ← get;
  if negb (availableLocked n) || bool_decide (n_role n ≠ leader) then mret None
  else req ← prepareAppendLocked peer; mret (Some req).

Definition replicate_return (peer : Peer) (req : AppendRequest) (resp : AppendResponse)
    (err : option error) : M (Node J) bool := acceptAppendLocked peer req resp err.

(** The replicator takes the token of its channel. *)
Definition take_wake (peer : Peer) : M (Node J) bool :=
  n ← get;
  if default false (n_wake n !! p_ID peer)
  then modify (set_wake (<[p_ID peer := false]> (n_wake n))) ;; mret true
  else mret false.

Definition DeliverVote (m : Message) (response : VoteResponse) (err : option error)
    : M (Node J) unit :=
  n ← get;
  match m_Vote m with
  | None => mret tt
  | Some req => voteResponseLocked (peer_of n (m_To m)) req response err
  end.

Definition DeliverAppend (m : Message) (response : AppendResponse) (err : option error)
    : M (Node J) unit :=
  n ← get;
  match m_Append m with
  | None => mret tt
  | Some req =>
    if negb (busy_of n (m_To m) =? m_Sequence m) then mret tt
    else
    modify (set_busy (delete (m_To m) (n_busy n))) ;;
    again ← acceptAppendLocked (peer_of n (m_To m)) req response err;
    n ← get;
    when again (queueAppendLocked (peer_of n (m_To m)))
  end.

Definition DrainMessages : M (Node J) (list Message) :=
  n ← get; modify (set_outbox []) ;; mret (n_outbox n).

(** ** The methods: clients and the operator *)

Definition submitLocked (command : option Command) (readKey : option string)
    : M (Node J) (error + Ticket) :=
  n ← get;
  let d := n_state n in
  if negb (availableLocked n) then mret (inl ErrUnavailable)
  else if bool_decide (n_role n ≠ leader) then mret (inl (leaderErrorLocked n))
  else
  match (match command with Some c => Validate c | None => None end) with
  | Some err => mret (inl err)
  | None =>
    if 256 <=? sub64 (lastLocked n) (ds_commit d) then mret (inl ErrNoQuorum)
    else
    let entry := mkEntry (add64 (lastLocked n) 1) (ds_term d) command in
    ok ← persistLocked (ds_term d) (ds_vote d) (ds_commit d) (e_Index entry) [entry];
    if negb ok then mret (inl ErrUnavailable)
    else
    c ← make_chan;
    n ← get;
    modify (set_pending (<[e_Index entry := mkWaiter readKey c]> (n_pending n))) ;;
    modify (set_match (<[cfg_ID (n_cfg n) := e_Index entry]> (n_match n))) ;;
    emitLocked "PROPOSED" (e_Index entry) "" "" "" ;;
    advanceCommitLocked ;;
    kickLocked ;;
    mret (inr (mkTicket (e_Index entry) c))
  end.

Definition Submit := submitLocked.

(** [Poll] receives without blocking. *)
Definition Poll (t : Ticket) : M (Node J) (option outcome) :=
  n ← get;
  match n_chans n !! t_done t with
  | Some (Some out) =>
    modify (set_chans (<[t_done t := None]> (n_chans n))) ;; mret (Some out)
  | _ => mret None
  end.

Definition Cancel (t : Ticket) : M (Node J) unit :=
  n ← get;
  match n_pending n !! t_Index t with
  | Some w =>
    when (w_done w =? t_done t) (modify (set_pending (delete (t_Index t) (n_pending n))))
  | None => mret tt
  end.

(** [propose]: the submission, and what ends the wait: the outcome, or the end
    of the context. *)
Definition propose_submit (ctx : option error) (command : option Command)
    (readKey : option string) : M (Node J) (error + Ticket) :=
  match ctx with
  | Some err => mret (inl err)
  | None => submitLocked command readKey
  end.

Definition propose_timeout (t : Ticket) (ctx : error) : M (Node J) (Result * option error) :=
  Cancel t ;; mret (zeroResult, Some (ErrJoin ErrNoQuorum ctx)).

Definition Execute (ctx : option error) (command : Command) : M (Node J) (error + Ticket) :=
  match Validate command with
  | Some err => mret (inl err)
  | None => propose_submit ctx (Some command) None
  end.

Definition GetKey (ctx : option error) (key : string) : M (Node J) (error + Ticket) :=
  if bool_decide (key = "") || (1024 <? strlenN key)
  then mret (inl (ErrInvalid "invalid command"))
  else propose_submit ctx None (Some key).

Definition Tick : M (Node J) unit :=
  n ← get;
  if negb (availableLocked n) then mret tt
  else if bool_decide (n_role n = leader) then kickLocked
  else if bool_decide (cfg_FixedLeader (n_cfg n) = "") then
    t ← now;
    when (negb (t <? n_deadline n)%Z) startElectionLocked
  else mret tt.

Definition SetPaused (paused : bool) : M (Node J) unit :=
  modify (set_paused paused) ;;
  (if paused then failPendingLocked ErrUnavailable
   else resetTimerLocked ;; kickLocked) ;;
  emitLocked (if paused then "PAUSED" else "RESUMED") 0 "" "" "".

Definition Close : M (Node J) (option error) :=
  n ← get;
  if n_closed n then mret None
  else
    modify (set_closed true) ;;
    failPendingLocked ErrUnavailable ;;
    zoom n_store set_nstore (zoom st_wal set_wal (λ w, Some (j_close w))).

(** ** Reports *)

Definition statusLocked n : Status :=
  let '(keys, operations) := Stats (n_machine n) in
  let d := n_state n in
  mkStatus (cfg_ID (n_cfg n))
    (if bool_decide (cfg_FixedLeader (n_cfg n) ≠ "") then "fixed-leader" else "raft")
    (role_string (n_role n)) (ds_term d) (n_leader n) (p_ClientURL (peer_of n (n_leader n)))
    (lastLocked n) (ds_commit d) (n_applied n) keys operations (ds_base d)
    (availableLocked n) (n_paused n) (cfg_Peers (n_cfg n)).

Record LogMeta := mkLogMeta {
  lm_Index : N;
  lm_Term : N;
  lm_Operation : string;
  lm_Key : string;
  lm_Committed : bool;
  lm_Applied : bool;
}.

(** The loop of [Inspect] over the tail of the log, hashes aside. *)
Fixpoint inspect_log (fuel : nat) n (i : N) : option (list LogMeta) :=
  match fuel with
  | O => Some []
  | S fuel =>
    if i <=? lastLocked n then
      e ← entryLocked n i;
      let '(operation, key) :=
        match e_Command e with Some c => (c_Operation c, c_Key c) | None => ("BARRIER", "") end in
      rest ← inspect_log fuel n (add64 i 1);
      Some (mkLogMeta i (e_Term e) operation key (i <=? ds_commit (n_state n))
              (i <=? n_applied n) :: rest)
    else Some []
  end.

(** The status, the redacted log and the events of [Inspect]. *)
Definition Inspect (after : N) n : option (Status * list LogMeta * list Event) :=
  let start := N.max 1 (sub64 (add64 (lastLocked n) 1) (N.min (lastLocked n) 100)) in
  log ← inspect_log 101 n start;
  Some (statusLocked n, log, After after (n_events n)).

(** ** Opening a node *)

(** What [OpenWithRuntime] uses of net/url, encoding/json and crypto/sha256: the
    parsing of URLs, and the digest of the cluster, the node, the sorted members
    and the election mode. *)
Class Platform := {
  platform_urls :: URLs;
  identity_of : string → string → list string → string → string;
}.

Definition valid_origin `{URLs} (address : string) : bool :=
  match Parse address with
  | inl _ => false
  | inr u =>
    negb (bool_decide (u_Scheme u ≠ "http") && bool_decide (u_Scheme u ≠ "https") ||
          bool_decide (u_Host u = "") || u_User u || bool_decide (u_RawQuery u ≠ "") ||
          bool_decide (u_Fragment u ≠ "") || bool_decide (u_Path u ≠ ""))
  end.

Fixpoint check_addresses `{URLs} (addresses : list string) (seen : gset string)
    : error + gset string :=
  match addresses with
  | [] => inr seen
  | address :: rest =>
    if negb (valid_origin address)
    then inl (ErrNew ("invalid peer URL " +:+ Quote address +:+ " (use an origin without a trailing slash)"))
    else if bool_decide (address ∈ seen)
    then inl (ErrNew ("each peer and client endpoint must be unique: " +:+ address))
    else check_addresses rest ({[ address ]} ∪ seen)
  end.

Fixpoint check_peers `{Platform} (ps : list Peer) (peers : gmap string Peer) (seen : gset string)
    (ids : list string) : error + (gmap string Peer * list string) :=
  match ps with
  | [] => inr (peers, ids)
  | p :: ps' =>
    if bool_decide (p_ID p = "") then inl (ErrNew "empty peer ID")
    else if bool_decide (is_Some (peers !! p_ID p)) then inl (ErrNew "duplicate peer ID")
    else
      match check_addresses [p_PeerURL p; p_ClientURL p] seen with
      | inl err => inl err
      | inr seen' => check_peers ps' (<[p_ID p := p]> peers) seen' (ids ++ [p_ID p])
      end
  end.

Definition default_to (d x : Z) : Z := if (x =? 0)%Z then d else x.

Definition with_defaults (cfg : Config) : Config :=
  mkConfig (cfg_ID cfg) (cfg_ClusterID cfg) (cfg_DataDir cfg) (cfg_Peers cfg) (cfg_FixedLeader cfg)
    (default_to 600000000 (cfg_ElectionMin cfg)) (default_to 1100000000 (cfg_ElectionMax cfg))
    (default_to 100000000 (cfg_Heartbeat cfg)) (default_to 300000000 (cfg_RPCTimeout cfg))
    (default_to 3000000000 (cfg_RequestTimeout cfg)) (cfg_SnapshotEvery cfg).

(** Durations are [int64]: products wrap around. *)
Definition wrap63 (z : Z) : Z := ((z + 2 ^ 63) mod 2 ^ 64 - 2 ^ 63)%Z.

Definition invalid_timeouts (cfg : Config) : bool :=
  ((cfg_Heartbeat cfg <=? 0) || (cfg_ElectionMin cfg <=? wrap63 (2 * cfg_Heartbeat cfg)) ||
   (cfg_ElectionMax cfg <=? cfg_ElectionMin cfg) || (cfg_RPCTimeout cfg <=? 0) ||
   (cfg_RequestTimeout cfg <=? 0))%Z.

(** The checks of the configuration: the members and the identity. *)
Definition check_config `{Platform} (cfg : Config) (has_transport manual : bool)
    : error + (gmap string Peer * string) :=
  if bool_decide (cfg_ID cfg = "") || bool_decide (cfg_ClusterID cfg = "") ||
     negb has_transport && negb manual
  then inl (ErrNew "node ID, cluster ID, and transport required")
  else if invalid_timeouts cfg then inl (ErrNew "invalid timeouts")
  else
    match check_peers (cfg_Peers cfg) ∅ ∅ [] with
    | inl err => inl err
    | inr (peers, ids) =>
      if negb (bool_decide (is_Some (peers !! cfg_ID cfg)))
      then inl (ErrNew "membership must include this node")
      else if bool_decide (cfg_FixedLeader cfg ≠ "") &&
              negb (bool_decide (is_Some (peers !! cfg_FixedLeader cfg)))
      then inl (ErrNew "fixed leader is not a member")
      else inr (peers, identity_of (cfg_ClusterID cfg) (cfg_ID cfg)
                         (merge_sort String.le ids) (cfg_FixedLeader cfg))
    end.

(** The node before it applies the committed suffix of its log. *)
Definition initial_node (cfg : Config) (peers : gmap string Peer) (rt : Runtime)
    (store : diskStore J) (machine : Machine) (applied : N) : Node J :=
  mkNode cfg peers rt (cfg_ID cfg +:+ "-" +:+ pretty (rt_Now rt 0)) store machine follower "" applied
    ∅ ∅ ∅ ∅ 0%Z None false [] ∅ ∅ 0 false (NewBuffer 512) [] ∅ 0 1 0.

(** The rest of [OpenWithRuntime]: apply, arm the timer, start as the fixed
    leader; the error is the one that made the node unusable. *)
Definition start_node : M (Node J) (option error) :=
  applyLocked ;;
  resetTimerLocked ;;
  n ← get;
  (if bool_decide (cfg_FixedLeader (n_cfg n) = cfg_ID (n_cfg n)) then
     ok ← persistLocked (add64 (ds_term (n_state n)) 1) (cfg_ID (n_cfg n))
            (ds_commit (n_state n)) 0 [];
     when ok becomeLeaderLocked
   else mret tt) ;;
  n ← get;
  match n_failed n with
  | Some err => mret (Some err)
  | None =>
    (* the replicators of a live node get their channels *)
    when (negb (rt_Manual (n_rt n)))
      (modify (set_wake (list_to_map ((λ p, (p_ID p, false)) <$> others n)))) ;;
    mret None
  end.

Definition OpenWithRuntime `{Platform} (cfg : Config) (has_transport : bool) (rt : Runtime) (j : J)
    : option (error + Node J) :=
  let cfg := with_defaults cfg in
  match check_config cfg has_transport (rt_Manual rt) with
  | inl err => Some (inl err)
  | inr (peers, identity) =>
    opened ← openStoreUsing identity j;
    match opened with
    | inl err => Some (inl err)
    | inr store =>
      let base := ds_base (st_state store) in
      match (if base =? 0 then (New, None) else Restore New (st_snapshot store)) with
      | (_, Some err) => Some (inl err)
      | (machine, None) =>
        r ← start_node (initial_node cfg peers rt store machine base);
        match r with
        | (Some err, _) => Some (inl err)
        | (None, n) => Some (inr n)
        end
      end
    end
  end.

End node.
