(* ===== verification/NodeInv.v ===== *)
(** * NodeInv: the invariant of a node, and that every method keeps it

    [Inv] relates the node's memory to its durable store; [evolves] is the
    preorder of the changes a node may undergo.  Each helper of [Node] gets a
    weakest-precondition lemma; the methods follow by composition.

    The lemmas are parametric in a proposition [E] claimed of runs that panic:
    with [E := True] they are partial correctness, and a run of a node that has
    never compacted its log cannot panic. *)

From stdpp Require Import base numbers list gmap strings fin_maps pretty relations options.
From S2P Require Import Prelude Effects Bytes StateMachine Wal Journal Store Events Node.

Local Open Scope N_scope.
#[local] Set Default Proof Using "Type*".

(** ** Specification *)

(** The machine of a snapshot, and what a machine that starts from a store's
    snapshot has become after the entries up to an index. *)
Definition machine_of (s : Snapshot) : Machine :=
  mkMachine (snap_Values s) (snap_Sessions s) (snap_Count s).

Definition base_machine {W} (s : diskStore W) : Machine :=
  if ds_base (st_state s) =? 0 then New else machine_of (st_snapshot s).

Definition commands_to (d : durableState) (k : N) : list Command :=
  omap e_Command (take (N.to_nat (k - ds_base d)) (tail (ds_log d))).

Definition machine_at {W} (s : diskStore W) (k : N) : Machine :=
  (ApplyAll (base_machine s) (commands_to (st_state s) k)).1.

(** The machine after one more entry. *)
Definition apply_entry (m : Machine) (e : Entry) : Machine :=
  match e_Command e with Some c => (Apply m c).1 | None => m end.

(** What a waiter is sent when its entry is applied: the result of its command,
    and for a read the value of its key in the machine reached. *)
Definition answer (m : Machine) (e : Entry) (w : waiter) : outcome :=
  let out := match e_Command e with
             | Some c => mkOutcome (Apply m c).2.1 (Apply m c).2.2
             | None => mkOutcome zeroResult None
             end in
  match w_readKey w with
  | None => out
  | Some key =>
    let '(value, found) := Get (apply_entry m e) key in
    mkOutcome (mkResult value found (r_Applied (o_result out)) (r_Conflict (o_result out)))
      (o_err out)
  end.

Definition history_machine (hist : list Entry) : Machine := (ApplyAll New (omap e_Command hist)).1.

(** What a waiter that will not learn its outcome is told. *)
Definition refusal (err : error) : Prop :=
  err = ErrUnavailable ∨ ∃ id url, err = NotLeaderError id url.

Section inv.
Context {J : Type} `{HJ : Journal J, HJL : !JournalLaws J, HC : Codec record, HCL : !CodecLaws}.
Implicit Type n : Node J.

Definition term_of n : N := ds_term (n_state n).
Definition vote_of n : string := ds_vote (n_state n).
Definition commit_of n : N := ds_commit (n_state n).
Definition base_of n : N := ds_base (n_state n).

(** The configuration: members are listed under their own valid identifiers,
    and the node is one of them. *)
Record wf_config n : Prop := {
  wf_member : ∀ id p, n_peers n !! id = Some p → p_ID p = id ∧ text id ∧ id ≠ "";
  wf_self : is_Some (n_peers n !! cfg_ID (n_cfg n));
}.

(** The journal [w] holds a store the node can restart from without losing
    anything it has applied; or nothing can restart from it, since the last
    append has written, before it failed, a log longer than any slice. *)
Definition recoverable_at (w : J) n : Prop :=
  overflowing w (st_identity (n_store n)) ∨ ∃ s0, content w s0 ∧ st_identity s0 = st_identity (n_store n) ∧
    extends (n_state n) (st_state s0) ∧ ds_base (st_state s0) ≤ n_applied n ∧
    machine_at s0 (n_applied n) = n_machine n.

(** The invariant that holds even inside a method. *)
Record Inv0 n : Prop := {
  inv_config : wf_config n;
  inv_store : wf_store (n_store n);
  inv_content : n_failed n = None → content (st_wal (n_store n)) (without_wal (n_store n));
  inv_recover : n_failed n ≠ None → recoverable_at (st_wal (n_store n)) n;
  inv_applied : base_of n ≤ n_applied n ∧ n_applied n ≤ commit_of n;
  inv_machine : n_machine n = machine_at (n_store n) (n_applied n);
  inv_wf_machine : wf_machine (n_machine n) ∧ rep_snapshot (takeSnapshot (n_machine n));
  inv_pending : ∀ i w, n_pending n !! i = Some w →
    n_applied n < i ∧ i ≤ last_index (n_state n) ∧ n_chans n !! w_done w = Some None;
  inv_distinct : ∀ i j w w', n_pending n !! i = Some w → n_pending n !! j = Some w' →
    w_done w = w_done w' → i = j;
  inv_fresh : ∀ c, n_newchan n ≤ c → n_chans n !! c = None;
}.

(** What holds between methods as well: only an available leader has waiting
    clients; a candidate or leader has voted for itself in its term; a node
    whose disk has failed is a follower. *)
Record Inv n : Prop := {
  inv_core : Inv0 n;
  inv_waiting : n_pending n ≠ ∅ → n_role n = leader ∧ availableLocked n = true;
  inv_vote : n_role n ≠ follower → vote_of n = cfg_ID (n_cfg n);
  inv_failed : n_failed n ≠ None → n_role n = follower;
}.

(** Within a term a node can only move from candidate to leader to follower. *)
Definition rank (r : role) : nat :=
  match r with candidate => 0 | leader => 1 | follower => 2 end.

(** The committed entries from index one on, whose fold is the machine. *)
Record explains (hist : list Entry) n : Prop := {
  ex_length : lenN hist = n_applied n;
  ex_machine : n_machine n = history_machine hist;
  ex_log : ∀ i e, log_at (n_state n) i = Some e → 0 < i → i ≤ n_applied n →
    hist !! N.to_nat (i - 1) = Some e;
}.

Definition waits n (c : N) : Prop := ∃ i w, n_pending n !! i = Some w ∧ w_done w = c.

(** The outcome of a waiter for index [i]: a refusal, or the answer of the entry
    that was in the log there, which has become part of the history. *)
Definition answered (hist : list Entry) n (i : N) (w : waiter) (out : outcome) : Prop :=
  (∃ err, refusal err ∧ out = mkOutcome zeroResult (Some err)) ∨
  (∃ e, log_at (n_state n) i = Some e ∧ hist !! N.to_nat (i - 1) = Some e ∧
    out = answer (history_machine (take (N.to_nat (i - 1)) hist)) e w).

(** Every waiter of [n] still waits, for the same entry, or has its outcome. *)
Definition attends (hist : list Entry) n n' : Prop :=
  ∀ i w, n_pending n !! i = Some w → w_done w < n_newchan n →
    n_pending n' !! i = Some w ∧ log_at (n_state n') i = log_at (n_state n) i ∨
    ¬ waits n' (w_done w) ∧
    ∀ out, n_chans n' !! w_done w = Some (Some out) → answered hist n i w out.

(** What a node may become.  In particular a channel nobody waits on is never
    written again: its only change is that its outcome is received. *)
Record evolves n n' : Prop := {
  ev_cfg : n_cfg n' = n_cfg n;
  ev_peers : n_peers n' = n_peers n;
  ev_manual : rt_Manual (n_rt n') = rt_Manual (n_rt n);
  ev_identity : st_identity (n_store n') = st_identity (n_store n);
  ev_store : extends (n_state n) (n_state n');
  ev_base : cfg_SnapshotEvery (n_cfg n) = 0 → base_of n' = base_of n;
  ev_failed : n_failed n ≠ None →
    n_failed n' = n_failed n ∧ without_wal (n_store n') = without_wal (n_store n);
  ev_role : term_of n = term_of n' → (rank (n_role n) ≤ rank (n_role n'))%nat;
  ev_log : n_role n = leader → n_role n' = leader → term_of n = term_of n' →
    last_index (n_state n) ≤ last_index (n_state n') ∧
    ∀ i, base_of n' ≤ i → i ≤ last_index (n_state n) → log_at (n_state n') i = log_at (n_state n) i;
  ev_applied : n_applied n ≤ n_applied n';
  ev_history : ∀ hist, explains hist n →
    ∃ more, explains (hist ++ more) n' ∧ attends (hist ++ more) n n';
  ev_newchan : n_newchan n ≤ n_newchan n';
  ev_chans : ∀ c, c < n_newchan n → ¬ waits n c →
    (n_chans n' !! c ≠ n_chans n !! c → n_chans n' !! c = Some None) ∧ ¬ waits n' c;
}.

Lemma answered_more hist more n i w out :
  answered hist n i w out → answered (hist ++ more) n i w out.
Proof using Type.
  intros [?|(e&Hl&He&->)]; [by left|right]. exists e. split_and!; [done| |].
  - rewrite lookup_app_l; [done|]. by eapply lookup_lt_Some.
  - apply lookup_lt_Some in He. rewrite take_app_le by lia. done.
Qed.

Lemma attends_trans hist more n1 n2 n3 :
  n_newchan n1 ≤ n_newchan n2 →
  (∀ c, c < n_newchan n2 → ¬ waits n2 c →
    (n_chans n3 !! c ≠ n_chans n2 !! c → n_chans n3 !! c = Some None) ∧ ¬ waits n3 c) →
  attends hist n1 n2 → attends (hist ++ more) n2 n3 → attends (hist ++ more) n1 n3.
Proof using Type.
  intros Hnew Hch H12 H23 i w Hi Hw.
  destruct (H12 i w Hi Hw) as [[Hi2 Hlog2]|[Hw2 Hout2]].
  - destruct (H23 i w Hi2) as [[Hi3 Hlog3]|[Hw3 Hout3]]; [lia| |].
    + left. split; [done|congruence].
    + right. split; [done|]. intros out Ho. specialize (Hout3 out Ho).
      unfold answered in *. by rewrite <-Hlog2.
  - destruct (Hch (w_done w)) as [Hsame Hw3]; [lia|done|]. right. split; [done|].
    intros out Ho. destruct (decide (n_chans n3 !! w_done w = n_chans n2 !! w_done w)) as [Heq|Hne].
    + rewrite Heq in Ho. by apply answered_more, Hout2.
    + rewrite (Hsame Hne) in Ho. done.
Qed.

(** Changes that neither apply an entry nor answer a waiter. *)
Lemma history_same n n' hist :
  n_machine n' = n_machine n → n_applied n' = n_applied n →
  (∀ i e, log_at (n_state n') i = Some e → i ≤ n_applied n → log_at (n_state n) i = Some e) →
  (∀ i w, n_pending n !! i = Some w →
     n_pending n' !! i = Some w ∧ log_at (n_state n') i = log_at (n_state n) i) →
  explains hist n → ∃ more, explains (hist ++ more) n' ∧ attends (hist ++ more) n n'.
Proof using Type.
  intros Hm Ha Hl Hp [Hlen Hmach Hlog]. exists []. rewrite app_nil_r. split.
  - split; [by rewrite Ha|by rewrite Hm|]. intros i e Hi Hi0 Hia. rewrite Ha in Hia.
    apply Hlog; [by apply Hl|done|done].
  - intros i w Hi _. left. by apply Hp.
Qed.

Lemma history_kept n n' hist :
  n_machine n' = n_machine n → n_applied n' = n_applied n → n_state n' = n_state n →
  n_pending n' = n_pending n →
  explains hist n → ∃ more, explains (hist ++ more) n' ∧ attends (hist ++ more) n n'.
Proof using Type.
  intros Hm Ha Hs Hp. apply history_same; [done|done|by rewrite Hs|]. intros i w Hi. by rewrite Hp, Hs.
Qed.

Lemma ev_explains n n' hist :
  evolves n n' → explains hist n → ∃ more, explains (hist ++ more) n'.
Proof using Type.
  intros He Hh. destruct (ev_history _ _ He hist Hh) as (more&?&_). by exists more.
Qed.

#[export] Instance evolves_preorder : PreOrder evolves.
Proof using Type.
  split.
  - intros n. split; try done. intros hist. by apply history_kept.
  - intros n1 n2 n3 H12 H23. split.
    + rewrite (ev_cfg _ _ H23). apply H12.
    + rewrite (ev_peers _ _ H23). apply H12.
    + rewrite (ev_manual _ _ H23). apply H12.
    + rewrite (ev_identity _ _ H23). apply H12.
    + etransitivity; [apply H12|apply H23].
    + intros Hs. rewrite (ev_base _ _ H23); [by apply H12|]. by rewrite (ev_cfg _ _ H12).
    + intros Hf. destruct (ev_failed _ _ H12 Hf) as [E1 E2].
      destruct (ev_failed _ _ H23) as [E3 E4]; [by rewrite E1|].
      split; congruence.
    + pose proof (ext_term _ _ (ev_store _ _ H12)). pose proof (ext_term _ _ (ev_store _ _ H23)).
      unfold term_of in *. intros He.
      transitivity (rank (n_role n2)); [apply H12|apply H23]; unfold term_of; lia.
    + pose proof (ext_term _ _ (ev_store _ _ H12)). pose proof (ext_term _ _ (ev_store _ _ H23)).
      pose proof (ext_base _ _ (ev_store _ _ H23)).
      intros Hl1 Hl3 Ht. unfold term_of, base_of in *.
      assert (ds_term (n_state n1) = ds_term (n_state n2)) as Ht12 by lia.
      assert (ds_term (n_state n2) = ds_term (n_state n3)) as Ht23 by lia.
      pose proof (ev_role _ _ H12 Ht12) as R1. pose proof (ev_role _ _ H23 Ht23) as R2.
      rewrite Hl1 in R1. rewrite Hl3 in R2.
      assert (n_role n2 = leader) as Hl2 by (destruct (n_role n2); simpl in *; [lia|lia|done]).
      destruct (ev_log _ _ H12 Hl1 Hl2 Ht12) as [L1 P1].
      destruct (ev_log _ _ H23 Hl2 Hl3 Ht23) as [L2 P2]. unfold base_of in *.
      split; [lia|]. intros i Hb Hi. rewrite P2 by lia. apply P1; lia.
    + etransitivity; [apply H12|apply H23].
    + intros hist Hh. destruct (ev_history _ _ H12 hist Hh) as (m1&H1&A1).
      destruct (ev_history _ _ H23 _ H1) as (m2&H2&A2). exists (m1 ++ m2). rewrite app_assoc.
      split; [done|]. eapply attends_trans; [apply H12|apply H23|done|done].
    + etransitivity; [apply H12|apply H23].
    + intros c Hc Hw. destruct (ev_chans _ _ H12 c Hc Hw) as [E1 W1].
      destruct (ev_chans _ _ H23 c) as [E2 W2]; [|done|].
      * eapply N.lt_le_trans; [done|apply H12].
      * split; [|done]. intros Hne.
        destruct (decide (n_chans n2 !! c = n_chans n1 !! c)) as [Heq|Hne2].
        -- apply E2. congruence.
        -- apply E1 in Hne2. destruct (decide (n_chans n3 !! c = n_chans n2 !! c)); [congruence|auto].
Qed.

(** Where replication to a peer resumes. *)
Definition resume n (peer : Peer) : N :=
  N.min (N.max 1 (next_of n (p_ID peer))) (last_index (n_state n) + 1).

(** A request is a true copy of a part of the leader's log. *)
Record prepared n (peer : Peer) (req : AppendRequest) : Prop := {
  pr_cluster : aq_ClusterID req = cfg_ClusterID (n_cfg n);
  pr_term : aq_Term req = term_of n;
  pr_leader : aq_LeaderID req = cfg_ID (n_cfg n);
  pr_commit : aq_LeaderCommit req = commit_of n;
  pr_prev : aq_PrevLogIndex req = N.max (resume n peer - 1) (base_of n);
  pr_prev_term : ∃ p, log_at (n_state n) (aq_PrevLogIndex req) = Some p ∧
    aq_PrevLogTerm req = e_Term p;
  pr_entries : ∀ k e, aq_Entries req !! k = Some e →
    log_at (n_state n) (aq_PrevLogIndex req + 1 + N.of_nat k) = Some e;
  pr_length : lenN (aq_Entries req) ≤ 32;
}.

(** The requests for replication a node has not handed over yet, with the names
    of the peers they are for. *)
Definition queued n : list (string * AppendRequest) :=
  omap (λ m, match m_Vote m, m_Append m with
             | None, Some req => Some (m_To m, req)
             | _, _ => None
             end) (n_outbox n).

(** The fields the invariant and the order depend on. *)
Definition body n :=
  (n_cfg n, n_peers n, n_rt n, n_store n, n_machine n, n_role n, n_applied n, n_pending n,
   n_failed n, n_closed n, n_paused n, n_chans n, n_newchan n).

Definition core n := (body n, queued n).

Lemma Inv0_body n n' : body n' = body n → Inv0 n → Inv0 n'.
Proof using Type.
  intros Hc [? ? ? ? ? ? ? ? ? ?]. unfold body in Hc. injection Hc as E1 E2 E3 E4 E5 E6 E7 E8 E9 E10 E11 E12 E13.
  unfold base_of, commit_of, recoverable_at, n_state in *.
  split; unfold base_of, commit_of, recoverable_at, n_state; rewrite ?E1, ?E2, ?E4, ?E5, ?E7, ?E8, ?E9, ?E12, ?E13; try done.
  destruct inv_config0. split; by rewrite ?E1, ?E2.
Qed.

Lemma Inv_body n n' : body n' = body n → Inv n → Inv n'.
Proof using Type.
  intros Hc [H0 Hw Hv Hf]. split; [by eapply Inv0_body|..];
    unfold body in Hc; injection Hc as E1 E2 E3 E4 E5 E6 E7 E8 E9 E10 E11 E12 E13;
    unfold vote_of, n_state, availableLocked in *; rewrite ?E1, ?E4, ?E6, ?E8, ?E9, ?E10, ?E11; done.
Qed.

Lemma evolves_body n n' : body n' = body n → evolves n n'.
Proof using Type.
  intros Hc. unfold body in Hc. injection Hc as E1 E2 E3 E4 E5 E6 E7 E8 E9 E10 E11 E12 E13.
  split; unfold base_of, term_of, waits, n_state; rewrite ?E1, ?E2, ?E3, ?E4, ?E6, ?E7, ?E8, ?E9, ?E12, ?E13; try done.
  intros hist. apply history_kept; unfold n_state; by rewrite ?E4.
Qed.

Lemma core_body n n' : core n' = core n → body n' = body n.
Proof using Type. by intros [? _]%pair_equal_spec. Qed.

Lemma Inv0_core n n' : core n' = core n → Inv0 n → Inv0 n'.
Proof using Type. intros Hc%core_body. by apply Inv0_body. Qed.

Lemma Inv_core n n' : core n' = core n → Inv n → Inv n'.
Proof using Type. intros Hc%core_body. by apply Inv_body. Qed.

Lemma evolves_core n n' : core n' = core n → evolves n n'.
Proof using Type. intros Hc%core_body. by apply evolves_body. Qed.

(** *** Waiters *)

Definition fill (err : error) (ws : list (N * waiter)) (chans : gmap N (option outcome))
    : gmap N (option outcome) :=
  foldl (λ ch iw, <[w_done iw.2 := Some (mkOutcome zeroResult (Some err))]> ch) chans ws.

Lemma fill_other err ws ch c :
  (∀ i w, (i, w) ∈ ws → w_done w ≠ c) → fill err ws ch !! c = ch !! c.
Proof using Type.
  revert ch. induction ws as [|[i w] ws IH]; intros ch H; [done|]. unfold fill in *. cbn.
  rewrite IH; [|intros j w' Hw; apply (H j); by right].
  rewrite lookup_insert_ne; [done|]. apply (H i). by left.
Qed.

Lemma fill_value err ws ch i w :
  (i, w) ∈ ws → fill err ws ch !! w_done w = Some (Some (mkOutcome zeroResult (Some err))).
Proof using Type.
  assert (∀ c ws ch, ch !! c = Some (Some (mkOutcome zeroResult (Some err))) →
    fill err ws ch !! c = Some (Some (mkOutcome zeroResult (Some err)))) as Hkeep.
  { intros c ws0. induction ws0 as [|[j v] ws0 IH]; intros ch0 Hc; [done|]. unfold fill in *. cbn.
    apply IH. destruct (decide (w_done v = c)) as [->|]; [by rewrite lookup_insert_eq|].
    by rewrite lookup_insert_ne. }
  revert ch. induction ws as [|[j v] ws IH]; intros ch Hin; [by apply elem_of_nil in Hin|].
  apply elem_of_cons in Hin as [[= <- <-]|Hin]; [|unfold fill in *; cbn; by apply IH].
  change (fill err ((i, w) :: ws) ch) with
    (fill err ws (<[w_done w := Some (mkOutcome zeroResult (Some err))]> ch)).
  apply Hkeep. by rewrite lookup_insert_eq.
Qed.

(** All waiters have been answered with an error, and forgotten. *)
Definition dismissed (err : error) n : Node J :=
  set_chans (fill err (map_to_list (n_pending n)) (n_chans n)) (set_pending ∅ n).

Lemma failPending_run err ws n :
  NoDup ws.*1 →
  (∀ i w, (i, w) ∈ ws → n_pending n !! i = Some w ∧ n_chans n !! w_done w = Some None) →
  (∀ i j w w', n_pending n !! i = Some w → n_pending n !! j = Some w' →
    w_done w = w_done w' → i = j) →
  for_each (fail_waiter err) ws n =
    Some (tt, set_chans (fill err ws (n_chans n))
      (set_pending (foldl (λ p iw, delete iw.1 p) (n_pending n) ws) n)).
Proof using Type.
  revert n. induction ws as [|[i w] ws IH]; intros n Hnd Hws Hinj; [by destruct n|].
  apply NoDup_cons in Hnd as [Hni Hnd].
  destruct (Hws i w) as [Hp Hc]; [by left|].
  cbn [for_each]. unfold fail_waiter, send. unfold mbind, M_bind, get, modify.
  cbn beta iota. rewrite Hc. cbn beta iota.
  rewrite IH; clear IH.
  - by destruct n.
  - done.
  - intros j w' Hj. destruct (Hws j w') as [Hp' Hc']; [by right|].
    assert (j ≠ i) by (intros ->; apply Hni; apply list_elem_of_fmap; by exists (i, w')).
    cbn. rewrite lookup_delete_ne by done. split; [done|].
    rewrite lookup_insert_ne; [done|]. intros He. by apply (Hinj j i w' w) in Hp'.
  - intros j k w1 w2. cbn. intros [_ H1]%lookup_delete_Some [_ H2]%lookup_delete_Some. by eapply Hinj.
Qed.

Lemma foldl_delete_empty {A} (m : gmap N A) (ws : list (N * A)) :
  (∀ i x, m !! i = Some x → i ∈ ws.*1) → foldl (λ p iw, delete iw.1 p) m ws = ∅.
Proof using Type.
  revert m. induction ws as [|[i w] ws IH]; intros m H; cbn.
  - apply map_eq. intros i. rewrite lookup_empty. destruct (m !! i) as [x|] eqn:He; [|done].
    apply H in He. by apply elem_of_nil in He.
  - apply IH. intros j x [Hne Hj]%lookup_delete_Some.
    apply H in Hj. cbn in Hj. apply elem_of_cons in Hj as [->|Hj]; [done|done].
Qed.

Lemma failPending_ok err n : Inv0 n → failPendingLocked err n = Some (tt, dismissed err n).
Proof using Type.
  intros H0. unfold failPendingLocked. unfold mbind, M_bind, get.
  rewrite failPending_run.
  - rewrite foldl_delete_empty; [done|]. intros i w Hi. apply list_elem_of_fmap.
    exists (i, w). split; [done|]. by apply elem_of_map_to_list.
  - apply NoDup_fst_map_to_list.
  - intros i w Hi%elem_of_map_to_list. split; [done|]. by eapply inv_pending.
  - apply (inv_distinct n H0).
Qed.


Lemma dismissed_waits err n c : ¬ waits (dismissed err n) c.
Proof using Type.
  intros (i&w&Hi&_). change (n_pending (dismissed err n)) with (∅ : gmap N waiter) in Hi.
  by rewrite lookup_empty in Hi.
Qed.

Lemma Inv0_dismissed err n : Inv0 n → Inv0 (dismissed err n).
Proof using Type.
  intros H0. pose proof H0 as [? ? ? ? ? ? ? Hp Hd Hf]. split; try done.
  - by destruct inv_config0.
  - intros c Hc. cbn. rewrite fill_other; [by apply Hf|].
    intros i w Hi%elem_of_map_to_list <-. destruct (Hp i w Hi) as (_&_&Hch).
    by rewrite Hf in Hch.
Qed.

Lemma evolves_dismissed err n : refusal err → Inv0 n → evolves n (dismissed err n).
Proof using Type.
  intros Herr H0. split; try done.
  - intros hist []. exists []. rewrite app_nil_r. split; [done|].
    intros i w Hi _. right. split; [apply dismissed_waits|]. intros out Ho. left. exists err.
    split; [done|]. cbn in Ho. rewrite (fill_value err _ _ i) in Ho by (by apply elem_of_map_to_list).
    by injection Ho as <-.
  - intros c Hc Hw. split; [|apply dismissed_waits]. intros []. cbn. apply fill_other.
    intros i w Hi%elem_of_map_to_list He. apply Hw. by exists i, w.
Qed.

(** *** Saving *)

Definition saved n (w : J) (r : record) : Node J :=
  set_nstore (set_wal w (set_state (updated (n_state n) r) (n_store n))) n.

Lemma commands_to_updated d r k :
  wf_state d → valid_update (rc_Identity r) d r → ds_base d ≤ k → k ≤ ds_commit d →
  commands_to (updated d r) k = commands_to d k.
Proof using Type.
  intros Hwf Hv Hb Hk. unfold commands_to, updated. cbn.
  destruct (N.eqb_spec (rc_From r) 0) as [|HF]; [done|]. f_equal.
  destruct (vu_from _ _ _ Hv HF) as (Hc&_).
  destruct (ds_log d) as [|e l] eqn:Hl; [by destruct Hwf|].
  replace (N.to_nat (rc_From r - ds_base d))
    with (S (N.to_nat (rc_From r - ds_base d) - 1)) by lia.
  cbn [take app tail].
  rewrite take_app. rewrite length_take, take_take.
  assert (N.to_nat (k - ds_base d) ≤ N.to_nat (rc_From r - ds_base d) - 1)%nat as Hle by lia.
  rewrite Nat.min_l by done.
  destruct (Nat.le_gt_cases (length l) (N.to_nat (rc_From r - ds_base d) - 1)) as [Hlen|Hlen].
  - (* the suffix starts at the end of the log *)
    destruct (updated_length d r Hwf Hv HF) as [Ht _].
    unfold lenN in Ht. rewrite length_take, Hl in Ht. cbn in Ht.
    replace (N.to_nat (k - ds_base d) - _)%nat with 0%nat by lia. by rewrite app_nil_r.
  - replace (N.to_nat (k - ds_base d) - _)%nat with 0%nat by lia. by rewrite app_nil_r.
Qed.

Lemma Inv0_saved n w r :
  Inv0 n → representable r → valid_update (st_identity (n_store n)) (n_state n) r →
  lenN (ds_log (updated (n_state n) r)) < two63 →
  n_failed n = None → content w (set_state (updated (n_state n) r) (without_wal (n_store n))) →
  n_pending n = ∅ ∨ last_index (n_state n) ≤ last_index (updated (n_state n) r) →
  Inv0 (saved n w r).
Proof using Type.
  intros H0 Hrep Hv Hfit Hnf Hc Hp. pose proof H0 as [? [Hwf ? ? ?] ? _ [? ?] Hm ? Hpend ? ?].
  pose proof (vu_identity _ _ _ Hv) as Hid. pose proof Hv as Hv'. rewrite <-Hid in Hv'.
  split; try done.
  - by destruct inv_config0.
  - split; try done. by apply wf_updated.
  - unfold base_of, commit_of, saved, n_state in *. cbn.
    pose proof (vu_commit _ _ _ Hv). unfold n_state in *. lia.
  - change (n_applied (saved n w r)) with (n_applied n).
    change (n_machine (saved n w r)) with (n_machine n). rewrite Hm.
    unfold machine_at, base_machine, saved, n_state. cbn [n_store set_nstore st_state set_wal set_state st_snapshot].
    rewrite commands_to_updated by done. done.
  - intros i w0 Hi. destruct (Hpend i w0 Hi) as (?&?&?). split_and!; try done.
    destruct Hp as [Hp|Hp]; [cbn in Hi; by rewrite Hp in Hi|].
    unfold saved, n_state in *. cbn [n_store set_nstore st_state set_wal set_state]. lia.
Qed.

Lemma last_index_end d : wf_state d → log_end d = last_index d + 1.
Proof using Type. intros H. by destruct (last_index_lt d H) as (_&_&_&?). Qed.

Lemma evolves_saved n w r :
  Inv0 n → n_pending n = ∅ ∨ rc_From r = 0 ∨ rc_From r = last_index (n_state n) + 1 → n_failed n = None → representable r →
  valid_update (st_identity (n_store n)) (n_state n) r →
  lenN (ds_log (updated (n_state n) r)) < two63 →
  (n_role n = leader → rc_Term r = term_of n →
     rc_From r = 0 ∨ rc_From r = last_index (n_state n) + 1) →
  evolves n (saved n w r).
Proof using Type.
  intros H0 Hpe Hnf Hrep Hv Hfit Hl. pose proof H0 as [? [Hwf ? ? ?] ? _ [? Ha] Hm ? Hpend ? ?].
  pose proof (vu_identity _ _ _ Hv) as Hid. pose proof Hv as Hv'. rewrite <-Hid in Hv'.
  assert (n_state (saved n w r) = updated (n_state n) r) as Hst by done.
  split; try done.
  - rewrite Hst. by apply extends_updated.
  - unfold term_of. rewrite Hst. intros Hrl _ Ht. cbn in Ht.
    pose proof (last_index_end _ Hwf) as He. fold (n_state n) in He.
    assert (last_index (n_state n) ≤ last_index (updated (n_state n) r)) as Hle.
    { pose proof (wf_updated _ r Hwf Hrep Hv' Hfit) as Hwf'.
      pose proof (last_index_end _ Hwf') as He'. fold (n_state n) in He'.
      destruct (Hl Hrl ltac:(done)) as [HF|HF].
      - unfold updated, last_index. cbn. by rewrite HF.
      - destruct (updated_length _ r Hwf Hv') as [_ Hlen]; [lia|]. fold (n_state n) in Hlen. lia. }
    split; [done|]. intros i Hb Hi. rewrite log_at_updated by done.
    destruct (Hl Hrl ltac:(done)) as [->|HF]; [done|].
    destruct (N.ltb_spec i (rc_From r)); [|lia]. by rewrite orb_true_r.
  - intros hist. apply history_same; try done.
    + intros i e. rewrite Hst. intros Hi Hia. rewrite log_at_updated in Hi by done.
      destruct (N.eqb_spec (rc_From r) 0) as [|HF]; [done|].
      destruct (vu_from _ _ _ Hv HF) as (Hcf&_). unfold commit_of, n_state in *.
      destruct (N.ltb_spec i (rc_From r)); [done|]. lia.
    + intros i w0 Hi. split; [done|]. rewrite Hst, log_at_updated by done.
      destruct (Hpend i w0 Hi) as (_&Hil&_).
      destruct Hpe as [Hpe|[->|HF]]; [by rewrite Hpe in Hi|done|].
      destruct (N.ltb_spec i (rc_From r)); [|lia]. by rewrite orb_true_r.
Qed.


(** A node whose disk has just failed: a follower no client waits for. *)
Definition broken n (w : J) (err : error) (ev : Buffer) (reads : N) : Node J :=
  dismissed ErrUnavailable (set_leader "" (set_role follower (set_events ev (set_reads reads
    (set_failed (Some err) (set_nstore (set_wal w (n_store n)) n)))))).

Definition unreliable n (w : J) (err : error) (ev : Buffer) (reads : N) : Node J :=
  set_leader "" (set_role follower (set_events ev (set_reads reads
    (set_failed (Some err) (set_nstore (set_wal w (n_store n)) n))))).

Lemma Inv0_unreliable n w err ev reads :
  Inv0 n → recoverable_at w n → Inv0 (unreliable n w err ev reads).
Proof using Type.
  intros [? Hs ? ? ? ? ? ? ? ?] Hrec. split; try done.
  - by destruct inv_config0.
  - by destruct Hs.
Qed.

Lemma Inv_broken n w err ev reads :
  Inv0 n → recoverable_at w n → Inv (broken n w err ev reads).
Proof using Type.
  intros H0 Hrec. split; try done. by apply Inv0_dismissed, Inv0_unreliable.
Qed.

Lemma evolves_broken n w err ev reads :
  Inv0 n → recoverable_at w n → n_failed n = None → evolves n (broken n w err ev reads).
Proof using Type.
  intros H0 Hrec Hnf.
  transitivity (unreliable n w err ev reads); [|by apply evolves_dismissed, Inv0_unreliable; [left|..]].
  split; try done.
  - intros _. destruct (n_role n); cbn; lia.
  - intros hist. by apply history_kept.
Qed.

(** What a failed operation leaves in the journal. *)
Lemma recoverable_old n w :
  Inv0 n → content w (without_wal (n_store n)) → recoverable_at w n.
Proof using Type.
  intros H0 Hc. right. exists (without_wal (n_store n)). split_and!; try done.
  - apply (inv_applied n H0).
  - symmetry. apply (inv_machine n H0).
Qed.

Lemma machine_at_updated {W} (s : diskStore W) r k :
  wf_state (st_state s) → valid_update (rc_Identity r) (st_state s) r →
  ds_base (st_state s) ≤ k → k ≤ ds_commit (st_state s) →
  machine_at (set_state (updated (st_state s) r) s) k = machine_at s k.
Proof using Type.
  intros Hwf Hv Hb Hk. unfold machine_at, base_machine. cbn [st_state st_snapshot set_state].
  by rewrite commands_to_updated.
Qed.

Lemma recoverable_new n w r :
  Inv0 n → valid_update (st_identity (n_store n)) (n_state n) r →
  content w (set_state (updated (n_state n) r) (without_wal (n_store n))) → recoverable_at w n.
Proof using Type.
  intros H0 Hv Hc. pose proof (inv_applied n H0) as [Hb Ha].
  pose proof (wf_st_state _ (inv_store n H0)) as Hwf. pose proof Hv as Hv'.
  rewrite <-(vu_identity _ _ _ Hv) in Hv'.
  right. eexists. split_and!; [exact Hc|done|by apply extends_updated|done|].
  rewrite (inv_machine n H0).
  apply (machine_at_updated (without_wal (n_store n)) r (n_applied n) Hwf Hv' Hb Ha).
Qed.

(** What a [save] under a working disk leaves in the journal. *)
Lemma save_recoverable n term vote commit from entries s' err :
  let r := save_record (n_store n) term vote commit from entries in
  Inv0 n → representable r → content (st_wal (n_store n)) (without_wal (n_store n)) →
  save term vote commit from entries (n_store n) = Some (err, s') →
  match err with
  | Some _ => ∃ w, s' = set_wal w (n_store n) ∧ recoverable_at w n
  | None => content (st_wal s') (set_state (updated (n_state n) r) (without_wal (n_store n)))
  end.
Proof.
  intros r H0 Hrep Hc Hsave.
  pose proof (save_outcome _ _ _ _ _ _ s' err (inv_store n H0) Hc Hrep Hsave) as Hs.
  destruct err as [err|].
  - destruct Hs as [Hmem Hs]. exists (st_wal s').
    assert (s' = set_wal (st_wal s') (n_store n)) as Heq.
    { destruct s', (n_store n). unfold without_wal, set_wal in *. cbn in *. by injection Hmem as -> -> ->. }
    split; [done|]. destruct Hs as [?|[(Hv&_&?)|?]].
    + by apply recoverable_old.
    + by apply (recoverable_new n _ r).
    + by left.
  - destruct Hs as (_&_&Heq&?). unfold n_state, r. by rewrite <-Heq.
Qed.

Section rules.
Context (E : Prop).

(** *** Rules for the primitive computations *)

Lemma now_wp (Q : Z → Node J → Prop) n :
  (∀ rd, Q (rt_Now (n_rt n) (n_reads n)) (set_reads rd n)) → wp E now Q n.
Proof using Type. intros H. apply H. Qed.

Lemma random_wp bound (Q : Z → Node J → Prop) n :
  (∀ dr, Q (rt_Int64N (n_rt n) (n_draws n) bound) (set_draws dr n)) → wp E (random bound) Q n.
Proof using Type. intros H. apply H. Qed.

Lemma emit_wp kind index peer message detail (Q : unit → Node J → Prop) n :
  (∀ ev rd, Q tt (set_events ev (set_reads rd n))) →
  wp E (emitLocked kind index peer message detail) Q n.
Proof using Type. intros H. unfold wp. cbn. apply H. Qed.

Lemma resetTimer_wp (Q : unit → Node J → Prop) n :
  (∀ dl dr rd, Q tt (set_deadline dl (set_draws dr (set_reads rd n)))) →
  wp E resetTimerLocked Q n.
Proof using Type. intros H. unfold wp. cbn. apply H. Qed.

Lemma failPending_wp err (Q : unit → Node J → Prop) n :
  Inv0 n → Q tt (dismissed err n) → wp E (failPendingLocked err) Q n.
Proof using Type. intros H0 H. unfold wp. by rewrite failPending_ok. Qed.

(** No slice grows to the largest [int]: a process with 2^63 entries in memory
    does not exist.  Only a run that is to return needs the bound. *)
Definition roomy n (k : N) : Prop := lenN (ds_log (n_state n)) + k < two63.

Definition room n (k : N) : Prop := E ∨ roomy n k.

Lemma room_le n n' k k' :
  lenN (ds_log (n_state n')) + k' ≤ lenN (ds_log (n_state n)) + k → room n k → room n' k'.
Proof using Type. unfold room, roomy. intros ? [?|?]; [by left|right; lia]. Qed.

(** Saving under a node whose disk has not failed. *)
Lemma persist_wp term vote commit from entries (Q : bool → Node J → Prop) n :
  let r := save_record (n_store n) term vote commit from entries in
  Inv0 n → representable r → n_failed n = None →
  (E ∨ lenN (ds_log (updated (n_state n) r)) < two63) →
  (∀ w, valid_update (st_identity (n_store n)) (n_state n) r →
     lenN (ds_log (updated (n_state n) r)) < two63 →
     content w (set_state (updated (n_state n) r) (without_wal (n_store n))) →
     Q true (saved n w r)) →
  (∀ w err ev rd, recoverable_at w n → Q false (broken n w err ev rd)) →
  wp E (persistLocked term vote commit from entries) Q n.
Proof.
  intros r H0 Hrep Hnf Hmem Hok Hbad. unfold persistLocked.
  apply wp_bind, wp_zoom.
  pose proof (inv_store n H0) as Hwf. pose proof (wf_st_state _ Hwf) as Hwfs.
  pose proof (inv_content n H0 Hnf) as Hc.
  pose proof (save_spec (n_store n) term vote commit from entries Hwfs Hrep) as Hs. fold r in Hs.
  unfold wp at 1. destruct (save term vote commit from entries (n_store n)) as [[err s']|] eqn:Hsave.
  2: { destruct Hs as [_ Hbig]. unfold n_state in Hmem. destruct Hmem as [|Hmem]; [done|]. exfalso.
       clear -Hbig Hmem. lia. }
  pose proof (save_recoverable n term vote commit from entries s' err H0 Hrep Hc Hsave) as Hsc.
  destruct err as [err|].
  - destruct Hsc as (w&->&Hrec).
    apply wp_bind, wp_modify. apply wp_bind, emit_wp. intros ev rd.
    apply wp_bind, wp_modify. apply wp_bind, wp_modify. apply wp_bind, failPending_wp.
    + by apply (Inv0_unreliable n w err ev rd).
    + by apply wp_ret, Hbad.
  - destruct Hs as (Hv&Hfit&b&w&Hb&Hu&Hj&->). apply wp_ret, Hok; [done|done|]. exact Hsc.
Qed.

(** *** The outcome of a helper: the invariant, and a later node *)

Definition caught_up n : Prop := n_applied n = commit_of n.

(** A request prepared from the log of the leader that the node was at a moment
    between [n] and [n']. *)
Definition fresh_request n n' (to : string) (req : AppendRequest) : Prop :=
  ∃ n1 peer, to = p_ID peer ∧ Inv0 n1 ∧ n_role n1 = leader ∧ prepared n1 peer req ∧
    evolves n n1 ∧ evolves n1 n'.

Definition sends n n' : Prop :=
  ∀ to req, (to, req) ∈ queued n' → (to, req) ∈ queued n ∨ fresh_request n n' to req.

Lemma sends_same n n' : queued n' = queued n → sends n n'.
Proof using Type. intros He to req H. left. by rewrite <-He. Qed.

Record post n n' : Prop := {
  post_inv : Inv n';
  post_evolves : evolves n n';
  post_caught_up : caught_up n → caught_up n';
  post_sends : sends n n';
}.

Lemma post_refl n : Inv n → post n n.
Proof using Type. intros H. split; [done|done|done|by apply sends_same]. Qed.

Lemma post_trans n1 n2 n3 : post n1 n2 → post n2 n3 → post n1 n3.
Proof using Type.
  intros [_ E12 C12 S12] [I3 E23 C23 S23]. split; [done|by etransitivity|auto|].
  intros to req H. apply S23 in H as [H|(x&p&Hto&Hx&Hr&Hp&A&B)].
  - apply S12 in H as [?|(x&p&Hto&Hx&Hr&Hp&A&B)]; [by left|right].
    exists x, p. split_and!; try done. by etransitivity.
  - right. exists x, p. split_and!; try done. by etransitivity.
Qed.

(** A change that queues nothing. *)
Lemma post_silent n n' :
  Inv n' → evolves n n' → (caught_up n → caught_up n') → queued n' = queued n → post n n'.
Proof using Type. intros ? ? ? Hq. split; [done|done|done|by apply sends_same]. Qed.

Lemma post_core n n' : core n' = core n → Inv n → post n n'.
Proof using Type.
  intros Hc HI. apply post_silent; [by eapply Inv_core|by apply evolves_core| |by apply pair_equal_spec in Hc as [_ ?]].
  unfold core, body in Hc. injection Hc as E1 E2 E3 E4 E5 E6 E7 E8 E9 E10 E11 E12 E13 E14.
  unfold caught_up, commit_of, n_state. by rewrite E4, E7.
Qed.

Lemma post_core_r n n1 n2 : post n n1 → core n2 = core n1 → post n n2.
Proof using Type. intros H Hc. eapply post_trans; [done|]. apply post_core; [done|apply H]. Qed.

(** Symbolic execution through a helper that leaves the core alone. *)
Definition silent (m : M (Node J) unit) : Prop :=
  ∀ n, wp E m (λ _ n', core n' = core n) n.

(** *** Facts of the invariant *)

Lemma Inv0_state n : Inv0 n → wf_state (n_state n).
Proof using Type. intros H. apply H. Qed.

Lemma Inv0_rep n term vote commit from entries :
  Inv0 n → term < two64 → text vote → commit < two64 → from < two64 → rep_entries entries →
  representable (save_record (n_store n) term vote commit from entries).
Proof using Type. intros H. apply rep_save_record. apply H. Qed.

Lemma wf_bounds n : wf_state (n_state n) →
  term_of n < two64 ∧ commit_of n < two64 ∧ last_index (n_state n) < two64 ∧
  base_of n ≤ commit_of n ∧ commit_of n ≤ last_index (n_state n) ∧ text (vote_of n).
Proof using Type.
  intros Hwf. destruct (last_index_lt _ Hwf) as (?&_&?&_).
  destruct (wf_commit _ Hwf). unfold term_of, commit_of, base_of, vote_of.
  split_and!; try done; try lia; apply Hwf.
Qed.

Lemma Inv0_bounds n : Inv0 n →
  term_of n < two64 ∧ commit_of n < two64 ∧ last_index (n_state n) < two64 ∧
  base_of n ≤ commit_of n ∧ commit_of n ≤ last_index (n_state n) ∧ text (vote_of n).
Proof using Type. intros H. by apply wf_bounds, Inv0_state. Qed.

Lemma text_self n : Inv0 n → text (cfg_ID (n_cfg n)).
Proof using Type.
  intros H. destruct (wf_self _ (inv_config n H)) as [p Hp].
  by destruct (wf_member _ (inv_config n H) _ _ Hp) as (_&?&_).
Qed.

Lemma lastLocked_wf n : wf_state (n_state n) → lastLocked n = last_index (n_state n).
Proof using Type. intros H. by apply last_spec. Qed.

Lemma entryLocked_wf n i : wf_state (n_state n) → i < two64 → entryLocked n i = log_at (n_state n) i.
Proof using Type. intros H. by apply entry_spec. Qed.

Lemma lastLocked_spec n : Inv0 n → lastLocked n = last_index (n_state n).
Proof using Type. intros H. by apply lastLocked_wf, Inv0_state. Qed.

Lemma entryLocked_spec n i : Inv0 n → i < two64 → entryLocked n i = log_at (n_state n) i.
Proof using Type. intros H. by apply entryLocked_wf, Inv0_state. Qed.

(** A record that keeps the log cannot exhaust memory. *)
Lemma updated_same_log d r : rc_From r = 0 → ds_log (updated d r) = ds_log d.
Proof using Type. intros H. unfold updated. cbn. by rewrite H. Qed.

Lemma available_failed n : availableLocked n = true → n_failed n = None.
Proof using Type.
  unfold availableLocked. intros H. apply andb_true_iff in H as [_ H].
  by apply bool_decide_eq_true in H.
Qed.

(** Saving a record that keeps the log. *)
Lemma persist_keep_log_wp term vote commit (Q : bool → Node J → Prop) n :
  let r := save_record (n_store n) term vote commit 0 [] in
  Inv0 n → term < two64 → text vote → commit < two64 → n_failed n = None →
  (∀ w, valid_update (st_identity (n_store n)) (n_state n) r →
     Inv0 (saved n w r) → evolves n (saved n w r) → Q true (saved n w r)) →
  (∀ n', post n n' → n_failed n' ≠ None → n_state n' = n_state n → n_role n' = follower →
     n_closed n' = n_closed n → n_paused n' = n_paused n → Q false n') →
  wp E (persistLocked term vote commit 0 []) Q n.
Proof.
  intros r H0 Ht Hv Hc Hnf Hok Hbad.
  pose proof (Inv0_rep n term vote commit 0 [] H0 Ht Hv Hc ltac:(done) rep_entries_nil) as Hrep.
  assert (lenN (ds_log (updated (n_state n) r)) < two63) as Hfit.
  { rewrite updated_same_log by done. apply wf_fits, Inv0_state, H0. }
  apply persist_wp; [done|done|done|by right|..].
  - intros w Hvu _ Hcon. apply Hok; [done|..].
    + apply Inv0_saved; try done. right. unfold last_index. by rewrite updated_same_log.
    + apply evolves_saved; try done; [right; by left|by left].
  - intros w err ev rd Hrec. apply Hbad; try done.
    apply post_silent; [by apply Inv_broken|by apply evolves_broken|done|done].
Qed.

(** *** Stepping down *)

Lemma Inv0_demote l n : Inv0 n → Inv0 (set_leader l (set_role follower n)).
Proof using Type. intros []. split; try done. by destruct inv_config0. Qed.

Lemma evolves_demote l n : evolves n (set_leader l (set_role follower n)).
Proof using Type.
  split; try done.
  - intros _. destruct (n_role n); cbn; lia.
  - intros hist. by apply history_kept.
Qed.

(** A follower that no client waits for. *)
Lemma Inv_follower n : Inv0 n → n_role n = follower → n_pending n = ∅ → Inv n.
Proof using Type. intros H0 Hr Hp. split; try done. Qed.

Record stepped n n' (term : N) : Prop := {
  sd_post : post n n';
  sd_role : n_role n' = follower;
  sd_failed : n_failed n' = None;
  sd_closed : n_closed n' = n_closed n;
  sd_paused : n_paused n' = n_paused n;
  sd_term : term_of n' = N.max term (term_of n);
  sd_vote : vote_of n' = if term_of n <? term then "" else vote_of n;
  sd_log : ds_log (n_state n') = ds_log (n_state n);
  sd_base : base_of n' = base_of n;
  sd_commit : commit_of n' = commit_of n;
}.

Lemma stepDown_wp term l (Q : bool → Node J → Prop) n :
  Inv n → term < two64 → n_failed n = None →
  (∀ n', stepped n n' term → n_leader n' = l → Q true n') →
  (∀ n', post n n' → n_failed n' ≠ None → n_state n' = n_state n → n_role n' = follower →
     n_closed n' = n_closed n → n_paused n' = n_paused n → term_of n < term → Q false n') →
  wp E (stepDownLocked term l) Q n.
Proof.
  intros HI Ht Hnf Hok Hbad. pose proof (inv_core n HI) as H0.
  destruct (Inv0_bounds n H0) as (_&Hc&_&_&_&_).
  unfold stepDownLocked. apply wp_bind, wp_get. apply wp_bind.
  fold (term_of n). set (changed := bool_decide _ || _).
  (* what follows a successful save *)
  assert (∀ n1, Inv0 n1 → evolves n n1 → (caught_up n → caught_up n1) →
    n_failed n1 = None → n_closed n1 = n_closed n → n_paused n1 = n_paused n →
    term_of n1 = N.max term (term_of n) →
    vote_of n1 = (if term_of n <? term then "" else vote_of n) →
    ds_log (n_state n1) = ds_log (n_state n) → base_of n1 = base_of n →
    commit_of n1 = commit_of n → queued n1 = queued n →
    wp E (modify (set_role follower) ;; modify (set_leader l) ;;
          when changed (emitLocked "STEPPED_DOWN" 0 l "" "") ;;
          n ← get; failPendingLocked (leaderErrorLocked n) ;; mret true) Q n1) as Hrest.
  { intros n1 H01 He1 Hcu Hf1 Hcl1 Hpa1 Ht1 Hv1 Hl1 Hb1 Hc1 Hq1.
    apply wp_bind, wp_modify. apply wp_bind, wp_modify. apply wp_bind.
    set (n2 := set_leader l (set_role follower n1)).
    assert (∀ n3, core n3 = core n2 → n_leader n3 = l →
      wp E (n ← get; failPendingLocked (leaderErrorLocked n) ;; mret true) Q n3) as Hlast.
    { intros n3 Hc3 Hl3. apply wp_bind, wp_get.
      assert (Inv0 n3) as H03 by (eapply Inv0_core; [exact Hc3|by apply Inv0_demote]).
      apply wp_bind, failPending_wp; [done|]. apply wp_ret, Hok; [|done].
      set (n4 := dismissed _ n3).
      assert (evolves n n4) as He4.
      { etransitivity; [exact He1|]. etransitivity; [apply (evolves_demote l)|].
        etransitivity; [by apply evolves_core|]. apply evolves_dismissed; [right; by eexists _, _|done]. }
      pose proof Hc3 as Hc3'. unfold core, body in Hc3'. injection Hc3' as _ _ _ Est _ Er Ea _ Ef Ec Ep _ _ Eq.
      assert (n_state n4 = n_state n1) as Hst.
      { unfold n_state. cbn [n4 dismissed n_store set_chans set_pending]. by rewrite Est. }
      assert (Inv n4) as HI4.
      { apply Inv_follower; [by apply Inv0_dismissed|exact Er|done]. }
      assert (caught_up n → caught_up n4) as Hcu4.
      { intros Hcn. apply Hcu in Hcn. unfold caught_up, commit_of in *. rewrite Hst.
        change (n_applied n4) with (n_applied n3). by rewrite Ea. }
      split; unfold term_of, vote_of, base_of, commit_of in *; rewrite ?Hst; try done.
      - apply post_silent; try done. change (queued n4) with (queued n3). by rewrite Eq.
      - change (n_failed n4) with (n_failed n3). by rewrite Ef.
      - change (n_closed n4) with (n_closed n3). by rewrite Ec.
      - change (n_paused n4) with (n_paused n3). by rewrite Ep. }
    apply wp_when.
    - intros _. apply emit_wp. intros ev rd. by apply Hlast.
    - intros _. by apply Hlast. }
  destruct (N.ltb_spec (term_of n) term) as [Hlt|Hge].
  - apply persist_keep_log_wp; try done.
    + intros w Hv H01 He1. cbn [negb]. apply Hrest; try done.
      * unfold term_of, n_state, saved in *. cbn. lia.
    + intros n' Hp Hf Hst Hr Hcl Hpa. cbn [negb]. apply wp_ret. by apply Hbad.
  - apply wp_ret. cbn [negb]. apply Hrest; try done. lia.
Qed.

(** *** Compaction *)

Lemma machine_of_takeSnapshot m : machine_of (takeSnapshot m) = m.
Proof using Type. by destruct m. Qed.

Definition snapped n (w : J) : Node J :=
  set_nstore (mkStore w (st_identity (n_store n)) (compacted (n_state n) (commit_of n))
                (takeSnapshot (n_machine n))) n.

Lemma snapped_ok n w s' :
  Inv n → caught_up n → n_failed n = None →
  store_checkpoint (takeSnapshot (n_machine n)) (commit_of n) (n_store n) = Some (None, s') →
  cfg_SnapshotEvery (n_cfg n) ≠ 0 → w = st_wal s' →
  s' = n_store (snapped n w) ∧ post n (snapped n w).
Proof.
  intros HI Hcu Hnf Hck Hse ->. pose proof (inv_core n HI) as H0.
  destruct (inv_wf_machine n H0) as [Hwm Hrm].
  destruct (Inv0_bounds n H0) as (_&Hc64&_&_&Hcl&_).
  pose proof (inv_store n H0) as Hws. pose proof (Inv0_state n H0) as Hwf.
  destruct (wf_checkpoint _ _ _ s' None Hws Hrm Hc64 Hck) as (Hws'&Hid&Hext&Hb&Hc&Hst&Hsn).
  destruct (checkpoint_content _ _ _ s' None Hws (inv_content n H0 Hnf) Hrm Hc64 Hck) as [Heq Hcon].
  assert (s' = n_store (snapped n (st_wal s'))) as Hs'.
  { destruct s' as [w id d sn]. cbn in *. by subst. }
  split; [done|]. fold (n_state n) in Hb, Hst, Hext. fold (base_of n) in Hb.
  assert (n_state (snapped n (st_wal s')) = compacted (n_state n) (commit_of n)) as Hst' by done.
  assert (commit_of n ≠ 0) as Hc0 by lia.
  pose proof (extends_compacted (n_state n) (commit_of n)) as Hext'.
  specialize (Hext' ltac:(unfold base_of in *; lia)).
  apply post_silent; [| | |done].
  - split; [|apply HI|apply HI|apply HI].
    pose proof H0 as [? ? ? _ [Hba Hac] Hm ? Hpend ? ?]. split; try done.
    + by destruct inv_config0.
    + by rewrite <-Hs'.
    + unfold base_of, caught_up, commit_of in *. rewrite Hst'. cbn. lia.
    + unfold machine_at, base_machine. cbn [snapped n_store set_nstore st_state st_snapshot n_machine n_applied].
      cbn [ds_base compacted]. rewrite (proj2 (N.eqb_neq _ _) Hc0). rewrite machine_of_takeSnapshot.
      unfold commands_to. cbn [ds_base compacted]. rewrite Hcu, N.sub_diag. done.
    + intros i w Hi. destruct (Hpend i w Hi) as (?&?&?). split_and!; try done.
      rewrite Hst', last_index_compacted; [done|done|unfold base_of in *; lia|done].
  - split; try done.
    + intros Hl _ _. rewrite Hst', last_index_compacted; [|done|unfold base_of in *; lia|done].
      split; [done|]. intros i Hi _. unfold base_of in Hi. rewrite Hst' in Hi. cbn in Hi.
      rewrite log_at_compacted by (unfold base_of in *; lia).
      by destruct (N.ltb_spec i (commit_of n)); [lia|].
    + intros hist. apply history_same; try done.
      * intros i e. rewrite Hst', log_at_compacted by (unfold base_of in *; lia).
        by destruct (N.ltb_spec i (commit_of n)).
      * intros i w Hi. split; [done|]. destruct (inv_pending n H0 i w Hi) as (Hia&_).
        rewrite Hst', log_at_compacted by (unfold base_of in *; lia).
        destruct (N.ltb_spec i (commit_of n)); [|done]. unfold caught_up in Hcu. lia.
  - intros _. unfold caught_up, commit_of in *. rewrite Hst'. done.
Qed.

(** The failing branch of [maybeSnapshotLocked]. *)
Lemma unreliable_ok n w err :
  Inv n → recoverable_at w n → n_failed n = None →
  post n (dismissed ErrUnavailable (set_leader "" (set_role follower (set_failed (Some err)
    (set_nstore (set_wal w (n_store n)) n))))).
Proof using Type.
  intros HI Hrec Hnf. pose proof (inv_core n HI) as H0.
  pose proof (Inv_broken n w err (n_events n) (n_reads n) H0 Hrec) as HI1.
  pose proof (evolves_broken n w err (n_events n) (n_reads n) H0 Hrec Hnf) as He1.
  eapply (post_core_r n (broken n w err (n_events n) (n_reads n))); [by apply post_silent|done].
Qed.

Lemma recoverable_snapshot n s' err :
  Inv n → caught_up n → n_failed n = None →
  store_checkpoint (takeSnapshot (n_machine n)) (commit_of n) (n_store n) = Some (Some err, s') →
  ∃ w, s' = set_wal w (n_store n) ∧ recoverable_at w n.
Proof.
  intros HI Hcu Hnf Hck. pose proof (inv_core n HI) as H0.
  destruct (inv_wf_machine n H0) as [_ Hrm]. destruct (Inv0_bounds n H0) as (_&Hc64&_).
  pose proof (inv_store n H0) as Hws. pose proof (inv_content n H0 Hnf) as Hcon.
  pose proof (store_checkpoint_spec (n_store n) _ _ Hws Hrm Hc64) as Hspec.
  rewrite Hck in Hspec. destruct Hspec as [[-> _]|(b&f&e'&w&_&_&_&_&_&_&->&_&Hlow&_)].
  { exists (st_wal (n_store n)). split; [by destruct (n_store n)|]. by apply recoverable_old. }
  exists w. split; [done|].
  destruct (checkpoint_content _ _ _ _ (Some err) Hws Hcon Hrm Hc64 Hck) as [_ [Hold|[Hext Hnew]]].
  { by apply recoverable_old. }
  right. eexists. split_and!; [exact Hnew|done|exact Hext|cbn; unfold caught_up, commit_of in *; lia|].
  unfold machine_at, base_machine. cbn [op_result st_state st_snapshot ds_base compacted].
  unfold commands_to. cbn [ds_base compacted]. unfold caught_up in Hcu. rewrite Hcu, N.sub_diag.
  cbn [N.to_nat take omap list_omap ApplyAll fst].
  rewrite (proj2 (N.eqb_neq _ _)) by lia. apply machine_of_takeSnapshot.
Qed.

Lemma maybeSnapshot_wp (Q : unit → Node J → Prop) n :
  Inv n → caught_up n →
  (∀ n', post n n' → n_closed n' = n_closed n → n_paused n' = n_paused n →
     ds_log (n_state n') = drop (N.to_nat (base_of n' - base_of n)) (ds_log (n_state n)) →
     term_of n' = term_of n → vote_of n' = vote_of n → commit_of n' = commit_of n →
     n_machine n' = n_machine n → n_applied n' = n_applied n →
     (n_role n ≠ leader → n' = n) →
     Q tt n') →
  wp E maybeSnapshotLocked Q n.
Proof.
  intros HI Hcu HQ. pose proof (inv_core n HI) as H0.
  assert (Q tt n) as Hid.
  { apply HQ; first [done | by apply post_refl | by rewrite N.sub_diag]. }
  unfold maybeSnapshotLocked. apply wp_bind, wp_get.
  destruct (_ || _ || _) eqn:Hcond; [by apply wp_ret|].
  apply orb_false_iff in Hcond as [Hcond Hrole]. apply orb_false_iff in Hcond as [Hse _].
  apply N.eqb_neq in Hse. apply bool_decide_eq_false in Hrole.
  assert (n_role n = leader) as Hl by (by apply dec_stable).
  destruct (existsb _ _); [by apply wp_ret|].
  assert (n_failed n = None) as Hnf.
  { destruct (n_failed n) eqn:Hf; [|done]. rewrite (inv_failed n HI) in Hl by (by rewrite Hf). done. }
  apply wp_bind, wp_zoom. unfold wp at 1. fold (commit_of n).
  destruct (inv_wf_machine n H0) as [_ Hrm]. destruct (Inv0_bounds n H0) as (_&Hc64&_).
  pose proof (store_checkpoint_spec (n_store n) _ _ (inv_store n H0) Hrm Hc64) as Hspec.
  destruct (store_checkpoint _ _ _) as [[[err|] s']|] eqn:Hck; [| |done].
  - destruct (recoverable_snapshot n s' err HI Hcu Hnf Hck) as (w&->&Hrec).
    do 3 apply wp_bind, wp_modify. set (n1 := set_leader _ _).
    pose proof (unreliable_ok n w err HI Hrec Hnf) as Hpost. fold n1 in Hpost.
    assert (Inv0 n1) as H01.
    { eapply Inv0_core; [|exact (Inv0_unreliable n w err (n_events n) (n_reads n) H0 Hrec)]. done. }
    apply wp_bind, failPending_wp; [done|]. apply emit_wp. intros ev rd.
    apply HQ; first [done | by eapply post_core_r | idtac].
    change (base_of (set_events _ _)) with (base_of n). by rewrite N.sub_diag.
  - destruct (snapped_ok n _ s' HI Hcu Hnf Hck Hse eq_refl) as [Hs' Hpost].
    apply wp_bind, wp_get. apply emit_wp. intros ev rd.
    replace (set_nstore s' n) with (snapped n (st_wal s')) by (by rewrite Hs' at 2).
    apply HQ; try done. by eapply post_core_r.
Qed.

(** *** Applying committed entries *)

Lemma commands_to_next d k e :
  wf_state d → ds_base d ≤ k → log_at d (k + 1) = Some e →
  commands_to d (k + 1) = commands_to d k ++ option_list (e_Command e).
Proof using Type.
  intros Hwf Hb He. unfold commands_to.
  rewrite (log_at_lookup d (k + 1) (S (N.to_nat (k - ds_base d)))) in He by lia.
  rewrite <-tail_lookup in He.
  replace (N.to_nat (k + 1 - ds_base d)) with (S (N.to_nat (k - ds_base d))) by lia.
  rewrite (take_S_r _ _ _ He), omap_app. f_equal.
Qed.

Lemma rep_Apply m c :
  wf_machine m → rep_snapshot (takeSnapshot m) → rep_command c →
  rep_snapshot (takeSnapshot (Apply m c).1).
Proof using Type.
  intros Hwf [Hv Hs Hc] Hrc. cbn in Hv, Hs, Hc.
  destruct (Check_cases m c) as [[e He]|[(p&_&_&_&Hd)|Hf]].
  - by rewrite (Apply_error _ _ _ _ _ He).
  - by rewrite (Apply_dup _ _ _ Hd).
  - rewrite (Apply_fresh _ _ Hf). destruct Hrc.
    assert (text (r_Value (execute (values m) c).2) ∧
      ∀ k v, (execute (values m) c).1 !! k = Some v → text k ∧ text v) as [Hr Hvals].
    { unfold execute. destruct (values m !! c_Key c) as [v|] eqn:Hk;
        repeat (case_bool_decide || case_match); cbn; (split; [try done; by eapply Hv|]);
        intros k w; first [intros [[<- <-]|[_ ?]]%lookup_insert_Some; [done|by eapply Hv]
          | intros [_ ?]%lookup_delete_Some; by eapply Hv | apply Hv]. }
    split; cbn.
    + done.
    + intros id v [[<- <-]|[_ ?]]%lookup_insert_Some; [done|by eapply Hs].
    + apply add64_lt.
Qed.

Lemma ApplyAll_entry m cs e :
  (ApplyAll m (cs ++ option_list (e_Command e))).1 = apply_entry (ApplyAll m cs).1 e.
Proof using Type.
  unfold apply_entry. destruct (e_Command e) as [c|]; cbn [option_list].
  - rewrite ApplyAll_app. cbn. by destruct (Apply (ApplyAll m cs).1 c).
  - by rewrite app_nil_r.
Qed.

(** What one round of the loop changes. *)
Record applies n n' (e : Entry) : Prop := {
  ap_static : (n_cfg n', n_peers n', n_rt n', n_store n', n_role n', n_failed n', n_closed n',
               n_paused n', n_newchan n', queued n') =
              (n_cfg n, n_peers n, n_rt n, n_store n, n_role n, n_failed n, n_closed n,
               n_paused n, n_newchan n, queued n);
  ap_machine : n_machine n' = apply_entry (n_machine n) e;
  ap_applied : n_applied n' = n_applied n + 1;
  ap_pending : n_pending n' = delete (n_applied n + 1) (n_pending n);
  ap_chans : ∀ c, (∀ w, n_pending n !! (n_applied n + 1) = Some w → w_done w ≠ c) →
    n_chans n' !! c = n_chans n !! c;
  ap_answer : ∀ w, n_pending n !! (n_applied n + 1) = Some w →
    n_chans n' !! w_done w = Some (Some (answer (n_machine n) e w));
}.

Lemma applies_explains n n' e hist :
  log_at (n_state n) (n_applied n + 1) = Some e → applies n n' e →
  explains hist n → explains (hist ++ [e]) n'.
Proof using Type.
  intros He [Hst Hm Ha _ _ _] [Hlen Hmach Hlog]. injection Hst as _ _ _ E4 _ _ _ _ _ _. split.
  - rewrite lenN_app, Hlen, Ha. done.
  - unfold history_machine. rewrite omap_app. cbn. rewrite Hm, Hmach.
    replace (match e_Command e with Some y => [y] | None => [] end)
      with (option_list (e_Command e)) by (by destruct (e_Command e)).
    by rewrite ApplyAll_entry.
  - intros i x Hx Hi Hia. unfold n_state in Hx. rewrite E4 in Hx. fold (n_state n) in Hx.
    rewrite Ha in Hia.
    destruct (N.eq_dec i (n_applied n + 1)) as [->|Hne].
    + rewrite He in Hx. injection Hx as <-.
      rewrite lookup_app_r by (unfold lenN in Hlen; lia).
      replace (N.to_nat _ - length hist)%nat with 0%nat by (unfold lenN in Hlen; lia). done.
    + rewrite lookup_app_l by (unfold lenN in Hlen; lia). apply Hlog; [done|done|lia].
Qed.

Lemma applies_attends n n' e hist :
  Inv0 n → log_at (n_state n) (n_applied n + 1) = Some e → applies n n' e →
  explains hist n → attends (hist ++ [e]) n n'.
Proof using Type.
  intros H0 He [Hst _ _ Hp _ Hans] [Hlen Hmach _] i w Hi _.
  injection Hst as _ _ _ E4 _ _ _ _ _ _. unfold n_state at 1. rewrite E4. fold (n_state n).
  destruct (N.eq_dec i (n_applied n + 1)) as [->|Hne].
  - right. split.
    + intros (j&v&Hj&Hd). rewrite Hp in Hj. apply lookup_delete_Some in Hj as [Hne Hj].
      apply Hne. symmetry. by eapply (inv_distinct n H0).
    + intros out Ho. rewrite (Hans w Hi) in Ho. injection Ho as <-. right. exists e.
      replace (N.to_nat (n_applied n + 1 - 1)) with (length hist) by (unfold lenN in Hlen; lia).
      rewrite take_app_length, <-Hmach. split_and!; [done| |done].
      by rewrite lookup_app_r, Nat.sub_diag by done.
  - left. rewrite Hp. by rewrite lookup_delete_ne.
Qed.

Lemma applies_evolves n n' e :
  Inv0 n → log_at (n_state n) (n_applied n + 1) = Some e → applies n n' e → evolves n n'.
Proof using Type.
  intros H0 He Hap. pose proof Hap as [Hst Hm Ha Hp Hc _]. injection Hst as E1 E2 E3 E4 E5 E6 E7 E8 E9 E10.
  split; unfold base_of, term_of; try (unfold n_state; rewrite ?E1, ?E2, ?E3, ?E4, ?E5, ?E6, ?E9; done).
  - rewrite Ha. lia.
  - intros hist Hh. exists [e]. split; [by eapply applies_explains|by apply applies_attends].
  - intros c Hn Hw. split.
    + intros []. apply Hc. intros w Hw' <-. apply Hw. by exists (n_applied n + 1), w.
    + intros (i&w&Hi&Hd). apply Hw. exists i, w. rewrite Hp in Hi.
      by apply lookup_delete_Some in Hi as [_ ?].
Qed.

Lemma applies_ok n n' e :
  Inv n → n_failed n = None → log_at (n_state n) (n_applied n + 1) = Some e → n_applied n < commit_of n →
  applies n n' e → Inv n' ∧ evolves n n'.
Proof using Type.
  intros HI Hnf He Hlt Hap. pose proof (inv_core n HI) as H0.
  split; [|by eapply applies_evolves].
  destruct Hap as [Hst Hm Ha Hp Hc _]. injection Hst as E1 E2 E3 E4 E5 E6 E7 E8 E9 E10.
  destruct (inv_applied n H0) as [Hb Hac]. pose proof (Inv0_state n H0) as Hwf.
  destruct (log_at_Index _ Hwf _ _ He) as [_ Hrep].
  assert (∀ i w, n_pending n' !! i = Some w → i ≠ n_applied n + 1 ∧ n_pending n !! i = Some w) as Hp'.
  { intros i w. rewrite Hp. intros [? ?]%lookup_delete_Some. done. }
  split.
  - pose proof H0 as [Hcfg Hws Hcon _ _ Hmach [Hwm Hrm] Hpend Hdis Hfr].
    split; unfold base_of, commit_of, n_state; rewrite ?E4, ?E6, ?E9; try done.
    + destruct Hcfg. split; by rewrite ?E1, ?E2.
    + rewrite Ha. unfold commit_of, base_of, n_state in *. lia.
    + rewrite Hm, Ha, Hmach. unfold machine_at.
      rewrite (commands_to_next (st_state (n_store n)) _ e) by done. by rewrite ApplyAll_entry.
    + rewrite Hm. unfold apply_entry. destruct (e_Command e) as [c|] eqn:Hce; [|done].
      split; [by apply wf_Apply|]. apply rep_Apply; [done|done|]. by apply Hrep.
    + intros i w Hi. destruct (Hp' i w Hi) as [Hne Hi']. destruct (Hpend i w Hi') as (?&?&Hch).
      split_and!; [rewrite Ha; lia|done|]. rewrite Hc; [done|].
      intros w' Hw' Heq. by apply (Hdis _ i w' w Hw') in Heq.
    + intros i j w w' Hi Hj. destruct (Hp' i w Hi), (Hp' j w' Hj). by apply Hdis.
    + intros c Hc'. rewrite Hc; [by apply Hfr|]. intros w Hw <-.
      destruct (Hpend _ w Hw) as (_&_&Hch). by rewrite Hfr in Hch.
  - intros Hne. unfold availableLocked. rewrite E5, E6, E7, E8. apply (inv_waiting n HI).
    intros Hem. apply Hne. rewrite Hp, Hem. apply delete_empty.
  - unfold vote_of, n_state. rewrite E1, E4, E5. apply HI.
  - rewrite E5, E6. apply HI.
Qed.

Lemma apply_one_wp (Q : unit → Node J → Prop) n :
  Inv n → n_applied n < commit_of n →
  (∀ n' e, log_at (n_state n) (n_applied n + 1) = Some e → applies n n' e → Q tt n') →
  wp E apply_one Q n.
Proof.
  intros HI Hlt HQ. pose proof (inv_core n HI) as H0.
  destruct (Inv0_bounds n H0) as (_&Hc64&_&_&Hcl&_). destruct (inv_applied n H0) as [Hb _].
  destruct (log_at_some _ (Inv0_state n H0) (n_applied n + 1)) as [e He];
    [unfold base_of in *; lia|lia|].
  unfold apply_one. apply wp_bind, wp_get. apply wp_bind, wp_modify.
  rewrite add64_small by lia. apply wp_bind, wp_get.
  change (n_applied (set_applied (n_applied n + 1) n)) with (n_applied n + 1).
  change (entryLocked (set_applied (n_applied n + 1) n) (n_applied n + 1))
    with (entryLocked n (n_applied n + 1)).
  rewrite entryLocked_spec by (done || lia). rewrite He.
  apply wp_bind, wp_lift_some. apply wp_bind, emit_wp. intros ev rd. apply wp_bind.
  set (n1 := set_events _ _).
  set (out := match e_Command e with
              | Some c => mkOutcome (Apply (n_machine n) c).2.1 (Apply (n_machine n) c).2.2
              | None => mkOutcome zeroResult None
              end).
  (* the rest, after the machine has moved *)
  assert (wp E (n ← get;
    match n_pending n !! n_applied n with
    | None => mret tt
    | Some w =>
      let out :=
        match w_readKey w with
        | None => out
        | Some key =>
          let '(value, found) := Get (n_machine n) key in
          mkOutcome (mkResult value found (r_Applied (o_result out)) (r_Conflict (o_result out)))
            (o_err out)
        end in
      send (w_done w) out ;; modify (set_pending (delete (n_applied n) (n_pending n)))
    end) Q (set_machine (apply_entry (n_machine n) e) n1)) as Hrest.
  { apply wp_bind, wp_get. cbn [n_pending n_applied n_machine set_machine n1 set_events set_reads set_applied].
    destruct (n_pending n !! (n_applied n + 1)) as [w|] eqn:Hw.
    - destruct (inv_pending n H0 _ w Hw) as (_&_&Hch). cbv zeta.
      apply wp_bind. unfold send. apply wp_bind, wp_get.
      change (n_chans (set_machine (apply_entry (n_machine n) e) n1)) with (n_chans n). rewrite Hch.
      apply wp_modify, wp_modify. apply (HQ _ e He).
      split; try done.
      + intros c Hc. cbn. rewrite lookup_insert_ne; [done|]. by apply Hc.
      + intros w' Hw'. rewrite Hw in Hw'. injection Hw' as <-. cbn. rewrite lookup_insert_eq.
        unfold answer. fold out. done.
    - apply wp_ret. apply (HQ _ e He). split; try done.
      + cbn. by rewrite delete_id.
      + intros w' Hw'. by rewrite Hw in Hw'. }
  unfold out in Hrest. unfold apply_entry in Hrest. destruct (e_Command e) as [c|].
  - apply wp_bind, wp_get. change (n_machine n1) with (n_machine n).
    destruct (Apply (n_machine n) c) as [m [result err]].
    apply wp_bind, wp_modify. apply wp_ret, Hrest.
  - apply wp_ret. exact Hrest.
Qed.

(** One entry after the other. *)
Definition applies_one n n' : Prop :=
  n_applied n < commit_of n ∧
  ∃ e, log_at (n_state n) (n_applied n + 1) = Some e ∧ applies n n' e.

Lemma apply_loop_from (Q : unit → Node J → Prop) fuel n n1 :
  rtc applies_one n n1 → evolves n n1 → Inv n1 → n_failed n1 = None →
  fuel = N.to_nat (commit_of n1 - n_applied n1) →
  (∀ n', rtc applies_one n n' → Inv n' → evolves n n' → caught_up n' → Q tt n') →
  wp E (apply_loop fuel) Q n1.
Proof.
  revert n1. induction fuel as [|fuel IH]; intros n1 Hst Hev HI Hnf Hf HQ.
  - apply HQ; try done. destruct (inv_applied n1 (inv_core n1 HI)). unfold caught_up. lia.
  - cbn [apply_loop]. apply wp_bind, wp_get. fold (commit_of n1).
    destruct (N.ltb_spec (n_applied n1) (commit_of n1)) as [Hlt|]; [|lia].
    apply wp_bind, apply_one_wp; [done|done|]. intros n2 e He Hap.
    destruct (applies_ok n1 n2 e HI Hnf He Hlt Hap) as [HI2 He2].
    apply IH; try done.
    + eapply rtc_r; [done|]. split; [done|]. by exists e.
    + by etransitivity.
    + pose proof (ap_static _ _ _ Hap) as Hstat. injection Hstat as _ _ _ _ _ Ef _ _ _ _. by rewrite Ef.
    + rewrite (ap_applied _ _ _ Hap). pose proof (ap_static _ _ _ Hap) as Hstat.
      injection Hstat as _ _ _ Es _ _ _ _ _. unfold commit_of, n_state in *. rewrite Es. lia.
Qed.

Lemma applies_static n n' : rtc applies_one n n' →
  (n_cfg n', n_peers n', n_rt n', n_store n', n_role n', n_failed n', n_closed n', n_paused n',
   n_newchan n', queued n') =
  (n_cfg n, n_peers n, n_rt n, n_store n, n_role n, n_failed n, n_closed n, n_paused n,
   n_newchan n, queued n).
Proof using Type.
  induction 1 as [|n n1 n' (_&e&_&Hap) _ IH]; [done|]. rewrite IH. apply Hap.
Qed.

(** [applyLocked] on a node that may lag behind its commit index. *)
Lemma applyLocked_wp (Q : unit → Node J → Prop) n :
  Inv n → n_failed n = None →
  (∀ n1 n', rtc applies_one n n1 → Inv n1 → evolves n n1 → caught_up n1 →
     post n1 n' → n_closed n' = n_closed n → n_paused n' = n_paused n →
     ds_log (n_state n') = drop (N.to_nat (base_of n' - base_of n)) (ds_log (n_state n)) →
     term_of n' = term_of n → vote_of n' = vote_of n → commit_of n' = commit_of n →
     n_machine n' = n_machine n1 → n_applied n' = n_applied n1 →
     (n_role n ≠ leader → n' = n1) → Q tt n') →
  wp E applyLocked Q n.
Proof.
  intros HI Hnf HQ. unfold applyLocked. apply wp_bind, wp_get.
  apply wp_bind. apply (apply_loop_from _ _ n n); try done.
  intros n1 Hst HI1 Hev Hcu. pose proof (applies_static _ _ Hst) as Hs.
  injection Hs as _ _ _ Es Er _ Ec Ep _ _.
  apply maybeSnapshot_wp; [done|done|]. intros n' Hp Hc1 Hp1 Hl1 Ht1 Hv1 Hco1 Hm1 Ha1 Hnl.
  rewrite Er in Hnl.
  unfold term_of, vote_of, commit_of, base_of, n_state in *. rewrite Es in *.
  apply (HQ n1); try done; congruence.
Qed.

(** *** Preparing and queueing requests *)

Lemma batch_end_spec fuel n next end_ bytes :
  wf_state (n_state n) → last_index (n_state n) + 1 < two64 →
  base_of n ≤ end_ → next ≤ end_ → end_ ≤ last_index (n_state n) + 1 → end_ - next ≤ 32 →
  ∃ end', batch_end fuel n next end_ bytes = Some end' ∧ end_ ≤ end' ∧
    end' ≤ last_index (n_state n) + 1 ∧ end' - next ≤ 32.
Proof using Type.
  intros H0 Hl. revert end_ bytes. induction fuel as [|fuel IH]; intros end_ bytes Hb Hn He H32.
  { exists end_. split_and!; done || lia. }
  cbn [batch_end]. rewrite lastLocked_wf by done.
  destruct (N.leb_spec end_ (last_index (n_state n))); cbn [andb];
    [|exists end_; split_and!; done || lia].
  rewrite sub64_small by lia.
  destruct (N.ltb_spec (end_ - next) 32); [|exists end_; split_and!; done || lia].
  rewrite entryLocked_wf by (done || lia).
  destruct (log_at_some _ H0 end_) as [e Hee]; [done|done|].
  rewrite Hee. cbn [mbind option_bind]. destruct (_ <? _); [exists end_; split_and!; done || lia|].
  rewrite add64_small by lia.
  edestruct (IH (end_ + 1)) as (end'&Heq&?&?&?); [lia..|].
  exists end'. split_and!; [exact Heq|lia..].
Qed.

(** The batch begins with an entry that has been compacted away. *)
Lemma batch_end_panics fuel n next bytes :
  wf_state (n_state n) → next ≤ last_index (n_state n) → next < base_of n →
  batch_end (S fuel) n next next bytes = None.
Proof using Type.
  intros H0 Hl Hb. destruct (wf_bounds n H0) as (_&_&Hl64&_).
  cbn [batch_end]. rewrite lastLocked_wf by done.
  rewrite (proj2 (N.leb_le _ _)) by done.
  rewrite sub64_small, N.sub_diag by lia. cbn [andb N.ltb N.compare].
  rewrite entryLocked_wf by (done || lia).
  assert (log_at (n_state n) next = None) as ->; [|done].
  unfold log_at. destruct (N.ltb_spec next (ds_base (n_state n))); [done|unfold base_of in *; lia].
Qed.

Lemma entries_between_spec fuel n i end_ :
  wf_state (n_state n) → last_index (n_state n) + 1 < two64 → fuel = N.to_nat (end_ - i) →
  base_of n ≤ i → end_ ≤ last_index (n_state n) + 1 →
  ∃ es, entries_between fuel n i end_ = Some es ∧ lenN es = end_ - i ∧
    ∀ k e, es !! k = Some e → log_at (n_state n) (i + N.of_nat k) = Some e.
Proof using Type.
  intros H0 Hl. revert i. induction fuel as [|fuel IH]; intros i Hf Hb He.
  { exists []. split_and!; [done|rewrite lenN_nil; lia|]. intros k e Hk. by rewrite lookup_nil in Hk. }
  cbn [entries_between]. destruct (N.ltb_spec i end_); [|lia].
  rewrite entryLocked_wf by (done || lia).
  destruct (log_at_some _ H0 i) as [e Hee]; [done|lia|]. rewrite Hee.
  cbn [mbind option_bind]. rewrite add64_small by lia.
  destruct (IH (i + 1)) as (es&Hes&Hlen&Hall); [lia..|]. rewrite Hes. cbn.
  exists (e :: es). split_and!; [done|rewrite lenN_cons; lia|].
  intros [|k] x Hx; cbn in Hx.
  - injection Hx as <-. by rewrite N.add_0_r.
  - apply Hall in Hx. rewrite <-Hx. f_equal. lia.
Qed.

Lemma resume_bounds n peer : 1 ≤ last_index (n_state n) + 1 →
  1 ≤ resume n peer ∧ resume n peer ≤ last_index (n_state n) + 1.
Proof using Type. unfold resume. lia. Qed.

Lemma base_zero_end n : wf_state (n_state n) → base_of n = 0 → last_index (n_state n) + 1 < two64.
Proof using Type.
  intros H0 Hb. pose proof (wf_fits _ H0).
  pose proof (wf_len _ H0). unfold base_of, last_index, two63, two64 in *. lia.
Qed.

(** It panics only on a compacted log, for a peer that would resume at or below
    the base. *)
Lemma prepareAppend_wf (Q : AppendRequest → Node J → Prop) peer n :
  wf_state (n_state n) →
  (base_of n ≠ 0 → resume n peer ≤ base_of n ∨ two64 ≤ last_index (n_state n) + 1 → E) →
  (∀ req ev rd, prepared n peer req →
     Q req (set_events ev (set_reads rd (set_sequence (add64 (n_sequence n) 1) n)))) →
  wp E (prepareAppendLocked peer) Q n.
Proof.
  intros H0 Hstuck HQ. destruct (wf_bounds n H0) as (Ht64&Hc64&Hl64&Hbc&Hcl&_).
  pose proof (wf_len _ H0) as Hlen.
  destruct (resume_bounds n peer) as [Hr1 Hr2]; [lia|].
  unfold prepareAppendLocked. apply wp_bind, wp_get.
  rewrite lastLocked_wf by done. fold (base_of n).
  destruct (N.le_gt_cases two64 (last_index (n_state n) + 1)) as [Hov|Hov].
  { (* the index space is exhausted: next is zero *)
    assert (last_index (n_state n) = two64 - 1) as Hlast by lia. rewrite Hlast.
    change (add64 (two64 - 1) 1) with 0. rewrite N.min_0_r.
    assert (base_of n ≠ 0) as Hb0.
    { intros Hb0. pose proof (base_zero_end n H0 Hb0). lia. }
    assert (batch_end 33 n 0 0 1024 = None) as ->.
    { apply batch_end_panics; [done|lia|]. destruct (N.eq_0_gt_0_cases (base_of n)); [done|lia]. }
    apply wp_bind, wp_lift; [|done]. intros _. by apply Hstuck; [|right]. }
  rewrite add64_small by done. fold (resume n peer). set (next := resume n peer) in *.
  destruct (N.lt_ge_cases next (base_of n)) as [Hlow|Hhigh].
  { rewrite batch_end_panics by (done || lia).
    apply wp_bind, wp_lift; [|done]. intros _. apply Hstuck; lia. }
  destruct (batch_end_spec 33 n next next 1024 H0) as (end'&Hend&Hge&Hle&H32);
    [done|lia|lia|lia|rewrite N.sub_diag; lia|].
  rewrite Hend. apply wp_bind, wp_lift_some.
  rewrite sub64_small by lia.
  assert (∃ prev nx, (if next - 1 <? base_of n then (base_of n, add64 (base_of n) 1) else (next - 1, next))
    = (prev, nx) ∧ prev = N.max (next - 1) (base_of n) ∧ nx = prev + 1 ∧ prev ≤ last_index (n_state n) ∧
      (end' < nx → base_of n ≠ 0 ∧ next ≤ base_of n) ∧ next ≤ nx) as (prev&nx&->&Hprev&Hnx&Hpl&Hbad&Hnn).
  { destruct (N.ltb_spec (next - 1) (base_of n)).
    - exists (base_of n), (base_of n + 1). rewrite add64_small by lia. split_and!; try lia. done.
    - exists (next - 1), next. split_and!; try lia. done. }
  destruct (N.ltb_spec end' nx) as [Hlt|Hnx'].
  { unfold wp, panic. destruct (Hbad Hlt). apply Hstuck; [done|by left]. }
  destruct (entries_between_spec (N.to_nat (end' - nx)) n nx end' H0) as (es&Hes&Hlen'&Hall);
    [done|done|lia|lia|].
  rewrite Hes. apply wp_bind, wp_lift_some.
  rewrite entryLocked_wf by (done || lia).
  destruct (log_at_some _ H0 prev) as [p Hp]; [unfold base_of in *; lia|done|].
  rewrite Hp. apply wp_bind, wp_lift_some.
  apply wp_bind. unfold next_sequence. apply wp_bind, wp_get. apply wp_bind, wp_modify. apply wp_gets.
  apply wp_bind, emit_wp. intros ev rd. apply wp_ret. apply HQ.
  split; cbn; try done.
  - by exists p.
  - intros k e Hk. rewrite <-(Hall k e Hk). f_equal. lia.
  - change (lenN es ≤ 32). rewrite Hlen'. lia.
Qed.

Lemma prepareAppend_wp (Q : AppendRequest → Node J → Prop) peer n :
  Inv0 n →
  (base_of n ≠ 0 → resume n peer ≤ base_of n ∨ two64 ≤ last_index (n_state n) + 1 → E) →
  (∀ req ev rd, prepared n peer req →
     Q req (set_events ev (set_reads rd (set_sequence (add64 (n_sequence n) 1) n)))) →
  wp E (prepareAppendLocked peer) Q n.
Proof. intros H0. apply prepareAppend_wf, Inv0_state, H0. Qed.

Lemma prepareAppend_core (Q : AppendRequest → Node J → Prop) peer n :
  Inv0 n → (base_of n ≠ 0 → E) →
  (∀ req n', prepared n peer req → core n' = core n → n_next n' = n_next n → n_match n' = n_match n →
     n_calls n' = n_calls n → Q req n') →
  wp E (prepareAppendLocked peer) Q n.
Proof.
  intros H0 Hb HQ. apply prepareAppend_wp; [done|auto|].
  intros req ev rd Hp. by apply HQ.
Qed.

(** Requests have been queued, and nothing else has happened. *)
Record kicked n n' : Prop := {
  ki_body : body n' = body n;
  ki_sends : sends n n';
}.

Lemma kicked_core n n' : core n' = core n → kicked n n'.
Proof using Type. intros [Hb Hq]%pair_equal_spec. split; [done|by apply sends_same]. Qed.

Lemma kicked_trans n1 n2 n3 : kicked n1 n2 → kicked n2 n3 → kicked n1 n3.
Proof using Type.
  intros [B12 S12] [B23 S23]. split; [congruence|]. intros to req H.
  apply evolves_body in B12, B23.
  apply S23 in H as [H|(x&p&Hto&Hx&Hr&Hp&A&B)].
  - apply S12 in H as [?|(x&p&Hto&Hx&Hr&Hp&A&B)]; [by left|right].
    exists x, p. split_and!; try done. by etransitivity.
  - right. exists x, p. split_and!; try done. by etransitivity.
Qed.

Lemma kicked_post n n' : Inv n → kicked n n' → post n n'.
Proof using Type.
  intros HI [Hb Hs]. split; [by eapply Inv_body|by apply evolves_body| |done].
  unfold body in Hb. injection Hb as E1 E2 E3 E4 E5 E6 E7 E8 E9 E10 E11 E12 E13.
  unfold caught_up, commit_of, n_state. by rewrite E4, E7.
Qed.

Lemma queueAppend_kicked (Q : unit → Node J → Prop) peer n :
  Inv0 n → (base_of n ≠ 0 → E) → (∀ n', kicked n n' → Q tt n') → wp E (queueAppendLocked peer) Q n.
Proof.
  intros H0 Hb HQ. unfold queueAppendLocked. apply wp_bind, wp_get.
  destruct (_ || _ || _) eqn:Hcond; [apply wp_ret, HQ; by apply kicked_core|].
  apply orb_false_iff in Hcond as [_ Hr]. apply bool_decide_eq_false in Hr.
  assert (n_role n = leader) as Hl by (by apply dec_stable).
  apply wp_bind, prepareAppend_core; [done|done|]. intros req n' Hp Hc Hn Hm _.
  apply wp_bind, wp_get. apply wp_bind, wp_modify. apply wp_modify. apply HQ.
  pose proof Hc as [Hbody Hq]%pair_equal_spec. split; [done|]. intros to r H.
  set (m := mkMessage _ _ _ _ _) in H. unfold queued in H. cbn [n_outbox set_outbox set_busy] in H.
  rewrite omap_app, elem_of_app in H. fold (queued n') in H. rewrite Hq in H.
  destruct H as [?|H]; [by left|right]. cbn in H. apply list_elem_of_singleton in H as [= -> ->].
  exists n, peer. split_and!; try done. by apply evolves_body.
Qed.

Lemma kick_wp (Q : unit → Node J → Prop) n :
  Inv0 n → (base_of n ≠ 0 → E) → (∀ n', kicked n n' → Q tt n') → wp E kickLocked Q n.
Proof.
  intros H0 Hb HQ. unfold kickLocked. apply wp_bind, wp_get.
  destruct (rt_Manual (n_rt n)); [|apply wp_modify, HQ; by apply kicked_core].
  eapply wp_mono; [apply (wp_for_each E _ (kicked n))|].
  - intros p n1 _ Hk. pose proof (ki_body _ _ Hk) as Hc'. unfold body in Hc'.
    injection Hc' as _ _ _ Es _ _ _ _ _ _ _ _ _.
    apply queueAppend_kicked; [eapply Inv0_body; [apply Hk|done]| |].
    + unfold base_of, n_state. rewrite Es. exact Hb.
    + intros n2 H2. by eapply kicked_trans.
  - by apply kicked_core.
  - intros [] n' Hk. by apply HQ.
Qed.

(** *** The commit index *)

(** The members the leader knows to have the log up to an index: itself, and
    those whose acknowledged index has reached it. *)
Definition holders n (i : N) : gset string :=
  filter (λ id, id = cfg_ID (n_cfg n) ∨ i ≤ match_of n id) (dom (n_peers n)).

Definition majority n (Q : gset string) : Prop :=
  Q ⊆ dom (n_peers n) ∧ (size (dom (n_peers n)) < 2 * size Q)%nat.

(** An index the leader may commit: an entry of its own term that a majority,
    itself included, is known to have. *)
Definition committable n (i : N) : Prop :=
  (∃ e, log_at (n_state n) i = Some e ∧ e_Term e = term_of n) ∧ majority n (holders n i).

(** The method counts the holders, and compares with half the members. *)
Lemma replicas_holders n i : is_Some (n_peers n !! cfg_ID (n_cfg n)) →
  replicas n i = size (holders n i).
Proof using Type.
  intros [p Hself].
  set (ps := filter (λ x : string * Peer, x.1 ≠ cfg_ID (n_cfg n) ∧ i ≤ match_of n x.1) (map_to_list (n_peers n))).
  assert (NoDup ps.*1) as Hnd.
  { eapply sublist_NoDup; [apply (NoDup_fst_map_to_list (n_peers n))|].
    apply fmap_sublist, sublist_filter. }
  assert (∀ v, v ∈ ps.*1 ↔ v ≠ cfg_ID (n_cfg n) ∧ i ≤ match_of n v ∧ v ∈ dom (n_peers n)) as Hps.
  { intros v. split.
    - intros ([v' q]&->&[[Hne Hm] Hv]%list_elem_of_filter)%list_elem_of_fmap.
      apply elem_of_map_to_list in Hv. split_and!; [done..|by apply elem_of_dom_2 in Hv].
    - intros (Hne&Hm&[q Hv]%elem_of_dom). apply list_elem_of_fmap. exists (v, q). split; [done|].
      apply list_elem_of_filter. split; [done|]. by apply elem_of_map_to_list. }
  assert (holders n i = {[cfg_ID (n_cfg n)]} ∪ list_to_set ps.*1) as ->.
  { apply set_eq. intros v. unfold holders.
    rewrite elem_of_filter, elem_of_union, elem_of_singleton, elem_of_list_to_set, Hps.
    destruct (decide (v = cfg_ID (n_cfg n))) as [->|]; [|naive_solver].
    split; [by left|]. intros _. split; [by left|]. by apply elem_of_dom_2 in Hself. }
  rewrite size_union by (apply disjoint_singleton_l; rewrite elem_of_list_to_set, Hps; by intros [? _]).
  rewrite size_singleton, size_list_to_set by done. by rewrite length_fmap.
Qed.

Lemma majority_votes n i : wf_config n →
  (half n < replicas n i)%nat ↔ majority n (holders n i).
Proof using Type.
  intros Hc. rewrite replicas_holders by apply (wf_self _ Hc). unfold half, majority.
  rewrite size_dom. pose proof (Nat.div_mod_eq (size (n_peers n)) 2) as Hd.
  pose proof (Nat.mod_upper_bound (size (n_peers n)) 2 ltac:(done)) as Hm. split.
  - intros Hlt. split; [|lia]. intros v Hv. unfold holders in Hv. by apply elem_of_filter in Hv as [_ ?].
  - intros [_ Hlt]. lia.
Qed.

Lemma commit_index_wf fuel n index :
  wf_state (n_state n) → wf_config n → index ≤ last_index (n_state n) → fuel = N.to_nat (index - commit_of n) →
  ∃ r, commit_index fuel n index = Some r ∧
    match r with
    | Some i => commit_of n < i ∧ i ≤ index ∧ committable n i ∧
        ∀ j, i < j → j ≤ index → ¬ committable n j
    | None => ∀ j, commit_of n < j → j ≤ index → ¬ committable n j
    end.
Proof using Type.
  intros H0 Hconf. destruct (wf_bounds n H0) as (_&_&Hl64&Hbc&_).
  revert index. induction fuel as [|fuel IH]; intros index Hi Hf.
  { exists None. split; [done|]. intros j Hj1 Hj2. lia. }
  cbn [commit_index]. fold (commit_of n). fold (term_of n).
  destruct (N.ltb_spec (commit_of n) index) as [Hlt|]; [|lia].
  rewrite entryLocked_wf by (done || lia).
  destruct (log_at_some _ H0 index) as [e He]; [unfold base_of in *; lia|done|].
  rewrite He. cbn [mbind option_bind]. rewrite sub64_small by lia.
  assert (¬ committable n index →
    ∃ r, commit_index fuel n (index - 1) = Some r ∧
    match r with
    | Some i => commit_of n < i ∧ i ≤ index ∧ committable n i ∧
        ∀ j, i < j → j ≤ index → ¬ committable n j
    | None => ∀ j, commit_of n < j → j ≤ index → ¬ committable n j
    end) as Hnext.
  { intros Hnot. destruct (IH (index - 1)) as (r&Hr&Hspec); [lia|lia|].
    exists r. split; [done|]. destruct r as [i|].
    - destruct Hspec as (?&?&?&Hmax). split_and!; [done|lia|done|]. intros j Hj1 Hj2.
      destruct (N.eq_dec j index) as [->|]; [done|]. apply Hmax; lia.
    - intros j Hj1 Hj2. destruct (N.eq_dec j index) as [->|]; [done|]. apply Hspec; lia. }
  destruct (N.eqb_spec (e_Term e) (term_of n)) as [Ht|Ht]; cbn [negb].
  2: { apply Hnext. intros [(e'&He'&Ht') _]. rewrite He in He'. by injection He' as <-. }
  destruct (Nat.ltb_spec (half n) (replicas n index)) as [Hm|Hm].
  - exists (Some index). split; [done|]. split_and!; [done|lia|split; [by exists e|by apply majority_votes]|lia].
  - apply Hnext. intros [_ Hm'%(majority_votes _ _ Hconf)]. lia.
Qed.

Lemma commit_index_spec fuel n index :
  Inv0 n → index ≤ last_index (n_state n) → fuel = N.to_nat (index - commit_of n) →
  ∃ r, commit_index fuel n index = Some r ∧
    match r with
    | Some i => commit_of n < i ∧ i ≤ index ∧ committable n i ∧
        ∀ j, i < j → j ≤ index → ¬ committable n j
    | None => ∀ j, commit_of n < j → j ≤ index → ¬ committable n j
    end.
Proof using Type. intros H0. apply commit_index_wf; [by apply Inv0_state|apply H0]. Qed.

(** A panic is possible only if the log is, or may get, compacted. *)
Definition no_panic n : Prop := base_of n ≠ 0 ∨ cfg_SnapshotEvery (n_cfg n) ≠ 0 → E.

Lemma no_panic_base n : no_panic n → base_of n ≠ 0 → E.
Proof using Type. unfold no_panic. auto. Qed.

Lemma no_panic_evolves n n' : evolves n n' → no_panic n → no_panic n'.
Proof using Type.
  intros He Hn Hr. apply Hn. destruct (N.eq_dec (cfg_SnapshotEvery (n_cfg n)) 0) as [Hs|]; [|by right].
  rewrite (ev_base _ _ He Hs), (ev_cfg _ _ He) in Hr. destruct Hr; [by left|done].
Qed.

Lemma post_same_log n n' : post n n' → evolves n n'.
Proof using Type. intros H. apply H. Qed.

Lemma commit_saved n w i :
  Inv n → n_failed n = None → n_role n = leader →
  let r := save_record (n_store n) (term_of n) (vote_of n) i 0 [] in
  Inv0 (saved n w r) → Inv (saved n w r).
Proof using Type.
  intros HI Hf Hl r H0. split; [done|..].
  - intros Hp. apply (inv_waiting n HI) in Hp. done.
  - intros _. apply (inv_vote n HI). by rewrite Hl.
  - done.
Qed.

(** What [advanceCommitLocked] decides. *)
Inductive advanced n n' : Prop :=
  | adv_idle : n' = n →
      (n_role n = leader → availableLocked n = true →
         ∀ j, commit_of n < j → j ≤ last_index (n_state n) → ¬ committable n j) →
      advanced n n'
  | adv_failed i : commit_of n < i → committable n i → n_failed n' ≠ None →
      n_state n' = n_state n → n_role n' = follower → advanced n n'
  | adv_committed i : commit_of n < i → i ≤ last_index (n_state n) → committable n i →
      (∀ j, i < j → j ≤ last_index (n_state n) → ¬ committable n j) →
      commit_of n' = i → n_applied n' = i → term_of n' = term_of n → vote_of n' = vote_of n →
      ds_log (n_state n') = drop (N.to_nat (base_of n' - base_of n)) (ds_log (n_state n)) →
      advanced n n'.

Lemma advanceCommit_wp (Q : unit → Node J → Prop) n :
  Inv n → no_panic n →
  (∀ n', post n n' → n_closed n' = n_closed n → n_paused n' = n_paused n →
     advanced n n' → Q tt n') →
  wp E advanceCommitLocked Q n.
Proof.
  intros HI Hnp HQ. pose proof (inv_core n HI) as H0.
  destruct (Inv0_bounds n H0) as (Ht&Hc64&Hl64&Hbc&Hcl&Hv).
  unfold advanceCommitLocked. apply wp_bind, wp_get.
  destruct (_ || _) eqn:Hcond.
  { apply wp_ret, HQ; [by apply post_refl|done|done|]. apply adv_idle; [done|].
    intros Hl Ha. apply orb_true_iff in Hcond as [Hr|Hr].
    - by apply bool_decide_eq_true in Hr.
    - by rewrite Ha in Hr. }
  apply orb_false_iff in Hcond as [Hrole Hav]. apply bool_decide_eq_false in Hrole.
  apply negb_false_iff in Hav. pose proof (available_failed n Hav) as Hnf.
  assert (n_role n = leader) as Hl by (by apply dec_stable).
  rewrite lastLocked_spec by done. fold (commit_of n).
  destruct (commit_index_spec (N.to_nat (last_index (n_state n) - commit_of n)) n
    (last_index (n_state n)) H0) as (r&Hr&Hspec); [lia|done|].
  rewrite Hr. apply wp_bind, wp_lift_some. destruct r as [i|].
  2: { apply wp_ret, HQ; [by apply post_refl|done|done|]. by apply adv_idle. }
  destruct Hspec as (Hi1&Hi2&Hcm&Hmax). apply wp_bind. fold (term_of n) (vote_of n).
  apply persist_keep_log_wp; try done; [lia|..].
  - intros w Hvu H01 He1. set (n1 := saved n w _) in *.
    assert (Inv n1) as HI1 by (by apply commit_saved).
    apply wp_when; [intros _|done]. apply wp_bind, emit_wp. intros ev rd.
    set (n1' := set_events ev _). assert (core n1' = core n1) as Hc1 by done.
    assert (Inv n1') as HI1' by (by eapply Inv_core).
    apply wp_bind, applyLocked_wp; [done|done|].
    intros n2 n3 Hst HI2 He2 Hcu2 Hp3 Hcl3 Hpa3 Hlog3 Ht3 Hv3 Hco3 Hm3 Ha3 _.
    assert (evolves n n3) as He3.
    { etransitivity; [exact He1|]. etransitivity; [by apply evolves_core|].
      etransitivity; [exact He2|]. apply Hp3. }
    assert (caught_up n3) as Hcu3 by (by apply Hp3).
    apply kick_wp.
    + apply Hp3.
    + apply no_panic_base. by eapply no_panic_evolves.
    + intros n4 Hk4. pose proof (ki_body _ _ Hk4) as Hc4'. unfold body in Hc4'.
      injection Hc4' as _ _ _ Es _ _ Ea _ _ Ecl Epa _ _.
      assert (post n n3) as Hpost3.
      { eapply (post_trans n n2); [apply post_silent|exact Hp3].
        - done.
        - etransitivity; [exact He1|]. etransitivity; [by apply evolves_core|exact He2].
        - done.
        - pose proof (applies_static _ _ Hst) as Hs. by injection Hs. }
      apply HQ; [eapply post_trans; [exact Hpost3|by apply kicked_post; [apply Hp3|]]|by rewrite Ecl, Hcl3|by rewrite Epa, Hpa3|].
      eapply (adv_committed _ _ i); try done;
        unfold term_of, vote_of, commit_of, base_of, n_state, caught_up in *;
        rewrite ?Es, ?Ea; try done.
      unfold commit_of, n_state in Hcu3. rewrite Hcu3, Hco3. done.
  - intros n' Hp Hf Hst Hr1 Hcl1 Hpa1. apply wp_when; [done|intros _].
    apply HQ; [done|done|done|]. by eapply adv_failed.
Qed.

(** *** Appending an entry of the leader's own *)

Record appended n n1 (e : Entry) : Prop := {
  app_inv : Inv n1;
  app_evolves : evolves n n1;
  app_core : n1 = set_nstore (n_store n1) n;
  app_entry : log_at (n_state n1) (last_index (n_state n) + 1) = Some e;
  app_last : last_index (n_state n1) = last_index (n_state n) + 1;
  app_same : ∀ i, i ≤ last_index (n_state n) → log_at (n_state n1) i = log_at (n_state n) i;
  app_term : term_of n1 = term_of n;
  app_vote : vote_of n1 = vote_of n;
  app_commit : commit_of n1 = commit_of n;
  app_base : base_of n1 = base_of n;
  app_index : e_Index e = last_index (n_state n) + 1;
}.

Lemma Inv_saved n w r :
  Inv n → n_failed n = None → Inv0 (saved n w r) → rc_Vote r = vote_of n → Inv (saved n w r).
Proof using Type.
  intros HI Hf H0 Hv. split; [done|..].
  - intros Hp. by apply (inv_waiting n HI) in Hp.
  - intros Hr. unfold vote_of, saved, n_state. cbn. rewrite Hv. by apply (inv_vote n HI).
  - done.
Qed.

Lemma persist_entry_wp (c : option Command) (Q : bool → Node J → Prop) n :
  let e := mkEntry (add64 (lastLocked n) 1) (term_of n) c in
  Inv n → n_role n = leader → n_failed n = None → room n 1 →
  (∀ x, c = Some x → rep_command x) →
  (∀ n1, appended n n1 e → Q true n1) →
  (∀ n', post n n' → n_failed n' ≠ None → n_state n' = n_state n → n_role n' = follower →
     n_closed n' = n_closed n → n_paused n' = n_paused n → Q false n') →
  wp E (persistLocked (term_of n) (vote_of n) (commit_of n) (e_Index e) [e]) Q n.
Proof.
  intros e HI Hl Hnf Hroom Hrep Hok Hbad. pose proof (inv_core n HI) as H0.
  destruct (Inv0_bounds n H0) as (Ht&Hc64&Hl64&Hbc&Hcl&Hv). pose proof (Inv0_state n H0) as Hwf.
  assert (e_Index e = add64 (last_index (n_state n)) 1) as Hei by (cbn; by rewrite lastLocked_spec).
  assert (rep_entry e) as Hre.
  { split; [rewrite Hei; apply add64_lt|done|done]. }
  assert (rep_entries [e]) as Hres by (split; [done|by apply Forall_singleton]).
  set (r := save_record (n_store n) (term_of n) (vote_of n) (commit_of n) (e_Index e) [e]).
  assert (representable r) as Hrr.
  { apply Inv0_rep; try done. rewrite Hei. apply add64_lt. }
  assert (lenN (ds_log (updated (n_state n) r)) ≤ lenN (ds_log (n_state n)) + 1) as Hle.
  { unfold updated. cbn [ds_log]. destruct (_ =? 0); [lia|].
    rewrite lenN_app. change (lenN (rc_Entries r)) with 1. unfold lenN. rewrite length_take. lia. }
  apply persist_wp; [done|done|done| |..]; fold r.
  { destruct Hroom as [HE|Hroom]; [by left|right]. unfold roomy in Hroom. eapply N.le_lt_trans; [exact Hle|done]. }
  - intros w Hvu Hfit Hcon. apply Hok.
    pose proof Hvu as Hvu'. rewrite <-(vu_identity _ _ _ Hvu) in Hvu'.
    assert (rc_From r ≠ 0) as HF.
    { intros HF. by destruct (vu_same _ _ _ Hvu HF). }
    destruct (vu_from _ _ _ Hvu HF) as (_&Hend&_&Hlt&_&_).
    pose proof (last_index_end _ Hwf) as He.
    assert (last_index (n_state n) + 1 < two64) as Hov.
    { destruct (N.lt_ge_cases (last_index (n_state n) + 1) two64); [done|].
      exfalso. apply HF. cbn. rewrite lastLocked_spec by done.
      replace (last_index (n_state n)) with (two64 - 1) by lia. done. }
    assert (rc_From r = last_index (n_state n) + 1) as HFr.
    { cbn. rewrite lastLocked_spec by done. by apply add64_small. }
    destruct (updated_length _ r Hwf Hvu' HF) as [_ Hlen].
    pose proof (wf_updated _ r Hwf Hrr Hvu' Hfit) as Hwf'.
    pose proof (last_index_end _ Hwf') as He'. change (lenN (rc_Entries r)) with 1 in Hlen.
    assert (Inv0 (saved n w r)) as H01 by (apply Inv0_saved; try done; right; lia).
    assert (∀ i, log_at (n_state (saved n w r)) i =
      if i <? last_index (n_state n) + 1 then log_at (n_state n) i
      else [e] !! N.to_nat (i - (last_index (n_state n) + 1))) as Hat.
    { intros i. change (n_state (saved n w r)) with (updated (n_state n) r).
      rewrite log_at_updated by done. rewrite (proj2 (N.eqb_neq _ _) HF), HFr. done. }
    split; try done.
    + by apply Inv_saved.
    + apply evolves_saved; try done; [by right; right|by right].
    + rewrite Hat, N.ltb_irrefl, N.sub_diag. done.
    + change (n_state (saved n w r)) with (updated (n_state n) r). lia.
    + intros i Hi. rewrite Hat. by destruct (N.ltb_spec i (last_index (n_state n) + 1)); [|lia].
  - intros w err ev rd Hrec. apply Hbad; try done.
    apply post_silent; [by apply Inv_broken|by apply evolves_broken|done|done].
Qed.

(** *** Becoming leader *)

Lemma evolves_lead n : n_role n = candidate → evolves n (set_role leader n).
Proof using Type.
  intros Hc. split; try done.
  - intros _. rewrite Hc. cbn. lia.
  - intros hist. by apply history_kept.
Qed.

Lemma becomeLeader_wp (Q : unit → Node J → Prop) n :
  Inv n → n_role n = candidate → n_failed n = None → no_panic n → room n 1 →
  (∀ n', post n n' → n_closed n' = n_closed n → n_paused n' = n_paused n →
     term_of n' = term_of n → vote_of n' = vote_of n → Q tt n') →
  wp E becomeLeaderLocked Q n.
Proof.
  intros HI Hcand Hnf Hnp Hroom HQ. pose proof (inv_core n HI) as H0.
  assert (n_pending n = ∅) as Hpend.
  { destruct (decide (n_pending n = ∅)) as [|Hne]; [done|].
    apply (inv_waiting n HI) in Hne as [Hl _]. congruence. }
  assert (Inv (set_role leader n)) as HI1.
  { split; [|done|intros _; apply (inv_vote n HI); by rewrite Hcand|done].
    destruct H0. split; try done. by destruct inv_config0. }
  unfold becomeLeaderLocked. apply wp_bind, wp_modify. apply wp_bind, wp_get.
  apply wp_bind, wp_modify. apply wp_bind, emit_wp. intros ev rd. apply wp_bind, wp_get.
  apply wp_bind, wp_modify. apply wp_bind, wp_modify. apply wp_bind, wp_get.
  set (n1 := set_match _ _). assert (core n1 = core (set_role leader n)) as Hc1 by done.
  assert (Inv n1) as HIn1 by (by eapply Inv_core).
  assert (evolves n n1) as He1.
  { etransitivity; [by apply evolves_lead|]. by apply evolves_core. }
  apply wp_bind. fold (term_of n1) (vote_of n1) (commit_of n1).
  change (lastLocked n1) with (lastLocked n).
  change (add64 (lastLocked n) 1) with (e_Index (mkEntry (add64 (lastLocked n1) 1) (term_of n1) None)) at 1.
  change (lastLocked n) with (lastLocked n1).
  apply persist_entry_wp; try done.
  - intros n2 Ha. apply wp_when; [intros _|done]. apply wp_bind, wp_get. apply wp_bind, wp_modify.
    set (n2' := set_match _ n2). assert (core n2' = core n2) as Hc2 by done.
    assert (Inv n2') as HI2 by (eapply Inv_core; [exact Hc2|apply Ha]).
    assert (evolves n n2') as He2.
    { etransitivity; [exact He1|]. etransitivity; [apply Ha|]. by apply evolves_core. }
    apply wp_bind, advanceCommit_wp; [done|by eapply no_panic_evolves|].
    intros n3 Hp3 Hcl3 Hpa3 Hadv. assert (Inv n3) as HI3 by apply Hp3.
    apply kick_wp; [apply HI3|apply no_panic_base; eapply no_panic_evolves; [|done]|].
    { etransitivity; [exact He2|apply Hp3]. }
    intros n4 Hk4. pose proof (ki_body _ _ Hk4) as Hc4'. unfold body in Hc4'.
    injection Hc4' as _ _ _ Es _ _ Eap _ _ Ecl Epa _ _.
    assert (term_of n3 = term_of n2 ∧ vote_of n3 = vote_of n2) as [Ht3 Hv3].
    { destruct Hadv as [-> _|i _ _ _ Hst _|i _ _ _ _ _ _ ? ? _]; [done| |done].
      unfold term_of, vote_of. by rewrite Hst. }
    pose proof (app_core _ _ _ Ha) as Hcore.
    assert (n_closed n2 = n_closed n ∧ n_paused n2 = n_paused n ∧ n_applied n2 = n_applied n)
      as (Hcl2&Hpa2&Hap2) by (by rewrite Hcore).
    apply HQ.
    + assert (post n n2') as Hp2.
      { apply post_silent; [done|done| |].
        - unfold caught_up. change (n_applied n2') with (n_applied n2).
          change (commit_of n2') with (commit_of n2). by rewrite Hap2, (app_commit _ _ _ Ha).
        - change (queued n2') with (queued n2). by rewrite Hcore. }
      eapply post_trans; [exact Hp2|]. eapply post_trans; [exact Hp3|by apply kicked_post].
    + by rewrite Ecl, Hcl3.
    + by rewrite Epa, Hpa3.
    + unfold term_of, n_state in *. rewrite Es. rewrite Ht3. apply (app_term _ _ _ Ha).
    + unfold vote_of, n_state in *. rewrite Es. rewrite Hv3. apply (app_vote _ _ _ Ha).
  - intros n' Hp Hf Hst Hr Hcl Hpa. apply wp_when; [done|intros _].
    apply HQ; try done.
    + eapply post_trans; [by apply (post_silent n n1)|exact Hp].
    + unfold term_of. by rewrite Hst.
    + unfold vote_of. by rewrite Hst.
Qed.

(** *** Elections *)

Lemma evolves_candidate n n1 :
  evolves n n1 → term_of n < term_of n1 → evolves n (set_leader "" (set_role candidate n1)).
Proof using Type.
  intros He Hlt. destruct He. split; try done.
  - intros Ht. change (term_of (set_leader "" (set_role candidate n1))) with (term_of n1) in Ht. lia.
  - intros hist Hh. destruct (ev_history0 hist Hh) as (more&[? ? ?]&?). by exists more.
Qed.

Lemma waiting_leader n : Inv n → n_role n ≠ leader → n_pending n = ∅.
Proof using Type.
  intros HI Hr. destruct (decide (n_pending n = ∅)) as [|Hne]; [done|].
  by apply (inv_waiting n HI) in Hne as [Hl _].
Qed.

Lemma body_state n n' : body n' = body n →
  n_store n' = n_store n ∧ n_role n' = n_role n ∧ n_failed n' = n_failed n ∧
  n_closed n' = n_closed n ∧ n_paused n' = n_paused n ∧ n_cfg n' = n_cfg n.
Proof using Type.
  unfold body. intros H. injection H as E1 E2 E3 E4 E5 E6 E7 E8 E9 E10 E11 E12 E13.
  by split_and!.
Qed.

Lemma core_state n n' : core n' = core n →
  n_store n' = n_store n ∧ n_role n' = n_role n ∧ n_failed n' = n_failed n ∧
  n_closed n' = n_closed n ∧ n_paused n' = n_paused n ∧ n_cfg n' = n_cfg n.
Proof using Type. intros H%core_body. by apply body_state. Qed.

Lemma send_vote_core (Q : unit → Node J → Prop) req peer n :
  (∀ n', core n' = core n → Q tt n') → wp E (send_vote req peer) Q n.
Proof.
  intros HQ. unfold send_vote. apply wp_bind. unfold next_sequence.
  apply wp_bind, wp_get. apply wp_bind, wp_modify. apply wp_gets. apply wp_bind, wp_get.
  apply wp_bind, emit_wp. intros ev rd. apply wp_bind, wp_get.
  destruct (rt_Manual _); apply wp_modify; apply HQ; [|done].
  apply pair_equal_spec. split; [done|]. unfold queued. cbn [n_outbox set_outbox].
  rewrite omap_app. cbn. by rewrite app_nil_r.
Qed.

Lemma send_votes_core (Q : unit → Node J → Prop) req ps n :
  (∀ n', core n' = core n → Q tt n') → wp E (for_each (send_vote req) ps) Q n.
Proof.
  intros HQ. eapply wp_mono; [apply (wp_for_each E _ (λ n', core n' = core n))|].
  - intros p n1 _ Hc. apply send_vote_core. intros n' Hc'. congruence.
  - done.
  - intros [] n' Hc. by apply HQ.
Qed.

Lemma startElection_wp (Q : unit → Node J → Prop) n :
  Inv n → n_role n ≠ leader → n_failed n = None → no_panic n → room n 1 →
  (∀ n', post n n' → n_closed n' = n_closed n → n_paused n' = n_paused n →
     (n_failed n' ≠ None ∧ n_state n' = n_state n ∨
      term_of n' = term_of n + 1 ∧ vote_of n' = cfg_ID (n_cfg n)) → Q tt n') →
  wp E startElectionLocked Q n.
Proof.
  intros HI Hr Hnf Hnp Hroom HQ. pose proof (inv_core n HI) as H0.
  destruct (Inv0_bounds n H0) as (Ht&Hc64&Hl64&Hbc&Hcl&Hv).
  pose proof (waiting_leader n HI Hr) as Hpend.
  unfold startElectionLocked. apply wp_bind, wp_get. apply wp_bind.
  fold (term_of n) (commit_of n).
  apply persist_keep_log_wp; try done; [apply add64_lt|by apply text_self|..].
  2: { intros n' Hp Hf Hst Hrl Hcl' Hpa'. cbn [negb]. apply wp_ret, HQ; try done. by left. }
  intros w Hvu H01 He1. cbn [negb]. set (n1 := saved n w _) in *.
  assert (add64 (term_of n) 1 = term_of n + 1) as Hadd.
  { pose proof (vu_term _ _ _ Hvu) as Hge. cbn in Hge. fold (term_of n) in Hge.
    destruct (add64_cases (term_of n) 1 Ht ltac:(done)) as [[? ?]|[? Heq]]; [done|].
    rewrite Heq in Hge. unfold two64 in *. lia. }
  assert (term_of n1 = term_of n + 1) as Ht1 by exact Hadd.
  assert (vote_of n1 = cfg_ID (n_cfg n)) as Hv1 by done.
  apply wp_bind, wp_modify. apply wp_bind, wp_modify. apply wp_bind, resetTimer_wp.
  intros dl dr rd. apply wp_bind, wp_get. apply wp_bind, wp_modify. apply wp_bind, emit_wp.
  intros ev rd'. apply wp_bind, wp_get. set (n2 := set_events _ _).
  assert (core n2 = core (set_leader "" (set_role candidate n1))) as Hc2 by done.
  assert (evolves n n2) as He2.
  { etransitivity; [apply (evolves_candidate n n1 He1); lia|by apply evolves_core]. }
  assert (Inv n2) as HI2.
  { eapply Inv_core; [exact Hc2|]. split; try done.
    - destruct H01. split; try done. by destruct inv_config0. }
  assert (post n n2) as Hp2.
  { apply post_silent; [done|done| |done]. intros Hcu. exact Hcu. }
  assert (n_closed n2 = n_closed n ∧ n_paused n2 = n_paused n) as [Hcl2 Hpa2] by done.
  assert (term_of n2 = term_of n + 1 ∧ vote_of n2 = cfg_ID (n_cfg n)) as [Ht2 Hv2] by done.
  destruct (_ <? _)%nat.
  - apply becomeLeader_wp; try done.
    intros n' Hp Hcl' Hpa' Ht' Hv'. apply HQ; [by eapply post_trans|congruence|congruence|].
    right. by rewrite Ht', Hv'.
  - destruct (Inv0_bounds n2 (inv_core _ HI2)) as (_&_&Hl2&Hb2&Hc2'&_).
    rewrite lastLocked_spec, entryLocked_spec by (apply HI2 || done).
    destruct (log_at_some _ (Inv0_state n2 (inv_core _ HI2)) (last_index (n_state n2))) as [e He];
      [unfold base_of in *; lia|done|].
    rewrite He. apply wp_bind, wp_lift_some. apply send_votes_core. intros n' Hc'.
    destruct (core_state _ _ Hc') as (Es&_&_&Ecl&Epa&_).
    apply HQ; [by eapply post_core_r|congruence|congruence|].
    right. unfold term_of, vote_of, n_state in *. by rewrite Es.
Qed.

Lemma voteResponse_wp (Q : unit → Node J → Prop) peer req resp err n :
  Inv n → no_panic n → room n 1 → vr_Term resp < two64 →
  (∀ n', post n n' → Q tt n') → wp E (voteResponseLocked peer req resp err) Q n.
Proof.
  intros HI Hnp Hroom Hrt HQ. unfold voteResponseLocked. apply wp_bind, wp_get.
  destruct (_ || _) eqn:Hcond; [apply wp_ret, HQ; by apply post_refl|].
  apply orb_false_iff in Hcond as [Hav _]. apply negb_false_iff in Hav.
  pose proof (available_failed n Hav) as Hnf.
  apply wp_bind, emit_wp. intros ev rd. apply wp_bind, wp_get. set (n1 := set_events _ _).
  assert (core n1 = core n) as Hc1 by done. assert (Inv n1) as HI1 by (by eapply Inv_core).
  assert (post n n1) as Hp1 by (by apply post_core).
  fold (term_of n1).
  destruct (N.ltb_spec (term_of n1) (vr_Term resp)).
  { apply wp_bind, stepDown_wp; try done.
    - intros n' Hs _. apply wp_ret, HQ. eapply post_trans; [done|apply Hs].
    - intros n' Hp _ _ _ _ _ _. apply wp_ret, HQ. by eapply post_trans. }
  destruct (_ || _ || _) eqn:Hcond; [by apply wp_ret, HQ|].
  apply orb_false_iff in Hcond as [Hcond _]. apply orb_false_iff in Hcond as [Hrole _].
  apply bool_decide_eq_false in Hrole.
  assert (n_role n1 = candidate) as Hcand by (by apply dec_stable).
  apply wp_when; [intros _|by intros; apply HQ].
  apply wp_bind, wp_modify. apply wp_bind, wp_get. set (n2 := set_votes _ n1).
  assert (core n2 = core n1) as Hc2 by done.
  assert (post n n2) as Hp2 by (by eapply post_core_r).
  apply wp_when; [intros _|by intros; apply HQ].
  apply becomeLeader_wp; try done.
  - by eapply Inv_core.
  - intros n' Hp _ _ _ _. apply HQ. by eapply post_trans.
Qed.

Lemma acceptAppend_wp (Q : bool → Node J → Prop) peer req resp err n :
  Inv n → caught_up n → no_panic n → ar_Term resp < two64 →
  (∀ b n', post n n' → Q b n') → wp E (acceptAppendLocked peer req resp err) Q n.
Proof.
  intros HI Hcu Hnp Hrt HQ. unfold acceptAppendLocked. apply wp_bind, wp_get.
  destruct (negb _) eqn:Hav; [apply wp_ret, HQ; by apply post_refl|].
  apply negb_false_iff in Hav. pose proof (available_failed n Hav) as Hnf.
  apply wp_bind.
  assert (∀ P : unit → Node J → Prop, (∀ n', core n' = core n → P tt n') → wp E
    (match err with
     | None => emitLocked "APPEND_RESPONSE" (ar_MatchIndex resp) (p_ID peer) (aq_MessageID req) ""
     | Some _ => emitLocked "RPC_FAILED" 0 (p_ID peer) (aq_MessageID req) ""
     end) P n) as Hemit.
  { intros P HP. destruct err; apply emit_wp; intros ev rd; by apply HP. }
  apply Hemit. intros n1 Hc1. apply wp_bind, wp_get.
  assert (Inv n1) as HI1 by (by eapply Inv_core).
  assert (post n n1) as Hp1 by (by apply post_core).
  assert (caught_up n1) as Hcu1 by (by apply Hp1).
  assert (no_panic n1) as Hnp1 by (eapply no_panic_evolves; [apply Hp1|done]).
  assert (n_failed n1 = None) as Hnf1 by (destruct (core_state _ _ Hc1) as (_&_&->&_); done).
  fold (term_of n1). destruct (_ && _).
  { apply wp_bind, stepDown_wp; try done.
    - intros n' Hs _. apply wp_ret, HQ. eapply post_trans; [done|apply Hs].
    - intros n' Hp _ _ _ _ _ _. apply wp_ret, HQ. by eapply post_trans. }
  destruct (_ || _ || _ || _); [by apply wp_ret, HQ|].
  destruct (ar_Success resp).
  - apply wp_bind, wp_modify. apply wp_bind, wp_modify. set (n2 := set_next _ _).
    assert (core n2 = core n1) as Hc2 by done.
    assert (post n n2) as Hp2 by (by eapply post_core_r).
    apply wp_bind, advanceCommit_wp; [apply Hp2|eapply no_panic_evolves; [apply Hp2|done]|].
    intros n3 Hp3 _ _ _.
    assert (post n n3) as Hp03 by (by eapply post_trans).
    apply wp_bind, maybeSnapshot_wp; [apply Hp3|by apply Hp03|].
    intros n4 Hp4 _ _ _ _ _ _ _ _ _. apply wp_bind, wp_get. apply wp_ret, HQ. by eapply post_trans.
  - destruct (_ <=? _); [by apply wp_ret, HQ|].
    apply wp_bind, wp_modify. apply wp_ret, HQ. eapply post_core_r; [exact Hp1|done].
Qed.

End rules.
End inv.
