(* ===== verification/NodeRPC.v ===== *)
(** * NodeRPC: the handlers a node runs for its peers and its clients

    [RequestVote] and [AppendEntries] on every branch, submission of commands,
    tickets, and the operator's methods: what they answer, and that they keep
    the invariant. *)

From stdpp Require Import base numbers list gmap strings fin_maps pretty relations options.
From S2P Require Import Prelude Effects Bytes StateMachine Wal Journal Store Events Node NodeInv.

Local Open Scope N_scope.
#[local] Set Default Proof Using "Type*".

Section rpc.
Context {J : Type} `{HJ : Journal J, HJL : !JournalLaws J, HC : Codec record, HCL : !CodecLaws}.
Context (E : Prop).
Implicit Type n : Node J.

(** ** Votes *)

Record typed_vote (req : VoteRequest) : Prop := {
  tv_Term : vq_Term req < two64;
  tv_LastLogIndex : vq_LastLogIndex req < two64;
  tv_LastLogTerm : vq_LastLogTerm req < two64;
}.

(** The candidate's log is at least as up to date as the node's. *)
Definition up_to_date n (req : VoteRequest) : Prop :=
  ∀ e, log_at (n_state n) (last_index (n_state n)) = Some e →
    e_Term e < vq_LastLogTerm req ∨
    vq_LastLogTerm req = e_Term e ∧ last_index (n_state n) ≤ vq_LastLogIndex req.

(** Whether the request comes from another member of the node's cluster. *)
Lemma member_text n id cluster : Inv0 n → member n id cluster = true →
  text id ∧ id ≠ "" ∧ id ≠ cfg_ID (n_cfg n).
Proof using Type.
  intros H0 Hm. unfold member in Hm. apply andb_true_iff in Hm as [Hm _].
  apply andb_true_iff in Hm as [Hm Hne]. apply bool_decide_eq_true in Hm as [p Hp].
  apply bool_decide_eq_true in Hne.
  by destruct (wf_member _ (inv_config n H0) _ _ Hp) as (_&?&?).
Qed.

(** The conditions under which a node gives its vote. *)
Record votable n (req : VoteRequest) : Prop := {
  vt_available : availableLocked n = true;
  vt_member : member n (vq_CandidateID req) (vq_ClusterID req) = true;
  vt_elections : cfg_FixedLeader (n_cfg n) = "";
  vt_term : term_of n ≤ vq_Term req;
  vt_free : term_of n < vq_Term req ∨ vote_of n = "" ∨ vote_of n = vq_CandidateID req;
  vt_log : up_to_date n req;
}.

(** What [RequestVote] answers: the node's term; a vote only with the durable
    term and vote of the request, and only for an up-to-date candidate. *)
Record vote_answer n n' (req : VoteRequest) (resp : VoteResponse) (err : option error) : Prop := {
  va_term : vr_Term resp = term_of n';
  va_granted : vr_Granted resp = true →
    err = None ∧ term_of n' = vq_Term req ∧ vote_of n' = vq_CandidateID req ∧
    vq_CandidateID req ≠ "" ∧ up_to_date n req ∧ n_failed n' = None ∧
    member n (vq_CandidateID req) (vq_ClusterID req) = true ∧
    cfg_FixedLeader (n_cfg n) = "" ∧ availableLocked n = true;
  va_refused : vr_Granted resp = false → votable n req → n_failed n' ≠ None;
  va_log : ds_log (n_state n') = ds_log (n_state n);
  va_commit : commit_of n' = commit_of n;
}.

Lemma vote_response_wp (Q : VoteResponse * option error → Node J → Prop) b err n :
  Q (mkVoteResponse (term_of n) b, err) n → wp E (vote_response b err) Q n.
Proof. intros H. by apply wp_bind, wp_get, wp_ret. Qed.

Lemma refused n n' req err :
  (votable n req → n_failed n' ≠ None) → ds_log (n_state n') = ds_log (n_state n) → commit_of n' = commit_of n →
  vote_answer n n' req (mkVoteResponse (term_of n') false) err.
Proof using Type. by split. Qed.

Lemma RequestVote_wp (Q : VoteResponse * option error → Node J → Prop) req n :
  Inv n → typed_vote req →
  (∀ resp err n', post n n' → vote_answer n n' req resp err → Q (resp, err) n') →
  wp E (RequestVote req) Q n.
Proof.
  intros HI [Ht64 _ _] HQ. pose proof (inv_core n HI) as H0.
  assert (∀ err, ¬ votable n req → Q (mkVoteResponse (term_of n) false, err) n) as Hno.
  { intros err Hnv. apply HQ; [by apply post_refl|]. by apply refused. }
  unfold RequestVote. apply wp_bind, wp_get.
  destruct (availableLocked n) eqn:Hav; cbn [negb]; [|apply vote_response_wp, Hno; intros []; congruence].
  destruct (member n _ _) eqn:Hmem; cbn [negb]; [|apply vote_response_wp, Hno; intros []; congruence].
  pose proof (available_failed n Hav) as Hnf.
  destruct (member_text n _ _ H0 Hmem) as (Htc&Hne&_).
  apply wp_bind, emit_wp. intros ev rd. set (n1 := set_events _ _).
  assert (core n1 = core n) as Hc1 by done.
  assert (Inv n1) as HI1 by (by eapply Inv_core). assert (post n n1) as Hp1 by (by apply post_core).
  assert (∀ err, ¬ votable n req → Q (mkVoteResponse (term_of n) false, err) n1) as Hno1.
  { intros err Hnv. apply HQ; [done|]. by apply (refused n n1). }
  case_bool_decide as Hfl; [apply vote_response_wp, Hno1; by intros []|].
  fold (term_of n). destruct (N.ltb_spec (vq_Term req) (term_of n)) as [Hlow|Hge];
    [apply vote_response_wp, Hno1; intros []; lia|].
  apply wp_bind.
  (* once the node is in the request's term *)
  assert (∀ n2, post n n2 → n_failed n2 = None → term_of n2 = vq_Term req →
    (vote_of n2 = "" ∨ term_of n = vq_Term req ∧ vote_of n2 = vote_of n) →
    ds_log (n_state n2) = ds_log (n_state n) → base_of n2 = base_of n → commit_of n2 = commit_of n →
    wp E (n ← get;
  lastEntry ← lift (entryLocked n (lastLocked n));
  let vote := ds_vote (n_state n) in
  let upToDate := (e_Term lastEntry <? vq_LastLogTerm req) ||
    (vq_LastLogTerm req =? e_Term lastEntry) && (e_Index lastEntry <=? vq_LastLogIndex req) in
  if upToDate && (bool_decide (vote = "") || bool_decide (vote = vq_CandidateID req)) then
    ok ← (if bool_decide (vote = "")
          then persistLocked (vq_Term req) (vq_CandidateID req) (ds_commit (n_state n)) 0 []
          else mret true);
    if negb ok then vote_response false (Some ErrUnavailable)
    else
      resetTimerLocked ;;
      emitLocked "VOTE_GRANTED" 0 (vq_CandidateID req) (vq_MessageID req) "" ;;
      vote_response true None
  else vote_response false None) Q n2) as Hrest.
  { intros n2 Hp2 Hf2 Ht2 Hvo2 Hlog2 Hb2 Hco2. pose proof (post_inv _ _ Hp2) as HI2.
    pose proof (inv_core _ HI2) as H02. destruct (Inv0_bounds n2 H02) as (_&Hc64&Hl64&Hbc&Hcl&_).
    assert (last_index (n_state n2) = last_index (n_state n)) as Hli.
    { unfold last_index. unfold base_of in Hb2. by rewrite Hlog2, Hb2. }
    assert (∀ i, log_at (n_state n2) i = log_at (n_state n) i) as Hat.
    { intros i. unfold log_at. unfold base_of in Hb2. by rewrite Hlog2, Hb2. }
    apply wp_bind, wp_get. rewrite lastLocked_spec, entryLocked_spec by done.
    destruct (log_at_some _ (Inv0_state n2 H02) (last_index (n_state n2))) as [e He];
      [unfold base_of in *; lia|done|].
    rewrite He. apply wp_bind, wp_lift_some. cbv zeta.
    destruct (log_at_Index _ (Inv0_state n2 H02) _ _ He) as [Hei _].
    destruct (_ && _) eqn:Hup; cycle 1.
    { apply vote_response_wp, HQ; [done|]. apply (refused n n2); [|done|done].
      intros [_ _ _ _ Hfree Hutd]. exfalso. fold (vote_of n2) in Hup.
      assert (bool_decide (vote_of n2 = "") || bool_decide (vote_of n2 = vq_CandidateID req) = true) as Hv.
      { apply orb_true_iff. rewrite !bool_decide_eq_true.
        destruct Hvo2 as [?|[? ->]]; [by left|]. destruct Hfree as [?|[?|?]]; [lia|by left|by right]. }
      rewrite Hv, andb_true_r in Hup. apply orb_false_iff in Hup as [Hup1 Hup2]. apply N.ltb_ge in Hup1.
      rewrite Hat, Hli in He. destruct (Hutd e He) as [|[Heq Hle]]; [lia|].
      rewrite Heq, N.eqb_refl, Hei, Hli in Hup2. apply N.leb_gt in Hup2. lia. }
    apply andb_true_iff in Hup as [Hup Hvote].
    assert (up_to_date n req) as Hutd.
    { intros e' He'. rewrite <-Hli, <-Hat, He in He'. injection He' as <-.
      apply orb_true_iff in Hup as [Hup|Hup]; tests; [by left|right]. rewrite <-Hli. split; [done|lia]. }
    assert (∀ n3, post n2 n3 → n_failed n3 = None → term_of n3 = vq_Term req →
      vote_of n3 = vq_CandidateID req → ds_log (n_state n3) = ds_log (n_state n2) →
      commit_of n3 = commit_of n2 →
      wp E (resetTimerLocked ;;
        emitLocked "VOTE_GRANTED" 0 (vq_CandidateID req) (vq_MessageID req) "" ;;
        vote_response true None) Q n3) as Hgrant.
    { intros n3 Hp3 Hf3 Ht3 Hv3 Hl3 Hc3. apply wp_bind, resetTimer_wp. intros dl dr rd1.
      apply wp_bind, emit_wp. intros ev1 rd2. apply vote_response_wp. set (n4 := set_events _ _).
      assert (core n4 = core n3) as Hc4 by done. apply HQ.
      - eapply post_trans; [exact Hp2|]. by eapply post_core_r.
      - split; [done| |done|change (n_state n4) with (n_state n3); congruence|
          change (commit_of n4) with (commit_of n3); congruence].
        intros _. by split_and!. }
    fold (vote_of n2) (commit_of n2). fold (vote_of n2) in Hvote.
    apply wp_bind. case_bool_decide as Hv0.
    - apply persist_keep_log_wp; try done.
      + intros w Hvu H03 He3. cbn [negb]. apply Hgrant; try done.
        apply post_silent; [|done|done|done]. split; [done| |intros Hrole|done].
        * intros Hp. by apply (inv_waiting n2 HI2) in Hp.
        * exfalso. pose proof (inv_vote n2 HI2 Hrole) as Hself. rewrite Hv0 in Hself.
          destruct (wf_self _ (inv_config n2 H02)) as [p Hp].
          destruct (wf_member _ (inv_config n2 H02) _ _ Hp) as (_&_&Hn). by rewrite <-Hself in Hn.
      + intros n3 Hp3 Hf3 Hst3 Hr3 _ _. cbn [negb]. apply vote_response_wp, HQ.
        * by eapply post_trans.
        * apply refused; [done|by rewrite Hst3|]. unfold commit_of in *. by rewrite Hst3.
    - apply wp_ret. cbn [negb]. cbn [orb] in Hvote. apply bool_decide_eq_true in Hvote.
      by apply Hgrant; [apply post_refl|..]. }
  destruct (N.ltb_spec (term_of n) (vq_Term req)) as [Hlt|Hge'].
  - apply stepDown_wp; try done.
    + intros n2 Hs _. cbn [negb]. apply Hrest.
      * eapply post_trans; [done|apply Hs].
      * apply Hs.
      * rewrite (sd_term _ _ _ Hs). change (term_of n1) with (term_of n). lia.
      * left. rewrite (sd_vote _ _ _ Hs). change (term_of n1) with (term_of n).
        by rewrite (proj2 (N.ltb_lt _ _) Hlt).
      * apply (sd_log _ _ _ Hs).
      * apply (sd_base _ _ _ Hs).
      * apply (sd_commit _ _ _ Hs).
    + intros n2 Hp2 Hf2 Hst2 _ _ _ _. cbn [negb]. apply vote_response_wp, HQ.
      * by eapply post_trans.
      * apply refused; [done|by rewrite Hst2|]. unfold commit_of in *. by rewrite Hst2.
  - apply wp_ret. cbn [negb]. apply Hrest; try done.
    + change (term_of n1) with (term_of n). lia.
    + right. split; [lia|done].
Qed.

(** ** Replication *)

Record typed_append (req : AppendRequest) : Prop := {
  ta_Term : aq_Term req < two64;
  ta_Prev : aq_PrevLogIndex req < two64;
  ta_Commit : aq_LeaderCommit req < two64;
  ta_Entries : rep_entries (aq_Entries req);
}.

(** The index an entry of the request must have. *)
Definition expected (req : AppendRequest) (k : N) : N :=
  add64 (add64 (aq_PrevLogIndex req) 1) k.

(** Entries the node already has: well formed, and below the base or equal to
    its own. *)
Definition known n (req : AppendRequest) (k : nat) (e : Entry) : Prop :=
  e_Index e = expected req (N.of_nat k) ∧ e_Term e ≠ 0 ∧ e_Term e ≤ aq_Term req ∧
  (e_Index e ≤ base_of n ∨ log_at (n_state n) (e_Index e) = Some e).

(** The first entry the node does not have. *)
Definition novel n (req : AppendRequest) (k : nat) (e : Entry) : Prop :=
  e_Index e = expected req (N.of_nat k) ∧ e_Term e ≠ 0 ∧ e_Term e ≤ aq_Term req ∧
  base_of n < e_Index e ∧
  (last_index (n_state n) < e_Index e ∨
   ∃ old, log_at (n_state n) (e_Index e) = Some old ∧ e_Term old ≠ e_Term e).

(** An entry out of place, of term zero or of a term above the request's. *)
Definition malformed (req : AppendRequest) (k : nat) (e : Entry) : Prop :=
  e_Index e ≠ expected req (N.of_nat k) ∨ e_Term e = 0 ∨ aq_Term req < e_Term e.

(** An entry that differs from the node's own entry of the same index and term,
    which no two correct leaders' logs can hold. *)
Definition clashing n (e : Entry) : Prop :=
  base_of n < e_Index e ∧
  ∃ mine, log_at (n_state n) (e_Index e) = Some mine ∧ e_Term mine = e_Term e ∧ e ≠ mine.

(** The node has every entry of the request before the [k]-th. *)
Definition known_below n (req : AppendRequest) (k : nat) : Prop :=
  ∀ j x, (j < k)%nat → aq_Entries req !! j = Some x → known n req j x.

Lemma known_agrees n req k e : known n req k e → ¬ clashing n e.
Proof using Type. intros (_&_&_&[Hb|Hl]) [Hb' (m&Hm&_&Hne)]; [lia|congruence]. Qed.

Lemma known_formed n req k e : known n req k e → ¬ malformed req k e.
Proof using Type. intros (?&?&?&_) [?|[?|?]]; [done|done|lia]. Qed.

Lemma known_novel n req k e : wf_state (n_state n) → known n req k e → ¬ novel n req k e.
Proof using Type.
  intros Hwf (_&_&_&Hk) (_&_&_&Hb&Hn). destruct Hk as [Hk|Hk]; [lia|].
  destruct Hn as [Hl|(old&Ho&Ht)]; [|congruence].
  assert (is_Some (log_at (n_state n) (e_Index e))) as Hs by done. apply log_at_is_Some in Hs.
  rewrite last_index_end in Hs by done. lia.
Qed.

Lemma novel_agrees n req k e : wf_state (n_state n) → novel n req k e → ¬ clashing n e.
Proof using Type.
  intros Hwf (_&_&_&_&Hn) [_ (m&Hm&Ht&_)]. destruct Hn as [Hl|(old&Ho&Hd)]; [|congruence].
  assert (is_Some (log_at (n_state n) (e_Index e))) as Hs by done. apply log_at_is_Some in Hs.
  rewrite last_index_end in Hs by done. lia.
Qed.

(** What the loop over the entries finds. *)
Inductive scan_result n (req : AppendRequest) : error + (N * list Entry) → Prop :=
  | scan_error err k e :
      aq_Entries req !! k = Some e → known_below n req k → malformed req k e ∨ clashing n e →
      scan_result n req (inl err)
  | scan_known :
      (∀ k e, aq_Entries req !! k = Some e → known n req k e) →
      scan_result n req (inr (0, []))
  | scan_new k e :
      aq_Entries req !! k = Some e → novel n req k e → known_below n req k →
      scan_result n req (inr (e_Index e, drop k (aq_Entries req))).

Lemma new_entries_wf n req i es :
  wf_state (n_state n) → typed_append req → es = drop i (aq_Entries req) →
  known_below n req i →
  ∃ r, new_entries n req (N.of_nat i) es = Some r ∧ scan_result n req r.
Proof using Type.
  intros H0 Hty. revert i. induction es as [|e es IH]; intros i Hes Hk.
  { eexists. split; [done|]. apply scan_known. intros k e He. apply (Hk k); [|done].
    apply lookup_lt_Some in He. symmetry in Hes. apply (f_equal length) in Hes.
    rewrite length_drop in Hes. cbn in Hes. lia. }
  assert (aq_Entries req !! i = Some e) as Hi.
  { rewrite <-(Nat.add_0_r i), <-lookup_drop, <-Hes. done. }
  assert (rep_entry e) as [Hei Het _].
  { destruct (ta_Entries req Hty) as [_ Hall]. eapply Forall_lookup_1; [exact Hall|exact Hi]. }
  cbn [new_entries].
  destruct (negb _ || _ || _) eqn:Hbad.
  { eexists. split; [done|]. apply (scan_error _ _ _ i e Hi Hk). left. unfold malformed, expected.
    apply orb_true_iff in Hbad as [Hbad|Hbad]; [apply orb_true_iff in Hbad as [Hbad|Hbad]|]; tests; auto. }
  apply orb_false_iff in Hbad as [Hbad H2]. apply orb_false_iff in Hbad as [H1 H3].
  apply negb_false_iff, N.eqb_eq in H1. apply N.ltb_ge in H3. apply N.eqb_neq in H2.
  fold (expected req (N.of_nat i)) in H1. fold (base_of n).
  assert (es = drop (S i) (aq_Entries req)) as Hes'.
  { replace (S i) with (i + 1)%nat by lia. rewrite <-drop_drop, <-Hes. done. }
  assert (known n req i e → ∃ r, new_entries n req (N.of_nat i + 1) es = Some r ∧ scan_result n req r) as Hgo.
  { intros He. replace (N.of_nat i + 1) with (N.of_nat (S i)) by lia. apply IH; [done|].
    intros j x Hj Hx. destruct (Nat.eq_dec j i) as [->|].
    - rewrite Hi in Hx. by injection Hx as <-.
    - apply Hk; [lia|done]. }
  destruct (N.leb_spec (e_Index e) (base_of n)) as [Hb|Hb].
  { apply Hgo. split_and!; try done. by left. }
  rewrite lastLocked_wf by done.
  destruct (N.ltb_spec (last_index (n_state n)) (e_Index e)) as [Hl|Hl].
  { eexists. split; [done|]. rewrite Hes. eapply scan_new; [done| |done]. split_and!; try done. by left. }
  rewrite entryLocked_wf by done.
  destruct (log_at_some _ H0 (e_Index e)) as [mine Hm]; [unfold base_of in *; lia|done|].
  rewrite Hm. cbn [mbind option_bind].
  destruct (N.eqb_spec (e_Term mine) (e_Term e)) as [Ht|Ht]; cbn [negb].
  - case_bool_decide as Heq.
    { eexists. split; [done|]. apply (scan_error _ _ _ i e Hi Hk). right. split; [done|]. by exists mine. }
    apply Hgo. split_and!; try done. right.
    rewrite Hm. by rewrite Heq.
  - eexists. split; [done|]. rewrite Hes. eapply scan_new; [done| |done].
    split_and!; try done. right. by exists mine.
Qed.

Lemma new_entries_spec n req i es :
  Inv0 n → typed_append req → es = drop i (aq_Entries req) →
  known_below n req i →
  ∃ r, new_entries n req (N.of_nat i) es = Some r ∧ scan_result n req r.
Proof using Type. intros H0. apply new_entries_wf, Inv0_state, H0. Qed.

Lemma conflict_index_spec fuel n prev c :
  Inv0 n → base_of n ≤ prev → prev ≤ last_index (n_state n) →
  base_of n ≤ c → c ≤ prev → fuel = N.to_nat (c - base_of n) →
  ∃ r, conflict_index fuel n prev c = Some r ∧ base_of n ≤ r ∧ r ≤ c ∧
    (∀ i e p, r ≤ i → i < c → log_at (n_state n) i = Some e → log_at (n_state n) prev = Some p →
       e_Term e = e_Term p) ∧
    (base_of n < r → ∀ e p, log_at (n_state n) (r - 1) = Some e → log_at (n_state n) prev = Some p →
       e_Term e ≠ e_Term p).
Proof using Type.
  intros H0 Hb Hl. destruct (Inv0_bounds n H0) as (_&_&Hl64&_).
  destruct (log_at_some _ (Inv0_state n H0) prev) as [p Hp]; [done|done|].
  revert c. induction fuel as [|fuel IH]; intros c Hbc Hcp Hf.
  { exists c. split_and!; try done; intros; lia. }
  cbn [conflict_index]. fold (base_of n). destruct (N.ltb_spec (base_of n) c) as [Hlt|]; [|lia].
  rewrite sub64_small by lia. rewrite !entryLocked_spec by (done || lia).
  destruct (log_at_some _ (Inv0_state n H0) (c - 1)) as [e He]; [unfold base_of in *; lia|lia|].
  rewrite He, Hp. cbn [mbind option_bind].
  destruct (N.eqb_spec (e_Term e) (e_Term p)) as [Ht|Ht].
  - destruct (IH (c - 1)) as (r&Hr&?&?&Hsame&Hdiff); [lia|lia|lia|].
    exists r. split_and!; try done; [lia| |rewrite Hp in Hdiff; exact Hdiff]. intros i x q Hi1 Hi2 Hx Hq.
    destruct (N.eq_dec i (c - 1)) as [->|].
    + rewrite He in Hx. injection Hx as <-. by injection Hq as <-.
    + rewrite Hp in Hsame. apply (Hsame i); done || lia.
  - exists c. split_and!; try done; [intros; lia|].
    intros _ x q Hx Hq. rewrite He in Hx. injection Hx as <-. by injection Hq as <-.
Qed.

(** An entry of the request that contradicts the node's log. *)
Definition conflicting n (req : AppendRequest) : Prop :=
  ∃ k e old, aq_Entries req !! k = Some e ∧ log_at (n_state n) (e_Index e) = Some old ∧
    e_Term old ≠ e_Term e.

(** The durable effect of an accepted request: the node is in the leader's term
    and holds every entry of the request; what came before is untouched, what
    came after is kept unless the request contradicts the log; the commit index
    follows the leader's up to the last entry received. *)
Record accepted n n' (req : AppendRequest) : Prop := {
  ac_prev : ∃ p, log_at (n_state n) (aq_PrevLogIndex req) = Some p ∧
    e_Term p = aq_PrevLogTerm req;
  ac_entries : ∀ k e, aq_Entries req !! k = Some e →
    e_Index e = aq_PrevLogIndex req + 1 + N.of_nat k ∧ log_at (n_state n') (e_Index e) = Some e;
  ac_before : ∀ i, i ≤ aq_PrevLogIndex req → log_at (n_state n') i = log_at (n_state n) i;
  ac_after : ∀ i, aq_PrevLogIndex req + lenN (aq_Entries req) < i →
    log_at (n_state n') i = log_at (n_state n) i ∨
    log_at (n_state n') i = None ∧ conflicting n req;
  ac_commit : commit_of n' = N.max (commit_of n)
    (N.min (aq_LeaderCommit req) (aq_PrevLogIndex req + lenN (aq_Entries req)));
  ac_base : base_of n' = base_of n;
}.

(** The requests a node accepts: it is available and the sender is a member of
    its cluster, and its fixed leader if it has one; the request is not of an
    older term; the node has the entry the request's own entries follow; these
    are well formed, the first one the node does not have replaces no committed
    entry, and none up to it clashes with the node's log. *)
Record acceptable n (req : AppendRequest) : Prop := {
  at_available : availableLocked n = true;
  at_member : member n (aq_LeaderID req) (aq_ClusterID req) = true;
  at_fixed : cfg_FixedLeader (n_cfg n) = "" ∨ aq_LeaderID req = cfg_FixedLeader (n_cfg n);
  at_term : term_of n ≤ aq_Term req;
  at_prev : ∃ p, log_at (n_state n) (aq_PrevLogIndex req) = Some p ∧
    e_Term p = aq_PrevLogTerm req;
  at_formed : ∀ k e, aq_Entries req !! k = Some e → ¬ malformed req k e;
  at_agree : ∀ k e, aq_Entries req !! k = Some e → known_below n req k → ¬ clashing n e;
  at_committed : ∀ k e, aq_Entries req !! k = Some e → novel n req k e → commit_of n < e_Index e;
}.

(** What the handler answers. *)
Record append_answer n n' (req : AppendRequest) (resp : AppendResponse) (err : option error)
    : Prop := {
  an_term : ar_Term resp = term_of n';
  an_sound : ar_Success resp = true → acceptable n req;
  an_accepted : ar_Success resp = true →
    err = None ∧ term_of n' = aq_Term req ∧ n_failed n' = None ∧
    ar_MatchIndex resp = add64 (aq_PrevLogIndex req) (lenN (aq_Entries req)) ∧
    (aq_PrevLogIndex req + lenN (aq_Entries req) < two64 → accepted n n' req);
  an_refused : ar_Success resp = false →
    ds_log (n_state n') = ds_log (n_state n) ∧ base_of n' = base_of n ∧ commit_of n' = commit_of n ∧
    (acceptable n req → n_failed n' ≠ None);
}.

(** Two states of a node that differ in nothing the checks look at. *)
Lemma acceptable_moves a b req :
  availableLocked b = availableLocked a → n_cfg b = n_cfg a → n_peers b = n_peers a →
  ds_log (n_state b) = ds_log (n_state a) → base_of b = base_of a → commit_of b = commit_of a →
  term_of b ≤ aq_Term req → acceptable a req → acceptable b req.
Proof using Type.
  intros Hav Hcf Hpe Hlog Hbase Hcom Ht [C1 C2 C3 C4 C5 C6 C7 C8].
  assert (∀ i, log_at (n_state b) i = log_at (n_state a) i) as Hat.
  { intros i. unfold log_at. unfold base_of in Hbase. by rewrite Hlog, Hbase. }
  split.
  - by rewrite Hav.
  - unfold member. by rewrite Hcf, Hpe.
  - by rewrite Hcf.
  - done.
  - by setoid_rewrite Hat.
  - done.
  - intros k e Hk Hkn [Hb Hd]. apply (C7 k e Hk).
    + intros j x Hj Hx. destruct (Hkn j x Hj Hx) as (?&?&?&Hl). rewrite Hbase, Hat in Hl. by split_and!.
    + split; [by rewrite <-Hbase|]. by setoid_rewrite <-Hat.
  - intros k e Hk Hn. rewrite Hcom. apply (C8 k e Hk). unfold novel, last_index in *.
    unfold base_of in *. by rewrite <-Hat, <-Hlog, <-Hbase.
Qed.

Lemma expected_shift req k m :
  expected req (N.of_nat k) + N.of_nat m < two64 →
  expected req (N.of_nat (k + m)) = expected req (N.of_nat k) + N.of_nat m.
Proof using Type.
  intros H. unfold expected, add64 in *. rewrite Nat2N.inj_add, N.add_assoc.
  rewrite <-(N.Div0.add_mod_idemp_l (_ + N.of_nat k)). by apply N.mod_small.
Qed.

(** The entries of a request the node has passed the checks. *)
Lemma known_acceptable n req : wf_state (n_state n) →
  (∀ k e, aq_Entries req !! k = Some e → known n req k e) →
  (∀ k e, aq_Entries req !! k = Some e → ¬ malformed req k e) ∧
  (∀ k e, aq_Entries req !! k = Some e → known_below n req k → ¬ clashing n e) ∧
  (∀ k e, aq_Entries req !! k = Some e → novel n req k e → commit_of n < e_Index e).
Proof using Type.
  intros Hwf Hk. split_and!.
  - intros k e He. by eapply known_formed, Hk.
  - intros k e He _. by eapply known_agrees, Hk.
  - intros k e He Hn. exfalso. by eapply known_novel, Hn; [|apply Hk].
Qed.

(** So do those of a request whose save is valid. *)
Lemma saved_acceptable n req r k e :
  wf_state (n_state n) → valid_update (rc_Identity r) (n_state n) r → rc_Term r = aq_Term req →
  rc_From r = e_Index e → rc_Entries r = drop k (aq_Entries req) →
  aq_Entries req !! k = Some e → novel n req k e → known_below n req k →
  (∀ k e, aq_Entries req !! k = Some e → ¬ malformed req k e) ∧
  (∀ k e, aq_Entries req !! k = Some e → known_below n req k → ¬ clashing n e) ∧
  (∀ k e, aq_Entries req !! k = Some e → novel n req k e → commit_of n < e_Index e).
Proof using Type.
  intros Hwf Hv Ht HF Hes He Hn Hk. pose proof Hn as (Hi&_&_&Hb&_).
  assert (rc_From r ≠ 0) as HF0 by (rewrite HF; unfold base_of in *; lia).
  destruct (vu_from _ _ _ Hv HF0) as (Hcom&_&_&Hov&_&Hall). rewrite Hes in Hall, Hov.
  assert (∀ j x, (k ≤ j)%nat → aq_Entries req !! j = Some x →
    e_Index x = expected req (N.of_nat j) ∧ rc_From r ≤ e_Index x ∧
    e_Term x ≠ 0 ∧ e_Term x ≤ aq_Term req) as Hlate.
  { intros j x Hj Hx.
    assert (drop k (aq_Entries req) !! (j - k)%nat = Some x) as Hd
      by (rewrite lookup_drop; by replace (k + (j - k))%nat with j by lia).
    assert (N.of_nat (j - k) < lenN (drop k (aq_Entries req))) by (by apply lookup_lenN).
    destruct (Hall _ _ Hd) as (Hix&Hx0&Hxt&_). split_and!; [|lia|done|lia].
    replace j with (k + (j - k))%nat by lia. rewrite expected_shift by lia. lia. }
  split_and!.
  - intros j x Hx. destruct (Nat.lt_ge_cases j k) as [Hj|Hj]; [by eapply known_formed, Hk|].
    destruct (Hlate j x Hj Hx) as (?&_&?&?). intros [?|[?|?]]; [done|done|lia].
  - intros j x Hx Hkj. destruct (lt_eq_lt_dec j k) as [[Hj| ->]|Hj].
    + by eapply known_agrees, Hk.
    + eapply novel_agrees; [done|]. rewrite He in Hx. by injection Hx as <-.
    + exfalso. by eapply known_novel, Hn; [|apply (Hkj k e)].
  - intros j x Hx Hnx. destruct (Nat.lt_ge_cases j k) as [Hj|Hj].
    + exfalso. by eapply known_novel, Hnx; [|apply Hk].
    + destruct (Hlate j x Hj Hx) as (_&?&_). unfold commit_of in *. lia.
Qed.

Lemma append_response_wp (Q : AppendResponse * option error → Node J → Prop) err n :
  (∀ c, Q (mkAppendResponse (term_of n) false 0 c, err) n) → wp E (append_response err) Q n.
Proof. intros H. unfold append_response. apply wp_bind, wp_get, wp_ret, H. Qed.

Lemma append_conflict_wp (Q : AppendResponse * option error → Node J → Prop) c n :
  Q (mkAppendResponse (term_of n) false 0 c, None) n → wp E (append_conflict c) Q n.
Proof. intros H. unfold append_conflict. by apply wp_bind, wp_get, wp_ret. Qed.

(** The log after the save of what [new_entries] found. *)
Lemma accepted_known n n' req :
  n_state n' = n_state n ∨ ds_log (n_state n') = ds_log (n_state n) ∧ base_of n' = base_of n →
  (∃ p, log_at (n_state n) (aq_PrevLogIndex req) = Some p ∧ e_Term p = aq_PrevLogTerm req) →
  base_of n ≤ aq_PrevLogIndex req →
  aq_PrevLogIndex req + lenN (aq_Entries req) < two64 →
  (∀ k e, aq_Entries req !! k = Some e → known n req k e) →
  commit_of n' = N.max (commit_of n)
    (N.min (aq_LeaderCommit req) (aq_PrevLogIndex req + lenN (aq_Entries req))) →
  accepted n n' req.
Proof using Type.
  intros Hst Hprev Hbase Hov Hk Hc.
  assert (base_of n' = base_of n ∧ ∀ i, log_at (n_state n') i = log_at (n_state n) i) as [Hb Hat].
  { destruct Hst as [Hst|[Hlog Hb]]; [by unfold base_of; rewrite Hst|]. split; [done|].
    intros i. unfold log_at. unfold base_of in Hb. by rewrite Hlog, Hb. }
  split; try done.
  - intros k e He. destruct (Hk k e He) as (Hi&_&_&Hl).
    assert (N.of_nat k < lenN (aq_Entries req)) by (by apply lookup_lenN).
    unfold expected in Hi. rewrite (add64_small _ 1), add64_small in Hi by lia.
    split; [done|]. rewrite Hat. destruct Hl as [Hl|Hl]; [lia|done].
  - intros i _. left. apply Hat.
Qed.

Lemma accepted_new n n' req r k e :
  wf_state (n_state n) → valid_update (rc_Identity r) (n_state n) r →
  n_state n' = updated (n_state n) r →
  rc_From r = e_Index e → rc_Entries r = drop k (aq_Entries req) →
  rc_Commit r = N.max (commit_of n)
    (N.min (aq_LeaderCommit req) (aq_PrevLogIndex req + lenN (aq_Entries req))) →
  (∃ p, log_at (n_state n) (aq_PrevLogIndex req) = Some p ∧ e_Term p = aq_PrevLogTerm req) →
  base_of n ≤ aq_PrevLogIndex req →
  aq_PrevLogIndex req + lenN (aq_Entries req) < two64 →
  aq_Entries req !! k = Some e → novel n req k e →
  (∀ j x, (j < k)%nat → aq_Entries req !! j = Some x → known n req j x) →
  accepted n n' req.
Proof using Type.
  intros Hwf Hv Hst HF Hes Hcm Hprev Hbase Hov He (Hi&_&_&Hbi&Hnew) Hk.
  assert (N.of_nat k < lenN (aq_Entries req)) as Hkl by (by apply lookup_lenN).
  unfold expected in Hi. rewrite (add64_small _ 1), add64_small in Hi by lia.
  assert (rc_From r ≠ 0) as HF0 by (rewrite HF; unfold base_of in *; lia).
  destruct (vu_from _ _ _ Hv HF0) as (_&_&_&_&_&Hall).
  assert (∀ i, log_at (n_state n') i =
    if i <? e_Index e then log_at (n_state n) i
    else aq_Entries req !! N.to_nat (i - (aq_PrevLogIndex req + 1))) as Hat.
  { intros i. rewrite Hst, log_at_updated by done.
    rewrite (proj2 (N.eqb_neq _ _) HF0), HF. cbn [orb].
    destruct (N.ltb_spec i (e_Index e)); [done|]. rewrite Hes, lookup_drop. f_equal. lia. }
  split; try done.
  - intros j x Hx.
    assert (N.of_nat j < lenN (aq_Entries req)) as Hjl by (by apply lookup_lenN).
    assert (e_Index x = aq_PrevLogIndex req + 1 + N.of_nat j ∧
      ((j < k)%nat → base_of n < e_Index x → log_at (n_state n) (e_Index x) = Some x)) as [Hix Hold].
    { destruct (Nat.lt_ge_cases j k) as [Hjk|Hjk].
      - destruct (Hk j x Hjk Hx) as (Hxi&_&_&Hl).
        unfold expected in Hxi. rewrite (add64_small _ 1), add64_small in Hxi by lia.
        split; [done|]. intros _ Hb. destruct Hl as [Hl|Hl]; [lia|done].
      - destruct (Hall (j - k)%nat x) as (Hxi&_).
        { rewrite Hes, lookup_drop. by replace (k + (j - k))%nat with j by lia. }
        split; [|lia]. rewrite Hxi, HF, Hi. lia. }
    split; [done|]. rewrite Hat. destruct (N.ltb_spec (e_Index x) (e_Index e)) as [Hlt|Hge].
    + apply Hold; [lia|]. rewrite Hix. lia.
    + rewrite Hix. replace (N.to_nat _) with j by lia. done.
  - intros i Hip. rewrite Hat. by destruct (N.ltb_spec i (e_Index e)); [|lia].
  - intros i Hip. rewrite Hat. destruct (N.ltb_spec i (e_Index e)) as [|Hge]; [by left|].
    assert (aq_Entries req !! N.to_nat (i - (aq_PrevLogIndex req + 1)) = None) as ->.
    { apply lookup_ge_None_2. unfold lenN in *. lia. }
    destruct Hnew as [Hl|(old&Ho&Ht)]; [left|right].
    + symmetry. destruct (log_at (n_state n) i) eqn:Hx; [|done].
      assert (is_Some (log_at (n_state n) i)) as Hs by done. apply log_at_is_Some in Hs.
      rewrite last_index_end in Hs by done. lia.
    + split; [done|]. by exists k, e, old.
  - unfold commit_of. rewrite Hst. cbn. done.
  - unfold base_of. by rewrite Hst.
Qed.

Lemma append_entries_wp (Q : AppendResponse * option error → Node J → Prop) req n :
  Inv n → n_role n = follower → n_failed n = None → term_of n = aq_Term req →
  typed_append req → room E n (lenN (aq_Entries req)) →
  base_of n ≤ aq_PrevLogIndex req →
  (∃ p, log_at (n_state n) (aq_PrevLogIndex req) = Some p ∧ e_Term p = aq_PrevLogTerm req) →
  availableLocked n = true → member n (aq_LeaderID req) (aq_ClusterID req) = true →
  cfg_FixedLeader (n_cfg n) = "" ∨ aq_LeaderID req = cfg_FixedLeader (n_cfg n) →
  (∀ resp err n', post n n' → append_answer n n' req resp err → Q (resp, err) n') →
  wp E (append_entries req) Q n.
Proof.
  intros HI Hr Hnf Ht Hty Hroom Hbase Hprev Hav Hmb Hfx HQ. pose proof (inv_core n HI) as H0.
  destruct (Inv0_bounds n H0) as (Ht64&Hc64&Hl64&Hbc&Hcl&Htv). pose proof (Inv0_state n H0) as Hwf.
  assert (n_pending n = ∅) as Hpend by (apply waiting_leader; [done|by rewrite Hr]).
  assert (∀ n' err c, post n n' → n_state n' = n_state n → (acceptable n req → n_failed n' ≠ None) →
    Q (mkAppendResponse (term_of n') false 0 c, err) n') as Hno.
  { intros n' err c Hp Hst Hac. apply HQ; [done|]. split; [done|done|done|]. intros _.
    unfold base_of, commit_of. by rewrite Hst. }
  assert (∀ err c, ¬ acceptable n req → Q (mkAppendResponse (term_of n) false 0 c, err) n) as Hno0.
  { intros err c Hna. by apply Hno; [apply post_refl|..]. }
  unfold append_entries. apply wp_bind, wp_get.
  destruct (new_entries_spec n req 0 (aq_Entries req) H0 Hty) as (found&Hfound&Hscan);
    [by rewrite drop_0|intros ?; lia|].
  change (N.of_nat 0) with 0 in Hfound. rewrite Hfound. apply wp_bind, wp_lift_some.
  destruct found as [err|[from entries]].
  { apply append_response_wp. intros c. apply Hno0. intros Ha.
    inversion Hscan as [? k e He Hk [Hd|Hd]| |]; subst;
      [by apply (at_formed _ _ Ha k e He)|by apply (at_agree _ _ Ha k e He Hk)]. }
  cbv zeta. fold (commit_of n) (term_of n) (vote_of n).
  set (matched := add64 (aq_PrevLogIndex req) (lenN (aq_Entries req))).
  set (commit := if commit_of n <? aq_LeaderCommit req then _ else _).
  assert (commit = N.max (commit_of n) (N.min (aq_LeaderCommit req) matched)) as Hcm.
  { unfold commit. destruct (N.ltb_spec (commit_of n) (aq_LeaderCommit req)); lia. }
  assert (commit < two64) as Hcm64.
  { rewrite Hcm. pose proof (add64_lt (aq_PrevLogIndex req) (lenN (aq_Entries req))). fold matched in H. lia. }
  assert (∀ n', post n n' → n_failed n' = None → term_of n' = aq_Term req →
    ((∀ k e, aq_Entries req !! k = Some e → ¬ malformed req k e) ∧
     (∀ k e, aq_Entries req !! k = Some e → known_below n req k → ¬ clashing n e) ∧
     (∀ k e, aq_Entries req !! k = Some e → novel n req k e → commit_of n < e_Index e)) →
    (aq_PrevLogIndex req + lenN (aq_Entries req) < two64 → accepted n n' req) →
    wp E (n0 ← get; mret (mkAppendResponse (ds_term (n_state n0)) true matched 0, None)) Q n') as Hyes.
  { intros n' Hp Hf Ht' (Hwf1&Hag&Hcw) Ha. apply wp_bind, wp_get, wp_ret. apply HQ; [done|].
    split; [done| | |done]; intros _; [|by split_and!]. split; try done. by rewrite Ht. }
  destruct (_ && _) eqn:Hover.
  { apply append_response_wp. intros c. apply Hno0. intros Ha.
    apply andb_true_iff in Hover as [HF Hle]. apply negb_true_iff, N.eqb_neq in HF.
    apply N.leb_le in Hle. inversion Hscan as [|Hk|k e He Hn Hk]; subst; [done|].
    pose proof (at_committed _ _ Ha k e He Hn). lia. }
  destruct (negb (from =? 0) || negb (commit =? commit_of n)) eqn:Hchange; cycle 1.
  { apply orb_false_iff in Hchange as [HF Hcc].
    apply negb_false_iff, N.eqb_eq in HF. apply negb_false_iff, N.eqb_eq in Hcc. subst from.
    apply Hyes; [by apply post_refl|done|done| |].
    { apply known_acceptable; [done|]. inversion Hscan as [|Hk|k e He Hn Hk]; subst; [done|].
      destruct Hn as (_&_&_&Hb&_). lia. }
    intros Hov.
    inversion Hscan as [|Hk|k e He Hn Hk]; subst.
    - apply accepted_known; try done; [by left|].
      assert (matched = aq_PrevLogIndex req + lenN (aq_Entries req)) by (by apply add64_small). lia.
    - exfalso. destruct Hn as (_&_&_&Hb&_). lia. }
  apply wp_bind.
  assert (∀ n1, core n1 = core n → wp E
    (ok ← persistLocked (term_of n) (vote_of n) commit from entries;
      if negb ok then append_response (Some ErrUnavailable)
      else applyLocked ;; n0 ← get; mret (mkAppendResponse (ds_term (n_state n0)) true matched 0, None)) Q n1)
    as Hsave.
  2: { apply wp_when; intros _; [apply emit_wp; intros ev rd|]; by apply Hsave. }
  intros n1 Hc1. destruct (core_state _ _ Hc1) as (Es&Er&Ef&_&_&_).
  assert (n_state n1 = n_state n) as Est by (unfold n_state; by rewrite Es).
  assert (Inv n1) as HI1 by (by eapply Inv_core). assert (post n n1) as Hp1 by (by apply post_core).
  assert (rep_entries entries ∧ from < two64 ∧ lenN entries ≤ lenN (aq_Entries req)) as (Hre&Hf64&Hlen).
  { pose proof (ta_Entries req Hty) as [Hfit Hall]. inversion Hscan as [|Hk|k e He Hn Hk]; subst.
    - split_and!; [apply rep_entries_nil|done|apply N.le_0_l].
    - assert (lenN (drop k (aq_Entries req)) ≤ lenN (aq_Entries req)) as Hd
        by (unfold lenN; rewrite length_drop; lia).
      split_and!; [split; [lia|by apply Forall_drop]| |done].
      assert (rep_entry e) as [Hei _ _] by (eapply Forall_lookup_1; [exact Hall|exact He]). done. }
  set (r := save_record (n_store n1) (term_of n) (vote_of n) commit from entries).
  assert (representable r) as Hrr by (apply Inv0_rep; try done; apply HI1).
  assert (E ∨ lenN (ds_log (updated (n_state n1) r)) < two63) as Hmem.
  { destruct Hroom as [?|Hroom]; [by left|right].
    unfold roomy in Hroom. rewrite Est. unfold updated. cbn [ds_log].
    destruct (_ =? 0); [apply (wf_fits _ Hwf)|].
    rewrite lenN_app. change (rc_Entries r) with entries.
    assert (lenN (take (N.to_nat (rc_From r - ds_base (n_state n))) (ds_log (n_state n)))
      ≤ lenN (ds_log (n_state n))) by (unfold lenN; rewrite length_take; lia). lia. }
  apply wp_bind, persist_wp; [apply HI1|exact Hrr|by rewrite Ef|exact Hmem| |]; fold r.
  - intros w Hvu Hfit Hcon. cbn [negb].
    assert (Inv0 (saved n1 w r)) as H02.
    { apply Inv0_saved; try done; [apply HI1|by rewrite Ef|]. left.
      unfold core in Hc1. injection Hc1 as _ _ _ _ _ _ _ -> _ _ _ _ _ _. done. }
    assert (Inv (saved n1 w r)) as HI2.
    { apply Inv_saved; try done; [by rewrite Ef|]. unfold vote_of. by rewrite Est. }
    assert (evolves n1 (saved n1 w r)) as He2.
    { apply evolves_saved; try done; [apply HI1|left; unfold core in Hc1; by injection Hc1 as _ _ _ _ _ _ _ -> _ _ _ _ _ _|by rewrite Ef|]. intros Hl. by rewrite Er, Hr in Hl. }
    set (n2 := saved n1 w r) in *.
    apply wp_bind, applyLocked_wp; [done|change (n_failed n1 = None); by rewrite Ef|].
    intros n3 n' Hst3 HI3 He3 Hcu3 Hp' _ _ _ Ht' _ _ _ _ Hnl.
    rewrite Hnl in * by (change (n_role n2) with (n_role n1); by rewrite Er, Hr). clear Hnl.
    pose proof (applies_static _ _ Hst3) as Hs. injection Hs as _ _ _ Es3 _ Ef3 _ _ _ Eq3.
    assert (n_state n3 = updated (n_state n) r) as Est3.
    { unfold n_state at 1. rewrite Es3. change (st_state (n_store n2)) with (updated (n_state n1) r).
      by rewrite Est. }
    apply Hyes.
    + eapply (post_trans n n1); [done|]. apply post_silent; [done|by etransitivity|done|by rewrite Eq3].
    + rewrite Ef3. change (n_failed n2) with (n_failed n1). by rewrite Ef.
    + unfold term_of. rewrite Est3. exact Ht.
    + inversion Hscan as [|Hk|k e He Hn Hk]; subst; [by apply known_acceptable|].
      rewrite Est in Hvu. rewrite <-(vu_identity _ _ _ Hvu) in Hvu.
      by apply (saved_acceptable n req r k e).
    + intros Hov. rewrite Est in Hvu. rewrite <-(vu_identity _ _ _ Hvu) in Hvu.
      assert (rc_Commit r = N.max (commit_of n)
        (N.min (aq_LeaderCommit req) (aq_PrevLogIndex req + lenN (aq_Entries req)))) as Hrc.
      { cbn. rewrite Hcm. unfold matched. by rewrite add64_small. }
      inversion Hscan as [|Hk|k e He Hn Hk]; subst.
      * apply accepted_known; try done.
        -- right. unfold base_of. by rewrite Est3.
        -- unfold commit_of at 1. rewrite Est3. exact Hrc.
      * eapply (accepted_new n n3 req r k e); done.
  - intros w err ev rd Hrec. cbn [negb]. apply append_response_wp. intros c. apply Hno.
    + eapply post_trans; [exact Hp1|].
      apply post_silent; [by apply Inv_broken; [apply HI1|]|apply evolves_broken; [apply HI1|done|by rewrite Ef]|done|done].
    + exact Est.
    + done.
Qed.

Lemma AppendEntries_wp (Q : AppendResponse * option error → Node J → Prop) req n :
  Inv n → typed_append req → room E n (lenN (aq_Entries req)) →
  (∀ resp err n', post n n' → append_answer n n' req resp err → Q (resp, err) n') →
  wp E (AppendEntries req) Q n.
Proof.
  intros HI Hty Hroom HQ. pose proof (inv_core n HI) as H0. pose proof (Inv0_state n H0) as Hwf.
  assert (∀ n' err c, post n n' → ds_log (n_state n') = ds_log (n_state n) →
    base_of n' = base_of n → commit_of n' = commit_of n → (acceptable n req → n_failed n' ≠ None) →
    Q (mkAppendResponse (term_of n') false 0 c, err) n') as Hno.
  { intros n' err c Hp Hl Hb Hc Hac. apply HQ; [done|]. by split. }
  assert (∀ err c, ¬ acceptable n req → Q (mkAppendResponse (term_of n) false 0 c, err) n) as Hno0.
  { intros err c Hna. by apply Hno; [apply post_refl|..]. }
  unfold AppendEntries. apply wp_bind, wp_get.
  destruct (availableLocked n) eqn:Hav; cbn [negb]; [|apply append_response_wp; intros; apply Hno0; intros []; congruence].
  pose proof (available_failed n Hav) as Hnf.
  destruct (_ || _) eqn:Hmem.
  { apply append_response_wp; intros; apply Hno0; intros [_ Hm Hfx _ _ _ _ _].
    rewrite Hm in Hmem. cbn [negb orb] in Hmem. apply andb_true_iff in Hmem as [H1 H2].
    apply bool_decide_eq_true in H1, H2. by destruct Hfx. }
  apply orb_false_iff in Hmem as [Hmem Hfx]. apply negb_false_iff in Hmem.
  assert (cfg_FixedLeader (n_cfg n) = "" ∨ aq_LeaderID req = cfg_FixedLeader (n_cfg n)) as Hfixed.
  { apply andb_false_iff in Hfx as [Hfx|Hfx]; apply bool_decide_eq_false, dec_stable in Hfx; auto. }
  apply wp_bind, emit_wp. intros ev rd. set (n1 := set_events _ _).
  assert (core n1 = core n) as Hc1 by done.
  assert (Inv n1) as HI1 by (by eapply Inv_core). assert (post n n1) as Hp1 by (by apply post_core).
  fold (term_of n).
  destruct (N.ltb_spec (aq_Term req) (term_of n)) as [Hlow|Hge].
  { apply append_response_wp. intros c. apply (Hno n1); try done. intros []. lia. }
  apply wp_bind, stepDown_wp; [done|apply Hty|done|..].
  2: { intros n2 Hp2 Hf2 Hst2 _ _ _ _. cbn [negb]. apply append_response_wp. intros c. apply Hno.
    - by eapply post_trans.
    - by rewrite Hst2.
    - unfold base_of. by rewrite Hst2.
    - unfold commit_of. by rewrite Hst2.
    - done. }
  intros n2 Hs _. cbn [negb]. apply wp_bind, resetTimer_wp. intros dl dr rd2.
  apply wp_bind, wp_get. set (n3 := set_deadline _ _).
  assert (core n3 = core n2) as Hc3 by done.
  assert (post n n3) as Hp3 by (eapply post_core_r; [eapply post_trans; [exact Hp1|apply Hs]|done]).
  pose proof (post_inv _ _ Hp3) as HI3. pose proof (inv_core _ HI3) as H03.
  assert (ds_log (n_state n3) = ds_log (n_state n)) as Hlog by apply (sd_log _ _ _ Hs).
  assert (base_of n3 = base_of n) as Hbase by apply (sd_base _ _ _ Hs).
  assert (commit_of n3 = commit_of n) as Hcom by apply (sd_commit _ _ _ Hs).
  assert (term_of n3 = aq_Term req) as Hterm.
  { change (term_of n3) with (term_of n2). rewrite (sd_term _ _ _ Hs).
    change (term_of n1) with (term_of n). lia. }
  assert (∀ i, log_at (n_state n3) i = log_at (n_state n) i) as Hat.
  { intros i. unfold log_at. unfold base_of in Hbase. by rewrite Hlog, Hbase. }
  assert (∀ err c, (∀ p, log_at (n_state n3) (aq_PrevLogIndex req) = Some p →
      e_Term p ≠ aq_PrevLogTerm req) →
    Q (mkAppendResponse (term_of n3) false 0 c, err) n3) as Hno3.
  { intros err c Hnp. apply Hno; try done. intros [_ _ _ _ (p&Hp&Hpt) _ _ _].
    rewrite <-Hat in Hp. by apply Hnp in Hpt. }
  assert (∀ i, last_index (n_state n3) < i ∨ i < base_of n3 → log_at (n_state n3) i = None) as Hout.
  { intros i Hi. destruct (log_at (n_state n3) i) eqn:He; [|done].
    assert (is_Some (log_at (n_state n3) i)) as Hs' by done. apply log_at_is_Some in Hs'.
    pose proof (last_index_end _ (Inv0_state n3 H03)). unfold base_of in *. lia. }
  destruct (Inv0_bounds n3 H03) as (_&Hc64&Hl64&Hbc&Hcl&_).
  rewrite lastLocked_spec by done.
  destruct (N.ltb_spec (last_index (n_state n3)) (aq_PrevLogIndex req)) as [|Hpl].
  { apply append_response_wp. intros c. apply Hno3. intros p. rewrite Hout; [done|by left]. }
  fold (base_of n3). destruct (N.ltb_spec (aq_PrevLogIndex req) (base_of n3)) as [|Hpb].
  { apply append_conflict_wp, Hno3. intros p. rewrite Hout; [done|by right]. }
  rewrite entryLocked_spec by (done || apply Hty).
  destruct (log_at_some _ (Inv0_state n3 H03) (aq_PrevLogIndex req)) as [p Hpe]; [done|done|].
  rewrite Hpe. apply wp_bind, wp_lift_some.
  destruct (N.eqb_spec (e_Term p) (aq_PrevLogTerm req)) as [Hpt|Hpt]; cbn [negb].
  - assert (∀ n', accepted n3 n' req → accepted n n' req) as Hacc.
    { intros n' [A1 A2 A3 A4 A5 A6]. split.
      - setoid_rewrite <-Hat. exact A1.
      - exact A2.
      - intros i Hi. rewrite <-Hat. by apply A3.
      - intros i Hi. rewrite <-Hat. destruct (A4 i Hi) as [?|[? (k&e&old&Hk&Ho&Hne)]]; [by left|right].
        split; [done|]. exists k, e, old. by rewrite <-Hat.
      - by rewrite <-Hcom.
      - by rewrite <-Hbase. }
    pose proof (post_evolves _ _ Hp3) as He3.
    assert (availableLocked n3 = availableLocked n) as Hav3.
    { unfold availableLocked. change (n_closed n3) with (n_closed n2).
      change (n_paused n3) with (n_paused n2). change (n_failed n3) with (n_failed n2).
      rewrite (sd_closed _ _ _ Hs), (sd_paused _ _ _ Hs), (sd_failed _ _ _ Hs), Hnf. done. }
    apply append_entries_wp; try done.
    + apply (sd_role _ _ _ Hs).
    + apply (sd_failed _ _ _ Hs).
    + eapply room_le; [|exact Hroom]. by rewrite Hlog.
    + by exists p.
    + by rewrite Hav3.
    + unfold member. by rewrite (ev_cfg _ _ He3), (ev_peers _ _ He3).
    + by rewrite (ev_cfg _ _ He3).
    + intros resp err n' Hp [B1 B4 B2 B3]. apply HQ; [by eapply post_trans|]. split; [done| | |].
      * intros Hsu. eapply acceptable_moves; [..|exact (B4 Hsu)]; try done;
          [symmetry; apply (ev_cfg _ _ He3)|symmetry; apply (ev_peers _ _ He3)].
      * intros Hsu. destruct (B2 Hsu) as (?&?&?&?&Ha). split_and!; auto.
      * intros Hsu. destruct (B3 Hsu) as (?&?&?&Hac). split_and!; [congruence..|].
        intros Ha. apply Hac. eapply acceptable_moves; [..|exact Ha]; try done;
          [apply (ev_cfg _ _ He3)|apply (ev_peers _ _ He3)|lia].
  - destruct (conflict_index_spec (N.to_nat (aq_PrevLogIndex req - base_of n3)) n3
      (aq_PrevLogIndex req) (aq_PrevLogIndex req)) as (c&Hci&_); try done.
    rewrite Hci. apply wp_bind, wp_lift_some. apply append_conflict_wp, Hno3.
    intros q Hq. rewrite Hpe in Hq. by injection Hq as <-.
Qed.

End rpc.
