(* ===== verification/NodeSteps.v ===== *)
(** * NodeSteps: clients, the operator, and the runs of a node

    The remaining methods, the transition relation of a node between its calls,
    and its opening from a journal. *)

From stdpp Require Import base numbers list gmap strings fin_maps pretty relations options.
From S2P Require Import Prelude Effects Bytes StateMachine Wal Journal Store Events Node NodeInv NodeRPC.

Local Open Scope N_scope.
#[local] Set Default Proof Using "Type*".

Section steps.
Context {J : Type} `{HJ : Journal J, HJL : !JournalLaws J, HC : Codec record, HCL : !CodecLaws}.
Implicit Type n : Node J.

Section rules.
Context (E : Prop).

(** ** Submission *)

Definition registered n (i c : N) (w : waiter) : Node J :=
  set_pending (<[i := w]> (n_pending n))
    (set_newchan (n_newchan n + 1) (set_chans (<[n_newchan n := None]> (n_chans n)) n)).

Lemma registered_ok n (k : option string) :
  Inv n → n_role n = leader → availableLocked n = true →
  n_applied n < last_index (n_state n) →
  n_pending n !! last_index (n_state n) = None →
  post n (registered n (last_index (n_state n)) (n_newchan n) (mkWaiter k (n_newchan n))).
Proof using Type.
  intros HI Hl Hav Hlt Hnone. pose proof (inv_core n HI) as H0.
  set (i := last_index (n_state n)) in *. set (c := n_newchan n) in *.
  assert (∀ j w, n_pending n !! j = Some w → w_done w ≠ c) as Hnew.
  { intros j w Hj Heq. destruct (inv_pending n H0 j w Hj) as (_&_&Hch).
    rewrite (inv_fresh n H0) in Hch; [done|]. rewrite Heq. apply N.le_refl. }
  apply post_silent; [| |done|done].
  - split; [|done|apply HI|apply HI].
    pose proof H0 as [Hcfg ? ? ? ? ? ? Hp Hd Hf]. split; try done.
    + by destruct Hcfg.
    + intros j w Hj. cbn in Hj. apply lookup_insert_Some in Hj as [[<- <-]|[Hne Hj]].
      * split_and!; [done|apply N.le_refl|]. cbn. by rewrite lookup_insert_eq.
      * destruct (Hp j w Hj) as (?&?&?). split_and!; try done. cbn.
        rewrite lookup_insert_ne; [done|]. apply not_eq_sym. by apply (Hnew j).
    + intros j1 j2 w1 w2 H1 H2 Heq. cbn in H1, H2.
      apply lookup_insert_Some in H1 as [[<- <-]|[? H1]];
        apply lookup_insert_Some in H2 as [[<- <-]|[? H2]]; cbn in Heq.
      * done.
      * exfalso. by apply (Hnew _ _ H2).
      * exfalso. by apply (Hnew _ _ H1).
      * by eapply Hd.
    + intros c' Hc'. cbn in Hc'. cbn. fold c in Hc'. rewrite lookup_insert_ne by (unfold c in *; lia).
      apply Hf. unfold c in *. lia.
  - split; try done.
    + intros hist. apply history_same; try done. intros j w Hj. split; [|done]. cbn.
      rewrite lookup_insert_ne; [done|]. intros <-. by rewrite Hnone in Hj.
    + cbn. lia.
    + intros c' Hc' Hw. cbn. split.
      * intros []. rewrite lookup_insert_ne; [done|]. fold c. unfold c in *. lia.
      * intros (j&w&Hj&Heq). cbn in Hj. apply lookup_insert_Some in Hj as [[<- <-]|[_ Hj]].
        -- cbn in Heq. unfold c in *. lia.
        -- apply Hw. by exists j, w.
Qed.

(** What a submission guarantees: the ticket names the entry of the command in
    the leader's log, in its term, and the ticket is attended. *)
Record submitted n n' (command : option Command) (readKey : option string) (t : Ticket) : Prop := {
  sb_index : t_Index t = last_index (n_state n) + 1;
  sb_entry : base_of n' ≤ t_Index t →
    log_at (n_state n') (t_Index t) = Some (mkEntry (t_Index t) (term_of n) command) ∨
    n_failed n' ≠ None;
  sb_term : term_of n' = term_of n;
  sb_fresh : n_newchan n ≤ t_done t ∧ t_done t < n_newchan n';
  sb_uncommitted : commit_of n < t_Index t;
  sb_waiting : ∃ n1, evolves n1 n' ∧ n_applied n1 = n_applied n ∧ n_machine n1 = n_machine n ∧
    n_pending n1 !! t_Index t = Some (mkWaiter readKey (t_done t)) ∧ t_done t < n_newchan n1 ∧
    (∀ i, i ≤ last_index (n_state n) → log_at (n_state n1) i = log_at (n_state n) i) ∧
    log_at (n_state n1) (t_Index t) = Some (mkEntry (t_Index t) (term_of n) command);
}.

Lemma submit_wp (Q : error + Ticket → Node J → Prop) command readKey n :
  Inv n → no_panic E n → room E n 1 → (∀ c, command = Some c → rep_command c) →
  (∀ err n', post n n' → term_of n' = term_of n → ds_log (n_state n') = ds_log (n_state n) →
     n_pending n' = n_pending n ∨ n_failed n' ≠ None → Q (inl err) n') →
  (∀ t n', post n n' → submitted n n' command readKey t → Q (inr t) n') →
  wp E (submitLocked command readKey) Q n.
Proof.
  intros HI Hnp Hroom Hrep Herr Hok. pose proof (inv_core n HI) as H0.
  assert (∀ err, Q (inl err) n) as Hno.
  { intros err. apply Herr; [by apply post_refl|done|done|by left]. }
  unfold submitLocked. apply wp_bind, wp_get.
  destruct (availableLocked n) eqn:Hav; cbn [negb]; [|apply wp_ret, Hno].
  pose proof (available_failed n Hav) as Hnf.
  case_bool_decide as Hrole; [apply wp_ret, Hno|].
  destruct (match command with Some c => Validate c | None => None end); [apply wp_ret, Hno|].
  destruct (_ <=? _); [apply wp_ret, Hno|].
  destruct (Inv0_bounds n H0) as (Ht64&Hc64&Hl64&Hbc&Hcl&_). destruct (inv_applied n H0) as [_ Hac].
  fold (term_of n) (vote_of n) (commit_of n).
  apply wp_bind, persist_entry_wp; try done.
  2: { intros n' Hp Hf Hst Hr _ _. cbn [negb]. apply wp_ret, Herr; [done|..].
    - unfold term_of. by rewrite Hst.
    - by rewrite Hst.
    - by right. }
  intros n1 Ha. cbn [negb]. set (e := mkEntry _ _ _) in *.
  pose proof (app_core _ _ _ Ha) as Hcore. pose proof (app_inv _ _ _ Ha) as HI1.
  assert (n_role n1 = leader ∧ availableLocked n1 = true ∧ n_applied n1 = n_applied n ∧
    n_pending n1 = n_pending n ∧ n_newchan n1 = n_newchan n) as (Hl1&Hav1&Hap1&Hpe1&Hnc1)
    by (rewrite Hcore; done).
  assert (n_pending n1 !! last_index (n_state n1) = None) as Hnone.
  { rewrite Hpe1, (app_last _ _ _ Ha). destruct (n_pending n !! _) as [w|] eqn:Hw; [|done].
    destruct (inv_pending n H0 _ w Hw) as (_&?&_). lia. }
  assert (n_applied n1 < last_index (n_state n1)) as Hlt1.
  { rewrite Hap1, (app_last _ _ _ Ha). lia. }
  pose proof (registered_ok n1 readKey HI1 Hl1 Hav1 Hlt1 Hnone) as Hreg.
  apply wp_bind. unfold make_chan. apply wp_bind, wp_get. apply wp_bind, wp_modify.
  apply wp_bind, wp_modify. apply wp_ret. apply wp_bind, wp_get. apply wp_bind, wp_modify.
  apply wp_bind, wp_modify. apply wp_bind, emit_wp. intros ev rd.
  rewrite (app_index _ _ _ Ha), <-(app_last _ _ _ Ha).
  set (n2 := registered n1 (last_index (n_state n1)) (n_newchan n1) (mkWaiter readKey (n_newchan n1))) in *.
  set (n3 := set_events _ _). assert (core n3 = core n2) as Hc3 by done.
  assert (post n n3) as Hp3.
  { eapply post_core_r; [|exact Hc3]. eapply post_trans; [|exact Hreg].
    apply post_silent; [done|apply Ha| |by rewrite Hcore].
    unfold caught_up. by rewrite Hap1, (app_commit _ _ _ Ha). }
  assert (n_state n3 = n_state n1) as Hst3 by done.
  apply wp_bind, advanceCommit_wp; [apply Hp3|eapply no_panic_evolves; [apply Hp3|done]|].
  intros n4 Hp4 _ _ Hadv. apply wp_bind, kick_wp; [apply Hp4| |].
  { apply no_panic_base. eapply no_panic_evolves; [apply Hp4|]. eapply no_panic_evolves; [apply Hp3|done]. }
  intros n5 Hk5. apply wp_ret. pose proof (ki_body _ _ Hk5) as Hc5.
  destruct (body_state _ _ Hc5) as (Es5&_&Ef5&_&_&_).
  assert (n_state n5 = n_state n4) as Hst5 by (unfold n_state; by rewrite Es5).
  apply Hok.
  - eapply post_trans; [by eapply post_trans|]. apply kicked_post; [apply Hp4|done].
  - assert (term_of n4 = term_of n3) as Ht4.
    { destruct Hadv as [-> _|i _ _ _ Hst _|i _ _ _ _ _ _ ? _ _]; [done| |done]. unfold term_of. by rewrite Hst. }
    assert (n_newchan n2 ≤ n_newchan n5) as Hnc5.
    { unfold body in Hc5. injection Hc5 as _ _ _ _ _ _ _ _ _ _ _ _ ->.
      apply (ev_newchan n3 n4), Hp4. }
    split; cbn [t_Index t_done].
    + apply (app_last _ _ _ Ha).
    + intros Hb. unfold base_of in Hb. rewrite Hst5 in *. rewrite Ef5.
      assert (log_at (n_state n1) (last_index (n_state n1)) =
        Some (mkEntry (last_index (n_state n1)) (term_of n) command)) as Hent.
      { rewrite (app_last _ _ _ Ha), (app_entry _ _ _ Ha). unfold e. f_equal.
        rewrite <-(app_index _ _ _ Ha). done. }
      destruct Hadv as [-> _|i _ _ Hf _ _|i _ _ _ _ _ _ _ _ Hlog].
      * left. by rewrite Hst3.
      * by right.
      * left. rewrite Hst3 in Hlog. change (base_of n3) with (base_of n1) in Hlog.
        rewrite <-Hent. unfold log_at at 1. destruct (N.ltb_spec (last_index (n_state n1)) (ds_base (n_state n4))); [lia|].
        rewrite Hlog, lookup_drop.
        assert (base_of n1 ≤ base_of n4) as Hmono.
        { apply (ext_base _ _ (ev_store n3 n4 (post_evolves _ _ Hp4))). }
        rewrite (log_at_lookup (n_state n1) _ _ eq_refl) by (unfold base_of in *; lia).
        f_equal. unfold base_of in *. lia.
    + unfold term_of in *. rewrite Hst5, Ht4, Hst3. apply (app_term _ _ _ Ha).
    + split; [by rewrite Hnc1|]. eapply N.lt_le_trans; [|exact Hnc5]. cbn. lia.
    + rewrite (app_last _ _ _ Ha). lia.
    + exists n3. split_and!; try done.
      * etransitivity; [apply Hp4|by apply evolves_body].
      * change (n_machine n3) with (n_machine n1). by rewrite Hcore.
      * cbn. by rewrite lookup_insert_eq.
      * cbn. lia.
      * intros i Hi. rewrite Hst3. by apply (app_same _ _ _ Ha).
      * rewrite Hst3, (app_last _ _ _ Ha), (app_entry _ _ _ Ha). unfold e. f_equal.
        rewrite <-(app_index _ _ _ Ha). done.
Qed.

(** ** Tickets and the operator *)

Lemma Poll_wp (Q : option outcome → Node J → Prop) t n :
  Inv n → (∀ o n', post n n' → Q o n') → wp E (Poll t) Q n.
Proof.
  intros HI HQ. pose proof (inv_core n HI) as H0. unfold Poll. apply wp_bind, wp_get.
  destruct (n_chans n !! t_done t) as [[out|]|] eqn:Hch; [|apply wp_ret, HQ; by apply post_refl..].
  apply wp_bind, wp_modify, wp_ret, HQ. apply post_silent; [|split; try done|done|done].
  - split; [|apply (inv_waiting n HI)|apply HI|apply HI].
    pose proof H0 as [Hcfg ? ? ? ? ? ? Hp Hd Hf]. split; try done.
    + by destruct Hcfg.
    + intros i w Hi. destruct (Hp i w Hi) as (?&?&Hw). split_and!; try done. cbn.
      destruct (decide (t_done t = w_done w)) as [->|]; [by rewrite lookup_insert_eq|].
      by rewrite lookup_insert_ne.
    + intros c Hc. cbn. rewrite lookup_insert_ne; [by apply Hf|]. intros Heq.
      cbn in Hc. rewrite <-Heq in Hc. rewrite Hf in Hch by done. done.
  - intros hist. by apply history_kept.
  - intros c Hc Hw. split; [|done]. cbn. intros Hne.
    destruct (decide (t_done t = c)) as [->|]; [by rewrite lookup_insert_eq|].
    by rewrite lookup_insert_ne in Hne.
Qed.

Lemma Cancel_wp (Q : unit → Node J → Prop) t n :
  Inv n → (∀ n', post n n' → Q tt n') → wp E (Cancel t) Q n.
Proof.
  intros HI HQ. pose proof (inv_core n HI) as H0. unfold Cancel. apply wp_bind, wp_get.
  destruct (n_pending n !! t_Index t) as [w|] eqn:Hw; [|apply wp_ret, HQ; by apply post_refl].
  apply wp_when; [intros _|intros _; apply HQ; by apply post_refl].
  apply wp_modify, HQ.
  assert (∀ i x, delete (t_Index t) (n_pending n) !! i = Some x → n_pending n !! i = Some x) as Hsub.
  { by intros i x [_ ?]%lookup_delete_Some. }
  apply post_silent; [|split; try done|done|done].
  - split; [| |apply HI|apply HI].
    + pose proof H0 as [Hcfg ? ? ? ? ? ? Hp Hd Hf]. split; try done.
      * by destruct Hcfg.
      * intros i x Hi. apply Hp. by apply Hsub.
      * intros i j x y Hi Hj. apply Hd; by apply Hsub.
    + intros Hne. apply (inv_waiting n HI). intros Hem. apply Hne. cbn. rewrite Hem. apply delete_empty.
  - intros hist []. exists []. rewrite app_nil_r. split; [done|]. intros i x Hi _.
    destruct (N.eq_dec i (t_Index t)) as [->|Hne]; [right|left].
    + split.
      * intros (j&y&Hj&Hd). cbn in Hj. apply lookup_delete_Some in Hj as [Hne Hj].
        apply Hne. symmetry. by eapply (inv_distinct n H0).
      * intros out Ho. destruct (inv_pending n H0 _ x Hi) as (_&_&Hch). cbn in Ho. congruence.
    + split; [|done]. cbn. by rewrite lookup_delete_ne.
  - intros c Hc Hwt. split; [done|]. intros (i&x&Hi&Hd). apply Hwt. exists i, x. split; [|done].
    by apply Hsub.
Qed.

Lemma Tick_wp (Q : unit → Node J → Prop) n :
  Inv n → no_panic E n → room E n 1 → (∀ n', post n n' → Q tt n') → wp E Tick Q n.
Proof.
  intros HI Hnp Hroom HQ. unfold Tick. apply wp_bind, wp_get.
  destruct (negb _) eqn:Hav; [apply wp_ret, HQ; by apply post_refl|].
  apply negb_false_iff in Hav. pose proof (available_failed n Hav) as Hnf.
  case_bool_decide as Hr.
  { apply kick_wp; [apply HI|by apply no_panic_base|]. intros n' Hk. apply HQ. by apply kicked_post. }
  case_bool_decide; [|apply wp_ret, HQ; by apply post_refl].
  apply wp_bind, now_wp. intros rd. set (n1 := set_reads rd n).
  assert (core n1 = core n) as Hc by done.
  apply wp_when; [intros _|intros _; apply HQ; by apply post_core].
  apply startElection_wp; try done; [by eapply Inv_core|].
  intros n' Hp _ _ _. apply HQ. eapply post_trans; [by apply post_core|done].
Qed.

(** Another journal with the same content. *)
Lemma Inv0_journal n w :
  Inv0 n → (∀ bs, j_holds (st_wal (n_store n)) bs → j_holds w bs) →
  Inv0 (set_nstore (set_wal w (n_store n)) n).
Proof using Type.
  intros [Hcfg Hws Hcon Hrec ? ? ? ? ? ?] Hkeep. split; try done.
  - by destruct Hcfg.
  - by destruct Hws.
  - intros Hf. by eapply content_holds, Hcon.
  - intros Hf. destruct (Hrec Hf) as [Ho|(s0&Hc&?&?&?&?)]; [left; by eapply overflowing_holds|right].
    exists s0. split_and!; try done. by eapply content_holds.
Qed.

(** Pausing and closing change the two flags the order leaves out. *)
Lemma evolves_flags n p c : evolves n (set_paused p (set_closed c n)).
Proof using Type.
  split; try done. intros hist. by apply history_kept.
Qed.

Lemma Inv0_flags n p c : Inv0 n → Inv0 (set_paused p (set_closed c n)).
Proof using Type. intros [Hcfg ? ? ? ? ? ? ? ? ?]. split; try done. by destruct Hcfg. Qed.

Lemma flags_id n p : set_paused p (set_closed (n_closed n) n) = set_paused p n.
Proof using Type. by destruct n. Qed.

Lemma closed_id n c : set_paused (n_paused n) (set_closed c n) = set_closed c n.
Proof using Type. by destruct n. Qed.

Lemma Inv_dismissed err n :
  Inv0 n → (n_role n ≠ follower → vote_of n = cfg_ID (n_cfg n)) →
  (n_failed n ≠ None → n_role n = follower) → Inv (dismissed err n).
Proof using Type. intros H0 Hv Hf. by split; [apply Inv0_dismissed|..]. Qed.

Lemma SetPaused_wp (Q : unit → Node J → Prop) p n :
  Inv n → no_panic E n → (∀ n', post n n' → Q tt n') → wp E (SetPaused p) Q n.
Proof.
  intros HI Hnp HQ. pose proof (inv_core n HI) as H0.
  pose proof (evolves_flags n p (n_closed n)) as He. rewrite flags_id in He.
  pose proof (Inv0_flags n p (n_closed n) H0) as H01. rewrite flags_id in H01.
  unfold SetPaused. apply wp_bind, wp_modify. set (n1 := set_paused p n) in *.
  apply wp_bind. destruct p.
  - apply failPending_wp; [done|]. apply emit_wp. intros ev rd. apply HQ.
    apply (post_core_r n (dismissed ErrUnavailable n1)); [|done]. apply post_silent; [| |done|done].
    + apply Inv_dismissed; [done|apply HI|apply HI].
    + etransitivity; [exact He|]. by apply evolves_dismissed; [left|].
  - assert (Inv n1) as HI1.
    { split; [done| |apply HI|apply HI]. intros Hne. destruct (inv_waiting n HI Hne) as [Hl Ha].
      split; [done|]. unfold availableLocked in *. cbn [n1 n_closed n_paused n_failed set_paused].
      apply andb_true_iff in Ha as [Ha ->]. by apply andb_true_iff in Ha as [-> _]. }
    apply wp_bind, resetTimer_wp. intros dl dr rd. set (n2 := set_deadline _ _).
    assert (core n2 = core n1) as Hc2 by done.
    apply kick_wp; [eapply Inv0_core; [exact Hc2|done]|by apply no_panic_base|].
    intros n3 Hk3. apply emit_wp. intros ev rd2. apply HQ.
    assert (post n n1) as Hp1 by (by apply post_silent).
    eapply (post_core_r n n3); [|done]. eapply (post_trans n n2); [by eapply post_core_r|].
    apply kicked_post; [by eapply Inv_core|exact Hk3].
Qed.

Lemma Close_wp (Q : option error → Node J → Prop) n :
  Inv n → (∀ err n', post n n' → Q err n') → wp E Close Q n.
Proof.
  intros HI HQ. pose proof (inv_core n HI) as H0. unfold Close. apply wp_bind, wp_get.
  destruct (n_closed n); [apply wp_ret, HQ; by apply post_refl|].
  pose proof (evolves_flags n (n_paused n) true) as He. rewrite closed_id in He.
  pose proof (Inv0_flags n (n_paused n) true H0) as H01. rewrite closed_id in H01.
  apply wp_bind, wp_modify. set (n1 := set_closed true n) in *.
  apply wp_bind, failPending_wp; [done|]. apply wp_zoom, wp_zoom. unfold wp.
  set (n2 := dismissed _ n1).
  assert (Inv n2) as HI2 by (apply Inv_dismissed; [done|apply HI|apply HI]).
  assert (evolves n n2) as He2 by (etransitivity; [exact He|by apply evolves_dismissed; [left|]]).
  destruct (j_close (st_wal (n_store n2))) as [err w] eqn:Hcl. apply HQ.
  eapply (post_trans n n2); [by apply post_silent|]. apply post_silent; [|split; try done|done|done].
  - split; [|done|apply HI2|apply HI2].
    apply Inv0_journal; [apply HI2|]. intros bs Hh.
    pose proof (j_close_law (st_wal (n_store n2)) bs Hh) as Hl. by rewrite Hcl in Hl.
  - intros hist. by apply history_kept.
Qed.

(** ** Deliveries *)

Lemma DeliverVote_wp (Q : unit → Node J → Prop) m resp err n :
  Inv n → no_panic E n → room E n 1 → vr_Term resp < two64 →
  (∀ n', post n n' → Q tt n') → wp E (DeliverVote m resp err) Q n.
Proof.
  intros HI Hnp Hroom Hrt HQ. unfold DeliverVote. apply wp_bind, wp_get.
  destruct (m_Vote m); [by apply voteResponse_wp|apply wp_ret, HQ; by apply post_refl].
Qed.

Lemma vote_returns_wp (Q : unit → Node J → Prop) i resp err n :
  Inv n → no_panic E n → room E n 1 → vr_Term resp < two64 →
  (∀ n', post n n' → Q tt n') → wp E (vote_returns i resp err) Q n.
Proof.
  intros HI Hnp Hroom Hrt HQ. unfold vote_returns. apply wp_bind, wp_get.
  destruct (n_calls n !! i) as [[peer req]|]; [|apply wp_ret, HQ; by apply post_refl].
  apply wp_bind, wp_modify. set (n1 := set_calls _ n). assert (core n1 = core n) as Hc by done.
  apply voteResponse_wp; try done; [by eapply Inv_core|].
  intros n' Hp. apply HQ. eapply post_trans; [by apply post_core|done].
Qed.

Lemma DeliverAppend_wp (Q : unit → Node J → Prop) m resp err n :
  Inv n → caught_up n → no_panic E n → ar_Term resp < two64 →
  (∀ n', post n n' → Q tt n') → wp E (DeliverAppend m resp err) Q n.
Proof.
  intros HI Hcu Hnp Hrt HQ. unfold DeliverAppend. apply wp_bind, wp_get.
  destruct (m_Append m) as [req|]; [|apply wp_ret, HQ; by apply post_refl].
  destruct (negb _); [apply wp_ret, HQ; by apply post_refl|].
  apply wp_bind, wp_modify. set (n1 := set_busy _ n). assert (core n1 = core n) as Hc by done.
  assert (post n n1) as Hp1 by (by apply post_core).
  apply wp_bind, acceptAppend_wp; try done; [apply Hp1|].
  intros b n2 Hp2. apply wp_bind, wp_get.
  assert (post n n2) as Hp02 by (by eapply post_trans).
  apply wp_when; [intros _|intros _; by apply HQ].
  apply queueAppend_kicked; [apply Hp2|apply no_panic_base; eapply no_panic_evolves; [apply Hp02|done]|].
  intros n3 Hk3. apply HQ. eapply post_trans; [exact Hp02|]. apply kicked_post; [apply Hp2|done].
Qed.

Lemma replicate_call_wp (Q : option AppendRequest → Node J → Prop) peer n :
  Inv n → no_panic E n →
  (∀ o n', post n n' → (∀ req, o = Some req → prepared n peer req ∧ n_role n = leader) → Q o n') →
  wp E (replicate_call peer) Q n.
Proof.
  intros HI Hnp HQ. unfold replicate_call. apply wp_bind, wp_get.
  destruct (_ || _) eqn:Hcond; [apply wp_ret, HQ; [by apply post_refl|done]|].
  apply orb_false_iff in Hcond as [_ Hr]. apply bool_decide_eq_false in Hr.
  apply wp_bind, prepareAppend_core; [apply HI|by apply no_panic_base|].
  intros req n' Hp Hc _ _ _. apply wp_ret, HQ; [by apply post_core|].
  intros req' [= <-]. split; [done|by apply dec_stable].
Qed.

Lemma take_wake_wp (Q : bool → Node J → Prop) peer n :
  Inv n → (∀ b n', post n n' → Q b n') → wp E (take_wake peer) Q n.
Proof.
  intros HI HQ. unfold take_wake. apply wp_bind, wp_get.
  destruct (default _ _); [apply wp_bind, wp_modify|]; apply wp_ret, HQ; by apply post_core.
Qed.

Lemma Drain_wp (Q : list Message → Node J → Prop) n :
  Inv n → (∀ ms n', post n n' → Q ms n') → wp E DrainMessages Q n.
Proof.
  intros HI HQ. unfold DrainMessages. apply wp_bind, wp_get. apply wp_bind, wp_modify, wp_ret, HQ.
  split; [by apply (Inv_body n)|by apply evolves_body|done|]. intros to req H. by apply elem_of_nil in H.
Qed.

End rules.

(** ** The transition relation *)

(** The calls a node may receive, in any order: the runner's, the transport's,
    the clients', the operator's. *)
Inductive call :=
  | CTick
  | CRequestVote (req : VoteRequest)
  | CAppendEntries (req : AppendRequest)
  | CDeliverVote (m : Message) (resp : VoteResponse) (err : option error)
  | CDeliverAppend (m : Message) (resp : AppendResponse) (err : option error)
  | CVoteReturns (i : nat) (resp : VoteResponse) (err : option error)
  | CTakeWake (peer : Peer)
  | CReplicate (peer : Peer)
  | CReplicateReturn (peer : Peer) (req : AppendRequest) (resp : AppendResponse) (err : option error)
  | CSubmit (command : option Command) (readKey : option string)
  | CPoll (t : Ticket)
  | CCancel (t : Ticket)
  | CDrain
  | CSetPaused (paused : bool)
  | CClose.

Definition run_call (c : call) : M (Node J) unit :=
  match c with
  | CTick => Tick
  | CRequestVote req => _ ← RequestVote req; mret tt
  | CAppendEntries req => _ ← AppendEntries req; mret tt
  | CDeliverVote m resp err => DeliverVote m resp err
  | CDeliverAppend m resp err => DeliverAppend m resp err
  | CVoteReturns i resp err => vote_returns i resp err
  | CTakeWake peer => _ ← take_wake peer; mret tt
  | CReplicate peer => _ ← replicate_call peer; mret tt
  | CReplicateReturn peer req resp err => _ ← replicate_return peer req resp err; mret tt
  | CSubmit command readKey => _ ← submitLocked command readKey; mret tt
  | CPoll t => _ ← Poll t; mret tt
  | CCancel t => Cancel t
  | CDrain => _ ← DrainMessages; mret tt
  | CSetPaused paused => SetPaused paused
  | CClose => _ ← Close; mret tt
  end.

(** Numbers and texts of the width and encoding the source's types have. *)
Definition typed_call (c : call) : Prop :=
  match c with
  | CRequestVote req => typed_vote req
  | CAppendEntries req => typed_append req
  | CDeliverVote _ resp _ | CVoteReturns _ resp _ => vr_Term resp < two64
  | CDeliverAppend _ resp _ | CReplicateReturn _ _ resp _ => ar_Term resp < two64
  | CSubmit (Some command) _ => rep_command command
  | _ => True
  end.

(** How many entries a call may append. *)
Definition growth (c : call) : N :=
  match c with CAppendEntries req => N.max 1 (lenN (aq_Entries req)) | _ => 1 end.

Lemma run_call_wp (E : Prop) c n :
  Inv n → caught_up n → typed_call c → no_panic E n → room E n (growth c) →
  wp E (run_call c) (λ _ n', post n n') n.
Proof.
  intros HI Hcu Hty Hnp Hroom.
  assert (room E n 1) as Hroom1.
  { eapply room_le; [|exact Hroom]. destruct c; cbn [growth] in *; lia. }
  assert (∀ n', post n n' → wp E (mret tt : M (Node J) unit) (λ _ n', post n n') n') as Hret.
  { intros n' Hp. by apply wp_ret. }
  destruct c; cbn [run_call typed_call growth] in *.
  - by apply Tick_wp.
  - apply wp_bind, RequestVote_wp; [done|done|]. intros resp err n' Hp _. by apply Hret.
  - apply wp_bind, AppendEntries_wp; [done|done| |].
    + eapply room_le; [|exact Hroom]. lia.
    + intros resp err n' Hp _. by apply Hret.
  - by apply DeliverVote_wp.
  - by apply DeliverAppend_wp.
  - by apply vote_returns_wp.
  - apply wp_bind, take_wake_wp; [done|]. intros b n' Hp. by apply Hret.
  - apply wp_bind, replicate_call_wp; [done|done|]. intros o n' Hp _. by apply Hret.
  - unfold replicate_return. apply wp_bind, acceptAppend_wp; try done.
  - apply wp_bind, submit_wp; [done..| | |].
    + intros x ->. done.
    + intros err n' Hp _ _ _. by apply Hret.
    + intros t n' Hp _. by apply Hret.
  - apply wp_bind, Poll_wp; [done|]. intros o n' Hp. by apply Hret.
  - by apply Cancel_wp.
  - apply wp_bind, Drain_wp; [done|]. intros o n' Hp. by apply Hret.
  - by apply SetPaused_wp.
  - apply wp_bind, Close_wp; [done|]. intros o n' Hp. by apply Hret.
Qed.

(** The clock and the random numbers are the environment's. *)
Definition set_rt (rt : Runtime) n : Node J :=
  mkNode (n_cfg n) (n_peers n) rt (n_bootID n) (n_store n) (n_machine n) (n_role n) (n_leader n)
    (n_applied n) (n_next n) (n_match n) (n_wake n) (n_pending n) (n_deadline n) (n_failed n)
    (n_closed n) (n_outbox n) (n_busy n) (n_votes n) (n_sequence n) (n_paused n)
    (n_events n) (n_calls n) (n_chans n) (n_newchan n) (n_reads n) (n_draws n).

Lemma post_set_rt rt n : Inv n → rt_Manual rt = rt_Manual (n_rt n) → post n (set_rt rt n).
Proof using Type.
  intros [H0 Hw Hv Hf] Hrt. apply post_silent; [|split; try done|done|done].
  - split; try done. destruct H0. split; try done. by destruct inv_config.
  - intros hist. by apply history_kept.
Qed.

(** A step: a call that returns, or the disk's faults, the clock or the random
    numbers changing. *)
Inductive node_step : Node J → Node J → Prop :=
  | step_call c n n' : typed_call c → run_call c n = Some (tt, n') →
      node_step n n'
  | step_disk n w : j_faults (st_wal (n_store n)) w →
      node_step n (set_nstore (set_wal w (n_store n)) n)
  | step_clock n rt : rt_Manual rt = rt_Manual (n_rt n) → node_step n (set_rt rt n).

Definition quiescent n : Prop := Inv n ∧ caught_up n.

Lemma post_faults n w :
  Inv n → j_faults (st_wal (n_store n)) w → post n (set_nstore (set_wal w (n_store n)) n).
Proof.
  intros HI Hf. apply post_silent; [|split; try done|done|done].
  - split; [|apply (inv_waiting n HI)|apply HI|apply HI].
    apply Inv0_journal; [apply HI|]. intros bs Hh. by eapply j_faults_law.
  - intros hist. by apply history_kept.
Qed.

Lemma node_step_post n n' : quiescent n → node_step n n' → post n n'.
Proof.
  intros [HI Hcu] Hs. destruct Hs as [c n n' Hty Hrun|n w Hf|n rt Hrt]; [|by apply post_faults|by apply post_set_rt].
  pose proof (run_call_wp True c n HI Hcu Hty (λ _, I) (or_introl I)) as H.
  unfold wp in H. by rewrite Hrun in H.
Qed.

Lemma node_steps_post n n' : quiescent n → rtc node_step n n' → post n n' ∧ quiescent n'.
Proof.
  intros Hq. induction 1 as [n|n n1 n' Hs _ IH].
  - split; [apply post_refl, Hq|done].
  - pose proof (node_step_post n n1 Hq Hs) as Hp.
    assert (quiescent n1) as Hq1 by (split; [apply Hp|apply Hp, Hq]).
    destruct (IH Hq1) as [Hp' Hq']. split; [by eapply post_trans|done].
Qed.

End steps.
