(* ===== verification/NodeOpen.v ===== *)
(** * NodeOpen: opening a node, and opening it again after a crash

    [OpenWithRuntime] on a journal that holds anything, and on the journal an
    earlier life of the node has left: nothing acknowledged is lost, and the
    machine continues the same history. *)

From stdpp Require Import base numbers list gmap strings fin_maps pretty relations sorting options.
From S2P Require Import Prelude Effects Bytes StateMachine Wal Journal Store Events Node NodeInv.
From S2P Require Import NodeRPC NodeSteps.

Local Open Scope N_scope.
#[local] Set Default Proof Using "Type*".

(** ** The configuration *)

(** The digest is printed in hexadecimal. *)
Class PlatformLaws `{Platform} : Prop := {
  identity_text : ∀ cluster id ids fixed, text (identity_of cluster id ids fixed);
}.

(** The identifiers are JSON text. *)
Definition typed_config (cfg : Config) : Prop := Forall (λ p, text (p_ID p)) (cfg_Peers cfg).

Section config.
Context `{HP : Platform}.

Lemma check_peers_ok ps peers seen ids peers' ids' :
  check_peers ps peers seen ids = inr (peers', ids') →
  (∀ id p, peers' !! id = Some p → peers !! id = Some p ∨ p ∈ ps ∧ p_ID p = id ∧ id ≠ "") ∧
  ids' = ids ++ (p_ID <$> ps) ∧ (∀ p, p ∈ ps → is_Some (peers' !! p_ID p)) ∧
  (∀ id, is_Some (peers !! id) → is_Some (peers' !! id)).
Proof.
  revert peers seen ids. induction ps as [|p ps IH]; intros peers seen ids H; cbn [check_peers] in H.
  { injection H as <- <-. split_and!; auto.
    - by rewrite app_nil_r.
    - intros p Hp. by apply elem_of_nil in Hp. }
  case_bool_decide as H1; [done|]. case_bool_decide as H2; [done|].
  destruct (check_addresses _ _) as [|seen']; [done|].
  destruct (IH _ _ _ H) as (Ha&Hi&Hin&Hold). split_and!.
  - intros id q Hq. destruct (Ha id q Hq) as [Hl|(?&?&?)].
    + apply lookup_insert_Some in Hl as [[<- <-]|[_ Hl]]; [|by left].
      right. split_and!; [by left|done|done].
    + right. split_and!; [by right|done|done].
  - rewrite Hi, fmap_cons, <-app_assoc. done.
  - intros q [->|Hq]%elem_of_cons; [|by apply Hin].
    apply Hold. rewrite lookup_insert_eq. by eexists.
  - intros id Hid. apply Hold. destruct (decide (p_ID p = id)) as [<-|].
    + rewrite lookup_insert_eq. by eexists.
    + by rewrite lookup_insert_ne.
Qed.

Lemma check_config_ok cfg ht manual peers identity :
  check_config cfg ht manual = inr (peers, identity) →
  (∀ id p, peers !! id = Some p → p ∈ cfg_Peers cfg ∧ p_ID p = id ∧ id ≠ "") ∧
  is_Some (peers !! cfg_ID cfg) ∧
  identity = identity_of (cfg_ClusterID cfg) (cfg_ID cfg)
    (merge_sort String.le (p_ID <$> cfg_Peers cfg)) (cfg_FixedLeader cfg).
Proof.
  unfold check_config.
  do 2 (match goal with |- context [if ?b then _ else _] => destruct b end; [done|]).
  destruct (check_peers _ _ _ _) as [|[peers0 ids]] eqn:Hc; [done|].
  apply check_peers_ok in Hc as (Ha&Hi&_).
  case_bool_decide as Hself; [|done]. cbn [negb].
  match goal with |- context [if ?b then _ else _] => destruct b end; [done|].
  intros [= -> <-]. split_and!; [|done|by rewrite Hi].
  intros id p Hp. destruct (Ha id p Hp) as [Hl|?]; [by rewrite lookup_empty in Hl|done].
Qed.

End config.

Section open.
Context {J : Type} `{HJ : Journal J, HJL : !JournalLaws J, HC : Codec record, HCL : !CodecLaws}.
Context `{HP : Platform, HPL : !PlatformLaws}.
Implicit Type n : Node J.

(** ** The first node of a process *)

Lemma initial_Inv cfg peers rt (s : diskStore J) :
  (∀ id p, peers !! id = Some p → p_ID p = id ∧ text id ∧ id ≠ "") →
  is_Some (peers !! cfg_ID cfg) →
  wf_store s → content (st_wal s) (without_wal s) →
  Inv (initial_node cfg peers rt s (base_machine s) (ds_base (st_state s))).
Proof using Type.
  intros Hp Hs Hwf Hc. split; [|done..].
  pose proof (wf_st_state _ Hwf) as Hwfs. destruct (wf_commit _ Hwfs) as [Hbc _].
  assert (machine_at s (ds_base (st_state s)) = base_machine s) as Hm.
  { unfold machine_at, commands_to. by rewrite N.sub_diag. }
  assert (wf_machine (base_machine s) ∧ rep_snapshot (takeSnapshot (base_machine s))) as Hbm.
  { unfold base_machine. destruct (_ =? 0).
    - split; [by apply wf_New|]. by split.
    - destruct (Restore New (st_snapshot s)) as [m' err] eqn:Hr.
      pose proof (wf_st_snapshot _ Hwf) as Hn. rewrite Hr in Hn. cbn in Hn. subst err.
      destruct (Restore_None _ _ _ Hr) as (_&Hv&Hss). destruct (wf_st_rep _ Hwf) as [Hrv Hrs Hrc].
      split; [by split|by split]. }
  split; try done; cbn; try lia.
Qed.

Section start.
Context (E : Prop).

(** A follower that has just taken the next term for itself may lead. *)
Lemma become_fixed_wp (Q : unit → Node J → Prop) n n1 :
  Inv n → evolves n n1 → Inv0 n1 → n_pending n1 = ∅ → term_of n < term_of n1 →
  vote_of n1 = cfg_ID (n_cfg n1) → n_failed n1 = None → no_panic E n1 → room E n1 1 →
  (∀ n', Inv n' → evolves n n' → (caught_up n1 → caught_up n') → Q tt n') →
  wp E becomeLeaderLocked Q n1.
Proof.
  intros HI He H0 Hpend Hlt Hv Hf Hnp Hroom HQ.
  set (n2 := set_leader "" (set_role candidate n1)).
  (* the role and the leader are overwritten first *)
  assert (wp E becomeLeaderLocked Q n2 → wp E becomeLeaderLocked Q n1) as Hsame.
  { unfold becomeLeaderLocked. rewrite !wp_modify_bind, !wp_get_bind, !wp_modify_bind. by intros H. }
  apply Hsame. clear Hsame.
  assert (Inv n2) as HI2.
  { split; [|intros Hne; by cbn in Hne|done|].
    - destruct H0. split; try done. by destruct inv_config.
    - intros Hne. cbn in Hne. by rewrite Hf in Hne. }
  apply becomeLeader_wp; try done.
  intros n' Hp _ _ _ _. apply HQ; [apply Hp| |].
  - etransitivity; [by apply (evolves_candidate n n1)|apply Hp].
  - intros Hcu. by apply (post_caught_up _ _ Hp).
Qed.

Lemma start_node_wp (Q : option error → Node J → Prop) n :
  Inv n → n_role n = follower → n_pending n = ∅ → n_failed n = None →
  (cfg_FixedLeader (n_cfg n) = cfg_ID (n_cfg n) → no_panic E n ∧ room E n 1) →
  (∀ err n1 n', Inv n1 → caught_up n1 → n_store n1 = n_store n →
     n_cfg n1 = n_cfg n → rt_Manual (n_rt n1) = rt_Manual (n_rt n) → Inv n' → evolves n1 n' → caught_up n' → err = n_failed n' →
     (err ≠ None → cfg_FixedLeader (n_cfg n) = cfg_ID (n_cfg n)) →
     (cfg_FixedLeader (n_cfg n) ≠ cfg_ID (n_cfg n) → queued n' = queued n) → Q err n') →
  wp E start_node Q n.
Proof.
  intros HI Hr Hpend Hnf Hnp HQ. unfold start_node.
  apply wp_bind, applyLocked_wp; [done|done|].
  intros n1 n' Hst HI1 He1 Hcu1 _ _ _ _ _ _ _ _ _ Hnl.
  rewrite Hnl by (by rewrite Hr). clear Hnl n'.
  pose proof (applies_static _ _ Hst) as Hs. injection Hs as Ec Ep Ert Es Er Ef _ _ _ Eq.
  apply wp_bind, resetTimer_wp. intros dl dr rd. apply wp_bind, wp_get. set (n2 := set_deadline _ _).
  assert (core n2 = core n1) as Hc2 by done.
  assert (Inv n2) as HI2 by (by eapply Inv_core).
  assert (evolves n1 n2) as He2 by (by apply evolves_core).
  assert (n_failed n2 = None) as Hf2 by (change (n_failed n1 = None); by rewrite Ef).
  assert (∀ n3, Inv n3 → evolves n1 n3 → caught_up n3 →
    (n_failed n3 ≠ None → cfg_FixedLeader (n_cfg n) = cfg_ID (n_cfg n)) →
    (cfg_FixedLeader (n_cfg n) ≠ cfg_ID (n_cfg n) → queued n3 = queued n) → wp E (n ← get;
      match n_failed n with
      | Some err => mret (Some err)
      | None =>
        when (negb (rt_Manual (n_rt n)))
          (modify (set_wake (list_to_map ((λ p, (p_ID p, false)) <$> others n)))) ;;
        mret None
      end) Q n3) as Hend.
  { intros n3 HI3 He3 Hcu3 Hfx Hqu. apply wp_bind, wp_get. destruct (n_failed n3) as [err|] eqn:Hf3.
    - apply wp_ret. apply (HQ _ n1 n3); try done. by rewrite Ert.
    - assert (∀ n4, core n4 = core n3 → Q None n4) as Hd.
      { intros n4 Hc. destruct (core_state _ _ Hc) as (_&_&Hf4&_).
        apply (HQ _ n1 n4); try done; [by rewrite Ert|by eapply Inv_core| |by apply (post_core n3)|by rewrite Hf4|].
        - etransitivity; [exact He3|by apply evolves_core].
        - intros Hne. rewrite <-Hqu by done. by apply pair_equal_spec in Hc as [_ ->]. }
      apply wp_bind, wp_when; [intros _; apply wp_modify|intros _]; apply wp_ret; by apply Hd. }
  apply wp_bind. case_bool_decide as Hfl; [|by apply wp_ret, Hend; rewrite ?Hf2].
  change (n_cfg n2) with (n_cfg n1) in Hfl. rewrite Ec in Hfl. destruct (Hnp Hfl) as [Hnp' Hroom]. clear Hnp. rename Hnp' into Hnp.
  pose proof (inv_core n2 HI2) as H02. destruct (Inv0_bounds n2 H02) as (Ht&Hc64&_).
  apply wp_bind, persist_keep_log_wp; try done; [apply add64_lt|by apply text_self|..].
  - intros w Hvu H03 He3. apply wp_when; [intros _|done].
    set (n3 := saved n2 w _) in *.
    assert (term_of n2 < term_of n3) as Hlt.
    { pose proof (vu_term _ _ _ Hvu) as Hge. change (term_of n3) with (add64 (term_of n2) 1).
      cbn in Hge. fold (term_of n2) in Hge.
      destruct (add64_cases (term_of n2) 1 Ht ltac:(done)) as [[? ->]|[? Heq]]; [lia|].
      unfold term_of in *. rewrite Heq in Hge. unfold two64 in *. lia. }
    apply (become_fixed_wp _ n2 n3); try done.
    + change (n_pending n1 = ∅). destruct (decide (n_pending n1 = ∅)) as [|Hne]; [done|].
      apply (inv_waiting n1 HI1) in Hne as [Hl _]. by rewrite Er, Hr in Hl.
    + eapply no_panic_evolves; [|exact Hnp]. etransitivity; [exact He1|]. by etransitivity.
    + eapply room_le; [|exact Hroom]. change (n_state n3) with (updated (n_state n2) (save_record (n_store n2)
        (add64 (ds_term (n_state n2)) 1) (cfg_ID (n_cfg n2)) (ds_commit (n_state n2)) 0 [])).
      rewrite updated_same_log by done. change (n_state n2) with (n_state n1).
      unfold n_state. by rewrite Es.
    + intros n4 HI4 He4 Hcu4. apply Hend; [done|by etransitivity|by apply Hcu4|done|done].
  - intros n3 Hp3 _ _ _ _ _. apply wp_when; [done|intros _].
    apply Hend; [apply Hp3|etransitivity; [done|apply Hp3]|by apply Hp3|done|done].
Qed.

End start.

(** ** History across restarts *)

(** Committed entries of the durable log from an index on. *)
Definition committed_from (d : durableState) (k : N) : list Entry :=
  take (N.to_nat (ds_commit d - k)) (drop (N.to_nat (k - ds_base d)) (tail (ds_log d))).

Lemma commands_to_split d k :
  ds_base d ≤ k → k ≤ ds_commit d →
  commands_to d (ds_commit d) = commands_to d k ++ omap e_Command (committed_from d k).
Proof using Type.
  intros Hb Hc. unfold commands_to, committed_from. rewrite <-omap_app. f_equal.
  rewrite <-(take_drop (N.to_nat (k - ds_base d)) (tail (ds_log d))) at 1.
  rewrite take_app. rewrite take_take. rewrite length_take.
  rewrite Nat.min_r by lia. f_equal.
  destruct (Nat.le_gt_cases (length (tail (ds_log d))) (N.to_nat (k - ds_base d))) as [Hlen|Hlen].
  - rewrite drop_ge by done. by rewrite !take_nil.
  - f_equal. lia.
Qed.

Lemma ApplyAll_fst m cs1 cs2 :
  (ApplyAll m (cs1 ++ cs2)).1 = (ApplyAll (ApplyAll m cs1).1 cs2).1.
Proof using Type.
  rewrite ApplyAll_app. destruct (ApplyAll m cs1) as [m1 o1]. cbn. by destruct (ApplyAll m1 cs2).
Qed.

Lemma committed_from_lookup d k i e :
  wf_state d → ds_base d ≤ k → log_at d i = Some e → k < i → i ≤ ds_commit d →
  committed_from d k !! N.to_nat (i - k - 1) = Some e.
Proof using Type.
  intros Hwf Hb He Hk Hi. unfold committed_from. rewrite lookup_take_lt by lia.
  rewrite lookup_drop, tail_lookup.
  rewrite (log_at_lookup d i _ eq_refl) in He by lia. rewrite <-He. f_equal. lia.
Qed.

Lemma committed_from_length d k :
  wf_state d → ds_base d ≤ k → k ≤ ds_commit d → lenN (committed_from d k) = ds_commit d - k.
Proof using Type.
  intros Hwf Hb Hc. unfold committed_from, lenN. rewrite length_take, length_drop.
  destruct (wf_commit d Hwf) as [_ Hce]. unfold log_end, lenN in Hce.
  assert (length (tail (ds_log d)) = (length (ds_log d) - 1)%nat) as Ht by (by destruct (ds_log d); cbn; lia).
  lia.
Qed.

(** A node that has caught up on a store that extends an earlier node's
    continues that node's history. *)
Lemma history_continues n n1 hist :
  Inv n1 → caught_up n1 → extends (n_state n) (n_state n1) →
  base_of n1 ≤ n_applied n → n_applied n ≤ commit_of n →
  machine_at (n_store n1) (n_applied n) = n_machine n →
  explains hist n → explains (hist ++ committed_from (n_state n1) (n_applied n)) n1.
Proof using Type.
  intros HI Hcu Hext Hb Hac Hm [Hlen Hmach Hlog].
  pose proof (inv_core n1 HI) as H0. pose proof (Inv0_state n1 H0) as Hwf.
  pose proof (ext_commit _ _ Hext) as Hcc. unfold commit_of, base_of, caught_up in *.
  split.
  - rewrite lenN_app, Hlen, committed_from_length by (done || lia). unfold commit_of in Hcu. lia.
  - rewrite (inv_machine n1 H0), Hcu. unfold machine_at, commit_of.
    change (st_state (n_store n1)) with (n_state n1).
    rewrite (commands_to_split _ (n_applied n)) by (done || lia).
    unfold history_machine in *. rewrite omap_app, !ApplyAll_fst. f_equal. rewrite <-Hmach. f_equal. exact Hm.
  - intros i e He Hi Hia. unfold commit_of in Hcu. destruct (N.le_gt_cases i (n_applied n)) as [Hle|Hgt].
    + assert (ds_base (n_state n1) ≤ i) as Hbi.
      { assert (is_Some (log_at (n_state n1) i)) as Hs by done. by apply log_at_is_Some in Hs as [? _]. }
      rewrite lookup_app_l by (unfold lenN in Hlen; lia).
      apply Hlog; [|done|done]. rewrite <-(ext_log _ _ Hext) by lia. done.
    + rewrite lookup_app_r by (unfold lenN in Hlen; lia).
      rewrite <-(committed_from_lookup _ (n_applied n) i e Hwf Hb He Hgt) by lia.
      f_equal. unfold lenN in Hlen. lia.
Qed.

(** A node on an uncompacted log is explained by the log itself. *)
Lemma explains_log n :
  Inv n → caught_up n → base_of n = 0 → explains (committed_from (n_state n) 0) n.
Proof using Type.
  intros HI Hcu Hb0. pose proof (inv_core n HI) as H0. pose proof (Inv0_state n H0) as Hwf.
  unfold base_of, caught_up, commit_of in *. split.
  - rewrite committed_from_length by (done || lia). lia.
  - rewrite (inv_machine n H0), Hcu. unfold machine_at, base_machine.
    change (st_state (n_store n)) with (n_state n). rewrite Hb0, N.eqb_refl.
    rewrite (commands_to_split _ 0) by (done || lia).
    assert (commands_to (n_state n) 0 = []) as ->; [|done].
    unfold commands_to. by rewrite Hb0.
  - intros i e He Hi Hia.
    rewrite <-(committed_from_lookup _ 0 i e Hwf) by (done || lia). f_equal. lia.
Qed.

(** ** Opening *)

(** The name under which the store of a node is kept. *)
Definition identity_cfg (cfg : Config) : string :=
  identity_of (cfg_ClusterID cfg) (cfg_ID cfg) (merge_sort String.le (p_ID <$> cfg_Peers cfg))
    (cfg_FixedLeader cfg).

(** Replaying the journal does not exhaust memory. *)
Definition readable (identity : string) (j : J) : Prop := openStoreUsing identity j ≠ None.

(** A node opened on a store: it continues from that store, and its disk works. *)
Record opened (s : diskStore J) n : Prop := {
  op_quiescent : quiescent n;
  op_healthy : n_failed n = None;
  op_extends : extends (st_state s) (n_state n);
  op_queued : cfg_FixedLeader (n_cfg n) ≠ cfg_ID (n_cfg n) → queued n = [];
  op_identity : st_identity (n_store n) = st_identity s;
  op_history : ∃ n1, Inv n1 ∧ caught_up n1 ∧ n_state n1 = st_state s ∧
    n_store n1 = s ∧ evolves n1 n;
}.

Lemma OpenWithRuntime_ok (E : Prop) cfg ht rt j bs :
  typed_config cfg → j_holds j bs → E ∨ readable (identity_cfg cfg) j →
  match OpenWithRuntime cfg ht rt j with
  | None => E ∨ cfg_FixedLeader cfg = cfg_ID cfg
  | Some (inl err) => check_config (with_defaults cfg) ht (rt_Manual rt) = inl err ∨
      openStoreUsing (identity_cfg cfg) j = Some (inl err) ∨ cfg_FixedLeader cfg = cfg_ID cfg
  | Some (inr n) => ∃ s, openStoreUsing (identity_cfg cfg) j = Some (inr s) ∧ opened s n ∧
      n_cfg n = with_defaults cfg ∧ rt_Manual (n_rt n) = rt_Manual rt
  end.
Proof.
  intros Hty Hh Hroom. unfold OpenWithRuntime.
  destruct (check_config _ _ _) as [|[peers identity]] eqn:Hcheck; [by left|].
  apply check_config_ok in Hcheck as (Hpeers&Hself&Hid).
  change (identity = identity_cfg cfg) in Hid. subst identity.
  assert (text (identity_cfg cfg)) as Hidt by apply identity_text.
  destruct (openStoreUsing (identity_cfg cfg) j) as [[err|s]|] eqn:Hopen; cbn [mbind option_bind];
    [by right; left| |].
  2: { destruct Hroom as [?|Hroom]; [by left|]. done. }
  destruct (openStoreUsing_wf _ j bs s Hidt Hh Hopen) as (Hwf&Hsid&Hcon).
  assert ((if ds_base (st_state s) =? 0 then (New, None) else Restore New (st_snapshot s)) =
    (base_machine s, None)) as ->.
  { unfold base_machine. destruct (_ =? 0); [done|].
    destruct (Restore New (st_snapshot s)) as [m' err] eqn:Hr.
    pose proof (wf_st_snapshot _ Hwf) as Hn. rewrite Hr in Hn. cbn in Hn. subst err.
    by destruct (Restore_None _ _ _ Hr) as [-> _]. }
  set (n0 := initial_node _ _ _ _ _ _).
  assert (Inv n0) as HI0.
  { apply initial_Inv; try done. intros id p Hp. destruct (Hpeers id p Hp) as (Hin&<-&?).
    split_and!; try done. by eapply Forall_forall in Hty. }
  assert (wp (E ∨ cfg_FixedLeader cfg = cfg_ID cfg) start_node
    (λ err n, match err with
              | None => opened s n ∧ n_cfg n = with_defaults cfg ∧ rt_Manual (n_rt n) = rt_Manual rt
              | Some _ => cfg_FixedLeader cfg = cfg_ID cfg
              end) n0) as Hstart.
  { apply start_node_wp; try done.
    - intros Hfx. split; [intros _; by right|]. left. by right.
    - intros err n1 n' HI1 Hcu1 Hst1 Hc1 Hrt1 HI' He' Hcu' Herr Hfx Hqu. destruct err as [err|]; [by apply Hfx|]. symmetry in Herr. rename Herr into Hf.
      change (n_store n0) with s in Hst1.
      assert (n_state n1 = st_state s) as Hs1 by (unfold n_state; by rewrite Hst1).
      split_and!.
      + split; try done.
        * rewrite <-Hs1. apply He'.
        * intros Hne. rewrite (ev_cfg _ _ He'), Hc1 in Hne. by rewrite Hqu.
        * rewrite (ev_identity _ _ He'). by rewrite Hst1.
        * by exists n1.
      + by rewrite (ev_cfg _ _ He'), Hc1.
      + by rewrite (ev_manual _ _ He'), Hrt1. }
  unfold wp in Hstart. destruct (start_node n0) as [[[err|] n]|]; cbn [mbind option_bind];
    [by right; right|by exists s|exact Hstart].
Qed.

(** A later life of a node: healthy, no durable fact lost, everything applied
    applied again, and the same history continued. *)
Record reopened n n' : Prop := {
  re_quiescent : quiescent n';
  re_healthy : n_failed n' = None;
  re_queued : cfg_FixedLeader (n_cfg n') ≠ cfg_ID (n_cfg n') → queued n' = [];
  re_identity : st_identity (n_store n') = st_identity (n_store n);
  re_extends : extends (n_state n) (n_state n');
  re_applied : n_applied n ≤ n_applied n';
  re_history : ∀ hist, explains hist n → ∃ more, explains (hist ++ more) n';
}.

(** A node opened again on the journal of an earlier life. *)
Lemma reopen (E : Prop) cfg ht rt n :
  Inv n → typed_config cfg → identity_cfg cfg = st_identity (n_store n) →
  E ∨ readable (identity_cfg cfg) (st_wal (n_store n)) →
  match OpenWithRuntime cfg ht rt (st_wal (n_store n)) with
  | None => E ∨ cfg_FixedLeader cfg = cfg_ID cfg
  | Some (inl err) => check_config (with_defaults cfg) ht (rt_Manual rt) = inl err ∨
      cfg_FixedLeader cfg = cfg_ID cfg
  | Some (inr n') => reopened n n' ∧ n_cfg n' = with_defaults cfg ∧ rt_Manual (n_rt n') = rt_Manual rt
  end.
Proof.
  intros HI Hty Hid Hroom. pose proof (inv_core n HI) as H0.
  assert (recoverable_at (st_wal (n_store n)) n) as [Hover|(s0&Hcon&Hid0&Hext&Hb&Hm)].
  { destruct (n_failed n) as [err|] eqn:Hf.
    - apply (inv_recover n H0). by rewrite Hf.
    - apply recoverable_old; [done|]. by apply (inv_content n H0). }
  { apply overflowing_open in Hover. rewrite <-Hid in Hover. unfold OpenWithRuntime.
    destruct (check_config _ _ _) as [|[peers identity]] eqn:Hcheck; [by left|].
    apply check_config_ok in Hcheck as (_&_&Hi). change (identity = identity_cfg cfg) in Hi. subst identity.
    rewrite Hover. destruct Hroom as [?|Hroom]; [by left|done]. }
  assert (∃ bs, j_holds (st_wal (n_store n)) bs) as [bs Hh].
  { destruct Hcon as (bs&_&Hh&_). by exists bs. }
  pose proof (OpenWithRuntime_ok E cfg ht rt (st_wal (n_store n)) bs Hty Hh Hroom) as Hopen.
  destruct (openStoreUsing_content _ _ Hcon) as (w'&Hos&_). rewrite Hid0, <-Hid in Hos.
  rewrite Hos in Hopen.
  destruct (OpenWithRuntime cfg ht rt _) as [[err|n']|]; [naive_solver| |done].
  destruct Hopen as (s&Hs&[Hq Hf Hex Hqu Hids (n1&HI1&Hcu1&Hs1&Hst1&He1)]&Hc&Hrt).
  injection Hs as <-. cbn [st_state st_identity set_wal] in *.
  assert (extends (n_state n) (n_state n1)) as Hext1 by (by rewrite Hs1).
  destruct (inv_applied n H0) as [_ Hac].
  assert (n_applied n ≤ n_applied n1) as Hap.
  { pose proof (ext_commit _ _ Hext1). unfold caught_up, commit_of in *. lia. }
  split; [|done]. split; try done.
  - congruence.
  - etransitivity; [exact Hext1|apply He1].
  - etransitivity; [exact Hap|apply He1].
  - intros hist Hh1.
    destruct (ev_explains _ _ _ He1 (history_continues n n1 hist HI1 Hcu1 Hext1
      ltac:(unfold base_of; by rewrite Hs1) Hac ltac:(rewrite <-Hm, Hst1; done) Hh1)) as [more Hmore].
    eexists. rewrite app_assoc. exact Hmore.
Qed.

(** A node opened on an empty journal has applied nothing but its own log. *)
Lemma first_open cfg ht rt j n :
  typed_config cfg → j_holds j [] →
  OpenWithRuntime cfg ht rt j = Some (inr n) →
  quiescent n ∧ n_failed n = None ∧ st_identity (n_store n) = identity_cfg cfg ∧
  (cfg_FixedLeader (n_cfg n) ≠ cfg_ID (n_cfg n) → queued n = []) ∧
  ∃ hist, explains hist n.
Proof.
  intros Hty Hh Hopen.
  pose proof (OpenWithRuntime_ok True cfg ht rt j [] Hty Hh (or_introl I)) as Hok. rewrite Hopen in Hok.
  destruct Hok as (s&Hos&[Hq Hf Hex Hqu Hids (n1&HI1&Hcu1&Hs1&Hst1&He1)]&_&_).
  destruct (openStoreUsing_wf (identity_cfg cfg) j [] s (identity_text _ _ _ _) Hh Hos) as (_&Hid&_).
  split_and!; [done|done|congruence|done|].
  assert (base_of n1 = 0) as Hb0.
  { unfold base_of. rewrite Hs1.
    by rewrite (openStoreUsing_empty _ _ _ (identity_text _ _ _ _) Hh Hos). }
  destruct (ev_explains _ _ _ He1 (explains_log n1 HI1 Hcu1 Hb0)) as [more Hmore]. by eexists.
Qed.

End open.
