(* ===== verification/Trace.v ===== *)
(** * Trace: the moves of a node

    What a method does to a node's durable store, candidacy, replication state
    and outgoing requests is a sequence of [move]s, each under the guards the
    code has tested when it makes it.  This holds of any run that returns,
    whatever the state, so the lemmas need no invariant. *)

From stdpp Require Import base numbers list gmap strings fin_maps pretty relations sorting options.
From S2P Require Import Prelude Effects Bytes StateMachine Wal Journal Store Events Node NodeInv.
From S2P Require Import NodeRPC NodeSteps.

Local Open Scope N_scope.
#[local] Set Default Proof Using "Type*".

(** The rule of consequence with a known lemma. *)
Tactic Notation "mono" uconstr(H) := eapply wp_mono; [apply H|cbn beta].

(** What is known of the messages a call acts on. *)
Record evidence := mkEvidence {
  ev_vote : VoteRequest → Prop;         (* requests for votes that have arrived *)
  ev_append : AppendRequest → Prop;     (* requests to append that have arrived *)
  ev_ballot : string → N → Prop;        (* votes given, with their terms *)
  ev_match : string → N → N → Prop;     (* logs acknowledged: peer, term, index *)
}.

Section moves.
Context {J : Type} `{HJ : Journal J, HC : Codec record}.
Implicit Type n : Node J.

(** ** The moves *)

(** The requests for votes a node sends carry its name, its term and the end of
    its log, and go to members. *)
Record own_request n (to : string) (req : VoteRequest) : Prop := {
  or_candidate : vq_CandidateID req = cfg_ID (n_cfg n);
  or_member : is_Some (n_peers n !! to);
  or_term : vq_Term req = term_of n;
  or_last : vq_LastLogIndex req = lastLocked n;
  or_last_term : ∃ e, entryLocked n (lastLocked n) = Some e ∧ vq_LastLogTerm req = e_Term e;
}.

(** The peers a node asks are members. *)
Definition peers_listed n : Prop := ∀ p, p ∈ cfg_Peers (n_cfg n) → is_Some (n_peers n !! p_ID p).

(** The fields that moves are about: without the waiters, and with them. *)
Definition untended n := (n_cfg n, n_peers n, n_store n, n_failed n, n_applied n, n_machine n, n_votes n,
  n_role n, n_match n, n_outbox n, n_calls n).
Definition tracked n := (n_cfg n, n_peers n, n_store n, n_failed n, n_applied n, n_machine n, n_votes n,
  n_role n, n_match n, n_outbox n, n_calls n, n_pending n, n_chans n, n_newchan n).

(** A waiter that is told anything is told that it will not learn its outcome. *)
Definition refused (out : outcome) : Prop :=
  ∃ err, refusal err ∧ out = mkOutcome zeroResult (Some err).

(** No waiter is answered: at most some are refused, forgotten, or collect what
    they had been sent. *)
Record tended n n' : Prop := {
  td_newchan : n_newchan n ≤ n_newchan n';
  td_pending : ∀ i w, n_pending n' !! i = Some w → n_pending n !! i = Some w;
  td_chans : ∀ c out, n_chans n' !! c = Some (Some out) → n_chans n !! c = Some (Some out) ∨ refused out;
}.

(** Nothing has moved: at most the node has become a follower, requests have
    left it, or waiters have been refused. *)
Record quiet n n' : Prop := {
  qt_cfg : n_cfg n' = n_cfg n;
  qt_peers : n_peers n' = n_peers n;
  qt_store : n_store n' = n_store n;
  qt_failed : n_failed n' = n_failed n;
  qt_applied : n_applied n' = n_applied n;
  qt_machine : n_machine n' = n_machine n;
  qt_votes : n_votes n' = n_votes n;
  qt_role : n_role n' = n_role n ∨ n_role n' = follower;
  qt_match : ∀ id, id ≠ cfg_ID (n_cfg n) → match_of n' id = match_of n id;
  qt_outbox : ∀ m, m ∈ n_outbox n' → m ∈ n_outbox n;
  qt_calls : ∀ x, x ∈ n_calls n' → x ∈ n_calls n;
  qt_tended : tended n n';
}.

Context (ev : evidence).

(** The last entry of a node's log is no more up to date than the request says
    the candidate's is. *)
Definition outdone n (req : VoteRequest) : Prop :=
  ∃ e, entryLocked n (lastLocked n) = Some e ∧
    (e_Term e < vq_LastLogTerm req ∨
     vq_LastLogTerm req = e_Term e ∧ e_Index e ≤ vq_LastLogIndex req).

(** What [AppendEntries] has found when it saves: the request continues the log,
    and the first new entry is at [from]. *)
Record accepting n (req : AppendRequest) (from : N) (es : list Entry) (commit : N) : Prop := {
  ag_request : ev_append ev req;
  ag_term : term_of n = aq_Term req;
  ag_prev : ∃ p, entryLocked n (aq_PrevLogIndex req) = Some p ∧ e_Term p = aq_PrevLogTerm req;
  ag_bounds : base_of n ≤ aq_PrevLogIndex req ∧ aq_PrevLogIndex req ≤ lastLocked n;
  ag_new : new_entries n req 0 (aq_Entries req) = Some (inr (from, es));
  ag_from : from = 0 ∨ commit_of n < from;
  ag_commit : commit =
    if commit_of n <? aq_LeaderCommit req
    then N.max (N.min (aq_LeaderCommit req) (add64 (aq_PrevLogIndex req) (lenN (aq_Entries req))))
           (commit_of n)
    else commit_of n;
}.

(** The saves that keep the term and the role. *)
Inductive purpose n : N → string → N → N → list Entry → Prop :=
  | for_vote req :
      ev_vote ev req → vq_Term req = term_of n → vote_of n = "" → outdone n req →
      is_Some (n_peers n !! vq_CandidateID req) →
      purpose n (vq_Term req) (vq_CandidateID req) (commit_of n) 0 []
  | for_append command :
      n_role n = leader → (∀ c, command = Some c → rep_command c ∧ Validate c = None) →
      let e := mkEntry (add64 (lastLocked n) 1) (term_of n) command in
      purpose n (term_of n) (vote_of n) (commit_of n) (e_Index e) [e]
  | for_accept req from es commit :
      accepting n req from es commit → n_role n = follower → n_pending n = ∅ →
      purpose n (term_of n) (vote_of n) commit from es
  | for_commit i :
      n_role n = leader →
      commit_index (N.to_nat (lastLocked n - commit_of n)) n (lastLocked n) = Some (Some i) →
      purpose n (term_of n) (vote_of n) i 0 [].

(** An entry has been executed, and whoever waited for it has its answer. *)
Record applied_to n (e : Entry) n' : Prop := {
  at_node : untended n' =
    untended (set_machine (apply_entry (n_machine n) e) (set_applied (add64 (n_applied n) 1) n));
  at_newchan : n_newchan n ≤ n_newchan n';
  at_pending : ∀ i w, n_pending n' !! i = Some w → n_pending n !! i = Some w;
  at_chans : ∀ c out, n_chans n' !! c = Some (Some out) → n_chans n !! c = Some (Some out) ∨
    ∃ w, n_pending n !! add64 (n_applied n) 1 = Some w ∧ w_done w = c ∧
      out = answer (n_machine n) e w;
}.

(** All saves. *)
Inductive attempt n : N → string → N → N → list Entry → Prop :=
  | att_purpose term vote commit from es :
      purpose n term vote commit from es → attempt n term vote commit from es
  | att_term t : term_of n < t → t < two64 → attempt n t "" (commit_of n) 0 []
  | att_campaign :
      attempt n (add64 (term_of n) 1) (cfg_ID (n_cfg n)) (commit_of n) 0 [].

Definition saved_as n (term : N) (vote : string) (commit from : N) (es : list Entry)
    (err : option error) (s' : diskStore J) : Prop :=
  n_failed n = None ∧ save term vote commit from es (n_store n) = Some (err, s').

Inductive move n : Node J → Prop :=
  | mv_quiet n' : quiet n n' → move n n'
  | mv_save term vote commit from es s' :
      purpose n term vote commit from es → saved_as n term vote commit from es None s' →
      move n (set_nstore s' n)
  | mv_term t s' :
      term_of n < t → t < two64 → saved_as n t "" (commit_of n) 0 [] None s' →
      move n (set_role follower (set_nstore s' n))
  | mv_campaign s' :
      saved_as n (add64 (term_of n) 1) (cfg_ID (n_cfg n)) (commit_of n) 0 [] None s' →
      move n (set_votes {[ cfg_ID (n_cfg n) := true ]} (set_role candidate (set_nstore s' n)))
  | mv_fail term vote commit from es err s' :
      attempt n term vote commit from es → saved_as n term vote commit from es (Some err) s' →
      move n (set_role follower (set_failed (Some err) (set_nstore s' n)))
  | mv_elect :
      n_role n = candidate → (half n < size (n_votes n))%nat →
      move n (set_match (((λ _, 0) <$> n_peers n) ∪ n_match n) (set_role leader n))
  | mv_ballot id :
      n_role n = candidate → ev_ballot ev id (term_of n) →
      move n (set_votes (<[id := true]> (n_votes n)) n)
  | mv_match id i :
      n_role n = leader → ev_match ev id (term_of n) i →
      move n (set_match (<[id := N.max (match_of n id) i]> (n_match n)) n)
  | mv_apply e n' :
      n_applied n < commit_of n → entryLocked n (add64 (n_applied n) 1) = Some e →
      applied_to n e n' → move n n'
  | mv_await i readKey : move n (registered n i (n_newchan n) (mkWaiter readKey (n_newchan n)))
  | mv_snapshot s' :
      n_failed n = None →
      store_checkpoint (takeSnapshot (n_machine n)) (commit_of n) (n_store n) = Some (None, s') →
      move n (set_nstore s' n)
  | mv_snapfail err s' :
      n_failed n = None →
      store_checkpoint (takeSnapshot (n_machine n)) (commit_of n) (n_store n) = Some (Some err, s') →
      move n (set_role follower (set_failed (Some err) (set_nstore s' n)))
  | mv_close :
      move n (set_nstore (set_wal (j_close (st_wal (n_store n))).2 (n_store n)) n)
  | mv_ask m req :
      n_role n = candidate → m_Vote m = Some req → own_request n (m_To m) req →
      move n (set_outbox (n_outbox n ++ [m]) n)
  | mv_call peer req :
      n_role n = candidate → own_request n (p_ID peer) req →
      move n (set_calls (n_calls n ++ [(peer, req)]) n)
  | mv_send peer m req n1 :
      n_role n = leader → prepareAppendLocked peer n = Some (req, n1) →
      m_To m = p_ID peer → m_Vote m = None → m_Append m = Some req →
      move n (set_outbox (n_outbox n ++ [m]) n).

(** *** Quiet computations *)

#[export] Instance tended_preorder : PreOrder tended.
Proof using Type.
  split; [intros n; split; auto; lia|]. intros n1 n2 n3 [A1 A2 A3] [B1 B2 B3]. split; [lia|auto|].
  intros c out Ho. destruct (B3 c out Ho); auto.
Qed.

Definition waiters n := (n_pending n, n_chans n, n_newchan n).

Lemma tended_same n n' : waiters n' = waiters n → tended n n'.
Proof using Type. unfold waiters. intros [= E1 E2 E3]. split; rewrite ?E1, ?E2, ?E3; auto; lia. Qed.

#[export] Instance quiet_preorder : PreOrder quiet.
Proof using Type.
  split.
  - intros n. split; try done. by left.
  - intros n1 n2 n3 [] []. split; try congruence; try auto.
    + destruct qt_role1 as [->|?]; [|by right]. done.
    + intros id Hid. rewrite qt_match1 by congruence. by apply qt_match0.
    + by etransitivity.
Qed.

Lemma quiet_tended n n' : untended n' = untended n → tended n n' → quiet n n'.
Proof using Type.
  unfold untended. intros [= E1 E2 E3 E4 E5 E6 E7 E8 E9 E10 E11] Ht. split; try done.
  - by left.
  - unfold match_of. by rewrite E9.
  - by rewrite E10.
  - by rewrite E11.
Qed.

Lemma tracked_same n n' : tracked n' = tracked n → untended n' = untended n ∧ tended n n'.
Proof using Type.
  unfold tracked. intros [= E1 E2 E3 E4 E5 E6 E7 E8 E9 E10 E11 E12 E13 E14]. split.
  - unfold untended. congruence.
  - apply tended_same. unfold waiters. congruence.
Qed.

Lemma quiet_same n n' : tracked n' = tracked n → quiet n n'.
Proof using Type. intros H. destruct (tracked_same n n' H). by apply quiet_tended. Qed.

Lemma quiet_follower n : quiet n (set_role follower n).
Proof using Type. split; try done; [by right|by apply tended_same]. Qed.

(** A preorder that sees neither the other fields nor waiters that are refused. *)
Class Coarse (R : relation (Node J)) : Prop := {
  coarse_preorder :: PreOrder R;
  coarse_tended n n' : untended n' = untended n → tended n n' → R n n';
}.

#[export] Instance quiet_coarse : Coarse quiet.
Proof using Type. split; [apply _|apply quiet_tended]. Qed.

Definition hush (R : relation (Node J)) {A} (m : M (Node J) A) : Prop :=
  ∀ n, wp True m (λ _ n', R n n') n.

Section coarse.
Context (R : relation (Node J)) `{!Coarse R}.

Lemma coarse_same n n' : tracked n' = tracked n → R n n'.
Proof using Type*. intros H. destruct (tracked_same n n' H). by apply coarse_tended. Qed.

Lemma hush_ret {A} (a : A) : hush R (mret a).
Proof using Type*. intros n. apply wp_ret. reflexivity. Qed.

Lemma hush_bind {A B} (m : M (Node J) A) (f : A → M (Node J) B) :
  hush R m → (∀ a, hush R (f a)) → hush R (m ≫= f).
Proof using Type*.
  intros Hm Hf n. apply wp_bind. mono Hm. intros a n1 H1. mono Hf. intros b n2 H2. by etransitivity.
Qed.

Lemma hush_get : hush R (get : M (Node J) _).
Proof using Type*. intros n. apply wp_get. reflexivity. Qed.

Lemma hush_gets {A} (f : Node J → A) : hush R (gets f).
Proof using Type*. intros n. apply wp_gets. reflexivity. Qed.

Lemma hush_modify f : (∀ n, R n (f n)) → hush R (modify f).
Proof using Type*. intros H n. apply wp_modify, H. Qed.

Lemma hush_lift {A} (o : option A) : hush R (lift o).
Proof using Type*. intros n. apply wp_lift; [done|]. intros a _. reflexivity. Qed.

Lemma hush_panic {A} : hush R (panic : M (Node J) A).
Proof using Type*. done. Qed.

Lemma hush_when b m : hush R m → hush R (when b m).
Proof using Type*. intros H. destruct b; [done|apply hush_ret]. Qed.

Lemma hush_for_each {A} (body : A → M (Node J) unit) l :
  (∀ x, hush R (body x)) → hush R (for_each body l).
Proof using Type*.
  intros H. induction l as [|x l IH]; [apply hush_ret|]. apply hush_bind; [apply H|done].
Qed.

End coarse.

(** *** Sequences of moves *)

Definition moves : relation (Node J) := rtc move.

#[export] Instance moves_preorder : PreOrder moves.
Proof using Type. apply _. Qed.

Definition traced {A} (m : M (Node J) A) : Prop := ∀ n, wp True m (λ _ n', moves n n') n.

Lemma moves_one n n' : move n n' → moves n n'.
Proof using Type. apply rtc_once. Qed.

Lemma moves_quiet n n' : quiet n n' → moves n n'.
Proof using Type. intros H. by apply moves_one, mv_quiet. Qed.

Lemma moves_then_quiet n n1 n' : moves n n1 → quiet n1 n' → moves n n'.
Proof using Type. intros H1 H2. etransitivity; [exact H1|]. by apply moves_quiet. Qed.

Lemma traced_hush {A} (m : M (Node J) A) : hush quiet m → traced m.
Proof using Type. intros H n. mono H. intros a n' Hq. by apply moves_quiet. Qed.

Lemma traced_ret {A} (a : A) : traced (mret a).
Proof using Type. apply traced_hush, (hush_ret quiet). Qed.

Lemma traced_bind {A B} (m : M (Node J) A) (f : A → M (Node J) B) :
  traced m → (∀ a, traced (f a)) → traced (m ≫= f).
Proof using Type.
  intros Hm Hf n. apply wp_bind. mono Hm. intros a n1 H1. mono Hf. intros b n2 H2. by etransitivity.
Qed.

(** The continuation may use that it starts in the state read. *)
Lemma traced_get {A} (f : Node J → M (Node J) A) :
  (∀ n, wp True (f n) (λ _ n', moves n n') n) → traced (n ← get; f n).
Proof using Type. intros H n. apply wp_bind, wp_get, H. Qed.

Lemma traced_when b m : (b = true → traced m) → traced (when b m).
Proof using Type. intros H. destruct b; [by apply H|apply traced_ret]. Qed.

Lemma moves_static n n' : moves n n' → n_cfg n' = n_cfg n ∧ n_peers n' = n_peers n.
Proof using Type.
  induction 1 as [|n n1 n2 Hm _ [IH1 IH2]]; [done|].
  assert (n_cfg n1 = n_cfg n ∧ n_peers n1 = n_peers n) as [E1 E2]; [|by rewrite IH1, IH2].
  destruct Hm as [n' []| | | | | | | |e n' _ _ [E _ _ _]| | | | | | |]; try done.
  by injection E as -> -> _ _ _ _ _ _ _ _ _.
Qed.

(** A node whose disk has failed is a follower. *)
Definition sick n : Prop := n_failed n ≠ None → n_role n = follower.

Lemma moves_sick n n' : moves n n' → sick n → sick n'.
Proof using Type.
  unfold sick. induction 1 as [|n n1 n2 Hm _ IH]; [done|]. intros Hs. apply IH.
  destruct Hm as [n' []| | | | | | | |e n' _ _ [E _ _ _]| | | | | | |]; cbn; try done.
  - intros Hf. rewrite qt_failed0 in Hf. destruct qt_role0 as [->|?]; auto.
  - intros Hf. match goal with H : saved_as _ _ _ _ _ _ _ _ |- _ => by destruct H end.
  - intros Hf. apply Hs in Hf. congruence.
  - injection E as _ _ _ -> _ _ _ -> _ _ _. exact Hs.
Qed.

(** A computation traced from [n1], which moves lead to. *)
Lemma traced_from {A} (m : M (Node J) A) n n1 :
  moves n n1 → traced m → wp True m (λ _ n', moves n n') n1.
Proof using Type. intros H Hm. mono Hm. intros a n2 H2. by etransitivity. Qed.

Lemma traced_for_each {A} (body : A → M (Node J) unit) l :
  (∀ x, traced (body x)) → traced (for_each body l).
Proof using Type.
  intros H. induction l as [|x l IH]; [apply traced_ret|]. apply traced_bind; [apply H|done].
Qed.

End moves.

(** Symbolic execution of a quiet method: read the state, branch, compose. *)
Ltac hush :=
  repeat match goal with
  | |- Coarse _ => apply _
  | |- hush _ (mret _) => apply hush_ret
  | |- hush _ (lift _) => apply hush_lift
  | |- hush _ panic => apply hush_panic
  | |- hush _ get => apply hush_get
  | |- hush _ (gets _) => apply hush_gets
  | |- hush _ (modify _) => apply hush_modify; [apply _|intros ?; first [by apply (coarse_same _) | exact eq_refl]]
  | |- hush _ (when _ _) => apply hush_when
  | |- hush _ (for_each _ _) => apply hush_for_each; [apply _|intros ?]
  | |- hush _ (mbind _ _) => apply hush_bind; [apply _| |intros ?]
  | |- hush _ (if ?b then _ else _) => destruct b
  | |- hush _ (match ?x with _ => _ end) => destruct x
  | |- hush _ _ => solve [eauto with hush]
  end.

Create HintDb hush.
#[export] Hint Constants Opaque : hush.
#[export] Hint Extern 0 (Coarse _) => apply _ : hush.

Section quiet_methods.
Context {J : Type} `{HJ : Journal J, HC : Codec record}.
Context (R : relation (Node J)) `{!Coarse R}.
Implicit Type n : Node J.

Lemma hush_now : hush R (now : M (Node J) _).
Proof using Type*. unfold now. hush. Qed.
Lemma hush_random b : hush R (random b : M (Node J) _).
Proof using Type*. unfold random. hush. Qed.
(** The continuation may use that it starts in the state read. *)
Lemma hush_read {A} (f : Node J → M (Node J) A) :
  (∀ n, wp True (f n) (λ _ n', R n n') n) → hush R (n ← get; f n).
Proof using Type. intros H n. apply wp_bind, wp_get, H. Qed.

Lemma hush_refuse c out : refused out → hush R (send c out : M (Node J) _).
Proof using Type*.
  intros Hr. unfold send. apply hush_read. intros n.
  destruct (n_chans n !! c) as [[?|]|] eqn:Hc; try done.
  apply wp_modify, coarse_tended; [done|]. split; cbn; [lia|done|].
  intros c' out' [[<- [= <-]]|[_ Ho]]%lookup_insert_Some; [by right|by left].
Qed.
#[local] Hint Resolve hush_now hush_random hush_refuse : hush.

Lemma hush_emit kind index peer message detail :
  hush R (emitLocked kind index peer message detail : M (Node J) _).
Proof using Type*. unfold emitLocked. hush. Qed.
#[local] Hint Resolve hush_emit : hush.
Lemma hush_resetTimer : hush R (resetTimerLocked : M (Node J) _).
Proof using Type*. unfold resetTimerLocked. hush. Qed.
Lemma hush_forget i : hush R (n ← get; modify (set_pending (delete i (n_pending n))) : M (Node J) _).
Proof using Type*.
  apply hush_read. intros n. apply wp_modify, coarse_tended; [done|]. split; cbn; [lia| |by left].
  by intros j w [_ Hj]%lookup_delete_Some.
Qed.
Lemma hush_fail_waiter err iw : refusal err → hush R (fail_waiter err iw : M (Node J) _).
Proof using Type*.
  intros He. unfold fail_waiter. destruct iw as [i w]. apply (hush_bind R); [|intros _; apply hush_forget].
  apply hush_refuse. by exists err.
Qed.
Lemma hush_failPending err : refusal err → hush R (failPendingLocked err : M (Node J) _).
Proof using Type*.
  intros He. unfold failPendingLocked. apply (hush_bind R); [hush|]. intros n.
  apply (hush_for_each R). intros x. by apply hush_fail_waiter.
Qed.
Lemma hush_next_sequence : hush R (next_sequence : M (Node J) _).
Proof using Type*. unfold next_sequence. hush. Qed.
#[local] Hint Resolve hush_next_sequence : hush.
Lemma hush_prepareAppend peer : hush R (prepareAppendLocked peer : M (Node J) _).
Proof using Type*. unfold prepareAppendLocked. hush. Qed.
#[local] Hint Resolve hush_prepareAppend : hush.
Lemma hush_replicate_call peer : hush R (replicate_call peer : M (Node J) _).
Proof using Type*. unfold replicate_call. hush. Qed.
Lemma hush_vote_response b err : hush R (vote_response b err : M (Node J) _).
Proof using Type*. unfold vote_response. hush. Qed.
Lemma hush_append_response err : hush R (append_response err : M (Node J) _).
Proof using Type*. unfold append_response. hush. Qed.
Lemma hush_append_conflict c : hush R (append_conflict c : M (Node J) _).
Proof using Type*. unfold append_conflict. hush. Qed.
Lemma hush_take_wake peer : hush R (take_wake peer : M (Node J) _).
Proof using Type*. unfold take_wake. hush. Qed.
Lemma hush_Poll t : hush R (Poll t : M (Node J) _).
Proof using Type*.
  unfold Poll. apply hush_read. intros n. destruct (n_chans n !! t_done t) as [[out|]|]; try (apply wp_ret; reflexivity).
  apply wp_bind, wp_modify, wp_ret, coarse_tended; [done|]. split; cbn; [lia|done|].
  intros c out' [[_ [=]]|[_ Ho]]%lookup_insert_Some. by left.
Qed.
Lemma hush_Cancel t : hush R (Cancel t : M (Node J) _).
Proof using Type*.
  unfold Cancel. apply hush_read. intros n. destruct (n_pending n !! t_Index t) as [w|]; [|apply wp_ret; reflexivity].
  apply wp_when; intros _; [|reflexivity]. apply wp_modify, coarse_tended; [done|]. split; cbn; [lia| |by left].
  by intros j w' [_ Hj]%lookup_delete_Some.
Qed.
End quiet_methods.

Lemma hush_Drain `{HJ : Journal J} : hush quiet (DrainMessages : M (Node J) _).
Proof.
  unfold DrainMessages. apply (hush_bind quiet); [hush|]. intros n.
  apply (hush_bind quiet); [|intros _; hush]. apply (hush_modify quiet). intros n1. split; try done; [by left| |by apply tended_same]. intros m Hm. by apply elem_of_nil in Hm.
Qed.

Lemma refusal_unavailable : refusal ErrUnavailable.
Proof. by left. Qed.
Lemma refusal_leaderError {J} (n : Node J) : refusal (leaderErrorLocked n).
Proof. right. unfold leaderErrorLocked. eauto. Qed.

#[export] Hint Resolve refusal_unavailable refusal_leaderError hush_now hush_random hush_refuse hush_emit
  hush_resetTimer hush_fail_waiter hush_failPending hush_next_sequence hush_prepareAppend hush_replicate_call
  hush_vote_response hush_append_response hush_append_conflict hush_take_wake hush_Poll hush_Cancel
  hush_Drain : hush.

(** ** Saving *)

Section methods.
Context {J : Type} `{HJ : Journal J, HC : Codec record}.
Context (ev : evidence).
Implicit Type n : Node J.
Notation traced := (traced ev).
Notation moves := (moves ev).

(** What a save leaves of the durable state: the term and the vote given. *)
Lemma save_state term vote commit from es (s : diskStore J) :
  wp True (save term vote commit from es)
    (λ err s', err = None → ds_term (st_state s') = term ∧ ds_vote (st_state s') = vote) s.
Proof using Type.
  unfold save. apply wp_bind, wp_get. apply wp_bind, wp_lift; [done|]. intros [err|] _; [by apply wp_ret|].
  destruct (marshal _) as [|b]; [by apply wp_ret|]. apply wp_bind. unfold wal_Append. apply wp_zoom.
  unfold wp at 1. destruct (j_append b (st_wal s)) as [[err|] w]; [by apply wp_ret|].
  apply wp_bind. unfold acceptM, wp at 1, accept. cbn [rc_Checkpoint rc_From rc_Term rc_Entries st_state set_wal].
  destruct (from =? 0); [by apply wp_ret|].
  destruct (slice_to _ _) as [kept|]; [|done]. cbn [mbind option_bind].
  destruct (append_slice _ _) as [log|]; [|done]. by apply wp_ret.
Qed.

(** Saving: the store alone changes, or the node has failed. *)
Lemma persist_traced (Q : bool → Node J → Prop) term vote commit from es n :
  n_failed n = None → attempt ev n term vote commit from es →
  (∀ s', saved_as n term vote commit from es None s' → ds_term (st_state s') = term →
     ds_vote (st_state s') = vote → Q true (set_nstore s' n)) →
  (∀ n', moves n n' → n_failed n' ≠ None → n_role n' = follower → Q false n') →
  wp True (persistLocked term vote commit from es) Q n.
Proof using Type.
  intros Hf Hatt Hok Hbad. unfold persistLocked. apply wp_bind, wp_zoom.
  pose proof (save_state term vote commit from es (n_store n)) as Hst.
  unfold wp in Hst at 1. unfold wp at 1.
  destruct (save term vote commit from es (n_store n)) as [[err s']|] eqn:Hsave; [|done].
  destruct err as [err|].
  - set (n1 := set_role follower (set_failed (Some err) (set_nstore s' n))).
    assert (move ev n n1) as H1 by (by eapply mv_fail).
    apply wp_bind, wp_modify. apply wp_bind, emit_wp. intros evs rd.
    apply wp_bind, wp_modify. apply wp_bind, wp_modify. apply wp_bind.
    mono (hush_failPending quiet ErrUnavailable refusal_unavailable). intros [] n2 H2. apply wp_ret.
    assert (quiet n1 n2) as H12 by (etransitivity; [|exact H2]; by apply quiet_same).
    apply Hbad.
    + eapply moves_then_quiet; [by apply moves_one|done].
    + by rewrite (qt_failed _ _ H12).
    + by destruct (qt_role _ _ H12) as [->|?].
  - destruct (Hst eq_refl). by apply wp_ret, Hok.
Qed.

(** Saving in the current term and role, then going on. *)
Lemma persist_then {A} (f : bool → M (Node J) A) term vote commit from es n0 n :
  moves n0 n → n_failed n = None → purpose ev n term vote commit from es →
  (∀ n', moves n0 n' → n_failed n' ≠ None → n_role n' = follower → wp True (f false) (λ _ n', moves n0 n') n') →
  (∀ s', moves n0 (set_nstore s' n) → wp True (f true) (λ _ n', moves n0 n') (set_nstore s' n)) →
  wp True (persistLocked term vote commit from es ≫= f) (λ _ n', moves n0 n') n.
Proof using Type.
  intros H0 Hf Hp Hbad Hok. apply wp_bind. apply persist_traced; [done|by constructor|..].
  - intros s' Hs _ _. apply Hok. etransitivity; [exact H0|]. by eapply moves_one, mv_save.
  - intros n' Hm Hf' Hr. apply Hbad; [by etransitivity|done..].
Qed.

(** All waiters are refused, and forgotten. *)
Lemma failPending_empty err n : refusal err →
  wp True (failPendingLocked err) (λ _ n', quiet n n' ∧ n_pending n' = ∅) n.
Proof using HJ.
  intros He. unfold failPendingLocked. apply wp_bind, wp_get.
  assert (∀ ws n1, quiet n n1 → (∀ i w, n_pending n1 !! i = Some w → i ∈ ws.*1) →
    wp True (for_each (fail_waiter err) ws) (λ _ n', quiet n n' ∧ n_pending n' = ∅) n1) as H.
  { intros ws. induction ws as [|[i w] ws IH]; intros n1 H1 Hws; cbn [for_each].
    - apply wp_ret. split; [done|]. apply map_empty. intros i. destruct (n_pending n1 !! i) eqn:Hi; [|done].
      by apply Hws, elem_of_nil in Hi.
    - apply wp_bind. unfold fail_waiter. apply wp_bind.
      mono (hush_refuse quiet (w_done w) (mkOutcome zeroResult (Some err)) ltac:(by exists err)).
      intros [] n2 H2. apply wp_bind, wp_get, wp_modify. apply IH.
      + etransitivity; [exact H1|]. etransitivity; [exact H2|]. apply quiet_tended; [done|].
        split; cbn; [lia| |by left]. by intros j v [_ Hj]%lookup_delete_Some.
      + cbn. intros j v [Hne Hj]%lookup_delete_Some. apply (td_pending _ _ (qt_tended _ _ H2)) in Hj.
        apply Hws in Hj. cbn in Hj. apply elem_of_cons in Hj as [->|Hj]; done. }
  apply H; [reflexivity|]. intros i w Hi. apply list_elem_of_fmap. exists (i, w).
  split; [done|]. by apply elem_of_map_to_list.
Qed.

Lemma stepDown_traced term l n :
  n_failed n = None → term < two64 →
  wp True (stepDownLocked term l)
    (λ ok n', moves n n' ∧ (ok = true → n_role n' = follower ∧ n_failed n' = None ∧
       term_of n' = N.max term (term_of n) ∧ n_pending n' = ∅)) n.
Proof using HJ.
  intros Hf Ht64. unfold stepDownLocked. apply wp_bind, wp_get. apply wp_bind.
  fold (term_of n). set (changed := bool_decide _ || _).
  assert (∀ n1 n2, moves n n1 → quiet n1 n2 → n_role n2 = follower → n_failed n1 = None →
    term_of n1 = N.max term (term_of n) →
    wp True (when changed (emitLocked "STEPPED_DOWN" 0 l "" "") ;;
      n ← get; failPendingLocked (leaderErrorLocked n) ;; mret true)
      (λ ok n', moves n n' ∧ (ok = true → n_role n' = follower ∧ n_failed n' = None ∧
       term_of n' = N.max term (term_of n) ∧ n_pending n' = ∅)) n2) as Hrest.
  { intros n1 n2 H1 H2 Hr Hf1 Ht. apply wp_bind.
    assert (hush quiet (when changed (emitLocked "STEPPED_DOWN" 0 l "" "") : M (Node J) unit)) as Hw by hush.
    mono Hw. intros [] n3 H3. apply wp_bind, wp_get. apply wp_bind.
    mono (failPending_empty (leaderErrorLocked n3) n3 (refusal_leaderError n3)). intros [] n4 [H4 Hp]. apply wp_ret.
    assert (quiet n2 n4) as H24 by (by etransitivity). assert (quiet n1 n4) as H14 by (by etransitivity).
    split; [by eapply moves_then_quiet|]. intros _. split_and!; [| | |done].
    - by destruct (qt_role _ _ H24) as [->|?].
    - by rewrite (qt_failed _ _ H14).
    - unfold term_of, n_state in *. by rewrite (qt_store _ _ H14). }
  destruct (N.ltb_spec (term_of n) term) as [Hlt|Hge].
  - apply persist_traced; [done|by constructor|..].
    + intros s' Hs Ht _. cbn [negb]. apply wp_bind, wp_modify. apply wp_bind, wp_modify.
      apply (Hrest (set_role follower (set_nstore s' n))); [|by apply quiet_same|done|done|].
      * apply moves_one. by eapply mv_term.
      * unfold term_of, n_state in *. cbn. rewrite Ht. lia.
    + intros n' Hm _ _. cbn [negb]. by apply wp_ret.
  - apply wp_ret. cbn [negb]. apply wp_bind, wp_modify. apply wp_bind, wp_modify.
    apply (Hrest n); [reflexivity| |done|done|lia].
    transitivity (set_role follower n); [apply quiet_follower|by apply quiet_same].
Qed.

(** *** Applying and compacting *)

Lemma traced_maybeSnapshot n : n_failed n = None ∨ n_role n ≠ leader →
  wp True maybeSnapshotLocked (λ _ n', moves n n') n.
Proof using Type.
  intros Hf. unfold maybeSnapshotLocked. apply wp_bind, wp_get.
  destruct (_ || _) eqn:Hc; [apply wp_ret; reflexivity|].
  apply orb_false_iff in Hc as [_ Hr]. apply bool_decide_eq_false in Hr.
  assert (n_failed n = None) as Hnf by (by destruct Hf).
  destruct (existsb _ _); [apply wp_ret; reflexivity|].
  apply wp_bind, wp_zoom. unfold wp at 1.
  destruct (store_checkpoint _ _ _) as [[err s']|] eqn:Hck; [|done]. destruct err as [err|].
  - apply wp_bind, wp_modify. apply wp_bind, wp_modify. apply wp_bind, wp_modify.
    assert (hush quiet (failPendingLocked ErrUnavailable ;; emitLocked "DISK_ERROR" 0 "" "" ""
      : M (Node J) unit)) as Hh by hush.
    mono Hh. intros _ n2 H2. eapply moves_then_quiet; [by eapply moves_one, mv_snapfail|].
    etransitivity; [|exact H2]. by apply quiet_same.
  - assert (hush quiet (n ← get; emitLocked "SNAPSHOT_CREATED" (ds_base (n_state n)) "" "" ""
      : M (Node J) unit)) as Hh by hush.
    mono Hh. intros _ n2 H2. eapply moves_then_quiet; [by eapply moves_one, mv_snapshot|done].
Qed.

(** What follows the execution of an entry: its waiter is sent the answer. *)
Lemma answer_wp m e out n1 :
  n_machine n1 = apply_entry m e →
  out = answer m e (mkWaiter None 0) →
  wp True (n ← get;
    match n_pending n !! n_applied n with
    | None => mret tt
    | Some w =>
      let out :=
        match w_readKey w with
        | None => out
        | Some key =>
          let '(value, found) := Get (n_machine n) key in
          mkOutcome (mkResult value found (r_Applied (o_result out)) (r_Conflict (o_result out)))
            (o_err out)
        end in
      send (w_done w) out ;;
      modify (set_pending (delete (n_applied n) (n_pending n)))
    end)
    (λ _ n2, untended n2 = untended n1 ∧ n_newchan n2 = n_newchan n1 ∧
       (∀ i w, n_pending n2 !! i = Some w → n_pending n1 !! i = Some w) ∧
       ∀ c out, n_chans n2 !! c = Some (Some out) → n_chans n1 !! c = Some (Some out) ∨
         ∃ w, n_pending n1 !! n_applied n1 = Some w ∧ w_done w = c ∧ out = answer m e w) n1.
Proof using HJ.
  intros Hm ->. apply wp_bind, wp_get. destruct (n_pending n1 !! n_applied n1) as [w|] eqn:Hw.
  2: { apply wp_ret. split_and!; auto. }
  cbv zeta. apply wp_bind. unfold send. apply wp_bind, wp_get.
  destruct (n_chans n1 !! w_done w) as [[?|]|]; try done.
  apply wp_modify, wp_modify. split_and!; [done|done| |]; cbn.
  - by intros i v [_ Hi]%lookup_delete_Some.
  - intros c out [[<- [= <-]]|[_ Ho]]%lookup_insert_Some; [right|by left]. exists w. split_and!; [done..|].
    unfold answer. rewrite Hm. destruct (w_readKey w); done.
Qed.

Lemma apply_one_traced n :
  n_applied n < commit_of n →
  wp True apply_one (λ _ n', moves n n' ∧ n_failed n' = n_failed n) n.
Proof using HJ.
  intros Hlt. unfold apply_one. apply wp_bind, wp_get. apply wp_bind, wp_modify. apply wp_bind, wp_get.
  apply wp_bind, wp_lift; [done|]. intros e He. cbn [n_applied set_applied] in He.
  apply wp_bind, emit_wp. intros evs rd.
  set (n1 := set_machine (apply_entry (n_machine n) e) (set_applied (add64 (n_applied n) 1) n)).
  apply wp_bind. eapply (wp_mono _ _ (λ out n2, tracked n2 = tracked n1 ∧ out = answer (n_machine n) e (mkWaiter None 0))).
  { unfold n1, apply_entry, answer. destruct (e_Command e) as [c|]; [|by apply wp_ret].
    apply wp_bind, wp_get. cbn [n_machine set_events set_reads set_applied].
    destruct (Apply (n_machine n) c) as [m [result err]] eqn:Ha.
    apply wp_bind, wp_modify, wp_ret. by split. }
  cbn beta. intros out n2 [H2 Hout]. destruct (tracked_same _ _ H2) as [Hu2 _]. unfold tracked in H2. injection H2 as E1 E2 E3 E4 E5 E6 E7 E8 E9 E10 E11 E12 E13 E14.
  eapply wp_mono; [apply (answer_wp (n_machine n) e out n2); [exact E6|exact Hout]|].
  cbn beta. intros [] n3 (Hu&Hn&Hp&Hc).
  assert (untended n3 = untended n1) as Hu1 by congruence.
  split; [|unfold untended in Hu1; injection Hu1 as _ _ _ -> _ _ _ _ _ _ _; done].
  apply moves_one, (mv_apply ev n e); [done|done|]. split.
  - exact Hu1.
  - rewrite Hn, E14. done.
  - intros i w Hi. apply Hp in Hi. by rewrite E12 in Hi.
  - intros c o Ho. destruct (Hc c o Ho) as [Ho'|(w&Hw&Hd&Hans)]; [left; by rewrite E13 in Ho'|right].
    exists w. rewrite E12, E5 in Hw. done.
Qed.

Lemma apply_loop_traced fuel n :
  wp True (apply_loop fuel) (λ _ n', moves n n' ∧ n_failed n' = n_failed n) n.
Proof using Type.
  revert n. induction fuel as [|fuel IH]; intros n; cbn [apply_loop]; [by apply wp_ret|].
  apply wp_bind, wp_get. fold (commit_of n). destruct (N.ltb_spec (n_applied n) (commit_of n)); [|by apply wp_ret].
  apply wp_bind. eapply wp_mono; [by apply apply_one_traced|]. intros [] n1 [H1 Hf1].
  mono IH. intros _ n2 [H2 Hf2]. split; [by etransitivity|congruence].
Qed.

Lemma applyLocked_traced n : n_failed n = None → wp True applyLocked (λ _ n', moves n n') n.
Proof using Type.
  intros Hf. unfold applyLocked. apply wp_bind, wp_get. apply wp_bind. mono apply_loop_traced.
  intros _ n1 [H1 Hf1]. eapply wp_mono; [apply traced_maybeSnapshot; left; congruence|].
  intros [] n2 H2. by etransitivity.
Qed.

(** *** The leader *)

Lemma traced_queueAppend peer : traced (queueAppendLocked peer).
Proof using Type.
  unfold queueAppendLocked. apply traced_get. intros n. destruct (_ || _ || _) eqn:Hc; [apply wp_ret; reflexivity|].
  apply orb_false_iff in Hc as [_ Hr]. apply bool_decide_eq_false, dec_stable in Hr.
  apply wp_bind. pose proof (hush_prepareAppend quiet peer n) as Hq. unfold wp in Hq at 1. unfold wp at 1.
  destruct (prepareAppendLocked peer n) as [[req n1]|] eqn:Hp; [|done].
  apply wp_bind, wp_get. apply wp_bind, wp_modify, wp_modify.
  set (m := mkMessage _ _ _ _ _). set (n2 := set_busy _ n1).
  transitivity (set_outbox (n_outbox n ++ [m]) n); [by eapply moves_one, (mv_send ev n peer m req n1)|].
  apply moves_quiet. split; try by apply Hq.
  - intros x Hx. change (n_outbox (set_outbox (n_outbox n2 ++ [m]) n2)) with (n_outbox n1 ++ [m]) in Hx.
    cbn. apply elem_of_app in Hx as [Hx|Hx]; apply elem_of_app; [left; by apply Hq|by right].
  - destruct (qt_tended _ _ Hq). by split.
Qed.

Lemma traced_kick : traced kickLocked.
Proof using Type.
  unfold kickLocked. apply traced_get. intros n. destruct (rt_Manual _).
  - apply traced_for_each. intros p. apply traced_queueAppend.
  - apply wp_modify. by apply moves_quiet, quiet_same.
Qed.

Lemma traced_advanceCommit : traced advanceCommitLocked.
Proof using Type.
  unfold advanceCommitLocked. apply traced_get. intros n. destruct (_ || _) eqn:Hc; [apply wp_ret; reflexivity|].
  apply orb_false_iff in Hc as [Hr Hav]. apply bool_decide_eq_false, dec_stable in Hr.
  apply negb_false_iff, available_failed in Hav.
  apply wp_bind, wp_lift; [done|]. intros [index|] Hci; [|apply wp_ret; reflexivity].
  eapply persist_then; [reflexivity|done|by apply for_commit|..].
  - intros n' Hm _ _. by apply wp_ret.
  - intros s' Hm. apply wp_when; [intros _|done]. apply wp_bind, emit_wp. intros evs rd. apply wp_bind.
    eapply wp_mono; [by apply applyLocked_traced|]. intros [] n2 H2.
    apply (traced_from ev kickLocked); [|apply traced_kick]. etransitivity; [exact Hm|].
    etransitivity; [|exact H2]. by apply moves_quiet, quiet_same.
Qed.

Lemma becomeLeader_traced n :
  n_failed n = None → n_role n = candidate → (half n < size (n_votes n))%nat →
  wp True becomeLeaderLocked (λ _ n', moves n n') n.
Proof using Type.
  intros Hf Hr Hm. unfold becomeLeaderLocked. apply wp_bind, wp_modify. apply wp_bind, wp_get.
  apply wp_bind, wp_modify. apply wp_bind, emit_wp. intros evs rd. apply wp_bind, wp_get.
  match goal with |- wp _ _ _ ?x => set (na := x) end.
  assert (tracked na = tracked (set_role leader n)) as Hna by exact eq_refl. clearbody na.
  apply wp_bind, wp_modify. apply wp_bind, wp_modify. apply wp_bind, wp_get. cbv zeta.
  match goal with |- wp _ _ _ ?x => set (n1 := x) end.
  set (n0 := set_match (((λ _, 0) <$> n_peers n) ∪ n_match n) (set_role leader n)).
  assert (tracked n1 = tracked n0) as Hn1.
  { unfold tracked in *. injection Hna as E1 E2 E3 E4 E5 E6 E7 E8 E9 E10 E11 E12 E13 E14.
    cbn [n1 n0 n_cfg n_peers n_store n_failed n_applied n_machine n_votes n_role n_match n_outbox n_calls n_pending n_chans n_newchan
      set_match set_next set_role] in *. congruence. }
  clearbody n1.
  assert (moves n n1) as H1.
  { etransitivity; [by apply moves_one, mv_elect|]. by apply moves_quiet, quiet_same. }
  assert (n_failed n1 = None ∧ n_role n1 = leader) as [Hf1 Hr1].
  { unfold tracked in Hn1. injection Hn1 as _ _ _ -> _ _ _ -> _ _ _ _ _ _. done. }
  eapply persist_then; [exact H1|done|by apply (for_append ev n1 None)|..].
  - intros n' Hm' _ _. by apply wp_ret.
  - intros s' Hm'. apply wp_when; [intros _|done]. apply wp_bind, wp_get. apply wp_bind, wp_modify.
    apply wp_bind. apply (wp_mono _ _ (λ _ n', moves n n')).
    2: { intros _ n2 H2. apply traced_from; [done|apply traced_kick]. }
    apply traced_from; [|apply traced_advanceCommit]. etransitivity; [exact Hm'|].
    apply moves_quiet. split; try done; [by left| |by apply tended_same]. intros id Hid. unfold match_of. cbn.
    by rewrite lookup_insert_ne.
Qed.
(** *** Elections *)

(** The request every peer is sent, but for the message's name. *)
Record vote_of_log n (req : VoteRequest) : Prop := {
  vl_role : n_role n = candidate;
  vl_candidate : vq_CandidateID req = cfg_ID (n_cfg n);
  vl_term : vq_Term req = term_of n;
  vl_last : vq_LastLogIndex req = lastLocked n;
  vl_last_term : ∃ e, entryLocked n (lastLocked n) = Some e ∧ vq_LastLogTerm req = e_Term e;
}.

(** What the sending of requests leaves alone. *)
Definition constant n := (n_cfg n, n_peers n, n_store n, n_role n).

Lemma vote_of_log_same n n' req : constant n' = constant n → vote_of_log n req → vote_of_log n' req.
Proof using Type.
  unfold constant. intros [= E1 E2 E3 E4] [V0 V1 V2 V3 V4].
  split; unfold term_of, lastLocked, entryLocked, n_state in *; rewrite ?E1, ?E3, ?E4; done.
Qed.

Lemma send_vote_traced req peer n :
  vote_of_log n req → is_Some (n_peers n !! p_ID peer) →
  wp True (send_vote req peer) (λ _ n', moves n n' ∧ constant n' = constant n) n.
Proof using Type.
  intros [V0 V1 V2 V3 V4] Hp. unfold send_vote, next_sequence. apply wp_bind. apply wp_bind, wp_get.
  apply wp_bind, wp_modify, wp_gets. apply wp_bind, wp_get. cbv zeta.
  set (request := mkVoteRequest _ _ _ _ _ _). apply wp_bind, emit_wp. intros evs rd.
  apply wp_bind, wp_get. cbn [n_rt set_events set_reads set_sequence]. destruct (rt_Manual _); apply wp_modify.
  - set (m := mkMessage _ _ _ _ _). split; [|done].
    transitivity (set_outbox (n_outbox n ++ [m]) n); [|by apply moves_quiet, quiet_same].
    apply moves_one, (mv_ask ev n m request); [done|done|by split].
  - split; [|done].
    transitivity (set_calls (n_calls n ++ [(peer, request)]) n); [|by apply moves_quiet, quiet_same].
    apply moves_one, mv_call; [done|by split].
Qed.

Lemma send_votes_traced req ps n :
  vote_of_log n req → (∀ p, p ∈ ps → is_Some (n_peers n !! p_ID p)) →
  wp True (for_each (send_vote req) ps) (λ _ n', moves n n' ∧ constant n' = constant n) n.
Proof using Type.
  intros Hv Hps. apply (wp_for_each True _ (λ n', moves n n' ∧ constant n' = constant n)); [|done].
  intros p n1 Hp [H1 Hc]. eapply wp_mono; [apply send_vote_traced|].
  - by eapply vote_of_log_same.
  - unfold constant in Hc. injection Hc as _ -> _ _. by apply Hps.
  - intros [] n2 [H2 Hc2]. split; [by etransitivity|congruence].
Qed.

Lemma startElection_traced n :
  n_failed n = None → peers_listed n → wp True startElectionLocked (λ _ n', moves n n') n.
Proof using Type.
  intros Hf Hpl. unfold startElectionLocked. apply wp_bind, wp_get. apply wp_bind. fold (term_of n).
  apply persist_traced; [done|apply att_campaign|..].
  2: { intros n' Hm _ _. by apply wp_ret. }
  intros s' Hs Ht _. cbn [negb]. apply wp_bind, wp_modify. apply wp_bind, wp_modify.
  apply wp_bind, resetTimer_wp. intros dl dr rd. apply wp_bind, wp_get. apply wp_bind, wp_modify.
  match goal with |- wp _ _ _ ?x => set (na := x) end.
  set (n0 := set_votes {[ cfg_ID (n_cfg n) := true ]} (set_role candidate (set_nstore s' n))).
  assert (tracked na = tracked n0) as Hna by exact eq_refl.
  assert (move ev n n0) as H0 by (by apply mv_campaign).
  assert (n_role n0 = candidate ∧ term_of n0 = add64 (term_of n) 1 ∧ cfg_ID (n_cfg n0) = cfg_ID (n_cfg n) ∧
    others n0 = others n ∧ n_peers n0 = n_peers n ∧ n_failed n0 = None) as (Hr0&Ht0&Hid&Ho&Hpe&Hf0) by done.
  clearbody na n0. apply wp_bind, emit_wp. intros evs rd2. apply wp_bind, wp_get.
  match goal with |- wp _ _ _ ?x => set (n2 := x) end.
  assert (tracked n2 = tracked n0) as Hn2 by (rewrite <-Hna; exact eq_refl). clearbody n2.
  assert (moves n n2) as Hm by (etransitivity; [by apply moves_one|by apply moves_quiet, quiet_same]).
  assert (constant n2 = constant n0 ∧ n_failed n2 = n_failed n0) as [Hc2 Hf2].
  { unfold tracked, constant in *. injection Hn2 as -> -> -> -> _ _ _ -> _ _ _ _ _ _. done. }
  unfold constant in Hc2. injection Hc2 as C1 C2 C3 C4.
  destruct (Nat.ltb_spec (half n2) (size (n_votes n2))) as [Hlt|Hge].
  - eapply wp_mono; [apply becomeLeader_traced; [congruence..|done]|].
    intros [] n3 H3. by etransitivity.
  - apply wp_bind, wp_lift; [done|]. intros e He. eapply wp_mono; [apply send_votes_traced|].
    + split; cbn; [congruence|by rewrite C1| |done|by exists e].
      unfold term_of, n_state in *. by rewrite C3.
    + intros p. unfold others. rewrite C1, C2, Hpe. fold (others n0). rewrite Ho.
      intros [_ Hp]%list_elem_of_filter. by apply Hpl.
    + intros [] n3 [H3 _]. by etransitivity.
Qed.

Lemma voteResponse_traced peer req resp err :
  vr_Term resp < two64 →
  (err = None → vr_Granted resp = true → vr_Term resp = vq_Term req →
     ev_ballot ev (p_ID peer) (vq_Term req)) →
  traced (voteResponseLocked peer req resp err).
Proof using Type.
  intros Ht64 Hev n. unfold voteResponseLocked. apply wp_bind, wp_get.
  destruct (_ || _) eqn:Hc; [apply wp_ret; reflexivity|].
  apply orb_false_iff in Hc as [Hav He]. apply bool_decide_eq_false, dec_stable in He.
  apply negb_false_iff, available_failed in Hav.
  apply wp_bind, emit_wp. intros evs rd. apply wp_bind, wp_get. set (n1 := set_events _ _).
  assert (tracked n1 = tracked n) as Hn1 by done.
  assert (moves n n1) as H1 by (by apply moves_quiet, quiet_same).
  assert (n_failed n1 = None) as Hf1 by exact Hav. clearbody n1.
  destruct (_ <? _).
  { apply wp_bind. eapply wp_mono; [by apply stepDown_traced|]. intros ok n2 [H2 _]. apply wp_ret.
    by etransitivity. }
  destruct (bool_decide (n_role n1 ≠ candidate)) eqn:Hr; [by apply wp_ret|].
  destruct (N.eqb_spec (ds_term (n_state n1)) (vq_Term req)) as [Ht|]; [|by apply wp_ret].
  destruct (N.eqb_spec (vr_Term resp) (vq_Term req)) as [Ht'|]; [|by apply wp_ret].
  cbn [negb orb]. apply bool_decide_eq_false, dec_stable in Hr.
  apply wp_when; [|done]. intros Hg. apply wp_bind, wp_modify. apply wp_bind, wp_get.
  set (n2 := set_votes _ n1).
  assert (move ev n1 n2) as H2.
  { apply mv_ballot; [done|]. unfold term_of. rewrite Ht. by apply Hev. }
  assert (n_role n2 = candidate) as Hr2 by exact Hr. assert (n_failed n2 = None) as Hf2 by exact Hf1.
  clearbody n2. assert (moves n n2) as H02 by (etransitivity; [exact H1|by apply moves_one]).
  apply wp_when; intros Hm; [|done]. apply Nat.ltb_lt in Hm.
  eapply wp_mono; [by apply becomeLeader_traced|]. intros [] n3 H3. by etransitivity.
Qed.

(** *** Handlers *)

Lemma RequestVote_traced req :
  vq_Term req < two64 → ev_vote ev req → traced (RequestVote req).
Proof using Type.
  intros Ht64 Hev n. unfold RequestVote. apply wp_bind, wp_get.
  destruct (availableLocked n) eqn:Hav; cbn [negb]; [|apply (traced_hush ev), (hush_vote_response quiet)].
  destruct (member n _ _) eqn:Hmem; cbn [negb]; [|apply (traced_hush ev), (hush_vote_response quiet)].
  apply available_failed in Hav. unfold member in Hmem. apply andb_true_iff in Hmem as [Hmem _].
  apply andb_true_iff in Hmem as [Hmem _]. apply bool_decide_eq_true in Hmem.
  apply wp_bind, emit_wp. intros evs rd. set (n1 := set_events _ _).
  assert (tracked n1 = tracked n) as Hn1 by done.
  assert (moves n n1) as H1 by (by apply moves_quiet, quiet_same).
  assert (n_failed n1 = None) as Hf1 by exact Hav.
  assert (term_of n1 = term_of n) as Ht1 by exact eq_refl.
  assert (n_peers n1 = n_peers n) as Hp1 by exact eq_refl. clearbody n1.
  assert (∀ b err n2, moves n n2 → wp True (vote_response b err) (λ _ n', moves n n') n2) as Hresp.
  { intros b err n2 H2. apply traced_from; [done|]. apply traced_hush, (hush_vote_response quiet). }
  case_bool_decide; [by apply Hresp|]. fold (term_of n).
  destruct (N.ltb_spec (vq_Term req) (term_of n)) as [|Hge]; [by apply Hresp|].
  assert (∀ n2, moves n n2 → n_failed n2 = None → term_of n2 = vq_Term req → n_peers n2 = n_peers n →
    wp True (n ← get;
      lastEntry ← lift (entryLocked n (lastLocked n));
      let vote := ds_vote (n_state n) in
      let upToDate := (e_Term lastEntry <? vq_LastLogTerm req) ||
        (vq_LastLogTerm req =? e_Term lastEntry) && (e_Index lastEntry <=? vq_LastLogIndex req) in
      if upToDate && (bool_decide (vote = "") || bool_decide (vote = vq_CandidateID req)) then
        ok ← (if bool_decide (vote = "")
              then persistLocked (vq_Term req) (vq_CandidateID req) (ds_commit (n_state n)) 0 []
              else mret true);
        if negb ok then vote_response false (Some ErrUnavailable)
        else
          resetTimerLocked ;;
          emitLocked "VOTE_GRANTED" 0 (vq_CandidateID req) (vq_MessageID req) "" ;;
          vote_response true None
      else vote_response false None) (λ _ n', moves n n') n2) as Hrest.
  { intros n2 H2 Hf2 Ht2 Hp2. apply wp_bind, wp_get. apply wp_bind, wp_lift; [done|]. intros e He. cbv zeta.
    destruct (_ && _) eqn:Hup; [|by apply Hresp]. apply andb_true_iff in Hup as [Hup _].
    assert (hush quiet (resetTimerLocked ;;
        emitLocked "VOTE_GRANTED" 0 (vq_CandidateID req) (vq_MessageID req) "" ;;
        vote_response true None : M (Node J) _)) as Hgrant by hush.
    assert (∀ n3, moves n n3 → wp True (resetTimerLocked ;;
        emitLocked "VOTE_GRANTED" 0 (vq_CandidateID req) (vq_MessageID req) "" ;;
        vote_response true None) (λ _ n', moves n n') n3) as Hend.
    { intros n3 H3. apply traced_from; [done|]. by apply traced_hush. }
    fold (vote_of n2). case_bool_decide as Hv; [|apply wp_bind, wp_ret; cbn [negb]; by apply Hend].
    eapply persist_then; [exact H2|done|apply for_vote; try done|..].
    - exists e. split; [done|]. apply orb_true_iff in Hup as [Hup|Hup].
      + left. by apply N.ltb_lt in Hup.
      + right. apply andb_true_iff in Hup as [E1 E2]. by apply N.eqb_eq in E1; apply N.leb_le in E2.
    - by rewrite Hp2.
    - intros n3 H3 _ _. cbn [negb]. by apply Hresp.
    - intros s' H3. cbn [negb]. by apply Hend. }
  apply wp_bind. destruct (N.ltb_spec (term_of n) (vq_Term req)) as [Hlt|Hle].
  - pose proof (stepDown_traced (vq_Term req) "" n1 Hf1 Ht64) as Hsd. unfold wp in Hsd at 1. unfold wp at 1.
    destruct (stepDownLocked _ _ n1) as [[ok n2]|] eqn:Hrun; [|done]. destruct Hsd as [H2 Hok].
    assert (moves n n2) as H02 by (by etransitivity).
    destruct ok; cbn [negb]; [|by apply Hresp]. destruct (Hok eq_refl) as (_&?&Ht2&_).
    apply Hrest; [done|done|lia|]. rewrite <-Hp1. by apply (moves_static ev).
  - apply wp_ret. cbn [negb]. apply Hrest; [done|done|lia|done].
Qed.
Lemma new_entries_store n n' req i es :
  n_store n' = n_store n → new_entries n' req i es = new_entries n req i es.
Proof using Type.
  intros E. revert i. induction es as [|e es IH]; intros i; cbn [new_entries]; [done|].
  unfold lastLocked, entryLocked, n_state in *. rewrite E, !IH. done.
Qed.

(** The part of [AppendEntries] after the consistency check. *)
Lemma append_entries_traced req n :
  ev_append ev req → n_failed n = None → n_role n = follower → n_pending n = ∅ →
  term_of n = aq_Term req → (∃ p, entryLocked n (aq_PrevLogIndex req) = Some p ∧ e_Term p = aq_PrevLogTerm req) →
  base_of n ≤ aq_PrevLogIndex req → aq_PrevLogIndex req ≤ lastLocked n →
  wp True (append_entries req) (λ _ n', moves n n') n.
Proof using Type.
  intros Hev Hf Hr Hpend Ht Hp Hb Hl. unfold append_entries. apply wp_bind, wp_get.
  apply wp_bind, wp_lift; [done|]. intros [err|[from entries]] Hnew; [apply (traced_hush ev), (hush_append_response quiet)|].
  cbv zeta. fold (commit_of n). destruct (_ && _) eqn:Hfrom; [apply (traced_hush ev), (hush_append_response quiet)|].
  destruct (_ || _).
  2: { apply wp_bind, wp_get, wp_ret. reflexivity. }
  set (commit := if commit_of n <? aq_LeaderCommit req then _ else _).
  assert (accepting ev n req from entries commit) as Hag.
  { split; try done. apply andb_false_iff in Hfrom as [Hfrom|Hfrom].
    - left. by apply negb_false_iff, N.eqb_eq in Hfrom.
    - right. by apply N.leb_gt in Hfrom. }
  clearbody commit. apply wp_bind.
  assert (∀ n1, tracked n1 = tracked n → wp True
    (ok ← persistLocked (ds_term (n_state n)) (ds_vote (n_state n)) commit from entries;
     if negb ok then append_response (Some ErrUnavailable)
     else applyLocked ;; n ← get; mret (mkAppendResponse (ds_term (n_state n)) true
       (add64 (aq_PrevLogIndex req) (lenN (aq_Entries req))) 0, None)) (λ _ n', moves n n') n1) as Hrest.
  { intros n1 Hn1. assert (n_store n1 = n_store n ∧ n_failed n1 = None ∧ n_role n1 = follower ∧
      n_pending n1 = ∅) as (Es&Hf1&Hr1&Hp1).
    { unfold tracked in Hn1. injection Hn1 as _ _ -> -> _ _ _ -> _ _ _ -> _ _. done. }
    assert (n_state n1 = n_state n) as Est by (unfold n_state; by rewrite Es). rewrite <-Est.
    eapply persist_then; [by apply moves_quiet, quiet_same|done|apply (for_accept ev n1 req); [|done|done]|..].
    - destruct Hag. split; unfold term_of, commit_of, base_of, entryLocked, lastLocked in *;
        rewrite ?Est, ?Es; try done. by rewrite (new_entries_store n).
    - intros n2 H2 _ _. cbn [negb]. apply traced_from; [done|]. apply traced_hush, (hush_append_response quiet).
    - intros s' H2. cbn [negb]. apply wp_bind. eapply wp_mono; [by apply applyLocked_traced|].
      intros [] n3 H3. apply wp_bind, wp_get, wp_ret. by etransitivity. }
  apply wp_when; intros _; [apply emit_wp; intros evs rd|]; by apply Hrest.
Qed.

Lemma AppendEntries_traced req :
  aq_Term req < two64 → ev_append ev req → traced (AppendEntries req).
Proof using Type.
  intros Ht64 Hev n. unfold AppendEntries. apply wp_bind, wp_get.
  destruct (availableLocked n) eqn:Hav; cbn [negb]; [|apply (traced_hush ev), (hush_append_response quiet)].
  destruct (_ || _); [apply (traced_hush ev), (hush_append_response quiet)|].
  apply available_failed in Hav. apply wp_bind, emit_wp. intros evs rd. set (n1 := set_events _ _).
  assert (moves n n1) as H1 by (by apply moves_quiet, quiet_same).
  assert (n_failed n1 = None) as Hf1 by exact Hav.
  assert (term_of n1 = term_of n) as Ht1 by exact eq_refl. clearbody n1.
  assert (∀ err n2, moves n n2 → wp True (append_response err) (λ _ n', moves n n') n2) as Hresp.
  { intros err n2 H2. apply traced_from; [done|]. apply traced_hush, (hush_append_response quiet). }
  fold (term_of n). destruct (N.ltb_spec (aq_Term req) (term_of n)) as [|Hge]; [by apply Hresp|].
  apply wp_bind. eapply wp_mono; [by apply stepDown_traced|]. intros ok n2 [H2 Hok].
  assert (moves n n2) as H02 by (by etransitivity).
  destruct ok; cbn [negb]; [|by apply Hresp]. destruct (Hok eq_refl) as (Hr2&Hf2&Ht2&Hp2).
  apply wp_bind, resetTimer_wp. intros dl dr rd2. apply wp_bind, wp_get. set (n3 := set_deadline _ _).
  assert (moves n2 n3) as H23 by (by apply moves_quiet, quiet_same).
  assert (n_role n3 = follower) as Hr3 by exact Hr2. assert (n_pending n3 = ∅) as Hp3 by exact Hp2. assert (n_failed n3 = None) as Hf3 by exact Hf2.
  assert (term_of n3 = term_of n2) as Ht3 by exact eq_refl. clearbody n3.
  assert (moves n n3) as H03 by (by etransitivity).
  destruct (N.ltb_spec (lastLocked n3) (aq_PrevLogIndex req)) as [|Hlast]; [by apply Hresp|].
  assert (∀ c, wp True (append_conflict c) (λ _ n', moves n n') n3) as Hconf.
  { intros c. apply traced_from; [done|]. apply traced_hush, (hush_append_conflict quiet). }
  fold (base_of n3). destruct (N.ltb_spec (aq_PrevLogIndex req) (base_of n3)) as [|Hbase]; [by apply Hconf|].
  apply wp_bind, wp_lift; [done|]. intros p Hp.
  destruct (N.eqb_spec (e_Term p) (aq_PrevLogTerm req)) as [Hpt|]; cbn [negb].
  - eapply wp_mono; [apply append_entries_traced; try done|].
    + rewrite Ht3. lia.
    + by exists p.
    + intros r n4 H4. by etransitivity.
  - apply wp_bind, wp_lift; [done|]. intros c _. by apply Hconf.
Qed.

Lemma acceptAppend_traced peer req resp err :
  ar_Term resp < two64 →
  (err = None → ar_Success resp = true → ar_Term resp = aq_Term req →
     ev_match ev (p_ID peer) (aq_Term req) (add64 (aq_PrevLogIndex req) (lenN (aq_Entries req)))) →
  traced (acceptAppendLocked peer req resp err).
Proof using Type.
  intros Ht64 Hev n. unfold acceptAppendLocked. apply wp_bind, wp_get.
  destruct (availableLocked n) eqn:Hav; cbn [negb]; [|apply wp_ret; reflexivity].
  apply available_failed in Hav. apply wp_bind.
  assert (∀ n1, moves n n1 → n_failed n1 = None → wp True (
    n ← get;
    let term := ds_term (n_state n) in
    if bool_decide (err = None) && (term <? ar_Term resp)
    then _ ← stepDownLocked (ar_Term resp) ""; mret false
    else if bool_decide (err ≠ None) || bool_decide (n_role n ≠ leader) ||
            negb (term =? aq_Term req) || negb (ar_Term resp =? aq_Term req)
    then mret false
    else if ar_Success resp then
      let matched := add64 (aq_PrevLogIndex req) (lenN (aq_Entries req)) in
      let m := N.max (match_of n (p_ID peer)) matched in
      modify (set_match (<[p_ID peer := m]> (n_match n))) ;;
      modify (set_next (<[p_ID peer := add64 m 1]> (n_next n))) ;;
      advanceCommitLocked ;;
      maybeSnapshotLocked ;;
      n ← get; mret (next_of n (p_ID peer) <=? lastLocked n)
    else
      let next := add64 (aq_PrevLogIndex req) 1 in
      if next <=? 1 then mret false
      else
        modify (set_next (<[p_ID peer := N.max 1 (N.min (sub64 next 1) (ar_ConflictIndex resp))]>
                            (n_next n))) ;;
        mret true) (λ _ n', moves n n') n1) as Hrest.
  { intros n1 H1 Hf1. apply wp_bind, wp_get. cbv zeta. destruct (_ && _).
    { apply wp_bind. eapply wp_mono; [by apply stepDown_traced|]. intros ok n2 [H2 _]. apply wp_ret.
      by etransitivity. }
    destruct (_ || _) eqn:Hc; [by apply wp_ret|]. apply orb_false_iff in Hc as [Hc ?]. apply orb_false_iff in Hc as [Hc ?].
    apply orb_false_iff in Hc as [Hc Hrole]. apply bool_decide_eq_false, dec_stable in Hrole.
    apply bool_decide_eq_false, dec_stable in Hc.
    assert (term_of n1 = aq_Term req) as Ht by (by apply N.eqb_eq, negb_false_iff).
    assert (ar_Term resp = aq_Term req) as Ht' by (by apply N.eqb_eq, negb_false_iff).
    destruct (ar_Success resp) eqn:Hs.
    2: { destruct (_ <=? _); [by apply wp_ret|]. apply wp_bind, wp_modify, wp_ret.
         eapply moves_then_quiet; [done|by apply quiet_same]. }
    apply wp_bind, wp_modify. apply wp_bind, wp_modify.
    match goal with |- wp _ _ _ ?x => set (n2 := x) end.
    assert (moves n1 n2) as H2.
    { etransitivity; [eapply moves_one, (mv_match ev n1 (p_ID peer)); [done|]|by apply moves_quiet, quiet_same].
      rewrite Ht. by apply Hev. }
    assert (n_failed n2 = None) as Hf2 by exact Hf1.
    clearbody n2. apply wp_bind. mono traced_advanceCommit. intros [] n3 H3.
    apply wp_bind. eapply wp_mono; [apply traced_maybeSnapshot|].
    - destruct (n_failed n3) eqn:Hf3; [right|by left].
      rewrite (moves_sick ev n2 n3); [done|done|by intros []|by rewrite Hf3].
    - intros [] n4 H4. apply wp_bind, wp_get, wp_ret. etransitivity; [exact H1|].
      etransitivity; [exact H2|]. by etransitivity. }
  destruct err; apply emit_wp; intros evs rd; apply Hrest; try done; by apply moves_quiet, quiet_same.
Qed.

Lemma DeliverVote_traced m resp err n :
  vr_Term resp < two64 →
  (∀ req, m_Vote m = Some req → err = None → vr_Granted resp = true → vr_Term resp = vq_Term req →
     ev_ballot ev (p_ID (peer_of n (m_To m))) (vq_Term req)) →
  wp True (DeliverVote m resp err) (λ _ n', moves n n') n.
Proof using Type.
  intros Ht64 Hev. unfold DeliverVote. apply wp_bind, wp_get.
  destruct (m_Vote m) as [req|]; [|apply wp_ret; reflexivity].
  apply voteResponse_traced; [done|]. intros. by apply Hev.
Qed.

Lemma vote_returns_traced i resp err n :
  vr_Term resp < two64 →
  (∀ peer req, n_calls n !! i = Some (peer, req) → err = None → vr_Granted resp = true →
     vr_Term resp = vq_Term req → ev_ballot ev (p_ID peer) (vq_Term req)) →
  wp True (vote_returns i resp err) (λ _ n', moves n n') n.
Proof using Type.
  intros Ht64 Hev. unfold vote_returns. apply wp_bind, wp_get.
  destruct (n_calls n !! i) as [[peer req]|] eqn:Hi; [|apply wp_ret; reflexivity].
  apply wp_bind, wp_modify. apply traced_from.
  - apply moves_quiet. split; try done; [by left| |by apply tended_same]. intros x Hx. cbn in Hx.
    rewrite <-(take_drop i (n_calls n)). apply elem_of_app in Hx as [Hx|Hx]; apply elem_of_app; [by left|right].
    rewrite (drop_S _ _ _ Hi). by right.
  - apply voteResponse_traced; [done|]. intros. by eapply Hev.
Qed.

Lemma DeliverAppend_traced m resp err n :
  ar_Term resp < two64 →
  (∀ req, m_Append m = Some req → err = None → ar_Success resp = true → ar_Term resp = aq_Term req →
     ev_match ev (p_ID (peer_of n (m_To m))) (aq_Term req)
       (add64 (aq_PrevLogIndex req) (lenN (aq_Entries req)))) →
  wp True (DeliverAppend m resp err) (λ _ n', moves n n') n.
Proof using Type.
  intros Ht64 Hev. unfold DeliverAppend. apply wp_bind, wp_get.
  destruct (m_Append m) as [req|]; [|apply wp_ret; reflexivity].
  destruct (negb _); [apply wp_ret; reflexivity|]. apply wp_bind, wp_modify. apply wp_bind.
  eapply wp_mono; [apply acceptAppend_traced; [done|]; intros; by apply Hev|].
  intros again n1 H1. apply wp_bind, wp_get.
  assert (moves n n1) as H01 by (etransitivity; [|exact H1]; by apply moves_quiet, quiet_same).
  apply wp_when; intros _; [|done]. apply (traced_from ev); [done|apply traced_queueAppend].
Qed.

(** *** Clients, the timer, the operator *)

Lemma submit_traced command readKey :
  (∀ c, command = Some c → rep_command c) → traced (submitLocked command readKey).
Proof using Type.
  intros Hrep. unfold submitLocked. apply traced_get. intros n. cbv zeta.
  destruct (availableLocked n) eqn:Hav; cbn [negb]; [|apply wp_ret; reflexivity].
  apply available_failed in Hav.
  destruct (bool_decide (n_role n ≠ leader)) eqn:Hr; [apply wp_ret; reflexivity|].
  apply bool_decide_eq_false, dec_stable in Hr.
  match goal with |- context [match ?x with Some err => mret (inl err) | None => _ end] =>
    destruct x eqn:Hval end; [apply wp_ret; reflexivity|].
  destruct (_ <=? _); [apply wp_ret; reflexivity|].
  eapply persist_then; [reflexivity|done|apply (for_append ev n command); [done|]|..].
  - intros c ->. split; [by apply Hrep|done].
  - intros n' Hm _ _. cbn [negb]. by apply wp_ret.
  - intros s' Hm. cbn [negb]. apply wp_bind. unfold make_chan. apply wp_bind, wp_get.
    apply wp_bind, wp_modify. apply wp_bind, wp_modify, wp_ret. apply wp_bind, wp_get.
    apply wp_bind, wp_modify. apply wp_bind, wp_modify. apply wp_bind, emit_wp. intros evs rd.
    match goal with |- wp _ _ _ ?x => set (n2 := x) end.
    set (n1 := registered (set_nstore s' n) (add64 (lastLocked n) 1) (n_newchan n) (mkWaiter readKey (n_newchan n))).
    assert (moves n n1) as H01 by (etransitivity; [exact Hm|by apply moves_one, (mv_await ev (set_nstore s' n))]).
    assert (quiet n1 n2) as H12.
    { split; try done; [by left| |by apply tended_same]. intros id Hid. unfold match_of. cbn. by rewrite lookup_insert_ne. }
    clearbody n2. assert (moves n n2) as H02 by (by eapply moves_then_quiet).
    apply wp_bind. mono traced_advanceCommit. intros [] n3 H3. apply wp_bind.
    mono traced_kick. intros [] n4 H4. apply wp_ret. etransitivity; [exact H02|]. by etransitivity.
Qed.

Lemma Tick_traced n : peers_listed n → wp True Tick (λ _ n', moves n n') n.
Proof using Type.
  intros Hpl. unfold Tick. apply wp_bind, wp_get.
  destruct (availableLocked n) eqn:Hav; cbn [negb]; [|apply wp_ret; reflexivity].
  apply available_failed in Hav. case_bool_decide; [apply traced_kick|].
  case_bool_decide; [|apply wp_ret; reflexivity].
  apply wp_bind. unfold now. apply wp_bind, wp_get. apply wp_bind, wp_modify, wp_ret.
  set (n1 := set_reads _ n). assert (moves n n1) as H1 by (by apply moves_quiet, quiet_same).
  apply wp_when; [intros _|done]. eapply wp_mono; [by apply startElection_traced|].
  intros [] n2 H2. by etransitivity.
Qed.

Lemma SetPaused_traced p : traced (SetPaused p).
Proof using Type.
  unfold SetPaused. apply traced_bind; [apply traced_hush; hush|intros _].
  apply traced_bind; [|intros _; apply traced_hush; hush].
  destruct p; [apply traced_hush; hush|].
  apply traced_bind; [apply traced_hush; hush|intros _; apply traced_kick].
Qed.

Lemma Close_traced : traced Close.
Proof using Type.
  unfold Close. apply traced_get. intros n. destruct (n_closed n); [apply wp_ret; reflexivity|].
  apply wp_bind, wp_modify. apply wp_bind. mono (hush_failPending quiet ErrUnavailable refusal_unavailable). intros [] n1 H1.
  apply wp_zoom, wp_zoom. unfold wp. destruct (j_close (st_wal (n_store n1))) as [err w] eqn:Hc.
  transitivity n1; [eapply moves_then_quiet; [|exact H1]; by apply moves_quiet, quiet_same|].
  pose proof (mv_close ev n1) as Hm. rewrite Hc in Hm. by apply moves_one.
Qed.

End methods.

(** ** Opening

    A node that is no fixed leader starts as a follower that has only applied
    what its store says is committed. *)

Section opening.
Context {J : Type} `{HJ : Journal J, HC : Codec record}.
Implicit Type n : Node J.

Definition still n := (n_cfg n, n_peers n, n_store n, n_role n, n_failed n, n_outbox n, n_calls n).
Definition idles n n' : Prop := still n' = still n.

#[export] Instance idles_coarse : Coarse idles.
Proof using Type.
  split.
  - split; unfold idles; [by intros n|]. intros n1 n2 n3 H1 H2. congruence.
  - unfold untended, idles, still. intros n n' [= -> -> -> -> _ _ _ -> _ -> ->] _. done.
Qed.

Lemma idles_apply_loop fuel : hush idles (apply_loop fuel : M (Node J) unit).
Proof using Type*.
  induction fuel as [|fuel IH]; cbn [apply_loop]; [hush|].
  apply (hush_bind idles); [hush|]. intros n. destruct (_ <? _); [|hush].
  apply (hush_bind idles); [|intros _; exact IH]. unfold apply_one, send. hush; cbv zeta; hush.
Qed.

Lemma start_node_idles n :
  n_role n = follower → cfg_FixedLeader (n_cfg n) ≠ cfg_ID (n_cfg n) →
  wp True start_node (λ _ n', idles n n') n.
Proof using Type*.
  intros Hr Hfl. unfold start_node, applyLocked. apply wp_bind. apply wp_bind, wp_get. apply wp_bind.
  mono idles_apply_loop. intros [] n1 H1.
  assert (n_role n1 = follower ∧ n_cfg n1 = n_cfg n) as [Hr1 Hc1].
  { unfold idles, still in H1. injection H1 as -> _ _ -> _ _ _. done. }
  unfold maybeSnapshotLocked. apply wp_bind, wp_get.
  rewrite (bool_decide_eq_true_2 (n_role n1 ≠ leader)), orb_true_r by congruence. apply wp_ret.
  apply wp_bind, resetTimer_wp. intros dl dr rd. apply wp_bind, wp_get. set (n2 := set_deadline _ _).
  assert (idles n n2) as H2 by (etransitivity; [|exact H1]; exact eq_refl).
  assert (n_cfg n2 = n_cfg n) as Hc2 by exact Hc1. clearbody n2.
  rewrite bool_decide_eq_false_2 by congruence. apply wp_bind, wp_ret. apply wp_bind, wp_get.
  destruct (n_failed n2); [by apply wp_ret|].
  apply wp_bind, wp_when; [intros _; apply wp_modify|intros _]; by apply wp_ret.
Qed.

End opening.
