(* ===== verification/NodeProps.v ===== *)
(** * NodeProps: the properties of a node

    The life of a node, across steps in any order and restarts after crashes:
    what it applies, what it promises its peers and its clients. *)

From stdpp Require Import base numbers list gmap strings fin_maps pretty relations sorting options.
From S2P Require Import Prelude Effects Bytes StateMachine Wal Journal Store Codec Events Node NodeInv.
From S2P Require Import NodeRPC NodeSteps NodeOpen.

Local Open Scope N_scope.
#[local] Set Default Proof Using "Type*".

Section props.
Context {J : Type} `{HJ : Journal J, HJL : !JournalLaws J, HC : Codec record, HCL : !CodecLaws}.
Context `{HP : Platform, HPL : !PlatformLaws}.
Implicit Type n : Node J.

(** ** Lives *)

(** One more event in the life of a node: a call or a change of the disk's
    faults; or the process ends, at any moment between two calls, and the node
    is opened again on the journal that is left. *)
Inductive later : Node J → Node J → Prop :=
  | later_step n n' : node_step n n' → later n n'
  | later_restart n n' cfg ht rt :
      typed_config cfg → identity_cfg cfg = st_identity (n_store n) →
      OpenWithRuntime cfg ht rt (st_wal (n_store n)) = Some (inr n') → later n n'.

(** A node that was opened on an empty journal once. *)
Inductive alive : Node J → Prop :=
  | alive_open cfg ht rt j n :
      typed_config cfg → j_holds j [] →
      OpenWithRuntime cfg ht rt j = Some (inr n) → alive n
  | alive_later n n' : alive n → later n n' → alive n'.

(** What any life of a node preserves. *)
Record outlived n n' : Prop := {
  ol_identity : st_identity (n_store n') = st_identity (n_store n);
  ol_extends : extends (n_state n) (n_state n');
  ol_applied : n_applied n ≤ n_applied n';
  ol_history : ∀ hist, explains hist n → ∃ more, explains (hist ++ more) n';
}.

#[local] Instance outlived_preorder : PreOrder outlived.
Proof using Type.
  split.
  - intros n. split; try done. intros hist H. exists []. by rewrite app_nil_r.
  - intros n1 n2 n3 [] []. split; [congruence|by etransitivity|lia|].
    intros hist H. destruct (ol_history0 hist H) as [m1 H1].
    destruct (ol_history1 _ H1) as [m2 H2]. exists (m1 ++ m2). by rewrite app_assoc.
Qed.

Lemma evolves_outlived n n' : evolves n n' → outlived n n'.
Proof using Type.
  intros He. split; [apply He|apply He|apply He|]. intros hist. by apply ev_explains.
Qed.

Lemma later_outlived n n' : quiescent n → later n n' → quiescent n' ∧ outlived n n'.
Proof.
  intros Hq Hl. destruct Hl as [n0 n1 Hs|n0 n1 cfg ht rt Hty Hid Hopen].
  - pose proof (node_step_post _ _ Hq Hs) as Hp. split; [split; [apply Hp|by apply (post_caught_up _ _ Hp), Hq]|].
    apply evolves_outlived, Hp.
  - pose proof (reopen True cfg ht rt n0 (proj1 Hq) Hty Hid (or_introl I)) as Hr. rewrite Hopen in Hr.
    destruct Hr as ([Hq' _ _ Hi He Ha Hh]&_&_). split; [done|by split].
Qed.

Lemma lives_outlived n n' : quiescent n → rtc later n n' → quiescent n' ∧ outlived n n'.
Proof.
  intros Hq. induction 1 as [n|n n1 n' Hs _ IH]; [done|].
  destruct (later_outlived n n1 Hq Hs) as [Hq1 Ho1]. destruct (IH Hq1) as [Hq' Ho'].
  split; [done|by etransitivity].
Qed.

Lemma alive_quiescent n : alive n → quiescent n ∧ ∃ hist, explains hist n.
Proof.
  induction 1 as [cfg ht rt j n Hty Hh Hopen|n n' _ [Hq [hist Hx]] Hl].
  - destruct (first_open cfg ht rt j n Hty Hh Hopen) as (?&_&_&_&?). done.
  - destruct (later_outlived n n' Hq Hl) as [Hq' Ho]. split; [done|].
    destruct (ol_history _ _ Ho hist Hx) as [more Hm]. by eexists.
Qed.

Lemma RequestVote_run req n resp err n' :
  Inv n → typed_vote req → RequestVote req n = Some ((resp, err), n') →
  post n n' ∧ vote_answer n n' req resp err.
Proof.
  intros HI Ht Hr.
  pose proof (RequestVote_wp True (λ r n', post n n' ∧ vote_answer n n' req r.1 r.2) req n HI Ht) as H.
  unfold wp in H. rewrite Hr in H. by apply H.
Qed.

Lemma AppendEntries_run req n resp err n' :
  Inv n → typed_append req →
  AppendEntries req n = Some ((resp, err), n') →
  post n n' ∧ append_answer n n' req resp err.
Proof.
  intros HI Ht Hr.
  pose proof (AppendEntries_wp True (λ r n', post n n' ∧ append_answer n n' req r.1 r.2) req n HI Ht (or_introl I)) as H.
  unfold wp in H. rewrite Hr in H. apply H. by intros.
Qed.

Lemma post_quiescent n n' : quiescent n → post n n' → quiescent n'.
Proof using Type. intros [HI Hcu] Hp. split; [apply Hp|by apply (post_caught_up _ _ Hp)]. Qed.

(** A request just accepted is acceptable. *)
Lemma accepted_acceptable n n1 req :
  Inv n1 → acceptable n req → accepted n n1 req →
  aq_PrevLogIndex req + lenN (aq_Entries req) < two64 → term_of n1 = aq_Term req →
  evolves n n1 → availableLocked n1 = true → acceptable n1 req.
Proof using Type.
  intros HI1 [C1 C2 C3 C4 C5 C6 C7 C8] Hacc Hov Hterm He Hav.
  pose proof (Inv0_state n1 (inv_core n1 HI1)) as Hwf.
  assert (∀ k e, aq_Entries req !! k = Some e → N.of_nat k < lenN (aq_Entries req) ∧
    e_Index e = aq_PrevLogIndex req + 1 + N.of_nat k ∧ log_at (n_state n1) (e_Index e) = Some e) as Hent.
  { intros k e Hk. split; [by apply lookup_lenN|]. by apply (ac_entries _ _ _ Hacc). }
  assert (base_of n1 ≤ aq_PrevLogIndex req) as Hb.
  { rewrite (ac_base _ _ _ Hacc). destruct (ac_prev _ _ _ Hacc) as (p&Hp&_).
    assert (is_Some (log_at (n_state n) (aq_PrevLogIndex req))) as Hs by done.
    by apply log_at_is_Some in Hs as [? _]. }
  split.
  - done.
  - unfold member. by rewrite (ev_cfg _ _ He), (ev_peers _ _ He).
  - by rewrite (ev_cfg _ _ He).
  - lia.
  - destruct C5 as (p&Hp&Hpt). exists p. split; [|done]. by rewrite (ac_before _ _ _ Hacc).
  - exact C6.
  - intros k e Hk _ [_ (mine&Hm&_&Hne)]. destruct (Hent k e Hk) as (_&_&Hl). congruence.
  - intros k e Hk (_&_&_&_&Hn). destruct (Hent k e Hk) as (_&_&Hl).
    destruct Hn as [Hlast|(old&Ho&Hne)]; [|congruence].
    assert (is_Some (log_at (n_state n1) (e_Index e))) as Hs by done. apply log_at_is_Some in Hs.
    rewrite last_index_end in Hs by done. lia.
Qed.

(** Accepting a request whose entries are there changes no entry. *)
Lemma accepted_again n n1 n2 req :
  accepted n n1 req → accepted n1 n2 req →
  ∀ i, log_at (n_state n2) i = log_at (n_state n1) i.
Proof using Type.
  intros A1 A2 i.
  destruct (N.le_gt_cases i (aq_PrevLogIndex req)) as [|Hgt]; [by apply (ac_before _ _ _ A2)|].
  destruct (N.le_gt_cases i (aq_PrevLogIndex req + lenN (aq_Entries req))) as [Hle|Hgt'].
  - destruct (lookup_lt_is_Some_2 (aq_Entries req) (N.to_nat (i - (aq_PrevLogIndex req + 1)))) as [e He];
      [unfold lenN in Hle; lia|].
    destruct (ac_entries _ _ _ A1 _ e He) as [Hi H1]. destruct (ac_entries _ _ _ A2 _ e He) as [_ H2].
    replace i with (e_Index e) by lia. congruence.
  - destruct (ac_after _ _ _ A2 i Hgt') as [?|[_ (k&e&old&Hk&Ho&Hne)]]; [done|].
    destruct (ac_entries _ _ _ A1 k e Hk) as [_ H1]. congruence.
Qed.

(** *** Tickets *)

Lemma submit_run command readKey n r n' :
  Inv n → (∀ c, command = Some c → rep_command c) →
  submitLocked command readKey n = Some (r, n') →
  post n n' ∧ ∀ t, r = inr t → submitted n n' command readKey t.
Proof.
  intros HI Hrep Hr.
  pose proof (submit_wp True (λ r n', post n n' ∧ ∀ t, r = inr t → submitted n n' command readKey t)
    command readKey n HI (λ _, I) (or_introl I) Hrep) as H.
  unfold wp in H. rewrite Hr in H. apply H.
  - by intros err n1 Hp _ _ _.
  - intros t n1 Hp Hs. split; [done|]. by intros t' [= <-].
Qed.

Lemma steps_evolves n n' : quiescent n → rtc node_step n n' → evolves n n'.
Proof. intros Hq Hs. by destruct (node_steps_post n n' Hq Hs) as [[_ ? _] _]. Qed.

(** The outcome a waiter's channel holds. *)
Lemma waiter_outcome n n' hist i w out :
  evolves n n' → explains hist n → n_pending n !! i = Some w → w_done w < n_newchan n →
  n_chans n' !! w_done w = Some (Some out) → quiescent n' →
  ∃ more, explains (hist ++ more) n' ∧ answered (hist ++ more) n i w out.
Proof using Type.
  intros He Hh Hi Hw Ho [HI' _].
  destruct (ev_history _ _ He hist Hh) as (more&Hm&Ha). exists more. split; [done|].
  destruct (Ha i w Hi Hw) as [[Hi' _]|[_ Hout]]; [|by apply Hout].
  destruct (inv_pending n' (inv_core n' HI') i w Hi') as (_&_&Hch). congruence.
Qed.

Lemma Poll_eq t n :
  Poll t n = match n_chans n !! t_done t with
             | Some (Some out) => Some (Some out, set_chans (<[t_done t := None]> (n_chans n)) n)
             | _ => Some (None, n)
             end.
Proof using Type.
  unfold Poll. unfold mbind, M_bind, get.
  destruct (n_chans n !! t_done t) as [[out|]|]; done.
Qed.

(** *** Compacted logs *)

Lemma inspect_log_total fuel n i :
  Inv0 n → last_index (n_state n) + 1 < two64 → base_of n ≤ i →
  ∃ l, inspect_log fuel n i = Some l.
Proof using Type.
  intros H0 Hl. revert i. induction fuel as [|fuel IH]; intros i Hb; [by eexists|].
  cbn [inspect_log]. rewrite lastLocked_spec by done.
  destruct (N.leb_spec i (last_index (n_state n))) as [Hi|]; [|by eexists].
  rewrite entryLocked_spec by (done || lia).
  destruct (log_at_some _ (Inv0_state n H0) i Hb Hi) as [e ->]. cbn [mbind option_bind].
  destruct (match e_Command e with Some c => _ | None => _ end) as [op key].
  destruct (IH (add64 i 1)) as [l ->]; [rewrite add64_small; lia|]. by eexists.
Qed.

Lemma inspect_log_below fuel n i :
  Inv0 n → i < base_of n → i ≤ last_index (n_state n) → inspect_log (S fuel) n i = None.
Proof using Type.
  intros H0 Hb Hi. destruct (Inv0_bounds n H0) as (_&_&Hl&_). cbn [inspect_log].
  rewrite lastLocked_spec by done. rewrite (proj2 (N.leb_le _ _)) by done.
  rewrite entryLocked_spec by (done || lia).
  assert (log_at (n_state n) i = None) as ->; [|done].
  unfold log_at. destruct (N.ltb_spec i (ds_base (n_state n))); [done|unfold base_of in *; lia].
Qed.

(** C7. The state machine of a node is the fold of a growing history: at every
    moment of its life, across elections, disk failures, compactions and
    crashes, there is a sequence of log entries, one for each index up to the
    last applied one, that agrees with every entry of the log the node still
    has, and from which the machine results by executing the commands one after
    the other on an empty machine; and whatever happens later only appends to
    that sequence, never loses a durable term, vote or commit index, and never
    changes a committed entry. *)
Theorem applied_history n n' :
  alive n → rtc later n n' →
  ∃ hist more, explains hist n ∧ explains (hist ++ more) n' ∧
    extends (n_state n) (n_state n') ∧ n_applied n' = commit_of n'.
Proof.
  intros Ha Hl. destruct (alive_quiescent n Ha) as [Hq [hist Hx]].
  destruct (lives_outlived n n' Hq Hl) as [Hq' Ho].
  destruct (ol_history _ _ Ho hist Hx) as [more Hm].
  exists hist, more. split_and!; [done|done|apply Ho|apply Hq'].
Qed.

(** C10. A node grants its vote to one candidate per term: if it grants the
    requests of two candidates for the same term, at any two moments of its life
    with crashes, restarts and other requests in between, the candidates are the
    same. *)
Theorem one_vote_per_term req1 req2 resp1 resp2 err1 err2 n n1 n2 n3 :
  quiescent n → typed_vote req1 → typed_vote req2 →
  RequestVote req1 n = Some ((resp1, err1), n1) → vr_Granted resp1 = true →
  rtc later n1 n2 →
  RequestVote req2 n2 = Some ((resp2, err2), n3) → vr_Granted resp2 = true →
  vq_Term req1 = vq_Term req2 → vq_CandidateID req1 = vq_CandidateID req2.
Proof.
  intros Hq Ht1 Ht2 Hr1 Hg1 Hl Hr2 Hg2 Ht.
  destruct (RequestVote_run req1 n resp1 err1 n1 (proj1 Hq) Ht1 Hr1) as [Hp1 Ha1].
  assert (quiescent n1) as Hq1 by (split; [apply Hp1|by apply (post_caught_up _ _ Hp1), Hq]).
  destruct (lives_outlived n1 n2 Hq1 Hl) as [Hq2 Ho].
  destruct (RequestVote_run req2 n2 resp2 err2 n3 (proj1 Hq2) Ht2 Hr2) as [Hp2 Ha2].
  destruct (va_granted _ _ _ _ _ Ha1 Hg1) as (_&Hterm1&Hv1&Hne1&_).
  destruct (va_granted _ _ _ _ _ Ha2 Hg2) as (_&Hterm2&Hv2&_).
  assert (extends (n_state n1) (n_state n3)) as He.
  { etransitivity; [apply Ho|apply Hp2]. }
  unfold term_of, vote_of in *. rewrite <-Hv1, <-Hv2. symmetry.
  apply (ext_vote _ _ He); congruence.
Qed.

(** C12. [RequestVote] grants a vote only if the node is available, the request
    comes from another member of its own cluster, elections are enabled, and the
    candidate's log is at least as up to date as the node's; the vote and the
    term are then durable before the answer is given. In every case the answer
    carries the node's term, and the log and the commit index stay. *)
Theorem RequestVote_spec req n :
  quiescent n → typed_vote req →
  ∃ resp err n', RequestVote req n = Some ((resp, err), n') ∧ quiescent n' ∧
    evolves n n' ∧ vote_answer n n' req resp err ∧
    (vr_Granted resp = true → content (st_wal (n_store n')) (without_wal (n_store n'))).
Proof.
  intros [HI Hcu] Ht.
  pose proof (RequestVote_wp False (λ r n', post n n' ∧ vote_answer n n' req r.1 r.2) req n HI Ht) as H.
  apply wp_total in H as ([resp err]&n'&Hr&Hp&Ha); [|by intros].
  exists resp, err, n'. split_and!; try done; try apply Hp.
  - split; [apply Hp|by apply (post_caught_up _ _ Hp)].
  - intros Hg. apply (inv_content n'); [apply Hp|].
    by destruct (va_granted _ _ _ _ _ Ha Hg) as (_&_&_&_&_&?&_).
Qed.

(** C11. [AppendEntries] never panics, and accepts exactly the requests a correct
    leader sends. It succeeds only if the request is [acceptable]: the node is
    available, the sender is a member of its cluster and its fixed leader if it
    has one, the term is not older than the node's, the node has the entry the
    request's own follow, each of these has its index and a term from 1 to the
    request's, none up to the first the node lacks clashes with the node's log,
    and that one replaces no committed entry. Then the node is in the request's
    term and holds, durably and applied up to its commit index, every entry of
    the request, with the log before the request untouched, the log after it cut
    only if an entry contradicted it, and the commit index advanced to the
    leader's, bounded by the last entry received. An acceptable request is
    refused only if the node fails to store it, and a refused request changes
    nothing of the log and the commit index. *)
Theorem AppendEntries_spec req n :
  quiescent n → typed_append req → roomy n (lenN (aq_Entries req)) →
  ∃ resp err n', AppendEntries req n = Some ((resp, err), n') ∧ quiescent n' ∧
    evolves n n' ∧ append_answer n n' req resp err ∧
    (ar_Success resp = true → content (st_wal (n_store n')) (without_wal (n_store n'))).
Proof.
  intros Hq Ht Hroom.
  pose proof (AppendEntries_wp False (λ r n', post n n' ∧ append_answer n n' req r.1 r.2) req n
    (proj1 Hq) Ht (or_intror Hroom)) as H.
  apply wp_total in H as ([resp err]&n'&Hr&Hp&Ha); [|by intros].
  exists resp, err, n'. split_and!; try done; [by eapply post_quiescent|apply Hp|].
  intros Hs. apply (inv_content n'); [apply Hp|].
  by destruct (an_accepted _ _ _ _ _ Ha Hs) as (_&_&?&_).
Qed.

(** Retransmission is harmless: an accepted request that arrives a second
    time is accepted again, unless the disk fails, and the second delivery changes
    neither an entry of the log nor the term, the base and the commit index. *)
Theorem AppendEntries_again req n resp err n1 resp2 err2 n2 :
  quiescent n → typed_append req →
  aq_PrevLogIndex req + lenN (aq_Entries req) < two64 →
  AppendEntries req n = Some ((resp, err), n1) → ar_Success resp = true →
  availableLocked n1 = true →
  AppendEntries req n1 = Some ((resp2, err2), n2) → n_failed n2 = None →
  ar_Success resp2 = true ∧ ar_MatchIndex resp2 = ar_MatchIndex resp ∧
  (∀ i, log_at (n_state n2) i = log_at (n_state n1) i) ∧
  term_of n2 = term_of n1 ∧ base_of n2 = base_of n1 ∧ commit_of n2 = commit_of n1.
Proof.
  intros Hq Ht Hov Hr Hs Hav Hr2 Hf2.
  destruct (AppendEntries_run req n resp err n1 (proj1 Hq) Ht Hr) as [Hp1 Ha1].
  pose proof (post_quiescent _ _ Hq Hp1) as Hq1. pose proof (proj1 Hq1) as HI1.
  destruct (AppendEntries_run req n1 resp2 err2 n2 HI1 Ht Hr2) as [Hp2 Ha2].
  destruct (an_accepted _ _ _ _ _ Ha1 Hs) as (_&Hterm1&_&Hm1&Hacc1). specialize (Hacc1 Hov).
  pose proof (an_sound _ _ _ _ _ Ha1 Hs) as Hac.
  pose proof (accepted_acceptable n n1 req HI1 Hac Hacc1 Hov Hterm1 (post_evolves _ _ Hp1) Hav) as Hac1.
  destruct (ar_Success resp2) eqn:Hs2.
  2: { by destruct (an_refused _ _ _ _ _ Ha2 Hs2) as (_&_&_&Hbad); [exfalso; apply Hbad|..]. }
  destruct (an_accepted _ _ _ _ _ Ha2 Hs2) as (_&Hterm2&_&Hm2&Hacc2). specialize (Hacc2 Hov).
  split_and!; [done|congruence|by eapply accepted_again|congruence|apply Hacc2|].
  rewrite (ac_commit _ _ _ Hacc2), (ac_commit _ _ _ Hacc1). lia.
Qed.

(** C8. No acknowledgement before commit, and none but the true result: what a
    client receives for a submitted command is either a refusal (the leader is
    unavailable, or it is no longer the leader), or the answer of the very entry
    the submission appended, which has been committed and applied at the ticket's
    index: the result of executing the command on the state machine reached by
    all the entries before it (and for a read the value of its key there). *)
Theorem ticket_outcome command readKey t out hist n n1 n2 n3 :
  quiescent n → (∀ c, command = Some c → rep_command c) →
  submitLocked command readKey n = Some (inr t, n1) → rtc node_step n1 n2 →
  Poll t n2 = Some (Some out, n3) → explains hist n →
  ∃ more, explains (hist ++ more) n2 ∧
    ((∃ err, refusal err ∧ out = mkOutcome zeroResult (Some err)) ∨
     let e := mkEntry (t_Index t) (term_of n) command in
     (hist ++ more) !! N.to_nat (t_Index t - 1) = Some e ∧ t_Index t ≤ commit_of n2 ∧
     out = answer (history_machine (take (N.to_nat (t_Index t - 1)) (hist ++ more))) e
             (mkWaiter readKey (t_done t))).
Proof.
  intros Hq Hrep Hsub Hsteps Hpoll Hh.
  destruct (submit_run _ _ n _ n1 (proj1 Hq) Hrep Hsub) as [Hp1 Hs]. specialize (Hs t eq_refl).
  pose proof (post_quiescent _ _ Hq Hp1) as Hq1.
  destruct (node_steps_post n1 n2 Hq1 Hsteps) as [Hp2 Hq2].
  destruct (sb_waiting _ _ _ _ _ Hs) as (n0&He0&Ha0&Hm0&Hw0&Hc0&Hlog0&Hent0).
  assert (evolves n0 n2) as He by (etransitivity; [done|apply Hp2]).
  pose proof (inv_applied n (inv_core n (proj1 Hq))) as [_ Hac].
  assert (explains hist n0) as Hh0.
  { destruct Hh as [Hl Hm Hlog]. split; [by rewrite Ha0|by rewrite Hm0|].
    intros i e Hi Hi0 Hia. rewrite Ha0 in Hia.
    destruct (Inv0_bounds n (inv_core n (proj1 Hq))) as (_&_&_&_&Hcl&_).
    rewrite Hlog0 in Hi by lia. by apply Hlog. }
  rewrite Poll_eq in Hpoll. destruct (n_chans n2 !! t_done t) as [[out'|]|] eqn:Hch; [|done..].
  injection Hpoll as -> _.
  destruct (waiter_outcome n0 n2 hist _ _ out He Hh0 Hw0 Hc0 Hch Hq2) as (more&Hm&Hans).
  exists more. split; [done|]. destruct Hans as [?|(e&He1&He2&->)]; [by left|right].
  rewrite Hent0 in He1. injection He1 as <-. split_and!; [done| |done].
  destruct Hm as [Hlen _ _]. apply lookup_lt_Some in He2. destruct Hq2 as [HI2 Hcu2].
  pose proof (sb_index _ _ _ _ _ Hs) as Hti. unfold caught_up in Hcu2. unfold lenN in Hlen. lia.
Qed.

(** A ticket yields at most one outcome: once [Poll] has returned it, every
    later [Poll] of the ticket, whatever happens in between, finds nothing. *)
Theorem ticket_once t out n n1 n2 :
  quiescent n → t_done t < n_newchan n → Poll t n = Some (Some out, n1) →
  rtc node_step n1 n2 → Poll t n2 = Some (None, n2).
Proof.
  intros Hq Hlt Hpoll Hsteps.
  assert (post n n1) as Hp1.
  { pose proof (Poll_wp True (λ _ n', post n n') t n (proj1 Hq)) as H. unfold wp in H.
    rewrite Hpoll in H. by apply H. }
  pose proof (post_quiescent _ _ Hq Hp1) as Hq1. pose proof (steps_evolves n1 n2 Hq1 Hsteps) as He.
  rewrite Poll_eq in Hpoll. destruct (n_chans n !! t_done t) as [[out'|]|] eqn:Hch; [|done..].
  injection Hpoll as -> <-. set (n1 := set_chans _ n) in *.
  assert (n_chans n1 !! t_done t = Some None) as Hch1 by (cbn; by rewrite lookup_insert_eq).
  assert (¬ waits n1 (t_done t)) as Hw.
  { intros (i&w&Hi&Hd). change (n_pending n1) with (n_pending n) in Hi.
    destruct (inv_pending n (inv_core n (proj1 Hq)) i w Hi) as (_&_&Hc). congruence. }
  destruct (ev_chans _ _ He (t_done t) Hlt Hw) as [Hsame _].
  rewrite Poll_eq. destruct (decide (n_chans n2 !! t_done t = n_chans n1 !! t_done t)) as [->|Hne].
  - by rewrite Hch1.
  - by rewrite Hsame.
Qed.

(** C13. The commit rule: the commit index of an available leader moves exactly
    to the largest index above it whose entry is of the leader's own term and whose
    [holders], the leader itself and the members whose acknowledged index has
    reached it, are more than half of the members; nothing moves when there is
    none; and what is committed is applied before the method returns. The method
    can panic only on a log that is, or may get, compacted. *)
Theorem commit_rule n :
  quiescent n →
  match advanceCommitLocked n with
  | None => base_of n ≠ 0 ∨ cfg_SnapshotEvery (n_cfg n) ≠ 0
  | Some (_, n') => quiescent n' ∧ advanced n n'
  end.
Proof.
  intros Hq. pose proof (advanceCommit_wp (base_of n ≠ 0 ∨ cfg_SnapshotEvery (n_cfg n) ≠ 0)
    (λ _ n', quiescent n' ∧ advanced n n') n (proj1 Hq)) as H. unfold wp in H.
  assert (∀ n', post n n' → n_closed n' = n_closed n → n_paused n' = n_paused n →
     advanced n n' → quiescent n' ∧ advanced n n') as HQ.
  { intros n' Hp _ _ Ha. split; [by eapply post_quiescent|done]. }
  specialize (H (λ Hb, Hb) HQ). by destruct (advanceCommitLocked n) as [[[] n']|].
Qed.

(** A leader is append-only: as long as it leads in one term, whatever
    calls it receives, it neither changes nor removes an entry of its log; only
    the compacted prefix is dropped. *)
Theorem leader_append_only n n' :
  quiescent n → rtc node_step n n' →
  n_role n = leader → n_role n' = leader → term_of n = term_of n' →
  last_index (n_state n) ≤ last_index (n_state n') ∧
  ∀ i, base_of n' ≤ i → i ≤ last_index (n_state n) → log_at (n_state n') i = log_at (n_state n) i.
Proof. intros Hq Hs. apply (ev_log n n'). by apply steps_evolves. Qed.

(** C19. A node whose disk has failed is silent until it is opened again: in
    every later step of this life it is a follower with the same durable state in
    memory, it grants no vote, accepts no entry, and takes no command. *)
Theorem failed_node_silent n n' :
  quiescent n → n_failed n ≠ None → rtc node_step n n' →
  n_failed n' = n_failed n ∧ n_role n' = follower ∧ n_state n' = n_state n ∧
  (∀ req, RequestVote req n' =
     Some ((mkVoteResponse (term_of n) false, Some ErrUnavailable), n')) ∧
  (∀ req, AppendEntries req n' =
     Some ((mkAppendResponse (term_of n) false 0 (add64 (lastLocked n') 1), Some ErrUnavailable), n')) ∧
  (∀ command readKey, submitLocked command readKey n' = Some (inl ErrUnavailable, n')).
Proof.
  intros Hq Hf Hs. destruct (node_steps_post n n' Hq Hs) as [[_ He _] [HI' _]].
  destruct (ev_failed _ _ He Hf) as [Hf' Hst].
  assert (n_state n' = n_state n) as Hs'.
  { unfold n_state. by apply (f_equal st_state) in Hst. }
  assert (availableLocked n' = false) as Hav.
  { unfold availableLocked. rewrite bool_decide_eq_false_2 by (by rewrite Hf'). apply andb_false_r. }
  unfold term_of. rewrite <-Hs'. split_and!; try done.
  - apply (inv_failed n' HI'). by rewrite Hf'.
  - intros req. unfold RequestVote. unfold mbind, M_bind, get. rewrite Hav. done.
  - intros req. unfold AppendEntries. unfold mbind, M_bind, get. rewrite Hav. done.
  - intros command readKey. unfold submitLocked. unfold mbind, M_bind, get. rewrite Hav. done.
Qed.

(** C9. Crash recovery: whenever the process of a node ends, also after its disk
    has failed in the middle of a write, opening the node again on what is left of
    its journal with a valid configuration succeeds (only a fixed leader, which
    writes at once, may fail at its first write, and only a log of 2^63 entries
    cannot be read back): the node is healthy, has lost no
    durable fact, has applied everything it had applied before, and its machine
    continues the same history. *)
Theorem crash_recovery cfg ht rt n :
  quiescent n → typed_config cfg → identity_cfg cfg = st_identity (n_store n) →
  readable (identity_cfg cfg) (st_wal (n_store n)) →
  match OpenWithRuntime cfg ht rt (st_wal (n_store n)) with
  | None => cfg_FixedLeader cfg = cfg_ID cfg
  | Some (inl err) => check_config (with_defaults cfg) ht (rt_Manual rt) = inl err ∨
      cfg_FixedLeader cfg = cfg_ID cfg
  | Some (inr n') => reopened n n' ∧ n_cfg n' = with_defaults cfg ∧ rt_Manual (n_rt n') = rt_Manual rt
  end.
Proof.
  intros Hq Hty Hid Hread. pose proof (reopen False cfg ht rt n (proj1 Hq) Hty Hid (or_intror Hread)) as H.
  destruct (OpenWithRuntime _ _ _ _) as [[err|n']|]; [done|done|naive_solver].
Qed.

(** C14. On an uncompacted log nothing panics: if compaction is off, every call
    with values of the source's types returns, in every state the node can reach;
    no index is out of range and no send blocks. *)
Theorem never_panics c n n' :
  quiescent n → base_of n = 0 → cfg_SnapshotEvery (n_cfg n) = 0 → rtc node_step n n' →
  typed_call c → roomy n' (growth c) →
  ∃ n'', run_call c n' = Some (tt, n'') ∧ quiescent n''.
Proof.
  intros Hq Hb Hse Hs Hty Hroom. destruct (node_steps_post n n' Hq Hs) as [[_ He _] Hq'].
  assert (no_panic False n') as Hnp.
  { eapply no_panic_evolves; [exact He|]. intros [?|?]; done. }
  pose proof (run_call_wp False c n' (proj1 Hq') (proj2 Hq') Hty Hnp (or_intror Hroom)) as H.
  apply wp_total in H as ([]&n''&Hr&Hp). exists n''. split; [done|]. by eapply post_quiescent.
Qed.

(** What a leader replicates is its log: every request it prepares for a
    peer carries its own term, identity and commit index, at most 32 entries, and
    is a true copy of the consecutive part of its log after an entry whose index
    and term it names. *)
Theorem replicate_call_spec peer n req n' :
  quiescent n → replicate_call peer n = Some (Some req, n') →
  prepared n peer req ∧ n_role n = leader ∧ quiescent n'.
Proof.
  intros Hq Hr.
  pose proof (replicate_call_wp True (λ o n', post n n' ∧
    (∀ req, o = Some req → prepared n peer req ∧ n_role n = leader)) peer n (proj1 Hq) (λ _, I)) as H.
  unfold wp in H. rewrite Hr in H. destruct H as [Hp Hreq]; [by intros|].
  destruct (Hreq req eq_refl). split_and!; [done|done|by eapply post_quiescent].
Qed.

(** Terms never wrap around: an election in the last term, 2^64-1, does not
    return to term zero; the store refuses the record, and the node stops with its
    durable state unchanged. *)
Theorem last_term_safe n n' :
  quiescent n → n_role n ≠ leader → n_failed n = None →
  term_of n = two64 - 1 → startElectionLocked n = Some (tt, n') →
  n_failed n' ≠ None ∧ n_state n' = n_state n ∧ quiescent n'.
Proof.
  intros Hq Hr Hf Ht Hrun.
  pose proof (startElection_wp True (λ _ n', post n n' ∧ (n_failed n' ≠ None ∧ n_state n' = n_state n ∨
      term_of n' = term_of n + 1 ∧ vote_of n' = cfg_ID (n_cfg n))) n (proj1 Hq) Hr Hf (λ _, I) (or_introl I)) as H.
  unfold wp in H. rewrite Hrun in H. destruct H as [Hp Hc]; [by intros|].
  pose proof (post_quiescent _ _ Hq Hp) as Hq'.
  destruct Hc as [[? ?]|[Ht' _]]; [done|]. exfalso.
  destruct (Inv0_bounds n' (inv_core n' (proj1 Hq'))) as (Hb&_). unfold two64 in *. lia.
Qed.

(** C40. A leader whose peer would resume below the compaction base panics: the
    batch is measured from the peer's next index before that index is raised to
    the base, and reading the first, compacted entry is out of range. *)
Theorem prepareAppend_below_base peer n :
  quiescent n → resume n peer < base_of n → prepareAppendLocked peer n = None.
Proof.
  intros [HI _] Hres. pose proof (inv_core n HI) as H0.
  destruct (Inv0_bounds n H0) as (_&_&Hl64&Hbc&Hcl&_).
  unfold prepareAppendLocked, resume in *. unfold mbind, M_bind, get. cbn beta iota.
  rewrite lastLocked_spec by done.
  assert (∃ next, N.min (N.max 1 (next_of n (p_ID peer))) (add64 (last_index (n_state n)) 1) = next ∧
    next < base_of n) as (next&->&Hnext).
  { eexists. split; [done|]. destruct (add64_cases (last_index (n_state n)) 1 Hl64 ltac:(done))
      as [[? ->]|[? ->]]; [done|lia]. }
  rewrite batch_end_panics by (done || (by apply Inv0_state) || lia). done.
Qed.

(** The operator's inspection panics exactly on a log compacted within its
    window: it starts at the last hundred entries without regard to the base, and
    succeeds if and only if that start is not below the base. *)
Theorem Inspect_panics_iff after n :
  quiescent n → last_index (n_state n) + 1 < two64 →
  Inspect after n = None ↔
  N.max 1 (last_index (n_state n) + 1 - N.min (last_index (n_state n)) 100) < base_of n.
Proof.
  intros [HI _] Hl. pose proof (inv_core n HI) as H0.
  destruct (Inv0_bounds n H0) as (_&_&_&Hbc&Hcl&_).
  unfold Inspect. rewrite lastLocked_spec by done. rewrite add64_small by done.
  rewrite sub64_small by lia.
  set (start := N.max 1 _).
  destruct (N.lt_ge_cases start (base_of n)) as [Hlt|Hge].
  - rewrite inspect_log_below by (done || lia). done.
  - destruct (inspect_log_total 101 n start H0 Hl Hge) as [l ->]. split; [done|lia].
Qed.

(** A refused request moves the leader's next index for the peer strictly
    back, to the smaller of the request's previous index and the conflict index,
    never below one; a conflict index above the previous index, with which a
    follower that has compacted its log asks the leader to skip ahead, is ignored. *)
Theorem refusal_backs_up peer req resp n :
  availableLocked n = true → n_role n = leader →
  aq_Term req = term_of n → ar_Term resp = term_of n → ar_Success resp = false →
  0 < aq_PrevLogIndex req → aq_PrevLogIndex req + 1 < two64 →
  ∃ n', acceptAppendLocked peer req resp None n = Some (true, n') ∧
    next_of n' (p_ID peer) = N.max 1 (N.min (aq_PrevLogIndex req) (ar_ConflictIndex resp)) ∧
    n_store n' = n_store n ∧ n_role n' = leader.
Proof.
  intros Hav Hl Hqt Hrt Hs Hp Hp64.
  assert (wp False (acceptAppendLocked peer req resp None) (λ b n', b = true ∧
    next_of n' (p_ID peer) = N.max 1 (N.min (aq_PrevLogIndex req) (ar_ConflictIndex resp)) ∧
    n_store n' = n_store n ∧ n_role n' = leader) n) as H.
  { unfold acceptAppendLocked. apply wp_bind, wp_get. rewrite Hav. cbn [negb].
    apply wp_bind, emit_wp. intros ev rd. apply wp_bind, wp_get. set (n1 := set_events _ _).
    change (ds_term (n_state n1)) with (term_of n). change (n_role n1) with (n_role n).
    rewrite Hqt, Hrt, Hl, Hs, N.ltb_irrefl, N.eqb_refl.
    rewrite (bool_decide_eq_true_2 (@None error = None)) by done.
    rewrite (bool_decide_eq_false_2 (@None error ≠ None)) by (intros Hn; by apply Hn).
    rewrite (bool_decide_eq_false_2 (leader ≠ leader)) by (intros Hn; by apply Hn).
    cbn [andb orb negb]. rewrite add64_small by done.
    destruct (N.leb_spec (aq_PrevLogIndex req + 1) 1); [lia|].
    apply wp_bind, wp_modify, wp_ret. split_and!; try done.
    unfold next_of. cbn. rewrite lookup_insert_eq. cbn. rewrite sub64_small, N.add_sub by lia. done. }
  apply wp_total in H as (b&n'&Hr&->&?&?&?). by exists n'.
Qed.

End props.
