(* ===== verification/NodeExamples.v ===== *)
(** * NodeExamples: a three-node group on in-memory disks, computed

    Concrete instances of the properties of [NodeProps]: their hypotheses hold on
    nodes that the definitions themselves produce. *)

From stdpp Require Import base numbers list gmap strings fin_maps pretty relations sorting options.
From S2P Require Import Prelude Effects Urls Bytes StateMachine Wal Journal Store Codec Events Node NodeInv.
From S2P Require Import NodeRPC NodeSteps NodeOpen NodeProps.

Local Open Scope N_scope.

(** ** Scripts of calls *)

Lemma typed_vote_iff req : typed_vote req ↔
  vq_Term req < two64 ∧ vq_LastLogIndex req < two64 ∧ vq_LastLogTerm req < two64.
Proof. split; [by intros []|]. intros (?&?&?). by split. Qed.
#[export] Instance typed_vote_dec req : Decision (typed_vote req) := dec_iff (typed_vote_iff req) _.

Lemma typed_append_iff req : typed_append req ↔
  aq_Term req < two64 ∧ aq_PrevLogIndex req < two64 ∧ aq_LeaderCommit req < two64 ∧
  rep_entries (aq_Entries req).
Proof. split; [by intros []|]. intros (?&?&?&?). by split. Qed.
#[export] Instance typed_append_dec req : Decision (typed_append req) := dec_iff (typed_append_iff req) _.

#[export] Instance typed_call_dec c : Decision (typed_call c).
Proof. destruct c as [| | | | | | | | |[]| | | | |]; apply _. Defined.

Section script.
Context {J : Type} `{HJ : Journal J, HC : Codec record}.

Fixpoint run_script (cs : list call) (n : Node J) : option (Node J) :=
  match cs with
  | [] => Some n
  | c :: cs' =>
    if bool_decide (typed_call c) then
      '(_, n') ← run_call c n; run_script cs' n'
    else None
  end.

Lemma run_script_steps cs n n' : run_script cs n = Some n' → rtc node_step n n'.
Proof.
  revert n. induction cs as [|c cs IH]; intros n H; cbn [run_script] in H.
  { injection H as <-. apply rtc_refl. }
  case_bool_decide as Hty; [|done].
  destruct (run_call c n) as [[[] n1]|] eqn:Hrun; [|done]. cbn [mbind option_bind] in H.
  eapply rtc_l; [|by apply IH]. by eapply step_call.
Qed.

Lemma node_steps_later `{Platform} (n n' : Node J) : rtc node_step n n' → rtc later n n'.
Proof. induction 1; [apply rtc_refl|]. eapply rtc_l; [by apply later_step|done]. Qed.

End script.

(** ** The group *)

#[local] Instance ex_platform : Platform := {
  platform_urls := ex_urls;
  identity_of cluster id ids fixed := "identity";
}.

Definition ex_peer (id : string) : Peer := mkPeer id ("http://peer-" +:+ id) ("http://client-" +:+ id).

Definition ex_cfg (id : string) : Config :=
  mkConfig id "c" "" [ex_peer "a"; ex_peer "b"; ex_peer "c"] "" 0 0 0 0 0 0.

(** A clock that advances by a minute at each reading. *)
Definition ex_rt : Runtime := mkRuntime true (λ i, Z.of_N i * 60000000000)%Z (λ _ _, 0%Z).

Definition ex_open (id : string) : option (error + Node memoryDisk) :=
  OpenWithRuntime (ex_cfg id) false ex_rt (mkMemoryDisk [] "").

Definition ex_none : Node memoryDisk :=
  initial_node (ex_cfg "a") ∅ ex_rt (set_wal (mkMemoryDisk [] "") (emptyStore "")) New 0.

Definition ex_first (id : string) : Node memoryDisk :=
  match ex_open id with Some (inr n) => n | _ => ex_none end.

Definition ex_run (cs : list call) (n : Node memoryDisk) : Node memoryDisk :=
  default ex_none (run_script cs n).

(** Node [a] before and after its election, and with a command submitted,
    replicated to [b], committed and answered. *)
Definition ex_command : Command := mkCommand "client" 1 "SET" "k" "v" "".
Definition ex_vote : VoteRequest := mkVoteRequest "" "c" 1 "a" 0 0.
Definition ex_append (prev pterm : N) (es : list Entry) (commit : N) : AppendRequest :=
  mkAppendRequest "" "c" 1 "a" prev pterm es commit.
Definition ex_noop : Entry := mkEntry 1 1 None.
Definition ex_entry : Entry := mkEntry 2 1 (Some ex_command).

Definition ex_election : list call :=
  [CTick; CDeliverVote (mkMessage 1 "a" "b" (Some ex_vote) None) (mkVoteResponse 1 true) None].
Definition ex_replication : list call :=
  [CDeliverAppend (mkMessage 3 "a" "b" None (Some (ex_append 0 0 [ex_noop] 0)))
     (mkAppendResponse 1 true 1 0) None;
   CDeliverAppend (mkMessage 5 "a" "b" None (Some (ex_append 1 1 [ex_entry] 1)))
     (mkAppendResponse 1 true 2 0) None].

Definition ex_a : Node memoryDisk := ex_first "a".
Definition ex_leader : Node memoryDisk := ex_run ex_election ex_a.
Definition ex_submitted : Node memoryDisk :=
  match submitLocked (Some ex_command) None ex_leader with Some (_, n) => n | None => ex_none end.
Definition ex_committed : Node memoryDisk := ex_run ex_replication ex_submitted.
Definition ex_b : Node memoryDisk := ex_first "b".

(** ** They are what they are called *)

Definition readableb {J} `{Journal J, Codec record} (identity : string) (j : J) : bool :=
  if openStoreUsing identity j then true else false.

Lemma readable_check {J} `{Journal J, Codec record} identity (j : J) :
  readableb identity j = true → readable identity j.
Proof. unfold readableb, readable. by destruct (openStoreUsing identity j). Qed.

#[local] Instance ex_platform_laws : PlatformLaws.
Proof. by split. Qed.

Lemma ex_first_opens id :
  match ex_open id with Some (inr _) => true | _ => false end = true →
  ex_open id = Some (inr (ex_first id)).
Proof. unfold ex_first. by destruct (ex_open id) as [[]|]. Qed.

Lemma ex_run_ok cs n :
  match run_script cs n with Some _ => true | None => false end = true →
  run_script cs n = Some (ex_run cs n).
Proof. unfold ex_run. by destruct (run_script cs n). Qed.

Lemma ex_typed id : text id → typed_config (ex_cfg id).
Proof. intros _. repeat constructor. Qed.

Lemma ex_first_alive id :
  match ex_open id with Some (inr _) => true | _ => false end = true → alive (ex_first id).
Proof.
  intros Ho.
  apply (alive_open (ex_cfg id) false ex_rt (mkMemoryDisk [] "")).
  - repeat constructor.
  - exact (eq_refl (@nil bytes)).
  - by apply ex_first_opens.
Qed.

Lemma ex_a_alive : alive ex_a.
Proof. apply (ex_first_alive "a"); vm_cast_no_check (@eq_refl bool true). Qed.

Lemma ex_b_alive : alive ex_b.
Proof. apply (ex_first_alive "b"); vm_cast_no_check (@eq_refl bool true). Qed.

Lemma ex_run_steps cs n :
  match run_script cs n with Some _ => true | None => false end = true →
  rtc node_step n (ex_run cs n).
Proof. intros H. apply (run_script_steps cs). by apply ex_run_ok. Qed.

Lemma ex_leader_steps : rtc node_step ex_a ex_leader.
Proof. apply ex_run_steps. vm_cast_no_check (@eq_refl bool true). Qed.

Definition roomyb {J} (n : Node J) (k : N) : bool := lenN (ds_log (n_state n)) + k <? two63.

Lemma roomy_check {J} (n : Node J) k : roomyb n k = true → roomy n k.
Proof. by intros H%N.ltb_lt. Qed.

(** The client of the submitted command. *)
Definition ex_ticket : Ticket := mkTicket 2 0.

Lemma ex_submits_check :
  match submitLocked (Some ex_command) None ex_leader with
  | Some (inr t, _) => (t_Index t =? 2) && (t_done t =? 0) | _ => false end = true →
  submitLocked (Some ex_command) None ex_leader = Some (inr ex_ticket, ex_submitted).
Proof.
  unfold ex_submitted. destruct (submitLocked _ _ ex_leader) as [[[|[i c]] n]|]; try done.
  cbn [t_Index t_done]. by intros [->%N.eqb_eq ->%N.eqb_eq]%andb_true_iff.
Qed.

Lemma ex_submits : submitLocked (Some ex_command) None ex_leader = Some (inr ex_ticket, ex_submitted).
Proof. apply ex_submits_check. vm_cast_no_check (@eq_refl bool true). Qed.

Lemma ex_rep_command : ∀ c, Some ex_command = Some c → rep_command c.
Proof. intros c [= <-]. apply (bool_decide_unpack _). vm_compute. done. Qed.

Lemma submit_step {J} `{Journal J, Codec record} command readKey (n n' : Node J) r :
  (∀ c, command = Some c → rep_command c) →
  submitLocked command readKey n = Some (r, n') → node_step n n'.
Proof.
  intros Hc Hs. apply (step_call (CSubmit command readKey)).
  - destruct command; [by apply Hc|done].
  - cbn [run_call]. unfold mbind, M_bind. by rewrite Hs.
Qed.

Lemma ex_submitted_steps : rtc node_step ex_leader ex_submitted.
Proof. apply rtc_once. exact (submit_step _ _ _ _ _ ex_rep_command ex_submits). Qed.

Lemma ex_committed_steps : rtc node_step ex_submitted ex_committed.
Proof. apply ex_run_steps. vm_cast_no_check (@eq_refl bool true). Qed.

Lemma ex_life_steps : rtc node_step ex_leader ex_committed.
Proof. etransitivity; [exact ex_submitted_steps|exact ex_committed_steps]. Qed.

Lemma ex_a_quiescent : quiescent ex_a.
Proof. apply (alive_quiescent ex_a ex_a_alive). Qed.

Lemma ex_b_quiescent : quiescent ex_b.
Proof. apply (alive_quiescent ex_b ex_b_alive). Qed.

Lemma steps_quiescent {J} `{JournalLaws J, CodecLaws} (n n' : Node J) :
  quiescent n → rtc node_step n n' → quiescent n'.
Proof. intros Hq Hs. by destruct (node_steps_post n n' Hq Hs). Qed.

Lemma ex_leader_quiescent : quiescent ex_leader.
Proof. exact (steps_quiescent _ _ ex_a_quiescent ex_leader_steps). Qed.

Lemma ex_submitted_quiescent : quiescent ex_submitted.
Proof. exact (steps_quiescent _ _ ex_leader_quiescent ex_submitted_steps). Qed.

Lemma ex_committed_quiescent : quiescent ex_committed.
Proof. exact (steps_quiescent _ _ ex_submitted_quiescent ex_committed_steps). Qed.

#[local] Opaque ex_a ex_b ex_leader ex_submitted ex_committed.

(** ** The properties, on these nodes *)

Lemma applied_history_witness :
  ∃ hist more, explains hist ex_leader ∧ explains (hist ++ more) ex_committed ∧
    n_applied ex_committed = 2.
Proof.
  assert (alive ex_leader) as Ha.
  { assert (∀ n n' : Node memoryDisk, rtc later n n' → alive n → alive n') as Hall.
    { induction 1; [done|]. eauto using alive_later. }
    exact (Hall _ _ (node_steps_later _ _ ex_leader_steps) ex_a_alive). }
  pose proof (node_steps_later _ _ ex_life_steps) as Hl.
  destruct (applied_history ex_leader ex_committed Ha Hl) as (hist&more&H1&H2&_&_).
  exists hist, more. split_and!; [exact H1|exact H2|]. vm_cast_no_check (@eq_refl N 2).
Defined.

(** Node [b] grants the vote of term 1 to [a], keeps it across a crash, and
    grants a repeated request again. *)
Definition ex_restart (n : Node memoryDisk) : Node memoryDisk :=
  match OpenWithRuntime (ex_cfg "b") false ex_rt (st_wal (n_store n)) with
  | Some (inr n') => n'
  | _ => ex_none
  end.

Lemma ex_restart_opens n :
  match OpenWithRuntime (ex_cfg "b") false ex_rt (st_wal (n_store n)) with
  | Some (inr _) => true | _ => false end = true →
  OpenWithRuntime (ex_cfg "b") false ex_rt (st_wal (n_store n)) = Some (inr (ex_restart n)).
Proof. unfold ex_restart. by destruct (OpenWithRuntime _ _ _ _) as [[]|]. Qed.

Definition ex_granted (n : Node memoryDisk) : Node memoryDisk :=
  match RequestVote ex_vote n with Some (_, n') => n' | None => ex_none end.

Lemma ex_grants n :
  match RequestVote ex_vote n with
  | Some ((mkVoteResponse t g, None), _) => (t =? 1) && g | _ => false end = true →
  RequestVote ex_vote n = Some ((mkVoteResponse 1 true, None), ex_granted n).
Proof.
  unfold ex_granted. destruct (RequestVote ex_vote n) as [[[[t g] [e|]] n']|]; try done.
  intros [->%N.eqb_eq ->]%andb_true_iff. done.
Qed.

Lemma ex_typed_vote : typed_vote ex_vote.
Proof. by split. Qed.

Lemma ex_restart_later :
  st_identity (n_store (ex_granted ex_b)) = "identity" →
  match OpenWithRuntime (ex_cfg "b") false ex_rt (st_wal (n_store (ex_granted ex_b))) with
  | Some (inr _) => true | _ => false end = true →
  later (ex_granted ex_b) (ex_restart (ex_granted ex_b)).
Proof.
  intros Hid Ho. apply (later_restart _ _ (ex_cfg "b") false ex_rt).
  - repeat constructor.
  - by rewrite Hid.
  - by apply ex_restart_opens.
Qed.

#[local] Opaque ex_granted ex_restart.

Lemma one_vote_per_term_witness :
  vq_CandidateID ex_vote = vq_CandidateID ex_vote ∧
  vote_of (ex_restart (ex_granted ex_b)) = "a".
Proof.
  assert (later (ex_granted ex_b) (ex_restart (ex_granted ex_b))) as Hl.
  { apply ex_restart_later; [
      vm_cast_no_check (@eq_refl string "identity")|vm_cast_no_check (@eq_refl bool true)]. }
  assert (RequestVote ex_vote ex_b = Some ((mkVoteResponse 1 true, None), ex_granted ex_b)) as H1
    by (apply ex_grants; vm_cast_no_check (@eq_refl bool true)).
  assert (RequestVote ex_vote (ex_restart (ex_granted ex_b)) =
    Some ((mkVoteResponse 1 true, None), ex_granted (ex_restart (ex_granted ex_b)))) as H2
    by (apply ex_grants; vm_cast_no_check (@eq_refl bool true)).
  split; [|vm_cast_no_check (@eq_refl string "a")].
  exact (one_vote_per_term ex_vote ex_vote _ _ _ _ ex_b _ _ _ ex_b_quiescent ex_typed_vote
    ex_typed_vote H1 eq_refl (rtc_once _ _ Hl) H2 eq_refl eq_refl).
Defined.

Lemma RequestVote_spec_witness :
  ∃ resp err n', RequestVote ex_vote ex_b = Some ((resp, err), n') ∧ vr_Granted resp = true ∧
    term_of n' = 1 ∧ vote_of n' = "a".
Proof.
  assert (RequestVote ex_vote ex_b = Some ((mkVoteResponse 1 true, None), ex_granted ex_b)) as H1
    by (apply ex_grants; vm_cast_no_check (@eq_refl bool true)).
  destruct (RequestVote_spec ex_vote ex_b ex_b_quiescent ex_typed_vote)
    as (resp&err&n'&Hr&_&_&Ha&_).
  exists resp, err, n'. rewrite Hr in H1. apply Some_inj, pair_equal_spec in H1 as [H1 _].
  apply pair_equal_spec in H1 as [H1 _]. assert (vr_Granted resp = true) as Hg by (by rewrite H1).
  destruct (va_granted _ _ _ _ _ Ha Hg) as (_&Ht&Hv&_).
  exact (conj Hr (conj Hg (conj Ht Hv))).
Defined.

(** Node [b] accepts the leader's first entries, twice. *)
Definition ex_request : AppendRequest := ex_append 0 0 [ex_noop; ex_entry] 1.

Definition ex_accepted (n : Node memoryDisk) : Node memoryDisk :=
  match AppendEntries ex_request n with Some (_, n') => n' | None => ex_none end.

Lemma ex_accepts n :
  match AppendEntries ex_request n with
  | Some ((mkAppendResponse t ok m c, None), _) => (t =? 1) && ok && (m =? 2) && (c =? 0)
  | _ => false end = true →
  AppendEntries ex_request n = Some ((mkAppendResponse 1 true 2 0, None), ex_accepted n).
Proof.
  unfold ex_accepted. destruct (AppendEntries ex_request n) as [[[[t ok m c] [e|]] n']|]; try done.
  intros H. apply andb_true_iff in H as [H ->%N.eqb_eq]. apply andb_true_iff in H as [H ->%N.eqb_eq].
  by apply andb_true_iff in H as [->%N.eqb_eq ->].
Qed.

Lemma ex_typed_append : typed_append ex_request.
Proof. apply (bool_decide_unpack _). vm_compute. done. Qed.

#[local] Opaque ex_accepted.

Lemma AppendEntries_spec_witness :
  ∃ resp err n', AppendEntries ex_request ex_b = Some ((resp, err), n') ∧ ar_Success resp = true ∧
    acceptable ex_b ex_request ∧ log_at (n_state n') 2 = Some ex_entry ∧ commit_of n' = 1.
Proof.
  assert (roomy ex_b (lenN (aq_Entries ex_request))) as Hroom
    by (apply roomy_check; vm_cast_no_check (@eq_refl bool true)).
  assert (AppendEntries ex_request ex_b = Some ((mkAppendResponse 1 true 2 0, None), ex_accepted ex_b)) as H1
    by (apply ex_accepts; vm_cast_no_check (@eq_refl bool true)).
  destruct (AppendEntries_spec ex_request ex_b ex_b_quiescent ex_typed_append Hroom)
    as (resp&err&n'&Hr&_&_&Ha&_).
  exists resp, err, n'. rewrite Hr in H1. apply Some_inj, pair_equal_spec in H1 as [H1 ->].
  apply pair_equal_spec in H1 as [H1 _]. assert (ar_Success resp = true) as Hs by (by rewrite H1).
  destruct (an_accepted _ _ _ _ _ Ha Hs) as (_&_&_&_&Hacc). specialize (Hacc eq_refl).
  destruct (ac_entries _ _ _ Hacc 1%nat ex_entry eq_refl) as [_ He].
  refine (conj Hr (conj Hs (conj (an_sound _ _ _ _ _ Ha Hs) (conj He _)))). vm_cast_no_check (@eq_refl N 1).
Defined.

Lemma AppendEntries_again_witness :
  ∃ n2, AppendEntries ex_request (ex_accepted ex_b) =
      Some ((mkAppendResponse 1 true 2 0, None), n2) ∧
    ∀ i, log_at (n_state n2) i = log_at (n_state (ex_accepted ex_b)) i.
Proof.
  assert (AppendEntries ex_request ex_b = Some ((mkAppendResponse 1 true 2 0, None), ex_accepted ex_b)) as H1
    by (apply ex_accepts; vm_cast_no_check (@eq_refl bool true)).
  assert (AppendEntries ex_request (ex_accepted ex_b) =
    Some ((mkAppendResponse 1 true 2 0, None), ex_accepted (ex_accepted ex_b))) as H2
    by (apply ex_accepts; vm_cast_no_check (@eq_refl bool true)).
  assert (availableLocked (ex_accepted ex_b) = true) as Hav by (vm_cast_no_check (@eq_refl bool true)).
  assert (n_failed (ex_accepted (ex_accepted ex_b)) = None) as Hf
    by (vm_cast_no_check (@eq_refl (option error) None)).
  exists (ex_accepted (ex_accepted ex_b)). refine (conj H2 _).
  exact (proj1 (proj2 (proj2 (AppendEntries_again ex_request ex_b _ _ _ _ _ _ ex_b_quiescent
    ex_typed_append eq_refl H1 eq_refl Hav H2 Hf)))).
Defined.

(** The client of the submitted command. *)
Definition ex_outcome : outcome := mkOutcome (mkResult "v" true true false) None.
Definition ex_polled (n : Node memoryDisk) : Node memoryDisk :=
  set_chans (<[0 := None]> (n_chans n)) n.

Lemma ex_polls : Poll ex_ticket ex_committed = Some (Some ex_outcome, ex_polled ex_committed).
Proof.
  assert (n_chans ex_committed !! t_done ex_ticket = Some (Some ex_outcome)) as Hc
    by (vm_cast_no_check (@eq_refl (option (option outcome)) (Some (Some ex_outcome)))).
  rewrite Poll_eq, Hc. done.
Qed.

Lemma ticket_outcome_witness :
  ∃ hist, explains hist ex_committed ∧ hist !! 1%nat = Some (mkEntry 2 1 (Some ex_command)) ∧
    ex_outcome = answer (history_machine (take 1 hist)) (mkEntry 2 1 (Some ex_command)) (mkWaiter None 0).
Proof.
  destruct (proj2 (alive_quiescent ex_a ex_a_alive)) as [hist0 Hh0].
  destruct (ev_explains _ _ hist0 (steps_evolves _ _ ex_a_quiescent ex_leader_steps) Hh0) as [more0 Hh].
  destruct (ticket_outcome (Some ex_command) None ex_ticket ex_outcome _ ex_leader _ _ _
    ex_leader_quiescent ex_rep_command ex_submits ex_committed_steps ex_polls Hh)
    as (more&Hm&[(err&_&Hout)|(He&_&Ha)]); [discriminate Hout|].
  assert (term_of ex_leader = 1) as Ht by (vm_cast_no_check (@eq_refl N 1)). rewrite Ht in He, Ha.
  exact (ex_intro _ _ (conj Hm (conj He Ha))).
Defined.

Lemma ticket_once_witness :
  Poll ex_ticket (ex_polled ex_committed) = Some (None, ex_polled ex_committed).
Proof.
  assert (t_done ex_ticket < n_newchan ex_committed) as Hlt by (vm_cast_no_check (@eq_refl comparison Lt)).
  exact (ticket_once ex_ticket ex_outcome _ _ _ ex_committed_quiescent Hlt ex_polls (rtc_refl _ _)).
Defined.

(** The leader learns that [b] has its two entries. *)
Lemma quiescent_match {J} `{JournalLaws J, CodecLaws} m (n : Node J) :
  quiescent n → quiescent (set_match m n).
Proof. intros Hq. apply (post_quiescent n); [done|]. by apply post_core, Hq. Qed.

Definition ex_matched : Node memoryDisk := set_match (<["b" := 2]> (n_match ex_submitted)) ex_submitted.

Lemma ex_matched_quiescent : quiescent ex_matched.
Proof. exact (quiescent_match _ _ ex_submitted_quiescent). Qed.

Lemma commit_rule_witness :
  ∃ n', advanceCommitLocked ex_matched = Some (tt, n') ∧ quiescent n' ∧ commit_of n' = 2.
Proof.
  assert (match advanceCommitLocked ex_matched with Some (_, n') => commit_of n' | None => 0 end = 2)
    as Hc by (vm_cast_no_check (@eq_refl N 2)).
  pose proof (commit_rule ex_matched ex_matched_quiescent) as H.
  destruct (advanceCommitLocked ex_matched) as [[[] n']|] eqn:Hr.
  - exact (ex_intro _ n' (conj eq_refl (conj (proj1 H) Hc))).
  - discriminate Hc.
Defined.

Lemma leader_append_only_witness :
  last_index (n_state ex_leader) ≤ last_index (n_state ex_committed) ∧
  log_at (n_state ex_committed) 1 = log_at (n_state ex_leader) 1.
Proof.
  assert (n_role ex_leader = leader) as H1 by (vm_cast_no_check (@eq_refl role leader)).
  assert (n_role ex_committed = leader) as H2 by (vm_cast_no_check (@eq_refl role leader)).
  assert (term_of ex_leader = term_of ex_committed) as H3 by (vm_cast_no_check (@eq_refl N 1)).
  destruct (leader_append_only _ _ ex_leader_quiescent ex_life_steps H1 H2 H3) as [Hl Ha].
  refine (conj Hl (Ha 1 _ _)); apply N.leb_le; vm_cast_no_check (@eq_refl bool true).
Defined.

(** The leader's disk fails after writing the record of a submission. *)
Definition ex_faulty : Node memoryDisk :=
  set_nstore (set_wal (mkMemoryDisk (md_records (st_wal (n_store ex_leader))) "after")
    (n_store ex_leader)) ex_leader.
Definition ex_failed : Node memoryDisk := ex_run [CSubmit (Some ex_command) None] ex_faulty.

Lemma faults_step (n : Node memoryDisk) f :
  node_step n (set_nstore (set_wal (mkMemoryDisk (md_records (st_wal (n_store n))) f) (n_store n)) n).
Proof. apply step_disk. by destruct n. Qed.

Lemma ex_failed_steps : rtc node_step ex_leader ex_failed.
Proof.
  eapply rtc_l; [exact (faults_step ex_leader "after")|].
  apply (ex_run_steps [CSubmit (Some ex_command) None] ex_faulty). vm_cast_no_check (@eq_refl bool true).
Qed.

Lemma ex_failed_quiescent : quiescent ex_failed.
Proof. exact (steps_quiescent _ _ ex_leader_quiescent ex_failed_steps). Qed.

Definition failedb {J} (n : Node J) : bool := bool_decide (n_failed n ≠ None).

Lemma failed_check {J} (n : Node J) : failedb n = true → n_failed n ≠ None.
Proof. by intros H%bool_decide_eq_true. Qed.

Lemma ex_failed_failed : n_failed ex_failed ≠ None.
Proof. apply failed_check. vm_cast_no_check (@eq_refl bool true). Qed.

#[local] Opaque ex_failed ex_faulty.

Lemma failed_node_silent_witness :
  n_role ex_failed = follower ∧
  ∀ command readKey, submitLocked command readKey ex_failed = Some (inl ErrUnavailable, ex_failed).
Proof.
  destruct (failed_node_silent ex_failed ex_failed ex_failed_quiescent ex_failed_failed (rtc_refl _ _))
    as (_&Hr&_&_&_&Hs).
  exact (conj Hr Hs).
Defined.

Definition ex_reopened : option (error + Node memoryDisk) :=
  OpenWithRuntime (ex_cfg "a") false ex_rt (st_wal (n_store ex_failed)).

Lemma ex_reopens :
  match ex_reopened with Some (inr n) => last_index (n_state n) =? 2 | _ => false end = true →
  ∃ n', ex_reopened = Some (inr n') ∧ last_index (n_state n') = 2.
Proof. destruct ex_reopened as [[|n']|]; try done. intros H%N.eqb_eq. by exists n'. Qed.

(** The record the failing disk has kept is found by the next life. *)
Lemma crash_recovery_witness :
  ∃ n', ex_reopened = Some (inr n') ∧ reopened ex_failed n' ∧ last_index (n_state n') = 2.
Proof.
  assert (st_identity (n_store ex_failed) = "identity") as Hid by (vm_cast_no_check (@eq_refl string "identity")).
  assert (readable (identity_cfg (ex_cfg "a")) (st_wal (n_store ex_failed))) as Hroom
    by (apply readable_check; vm_cast_no_check (@eq_refl bool true)).
  assert (typed_config (ex_cfg "a")) as Hty by repeat constructor.
  destruct ex_reopens as (n'&Ho&Hl); [vm_cast_no_check (@eq_refl bool true)|].
  pose proof (crash_recovery (ex_cfg "a") false ex_rt ex_failed ex_failed_quiescent Hty (eq_sym Hid) Hroom) as H.
  fold ex_reopened in H. rewrite Ho in H.
  exact (ex_intro _ n' (conj Ho (conj (proj1 H) Hl))).
Defined.

Lemma never_panics_witness : ∃ n'', run_call CTick ex_committed = Some (tt, n'') ∧ quiescent n''.
Proof.
  assert (base_of ex_leader = 0) as Hb by (vm_cast_no_check (@eq_refl N 0)).
  assert (cfg_SnapshotEvery (n_cfg ex_leader) = 0) as Hs by (vm_cast_no_check (@eq_refl N 0)).
  assert (roomy ex_committed 1) as Hroom by (apply roomy_check; vm_cast_no_check (@eq_refl bool true)).
  exact (never_panics CTick ex_leader ex_committed ex_leader_quiescent Hb Hs ex_life_steps I Hroom).
Defined.

Definition ex_call : option (option AppendRequest * Node memoryDisk) :=
  replicate_call (ex_peer "b") ex_committed.

Lemma ex_calls :
  match ex_call with Some (Some req, _) => aq_PrevLogIndex req =? 2 | _ => false end = true →
  ∃ req n', ex_call = Some (Some req, n') ∧ aq_PrevLogIndex req = 2.
Proof. destruct ex_call as [[[req|] n']|]; try done. intros H%N.eqb_eq. by exists req, n'. Qed.

Lemma replicate_call_spec_witness :
  ∃ req, prepared ex_committed (ex_peer "b") req ∧ aq_PrevLogIndex req = 2.
Proof.
  destruct ex_calls as (req&n'&Hc&Hp); [vm_cast_no_check (@eq_refl bool true)|].
  exact (ex_intro _ req (conj (proj1 (replicate_call_spec (ex_peer "b") ex_committed req n'
    ex_committed_quiescent Hc)) Hp)).
Defined.

(** Node [b] in the last term. *)
Definition ex_last_term : list call :=
  [CAppendEntries (mkAppendRequest "" "c" (two64 - 1) "a" 0 0 [] 0)].
Definition ex_last : Node memoryDisk := ex_run ex_last_term ex_b.
Definition ex_elected : Node memoryDisk :=
  match startElectionLocked ex_last with Some (_, n) => n | None => ex_none end.

Lemma ex_last_steps : rtc node_step ex_b ex_last.
Proof. apply ex_run_steps. vm_cast_no_check (@eq_refl bool true). Qed.

Lemma ex_last_quiescent : quiescent ex_last.
Proof. exact (steps_quiescent _ _ ex_b_quiescent ex_last_steps). Qed.

Lemma ex_elects :
  match startElectionLocked ex_last with Some _ => true | None => false end = true →
  startElectionLocked ex_last = Some (tt, ex_elected).
Proof. unfold ex_elected. by destruct (startElectionLocked ex_last) as [[[] ?]|]. Qed.

#[local] Opaque ex_last ex_elected.

Lemma last_term_safe_witness : n_failed ex_elected ≠ None ∧ n_state ex_elected = n_state ex_last.
Proof.
  assert (n_role ex_last = follower) as Hr by (vm_cast_no_check (@eq_refl role follower)).
  assert (n_role ex_last ≠ leader) as Hr' by (rewrite Hr; discriminate).
  assert (n_failed ex_last = None) as Hf by (vm_cast_no_check (@eq_refl (option error) None)).
  assert (term_of ex_last = two64 - 1) as Ht by (vm_cast_no_check (@eq_refl N (two64 - 1))).
  assert (startElectionLocked ex_last = Some (tt, ex_elected)) as He
    by (apply ex_elects; vm_cast_no_check (@eq_refl bool true)).
  destruct (last_term_safe _ _ ex_last_quiescent Hr' Hf Ht He) as (H1&H2&_).
  exact (conj H1 H2).
Defined.

(** A follower that has compacted to 3 asks the leader to resume at 4. *)
Lemma refusal_backs_up_witness :
  ∃ n', acceptAppendLocked (ex_peer "b") (ex_append 1 1 [] 0) (mkAppendResponse 1 false 0 4) None
      ex_committed = Some (true, n') ∧ next_of n' "b" = 1.
Proof.
  assert (availableLocked ex_committed = true) as Ha by (vm_cast_no_check (@eq_refl bool true)).
  assert (n_role ex_committed = leader) as Hl by (vm_cast_no_check (@eq_refl role leader)).
  assert (1 = term_of ex_committed) as Ht by (vm_cast_no_check (@eq_refl N 1)).
  destruct (refusal_backs_up (ex_peer "b") (ex_append 1 1 [] 0) (mkAppendResponse 1 false 0 4)
    ex_committed Ha Hl Ht Ht eq_refl eq_refl eq_refl) as (n'&Hr&Hn&_&_).
  exact (ex_intro _ n' (conj Hr Hn)).
Defined.

(** ** A leader on files, that compacts its log at every commit *)

Definition ex_files_dir : WAL * Disk :=
  (mkWAL raft_wal false None None, disk_of raft_wal [] ∅ [] []).

Lemma ex_files_dir_holds : j_holds ex_files_dir [].
Proof.
  split_and!; [done| |by split]. by apply settled_holds; [apply Forall_nil|split].
Qed.

Definition ex_files_cfg : Config :=
  mkConfig "a" "c" "" [ex_peer "a"; ex_peer "b"; ex_peer "c"] "" 0 0 0 0 0 1.

Definition ex_files_open : option (error + Node (WAL * Disk)) :=
  OpenWithRuntime ex_files_cfg false ex_rt ex_files_dir.
Definition ex_files_none : Node (WAL * Disk) :=
  initial_node ex_files_cfg ∅ ex_rt (set_wal ex_files_dir (emptyStore "")) New 0.
Definition ex_files : Node (WAL * Disk) :=
  match ex_files_open with Some (inr n) => n | _ => ex_files_none end.

(** Both peers confirm the first two entries; then [b] asks for the first again. *)
Definition ex_compaction : list call :=
  [CTick; CDeliverVote (mkMessage 1 "a" "b" (Some ex_vote) None) (mkVoteResponse 1 true) None;
   CSubmit (Some ex_command) None;
   CReplicateReturn (ex_peer "b") (ex_append 0 0 [ex_noop; ex_entry] 0) (mkAppendResponse 1 true 2 0) None;
   CReplicateReturn (ex_peer "c") (ex_append 0 0 [ex_noop; ex_entry] 0) (mkAppendResponse 1 true 2 0) None;
   CReplicateReturn (ex_peer "b") (ex_append 2 1 [] 2) (mkAppendResponse 1 false 0 1) None].

Definition ex_compacted : Node (WAL * Disk) :=
  match run_script ex_compaction ex_files with Some n => n | None => ex_files_none end.

Lemma ex_files_opens :
  match ex_files_open with Some (inr _) => true | _ => false end = true →
  ex_files_open = Some (inr ex_files).
Proof. unfold ex_files. by destruct ex_files_open as [[]|]. Qed.

Lemma ex_files_alive : alive ex_files.
Proof.
  apply (alive_open ex_files_cfg false ex_rt ex_files_dir).
  - repeat constructor.
  - exact ex_files_dir_holds.
  - apply ex_files_opens. vm_cast_no_check (@eq_refl bool true).
Qed.

Lemma ex_compacted_runs :
  match run_script ex_compaction ex_files with Some _ => true | None => false end = true →
  run_script ex_compaction ex_files = Some ex_compacted.
Proof. unfold ex_compacted. by destruct (run_script ex_compaction ex_files). Qed.

Lemma ex_compacted_quiescent : quiescent ex_compacted.
Proof.
  assert (rtc node_step ex_files ex_compacted) as Hs.
  { apply (run_script_steps ex_compaction), ex_compacted_runs. vm_cast_no_check (@eq_refl bool true). }
  exact (steps_quiescent _ _ (proj1 (alive_quiescent _ ex_files_alive)) Hs).
Qed.

#[local] Opaque ex_files ex_compacted.

Lemma prepareAppend_below_base_witness : prepareAppendLocked (ex_peer "b") ex_compacted = None.
Proof.
  assert (resume ex_compacted (ex_peer "b") < base_of ex_compacted) as Hlt
    by (vm_cast_no_check (@eq_refl comparison Lt)).
  exact (prepareAppend_below_base (ex_peer "b") ex_compacted ex_compacted_quiescent Hlt).
Defined.

Lemma Inspect_panics_iff_witness : Inspect 0 ex_compacted = None.
Proof.
  assert (last_index (n_state ex_compacted) + 1 < two64) as Hl by (vm_cast_no_check (@eq_refl comparison Lt)).
  assert (N.max 1 (last_index (n_state ex_compacted) + 1 - N.min (last_index (n_state ex_compacted)) 100)
    < base_of ex_compacted) as Hb by (vm_cast_no_check (@eq_refl comparison Lt)).
  exact (proj2 (Inspect_panics_iff 0 ex_compacted ex_compacted_quiescent Hl) Hb).
Defined.
