(* ===== verification/Database.v ===== *)
(** * Database: the standalone server (src/internal/database/database.go)

    Commands are checked, written to the checksummed journal and only then
    applied to the machine; opening replays the journal into an empty machine.
    The state of an operation is the [Database] with the [Disk] its journal is
    on; every method runs under the mutex and is one step.  [encoding/json] on
    commands is the interface [Codec], with its laws and an instance that
    evaluates. *)

From Stdlib Require Import Strings.Byte.
From stdpp Require Import base numbers list gmap strings fin_maps options.
From S2P Require Import Prelude Effects Bytes StateMachine Wal Store Codec.

Local Open Scope N_scope.

Record Database := mkDatabase {
  machine : Machine;
  wal : WAL;
  failed : bool;
  closed : bool;
}.

Record DatabaseStats := mkStats {
  Keys : nat;
  AppliedOperations : N;
  Healthy : bool;
}.

Section operations.
Context `{!Codec Command}.

(** The callback [Open] hands to the journal. *)
Definition replay_command (payload : bytes) (m : Machine) : Machine * option error :=
  match unmarshal payload with
  | inl err => (m, Some err)
  | inr command => let '(m, (_, err)) := Apply m command in (m, err)
  end.

Definition Open : M Disk (error + Database) :=
  x ← Wal.Open replay_command New;
  match x with
  | (_, inl err) => mret (inl err)
  | (m, inr w) => mret (inr (mkDatabase m w false false))
  end.

Definition Execute (c : Command) : M (Database * Disk) (Result * option error) := λ '(d, disk),
  if closed d || failed d then Some ((zeroResult, Some ErrDatabaseUnavailable), (d, disk))
  else
    let '(result, duplicate, err) := Check (machine d) c in
    if duplicate || bool_decide (err ≠ None) then Some ((result, err), (d, disk))
    else
      match marshal c with
      | inl err => Some ((zeroResult, Some err), (d, disk))
      | inr payload =>
        match Append payload (wal d, disk) with
        | None => None
        | Some (Some err, (w, disk)) =>
          Some ((zeroResult, Some (ErrJoin ErrDatabaseUnavailable err)),
                (mkDatabase (machine d) w true (closed d), disk))
        | Some (None, (w, disk)) =>
          let '(m, r) := Apply (machine d) c in
          Some (r, (mkDatabase m w (failed d) (closed d), disk))
        end
      end.

(** The value, whether it was found, and the error. *)
Definition Get (d : Database) (key : string) : string * bool * option error :=
  if closed d || failed d then ("", false, Some ErrDatabaseUnavailable)
  else (StateMachine.Get (machine d) key, None).

Definition Stats (d : Database) : DatabaseStats :=
  let '(keys, operations) := StateMachine.Stats (machine d) in
  mkStats keys operations (negb (closed d) && negb (failed d)).

Definition Close : M (Database * Disk) (option error) := λ '(d, disk),
  if closed d then Some (None, (d, disk))
  else
    match Wal.Close (wal d, disk) with
    | None => None
    | Some (err, (w, disk)) => Some (err, (mkDatabase (machine d) w (failed d) true, disk))
    end.

(** A client's commands, one after the other. *)
Fixpoint execute_all (cs : list Command) : M (Database * Disk) (list (Result * option error)) :=
  match cs with
  | [] => mret []
  | c :: cs' => r ← Execute c; rs ← execute_all cs'; mret (r :: rs)
  end.

End operations.

(** ** The contract of [encoding/json] on commands *)

(** What [Check] lets through is representable. *)
Lemma rep_valid_command c : Validate c = None → c_RequestID c < two64 → rep_command c.
Proof.
  intros Hv Hid. apply Validate_None in Hv as ((?&_&_)&_&(_&_&?)&[_ ?]&[_ ?]&Hop).
  split; try done. by destruct Hop as [->|[->| ->]].
Qed.

Definition text_bytes (c : Command) : N :=
  strlenN (c_ClientID c) + strlenN (c_Operation c) + strlenN (c_Key c) + strlenN (c_Value c) +
  strlenN (c_Expected c).

(** Representable commands survive the round trip; an encoding is not empty, a
    byte of text takes at most six bytes ([\u003c]) and the rest of the object,
    its field names and the request id, at most 256. *)
Class CommandCodecLaws `{Codec Command} : Prop := {
  command_roundtrip : ∀ c, rep_command c → ∃ b, marshal c = inr b ∧ unmarshal b = inr c ∧
    0 < lenN b ∧ lenN b ≤ 6 * text_bytes c + 256;
  command_decodes : ∀ b c, unmarshal b = inr c → rep_command c;
}.

(** A valid command always fits in one record of the journal. *)
Lemma valid_command_fits c :
  Validate c = None → 6 * text_bytes c + 256 ≤ MaxRecordBytes.
Proof.
  intros Hv. apply Validate_None in Hv as ((_&_&?)&_&(_&?&_)&[? _]&[? _]&Hop).
  unfold text_bytes, MaxRecordBytes, MaxValueBytes in *.
  assert (strlenN (c_Operation c) ≤ 6) by (by destruct Hop as [->|[->| ->]]). lia.
Qed.

(** ** Invariant *)

Section invariant.
Context `{HC : Codec Command, HCL : !CommandCodecLaws}.

(** The journal of [d] replays to the machine [m]. *)
Definition durable (d : Database) (disk : Disk) (m : Machine) : Prop :=
  w_path (wal d) = "commands.wal" ∧ absent "raft.wal" disk ∧
  ∃ bs, wal_holds (wal d) disk bs ∧ replay_all replay_command bs New = (m, None).

(** A database in use: its journal is open and not poisoned, and replays to
    the machine in memory. *)
Definition in_use (d : Database) (disk : Disk) : Prop :=
  durable d disk (machine d) ∧
  (failed d = false → closed d = false → w_open (wal d) = true ∧ w_failed (wal d) = None).

Lemma replay_all_snoc {R} (replay : bytes → R → R * option error) bs b r r1 r2 :
  replay_all replay bs r = (r1, None) → replay b r1 = (r2, None) →
  replay_all replay (bs ++ [b]) r = (r2, None).
Proof.
  revert r. induction bs as [|a bs IH]; intros r; cbn.
  - by intros [= ->] ->.
  - destruct (replay a r) as [r' [e|]]; [done|]. apply IH.
Qed.

Lemma replay_fresh m c b :
  fresh m c → unmarshal b = inr c → replay_command b m = ((Apply m c).1, None).
Proof.
  intros Hf Hb. unfold replay_command. rewrite Hb, (Apply_fresh _ _ Hf). done.
Qed.

(** What one [Execute] does, whatever calls to the system fail. *)
Inductive executed (c : Command) (d : Database) (disk : Disk) :
    Result * option error → Database → Disk → Prop :=
  | executed_unavailable :
    closed d || failed d = true →
    executed c d disk (zeroResult, Some ErrDatabaseUnavailable) d disk
  | executed_known r :          (* a duplicate or a rejected command *)
    closed d || failed d = false → ¬ fresh (machine d) c → Apply (machine d) c = (machine d, r) →
    executed c d disk r d disk
  | executed_new w disk' :
    closed d || failed d = false → fresh (machine d) c →
    durable (mkDatabase (Apply (machine d) c).1 w false false) disk' (Apply (machine d) c).1 →
    w_open w = true → w_failed w = None →
    executed c d disk (Apply (machine d) c).2
      (mkDatabase (Apply (machine d) c).1 w (failed d) (closed d)) disk'
  | executed_failed w disk' e m :
    closed d || failed d = false → fresh (machine d) c → faults disk ≠ [] →
    let d' := mkDatabase (machine d) w true (closed d) in
    durable d' disk' m → m = machine d ∨ m = (Apply (machine d) c).1 →
    executed c d disk (zeroResult, Some (ErrJoin ErrDatabaseUnavailable e)) d' disk'.

Lemma Execute_spec c d disk :
  in_use d disk → c_RequestID c < two64 →
  ∃ r d' disk', Execute c (d, disk) = Some (r, (d', disk')) ∧ executed c d disk r d' disk'.
Proof using HCL.
  intros [(Hp&Ho&bs&Hh&Hr) Huse] Hid. unfold Execute.
  destruct (closed d || failed d) eqn:Hcf.
  { eexists _, d, disk. split; [done|]. by constructor. }
  destruct (proj1 (orb_false_iff _ _) Hcf) as [Hcl Hfl].
  destruct (Huse Hfl Hcl) as [Hopen Hwf].
  destruct (Check_cases (machine d) c) as [[e He]|[(p&_&_&_&Hd)|Hf]].
  - rewrite He, bool_decide_eq_true_2, orb_true_r by done. eexists _, d, disk. split; [done|].
    apply executed_known; [done| |by eapply Apply_error]. unfold fresh. by rewrite He.
  - rewrite Hd. eexists _, d, disk. split; [done|].
    apply executed_known; [done| |by apply Apply_dup]. unfold fresh. by rewrite Hd.
  - pose proof (fresh_valid _ _ Hf) as Hv. pose proof (rep_valid_command c Hv Hid) as Hrep.
    destruct (command_roundtrip c Hrep) as (b&Hb&Hub&Hb0&Hb1).
    pose proof (valid_command_fits c Hv) as Hfit.
    assert (valid_payload b) as Hvp by (split; lia).
    rewrite Hf. rewrite (bool_decide_eq_false_2 (@None error ≠ None)) by naive_solver.
    cbn [orb]. rewrite Hb.
    destruct (Append_spec b (wal d) disk bs Hh)
      as (err&w'&disk'&Ha&Hp'&Ho'&_&Hoth&_&Hok&Herr&_&Hlive).
    rewrite Ha. pose proof (replay_fresh _ _ _ Hf Hub) as Hrep1.
    assert (absent "raft.wal" disk') as Ho'' by (eapply absent_same; [|exact Ho]; apply Hoth; by rewrite Hp).
    destruct err as [e|].
    + eexists _, _, disk'. split; [done|].
      assert (faults disk ≠ []) as Hfaults.
      { intros Hq. by destruct (Hlive Hwf Hopen Hq Hvp). }
      destruct (Herr ltac:(done)) as [Hh'|[_ Hh']].
      * eapply (executed_failed _ _ _ w' disk' e (machine d)); [done..| |by left].
        split_and!; cbn; [congruence|done|]. by exists bs.
      * eapply (executed_failed _ _ _ w' disk' e); [done..| |by right].
        split_and!; cbn; [congruence|done|]. exists (bs ++ [b]). split; [done|].
        by eapply replay_all_snoc.
    + destruct (Hok eq_refl) as (_&Hwf'&_&Hh').
      destruct (Apply (machine d) c) as [m r] eqn:Hap. eexists _, _, disk'. split; [done|].
      pose proof (executed_new c d disk w' disk') as Hnew. rewrite Hap in Hnew.
      apply Hnew; try done; [|congruence]. split_and!; cbn; [congruence|done|].
      exists (bs ++ [b]). split; [done|]. eapply replay_all_snoc; [exact Hr|]. done.
Qed.

Lemma executed_in_use c d disk r d' disk' :
  in_use d disk → executed c d disk r d' disk' → r.2 = None ∨ failed d' = failed d →
  in_use d' disk' ∧ machine d' = (if r.2 then machine d else (Apply (machine d) c).1).
Proof.
  intros Huse Hex Hcase. destruct Hex as [Hcf|r Hcf Hnf Ha|w disk' Hcf Hf Hd Hw1 Hw2|w disk' e m Hcf Hf _ d' Hd Hm].
  - done.
  - split; [done|]. rewrite Ha. by destruct (r.2).
  - split; [|by rewrite (Apply_fresh _ _ Hf)]. split; [exact Hd|]. cbn. auto.
  - exfalso. apply orb_false_iff in Hcf as [_ Hfl]. cbn in Hcase.
    destruct Hcase; [done|congruence].
Qed.

(** Once unavailable, always unavailable. *)
Lemma execute_all_unavailable cs d disk :
  closed d || failed d = true →
  execute_all cs (d, disk) =
    Some (replicate (length cs) (zeroResult, Some ErrDatabaseUnavailable), (d, disk)).
Proof.
  intros Hcf. induction cs as [|c cs IH]; [done|]. cbn [execute_all].
  erewrite bind_ok by (unfold Execute; by rewrite Hcf). erewrite bind_ok by exact IH. done.
Qed.

(** The commands whose execution was acknowledged, and their results. *)
Fixpoint acknowledged (cs : list Command) (rs : list (Result * option error)) : list Command :=
  match cs, rs with
  | c :: cs', (_, None) :: rs' => c :: acknowledged cs' rs'
  | _ :: cs', (_, Some _) :: rs' => acknowledged cs' rs'
  | _, _ => []
  end.

Definition results (rs : list (Result * option error)) : list (Result * option error) :=
  filter (λ r, r.2 = None) rs.

Lemma acknowledged_replicate cs r e :
  acknowledged cs (replicate (length cs) (r, Some e)) = [] ∧
  results (replicate (length cs) (r, Some e)) = [].
Proof. by induction cs. Qed.

Lemma execute_all_spec cs d disk :
  in_use d disk → Forall (λ c, c_RequestID c < two64) cs →
  ∃ rs d' disk' extra, execute_all cs (d, disk) = Some (rs, (d', disk')) ∧
    ApplyAll (machine d) (acknowledged cs rs) = (machine d', results rs) ∧
    durable d' disk' (ApplyAll (machine d') extra).1 ∧
    (extra = [] ∨ ∃ i c e, cs !! i = Some c ∧ extra = [c] ∧ fresh (machine d') c ∧
      rs !! i = Some (zeroResult, Some (ErrJoin ErrDatabaseUnavailable e))).
Proof using HCL.
  revert d disk. induction cs as [|c cs IH]; intros d disk Huse Hty.
  { exists [], d, disk, []. split_and!; [done|done| |by left]. apply Huse. }
  apply Forall_cons in Hty as [Hid Hty].
  destruct (Execute_spec c d disk Huse Hid) as (r&d1&disk1&He&Hex). cbn [execute_all].
  erewrite bind_ok by exact He.
  assert (r.2 = None ∨ failed d1 = failed d ∨ failed d = false ∧ failed d1 = true) as Hcase.
  { destruct Hex as [| | |? ? ? ? Hcf]; [by auto..|]. apply orb_false_iff in Hcf as [_ ->]. auto. }
  assert (r.2 = None ∨ failed d1 = failed d → ∃ rs d' disk' extra,
    (rs ← execute_all cs; mret (r :: rs)) (d1, disk1) = Some (rs, (d', disk')) ∧
    ApplyAll (machine d) (acknowledged (c :: cs) rs) = (machine d', results rs) ∧
    durable d' disk' (ApplyAll (machine d') extra).1 ∧
    (extra = [] ∨ ∃ i c0 e, (c :: cs) !! i = Some c0 ∧ extra = [c0] ∧ fresh (machine d') c0 ∧
      rs !! i = Some (zeroResult, Some (ErrJoin ErrDatabaseUnavailable e)))) as Hgo.
  { intros Hok. destruct (executed_in_use c d disk r d1 disk1 Huse Hex Hok) as [Huse1 Hm1].
    destruct (IH d1 disk1 Huse1 Hty) as (rs&d'&disk'&extra&Hr&Hall&Hdur&Hextra).
    exists (r :: rs), d', disk', extra. erewrite bind_ok by exact Hr. split; [done|].
    split_and!; [|done|].
    - destruct r as [res [e|]]; cbn [acknowledged results snd] in *.
      + unfold results. rewrite filter_cons_False by done. by rewrite <-Hm1.
      + unfold results. rewrite filter_cons_True by done. cbn [ApplyAll].
        assert ((Apply (machine d) c).2 = (res, None)) as Hres.
        { inversion Hex as [|? ? ? Ha|? ? ? ? ? ? ? Ha|]; subst; [by rewrite Ha|done]. }
        destruct (Apply (machine d) c) as [m1 r1]. cbn in Hm1, Hres. subst r1.
        rewrite <-Hm1, Hall. done.
    - destruct Hextra as [->|(i&c0&e&?&?&?&?)]; [by left|right]. by exists (S i), c0, e. }
  destruct Hcase as [Hok|[Hok|[Hf0 Hf1]]]; [by apply Hgo; auto..|].
  destruct Hex as [|r Hcf Hnf Ha|w disk' Hcf Hf Hd Hw1 Hw2|w disk' e m Hcf Hf _ d' Hd Hm];
    [congruence..|cbn in Hf1; congruence|].
  erewrite bind_ok by (apply execute_all_unavailable; by rewrite orb_true_r).
  eexists (_ :: _), _, disk', (if bool_decide (m = machine d) then [] else [c]). split; [done|].
  destruct (acknowledged_replicate cs zeroResult ErrDatabaseUnavailable) as [Hack Hres].
  cbn [acknowledged machine]. rewrite Hack. unfold results.
  rewrite filter_cons_False by done. fold (results (replicate (length cs) (zeroResult, Some ErrDatabaseUnavailable))).
  rewrite Hres. split; [done|].
  case_bool_decide as Hmd; [subst m; split; [exact Hd|by left]|].
  destruct Hm as [?|Hm]; [done|]. split.
  - rewrite ApplyAll_cons. cbn. by rewrite <-Hm.
  - right. by exists 0%nat, c, e.
Qed.

(** Opening after the process has ended gives the machine the journal replays to. *)
Lemma Open_durable d disk m :
  durable d disk m →
  ∃ d' disk', Open (crash disk) = Some (inr d', disk') ∧ machine d' = m ∧ in_use d' disk' ∧
    failed d' = false ∧ closed d' = false.
Proof.
  intros (Hp&Ho&bs&Hh&Hr).
  pose proof (reopen_holds replay_command (wal d) disk bs New) as H. rewrite Hp, Hr in H.
  destruct H as (disk'&Hopen&Hh'&_&_&Ho'); [by left|done..|].
  unfold Open, Wal.Open. erewrite bind_ok by exact Hopen.
  eexists _, disk'. split; [done|]. split; [done|]. split; [|done]. split; [|done].
  split_and!; [done..|]. by exists bs.
Qed.

(** An empty directory. *)
Lemma durable_new w :
  w_path w = "commands.wal" → durable (mkDatabase New w false false)
    (disk_of "commands.wal" [] ∅ [] []) New.
Proof.
  intros Hp. split_and!; [done|by split|]. exists []. split; [|done].
  apply settled_holds; [by apply Forall_nil|]. cbn. rewrite Hp. by split.
Qed.

(** ** Properties *)

(** C23. Durability of the standalone database: run any commands on it while reads,
    writes and syncs fail in any way.  The acknowledged commands have had exactly
    the results and the effect of running them alone, one after the other, and
    after the process has ended, or the power has failed and taken any part of
    what was not synced, the database opens again with their effect and, at most,
    the effect of one more command, whose client was told that the database is
    unavailable. *)
Theorem Database_durability cs d disk :
  in_use d disk → Forall (λ c, c_RequestID c < two64) cs →
  ∃ rs d1 disk1 d2 disk2 extra,
    execute_all cs (d, disk) = Some (rs, (d1, disk1)) ∧
    ApplyAll (machine d) (acknowledged cs rs) = (machine d1, results rs) ∧
    Open (crash disk1) = Some (inr d2, disk2) ∧ in_use d2 disk2 ∧
    failed d2 = false ∧ closed d2 = false ∧
    machine d2 = (ApplyAll (machine d) (acknowledged cs rs ++ extra)).1 ∧
    (extra = [] ∨ ∃ i c e, cs !! i = Some c ∧ extra = [c] ∧
      rs !! i = Some (zeroResult, Some (ErrJoin ErrDatabaseUnavailable e))).
Proof using HCL.
  intros Huse Hty.
  destruct (execute_all_spec cs d disk Huse Hty) as (rs&d1&disk1&extra&Hrun&Hall&Hdur&Hex).
  destruct (Open_durable d1 disk1 _ Hdur) as (d2&disk2&Ho&Hm&Huse2&Hf2&Hc2).
  exists rs, d1, disk1, d2, disk2, extra. split_and!; try done.
  - by rewrite Hm, ApplyAll_app, Hall.
  - destruct Hex as [->|(i&c&e&?&?&_&?)]; [by left|right]. by exists i, c, e.
Qed.

End invariant.

(** ** A codec that evaluates: each byte of a text after a mark, then an end mark *)

Fixpoint put_text (s : string) : bytes :=
  match s with
  | EmptyString => [x00]
  | String a s' => x01 :: Ascii.byte_of_ascii a :: put_text s'
  end.

Fixpoint get_text (b : bytes) : option (string * bytes) :=
  match b with
  | x00 :: rest => Some ("", rest)
  | x01 :: a :: rest =>
    match get_text rest with
    | Some (s, rest) => Some (String (Ascii.ascii_of_byte a) s, rest)
    | None => None
    end
  | _ => None
  end.

Definition put64 (n : N) : bytes := PutUint32 (n / two32) ++ PutUint32 (n mod two32).
Definition get64 (b : bytes) : option (N * bytes) :=
  if lenN b <? 8 then None
  else Some (Uint32 (takeN 4 b) * two32 + Uint32 (dropN 4 (takeN 8 b)), dropN 8 b).

Definition put_command (c : Command) : bytes :=
  put_text (c_ClientID c) ++ put64 (c_RequestID c) ++ put_text (c_Operation c) ++
  put_text (c_Key c) ++ put_text (c_Value c) ++ put_text (c_Expected c).

Definition flat_marshal (c : Command) : error + bytes := inr (put_command c).

Definition get_command (b : bytes) : option (Command * bytes) :=
  '(client, b) ← get_text b; '(id, b) ← get64 b; '(op, b) ← get_text b;
  '(key, b) ← get_text b; '(value, b) ← get_text b; '(expected, b) ← get_text b;
  Some (mkCommand client id op key value expected, b).

Definition flat_unmarshal (b : bytes) : error + Command :=
  match get_command b with
  | Some (c, _) => if decide (rep_command c) then inr c else inl (ErrNew "invalid command")
  | None => inl (ErrNew "invalid command")
  end.

#[export] Instance flat_codec : Codec Command :=
  {| marshal := flat_marshal; unmarshal := flat_unmarshal |}.

Lemma get_put_text s rest : get_text (put_text s ++ rest) = Some (s, rest).
Proof.
  induction s as [|a s IH]; [done|]. cbn. rewrite IH. by rewrite Ascii.ascii_of_byte_of_ascii.
Qed.

Lemma length_put_text s : lenN (put_text s) = 2 * strlenN s + 1.
Proof.
  induction s as [|a s IH]; [done|]. cbn [put_text]. rewrite !lenN_cons, IH.
  unfold strlenN. cbn [String.length]. lia.
Qed.

Lemma get_put64 n rest : n < two64 → get64 (put64 n ++ rest) = Some (n, rest).
Proof.
  intros Hn. unfold get64, put64.
  assert (8 ≤ lenN ((PutUint32 (n / two32) ++ PutUint32 (n mod two32)) ++ rest)) as Hl.
  { rewrite !lenN_app. change (lenN (PutUint32 _)) with 4. lia. }
  rewrite (proj2 (N.ltb_ge _ _) Hl). do 2 f_equal.
  - rewrite <-app_assoc. rewrite (takeN_app_exact (PutUint32 _)) by done.
    rewrite app_assoc, (takeN_app_exact (_ ++ _)) by done.
    rewrite (dropN_app_exact (PutUint32 _)) by done.
    rewrite <-(app_nil_r (PutUint32 (n / two32))), <-(app_nil_r (PutUint32 (n mod two32))).
    rewrite !Uint32_PutUint32; unfold two64, two32 in *.
    + pose proof (N.Div0.div_mod n 4294967296). lia.
    + by apply N.mod_lt.
    + by apply N.Div0.div_lt_upper_bound.
  - by apply dropN_app_exact.
Qed.

#[local] Arguments put64 : simpl never.
#[local] Arguments get64 : simpl never.
#[local] Arguments put_text : simpl never.
#[local] Arguments get_text : simpl never.

Lemma get_put_command c rest :
  rep_command c → get_command (put_command c ++ rest) = Some (c, rest).
Proof.
  intros Hc. unfold get_command, put_command. rewrite <-!app_assoc. rewrite get_put_text. cbn.
  rewrite get_put64 by apply Hc. cbn. do 4 (rewrite get_put_text; cbn). by destruct c.
Qed.

Lemma length_put_command c : lenN (put_command c) = 2 * text_bytes c + 13.
Proof.
  unfold put_command. rewrite !lenN_app, !length_put_text. change (lenN (put64 _)) with 8.
  unfold text_bytes. lia.
Qed.

(** What follows a command's bytes is not looked at. *)
Lemma flat_unmarshal_app c rest :
  rep_command c → flat_unmarshal (put_command c ++ rest) = inr c.
Proof. intros Hc. unfold flat_unmarshal. rewrite get_put_command by done. by rewrite decide_True. Qed.

#[export] Instance flat_codec_laws : CommandCodecLaws.
Proof.
  split.
  - intros c Hc. exists (put_command c). split; [done|].
    split; [rewrite <-(app_nil_r (put_command c)); by apply flat_unmarshal_app|].
    rewrite length_put_command. lia.
  - intros b c. cbn. unfold flat_unmarshal.
    destruct (get_command b) as [[c' b']|]; [|done]. case_decide; [|done]. by intros [= <-].
Qed.

(** ** Witness *)

Definition ex_db : Database := mkDatabase New (mkWAL "commands.wal" true (Some true) None) false false.

(** A disk on which the second command's record is written short; then the power
    fails, and nothing is left that was not synced. *)
Definition ex_db_disk : Disk :=
  disk_of "commands.wal" [] {["commands.wal"; "directory.lock"]}
    [no_fault; no_fault; mkFault (Some 3%nat) (Some ErrInjectedDisk)] [PowerLoss (λ _, mkDamage 0 true 0)].

Definition ex_db_commands : list Command :=
  [mkCommand "a" 1 "SET" "k" "v" ""; mkCommand "a" 1 "SET" "k" "v" "";
   mkCommand "b" 1 "CAS" "k" "w" "v"; mkCommand "c" 1 "DELETE" "k" "" ""].

Definition ex_outcomes : option (list bool) :=
  match execute_all ex_db_commands (ex_db, ex_db_disk) with
  | Some (rs, _) => Some ((λ r, bool_decide (r.2 = None)) <$> rs)
  | None => None
  end.

Lemma ex_db_in_use : in_use ex_db ex_db_disk.
Proof.
  split; [|done]. split_and!; [done|by split|]. exists []. split; [|done].
  apply settled_holds; [by apply Forall_nil|by split].
Qed.

(** The retry is acknowledged without a second record, the third command fails
    and the fourth is refused; reopening shows the first write. *)
Lemma Database_durability_witness :
  ex_outcomes = Some [true; true; false; false] ∧
  ∃ rs d1 disk1 d2 disk2,
    execute_all ex_db_commands (ex_db, ex_db_disk) = Some (rs, (d1, disk1)) ∧
    Open (crash disk1) = Some (inr d2, disk2) ∧ failed d2 = false.
Proof.
  split; [vm_compute; reflexivity|].
  assert (Forall (λ c, c_RequestID c < two64) ex_db_commands) as Hty by (repeat constructor).
  destruct (Database_durability ex_db_commands ex_db ex_db_disk ex_db_in_use Hty)
    as (rs&d1&disk1&d2&disk2&extra&Hr&_&Ho&_&Hf&_).
  by exists rs, d1, disk1, d2, disk2.
Defined.
