(* ===== verification/Raft.v ===== *)
(** * Raft: the protocol without its implementation

    The replicas' durable terms, votes, full logs and commit indexes, and a
    history of the campaigns, votes, reigns and acknowledgements there have been.
    Replicas lose no durable state; messages need not be modelled, since whatever
    a replica reads in one is part of the history.  The refinement in [Refine]
    shows that the nodes of a [Cluster] take only these steps.

    Safety is proved here, on full logs: at most one reign per term, logs that
    match, leaders that have everything settled before their term, and settled
    logs that never disagree. *)

From stdpp Require Import base numbers list gmap strings functions relations options.
From S2P Require Import Prelude Effects Bytes StateMachine Wal Journal Store.

Local Open Scope N_scope.
#[local] Notation last := stdpp.list_basics.list.last.
#[local] Set Default Proof Using "Type*".

(** ** The state *)

Record replica := mkReplica {
  rp_term : N;
  rp_vote : string;
  rp_log : list Entry;      (* from index one on *)
  rp_commit : nat;
}.

(** The leadership of a term: who won it, with whose votes, on which log, and
    the log the leader has made of it. *)
Record reign := mkReign {
  rg_leader : string;
  rg_voters : gset string;
  rg_init : list Entry;
  rg_log : list Entry;
}.

Record group := mkGroup {
  g_replica : string → replica;
  g_campaign : N → string → option (list Entry);
  g_reign : N → option reign;
  g_voted : string → N → string → Prop;
  g_acked : string → N → nat → Prop;
}.

Definition last_term (l : list Entry) : N :=
  match last l with Some e => e_Term e | None => 0 end.

(** The log [l] of a voter is no more up to date than the log [lc] of a candidate. *)
Definition up_to_date (lc l : list Entry) : Prop :=
  last_term l < last_term lc ∨ last_term l = last_term lc ∧ (length l ≤ length lc)%nat.

(** A follower's log after it has accepted the first [k] entries of a leader's:
    unchanged if it has them all, else those entries and nothing after them. *)
Definition merge (k : nat) (cur l : list Entry) : list Entry :=
  if decide (take k cur `prefix_of` l) then l else take k cur.

Definition prefix_at (G : group) (t : N) (i : nat) : list Entry :=
  match g_reign G t with Some rg => take i (rg_log rg) | None => [] end.

(** Entry [i] of the leader of term [t] is of that term. *)
Definition own (G : group) (t : N) (i : nat) : Prop :=
  ∃ rg e, g_reign G t = Some rg ∧ rg_log rg !! pred i = Some e ∧ (0 < i)%nat ∧ e_Term e = t.

Section raft.
Context (P : gset string).

Definition majority (Q : gset string) : Prop := Q ⊆ P ∧ (size P / 2 < size Q)%nat.

Definition chosen (G : group) (t : N) (i : nat) : Prop :=
  own G t i ∧ ∃ Q, majority Q ∧ ∀ v, v ∈ Q → g_acked G v t i.

(** A log whose every entry was chosen, by term [t]. *)
Definition settled (G : group) (t : N) (l : list Entry) : Prop :=
  l = [] ∨ ∃ t1 i, t1 ≤ t ∧ chosen G t1 i ∧ l `prefix_of` prefix_at G t1 i.

(** ** The steps *)

Definition set_replica (v : string) (r : replica) (G : group) : group :=
  mkGroup (<[v := r]> (g_replica G)) (g_campaign G) (g_reign G) (g_voted G) (g_acked G).
Definition add_campaign (t : N) (c : string) (l : list Entry) (G : group) : group :=
  mkGroup (g_replica G) (<[t := <[c := Some l]> (g_campaign G t)]> (g_campaign G)) (g_reign G)
    (g_voted G) (g_acked G).
Definition add_vote (v : string) (t : N) (c : string) (G : group) : group :=
  mkGroup (g_replica G) (g_campaign G) (g_reign G)
    (λ v' t' c', g_voted G v' t' c' ∨ v' = v ∧ t' = t ∧ c' = c) (g_acked G).
Definition set_reign (t : N) (rg : reign) (G : group) : group :=
  mkGroup (g_replica G) (g_campaign G) (<[t := Some rg]> (g_reign G)) (g_voted G) (g_acked G).
Definition add_acks (v : string) (t : N) (k : nat) (G : group) : group :=
  mkGroup (g_replica G) (g_campaign G) (g_reign G) (g_voted G)
    (λ v' t' i, g_acked G v' t' i ∨ v' = v ∧ t' = t ∧ (i ≤ k)%nat).

Inductive raft_step (G : group) : group → Prop :=
  | rs_term v t r :
      g_replica G v = r → rp_term r < t →
      raft_step G (set_replica v (mkReplica t "" (rp_log r) (rp_commit r)) G)
  | rs_campaign c t r :
      g_replica G c = r → rp_term r = t → g_campaign G t c = None →
      (∀ i e, rp_log r !! i = Some e → e_Term e < t) →
      raft_step G (add_campaign t c (rp_log r) G)
  | rs_vote v c r lc :
      g_replica G v = r → rp_vote r = "" ∨ rp_vote r = c → c ≠ "" →
      g_campaign G (rp_term r) c = Some lc → up_to_date lc (rp_log r) →
      raft_step G (add_vote v (rp_term r) c
        (set_replica v (mkReplica (rp_term r) c (rp_log r) (rp_commit r)) G))
  | rs_elect c t Q l :
      rp_term (g_replica G c) = t → rp_log (g_replica G c) = l →
      g_campaign G t c = Some l → g_reign G t = None →
      majority Q → (∀ v, v ∈ Q → g_voted G v t c) →
      raft_step G (set_reign t (mkReign c Q l l) G)
  | rs_append c t r rg e :
      g_replica G c = r → rp_term r = t → g_reign G t = Some rg → rg_leader rg = c → e_Term e = t →
      raft_step G (add_acks c t (S (length (rg_log rg)))
        (set_reign t (mkReign c (rg_voters rg) (rg_init rg) (rg_log rg ++ [e]))
          (set_replica c (mkReplica t (rp_vote r) (rp_log r ++ [e]) (rp_commit r)) G)))
  | rs_accept v t r rg k lc :
      g_replica G v = r → rp_term r = t → g_reign G t = Some rg → (k ≤ length (rg_log rg))%nat →
      settled G t (take lc (rg_log rg)) →
      raft_step G (add_acks v t k
        (set_replica v (mkReplica t (rp_vote r) (merge k (rg_log rg) (rp_log r))
          (Nat.max (rp_commit r) (Nat.min lc k))) G))
  | rs_commit c t r rg i :
      g_replica G c = r → rp_term r = t → g_reign G t = Some rg → rg_leader rg = c → chosen G t i →
      raft_step G (set_replica c (mkReplica t (rp_vote r) (rp_log r) (Nat.max (rp_commit r) i)) G).

(** Nothing has happened. *)
Definition raft_initial (G : group) : Prop :=
  (∀ v, g_replica G v = mkReplica 0 "" [] 0) ∧ (∀ t c, g_campaign G t c = None) ∧
  (∀ t, g_reign G t = None) ∧ (∀ v t c, ¬ g_voted G v t c) ∧ ∀ v t i, ¬ g_acked G v t i.

(** ** The invariant *)

(** Up to each of its entries, a log is the log of the leader of that entry's term. *)
Definition rooted (G : group) (l : list Entry) : Prop :=
  ∀ i e, l !! i = Some e → ∃ rg, g_reign G (e_Term e) = Some rg ∧ take (S i) l `prefix_of` rg_log rg.

(** A leader of a term after [t] and before [t'] started without the first [i]
    entries of the leader of term [t]. *)
Definition lost (G : group) (t : N) (i : nat) (t' : N) : Prop :=
  ∃ t1 rg, t < t1 ∧ t1 < t' ∧ g_reign G t1 = Some rg ∧ ¬ prefix_at G t i `prefix_of` rg_init rg.

(** Whoever led term [t'] on the log [l] has what [v] acknowledged before. *)
Definition safe_vote (G : group) (v : string) (t' : N) (l : list Entry) : Prop :=
  ∀ t i, t < t' → g_acked G v t i → own G t i → prefix_at G t i `prefix_of` l ∨ lost G t i t'.

Record reign_ok (G : group) (t : N) (rg : reign) : Prop := {
  ro_rooted : rooted G (rg_log rg);
  ro_init : rg_init rg `prefix_of` rg_log rg;
  ro_terms : ∀ i e, rg_log rg !! i = Some e → (length (rg_init rg) ≤ i)%nat → e_Term e = t;
  ro_campaign : g_campaign G t (rg_leader rg) = Some (rg_init rg);
  ro_majority : majority (rg_voters rg);
  ro_voted : ∀ v, v ∈ rg_voters rg → g_voted G v t (rg_leader rg);
  ro_leader : rp_term (g_replica G (rg_leader rg)) = t →
    rp_log (g_replica G (rg_leader rg)) = rg_log rg;
  ro_safe : ∀ v, v ∈ rg_voters rg → safe_vote G v t (rg_init rg);
}.

Record inv (G : group) : Prop := {
  i_rooted : ∀ v, rooted G (rp_log (g_replica G v));
  i_terms : ∀ v i e, rp_log (g_replica G v) !! i = Some e → e_Term e ≤ rp_term (g_replica G v);
  i_commit : ∀ v, (rp_commit (g_replica G v) ≤ length (rp_log (g_replica G v)))%nat ∧
    settled G (rp_term (g_replica G v)) (take (rp_commit (g_replica G v)) (rp_log (g_replica G v)));
  i_campaign : ∀ t c l, g_campaign G t c = Some l → rooted G l ∧
    (∀ i e, l !! i = Some e → e_Term e < t) ∧ t ≤ rp_term (g_replica G c);
  i_voted : ∀ v t c, g_voted G v t c → c ≠ "" ∧ t ≤ rp_term (g_replica G v) ∧
    (t = rp_term (g_replica G v) → rp_vote (g_replica G v) = c) ∧ is_Some (g_campaign G t c);
  i_unique : ∀ v t c c', g_voted G v t c → g_voted G v t c' → c = c';
  i_cast : ∀ v, rp_vote (g_replica G v) ≠ "" →
    g_voted G v (rp_term (g_replica G v)) (rp_vote (g_replica G v));
  i_reign : ∀ t rg, g_reign G t = Some rg → reign_ok G t rg;
  i_acked : ∀ v t i, g_acked G v t i → t ≤ rp_term (g_replica G v) ∧
    (∃ rg, g_reign G t = Some rg ∧ (i ≤ length (rg_log rg))%nat) ∧
    (prefix_at G t i `prefix_of` rp_log (g_replica G v) ∨ lost G t i (rp_term (g_replica G v) + 1));
  i_safe : ∀ v t c l, g_voted G v t c → g_reign G t = None → g_campaign G t c = Some l →
    safe_vote G v t l;
}.

(** ** What only grows *)

Record grows (G G' : group) : Prop := {
  gr_campaign : ∀ t c l, g_campaign G t c = Some l → g_campaign G' t c = Some l;
  gr_reign : ∀ t rg, g_reign G t = Some rg → ∃ rg', g_reign G' t = Some rg' ∧
    rg_leader rg' = rg_leader rg ∧ rg_voters rg' = rg_voters rg ∧ rg_init rg' = rg_init rg ∧
    rg_log rg `prefix_of` rg_log rg';
  gr_voted : ∀ v t c, g_voted G v t c → g_voted G' v t c;
  gr_acked : ∀ v t i, g_acked G v t i → g_acked G' v t i;
  gr_term : ∀ v, rp_term (g_replica G v) ≤ rp_term (g_replica G' v);
}.

#[export] Instance grows_preorder : PreOrder grows.
Proof using Type.
  split.
  - intros G. split; try done. intros t rg H. by exists rg.
  - intros G1 G2 G3 A B. split.
    + intros t c l H. by apply B, A.
    + intros t rg H. destruct (gr_reign _ _ A t rg H) as (rg1&H1&E1&E2&E3&E4).
      destruct (gr_reign _ _ B t rg1 H1) as (rg2&H2&F1&F2&F3&F4). exists rg2.
      split_and!; [done|congruence..|by etransitivity].
    + intros v t c H. by apply B, A.
    + intros v t i H. by apply B, A.
    + intros v. etransitivity; [apply A|apply B].
Qed.

Lemma set_reign_lookup t rg G t' :
  g_reign (set_reign t rg G) t' = if decide (t = t') then Some rg else g_reign G t'.
Proof using Type. done. Qed.

Lemma set_replica_lookup v r G v' :
  g_replica (set_replica v r G) v' = if decide (v = v') then r else g_replica G v'.
Proof using Type. done. Qed.

Lemma add_campaign_lookup t c l G t' c' :
  g_campaign (add_campaign t c l G) t' c' =
    if decide (t = t' ∧ c = c') then Some l else g_campaign G t' c'.
Proof using Type.
  cbn. unfold insert, fn_insert. destruct (decide (t = t')) as [->|].
  - destruct (decide (c = c')) as [->|].
    + by rewrite decide_True.
    + rewrite decide_False; [done|naive_solver].
  - rewrite decide_False; [done|naive_solver].
Qed.

Lemma grows_set_replica v r G : rp_term (g_replica G v) ≤ rp_term r → grows G (set_replica v r G).
Proof using Type.
  intros Ht. split; try done; [intros t rg H; by exists rg|].
  intros v'. rewrite set_replica_lookup. by destruct (decide (v = v')) as [<-|].
Qed.

Lemma grows_add_vote v t c G : grows G (add_vote v t c G).
Proof using Type. split; try done; [intros t' rg H; by exists rg|]. by left. Qed.

Lemma grows_add_acks v t k G : grows G (add_acks v t k G).
Proof using Type. split; try done; [intros t' rg H; by exists rg|]. by left. Qed.

Lemma grows_add_campaign t c l G : g_campaign G t c = None → grows G (add_campaign t c l G).
Proof using Type.
  intros Hc. split; try done; [|intros t' rg H; by exists rg]. intros t' c' l' H.
  rewrite add_campaign_lookup. destruct (decide _) as [[<- <-]|]; [congruence|done].
Qed.

Lemma grows_set_reign t rg' G :
  (∀ rg, g_reign G t = Some rg → rg_leader rg' = rg_leader rg ∧ rg_voters rg' = rg_voters rg ∧
    rg_init rg' = rg_init rg ∧ rg_log rg `prefix_of` rg_log rg') →
  grows G (set_reign t rg' G).
Proof using Type.
  intros H. split; try done. intros t' rg Hrg. rewrite set_reign_lookup.
  destruct (decide (t = t')) as [<-|]; [|by exists rg]. exists rg'. split; [done|by apply H].
Qed.

Section grow.
Context (G G' : group) (Hg : grows G G').

Lemma prefix_at_grows t i rg :
  g_reign G t = Some rg → (i ≤ length (rg_log rg))%nat → prefix_at G' t i = prefix_at G t i.
Proof using Hg.
  intros H Hi. destruct (gr_reign _ _ Hg t rg H) as (rg'&H'&_&_&_&[k Hk]).
  unfold prefix_at. rewrite H, H', Hk. by rewrite take_app_le.
Qed.

Lemma rooted_grows l : rooted G l → rooted G' l.
Proof using Hg.
  intros H i e Hi. destruct (H i e Hi) as (rg&Hrg&Hp).
  destruct (gr_reign _ _ Hg _ _ Hrg) as (rg'&H'&_&_&_&Hp'). exists rg'. split; [done|by etransitivity].
Qed.

Lemma own_grows t i : own G t i → own G' t i.
Proof using Hg.
  intros (rg&e&Hrg&He&Hi&Ht). destruct (gr_reign _ _ Hg _ _ Hrg) as (rg'&H'&_&_&_&[k Hk]).
  exists rg', e. split_and!; [done| |done|done]. rewrite Hk. by apply lookup_app_l_Some.
Qed.

Lemma own_bound t i rg : own G t i → g_reign G t = Some rg → (i ≤ length (rg_log rg))%nat.
Proof using Type.
  intros (rg'&e&Hrg'&He&Hi&_) Hrg. rewrite Hrg in Hrg'. injection Hrg' as <-.
  apply lookup_lt_Some in He. lia.
Qed.

Lemma own_shrinks t i rg :
  own G' t i → g_reign G t = Some rg → (i ≤ length (rg_log rg))%nat → own G t i.
Proof using Hg.
  intros (rg'&e&Hrg'&He&Hi&Ht) Hrg Hle. destruct (gr_reign _ _ Hg _ _ Hrg) as (rg1&H1&_&_&_&[k Hk]).
  rewrite H1 in Hrg'. injection Hrg' as ->. exists rg, e. split_and!; [done| |done|done].
  rewrite Hk, lookup_app_l in He by lia. done.
Qed.

Lemma chosen_grows t i : chosen G t i → chosen G' t i.
Proof using Hg.
  intros [Ho (Q&HQ&Ha)]. split; [by apply own_grows|]. exists Q. split; [done|].
  intros v Hv. by apply (gr_acked _ _ Hg), Ha.
Qed.

Lemma settled_grows t t' l : t ≤ t' → settled G t l → settled G' t' l.
Proof using Hg.
  intros Ht [->|(t1&i&Ht1&Hc&Hp)]; [by left|right]. exists t1, i. split_and!; [lia|by apply chosen_grows|].
  destruct Hc as [Ho _]. pose proof Ho as (rg&_&Hrg&_).
  by rewrite (prefix_at_grows t1 i rg Hrg) by (by apply (own_bound t1)).
Qed.

Lemma lost_grows t i rg t1 t2 :
  t1 ≤ t2 → g_reign G t = Some rg → (i ≤ length (rg_log rg))%nat → lost G t i t1 → lost G' t i t2.
Proof using Hg.
  intros Hle Hrg Hi (t0&rg0&H1&H2&H0&Hn). destruct (gr_reign _ _ Hg _ _ H0) as (rg'&H'&_&_&E&_).
  exists t0, rg'. split_and!; [done|lia|done|]. by rewrite (prefix_at_grows t i rg), E.
Qed.

Lemma safe_vote_grows v t' l :
  inv G → (∀ t i, t < t' → g_acked G' v t i → g_acked G v t i) → safe_vote G v t' l → safe_vote G' v t' l.
Proof using Hg.
  intros HI Hack H t i Ht Ha Ho. apply Hack in Ha; [|done].
  destruct (i_acked G HI v t i Ha) as (_&(rg&Hrg&Hi)&_).
  rewrite (prefix_at_grows t i rg) by done.
  destruct (H t i Ht Ha) as [?|Hl]; [by eapply own_shrinks|by left|right]. by eapply lost_grows.
Qed.

Lemma acked_grows v t i l l' :
  inv G → g_acked G v t i → l `prefix_of` l' →
  (prefix_at G t i `prefix_of` l ∨ lost G t i (rp_term (g_replica G v) + 1)) →
  (prefix_at G' t i `prefix_of` l' ∨ lost G' t i (rp_term (g_replica G' v) + 1)).
Proof using Hg.
  intros HI Ha Hl H. destruct (i_acked G HI v t i Ha) as (_&(rg&Hrg&Hi)&_).
  rewrite (prefix_at_grows t i rg) by done. destruct H as [H|H]; [left; by etransitivity|right].
  eapply (lost_grows t i rg); [|done..]. pose proof (gr_term _ _ Hg v). lia.
Qed.

End grow.

(** ** Facts of the invariant *)

Lemma rooted_prefix G l l' : l `prefix_of` l' → rooted G l' → rooted G l.
Proof using Type.
  intros [k ->] H i e Hi. destruct (H i e) as (rg&Hrg&Hp); [by apply lookup_app_l_Some|].
  exists rg. split; [done|]. apply lookup_lt_Some in Hi. by rewrite take_app_le in Hp by lia.
Qed.

Lemma last_lookup_term l e : last l = Some e → l !! pred (length l) = Some e ∧ last_term l = e_Term e.
Proof using Type. intros H. unfold last_term. rewrite H. by rewrite <-last_lookup. Qed.

(** A log is part of the log of the leader of its last entry's term. *)
Lemma rooted_last G l e :
  rooted G l → last l = Some e → ∃ rg, g_reign G (e_Term e) = Some rg ∧ l `prefix_of` rg_log rg.
Proof using Type.
  intros H Hl. destruct (last_lookup_term l e Hl) as [Hi _]. destruct (H _ _ Hi) as (rg&Hrg&Hp).
  exists rg. split; [done|]. apply lookup_lt_Some in Hi.
  by rewrite take_ge in Hp by lia.
Qed.

Lemma majorities_meet Q Q' : majority Q → majority Q' → ∃ v, v ∈ Q ∧ v ∈ Q'.
Proof using Type.
  intros [HA H1] [HB H2]. destruct (decide (Q ∩ Q' = ∅)) as [Hd|Hd].
  - exfalso. assert (size (Q ∪ Q') = (size Q + size Q')%nat) as Hs by (apply size_union; set_solver).
    assert (size (Q ∪ Q') ≤ size P)%nat as Hle by (apply subseteq_size; set_solver).
    pose proof (Nat.div_mod (size P) 2 ltac:(done)). pose proof (Nat.mod_upper_bound (size P) 2 ltac:(done)). lia.
  - apply set_choose_L in Hd as [v Hv]. exists v. set_solver.
Qed.

Lemma settled_prefix G t l l' : l `prefix_of` l' → settled G t l' → settled G t l.
Proof using Type.
  intros Hp [->|(t1&i&?&?&?)]; [left; by apply prefix_nil_inv|right]. exists t1, i.
  split_and!; [done..|by etransitivity].
Qed.

Lemma take_prefix_merge k cur l : take k cur `prefix_of` merge k cur l.
Proof using Type. unfold merge. by destruct (decide _). Qed.

(** What both logs begin with, the merged log begins with. *)
Lemma prefix_merge p k cur l : p `prefix_of` cur → p `prefix_of` l → p `prefix_of` merge k cur l.
Proof using Type.
  intros H1 H2. unfold merge. destruct (decide _) as [|Hn]; [done|].
  destruct (prefix_weak_total _ _ _ H1 (prefix_take cur k)) as [?|H]; [done|].
  destruct Hn. by etransitivity.
Qed.

Section facts.
Context (G : group) (HI : inv G).

Lemma reign_terms t rg i e :
  g_reign G t = Some rg → rg_log rg !! i = Some e → e_Term e ≤ t.
Proof using HI.
  intros Hrg He. destruct (i_reign G HI t rg Hrg) as [_ [k Hk] Ht Hc _ _ _ _].
  destruct (decide (length (rg_init rg) ≤ i)%nat) as [Hle|Hlt]; [by rewrite (Ht i e He Hle)|].
  destruct (i_campaign G HI _ _ _ Hc) as (_&Hterms&_).
  rewrite Hk, lookup_app_l in He by lia. apply Hterms in He. lia.
Qed.

(** The terms of a log never go down. *)
Lemma rooted_sorted l i j ei ej :
  rooted G l → l !! i = Some ei → l !! j = Some ej → (i ≤ j)%nat → e_Term ei ≤ e_Term ej.
Proof using HI.
  intros Hr Hi Hj Hij. destruct (Hr j ej Hj) as (rg&Hrg&[k Hk]).
  apply (reign_terms _ rg i ei Hrg). rewrite Hk. apply lookup_app_l_Some.
  by rewrite lookup_take_lt by lia.
Qed.

(** Log matching: logs with the same term at an index agree up to it. *)
Lemma rooted_match l l' i e e' :
  rooted G l → rooted G l' → l !! i = Some e → l' !! i = Some e' → e_Term e = e_Term e' →
  take (S i) l = take (S i) l'.
Proof using HI.
  intros H1 H2 Hi Hi' Ht. destruct (H1 i e Hi) as (rg&Hrg&Hp). destruct (H2 i e' Hi') as (rg'&Hrg'&Hp').
  rewrite Ht, Hrg' in Hrg. injection Hrg as ->. apply lookup_lt_Some in Hi, Hi'.
  apply (prefix_length_eq _ _); [|rewrite !length_take; lia].
  destruct (prefix_weak_total _ _ _ Hp Hp') as [?|Hp2]; [done|].
  rewrite (prefix_length_eq _ _ Hp2); [done|rewrite !length_take; lia].
Qed.

(** *** At most one reign per term *)

Lemma reign_unique t rg c Q :
  g_reign G t = Some rg → majority Q → (∀ v, v ∈ Q → g_voted G v t c) → rg_leader rg = c.
Proof using HI.
  intros Hrg HQ Hv. pose proof (i_reign G HI t rg Hrg) as Hok.
  destruct (majorities_meet _ _ (ro_majority _ _ _ Hok) HQ) as (v&H1&H2).
  apply (i_unique G HI v t); [by apply (ro_voted _ _ _ Hok)|by apply Hv].
Qed.

(** *** Leader completeness *)

Lemma leader_complete t i t' rg' :
  chosen G t i → g_reign G t' = Some rg' → t < t' → prefix_at G t i `prefix_of` rg_init rg'.
Proof using HI.
  intros [Ho (Q&HQ&Ha)]. revert rg'. induction (N.lt_wf_0 t') as [t' _ IH]. intros rg' Hrg' Ht.
  pose proof (i_reign G HI t' rg' Hrg') as Hok.
  destruct (majorities_meet _ _ HQ (ro_majority _ _ _ Hok)) as (v&H1&H2).
  destruct (ro_safe _ _ _ Hok v H2 t i Ht (Ha v H1) Ho) as [?|(t1&rg1&?&?&Hrg1&Hn)]; [done|].
  destruct Hn. by apply (IH t1).
Qed.

Lemma settled_reign t l rg : settled G t l → g_reign G t = Some rg → l `prefix_of` rg_log rg.
Proof using HI.
  intros [->|(t1&i&Ht1&Hc&Hp)] Hrg; [apply prefix_nil|]. etransitivity; [exact Hp|].
  destruct (N.eq_dec t1 t) as [->|Hne].
  - unfold prefix_at. rewrite Hrg. apply prefix_take.
  - etransitivity; [apply (leader_complete t1 i t rg); [done|done|lia]|]. apply (i_reign G HI t rg Hrg).
Qed.

(** Settled logs never disagree. *)
Lemma settled_agree t t' l l' :
  settled G t l → settled G t' l' → l `prefix_of` l' ∨ l' `prefix_of` l.
Proof using HI.
  assert (∀ t1 i t2 j, chosen G t1 i → chosen G t2 j → t1 ≤ t2 →
    prefix_at G t1 i `prefix_of` prefix_at G t2 j ∨ prefix_at G t2 j `prefix_of` prefix_at G t1 i) as Hle.
  { intros t1 i t2 j H1 H2 Ht. pose proof H2 as [(rg&_&Hrg&_) _].
    apply (prefix_weak_total _ _ (rg_log rg)).
    - apply (settled_reign t2); [|done]. right. by exists t1, i.
    - unfold prefix_at. rewrite Hrg. apply prefix_take. }
  intros [->|(t1&i&_&H1&Hp1)] [->|(t2&j&_&H2&Hp2)]; try (by left; apply prefix_nil);
    try (by right; apply prefix_nil).
  assert (prefix_at G t1 i `prefix_of` prefix_at G t2 j ∨ prefix_at G t2 j `prefix_of` prefix_at G t1 i)
    as [Hp|Hp].
  { destruct (N.le_ge_cases t1 t2) as [Hl|Hl]; [by apply Hle|]. destruct (Hle t2 j t1 i) as [?|?]; auto. }
  - apply (prefix_weak_total _ _ (prefix_at G t2 j)); [by etransitivity|done].
  - apply (prefix_weak_total _ _ (prefix_at G t1 i)); [done|by etransitivity].
Qed.

(** *** Voting *)

(** What a voter acknowledged is in the log of a candidate that is up to date. *)
Lemma up_to_date_safe t i lc lv t' :
  own G t i → rooted G lc → (∀ k e, lc !! k = Some e → e_Term e < t') →
  rooted G lv → prefix_at G t i `prefix_of` lv → up_to_date lc lv →
  prefix_at G t i `prefix_of` lc ∨ lost G t i t'.
Proof using HI.
  intros (rg&e&Hrg&He&Hi&Het) Hlc Hterms Hlv Hp Hup.
  assert (lv !! pred i = Some e) as Hei.
  { unfold prefix_at in Hp. rewrite Hrg in Hp. destruct Hp as [k ->].
    apply lookup_app_l_Some. by rewrite lookup_take_lt by lia. }
  assert (∃ eu, last lv = Some eu) as [eu Hu].
  { destruct (last lv) as [eu|] eqn:Hl; [by exists eu|]. apply last_None in Hl. by rewrite Hl in Hei. }
  destruct (last_lookup_term lv eu Hu) as [Hui Hut].
  assert (t ≤ e_Term eu) as Htu.
  { rewrite <-Het. apply (rooted_sorted lv (pred i) (pred (length lv))); [done..|].
    apply lookup_lt_Some in Hei. lia. }
  destruct (rooted_last G lv eu Hlv Hu) as (ru&Hru&Hpu). unfold up_to_date in Hup. rewrite Hut in Hup.
  destruct (last lc) as [ew|] eqn:Hw.
  2: { exfalso. apply last_None in Hw. subst lc. unfold last_term in Hup. cbn in Hup.
       apply lookup_lt_Some in Hei. cbn in Hup. lia. }
  destruct (last_lookup_term lc ew Hw) as [Hwi Hwt]. rewrite Hwt in Hup.
  destruct (rooted_last G lc ew Hlc Hw) as (rw&Hrw&Hpw).
  destruct Hup as [Hlt|[Heq Hlen]].
  - destruct (decide (prefix_at G t i `prefix_of` rg_init rw)) as [Hk|Hn].
    + left. etransitivity; [exact Hk|]. pose proof (i_reign G HI _ _ Hrw) as Hok.
      destruct (prefix_weak_total _ _ _ (ro_init _ _ _ Hok) Hpw) as [?|[k Hk']]; [done|exfalso].
      destruct (i_campaign G HI _ _ _ (ro_campaign _ _ _ Hok)) as (_&Hti&_).
      specialize (Hti (pred (length lc)) ew). rewrite Hk', lookup_app_l in Hti by (by apply lookup_lt_Some in Hwi).
      apply Hti in Hwi. lia.
    + right. exists (e_Term ew), rw. split_and!; [lia|by apply (Hterms _ _ Hwi)|done|done].
  - left. etransitivity; [exact Hp|]. rewrite Heq, Hrw in Hru. injection Hru as <-.
    destruct (prefix_weak_total _ _ _ Hpu Hpw) as [?|Hp2]; [done|].
    rewrite (prefix_length_eq _ _ Hp2); [done|]. apply prefix_length in Hp2. lia.
Qed.

(** *** Accepting entries *)

Lemma rooted_merge k cur l : rooted G cur → rooted G l → rooted G (merge k cur l).
Proof using Type.
  intros H1 H2. unfold merge. destruct (decide _); [done|]. by eapply rooted_prefix; [apply prefix_take|].
Qed.

End facts.

(** ** Every step keeps the invariant *)

Record replica_ok (G : group) (r : replica) : Prop := {
  rk_rooted : rooted G (rp_log r);
  rk_terms : ∀ i e, rp_log r !! i = Some e → e_Term e ≤ rp_term r;
  rk_commit : (rp_commit r ≤ length (rp_log r))%nat ∧
    settled G (rp_term r) (take (rp_commit r) (rp_log r));
}.

Lemma inv_replica_ok G v : inv G → replica_ok G (g_replica G v).
Proof using Type. intros HI. split; apply HI. Qed.

Lemma replica_ok_grows G G' r : grows G G' → replica_ok G r → replica_ok G' r.
Proof using Type.
  intros Hg [H1 H2 [H3 H4]]. split; [by eapply rooted_grows|done|].
  split; [done|]. by eapply settled_grows.
Qed.

Lemma kept_refl G G' v t i :
  g_replica G' v = g_replica G v → prefix_at G t i `prefix_of` rp_log (g_replica G v) →
  prefix_at G t i `prefix_of` rp_log (g_replica G' v) ∨ lost G' t i (rp_term (g_replica G' v) + 1).
Proof using Type. intros -> H. by left. Qed.

(** What has to be shown of a step: of what it changes, and nothing else. *)
Record advances (G G' : group) : Prop := {
  ad_replica : ∀ v, g_replica G' v = g_replica G v ∨ replica_ok G' (g_replica G' v);
  ad_campaign : ∀ t c l, g_campaign G' t c = Some l → g_campaign G t c = Some l ∨
    rooted G' l ∧ (∀ i e, l !! i = Some e → e_Term e < t) ∧ t ≤ rp_term (g_replica G' c);
  ad_voted : ∀ v t c, g_voted G v t c → t = rp_term (g_replica G' v) → rp_vote (g_replica G' v) = c;
  ad_cast : ∀ v, rp_vote (g_replica G' v) ≠ "" →
    rp_vote (g_replica G' v) = rp_vote (g_replica G v) ∧
      rp_term (g_replica G' v) = rp_term (g_replica G v) ∨
    g_voted G' v (rp_term (g_replica G' v)) (rp_vote (g_replica G' v));
  ad_vote : ∀ v t c, g_voted G' v t c → g_voted G v t c ∨
    c ≠ "" ∧ t = rp_term (g_replica G' v) ∧ rp_vote (g_replica G' v) = c ∧
    is_Some (g_campaign G' t c) ∧
    (∀ l, g_reign G' t = None → g_campaign G' t c = Some l → safe_vote G v t l);
  ad_kept : ∀ v t i, g_acked G v t i → prefix_at G t i `prefix_of` rp_log (g_replica G v) →
    prefix_at G t i `prefix_of` rp_log (g_replica G' v) ∨ lost G' t i (rp_term (g_replica G' v) + 1);
  ad_acked : ∀ v t i, g_acked G' v t i → g_acked G v t i ∨
    t = rp_term (g_replica G' v) ∧ (∃ rg, g_reign G' t = Some rg ∧ (i ≤ length (rg_log rg))%nat) ∧
    prefix_at G' t i `prefix_of` rp_log (g_replica G' v);
  ad_reign : ∀ t rg', g_reign G' t = Some rg' →
    (rp_term (g_replica G' (rg_leader rg')) = t → rp_log (g_replica G' (rg_leader rg')) = rg_log rg') ∧
    ((∃ rg, g_reign G t = Some rg ∧ (rg' = rg ∨ rooted G' (rg_log rg') ∧
        ∀ i e, rg_log rg' !! i = Some e → (length (rg_log rg) ≤ i)%nat → e_Term e = t)) ∨
     g_reign G t = None ∧ rg_log rg' = rg_init rg' ∧
     g_campaign G t (rg_leader rg') = Some (rg_init rg') ∧ majority (rg_voters rg') ∧
     ∀ v, v ∈ rg_voters rg' → g_voted G v t (rg_leader rg'));
}.

Lemma advances_safe_vote G G' v t l :
  inv G → grows G G' → advances G G' → t ≤ rp_term (g_replica G' v) →
  safe_vote G v t l → safe_vote G' v t l.
Proof using Type.
  intros HI Hg Ha Ht. apply safe_vote_grows; [done|done|]. intros t0 i Ht0 Hack.
  destruct (ad_acked _ _ Ha v t0 i Hack) as [?|[-> _]]; [done|lia].
Qed.

Lemma advances_reign_ok G G' t rg' :
  inv G → grows G G' → advances G G' → g_reign G' t = Some rg' → reign_ok G' t rg'.
Proof using Type.
  intros HI Hg Ha Hrg'. destruct (ad_reign _ _ Ha t rg' Hrg') as [Hlead [(rg&Hrg&Hcase)|(Hno&Hlog&Hc&HQ&Hv)]].
  - destruct (gr_reign _ _ Hg t rg Hrg) as (rg1&H1&E1&E2&E3&[k Hk]).
    rewrite Hrg' in H1. injection H1 as <-.
    pose proof (i_reign G HI t rg Hrg) as [R1 R2 R3 R4 R5 R6 _ R8]. split; rewrite ?E1, ?E2, ?E3; try done.
    + destruct Hcase as [->|[? _]]; [by eapply rooted_grows|done].
    + rewrite Hk. by apply prefix_app_r.
    + intros i e He Hi. destruct (decide (length (rg_log rg) ≤ i)%nat) as [Hle|Hlt].
      * destruct Hcase as [->|[_ ?]]; [by apply (R3 i)|by eauto].
      * rewrite Hk, lookup_app_l in He by lia. by eauto.
    + by apply (gr_campaign _ _ Hg).
    + intros v Hv. by apply (gr_voted _ _ Hg), R6.
    + by rewrite E1 in Hlead.
    + intros v Hv. apply (advances_safe_vote G); try done; [|by apply R8].
      destruct (i_voted G HI v t _ (R6 v Hv)) as (_&?&_). pose proof (gr_term _ _ Hg v). lia.
  - destruct (i_campaign G HI _ _ _ Hc) as (H1&H2&H3). split; rewrite ?Hlog; try done.
    + by eapply rooted_grows.
    + intros i e He Hi. apply lookup_lt_Some in He. lia.
    + by apply (gr_campaign _ _ Hg).
    + intros v Hin. by apply (gr_voted _ _ Hg), Hv.
    + by rewrite Hlog in Hlead.
    + intros v Hin. apply (advances_safe_vote G); try done.
      * destruct (i_voted G HI v t _ (Hv v Hin)) as (_&?&_). pose proof (gr_term _ _ Hg v). lia.
      * by apply (i_safe G HI v t (rg_leader rg')); [apply Hv|..].
Qed.

Lemma advances_inv G G' : inv G → grows G G' → advances G G' → inv G'.
Proof using Type.
  intros HI Hg Ha.
  assert (∀ v, replica_ok G' (g_replica G' v)) as Hr.
  { intros v. destruct (ad_replica _ _ Ha v) as [E|?]; [|done]. rewrite E.
    by eapply replica_ok_grows, inv_replica_ok. }
  assert (∀ t, g_reign G' t = None → g_reign G t = None) as Hnone.
  { intros t Ht. destruct (g_reign G t) as [rg|] eqn:Hrg; [|done].
    destruct (gr_reign _ _ Hg t rg Hrg) as (rg'&?&_). congruence. }
  split.
  - apply Hr.
  - apply Hr.
  - apply Hr.
  - intros t c l Hc. destruct (ad_campaign _ _ Ha t c l Hc) as [Hc0|?]; [|done].
    destruct (i_campaign G HI t c l Hc0) as (?&?&?). split_and!; [by eapply rooted_grows|done|].
    pose proof (gr_term _ _ Hg c). lia.
  - intros v t c Hv. destruct (ad_vote _ _ Ha v t c Hv) as [Hv0|(?&->&?&?&_)]; [|done].
    destruct (i_voted G HI v t c Hv0) as (?&?&_&[l Hl]). split_and!; [done| |by apply (ad_voted _ _ Ha)|].
    + pose proof (gr_term _ _ Hg v). lia.
    + exists l. by apply (gr_campaign _ _ Hg).
  - intros v t c c' H1 H2.
    destruct (ad_vote _ _ Ha v t c H1) as [O1|(_&T1&V1&_)], (ad_vote _ _ Ha v t c' H2) as [O2|(_&T2&V2&_)].
    + by apply (i_unique G HI v t).
    + rewrite <-V2. symmetry. by apply (ad_voted _ _ Ha v t c).
    + rewrite <-V1. by apply (ad_voted _ _ Ha v t c').
    + congruence.
  - intros v Hne. destruct (ad_cast _ _ Ha v Hne) as [[E1 E2]|?]; [|done]. rewrite E1, E2 in *.
    by apply (gr_voted _ _ Hg), (i_cast G HI).
  - intros t rg'. by apply (advances_reign_ok G).
  - intros v t i Hack. destruct (ad_acked _ _ Ha v t i Hack) as [H0|(->&?&?)]; [|split_and!; [done|done|by left]].
    destruct (i_acked G HI v t i H0) as (Ht&(rg&Hrg&Hi)&Hkl). split_and!.
    + pose proof (gr_term _ _ Hg v). lia.
    + destruct (gr_reign _ _ Hg t rg Hrg) as (rg'&?&_&_&_&Hp). exists rg'. split; [done|].
      apply prefix_length in Hp. lia.
    + rewrite (prefix_at_grows G G' Hg t i rg) by done. destruct Hkl as [Hk|Hl].
      * by apply (ad_kept _ _ Ha).
      * right. eapply (lost_grows G G' Hg t i rg); [|done..]. pose proof (gr_term _ _ Hg v). lia.
  - intros v t c l Hv Hno Hc. destruct (ad_vote _ _ Ha v t c Hv) as [Hv0|(_&Ht&_&_&Hs)].
    + destruct (i_voted G HI v t c Hv0) as (_&Ht&_&[l0 Hl0]).
      assert (l0 = l) as ->. { apply (gr_campaign _ _ Hg) in Hl0. congruence. }
      apply (advances_safe_vote G); try done; [pose proof (gr_term _ _ Hg v); lia|].
      by apply (i_safe G HI v t c); [|apply Hnone|].
    + apply (advances_safe_vote G); try done; [lia|]. by apply Hs.
Qed.

(** The log, commit index and settled prefix of a replica whose term only grows. *)
Lemma replica_ok_later G r t vote :
  rp_term r ≤ t → replica_ok G r → replica_ok G (mkReplica t vote (rp_log r) (rp_commit r)).
Proof using Type.
  intros Ht [H1 H2 [H3 H4]]. split; cbn; [done| |split; [done|]].
  - intros i e He. apply H2 in He. lia.
  - destruct H4 as [?|(t1&i&?&?&?)]; [by left|right]. exists t1, i. split_and!; [lia|done..].
Qed.

(** A step that only sets the replica of [v], and does not touch the votes. *)
Lemma advances_replica G v r :
  inv G → rp_term (g_replica G v) ≤ rp_term r →
  (rp_term r = rp_term (g_replica G v) → rp_vote r = rp_vote (g_replica G v)) →
  (rp_term r ≠ rp_term (g_replica G v) → rp_vote r = "") →
  replica_ok (set_replica v r G) r →
  (rp_log r = rp_log (g_replica G v)) → advances G (set_replica v r G).
Proof using Type.
  intros HI Ht Hv Hvn Hr Hl.
  assert (∀ w, g_replica (set_replica v r G) w = if decide (v = w) then r else g_replica G w) as Hrep by done.
  split; try (by left); intros *; rewrite ?Hrep.
  - destruct (decide (v = v0)) as [<-|]; [by right|by left].
  - destruct (decide (v = v0)) as [<-|]; intros Hvo ->.
    + destruct (i_voted G HI _ _ _ Hvo) as (_&Hle&Hvt&_).
      assert (rp_term r = rp_term (g_replica G v)) as E by lia. rewrite (Hv E). by apply Hvt.
    + destruct (i_voted G HI _ _ _ Hvo) as (_&_&Hvt&_). by apply Hvt.
  - destruct (decide (v = v0)) as [<-|]; [|by left]. intros Hne. left.
    destruct (N.eq_dec (rp_term r) (rp_term (g_replica G v))) as [E|E]; [by auto|].
    by destruct Hne; apply Hvn.
  - intros _ Hk. left. destruct (decide (v = v0)) as [<-|]; [by rewrite Hl|done].
  - intros Hrg. split; [|left; exists rg'; split; [done|by left]].
    pose proof (ro_leader _ _ _ (i_reign G HI t rg' Hrg)) as Hlead.
    destruct (decide (v = rg_leader rg')) as [->|]; [|done]. rewrite Hl. intros Hrt. apply Hlead.
    pose proof (i_reign G HI t rg' Hrg) as Hok.
    destruct (i_campaign G HI _ _ _ (ro_campaign _ _ _ Hok)) as (_&_&?). lia.
Qed.

Lemma step_term_inv G v t r :
  inv G → g_replica G v = r → rp_term r < t →
  let G' := set_replica v (mkReplica t "" (rp_log r) (rp_commit r)) G in grows G G' ∧ inv G'.
Proof using Type.
  intros HI <- Ht G'. assert (grows G G') as Hg by (apply grows_set_replica; cbn; lia).
  split; [done|]. apply (advances_inv G); [done|done|]. apply advances_replica; cbn; [done|lia|lia|done| |done].
  apply replica_ok_later; [lia|]. by eapply replica_ok_grows, inv_replica_ok.
Qed.

Lemma step_commit_inv G c t r rg i :
  inv G → g_replica G c = r → rp_term r = t → g_reign G t = Some rg → rg_leader rg = c → chosen G t i →
  let G' := set_replica c (mkReplica t (rp_vote r) (rp_log r) (Nat.max (rp_commit r) i)) G in
  grows G G' ∧ inv G'.
Proof using Type.
  intros HI <- <- Hrg Hc Hch G'. assert (grows G G') as Hg by (apply grows_set_replica; cbn; lia).
  split; [done|]. apply (advances_inv G); [done|done|]. apply advances_replica; cbn; [done|lia|done|done| |done].
  pose proof (inv_replica_ok G c HI) as [H1 H2 [H3 H4]]. pose proof (i_reign G HI _ _ Hrg) as Hok.
  pose proof (ro_leader _ _ _ Hok) as Hl. rewrite Hc in Hl. specialize (Hl eq_refl).
  pose proof (own_bound G _ i rg (proj1 Hch) Hrg) as Hi.
  split; cbn; [by eapply rooted_grows|done|]. split; [rewrite Hl in *; lia|].
  apply (settled_grows G G' Hg _ _ _ (N.le_refl _)).
  destruct (Nat.max_spec (rp_commit (g_replica G c)) i) as [[_ ->]|[_ ->]]; [|done].
  right. exists (rp_term (g_replica G c)), i. split_and!; [lia|done|].
  unfold prefix_at. rewrite Hrg, Hl. done.
Qed.

(** Voting on one's own term's behalf, for a candidate whose log [l] is safe. *)
Lemma advances_vote G G' v c t l r :
  inv G → G' = add_vote v t c (set_replica v r G) →
  rp_term r = t → rp_vote r = c → c ≠ "" → rp_log r = rp_log (g_replica G v) →
  rp_term (g_replica G v) ≤ t →
  (t = rp_term (g_replica G v) → rp_vote (g_replica G v) = "" ∨ rp_vote (g_replica G v) = c) →
  replica_ok G' r → g_campaign G t c = Some l →
  (g_reign G t = None → safe_vote G v t l) → advances G G'.
Proof using Type.
  intros HI -> Hrt Hrv Hne Hl Ht Hvote Hr Hc Hsafe. set (G' := add_vote v t c _) in *.
  assert (∀ w, g_replica G' w = if decide (v = w) then r else g_replica G w) as Hrep by done.
  split; try (by left); intros *; rewrite ?Hrep.
  - destruct (decide (v = v0)) as [<-|]; [by right|by left].
  - destruct (decide (v = v0)) as [<-|]; intros Hvo ->.
    + destruct (i_voted G HI _ _ _ Hvo) as (Hne'&Hle&Hvt&_). rewrite Hrt in *.
      assert (t = rp_term (g_replica G v)) as E by lia. specialize (Hvt E).
      destruct (Hvote E); congruence.
    + destruct (i_voted G HI _ _ _ Hvo) as (_&_&Hvt&_). by apply Hvt.
  - destruct (decide (v = v0)) as [<-|]; [|by left]. intros _. right. right. by rewrite Hrt, Hrv.
  - intros [?|(->&->&->)]; [by left|right]. rewrite decide_True by done.
    split_and!; [done|by symmetry|done|by exists l|]. intros l' Hno Hc'.
    change (g_campaign G t c = Some l') in Hc'. assert (l' = l) as -> by congruence. by apply Hsafe.
  - intros _ Hk. left. destruct (decide (v = v0)) as [<-|]; [by rewrite Hl|done].
  - intros Hrg. change (g_reign G t0 = Some rg') in Hrg. split; [|left; exists rg'; split; [done|by left]].
    pose proof (ro_leader _ _ _ (i_reign G HI t0 rg' Hrg)) as Hlead.
    destruct (decide (v = rg_leader rg')) as [->|]; [|done]. rewrite Hl. intros Hrt'. apply Hlead.
    destruct (i_campaign G HI _ _ _ (ro_campaign _ _ _ (i_reign G HI t0 rg' Hrg))) as (_&_&?). lia.
Qed.

Lemma step_vote_inv G v c r lc :
  inv G → g_replica G v = r → rp_vote r = "" ∨ rp_vote r = c → c ≠ "" →
  g_campaign G (rp_term r) c = Some lc → up_to_date lc (rp_log r) →
  let G' := add_vote v (rp_term r) c
    (set_replica v (mkReplica (rp_term r) c (rp_log r) (rp_commit r)) G) in grows G G' ∧ inv G'.
Proof using Type.
  intros HI <- Hv Hne Hc Hup G'.
  assert (grows G G') as Hg.
  { etransitivity; [|apply grows_add_vote]. apply grows_set_replica; cbn; lia. }
  split; [done|]. apply (advances_inv G); [done|done|].
  eapply (advances_vote G G' v c _ lc); try done.
  - apply replica_ok_later; [lia|]. by eapply replica_ok_grows, inv_replica_ok.
  - intros Hno t0 i Ht Hack Ho. destruct (i_acked G HI v t0 i Hack) as (_&_&[Hk|Hl]).
    + destruct (i_campaign G HI _ _ _ Hc) as (?&?&_).
      apply (up_to_date_safe G HI t0 i lc (rp_log (g_replica G v))); try done. apply HI.
    + right. destruct Hl as (t1&rg&?&?&Hrg&Hn). exists t1, rg. split_and!; try done.
      destruct (N.eq_dec t1 (rp_term (g_replica G v))) as [->|]; [congruence|lia].
Qed.

Lemma step_campaign_inv G c t r :
  inv G → g_replica G c = r → rp_term r = t → g_campaign G t c = None →
  (∀ i e, rp_log r !! i = Some e → e_Term e < t) →
  let G' := add_campaign t c (rp_log r) G in grows G G' ∧ inv G'.
Proof using Type.
  intros HI <- Ht Hno Hterms G'.
  assert (grows G G') as Hg by (by apply grows_add_campaign).
  split; [done|]. apply (advances_inv G); [done|done|]. split; try (by left).
  - intros t' c' l' Hc'. unfold G' in Hc'. rewrite add_campaign_lookup in Hc'. destruct (decide _) as [[<- <-]|]; [|by left].
    injection Hc' as <-. right. split_and!; [|done|by rewrite <-Ht]. by eapply rooted_grows, HI.
  - intros v t' c' Hv Ht'. by apply (i_voted G HI v t' c').
  - intros t' rg' Hrg'. split; [|left; exists rg'; split; [done|by left]].
    apply (ro_leader _ _ _ (i_reign G HI t' rg' Hrg')).
Qed.

Lemma step_elect_inv G c t Q l :
  inv G → rp_term (g_replica G c) = t → rp_log (g_replica G c) = l →
  g_campaign G t c = Some l → g_reign G t = None →
  majority Q → (∀ v, v ∈ Q → g_voted G v t c) →
  let G' := set_reign t (mkReign c Q l l) G in grows G G' ∧ inv G'.
Proof using Type.
  intros HI Ht Hl Hc Hno HQ Hv G'.
  assert (grows G G') as Hg by (apply grows_set_reign; congruence).
  split; [done|]. apply (advances_inv G); [done|done|]. split; try (by left).
  - intros v t' c' Hvo Ht'. by apply (i_voted G HI v t' c').
  - intros t' rg' Hrg'. unfold G' in Hrg'. rewrite set_reign_lookup in Hrg'.
    destruct (decide (t = t')) as [<-|Hne].
    + injection Hrg' as <-. split; [done|]. by right.
    + split; [|left; exists rg'; split; [done|by left]].
      apply (ro_leader _ _ _ (i_reign G HI t' rg' Hrg')).
Qed.

Lemma step_append_inv G c t r rg e :
  inv G → g_replica G c = r → rp_term r = t → g_reign G t = Some rg → rg_leader rg = c → e_Term e = t →
  let G' := add_acks c t (S (length (rg_log rg)))
    (set_reign t (mkReign c (rg_voters rg) (rg_init rg) (rg_log rg ++ [e]))
      (set_replica c (mkReplica t (rp_vote r) (rp_log r ++ [e]) (rp_commit r)) G)) in
  grows G G' ∧ inv G'.
Proof using Type.
  intros HI <- Ht Hrg Hc He G'. pose proof (i_reign G HI t rg Hrg) as Hok.
  pose proof (ro_leader _ _ _ Hok) as Hlog. rewrite Hc in Hlog. specialize (Hlog Ht).
  assert (grows G G') as Hg.
  { etransitivity; [|apply grows_add_acks]. etransitivity; [|apply grows_set_reign].
    - apply grows_set_replica. cbn. lia.
    - intros rg0 Hrg0. assert (rg0 = rg) as -> by (cbn in Hrg0; congruence). cbn. split_and!; try done.
      by exists [e]. }
  assert (g_reign G' t = Some (mkReign c (rg_voters rg) (rg_init rg) (rg_log rg ++ [e]))) as Hrg1.
  { cbn. unfold insert, fn_insert. by rewrite decide_True. }
  assert (∀ w, g_replica G' w = if decide (c = w) then mkReplica t (rp_vote (g_replica G c))
    (rp_log (g_replica G c) ++ [e]) (rp_commit (g_replica G c)) else g_replica G w) as Hrep by done.
  assert (rooted G' (rg_log rg ++ [e])) as Hroot.
  { intros i x Hi. destruct (decide (i < length (rg_log rg))%nat) as [Hlt|Hge].
    - rewrite lookup_app_l in Hi by done.
      destruct (rooted_grows G G' Hg _ (ro_rooted _ _ _ Hok) i x Hi) as (rx&Hrx&Hp).
      exists rx. split; [done|]. by rewrite take_app_le by lia.
    - pose proof Hi as Hlen. apply lookup_lt_Some in Hlen. rewrite length_app in Hlen. cbn in Hlen.
      rewrite lookup_app_r in Hi by lia. assert (i = length (rg_log rg)) as -> by lia.
      rewrite Nat.sub_diag in Hi. injection Hi as <-. rewrite He. eexists. split; [exact Hrg1|].
      cbn. rewrite take_ge; [done|]. rewrite length_app. cbn. lia. }
  split; [done|]. apply (advances_inv G); [done|done|]. split; try (by left); intros *; rewrite ?Hrep.
  - destruct (decide (c = v)) as [<-|]; [right|by left].
    pose proof (replica_ok_grows G G' _ Hg (inv_replica_ok G c HI)) as [H1 H2 [H3 H4]].
    split; cbn [rp_log rp_term rp_commit]; [by rewrite Hlog| |].
    + intros i x Hi. apply lookup_app_Some in Hi as [Hi|[_ Hi]]; [apply H2 in Hi; lia|].
      apply list_lookup_singleton_Some in Hi as [_ <-]. lia.
    + rewrite length_app. split; [lia|]. rewrite take_app_le by done. by rewrite <-Ht.
  - intros Hvo Ht'. destruct (i_voted G HI _ _ _ Hvo) as (_&_&Hvt&_).
    destruct (decide (c = v)) as [<-|]; [cbn in *; rewrite <-Ht in Ht'|]; by apply Hvt.
  - intros _. left. by destruct (decide (c = v)) as [<-|].
  - intros _ Hk. left. destruct (decide (c = v)) as [<-|]; [cbn|done]. by apply prefix_app_r.
  - intros [?|(->&->&Hi)]; [by left|right]. rewrite decide_True by done. cbn [rp_term rp_log].
    split_and!; [done|eexists; split; [exact Hrg1|cbn; rewrite length_app; cbn; lia]|].
    unfold prefix_at. rewrite Hrg1, Hlog. apply prefix_take.
  - intros Hrg'. destruct (decide (t = t0)) as [<-|Hne].
    + rewrite Hrg1 in Hrg'. injection Hrg' as <-. cbn [rg_leader rg_log]. rewrite decide_True by done.
      split; [by rewrite Hlog|]. left. exists rg. split; [done|right]. split; [done|].
      intros i x Hi Hle. rewrite lookup_app_r in Hi by done.
      apply list_lookup_singleton_Some in Hi as [_ <-]. done.
    + assert (g_reign G t0 = Some rg') as Hrg0.
      { cbn in Hrg'. unfold insert, fn_insert in Hrg'. by rewrite decide_False in Hrg'. }
      split; [|left; exists rg'; split; [done|by left]].
      pose proof (ro_leader _ _ _ (i_reign G HI t0 rg' Hrg0)) as Hlead.
      destruct (decide (c = rg_leader rg')) as [Hcl|]; [cbn; congruence|done].
Qed.

Lemma step_accept_inv G v t r rg k lc :
  inv G → g_replica G v = r → rp_term r = t → g_reign G t = Some rg → (k ≤ length (rg_log rg))%nat →
  settled G t (take lc (rg_log rg)) →
  let G' := add_acks v t k (set_replica v (mkReplica t (rp_vote r) (merge k (rg_log rg) (rp_log r))
    (Nat.max (rp_commit r) (Nat.min lc k))) G) in grows G G' ∧ inv G'.
Proof using Type.
  intros HI <- Ht Hrg Hk Hlc G'. pose proof (i_reign G HI t rg Hrg) as Hok.
  set (l := rp_log (g_replica G v)) in *. set (l' := merge k (rg_log rg) l) in *.
  assert (grows G G') as Hg.
  { etransitivity; [|apply grows_add_acks]. apply grows_set_replica. cbn. lia. }
  assert (∀ w, g_replica G' w = if decide (v = w) then mkReplica t (rp_vote (g_replica G v)) l'
    (Nat.max (rp_commit (g_replica G v)) (Nat.min lc k)) else g_replica G w) as Hrep by done.
  assert (take k (rg_log rg) `prefix_of` l') as Htk by apply take_prefix_merge.
  split; [done|]. apply (advances_inv G); [done|done|]. split; try (by left); intros *; rewrite ?Hrep.
  - destruct (decide (v = v0)) as [<-|]; [right|by left].
    pose proof (inv_replica_ok G v HI) as [H1 H2 [H3 H4]]. fold l in H1, H2, H3, H4.
    split; cbn [rp_log rp_term rp_commit].
    + eapply rooted_grows; [done|]. apply rooted_merge; [apply Hok|done].
    + intros i x Hi. unfold l', merge in Hi. destruct (decide _); [apply H2 in Hi; lia|].
      apply lookup_take_Some in Hi as [Hi _]. by eapply reign_terms.
    + assert (length (take k (rg_log rg)) = k) as Hlk by (rewrite length_take; lia).
      pose proof (prefix_length _ _ Htk) as Hlen. rewrite Hlk in Hlen.
      assert (take (rp_commit (g_replica G v)) l `prefix_of` l') as Hc.
      { apply prefix_merge; [|apply prefix_take]. rewrite Ht in H4. by apply (settled_reign G HI t). }
      assert (length (take (rp_commit (g_replica G v)) l) = rp_commit (g_replica G v)) as Hlc'
        by (rewrite length_take; lia).
      pose proof (prefix_length _ _ Hc) as Hlen'. rewrite Hlc' in Hlen'.
      split; [lia|]. eapply (settled_grows G G' Hg t t); [done|].
      destruct (Nat.max_spec (rp_commit (g_replica G v)) (Nat.min lc k)) as [[_ ->]|[_ ->]].
      * eapply settled_prefix; [|exact Hlc]. destruct Htk as [z ->].
        rewrite take_app_le by (rewrite Hlk; lia). rewrite take_take.
        replace (Nat.min (Nat.min lc k) k) with (Nat.min k lc) by lia. rewrite <-take_take. apply prefix_take.
      * destruct Hc as [z Hz]. rewrite Hz, take_app_le by (rewrite Hlc'; lia).
        rewrite take_take, Nat.min_id. by rewrite Ht in H4.
  - intros Hvo Ht'. destruct (i_voted G HI _ _ _ Hvo) as (_&_&Hvt&_).
    destruct (decide (v = v0)) as [<-|]; [cbn in *; rewrite <-Ht in Ht'|]; by apply Hvt.
  - intros _. left. by destruct (decide (v = v0)) as [<-|].
  - intros Hack Hkept. destruct (decide (v = v0)) as [<-|]; [cbn [rp_log rp_term]|by left].
    destruct (i_acked G HI v t0 i Hack) as (Hle&(rg0&Hrg0&Hi)&_).
    destruct (N.eq_dec t0 t) as [->|Hne].
    { left. apply prefix_merge; [|done]. unfold prefix_at. rewrite Hrg. apply prefix_take. }
    destruct (decide (prefix_at G t0 i `prefix_of` rg_init rg)) as [Hp|Hn].
    + left. apply prefix_merge; [|done]. etransitivity; [exact Hp|apply Hok].
    + right. exists t, rg. split_and!; [lia|lia|exact Hrg|exact Hn].
  - intros [?|(->&->&Hi)]; [by left|right]. rewrite decide_True by done. cbn [rp_term rp_log].
    split_and!; [done|exists rg; split; [done|lia]|].
    unfold prefix_at. change (g_reign G' t) with (g_reign G t). rewrite Hrg.
    etransitivity; [|exact Htk]. rewrite <-(Nat.min_l i k) by done.
    rewrite <-take_take. apply prefix_take.
  - intros Hrg'. change (g_reign G t0 = Some rg') in Hrg'. split; [|left; exists rg'; split; [done|by left]].
    pose proof (ro_leader _ _ _ (i_reign G HI t0 rg' Hrg')) as Hlead.
    destruct (decide (v = rg_leader rg')) as [Hv|]; [|done]. cbn. intros <-.
    assert (rg' = rg) as -> by congruence. rewrite <-Hv in Hlead. specialize (Hlead Ht). fold l in Hlead.
    unfold l', merge. rewrite Hlead, decide_True; [done|]. apply prefix_take.
Qed.

Theorem raft_step_inv G G' : inv G → raft_step G G' → grows G G' ∧ inv G'.
Proof using Type.
  intros HI Hs. destruct Hs.
  - by eapply step_term_inv.
  - by eapply step_campaign_inv.
  - by eapply step_vote_inv.
  - by eapply step_elect_inv.
  - by eapply step_append_inv.
  - by eapply step_accept_inv.
  - by eapply step_commit_inv.
Qed.

Lemma raft_steps_inv G G' : inv G → rtc raft_step G G' → grows G G' ∧ inv G'.
Proof using Type.
  intros HI. induction 1 as [|G G1 G2 Hs _ IH]; [done|].
  destruct (raft_step_inv G G1 HI Hs) as [Hg1 HI1]. destruct (IH HI1) as [Hg2 HI2].
  split; [by etransitivity|done].
Qed.

Lemma raft_initial_inv G : raft_initial G → inv G.
Proof using Type.
  intros (Hr&Hc&Hrg&Hv&Ha). split.
  - intros v i e. rewrite Hr. cbn. by rewrite lookup_nil.
  - intros v i e. rewrite Hr. cbn. by rewrite lookup_nil.
  - intros v. rewrite Hr. cbn. split; [done|by left].
  - intros t c l. by rewrite Hc.
  - intros v t c H. by destruct (Hv v t c).
  - intros v t c c' H. by destruct (Hv v t c).
  - intros v. by rewrite Hr.
  - intros t rg. by rewrite Hrg.
  - intros v t i H. by destruct (Ha v t i).
  - intros v t c l H. by destruct (Hv v t c).
Qed.

(** *** What no step takes back of a replica *)

Lemma raft_steps_commit G G' v :
  rtc raft_step G G' → (rp_commit (g_replica G v) ≤ rp_commit (g_replica G' v))%nat.
Proof using Type.
  induction 1 as [|G1 G2 G3 Hs _ IH]; [done|]. etransitivity; [|exact IH].
  destruct Hs; cbn; unfold insert, fn_insert; try destruct (decide _) as [<-|]; subst; cbn; lia.
Qed.

(** A replica's committed entries stay in its log. *)
Lemma committed_kept G G' v :
  inv G → rtc raft_step G G' →
  take (rp_commit (g_replica G v)) (rp_log (g_replica G v)) `prefix_of` rp_log (g_replica G' v).
Proof using Type.
  intros HI Hs. pose proof (raft_steps_commit G G' v Hs) as Hc.
  destruct (raft_steps_inv G G' HI Hs) as [Hg HI'].
  destruct (i_commit G HI v) as [H1 H2]. destruct (i_commit G' HI' v) as [H3 H4].
  pose proof (settled_grows G G' Hg _ _ _ (gr_term _ _ Hg v) H2) as H2'.
  destruct (settled_agree G' HI' _ _ _ _ H2' H4) as [Hp|Hp].
  - etransitivity; [exact Hp|apply prefix_take].
  - rewrite <-(prefix_length_eq _ _ Hp); [apply prefix_take|]. rewrite !length_take. lia.
Qed.

End raft.
