(* ===== verification/Cluster.v ===== *)
(** * Cluster: the members of a group and the messages between them

    A network of nodes: messages may be lost, duplicated, reordered and delayed
    for ever, processes may end at any moment between two calls and be opened
    again on what their journals hold.  [packets] is everything ever sent. *)

From stdpp Require Import base numbers list gmap strings fin_maps fin_map_dom pretty relations sorting options.
From S2P Require Import Prelude Effects Bytes StateMachine Wal Journal Store Events Node NodeInv.
From S2P Require Import NodeRPC NodeSteps NodeOpen Trace.

Local Open Scope N_scope.
#[local] Set Default Proof Using "Type*".

Section cluster.
Context {J : Type} `{HJ : Journal J, HJL : !JournalLaws J, HC : Codec record, HCL : !CodecLaws}.
Context `{HP : Platform, HPL : !PlatformLaws}.
Implicit Type n : Node J.

(** ** The network *)

(** A request on its way to a member, or a member's answer to a request. *)
Inductive packet :=
  | VotePacket (from to : string) (req : VoteRequest)
  | VoteReply (from : string) (req : VoteRequest) (resp : VoteResponse)
  | AppendPacket (from to : string) (req : AppendRequest)
  | AppendReply (from : string) (req : AppendRequest) (resp : AppendResponse).

(** A member that was never opened, one that runs, and one whose process has
    ended, with the memory it had. *)
Inductive place :=
  | Fresh (j : J)
  | Up (n : Node J)
  | Down (n : Node J).

Record network := mkNetwork {
  members : gmap string place;
  packets : list packet;
}.

(** The requests a node has handed over, or is about to. *)
Definition posted (id : string) n : list packet :=
  omap (λ m, match m_Vote m, m_Append m with
             | Some req, _ => Some (VotePacket id (m_To m) req)
             | None, Some req => Some (AppendPacket id (m_To m) req)
             | None, None => None
             end) (n_outbox n) ++
  ((λ x : Peer * VoteRequest, VotePacket id (p_ID x.1) x.2) <$> n_calls n).

(** The member [id] is now [n], and has sent [ps] besides its requests. *)
Definition advance (id : string) n (ps : list packet) (net : network) : network :=
  mkNetwork (<[id := Up n]> (members net)) (packets net ++ ps ++ posted id n).

(** The reply that reaches the other side when the call returned no error. *)
Definition replied (err : option error) (p : packet) : list packet :=
  if err then [] else [p].

(** Numbers and texts of the width and encoding the source's types have. *)
Definition typed_packet (p : packet) : Prop :=
  match p with
  | VotePacket _ _ req => typed_vote req
  | VoteReply _ _ resp => vr_Term resp < two64
  | AppendPacket _ _ req => typed_append req
  | AppendReply _ _ resp => ar_Term resp < two64
  end.

(** Calls a node receives from its own process: the timer, clients, the operator. *)
Definition local_call (c : call) : Prop :=
  match c with
  | CTick | CTakeWake _ | CSubmit _ _ | CPoll _ | CCancel _ | CDrain | CSetPaused _ | CClose => True
  | _ => False
  end.

(** The configuration of each member. *)
Context (config : string → Config).

Inductive net_step (net : network) : network → Prop :=
  | net_local id n c n' :
      members net !! id = Some (Up n) → local_call c → typed_call c →
      run_call c n = Some (tt, n') → net_step net (advance id n' [] net)
  | net_request_vote id n from req resp err n' :
      members net !! id = Some (Up n) → VotePacket from id req ∈ packets net →
      RequestVote req n = Some ((resp, err), n') →
      net_step net (advance id n' (replied err (VoteReply id req resp)) net)
  | net_append_entries id n from req resp err n' :
      members net !! id = Some (Up n) → AppendPacket from id req ∈ packets net →
      AppendEntries req n = Some ((resp, err), n') →
      net_step net (advance id n' (replied err (AppendReply id req resp)) net)
  | net_deliver_vote id n m req resp err n' :
      members net !! id = Some (Up n) → m_Vote m = Some req →
      VotePacket id (m_To m) req ∈ packets net → vr_Term resp < two64 →
      (err = None → VoteReply (m_To m) req resp ∈ packets net) →
      DeliverVote m resp err n = Some (tt, n') → net_step net (advance id n' [] net)
  | net_vote_returns id n i peer req resp err n' :
      members net !! id = Some (Up n) → n_calls n !! i = Some (peer, req) →
      vr_Term resp < two64 →
      (err = None → VoteReply (p_ID peer) req resp ∈ packets net) →
      vote_returns i resp err n = Some (tt, n') → net_step net (advance id n' [] net)
  | net_deliver_append id n m req resp err n' :
      members net !! id = Some (Up n) → m_Append m = Some req →
      AppendPacket id (m_To m) req ∈ packets net → ar_Term resp < two64 →
      (err = None → AppendReply (m_To m) req resp ∈ packets net) →
      DeliverAppend m resp err n = Some (tt, n') → net_step net (advance id n' [] net)
  | net_replicate id n peer o n' :
      members net !! id = Some (Up n) → peer ∈ others n →
      replicate_call peer n = Some (o, n') →
      net_step net (advance id n'
        (match o with Some req => [AppendPacket id (p_ID peer) req] | None => [] end) net)
  | net_replicate_return id n peer req resp err b n' :
      members net !! id = Some (Up n) → AppendPacket id (p_ID peer) req ∈ packets net →
      ar_Term resp < two64 → (err = None → AppendReply (p_ID peer) req resp ∈ packets net) →
      replicate_return peer req resp err n = Some (b, n') →
      net_step net (advance id n' [] net)
  | net_disk id n w :
      members net !! id = Some (Up n) → j_faults (st_wal (n_store n)) w →
      net_step net (advance id (set_nstore (set_wal w (n_store n)) n) [] net)
  | net_disk_down id n w :
      members net !! id = Some (Down n) → j_faults (st_wal (n_store n)) w →
      net_step net (mkNetwork (<[id := Down (set_nstore (set_wal w (n_store n)) n)]> (members net))
        (packets net))
  | net_disk_fresh id j w :
      members net !! id = Some (Fresh j) → j_faults j w →
      net_step net (mkNetwork (<[id := Fresh w]> (members net)) (packets net))
  | net_clock id n rt :
      members net !! id = Some (Up n) → rt_Manual rt = rt_Manual (n_rt n) →
      net_step net (advance id (set_rt rt n) [] net)
  | net_crash id n :
      members net !! id = Some (Up n) →
      net_step net (mkNetwork (<[id := Down n]> (members net)) (packets net))
  | net_open id j ht rt n' :
      members net !! id = Some (Fresh j) →
      OpenWithRuntime (config id) ht rt j = Some (inr n') →
      net_step net (advance id n' [] net)
  | net_reopen id n ht rt n' :
      members net !! id = Some (Down n) →
      OpenWithRuntime (config id) ht rt (st_wal (n_store n)) = Some (inr n') →
      net_step net (advance id n' [] net).

(** Every member fresh, on an empty journal. *)
Definition initial (net : network) : Prop :=
  packets net = [] ∧
  ∀ id x, members net !! id = Some x → ∃ j, x = Fresh j ∧ j_holds j [].

(** Members share one list of peers, elect their leader, and have the names
    they are configured under. *)
Record wf_cluster : Prop := {
  wc_id : ∀ id, cfg_ID (config id) = id;
  wc_peers : ∀ id1 id2, cfg_Peers (config id1) = cfg_Peers (config id2);
  wc_elected : ∀ id, cfg_FixedLeader (config id) = "";
  wc_typed : ∀ id, typed_config (config id);
}.

End cluster.

Arguments place J : clear implicits.
Arguments network J : clear implicits.

(** ** Opening keeps nothing of an earlier life but its store *)

Section opening.
Context {J : Type} `{HJ : Journal J, HC : Codec record, HP : Platform}.
Implicit Type n : Node J.

(** The table of peers, which is determined by their list. *)
Definition peer_table (ps : list Peer) : gmap string Peer :=
  match check_peers ps ∅ ∅ [] with inr (peers, _) => peers | inl _ => ∅ end.

(** A node of an elected cluster just after opening. *)
Record fresh_open (cfg : Config) (j : J) n : Prop := {
  fo_role : n_role n = follower;
  fo_healthy : n_failed n = None;
  fo_outbox : n_outbox n = [];
  fo_calls : n_calls n = [];
  fo_cfg : n_cfg n = with_defaults cfg;
  fo_peers : n_peers n = peer_table (cfg_Peers cfg);
  fo_listed : peers_listed n;
  fo_store : ∃ s, openStoreUsing (identity_cfg cfg) j = Some (inr s) ∧ n_store n = s;
}.

Lemma open_fresh cfg ht rt (j : J) n :
  OpenWithRuntime cfg ht rt j = Some (inr n) → cfg_FixedLeader cfg = "" → fresh_open cfg j n.
Proof using Type.
  unfold OpenWithRuntime. intros Ho Hfl.
  destruct (check_config (with_defaults cfg) ht (rt_Manual rt)) as [|[peers identity]] eqn:Hcheck; [done|].
  pose proof Hcheck as Hok. apply check_config_ok in Hok as (Hpeers&Hself&Hident).
  change (identity = identity_cfg cfg) in Hident. subst identity.
  assert (peers = peer_table (cfg_Peers cfg) ∧ (∀ p, p ∈ cfg_Peers cfg → is_Some (peers !! p_ID p)) ∧
    cfg_ID cfg ≠ "") as (Htable&Hlisted&Hne).
  { unfold check_config in Hcheck. cbn [cfg_Peers with_defaults cfg_ID] in Hcheck.
    destruct (_ || _) eqn:Hid in Hcheck; [done|]. apply orb_false_iff in Hid as [Hid _].
    apply orb_false_iff in Hid as [Hid _]. apply bool_decide_eq_false in Hid.
    match type of Hcheck with context [if ?b then _ else _] => destruct b end; [done|].
    unfold peer_table. destruct (check_peers _ _ _ _) as [|[peers0 ids]] eqn:Hc; [done|].
    apply check_peers_ok in Hc as (_&_&Hin&_).
    do 2 (match type of Hcheck with context [if ?b then _ else _] => destruct b end; [done|]).
    by injection Hcheck as -> _. }
  destruct (openStoreUsing (identity_cfg cfg) j) as [[err|s]|] eqn:Hopen; [done| |done].
  cbn [mbind option_bind] in Ho.
  destruct (if ds_base (st_state s) =? 0 then _ else _) as [machine [err|]]; [done|].
  set (n0 := initial_node _ _ _ _ _ _) in Ho.
  assert (cfg_FixedLeader (n_cfg n0) ≠ cfg_ID (n_cfg n0)) as Hfx.
  { cbn. rewrite Hfl. congruence. }
  pose proof (start_node_idles n0 eq_refl Hfx) as Hs. unfold wp in Hs.
  destruct (start_node n0) as [[[err|] n1]|]; [done| |done].
  cbn [mbind option_bind] in Ho. injection Ho as ->.
  unfold idles, still in Hs. injection Hs as E1 E2 E3 E4 E5 E6 E7. split; try done.
  - by rewrite E2.
  - unfold peers_listed. by rewrite E1, E2.
  - by exists s.
Qed.

End opening.
