(* ===== verification/Refine.v ===== *)
(** * Refine: the nodes of a cluster run the protocol

    Every step of the network of [Cluster] is a sequence of steps of the abstract
    protocol of [Raft], in which each member's replica is the durable state its
    journal holds.  The relation [refines] ties the two together; it is kept by
    every step, so whatever holds of the protocol's logs holds of the members'. *)

From stdpp Require Import base numbers list gmap strings fin_maps fin_map_dom pretty relations sorting options.
From S2P Require Import Prelude Effects Bytes StateMachine Wal Journal Store Events Node NodeInv.
From S2P Require Import NodeRPC NodeSteps NodeOpen NodeProps Trace Raft Cluster.

Local Open Scope N_scope.
#[local] Set Default Proof Using "Type*".

(** ** The replica a durable state is *)

(** A state that has compacted its log is the image of the whole log. *)
Record image (r : replica) (d : durableState) : Prop := {
  im_term : rp_term r = ds_term d;
  im_vote : rp_vote r = ds_vote d;
  im_commit : rp_commit r = N.to_nat (ds_commit d);
  im_length : length (rp_log r) = N.to_nat (last_index d);
  im_log : ∀ i e, 0 < i → log_at d i = Some e → rp_log r !! N.to_nat (i - 1) = Some e;
  im_zero : ∀ e, log_at d 0 = Some e → e_Term e = 0;
}.

Section image.
Context (r : replica) (d : durableState) (Hwf : wf_state d) (Him : image r d).

Lemma image_lookup i e :
  rp_log r !! N.to_nat (i - 1) = Some e → 0 < i → ds_base d ≤ i → log_at d i = Some e.
Proof using All.
  intros He Hi Hb. pose proof (lookup_lt_Some _ _ _ He) as Hlt. rewrite (im_length r d Him) in Hlt.
  destruct (log_at_some d Hwf i Hb ltac:(lia)) as [e' He']. rewrite He'.
  pose proof (im_log r d Him i e' Hi He'). congruence.
Qed.

(** The last entry of the state's log is the last of the replica's, or both are
    empty. *)
Lemma image_last e : log_at d (last_index d) = Some e → e_Term e = last_term (rp_log r).
Proof using Him.
  intros He. unfold last_term. rewrite last_lookup, (im_length r d Him).
  destruct (N.eq_0_gt_0_cases (last_index d)) as [Hz|Hpos].
  - rewrite Hz in *. assert (rp_log r = []) as ->.
    { apply nil_length_inv. rewrite (im_length r d Him), Hz. done. }
    by apply (im_zero r d Him).
  - replace (pred (N.to_nat (last_index d))) with (N.to_nat (last_index d - 1)) by lia.
    by rewrite (im_log r d Him _ e Hpos He).
Qed.

Lemma image_compacted index :
  ds_base d ≤ index → index ≤ ds_commit d → image r (compacted d index).
Proof using All.
  intros Hb Hc. split; try apply Him.
  - by rewrite last_index_compacted, (im_length r d Him).
  - intros i e Hi. rewrite log_at_compacted by done. destruct (i <? index); [done|]. by apply Him.
  - intros e. rewrite log_at_compacted by done. destruct (0 <? index); [done|]. by apply Him.
Qed.

(** A record that leaves the log alone. *)
Lemma image_same id term vote commit :
  let rec := mkRecord id term vote commit 0 [] None in
  image (mkReplica term vote (rp_log r) (N.to_nat commit)) (updated d rec).
Proof using Him. intros rec. destruct Him. by split. Qed.

(** A record that replaces the log from an index on. *)
Lemma image_updated rec l :
  valid_update (rc_Identity rec) d rec → rc_From rec ≠ 0 →
  l = take (N.to_nat (rc_From rec - 1)) (rp_log r) ++ rc_Entries rec →
  image (mkReplica (rc_Term rec) (rc_Vote rec) l (N.to_nat (rc_Commit rec))) (updated d rec).
Proof using All.
  intros Hv HF ->. destruct (vu_from _ _ _ Hv HF) as (Hc&Hle&_).
  destruct (updated_length d rec Hwf Hv HF) as [_ Hend]. pose proof (last_index_end d Hwf) as He.
  assert (length (take (N.to_nat (rc_From rec - 1)) (rp_log r)) = N.to_nat (rc_From rec - 1)) as Hlen.
  { rewrite length_take, (im_length r d Him). lia. }
  split; cbn [rp_term rp_vote rp_log rp_commit]; try done.
  - rewrite length_app, Hlen. unfold last_index. fold (log_end (updated d rec)). rewrite Hend.
    unfold lenN. lia.
  - intros i e Hi. rewrite log_at_updated by done.
    rewrite (proj2 (N.eqb_neq _ _) HF). cbn [orb]. destruct (N.ltb_spec i (rc_From rec)) as [Hlt|Hge].
    + intros Hl. rewrite lookup_app_l by (rewrite Hlen; lia). rewrite lookup_take_lt by lia. by apply (im_log r d Him).
    + intros Hl. rewrite lookup_app_r by (rewrite Hlen; lia). rewrite Hlen.
      by replace (N.to_nat (i - 1) - N.to_nat (rc_From rec - 1))%nat with (N.to_nat (i - rc_From rec)) by lia.
  - intros e. rewrite log_at_updated by done. rewrite (proj2 (N.ltb_lt 0 _)) by lia.
    rewrite orb_true_r. by apply (im_zero r d Him).
Qed.

End image.

Lemma image_empty : image (mkReplica 0 "" [] 0) (mkState 0 "" 0 0 [zeroEntry]).
Proof.
  split; try done.
  - intros i e Hi. unfold log_at. cbn [ds_base ds_log]. destruct (i <? 0); [done|].
    intros [Hk _]%list_lookup_singleton_Some. lia.
  - intros e. unfold log_at. cbn. by intros [= <-].
Qed.

(** ** What the messages say *)

(** The request was sent by the leader of its term, of its own log. *)
Record sent (P : gset string) (G : group) (req : AppendRequest) (rg : reign) : Prop := {
  st_reign : g_reign G (aq_Term req) = Some rg;
  st_prev : 0 < aq_PrevLogIndex req →
    ∃ p, rg_log rg !! N.to_nat (aq_PrevLogIndex req - 1) = Some p ∧ e_Term p = aq_PrevLogTerm req;
  st_entries : ∀ k e, aq_Entries req !! k = Some e →
    rg_log rg !! (N.to_nat (aq_PrevLogIndex req) + k)%nat = Some e;
  st_bound : (N.to_nat (aq_PrevLogIndex req) + length (aq_Entries req) ≤ length (rg_log rg))%nat;
  st_small : aq_PrevLogIndex req + lenN (aq_Entries req) < two64;
  st_commit : (N.to_nat (aq_LeaderCommit req) ≤ length (rg_log rg))%nat;
  st_settled : settled P G (aq_Term req) (take (N.to_nat (aq_LeaderCommit req)) (rg_log rg));
}.

(** The index a request reaches to. *)
Definition reach (req : AppendRequest) : N := aq_PrevLogIndex req + lenN (aq_Entries req).

(** The candidate of the request campaigns with a log that ends as the request
    says. *)
Definition campaigning (G : group) (req : VoteRequest) : Prop :=
  ∃ l, g_campaign G (vq_Term req) (vq_CandidateID req) = Some l ∧
    length l = N.to_nat (vq_LastLogIndex req) ∧ last_term l = vq_LastLogTerm req.

Definition acknowledged (G : group) (v : string) (t m : N) : Prop :=
  ∀ i, (0 < i)%nat → (i ≤ N.to_nat m)%nat → g_acked G v t i.

Section messages.
Context (P : gset string).

Definition packet_ok (G : group) (p : packet) : Prop :=
  typed_packet p ∧
  match p with
  | VotePacket from to req => vq_CandidateID req = from ∧ to ∈ P ∧ campaigning G req
  | VoteReply v req resp => vr_Granted resp = true → v ∈ P ∧ g_voted G v (vq_Term req) (vq_CandidateID req)
  | AppendPacket _ to req => ∃ rg, sent P G req rg
  | AppendReply v req resp => ar_Success resp = true → v ∈ P ∧ acknowledged G v (aq_Term req) (reach req)
  end.

Lemma sent_grows G G' req rg :
  grows G G' → sent P G req rg → ∃ rg', sent P G' req rg'.
Proof.
  intros Hg [H1 H2 H3 H4 H5 H6 H7]. destruct (gr_reign _ _ Hg _ _ H1) as (rg'&H1'&_&_&_&[k Hk]).
  exists rg'. split; try done.
  - intros Hp. destruct (H2 Hp) as (p&Hl&?). exists p. split; [|done]. rewrite Hk. by apply lookup_app_l_Some.
  - intros i e He. rewrite Hk. by apply lookup_app_l_Some, H3.
  - rewrite Hk, length_app. lia.
  - rewrite Hk, length_app. lia.
  - rewrite Hk, take_app_le by done. by eapply settled_grows.
Qed.

Lemma campaigning_grows G G' req : grows G G' → campaigning G req → campaigning G' req.
Proof using Type. intros Hg (l&Hl&?). exists l. split; [by apply Hg|done]. Qed.

Lemma acknowledged_grows G G' v t m : grows G G' → acknowledged G v t m → acknowledged G' v t m.
Proof using Type. intros Hg H i H1 H2. by apply Hg, H. Qed.

Lemma packet_ok_grows G G' p : grows G G' → packet_ok G p → packet_ok G' p.
Proof.
  intros Hg [Hty Hp]. split; [done|]. destruct p as [from to req|v req resp|from to req|v req resp].
  - destruct Hp as (?&?&?). split_and!; [done..|by eapply campaigning_grows].
  - intros Hgr. destruct (Hp Hgr). split; [done|by apply Hg].
  - destruct Hp as [rg Hs]. by eapply sent_grows.
  - intros Hs. destruct (Hp Hs). split; [done|by eapply acknowledged_grows].
Qed.

(** What a member of [cfg] may rely on when it handles messages. *)
Record evidence_ok (ev : evidence) (G : group) (id : string) : Prop := {
  eo_vote : ∀ req, ev_vote ev req → campaigning G req ∧ typed_vote req;
  eo_append : ∀ req, ev_append ev req → typed_append req ∧ ∃ rg, sent P G req rg;
  eo_ballot : ∀ v t, ev_ballot ev v t → v ∈ P ∧ g_voted G v t id;
  eo_match : ∀ v t m, ev_match ev v t m → acknowledged G v t m;
}.

Lemma evidence_ok_grows ev G G' id : grows G G' → evidence_ok ev G id → evidence_ok ev G' id.
Proof.
  intros Hg [H1 H2 H3 H4]. split.
  - intros req H. destruct (H1 req H). split; [by eapply campaigning_grows|done].
  - intros req H. destruct (H2 req H) as [? [rg ?]]. split; [done|by eapply sent_grows].
  - intros v t H. destruct (H3 v t H). split; [done|by apply Hg].
  - intros v t m H. by eapply acknowledged_grows, H4.
Qed.

(** The steps a member's moves amount to. *)
Record own_steps (id : string) (G G' : group) : Prop := {
  os_steps : rtc (raft_step P) G G';
  os_others : ∀ v, v ≠ id → g_replica G' v = g_replica G v;
  os_reign : ∀ t rg, g_reign G t = None → g_reign G' t = Some rg → rg_leader rg = id;
}.

#[export] Instance own_steps_refl id : Reflexive (own_steps id).
Proof using Type. intros G. split; [done|done|congruence]. Qed.

Lemma own_steps_trans id G1 G2 G3 :
  inv P G2 → inv P G1 → own_steps id G1 G2 → own_steps id G2 G3 → own_steps id G1 G3.
Proof using Type.
  intros HI2 HI1 [A1 A2 A3] [B1 B2 B3]. split; [by etransitivity|intros v Hv; by rewrite B2, A2|].
  intros t rg Hno Hrg. destruct (g_reign G2 t) as [rg2|] eqn:H2; [|by eapply B3].
  pose proof (A3 t rg2 Hno H2) as <-. destruct (raft_steps_inv P G2 G3 HI2 B1) as [Hg _].
  destruct (gr_reign _ _ Hg t rg2 H2) as (rg'&Hrg'&Hl&_). congruence.
Qed.

End messages.

Lemma take_slice {A} (l es : list A) p :
  (∀ k e, es !! k = Some e → l !! (p + k)%nat = Some e) → (p ≤ length l)%nat →
  take (p + length es) l = take p l ++ es.
Proof.
  intros H Hp. rewrite <-(take_drop p l) at 1.
  rewrite take_app_ge by (rewrite length_take; lia). rewrite length_take, Nat.min_l by done.
  replace (p + length es - p)%nat with (length es) by lia. f_equal.
  apply list_eq. intros i. destruct (decide (i < length es)%nat) as [Hi|Hi].
  - rewrite lookup_take_lt by done. destruct (lookup_lt_is_Some_2 es i Hi) as [e He].
    rewrite lookup_drop, He. by apply H.
  - rewrite lookup_take_ge by lia. symmetry. apply lookup_ge_None. lia.
Qed.

(** ** A node and its replica *)

Section node.
Context {J : Type} `{HJ : Journal J, HJL : !JournalLaws J, HC : Codec record, HCL : !CodecLaws}.
Context (table : gmap string Peer).
Implicit Type n : Node J.
Notation P := (dom table).
Notation raft_step := (raft_step P).
Notation inv := (inv P).
Notation packet_ok := (packet_ok P).
Notation own_steps := (own_steps P).

(** What the journal of a node holds is its replica, also when the node has
    failed and its memory lags behind. *)
Definition disk_ok (r : replica) n : Prop :=
  match n_failed n with
  | None => content (st_wal (n_store n)) (without_wal (n_store n)) ∧ image r (n_state n)
  | Some _ => n_role n = follower ∧
    (overflowing (st_wal (n_store n)) (st_identity (n_store n)) ∨
     ∃ s0, content (st_wal (n_store n)) s0 ∧ st_identity s0 = st_identity (n_store n) ∧
       image r (st_state s0))
  end.

(** What a node has committed and applied is part of its replica. *)
Record past_ok (r : replica) n : Prop := {
  pa_commit : (N.to_nat (commit_of n) ≤ rp_commit r)%nat;
  pa_log : ∀ i e, 0 < i → i ≤ commit_of n → log_at (n_state n) i = Some e →
    rp_log r !! N.to_nat (i - 1) = Some e;
  pa_applied : n_applied n ≤ commit_of n;
  pa_machine : n_machine n = history_machine (take (N.to_nat (n_applied n)) (rp_log r));
}.

(** Candidates campaign and leaders reign. *)
Definition office (G : group) (id : string) n : Prop :=
  match n_role n with
  | follower => True
  | candidate =>
    g_campaign G (term_of n) id = Some (rp_log (g_replica G id)) ∧
    (∀ rg, g_reign G (term_of n) = Some rg → rg_leader rg ≠ id) ∧
    ∀ v, is_Some (n_votes n !! v) → v ∈ P ∧ g_voted G v (term_of n) id
  | leader =>
    (∃ rg, g_reign G (term_of n) = Some rg ∧ rg_leader rg = id) ∧
    ∀ v, v ∈ P → v ≠ id → acknowledged G v (term_of n) (match_of n v)
  end.

Record sound (G : group) (id : string) n : Prop := {
  so_id : cfg_ID (n_cfg n) = id;
  so_peers : n_peers n = table;
  so_config : wf_config n;
  so_store : wf_store (n_store n);
  so_machine : wf_machine (n_machine n) ∧ rep_snapshot (takeSnapshot (n_machine n));
  so_disk : disk_ok (g_replica G id) n;
  so_past : past_ok (g_replica G id) n;
  so_office : office G id n;
  so_posted : ∀ p, p ∈ posted id n → packet_ok G p;
}.

Section facts.
Context (G : group) (id : string) (n : Node J) (HI : inv G) (Hs : sound G id n).

Lemma sound_state : wf_state (n_state n).
Proof using Hs. apply Hs. Qed.

Lemma sound_member : id ∈ P ∧ id ≠ "" ∧ text id.
Proof using Hs.
  destruct (wf_self n (so_config _ _ _ Hs)) as [p Hp].
  destruct (wf_member n (so_config _ _ _ Hs) _ _ Hp) as (_&?&?).
  rewrite (so_id _ _ _ Hs) in *. rewrite (so_peers _ _ _ Hs) in Hp. split_and!; [|done|done].
  by apply elem_of_dom.
Qed.

Lemma sound_role : n_role n ≠ follower → n_failed n = None.
Proof using Hs.
  intros Hr. pose proof (so_disk _ _ _ Hs) as Hd. unfold disk_ok in Hd.
  destruct (n_failed n); [by destruct Hd|done].
Qed.

Lemma sound_healthy : n_failed n = None →
  content (st_wal (n_store n)) (without_wal (n_store n)) ∧ image (g_replica G id) (n_state n).
Proof using Hs. intros Hf. pose proof (so_disk _ _ _ Hs) as Hd. unfold disk_ok in Hd. by rewrite Hf in Hd. Qed.

(** A leader's log is the log of its reign. *)
Lemma sound_leader : n_role n = leader → ∃ rg, g_reign G (term_of n) = Some rg ∧ rg_leader rg = id ∧
  rp_log (g_replica G id) = rg_log rg ∧ image (g_replica G id) (n_state n) ∧
  ∀ v, v ∈ P → v ≠ id → acknowledged G v (term_of n) (match_of n v).
Proof using HI Hs.
  intros Hr. pose proof (so_office _ _ _ Hs) as Ho. unfold office in Ho. rewrite Hr in Ho.
  destruct Ho as [(rg&Hrg&Hl) Hack]. destruct sound_healthy as [_ Him]; [by apply sound_role; rewrite Hr|].
  exists rg. split_and!; [done..| |done|done].
  rewrite <-Hl. apply (ro_leader _ _ _ _ (i_reign P G HI _ _ Hrg)). rewrite Hl. apply Him.
Qed.

Lemma sound_applied i : i ≤ n_applied n → take (N.to_nat i) (rp_log (g_replica G id)) =
  take (N.to_nat i) (take (rp_commit (g_replica G id)) (rp_log (g_replica G id))).
Proof using Hs.
  intros Hi. pose proof (so_past _ _ _ Hs) as [H1 _ H3 _]. rewrite take_take. f_equal. lia.
Qed.

End facts.

(** *** What other members' steps leave alone *)

Lemma office_grows G G' id n n' :
  grows G G' → n_role n' = n_role n ∨ n_role n' = follower → term_of n' = term_of n →
  n_votes n' = n_votes n → (∀ v, v ≠ id → match_of n' v = match_of n v) →
  rp_log (g_replica G' id) = rp_log (g_replica G id) ∨ n_role n ≠ candidate →
  (∀ rg, g_reign G' (term_of n) = Some rg → rg_leader rg = id →
     ∃ rg0, g_reign G (term_of n) = Some rg0 ∧ rg_leader rg0 = id) →
  office G id n → office G' id n'.
Proof using Type.
  intros Hg Hr Ht Hv Hm Hl Hn. unfold office. destruct Hr as [->| ->]; [|done]. rewrite Ht, Hv.
  destruct (n_role n); [done|..].
  - destruct Hl as [->|Hl]; [|done]. intros (Hc&Hno&Hvo). split_and!.
    + by apply Hg.
    + intros rg Hrg Hlead. destruct (Hn rg Hrg Hlead) as (rg0&H0&E). by apply (Hno rg0).
    + intros v Hin. destruct (Hvo v Hin). split; [done|by apply Hg].
  - intros [(rg&Hrg&Hlead) Hack]. split.
    + destruct (gr_reign _ _ Hg _ _ Hrg) as (rg'&H'&E&_). exists rg'. split; [done|congruence].
    + intros v Hin Hne. rewrite Hm by done. by eapply acknowledged_grows, Hack.
Qed.

Lemma sound_grows G G' id n :
  grows G G' → g_replica G' id = g_replica G id →
  (∀ t rg, g_reign G t = None → g_reign G' t = Some rg → rg_leader rg ≠ id) →
  sound G id n → sound G' id n.
Proof.
  intros Hg Hr Hn []. split; rewrite ?Hr; try done.
  - eapply office_grows; try done; [by left|by rewrite Hr; left|]. intros rg Hrg Hlead.
    destruct (g_reign G (term_of n)) as [rg0|] eqn:H0; [|by destruct (Hn _ _ H0 Hrg)].
    destruct (gr_reign _ _ Hg _ _ H0) as (rg'&H'&E&_). exists rg0. split; [done|congruence].
  - intros p Hp. by eapply packet_ok_grows, so_posted0.
Qed.

(** *** The replica's past is kept *)

Lemma past_ok_kept G G' id n n' :
  inv G → rtc raft_step G G' → past_ok (g_replica G id) n →
  n_state n' = n_state n → n_applied n' = n_applied n → n_machine n' = n_machine n →
  past_ok (g_replica G' id) n'.
Proof.
  intros HI Hs [H1 H2 H3 H4] Est Ea Em. pose proof (raft_steps_commit P G G' id Hs) as Hc.
  destruct (committed_kept P G G' id HI Hs) as [k Hk]. destruct (i_commit P G HI id) as [Hlen _].
  assert (∀ i, i ≤ commit_of n → take (N.to_nat i) (rp_log (g_replica G' id)) =
    take (N.to_nat i) (rp_log (g_replica G id))) as Htake.
  { intros i Hi. rewrite Hk, take_app_le by (rewrite length_take; lia). rewrite take_take. f_equal. lia. }
  unfold commit_of in *. split; unfold commit_of; rewrite ?Est, ?Ea; try done.
  - lia.
  - intros i e Hi Hle Hl. specialize (Htake i Hle).
    rewrite <-(lookup_take_lt _ (N.to_nat i)) by lia. rewrite Htake, lookup_take_lt by lia. by apply H2.
  - by rewrite Em, H4, Htake.
Qed.

End node.

Section saving.
Context {J : Type} `{HJ : Journal J, HJL : !JournalLaws J, HC : Codec record, HCL : !CodecLaws}.
Context (table : gmap string Peer).
Implicit Type n : Node J.
Notation P := (dom table).
Notation raft_step := (raft_step P).
Notation inv := (inv P).
Notation packet_ok := (packet_ok P).
Notation own_steps := (own_steps P).
Notation sound := (sound table).
Context (ev : evidence) (G : group) (id : string) (n : Node J).
Context (HI : inv G) (Hev : evidence_ok P ev G id) (Hs : sound G id n).

(** What a request's new entries are: those from the first the log lacks. *)
Lemma accepting_scan req from es commit :
  accepting ev n req from es commit → typed_append req ∧ scan_result n req (inr (from, es)).
Proof.
  intros Ha. destruct (eo_append _ _ _ _ Hev req (ag_request _ _ _ _ _ _ Ha)) as [Hty _].
  split; [done|]. pose proof (sound_state _ _ _ _ Hs) as Hwf.
  destruct (new_entries_wf n req 0 (aq_Entries req) Hwf Hty eq_refl) as (r&Hr&Hsc); [intros ?; lia|].
  change (N.of_nat 0) with 0 in Hr. rewrite (ag_new _ _ _ _ _ _ Ha) in Hr. by injection Hr as <-.
Qed.

Lemma commit_found i :
  commit_index (N.to_nat (lastLocked n - commit_of n)) n (lastLocked n) = Some (Some i) →
  commit_of n < i ∧ i ≤ last_index (n_state n) ∧ committable n i.
Proof using Hs.
  intros Hi. pose proof (sound_state _ _ _ _ Hs) as Hwf. rewrite lastLocked_wf in Hi by done.
  destruct (commit_index_wf _ n (last_index (n_state n)) Hwf (so_config _ _ _ _ Hs) (N.le_refl _) eq_refl) as (r&Hr&Hcase).
  rewrite Hi in Hr. injection Hr as <-. naive_solver.
Qed.

Lemma purpose_rep term vote commit from es :
  purpose ev n term vote commit from es →
  representable (save_record (n_store n) term vote commit from es).
Proof.
  intros Hp. pose proof (sound_state _ _ _ _ Hs) as Hwf. destruct (wf_bounds n Hwf) as (Ht&Hc&Hl&_&_&Hv).
  pose proof (λ t v c f e, rep_save_record (n_store n) t v c f e (wf_st_identity _ (so_store _ _ _ _ Hs))) as Hrep.
  destruct Hp as [req Hreq Hterm _ _ [c0 Hc0]|command _ Hcmd e|req from es commit Ha _ _|i _ Hi].
  - apply Hrep; try done; [by rewrite Hterm|].
    by destruct (wf_member n (so_config _ _ _ _ Hs) _ _ Hc0) as (_&?&_).
  - apply Hrep; try done; [apply add64_lt|].
    split; [done|]. apply Forall_singleton. split; cbn; [apply add64_lt|done|].
    intros c Hc'. by apply Hcmd.
  - destruct (accepting_scan _ _ _ _ Ha) as [Hty Hsc]. destruct (ta_Entries _ Hty) as [Hlen Hall].
    apply Hrep; try done.
    + rewrite (ag_commit _ _ _ _ _ _ Ha). destruct (_ <? _); [|done].
      pose proof (ta_Commit _ Hty). lia.
    + inversion Hsc as [|Hk|k e He Hn Hk]; subst; [done|]. destruct Hn as (->&_). apply add64_lt.
    + inversion Hsc as [|Hk|k e He Hn Hk]; subst; [done|].
      split; [unfold lenN in *; rewrite length_drop; lia|by apply Forall_drop].
  - apply Hrep; try done.
    destruct (commit_found i Hi) as (_&?&_). lia.
Qed.

(** *** The protocol's steps behind a save *)

(** The protocol has gone on to [G'], where the replica is [d']. *)
Record carried (d' : durableState) (G' : group) : Prop := {
  ca_steps : own_steps id G G';
  ca_image : image (g_replica G' id) d';
  ca_log : n_role n = candidate → rp_log (g_replica G' id) = rp_log (g_replica G id);
  ca_kept : n_pending n ≠ ∅ → rp_log (g_replica G id) `prefix_of` rp_log (g_replica G' id);
  ca_reign : ∀ t rg, g_reign G' t = Some rg → rg_leader rg = id →
    ∃ rg0, g_reign G t = Some rg0 ∧ rg_leader rg0 = id;
}.

Lemma replica_set v r G0 : g_replica (set_replica v r G0) v = r.
Proof using Type. rewrite set_replica_lookup. by rewrite decide_True. Qed.

Lemma replica_set_ne v w r G0 : w ≠ v → g_replica (set_replica v r G0) w = g_replica G0 w.
Proof using Type. intros Hne. rewrite set_replica_lookup. by rewrite decide_False. Qed.

Lemma replica_eta r : mkReplica (rp_term r) (rp_vote r) (rp_log r) (rp_commit r) = r.
Proof using Type. by destruct r. Qed.

Lemma vote_carried req :
  n_failed n = None → ev_vote ev req → vq_Term req = term_of n → vote_of n = "" → outdone n req →
  is_Some (n_peers n !! vq_CandidateID req) →
  let r := save_record (n_store n) (vq_Term req) (vq_CandidateID req) (commit_of n) 0 [] in
  ∃ G', carried (updated (n_state n) r) G'.
Proof.
  intros Hf Hreq Ht Hv (e&He&Hup) [p Hp] r. destruct (sound_healthy _ _ _ _ Hs Hf) as [_ Him].
  pose proof (sound_state _ _ _ _ Hs) as Hwf. destruct (wf_bounds n Hwf) as (_&_&Hl64&_).
  destruct (eo_vote _ _ _ _ Hev req Hreq) as [(lc&Hc&Hlen&Hlt) _].
  destruct (wf_member n (so_config _ _ _ _ Hs) _ _ Hp) as (_&_&Hne).
  rewrite lastLocked_wf, entryLocked_wf in He by done.
  pose proof (image_last _ _ Him _ He) as Het. destruct (log_at_Index _ Hwf _ _ He) as [Hei _].
  assert (rp_term (g_replica G id) = vq_Term req) as Hrt by (rewrite Ht; apply Him).
  set (x := g_replica G id) in *.
  exists (add_vote id (rp_term x) (vq_CandidateID req)
    (set_replica id (mkReplica (rp_term x) (vq_CandidateID req) (rp_log x) (rp_commit x)) G)). split.
  - split; [|intros v Hvne; by apply replica_set_ne|].
    + apply rtc_once. rewrite Ht in Hc. apply (rs_vote P G id (vq_CandidateID req) x lc); [done| |done| |].
      * left. rewrite (im_vote _ _ Him). exact Hv.
      * rewrite Hrt, Ht. exact Hc.
      * unfold up_to_date. rewrite <-Het, Hlt, Hlen, (im_length _ _ Him).
        destruct Hup as [?|[-> ?]]; [by left|right]. split; [done|lia].
    + intros t rg Hno Hrg. change (g_reign G t = Some rg) in Hrg. congruence.
  - cbn [add_vote g_replica]. rewrite replica_set, Hrt, (im_commit _ _ Him). by apply image_same.
  - intros _. cbn [add_vote g_replica]. by rewrite replica_set.
  - intros _. cbn [add_vote g_replica]. by rewrite replica_set.
  - intros t rg Hrg Hlead. by exists rg.
Qed.

Lemma append_carried command :
  n_role n = leader →
  let e := mkEntry (add64 (lastLocked n) 1) (term_of n) command in
  let r := save_record (n_store n) (term_of n) (vote_of n) (commit_of n) (e_Index e) [e] in
  valid_update (rc_Identity r) (n_state n) r → ∃ G', carried (updated (n_state n) r) G'.
Proof.
  intros Hr e r Hv. destruct (sound_leader _ _ _ _ HI Hs Hr) as (rg&Hrg&Hlead&Hlog&Him&_).
  pose proof (sound_state _ _ _ _ Hs) as Hwf. destruct (wf_bounds n Hwf) as (_&_&Hl64&_).
  assert (rc_From r ≠ 0) as HF by (intros HF; by destruct (vu_same _ _ _ Hv HF)).
  assert (e_Index e = last_index (n_state n) + 1) as Hi.
  { destruct (add64_cases (last_index (n_state n)) 1 Hl64 ltac:(done)) as [[? E]|[? E]];
      cbn [e_Index e]; rewrite lastLocked_wf by done; [done|]. destruct HF. cbn.
    rewrite lastLocked_wf, E by done. lia. }
  set (x := g_replica G id) in *.
  exists (add_acks id (term_of n) (S (length (rg_log rg)))
    (set_reign (term_of n) (mkReign id (rg_voters rg) (rg_init rg) (rg_log rg ++ [e]))
      (set_replica id (mkReplica (term_of n) (rp_vote x) (rp_log x ++ [e]) (rp_commit x)) G))).
  assert (∀ t rg', g_reign (set_reign (term_of n) (mkReign id (rg_voters rg) (rg_init rg) (rg_log rg ++ [e])) G) t
    = Some rg' → rg_leader rg' = id → ∃ rg0, g_reign G t = Some rg0 ∧ rg_leader rg0 = id) as Hreign.
  { intros t rg'. rewrite set_reign_lookup. destruct (decide _) as [<-|]; [|by exists rg'].
    intros _ _. by exists rg. }
  split.
  - split; [|intros v Hne; by apply replica_set_ne|].
    + apply rtc_once. apply rs_append; try done. apply Him.
    + intros t rg' Hno Hrg'. change (g_reign (set_reign (term_of n)
        (mkReign id (rg_voters rg) (rg_init rg) (rg_log rg ++ [e])) G) t = Some rg') in Hrg'.
      rewrite set_reign_lookup in Hrg'. destruct (decide _) as [<-|]; congruence.
  - cbn [add_acks set_reign g_replica]. rewrite replica_set, (im_vote _ _ Him), (im_commit _ _ Him).
    apply (image_updated _ _ Hwf Him r); [done|done|]. change (rc_From r) with (e_Index e). rewrite Hi.
    rewrite take_ge; [done|]. rewrite (im_length _ _ Him). lia.
  - congruence.
  - intros _. cbn [add_acks set_reign g_replica]. rewrite replica_set. apply prefix_app_r. done.
  - exact Hreign.
Qed.

Lemma commit_carried i :
  n_role n = leader →
  commit_index (N.to_nat (lastLocked n - commit_of n)) n (lastLocked n) = Some (Some i) →
  let r := save_record (n_store n) (term_of n) (vote_of n) i 0 [] in
  ∃ G', carried (updated (n_state n) r) G'.
Proof.
  intros Hr Hi r. destruct (sound_leader _ _ _ _ HI Hs Hr) as (rg&Hrg&Hlead&Hlog&Him&Hack).
  pose proof (sound_state _ _ _ _ Hs) as Hwf. destruct (commit_found i Hi) as (Hlow&Hle&(e&He&Het)&Hrep).
  set (x := g_replica G id) in *. set (k := length (rg_log rg)).
  assert (merge k (rg_log rg) (rp_log x) = rp_log x) as Hm.
  { unfold merge. rewrite Hlog, decide_True; [done|]. apply prefix_take. }
  assert (rp_term x = term_of n) as Hxt by apply Him.
  set (G1 := add_acks id (term_of n) k (set_replica id (mkReplica (term_of n) (rp_vote x)
    (merge k (rg_log rg) (rp_log x)) (Nat.max (rp_commit x) (Nat.min 0 k))) G)).
  assert (raft_step G G1) as H1.
  { apply rs_accept with (r := x) (rg := rg) (lc := 0%nat); try done. by left. }
  assert (g_replica G1 id = x) as Hx1.
  { unfold G1. cbn [add_acks g_replica]. rewrite replica_set, Hm, <-Hxt.
    rewrite Nat.min_0_l, Nat.max_0_r. apply replica_eta. }
  assert (N.to_nat i ≤ k)%nat as Hik.
  { unfold k. rewrite <-Hlog, (im_length _ _ Him). lia. }
  assert (0 < i) as Hi0 by lia.
  assert (chosen P G1 (term_of n) (N.to_nat i)) as Hch.
  { split.
    - exists rg, e. split_and!; [done| |lia|done]. rewrite <-Hlog.
      replace (pred (N.to_nat i)) with (N.to_nat (i - 1)) by lia. by apply (im_log _ _ Him).
    - destruct (sound_member _ _ _ _ Hs) as (Hin&_).
      destruct Hrep as [Hsub Hsize]. rewrite (so_peers _ _ _ _ Hs) in Hsub, Hsize.
      exists (holders n i). split; [split; [exact Hsub|by apply Nat.Div0.div_lt_upper_bound]|]. intros v Hv.
      pose proof (Hsub v Hv) as HvP. unfold holders in Hv.
      apply elem_of_filter in Hv as [Hv _]. rewrite (so_id _ _ _ _ Hs) in Hv.
      destruct (decide (v = id)) as [->|Hne].
      + right. split_and!; [done..|]. exact Hik.
      + destruct Hv as [?|Hmv]; [done|]. left. apply (Hack v HvP Hne); lia. }
  set (G2 := set_replica id (mkReplica (term_of n) (rp_vote x) (rp_log x) (Nat.max (rp_commit x) (N.to_nat i))) G1).
  assert (raft_step G1 G2) as H2.
  { apply rs_commit with (rg := rg); try done. }
  exists G2. split.
  - split; [|intros v Hne; unfold G2, G1; rewrite replica_set_ne by done; by apply replica_set_ne|].
    + eapply rtc_l; [exact H1|]. by apply rtc_once.
    + intros t rg' Hno Hrg'. change (g_reign G t = Some rg') in Hrg'. congruence.
  - unfold G2. rewrite replica_set. rewrite (im_vote _ _ Him), (im_commit _ _ Him).
    replace (Nat.max _ _) with (N.to_nat i) by (unfold commit_of in *; lia). by apply image_same.
  - congruence.
  - intros _. unfold G2. by rewrite replica_set.
  - intros t rg' Hrg' Hl'. by exists rg'.
Qed.

(** A log that agrees with the leader's before the request, and holds its first
    entries, agrees up to them. *)
Lemma received l req rg m p :
  sent P G req rg → rooted G l →
  (0 < aq_PrevLogIndex req → l !! N.to_nat (aq_PrevLogIndex req - 1) = Some p ∧ e_Term p = aq_PrevLogTerm req) →
  (∀ k e, (k < m)%nat → aq_Entries req !! k = Some e → l !! (N.to_nat (aq_PrevLogIndex req) + k)%nat = Some e) →
  (m ≤ length (aq_Entries req))%nat →
  let q := N.to_nat (aq_PrevLogIndex req) in
  take (q + m) l = take q (rg_log rg) ++ take m (aq_Entries req) ∧
  take (q + m) l = take (q + m) (rg_log rg).
Proof using HI.
  intros Hsent Hroot Hprev Hes Hm q. pose proof (st_bound _ _ _ _ Hsent) as Hb.
  assert (length (take m (aq_Entries req)) = m) as Hlen by (rewrite length_take; lia).
  assert (take q l = take q (rg_log rg) ∧ (q ≤ length l)%nat) as [Hq Hql].
  { destruct (N.eq_0_gt_0_cases (aq_PrevLogIndex req)) as [Hz|Hpos]; [unfold q; rewrite Hz; cbn; split; [done|lia]|].
    destruct (Hprev Hpos) as [Hl Ht]. destruct (st_prev _ _ _ _ Hsent Hpos) as (p'&Hl'&Ht').
    pose proof (rooted_match P G HI l (rg_log rg) _ p p' Hroot
      (ro_rooted _ _ _ _ (i_reign P G HI _ _ (st_reign _ _ _ _ Hsent))) Hl Hl' ltac:(congruence)) as Hmatch.
    apply lookup_lt_Some in Hl. replace (S (N.to_nat (aq_PrevLogIndex req - 1))) with q in Hmatch by (unfold q; lia).
    split; [done|unfold q; lia]. }
  assert (take (q + m) l = take q l ++ take m (aq_Entries req)) as H1.
  { rewrite <-Hlen at 1. apply take_slice; [|done].
    intros k e [He Hk]%lookup_take_Some. by apply Hes. }
  assert (take (q + m) (rg_log rg) = take q (rg_log rg) ++ take m (aq_Entries req)) as H2.
  { rewrite <-Hlen at 1. apply take_slice; [|unfold q; lia].
    intros k e [He Hk]%lookup_take_Some. by apply (st_entries _ _ _ _ Hsent). }
  split; [by rewrite H1, Hq|by rewrite H1, H2, Hq].
Qed.

Lemma accept_carried req from es commit :
  n_failed n = None → accepting ev n req from es commit → n_role n = follower → n_pending n = ∅ →
  let r := save_record (n_store n) (term_of n) (vote_of n) commit from es in
  valid_update (rc_Identity r) (n_state n) r → ∃ G', carried (updated (n_state n) r) G'.
Proof.
  intros Hf Ha Hr Hpend r Hv. destruct (sound_healthy _ _ _ _ Hs Hf) as [_ Him].
  pose proof (sound_state _ _ _ _ Hs) as Hwf. destruct (wf_bounds n Hwf) as (_&_&Hl64&_).
  destruct (accepting_scan _ _ _ _ Ha) as [Hty Hscan].
  destruct (eo_append _ _ _ _ Hev req (ag_request _ _ _ _ _ _ Ha)) as [_ [rg Hsent]].
  destruct (ag_prev _ _ _ _ _ _ Ha) as (p&Hp&Hpt). destruct (ag_bounds _ _ _ _ _ _ Ha) as [Hb Hl].
  rewrite lastLocked_wf in Hl by done. rewrite entryLocked_wf in Hp by (done || apply Hty).
  set (x := g_replica G id) in *. set (q := N.to_nat (aq_PrevLogIndex req)).
  pose proof (st_small _ _ _ _ Hsent) as Hsmall. pose proof (st_bound _ _ _ _ Hsent) as Hbound.
  assert (rp_term x = aq_Term req) as Hxt by (rewrite <-(ag_term _ _ _ _ _ _ Ha); apply Him).
  pose proof (st_reign _ _ _ _ Hsent) as Hrg.
  assert (rooted G (rp_log x)) as Hroot by apply (i_rooted P G HI).
  assert (0 < aq_PrevLogIndex req → rp_log x !! N.to_nat (aq_PrevLogIndex req - 1) = Some p ∧
    e_Term p = aq_PrevLogTerm req) as Hprev.
  { intros Hpos. split; [by apply (im_log _ _ Him)|done]. }
  assert (∀ j e, known n req j e → aq_Entries req !! j = Some e → rp_log x !! (q + j)%nat = Some e) as Hknown.
  { intros j e (Hi&_&_&Hk) He. apply lookup_lt_Some in He. unfold expected, lenN in *.
    rewrite (add64_small _ 1), add64_small in Hi by lia. destruct Hk as [?|Hk]; [unfold base_of in *; lia|].
    replace (q + j)%nat with (N.to_nat (e_Index e - 1)) by (unfold q; lia).
    apply (im_log _ _ Him); [lia|done]. }
  set (k := N.to_nat (reach req)). set (lc := N.to_nat (aq_LeaderCommit req)).
  assert (k = q + length (aq_Entries req))%nat as Hk by (unfold k, q, reach, lenN; lia).
  set (l' := merge k (rg_log rg) (rp_log x)).
  assert (image (mkReplica (term_of n) (rp_vote x) l' (Nat.max (rp_commit x) (Nat.min lc k)))
    (updated (n_state n) r)) as Himage.
  { assert (Nat.max (rp_commit x) (Nat.min lc k) = N.to_nat commit) as ->.
    { rewrite (im_commit _ _ Him), (ag_commit _ _ _ _ _ _ Ha). fold (commit_of n).
      rewrite add64_small by done. fold (reach req). unfold lc, k.
      destruct (N.ltb_spec (commit_of n) (aq_LeaderCommit req)); lia. }
    rewrite (im_vote _ _ Him). fold (vote_of n).
    inversion Hscan as [|Hall|i e He Hn Hbefore]; subst.
    - destruct (received (rp_log x) req rg (length (aq_Entries req)) p Hsent Hroot Hprev) as [_ Htake];
        [intros j e _ He; apply Hknown; [by apply Hall|done]|done|].
      assert (l' = rp_log x) as ->; [|by apply image_same].
      unfold l', merge. rewrite decide_True; [done|]. fold q in Htake. rewrite Hk, <-Htake. apply prefix_take.
    - pose proof (lookup_lt_Some _ _ _ He) as Hi. destruct Hn as (Hei&_&_&Hbi&Hlack).
      unfold expected, lenN in *. rewrite (add64_small _ 1), add64_small in Hei by lia.
      destruct (received (rp_log x) req rg i p Hsent Hroot Hprev) as [Hsplit _];
        [intros j e' Hj He'; apply Hknown; [by apply Hbefore|done]|lia|]. fold q in Hsplit.
      apply (image_updated _ _ Hwf Him r); [done|cbn; lia|]. cbn [rc_From rc_Entries r save_record].
      replace (N.to_nat (e_Index e - 1)) with (q + i)%nat by (unfold q; lia).
      rewrite Hsplit, <-app_assoc, take_drop.
      assert (take k (rg_log rg) = take q (rg_log rg) ++ aq_Entries req) as Htk.
      { rewrite Hk. apply take_slice; [apply Hsent|unfold q; lia]. }
      unfold l', merge. rewrite decide_False; [done|]. intros [z Hz].
      assert (rp_log x !! N.to_nat (e_Index e - 1) = Some e) as Hin.
      { rewrite Hz, Htk, <-app_assoc, lookup_app_r by (rewrite length_take; unfold q; lia).
        rewrite length_take, Nat.min_l by (unfold q; lia).
        replace (N.to_nat (e_Index e - 1) - q)%nat with i by (unfold q; lia). by apply lookup_app_l_Some. }
      apply (image_lookup _ _ Hwf Him) in Hin; [|lia|unfold base_of in *; lia].
      destruct Hlack as [Hlast|(old&Hold&Hne)]; [|congruence].
      assert (is_Some (log_at (n_state n) (e_Index e))) as [_ Hend]%log_at_is_Some by done.
      rewrite last_index_end in Hend by done. lia. }
  exists (add_acks id (term_of n) k (set_replica id (mkReplica (term_of n) (rp_vote x) l'
    (Nat.max (rp_commit x) (Nat.min lc k))) G)). split.
  - split; [|intros v Hne; by apply replica_set_ne|].
    + apply rtc_once. rewrite (ag_term _ _ _ _ _ _ Ha). apply rs_accept; try done.
      * lia.
      * apply Hsent.
    + intros t rg' Hno Hrg'. change (g_reign G t = Some rg') in Hrg'. congruence.
  - cbn [add_acks g_replica]. by rewrite replica_set.
  - congruence.
  - done.
  - intros t rg' Hrg' Hl'. by exists rg'.
Qed.

Lemma purpose_carried term vote commit from es :
  n_failed n = None → purpose ev n term vote commit from es →
  let r := save_record (n_store n) term vote commit from es in
  valid_update (rc_Identity r) (n_state n) r →
  term = term_of n ∧ ∃ G', carried (updated (n_state n) r) G'.
Proof.
  intros Hf Hp r Hv. destruct Hp as [req Hreq Ht Hvote Hout Hmem|command Hr _ e|req from es commit Ha Hr Hpend|i Hr Hi].
  - split; [done|]. by apply vote_carried.
  - split; [done|]. by apply append_carried.
  - split; [done|]. by eapply accept_carried.
  - split; [done|]. by apply commit_carried.
Qed.

Lemma term_carried t :
  n_failed n = None → term_of n < t →
  let r := save_record (n_store n) t "" (commit_of n) 0 [] in
  ∃ G', carried (updated (n_state n) r) G'.
Proof.
  intros Hf Ht r. destruct (sound_healthy _ _ _ _ Hs Hf) as [_ Him]. set (x := g_replica G id) in *.
  exists (set_replica id (mkReplica t "" (rp_log x) (rp_commit x)) G). split.
  - split; [|intros v Hne; by apply replica_set_ne|].
    + apply rtc_once. eapply rs_term; [done|]. by rewrite (im_term _ _ Him).
    + intros t' rg' Hno Hrg'. change (g_reign G t' = Some rg') in Hrg'. congruence.
  - rewrite replica_set, (im_commit _ _ Him). by apply image_same.
  - intros _. by rewrite replica_set.
  - intros _. by rewrite replica_set.
  - intros t' rg' Hrg' Hl'. by exists rg'.
Qed.

(** Standing for election: a new term, a campaign, and one's own vote. *)
Lemma campaign_carried :
  n_failed n = None →
  let t := add64 (term_of n) 1 in
  let r := save_record (n_store n) t (cfg_ID (n_cfg n)) (commit_of n) 0 [] in
  valid_update (rc_Identity r) (n_state n) r →
  ∃ G', carried (updated (n_state n) r) G' ∧ g_campaign G' t id = Some (rp_log (g_replica G' id)) ∧
    g_voted G' id t id ∧ ∀ rg, g_reign G' t = Some rg → rg_leader rg ≠ id.
Proof.
  intros Hf t r Hv. destruct (sound_healthy _ _ _ _ Hs Hf) as [_ Him]. set (x := g_replica G id) in *.
  pose proof (sound_state _ _ _ _ Hs) as Hwf. destruct (wf_bounds n Hwf) as (Ht64&_).
  assert (t = term_of n + 1) as Ht.
  { pose proof (vu_term _ _ _ Hv) as Hle. cbn [rc_Term r save_record] in Hle.
    change (term_of n ≤ t) in Hle. unfold t in *.
    destruct (add64_cases (term_of n) 1 Ht64 ltac:(done)) as [[_ E]|[? E]]; [done|]. rewrite E in Hle.
    unfold two64 in *. lia. }
  assert (rp_term x = term_of n) as Hxt by apply Him.
  set (G1 := set_replica id (mkReplica t "" (rp_log x) (rp_commit x)) G).
  set (G2 := add_campaign t id (rp_log x) G1).
  set (G3 := add_vote id t id (set_replica id (mkReplica t id (rp_log x) (rp_commit x)) G2)).
  assert (raft_step G G1) as H1 by (eapply rs_term; [done|]; rewrite Ht; fold x; lia).
  assert (g_replica G1 id = mkReplica t "" (rp_log x) (rp_commit x)) as Hx1 by apply replica_set.
  assert (∀ c l, g_campaign G t c = Some l → c ≠ id) as Hnone.
  { intros c l Hc ->. destruct (i_campaign P G HI _ _ _ Hc) as (_&_&?). fold x in H. lia. }
  assert (raft_step G1 G2) as H2.
  { eapply (rs_campaign P G1 id t _ Hx1); [done| |].
    - change (g_campaign G t id = None). destruct (g_campaign G t id) as [l|] eqn:Hc; [|done]. by destruct (Hnone _ _ Hc).
    - cbn [rp_log]. intros i e He. apply (i_terms P G HI) in He. fold x in He. lia. }
  assert (g_campaign G2 t id = Some (rp_log x)) as Hc2.
  { unfold G2. rewrite add_campaign_lookup. by rewrite decide_True. }
  destruct (sound_member _ _ _ _ Hs) as (Hin&Hne&_).
  assert (raft_step G2 G3) as H3.
  { apply (rs_vote P G2 id id (mkReplica t "" (rp_log x) (rp_commit x)) (rp_log x)); try done; [by left|by right]. }
  assert (g_replica G3 id = mkReplica t id (rp_log x) (rp_commit x)) as Hx3 by (unfold G3; cbn [add_vote g_replica]; apply replica_set).
  exists G3. rewrite Hx3. split_and!.
  - split.
    + split.
      * eapply rtc_l; [exact H1|]. eapply rtc_l; [exact H2|]. by apply rtc_once.
      * intros v Hv'. unfold G3, G2, G1. cbn [add_vote add_campaign g_replica].
        rewrite replica_set_ne by done. cbn [add_campaign g_replica]. by apply replica_set_ne.
      * intros t' rg' Hno Hrg'. change (g_reign G t' = Some rg') in Hrg'. congruence.
    + rewrite Hx3, (im_commit _ _ Him). unfold r. rewrite (so_id _ _ _ _ Hs). by apply image_same.
    + intros _. by rewrite Hx3.
    + intros _. by rewrite Hx3.
    + intros t' rg' Hrg' Hl'. by exists rg'.
  - exact Hc2.
  - by right.
  - intros rg Hrg. change (g_reign G t = Some rg) in Hrg.
    eapply Hnone, (ro_campaign _ _ _ _ (i_reign P G HI _ _ Hrg)).
Qed.

Lemma attempt_carried term vote commit from es :
  n_failed n = None → attempt ev n term vote commit from es →
  let r := save_record (n_store n) term vote commit from es in
  representable r ∧
  (valid_update (rc_Identity r) (n_state n) r → ∃ G', carried (updated (n_state n) r) G').
Proof.
  intros Hf Ha r. pose proof (sound_state _ _ _ _ Hs) as Hwf. destruct (wf_bounds n Hwf) as (Ht&Hc&_).
  pose proof (wf_st_identity _ (so_store _ _ _ _ Hs)) as Hid. destruct (sound_member _ _ _ _ Hs) as (_&_&Htext).
  destruct Ha as [term vote commit from es Hp|t Hlt Ht64|].
  - split; [by eapply purpose_rep|]. intros Hv. by eapply purpose_carried.
  - split; [by apply rep_save_record|]. intros _. by apply term_carried.
  - split; [apply rep_save_record; try done; [apply add64_lt|by rewrite (so_id _ _ _ _ Hs)]|].
    intros Hv. destruct (campaign_carried Hf Hv) as (G'&HG'&_). by exists G'.
Qed.

End saving.

(** *** Every move is some steps of the protocol *)

Section moving.
Context {J : Type} `{HJ : Journal J, HJL : !JournalLaws J, HC : Codec record, HCL : !CodecLaws}.
Context (table : gmap string Peer).
Implicit Type n : Node J.
Notation P := (dom table).
Notation raft_step := (raft_step P).
Notation inv := (inv P).
Notation packet_ok := (packet_ok P).
Notation own_steps := (own_steps P).
Notation sound := (sound table).

Lemma posted_cases id n n' (Q : packet → Prop) :
  (∀ m, m ∈ n_outbox n' → m ∈ n_outbox n ∨
     (∀ req, m_Vote m = Some req → Q (VotePacket id (m_To m) req)) ∧
     (∀ req, m_Vote m = None → m_Append m = Some req → Q (AppendPacket id (m_To m) req))) →
  (∀ x, x ∈ n_calls n' → x ∈ n_calls n ∨ Q (VotePacket id (p_ID x.1) x.2)) →
  ∀ p, p ∈ posted id n' → p ∈ posted id n ∨ Q p.
Proof using Type.
  intros Ho Hc p. unfold posted. rewrite !elem_of_app, !list_elem_of_omap, !list_elem_of_fmap.
  intros [(m&Hm&He)|(x&->&Hx)].
  - destruct (Ho m Hm) as [Hin|[H1 H2]]; [left; left; by exists m|right].
    destruct (m_Vote m) as [req|] eqn:Hv; [injection He as <-; by apply H1|].
    destruct (m_Append m) as [req|] eqn:Ha; [injection He as <-; by apply H2|done].
  - destruct (Hc x Hx) as [Hin|H]; [left; right; by exists x|by right].
Qed.

Lemma posted_fewer id n n' p :
  (∀ m, m ∈ n_outbox n' → m ∈ n_outbox n) → (∀ x, x ∈ n_calls n' → x ∈ n_calls n) →
  p ∈ posted id n' → p ∈ posted id n.
Proof using Type.
  intros H1 H2 Hp. destruct (posted_cases id n n' (λ _, False)) with (p := p) as [?|[]]; auto.
Qed.

(** A candidate's request says what its campaign is. *)
Lemma own_request_ok G id n to req :
  sound G id n → n_role n = candidate → own_request n to req → packet_ok G (VotePacket id to req).
Proof.
  intros Hs Hr [H1 [q Hq] H3 H4 (e&He&Het)]. pose proof (sound_state _ _ _ _ Hs) as Hwf.
  destruct (wf_bounds n Hwf) as (Ht&_&Hl&_).
  destruct (sound_healthy _ _ _ _ Hs (sound_role _ _ _ _ Hs ltac:(by rewrite Hr))) as [_ Him].
  pose proof (so_office _ _ _ _ Hs) as Ho. unfold office in Ho. rewrite Hr in Ho. destruct Ho as (Hc&_).
  rewrite lastLocked_wf in H4, He by done. rewrite entryLocked_wf in He by done.
  destruct (log_at_Index _ Hwf _ _ He) as [_ []]. rewrite (so_id _ _ _ _ Hs) in H1.
  split; [split; congruence|]. split_and!; [done| |].
  - rewrite (so_peers _ _ _ _ Hs) in Hq. by apply elem_of_dom_2 in Hq.
  - exists (rp_log (g_replica G id)). rewrite H1, H3, H4. split_and!; [done|apply Him|].
    by rewrite Het, (image_last _ _ Him e).
Qed.

(** A leader's request is a true copy of a part of its log. *)
Lemma prepared_ok G id n peer req :
  inv G → sound G id n → n_role n = leader → prepared n peer req →
  packet_ok G (AppendPacket id (p_ID peer) req).
Proof.
  intros HI Hs Hr [_ Ht _ Hc _ (p&Hp&Hpt) Hes Hlen]. pose proof (sound_state _ _ _ _ Hs) as Hwf.
  destruct (sound_leader _ _ _ _ HI Hs Hr) as (rg&Hrg&_&Hlog&Him&_).
  destruct (wf_bounds n Hwf) as (Ht64&Hc64&Hl64&_&Hcl&_).
  assert (aq_PrevLogIndex req ≤ last_index (n_state n) ∧ base_of n ≤ aq_PrevLogIndex req) as [Hpl Hb].
  { assert (is_Some (log_at (n_state n) (aq_PrevLogIndex req))) as Hsome by done.
    apply log_at_is_Some in Hsome. pose proof (last_index_end _ Hwf). unfold base_of. lia. }
  assert (∀ k e, aq_Entries req !! k = Some e →
    rg_log rg !! (N.to_nat (aq_PrevLogIndex req) + k)%nat = Some e) as Hcopy.
  { intros k e He. rewrite <-Hlog.
    replace (N.to_nat (aq_PrevLogIndex req) + k)%nat with (N.to_nat (aq_PrevLogIndex req + 1 + N.of_nat k - 1)) by lia.
    apply (im_log _ _ Him); [lia|]. by apply Hes. }
  pose proof (im_length _ _ Him) as Hlen'. rewrite Hlog in Hlen'.
  assert (N.to_nat (aq_PrevLogIndex req) + length (aq_Entries req) ≤ length (rg_log rg))%nat as Hbound.
  { destruct (length (aq_Entries req)) as [|k] eqn:Hk; [lia|].
    destruct (lookup_lt_is_Some_2 (aq_Entries req) k ltac:(lia)) as [e He].
    apply Hcopy, lookup_lt_Some in He. lia. }
  split.
  - split; [congruence|lia|congruence|]. split; [unfold two63; lia|]. apply Forall_lookup_2. intros k e Hk.
    apply Hes in Hk. by destruct (log_at_Index _ Hwf _ _ Hk).
  - exists rg. split; rewrite ?Ht, ?Hc; try done.
    + intros Hpos. exists p. split; [|done]. rewrite <-Hlog. by apply (im_log _ _ Him).
    + unfold lenN. lia.
    + rewrite <-Hlog, (im_length _ _ Him). lia.
    + destruct (i_commit P G HI id) as [_ Hset].
      rewrite (im_commit _ _ Him), (im_term _ _ Him), Hlog in Hset. exact Hset.
Qed.

(** The node has changed, its disk has not. *)
Lemma sound_kept G G' id n n' :
  inv G → own_steps id G G' → sound G id n → g_replica G' id = g_replica G id →
  n_cfg n' = n_cfg n → n_peers n' = n_peers n → n_store n' = n_store n → n_failed n' = n_failed n →
  (n_failed n ≠ None → n_role n' = follower) →
  n_applied n' = n_applied n → n_machine n' = n_machine n → office table G' id n' →
  (∀ p, p ∈ posted id n' → p ∈ posted id n ∨ packet_ok G p) → sound G' id n'.
Proof.
  intros HI Ho Hs Hr E1 E2 E3 E4 Hrole E5 E6 Hoff Hpost.
  destruct (raft_steps_inv P G G' HI (os_steps _ _ _ _ Ho)) as [Hg _]. destruct Hs.
  split; rewrite ?E1, ?E2, ?E3, ?E6; try done.
  - destruct so_config0. split; by rewrite ?E1, ?E2.
  - unfold disk_ok, n_state in *. rewrite Hr, E3, E4. destruct (n_failed n); [|done].
    split; [by apply Hrole|]. by destruct so_disk0.
  - eapply past_ok_kept; try done; [apply Ho|]. unfold n_state. by rewrite E3.
  - intros p Hp. eapply packet_ok_grows; [done|]. destruct (Hpost p Hp); [by apply so_posted0|done].
Qed.

(** The store has been saved, and the protocol has gone on. *)
Lemma sound_saved G G' id n n' :
  inv G → own_steps id G G' → sound G id n → n_failed n = None → n_failed n' = None →
  n_cfg n' = n_cfg n → n_peers n' = n_peers n →
  wf_store (n_store n') → content (st_wal (n_store n')) (without_wal (n_store n')) →
  image (g_replica G' id) (n_state n') → commit_of n ≤ commit_of n' →
  n_applied n' = n_applied n → n_machine n' = n_machine n → office table G' id n' →
  (∀ p, p ∈ posted id n' → p ∈ posted id n) → sound G' id n'.
Proof.
  intros HI Ho Hs Hf Hf' E1 E2 Hwf Hc Him Hcm E3 E4 Hoff Hpost.
  destruct (raft_steps_inv P G G' HI (os_steps _ _ _ _ Ho)) as [Hg _].
  pose proof (past_ok_kept table G G' id n n HI (os_steps _ _ _ _ Ho) (so_past _ _ _ _ Hs) eq_refl eq_refl eq_refl)
    as [P1 P2 P3 P4]. destruct Hs.
  split; rewrite ?E1, ?E2, ?E4; try done.
  - destruct so_config0. split; by rewrite ?E1, ?E2.
  - unfold disk_ok. by rewrite Hf'.
  - split.
    + rewrite (im_commit _ _ Him). done.
    + intros i e Hi _. by apply Him.
    + lia.
    + by rewrite E3, E4.
  - intros p Hp. eapply packet_ok_grows; [done|]. by apply so_posted0, Hpost.
Qed.

(** The disk has failed, and holds what it did or what was being written. *)
Lemma sound_failed G G' id n s' err :
  inv G → own_steps id G G' → sound G id n → wf_store s' →
  without_wal s' = without_wal (n_store n) →
  overflowing (st_wal s') (st_identity (n_store n)) ∨
    (∃ s0, content (st_wal s') s0 ∧ st_identity s0 = st_identity (n_store n) ∧ image (g_replica G' id) (st_state s0)) →
  sound G' id (set_role follower (set_failed (Some err) (set_nstore s' n))).
Proof.
  intros HI Ho Hs Hwf Hmem Hd. assert (st_state s' = n_state n) as Est by (injection Hmem as _ E _; exact E).
  assert (st_identity s' = st_identity (n_store n)) as Eid by (by injection Hmem).
  destruct (raft_steps_inv P G G' HI (os_steps _ _ _ _ Ho)) as [Hg _].
  pose proof (past_ok_kept table G G' id n n HI (os_steps _ _ _ _ Ho) (so_past _ _ _ _ Hs) eq_refl eq_refl eq_refl)
    as [P1 P2 P3 P4]. destruct Hs. split; try done.
  - by destruct so_config0.
  - unfold disk_ok. cbn [n_failed set_role set_failed n_role n_store set_nstore]. split; [done|]. by rewrite Eid.
  - unfold commit_of, n_state in *. split; unfold commit_of, n_state; cbn [n_store set_role set_failed set_nstore]; by rewrite ?Est.
  - intros p Hp. eapply packet_ok_grows; [done|]. by apply so_posted0.
Qed.

Section one_move.
Context (ev : evidence) (G : group) (id : string) (n : Node J).
Context (HI : inv G) (Hev : evidence_ok P ev G id) (Hs : sound G id n).

(** An office that the node keeps, the protocol standing still. *)
Lemma office_same n' :
  n_role n' = n_role n ∨ n_role n' = follower → term_of n' = term_of n → n_votes n' = n_votes n →
  (∀ v, v ≠ id → match_of n' v = match_of n v) → office table G id n'.
Proof.
  intros. eapply (office_grows table G G id n); try done; [by left|intros rg ? ?; by exists rg|apply Hs].
Qed.

Lemma failed_follower : n_failed n ≠ None → n_role n = follower.
Proof using Hs.
  intros Hf. destruct (decide (n_role n = follower)) as [|Hr]; [done|]. destruct Hf. by apply (sound_role _ _ _ _ Hs).
Qed.

(** A save that succeeds. *)
Lemma saved_sound term vote commit from es s' n' G' :
  let r := save_record (n_store n) term vote commit from es in
  representable r → saved_as n term vote commit from es None s' →
  carried table G id n (updated (n_state n) r) G' →
  n_store n' = s' → n_failed n' = n_failed n → n_cfg n' = n_cfg n → n_peers n' = n_peers n →
  n_applied n' = n_applied n → n_machine n' = n_machine n → n_outbox n' = n_outbox n → n_calls n' = n_calls n →
  office table G' id n' → sound G' id n'.
Proof.
  intros r Hrep [Hf Hsave] [Ho Him _ _ _] E1 E2 E3 E4 E5 E6 E7 E8 Hoff.
  destruct (sound_healthy _ _ _ _ Hs Hf) as [Hcon _].
  pose proof (save_outcome _ _ _ _ _ _ s' None (so_store _ _ _ _ Hs) Hcon Hrep Hsave) as (Hv&_&Hmem&Hcon').
  destruct (wf_save _ s' _ _ _ _ _ None (so_store _ _ _ _ Hs) Hrep Hsave) as (Hwf&_&_&Hext&Est).
  assert (n_state n' = updated (n_state n) r) as Est' by (unfold n_state; by rewrite E1, Est).
  eapply (sound_saved G G' id n); try done; rewrite ?E1, ?E2; try done.
  - by rewrite Est'.
  - unfold commit_of. rewrite Est'. apply (vu_commit _ _ _ Hv).
  - unfold posted. by rewrite E7, E8.
Qed.

Lemma valid_saved term vote commit from es s' :
  let r := save_record (n_store n) term vote commit from es in
  representable r → saved_as n term vote commit from es None s' → valid_update (rc_Identity r) (n_state n) r.
Proof.
  intros r Hrep [Hf Hsave]. destruct (sound_healthy _ _ _ _ Hs Hf) as [Hcon _].
  by destruct (save_outcome _ _ _ _ _ _ s' None (so_store _ _ _ _ Hs) Hcon Hrep Hsave) as (Hv&_).
Qed.

(** While clients wait, the log only gets longer. *)
Definition kept (G' : group) : Prop :=
  n_pending n ≠ ∅ → rp_log (g_replica G id) `prefix_of` rp_log (g_replica G' id).

Lemma move_save_sound term vote commit from es s' :
  purpose ev n term vote commit from es → saved_as n term vote commit from es None s' →
  ∃ G', own_steps id G G' ∧ sound G' id (set_nstore s' n) ∧ kept G'.
Proof.
  intros Hp Hsave. pose proof (purpose_rep table ev G id n HI Hev Hs _ _ _ _ _ Hp) as Hrep.
  pose proof (valid_saved _ _ _ _ _ _ Hrep Hsave) as Hv.
  destruct (purpose_carried table ev G id n HI Hev Hs _ _ _ _ _ (proj1 Hsave) Hp Hv) as (Ht&G'&Hc).
  exists G'. split; [apply Hc|]. split; [|exact (ca_kept _ _ _ _ _ _ Hc)]. eapply saved_sound; try done. destruct Hsave as [Hf Hsave].
  destruct (wf_save _ s' _ _ _ _ _ None (so_store _ _ _ _ Hs) Hrep Hsave) as (_&_&_&_&Est).
  destruct (raft_steps_inv P G G' HI (os_steps _ _ _ _ (ca_steps _ _ _ _ _ _ Hc))) as [Hg _].
  eapply (office_grows table G G' id n); try done; [by left| | | |apply Hs].
  - unfold term_of, n_state. cbn [n_store set_nstore]. rewrite Est. exact Ht.
  - destruct (decide (n_role n = candidate)); [left; by apply (ca_log _ _ _ _ _ _ Hc)|by right].
  - intros rg. apply (ca_reign _ _ _ _ _ _ Hc).
Qed.

Lemma move_term_sound t s' :
  term_of n < t → t < two64 → saved_as n t "" (commit_of n) 0 [] None s' →
  ∃ G', own_steps id G G' ∧ sound G' id (set_role follower (set_nstore s' n)) ∧ kept G'.
Proof.
  intros Hlt Ht64 Hsave. destruct (attempt_carried table ev G id n HI Hev Hs _ _ _ _ _ (proj1 Hsave)
    (att_term ev n t Hlt Ht64)) as [Hrep Hcar].
  destruct (Hcar (valid_saved _ _ _ _ _ _ Hrep Hsave)) as [G' Hc]. exists G'. split; [apply Hc|]. split; [|exact (ca_kept _ _ _ _ _ _ Hc)].
  by eapply saved_sound.
Qed.

Lemma move_campaign_sound s' :
  saved_as n (add64 (term_of n) 1) (cfg_ID (n_cfg n)) (commit_of n) 0 [] None s' →
  ∃ G', own_steps id G G' ∧
    sound G' id (set_votes {[ cfg_ID (n_cfg n) := true ]} (set_role candidate (set_nstore s' n))) ∧ kept G'.
Proof.
  intros Hsave. destruct (attempt_carried table ev G id n HI Hev Hs _ _ _ _ _ (proj1 Hsave)
    (att_campaign ev n)) as [Hrep _].
  pose proof (valid_saved _ _ _ _ _ _ Hrep Hsave) as Hv.
  destruct (campaign_carried table ev G id n HI Hev Hs (proj1 Hsave) Hv) as (G'&Hc&Hcamp&Hvote&Hreign).
  exists G'. split; [apply Hc|]. split; [|exact (ca_kept _ _ _ _ _ _ Hc)]. eapply saved_sound; try done. destruct Hsave as [Hf Hsave].
  destruct (wf_save _ s' _ _ _ _ _ None (so_store _ _ _ _ Hs) Hrep Hsave) as (_&_&_&_&Est).
  unfold office. cbn [n_role set_votes set_role].
  match goal with |- context [term_of ?x] => set (n' := x) end.
  assert (term_of n' = add64 (term_of n) 1) as ->.
  { unfold term_of, n_state, n'. cbn [n_store set_nstore set_votes set_role]. by rewrite Est. }
  split_and!; [done|done|]. intros v [b Hb]. cbn in Hb. apply lookup_singleton_Some in Hb as [<- _].
  rewrite (so_id _ _ _ _ Hs). split; [by apply (sound_member _ _ _ _ Hs)|done].
Qed.

Lemma move_fail_sound term vote commit from es err s' :
  attempt ev n term vote commit from es → saved_as n term vote commit from es (Some err) s' →
  ∃ G', own_steps id G G' ∧ sound G' id (set_role follower (set_failed (Some err) (set_nstore s' n))) ∧ kept G'.
Proof.
  intros Ha [Hf Hsave]. destruct (attempt_carried table ev G id n HI Hev Hs _ _ _ _ _ Hf Ha) as [Hrep Hcar].
  destruct (sound_healthy _ _ _ _ Hs Hf) as [Hcon Him].
  pose proof (save_outcome _ _ _ _ _ _ s' (Some err) (so_store _ _ _ _ Hs) Hcon Hrep Hsave) as [Hmem Hd].
  destruct (wf_save _ s' _ _ _ _ _ (Some err) (so_store _ _ _ _ Hs) Hrep Hsave) as (Hwf&_).
  destruct Hd as [Hold|[(Hv&_&Hnew)|Hover]].
  - exists G. split; [done|]. split; [|by intros _]. eapply (sound_failed G G); try done. right. by eexists.
  - destruct (Hcar Hv) as [G' [Ho Him' _ Hk _]]. exists G'. split; [done|]. split; [|exact Hk].
    eapply (sound_failed G G'); try done. right. by eexists.
  - exists G. split; [done|]. split; [|by intros _]. eapply (sound_failed G G); try done. by left.
Qed.

(** Moves that neither the disk nor the protocol sees. *)
Lemma move_quiet_sound n' : quiet n n' → sound G id n'.
Proof.
  intros []. eapply (sound_kept G G id n n'); try done.
  - intros Hf. destruct qt_role as [->|?]; [by apply failed_follower|done].
  - apply office_same; [done|by unfold term_of, n_state; rewrite qt_store|done|].
    intros v Hv. apply qt_match. by rewrite (so_id _ _ _ _ Hs).
  - intros p Hp. left. by eapply posted_fewer.
Qed.

Lemma move_elect_sound :
  n_role n = candidate → (half n < size (n_votes n))%nat →
  ∃ G', own_steps id G G' ∧ sound G' id (set_match (((λ _, 0) <$> n_peers n) ∪ n_match n) (set_role leader n)) ∧ kept G'.
Proof.
  intros Hr Hmaj. pose proof (so_office _ _ _ _ Hs) as Ho. unfold office in Ho. rewrite Hr in Ho.
  destruct Ho as (Hc&Hno&Hvotes). set (l := rp_log (g_replica G id)) in *.
  destruct (sound_healthy _ _ _ _ Hs (sound_role _ _ _ _ Hs ltac:(by rewrite Hr))) as [_ Him].
  assert (majority P (dom (n_votes n))) as HQ.
  { split; [intros v Hv%elem_of_dom; by apply Hvotes|]. rewrite !size_dom, <-(so_peers _ _ _ _ Hs). exact Hmaj. }
  assert (∀ v, v ∈ dom (n_votes n) → g_voted G v (term_of n) id) as HQv
    by (intros v Hv%elem_of_dom; by apply Hvotes).
  assert (g_reign G (term_of n) = None) as Hnone.
  { destruct (g_reign G (term_of n)) as [rg|] eqn:Hrg; [|done]. destruct (Hno rg eq_refl).
    by apply (reign_unique P G HI (term_of n) rg id (dom (n_votes n))). }
  set (G' := set_reign (term_of n) (mkReign id (dom (n_votes n)) l l) G).
  assert (raft_step G G') as Hstep by (apply rs_elect; try done; apply Him).
  assert (own_steps id G G') as Hown.
  { split; [by apply rtc_once|done|]. intros t rg Hno' Hrg. unfold G' in Hrg. rewrite set_reign_lookup in Hrg.
    destruct (decide _); [|congruence]. by injection Hrg as <-. }
  exists G'. split; [done|]. split; [|by intros _]. eapply (sound_kept G G' id n); try done.
  - intros Hf. by rewrite (failed_follower Hf) in Hr.
  - unfold office. cbn [n_role set_match set_role].
    change (term_of (set_match _ (set_role leader n))) with (term_of n). split.
    + exists (mkReign id (dom (n_votes n)) l l). split; [|done]. unfold G'. rewrite set_reign_lookup. by rewrite decide_True.
    + intros v Hv Hne i Hi Hle. exfalso. unfold match_of in Hle. cbn [n_match set_match] in Hle.
      apply elem_of_dom in Hv as [p Hp]. rewrite lookup_union, lookup_fmap, (so_peers _ _ _ _ Hs), Hp in Hle.
      destruct (n_match n !! v); cbn in Hle; lia.
  - by left.
Qed.

Lemma move_ballot_sound v :
  n_role n = candidate → ev_ballot ev v (term_of n) → sound G id (set_votes (<[v := true]> (n_votes n)) n).
Proof.
  intros Hr Hb. eapply (sound_kept G G id n); try done; [by apply failed_follower| |by left].
  pose proof (so_office _ _ _ _ Hs) as Ho. unfold office in *. cbn [n_role set_votes]. rewrite Hr in *.
  change (term_of (set_votes _ n)) with (term_of n). destruct Ho as (Hc&Hno&Hvotes). split_and!; [done..|].
  intros w Hw. cbn [n_votes set_votes] in Hw. destruct (decide (w = v)) as [->|Hne].
  - by apply (eo_ballot _ _ _ _ Hev).
  - rewrite lookup_insert_ne in Hw by done. by apply Hvotes.
Qed.

Lemma move_match_sound v i :
  n_role n = leader → ev_match ev v (term_of n) i →
  sound G id (set_match (<[v := N.max (match_of n v) i]> (n_match n)) n).
Proof.
  intros Hr Hm. eapply (sound_kept G G id n); try done; [by apply failed_follower| |by left].
  pose proof (so_office _ _ _ _ Hs) as Ho. unfold office in *. cbn [n_role set_match]. rewrite Hr in *.
  change (term_of (set_match _ n)) with (term_of n). destruct Ho as (Hrg&Hack). split; [done|].
  intros w Hw Hne. set (m := N.max (match_of n v) i). unfold match_of. cbn [n_match set_match].
  destruct (decide (w = v)) as [->|Hwv].
  - rewrite lookup_insert_eq. cbn [default]. intros k Hk Hle. unfold m in Hle.
    destruct (N.max_spec (match_of n v) i) as [[_ E]|[_ E]]; rewrite E in Hle.
    + by apply (eo_match _ _ _ _ Hev v (term_of n) i).
    + by apply (Hack v).
  - rewrite lookup_insert_ne by done. by apply Hack.
Qed.

Lemma applied_entry e :
  n_applied n < commit_of n → entryLocked n (add64 (n_applied n) 1) = Some e →
  add64 (n_applied n) 1 = n_applied n + 1 ∧
  log_at (n_state n) (n_applied n + 1) = Some e ∧
  rp_log (g_replica G id) !! N.to_nat (n_applied n) = Some e.
Proof using Hs.
  intros Hlt He. pose proof (sound_state _ _ _ _ Hs) as Hwf. destruct (wf_bounds n Hwf) as (_&Hc64&_).
  rewrite add64_small in * by lia. rewrite entryLocked_wf in He by (done || lia). split_and!; [done..|].
  replace (N.to_nat (n_applied n)) with (N.to_nat (n_applied n + 1 - 1)) by lia.
  apply (pa_log _ _ (so_past _ _ _ _ Hs)); [lia|lia|done].
Qed.

(** Nothing of the node that matters to its peers has changed. *)
Lemma untended_sound n1 n' : sound G id n1 → untended n' = untended n1 → sound G id n'.
Proof using HI HJL HCL.
  intros Hs1 E. unfold untended in E. injection E as E1 E2 E3 E4 E5 E6 E7 E8 E9 E10 E11.
  eapply (sound_kept G G id n1); try done.
  - intros Hf. rewrite E8. destruct (decide (n_role n1 = follower)) as [|Hr]; [done|].
    destruct Hf. by apply (sound_role _ _ _ _ Hs1).
  - eapply (office_grows table G G id n1); try done; [by left|unfold term_of, n_state; by rewrite E3| | | |apply Hs1].
    + intros v _. unfold match_of. by rewrite E9.
    + by left.
    + intros rg Hrg Hl. by exists rg.
  - intros p Hp. left. eapply posted_fewer; [| |exact Hp]; [by rewrite E10|by rewrite E11].
Qed.

Lemma move_apply_sound e :
  n_applied n < commit_of n → entryLocked n (add64 (n_applied n) 1) = Some e →
  sound G id (set_machine (apply_entry (n_machine n) e) (set_applied (add64 (n_applied n) 1) n)).
Proof.
  intros Hlt He. destruct (applied_entry e Hlt He) as (E64&He'&Hx). rewrite E64. pose proof (sound_state _ _ _ _ Hs) as Hwf. destruct (log_at_Index _ Hwf _ _ He') as [_ Hrep]. pose proof (so_past _ _ _ _ Hs) as [P1 P2 P3 P4].
  pose proof (so_machine _ _ _ _ Hs) as [Hwm Hrm].
  destruct Hs. split; try done.
  - by destruct so_config0.
  - cbn [n_machine set_machine]. unfold apply_entry. destruct (e_Command e) as [c|] eqn:Hce; [|done].
    split; [by apply wf_Apply|]. apply rep_Apply; [done|done|]. by apply (rep_Command e Hrep).
  - split; try done.
    + cbn [n_applied set_machine set_applied]. change (commit_of _) with (commit_of n). lia.
    + cbn [n_machine n_applied set_machine set_applied].
      replace (N.to_nat (n_applied n + 1)) with (S (N.to_nat (n_applied n))) by lia.
      rewrite (take_S_r _ _ e) by done. unfold history_machine. rewrite omap_app. rewrite P4.
      cbn [omap list_omap]. pose proof (ApplyAll_entry New (omap e_Command (take (N.to_nat (n_applied n)) (rp_log (g_replica G id)))) e) as Hall.
      unfold history_machine. rewrite <-Hall. by destruct (e_Command e).
Qed.

Lemma move_snapshot_sound err s' :
  n_failed n = None → store_checkpoint (takeSnapshot (n_machine n)) (commit_of n) (n_store n) = Some (err, s') →
  sound G id (match err with
              | None => set_nstore s' n
              | Some e => set_role follower (set_failed (Some e) (set_nstore s' n))
              end).
Proof.
  intros Hf Hck. pose proof (sound_state _ _ _ _ Hs) as Hwf. destruct (wf_bounds n Hwf) as (_&Hc64&_&Hb&_).
  destruct (sound_healthy _ _ _ _ Hs Hf) as [Hcon Him]. pose proof (so_machine _ _ _ _ Hs) as [_ Hrm].
  destruct (wf_checkpoint _ _ _ s' err (so_store _ _ _ _ Hs) Hrm Hc64 Hck) as (Hwf'&Hid&Hext&Hcase).
  pose proof (checkpoint_content _ _ _ s' err (so_store _ _ _ _ Hs) Hcon Hrm Hc64 Hck) as Hcc.
  pose proof (image_compacted _ _ Hwf Him (commit_of n) Hb (N.le_refl _)) as Him'.
  destruct err as [err|].
  - destruct Hcc as [Hmem Hd]. eapply (sound_failed G G); try done. right.
    destruct Hd as [Hold|[_ Hnew]]; by eexists.
  - destruct Hcase as (_&_&Est&_). destruct Hcc as [Hmem Hc']. rewrite <-Hmem in Hc'.
    assert (n_state (set_nstore s' n) = compacted (n_state n) (commit_of n)) as Est' by exact Est.
    eapply (sound_saved G G id n); try done.
    + by rewrite Est'.
    + unfold commit_of at 2. by rewrite Est'.
    + apply office_same; [by left|unfold term_of; by rewrite Est'|done|done].
Qed.

(** The journal holds what it did: it has been closed, or its disk has begun or
    stopped to fail. *)
Lemma journal_sound w :
  (∀ bs, j_holds (st_wal (n_store n)) bs → j_holds w bs) →
  sound G id (set_nstore (set_wal w (n_store n)) n).
Proof using Hs.
  intros Hw. destruct Hs.
  assert (∀ s0, content (st_wal (n_store n)) s0 → content w s0) as Hcon.
  { intros s0 (bs&?&Hh&?). exists bs. split_and!; [done|by apply Hw|done]. }
  split; try done.
  - by destruct so_config0.
  - by destruct so_store0.
  - unfold disk_ok, n_state in *. cbn [n_failed n_store n_role set_nstore st_wal set_wal st_identity st_state].
    destruct (n_failed n).
    + destruct so_disk0 as [? [(bs&Hh&?)|(s0&?&?&?)]]; (split; [done|]).
      * left. exists bs. split; [by apply Hw|done].
      * right. exists s0. split_and!; [by apply Hcon|done..].
    + destruct so_disk0 as [? ?]. split; [by apply Hcon|done].
  - by destruct so_past0.
Qed.

Lemma move_post_sound n' :
  n' = set_outbox (n_outbox n') (set_calls (n_calls n') n) →
  (∀ p, p ∈ posted id n' → p ∈ posted id n ∨ packet_ok G p) → sound G id n'.
Proof.
  intros E Hp. rewrite E in *. eapply (sound_kept G G id n); try done; [apply failed_follower|].
  apply office_same; [by left|done..].
Qed.

Lemma move_same n' : sound G id n' → ∃ G', own_steps id G G' ∧ sound G' id n' ∧ kept G'.
Proof using Type. intros H. exists G. split; [done|]. split; [done|by intros _]. Qed.

Lemma move_sound n' : move ev n n' → ∃ G', own_steps id G G' ∧ sound G' id n' ∧ kept G'.
Proof.
  intros Hm. destruct Hm as [n' Hq|term vote commit from es s' Hp Hsave|t s' Hlt Ht64 Hsave|s' Hsave
    |term vote commit from es err s' Ha Hsave|Hr Hmaj|v Hr Hb|v i Hr Hmt|e n' Hlt He Hat|i readKey|s' Hf Hck|err s' Hf Hck|
    |m req Hr Hv Ho|peer req Hr Ho|peer m req n1 Hr Hprep Hto Hv Ha].
  - by apply move_same, move_quiet_sound.
  - by eapply move_save_sound.
  - by eapply move_term_sound.
  - by apply move_campaign_sound.
  - by eapply move_fail_sound.
  - by apply move_elect_sound.
  - by apply move_same, move_ballot_sound.
  - by apply move_same, move_match_sound.
  - apply move_same. eapply untended_sound; [by apply (move_apply_sound e)|apply Hat].
  - apply move_same. by eapply (untended_sound n).
  - by apply move_same, (move_snapshot_sound None).
  - by apply move_same, (move_snapshot_sound (Some err)).
  - by apply move_same, journal_sound, j_close_law.
  - apply move_same, move_post_sound; [by destruct n|].
    apply posted_cases; [|by left]. intros m' [Hin|Hin]%elem_of_app; [by left|].
    apply list_elem_of_singleton in Hin as ->. right. split; [|congruence].
    intros req' E. rewrite Hv in E. injection E as <-. by eapply own_request_ok.
  - apply move_same, move_post_sound; [by destruct n|].
    apply posted_cases; [by left|]. intros x [Hin|Hin]%elem_of_app; [by left|].
    apply list_elem_of_singleton in Hin as ->. right. by eapply own_request_ok.
  - apply move_same, move_post_sound; [by destruct n|].
    apply posted_cases; [|by left]. intros m' [Hin|Hin]%elem_of_app; [by left|].
    apply list_elem_of_singleton in Hin as ->. right. split; [congruence|].
    intros req' _ E. rewrite Ha in E. injection E as <-. rewrite Hto. apply (prepared_ok G id n); try done.
    pose proof (prepareAppend_wf True (λ req _, prepared n peer req) peer n (sound_state _ _ _ _ Hs)
      (λ _ _, I) (λ req _ _ H, H)) as Hw. unfold wp in Hw. by rewrite Hprep in Hw.
Qed.

End one_move.

(** *** Waiting clients *)

(** Channel [c] is for the answer of the waiter [w] for the entry [e] at index
    [i]: whoever waits on it waits for that entry, which the log still holds,
    and what it has been sent is a refusal, or the answer of the entry after
    those that are settled before it. *)
Record tends (G : group) (id : string) (c i : N) (w : waiter) (e : Entry) n : Prop := {
  tn_channel : c < n_newchan n;
  tn_pending : ∀ j v, n_pending n !! j = Some v → w_done v = c →
    j = i ∧ v = w ∧ 0 < i ∧ rp_log (g_replica G id) !! N.to_nat (i - 1) = Some e;
  tn_answer : ∀ out, n_chans n !! c = Some (Some out) → refused out ∨
    ∃ t l, settled P G t l ∧ l !! N.to_nat (i - 1) = Some e ∧
      out = answer (history_machine (take (N.to_nat (i - 1)) l)) e w;
}.

Section tending.
Context (id : string) (c i : N) (w : waiter) (e : Entry).

(** The protocol has gone on. *)
Lemma tends_grows G G' n :
  grows G G' → (n_pending n ≠ ∅ → rp_log (g_replica G id) `prefix_of` rp_log (g_replica G' id)) →
  tends G id c i w e n → tends G' id c i w e n.
Proof using Type.
  intros Hg Hk [H1 H2 H3]. split; [done| |].
  - intros j v Hj Hv. destruct (H2 j v Hj Hv) as (?&?&?&Hl). split_and!; [done..|].
    eapply prefix_lookup_Some; [exact Hl|]. apply Hk. intros E. by rewrite E in Hj.
  - intros out Ho. destruct (H3 out Ho) as [?|(t&l&Hs&?&?)]; [by left|right]. exists t, l.
    split_and!; [by eapply settled_grows|done..].
Qed.

Lemma tends_tended G n n' : tended n n' → tends G id c i w e n → tends G id c i w e n'.
Proof using Type.
  intros [T1 T2 T3] [H1 H2 H3]. split; [lia|by eauto|]. intros out Ho. destruct (T3 c out Ho); [by auto|by left].
Qed.

Lemma tends_applied G n x n' :
  inv G → sound G id n → n_applied n < commit_of n → entryLocked n (add64 (n_applied n) 1) = Some x →
  applied_to n x n' → tends G id c i w e n → tends G id c i w e n'.
Proof.
  intros HI Hs Hlt He [_ A2 A3 A4] [H1 H2 H3].
  destruct (applied_entry G id n Hs x Hlt He) as (E64&_&Hx).
  split; [lia|by eauto|]. intros out Ho. destruct (A4 c out Ho) as [|(v&Hv&Hd&->)]; [by auto|right].
  rewrite E64 in Hv. destruct (H2 _ _ Hv Hd) as (<-&->&_&Hi).
  replace (N.to_nat (n_applied n + 1 - 1)) with (N.to_nat (n_applied n)) in * by lia.
  rewrite Hi in Hx. injection Hx as ->. pose proof (so_past _ _ _ _ Hs) as [P1 P2 P3 P4].
  destruct (i_commit P G HI id) as [_ Hset].
  exists (rp_term (g_replica G id)), (take (rp_commit (g_replica G id)) (rp_log (g_replica G id))).
  split_and!; [done|by rewrite lookup_take_lt by lia|]. by rewrite P4, take_take, Nat.min_l by lia.
Qed.

Lemma tends_await G n j readKey :
  tends G id c i w e n → tends G id c i w e (registered n j (n_newchan n) (mkWaiter readKey (n_newchan n))).
Proof using Type.
  intros [H1 H2 H3]. split; cbn.
  - lia.
  - intros k v [[<- <-]|[_ Hk]]%lookup_insert_Some Hd; [cbn in Hd; lia|by eauto].
  - intros out. rewrite lookup_insert_ne by lia. apply H3.
Qed.

(** No move disturbs it. *)
Lemma move_tends ev G G' n n' :
  inv G → sound G id n → own_steps id G G' → kept G id n G' → move ev n n' →
  tends G id c i w e n → tends G' id c i w e n'.
Proof.
  intros HI Hs Ho Hk Hm Ht. destruct (raft_steps_inv P G G' HI (os_steps _ _ _ _ Ho)) as [Hg _].
  pose proof (tends_grows G G' n Hg Hk Ht) as Ht'.
  destruct Hm as [n' Hq| | | | | | | |x n' Hlt He Hat| | | | | | |]; try (eapply tends_tended; [|exact Ht']; by apply tended_same).
  - eapply tends_tended; [apply Hq|done].
  - pose proof (tends_applied G n x n' HI Hs Hlt He Hat Ht) as Ht1. eapply tends_grows; [exact Hg| |exact Ht1].
    intros Hne. apply Hk. intros E. apply Hne. apply map_empty. intros j.
    destruct (n_pending n' !! j) as [v|] eqn:Hj; [|done]. apply (at_pending _ _ _ Hat) in Hj. by rewrite E in Hj.
  - by apply tends_await.
Qed.

End tending.

(** No waiter of a node is lost sight of. *)
Definition attended (G : group) (id : string) n (G' : group) n' : Prop :=
  ∀ c i w e, tends G id c i w e n → tends G' id c i w e n'.

Lemma moves_attended ev G id n n' :
  inv G → evidence_ok P ev G id → sound G id n → moves ev n n' →
  ∃ G', own_steps id G G' ∧ sound G' id n' ∧ attended G id n G' n'.
Proof.
  intros HI Hev Hs Hm. revert G HI Hev Hs. induction Hm as [n|n n1 n2 Hm _ IH]; intros G HI Hev Hs; [exists G; split; [done|]; split; [done|by intros c i w e]|].
  destruct (move_sound ev G id n HI Hev Hs n1 Hm) as (G1&Ho1&Hs1&Hk).
  destruct (raft_steps_inv P G G1 HI (os_steps _ _ _ _ Ho1)) as [Hg HI1].
  destruct (IH G1 HI1 (evidence_ok_grows P ev G G1 id Hg Hev) Hs1) as (G2&Ho2&Hs2&Ha).
  exists G2. split_and!; [by eapply own_steps_trans|done|]. intros c i w e Ht.
  apply Ha. by apply (move_tends id c i w e ev G G1 n n1).
Qed.

End moving.
