(* ===== verification/ClusterProps.v ===== *)
(** * ClusterProps: the safety of the cluster

    Every step of the network of [Cluster] is steps of the protocol of [Raft]:
    the relation [refines] is kept.  Election safety, log matching, leader
    completeness and the safety of the replicated machine follow for the nodes
    themselves. *)

From stdpp Require Import base numbers list gmap strings fin_maps fin_map_dom pretty relations sorting options.
From S2P Require Import Prelude Effects Bytes StateMachine Wal Journal Store Events Node NodeInv.
From S2P Require Import NodeRPC NodeSteps NodeOpen NodeProps Trace Raft Cluster Refine.

Local Open Scope N_scope.
#[local] Set Default Proof Using "Type*".

Section refinement.
Context {J : Type} `{HJ : Journal J, HJL : !JournalLaws J, HC : Codec record, HCL : !CodecLaws}.
Context `{HP : Platform, HPL : !PlatformLaws}.
Context (config : string → Config) (Hwf : wf_cluster config).
Implicit Type n : Node J.
Implicit Type net : network J.

(** The members' common table of peers. *)
Definition table : gmap string Peer := peer_table (cfg_Peers (config "")).

Notation P := (dom table).
Notation raft_step := (raft_step P).
Notation inv := (inv P).
Notation own_steps := (own_steps P).

Record node_ok (id : string) n : Prop := {
  nk_quiescent : quiescent n;
  nk_cfg : n_cfg n = with_defaults (config id);
  nk_identity : st_identity (n_store n) = identity_cfg (config id);
  nk_listed : peers_listed n;
}.

(** The protocol state [G] explains the network. *)
Record refines net (G : group) : Prop := {
  rf_inv : inv G;
  rf_up : ∀ id n, members net !! id = Some (Up n) → node_ok id n ∧ sound table G id n ∧
    ∀ p, p ∈ posted id n → p ∈ packets net;
  rf_down : ∀ id n, members net !! id = Some (Down n) → node_ok id n ∧ sound table G id n;
  rf_fresh : ∀ id j, members net !! id = Some (Fresh j) →
    j_holds j [] ∧ g_replica G id = mkReplica 0 "" [] 0;
  rf_packets : ∀ p, p ∈ packets net → packet_ok P G p;
}.

Lemma initial_refines net : initial net →
  refines net (mkGroup (λ _, mkReplica 0 "" [] 0) (λ _ _, None) (λ _, None) (λ _ _ _, False) (λ _ _ _, False)).
Proof using Type.
  intros [Hp Hm]. split.
  - apply raft_initial_inv. split_and!; auto.
  - intros id n Hx. by destruct (Hm id _ Hx) as (j&?&_).
  - intros id n Hx. by destruct (Hm id _ Hx) as (j&?&_).
  - intros id j Hx. destruct (Hm id _ Hx) as (j'&[= ->]&?). done.
  - intros p. rewrite Hp. by intros ?%elem_of_nil.
Qed.

(** One member's steps do not disturb the others. *)
Lemma others_refine net G G' id x ps :
  refines net G → own_steps id G G' →
  (∀ n, x = Up n → node_ok id n ∧ sound table G' id n ∧ ∀ p, p ∈ posted id n → p ∈ packets net ++ ps) →
  (∀ n, x = Down n → node_ok id n ∧ sound table G' id n) →
  (∀ j, x = Fresh j → j_holds j [] ∧ g_replica G' id = mkReplica 0 "" [] 0) →
  (∀ p, p ∈ ps → packet_ok P G' p) →
  refines (mkNetwork (<[id := x]> (members net)) (packets net ++ ps)) G'.
Proof.
  intros [HI Hup Hdown Hfresh Hpk] Ho Hxu Hxd Hxf Hps.
  destruct (raft_steps_inv P G G' HI (os_steps _ _ _ _ Ho)) as [Hg HI'].
  assert (∀ v n, v ≠ id → sound table G v n → sound table G' v n) as Hsame.
  { intros v n Hne Hs. eapply sound_grows; try done; [by apply Ho|].
    intros t rg Hno Hrg. by rewrite (os_reign _ _ _ _ Ho t rg Hno Hrg). }
  split; [done|..]; cbn [members packets].
  - intros v n [[<- ->]|[Hne Hv]]%lookup_insert_Some; [by apply Hxu|].
    destruct (Hup v n Hv) as (?&?&Hpo). split_and!; [done|by apply Hsame|].
    intros p Hp. apply elem_of_app. left. by apply Hpo.
  - intros v n [[<- ->]|[Hne Hv]]%lookup_insert_Some; [by apply Hxd|].
    destruct (Hdown v n Hv). split; [done|by apply Hsame].
  - intros v j [[<- ->]|[Hne Hv]]%lookup_insert_Some; [by apply Hxf|].
    destruct (Hfresh v j Hv). split; [done|]. by rewrite (os_others _ _ _ _ Ho).
  - intros p [Hp|Hp]%elem_of_app; [|by apply Hps]. by eapply packet_ok_grows, Hpk.
Qed.

Lemma advance_refines net G G' id n' ps :
  refines net G → own_steps id G G' → node_ok id n' → sound table G' id n' →
  (∀ p, p ∈ ps → packet_ok P G' p) → refines (advance id n' ps net) G'.
Proof.
  intros Hr Ho Hok Hs Hps. unfold advance. apply (others_refine net G G' id); try done.
  - intros n [= <-]. split_and!; [done..|]. intros p Hp. rewrite !elem_of_app. by right; right.
  - intros p [Hp|Hp]%elem_of_app; [by apply Hps|by apply Hs].
Qed.

Lemma post_node_ok id n n' : node_ok id n → post n n' → node_ok id n'.
Proof using Type.
  intros [Hq Hc Hi Hl] Hp. pose proof (post_evolves _ _ Hp) as He. split.
  - split; [apply Hp|by apply (post_caught_up _ _ Hp), Hq].
  - by rewrite (ev_cfg _ _ He).
  - by rewrite (ev_identity _ _ He).
  - unfold peers_listed. by rewrite (ev_cfg _ _ He), (ev_peers _ _ He).
Qed.

(** What the messages of the protocol's state tell a member. *)
Definition heard (G : group) (id : string) : evidence :=
  mkEvidence (λ req, campaigning G req ∧ typed_vote req)
    (λ req, typed_append req ∧ ∃ rg, sent P G req rg)
    (λ v t, v ∈ P ∧ g_voted G v t id) (acknowledged G).

(** No client of a member that stays up is lost sight of. *)
Definition attends_all net G net' G' : Prop :=
  ∀ id n n', members net !! id = Some (Up n) → members net' !! id = Some (Up n') →
    attended table G id n G' n'.

(** One member alone has changed. *)
Lemma one_attends net G net' G' id x :
  refines net G → own_steps id G G' → members net' = <[id := x]> (members net) →
  (∀ n n', members net !! id = Some (Up n) → x = Up n' → attended table G id n G' n') →
  attends_all net G net' G'.
Proof.
  intros Hr Ho Hm Hx v n n' Hv Hv'. rewrite Hm in Hv'.
  destruct (raft_steps_inv P G G' (rf_inv _ _ Hr) (os_steps _ _ _ _ Ho)) as [Hg _].
  apply lookup_insert_Some in Hv' as [[<- ->]|[Hne Hv']]; [by apply Hx|].
  rewrite Hv in Hv'. injection Hv' as <-. intros c i w e Ht. apply (tends_grows table v c i w e G G'); [done| |done].
  intros _. by rewrite (os_others _ _ _ _ Ho v) by done.
Qed.

Lemma still_attends net G net' id x :
  refines net G → members net' = <[id := x]> (members net) →
  (∀ n n', members net !! id = Some (Up n) → x = Up n' → waiters n' = waiters n) →
  attends_all net G net' G.
Proof.
  intros Hr Hm Hx. apply (one_attends net G net' G id x); [done|done|done|].
  intros n n' Hv E c i w e Ht. eapply tends_tended; [|exact Ht]. by apply tended_same, Hx.
Qed.

(** A call of a member that is up. *)
Lemma call_refines net G id n n' ps :
  refines net G → members net !! id = Some (Up n) → post n n' → moves (heard G id) n n' →
  (∀ G', own_steps id G G' → inv G' → node_ok id n' → sound table G' id n' →
     ∃ G'', own_steps id G' G'' ∧ sound table G'' id n' ∧ g_replica G'' id = g_replica G' id ∧
       ∀ p, p ∈ ps → packet_ok P G'' p) →
  ∃ G', rtc raft_step G G' ∧ refines (advance id n' ps net) G' ∧ attends_all net G (advance id n' ps net) G'.
Proof.
  intros Hr Hup Hp Hm Hps. destruct (rf_up _ _ Hr id n Hup) as (Hok&Hs&_).
  pose proof (rf_inv _ _ Hr) as HI. pose proof (post_node_ok id n n' Hok Hp) as Hok'.
  destruct (moves_attended table (heard G id) G id n n' HI) as (G1&Ho1&Hs1&Ha1); [by split|done|done|].
  destruct (raft_steps_inv P G G1 HI (os_steps _ _ _ _ Ho1)) as [Hg HI1].
  destruct (Hps G1 Ho1 HI1 Hok' Hs1) as (G2&Ho2&Hs2&Hx2&Hpk).
  pose proof (own_steps_trans P id G G1 G2 HI1 HI Ho1 Ho2) as Ho.
  exists G2. split_and!; [apply Ho|by eapply advance_refines|].
  eapply (one_attends net G _ G2 id); [done|done|done|]. intros n0 n1 Hn0 [= <-] c i w e Ht.
  rewrite Hup in Hn0. injection Hn0 as <-. apply Ha1 in Ht.
  destruct (raft_steps_inv P G1 G2 HI1 (os_steps _ _ _ _ Ho2)) as [Hg2 _].
  eapply tends_grows; [exact Hg2| |exact Ht]. intros _. by rewrite Hx2.
Qed.

(** A call that sends no reply. *)
Lemma quiet_call_refines net G id n n' :
  refines net G → members net !! id = Some (Up n) → post n n' → moves (heard G id) n n' →
  ∃ G', rtc raft_step G G' ∧ refines (advance id n' [] net) G' ∧ attends_all net G (advance id n' [] net) G'.
Proof.
  intros Hr Hup Hp Hm. eapply call_refines; try done. intros G' _ _ _ Hs. exists G'.
  split_and!; [done|done|done|]. by intros p ?%elem_of_nil.
Qed.

(** *** The calls of the network *)

Lemma run_moves {A} ev (m : M (Node J) A) n a n' :
  wp True m (λ _ n', moves ev n n') n → m n = Some (a, n') → moves ev n n'.
Proof using Type. intros H Hr. unfold wp in H. by rewrite Hr in H. Qed.

Lemma run_hush {A} ev (m : M (Node J) A) n a n' : hush quiet m → m n = Some (a, n') → moves ev n n'.
Proof using Type. intros H. apply run_moves. by apply traced_hush. Qed.

Lemma run_post {A} (m : M (Node J) A) n a n' :
  wp True m (λ _ n', post n n') n → m n = Some (a, n') → post n n'.
Proof using Type. intros H Hr. unfold wp in H. by rewrite Hr in H. Qed.

Lemma traced_unit {A} ev (m : M (Node J) A) n :
  wp True m (λ _ n', moves ev n n') n → wp True (_ ← m; mret tt) (λ _ n', moves ev n n') n.
Proof using Type. intros H. apply wp_bind. eapply wp_mono; [exact H|]. intros a n' Hm. by apply wp_ret. Qed.

Lemma local_moves ev c n n' :
  local_call c → typed_call c → peers_listed n → run_call c n = Some (tt, n') → moves ev n n'.
Proof using Type.
  intros Hl Hty Hpl. apply run_moves. destruct c; try done; cbn [run_call].
  - by apply Tick_traced.
  - apply traced_unit, traced_hush, (hush_take_wake quiet).
  - apply traced_unit, submit_traced. intros x ->. exact Hty.
  - apply traced_unit, traced_hush, (hush_Poll quiet).
  - apply traced_hush, (hush_Cancel quiet).
  - apply traced_unit, traced_hush, hush_Drain.
  - apply SetPaused_traced.
  - apply traced_unit, Close_traced.
Qed.

Lemma peer_named G id n to : sound table G id n → to ∈ P → p_ID (peer_of n to) = to.
Proof using Type.
  intros Hs [p Hp]%elem_of_dom. rewrite <-(so_peers _ _ _ _ Hs) in Hp. unfold peer_of. rewrite Hp.
  by apply (wf_member n (so_config _ _ _ _ Hs)).
Qed.

Section calls.
Context (net : network J) (G : group) (Hr : refines net G).
Context (id : string) (n : Node J) (Hup : members net !! id = Some (Up n)).

Lemma up_quiescent : Inv n ∧ caught_up n.
Proof using Hr Hup. destruct (rf_up _ _ Hr id n Hup) as (Hok&_). apply Hok. Qed.

Lemma call_post c n' : typed_call c → run_call c n = Some (tt, n') → post n n'.
Proof using Hr Hup HJL HCL. intros Hty Hrun. apply node_step_post; [apply up_quiescent|]. by apply (step_call c). Qed.

(** A vote that arrives was given to a request of this member. *)
Lemma vote_heard to req resp (err : option error) :
  VotePacket id to req ∈ packets net → (err = None → VoteReply to req resp ∈ packets net) →
  err = None → vr_Granted resp = true → vr_Term resp = vq_Term req →
  ev_ballot (heard G id) to (vq_Term req).
Proof using Hr.
  intros Hpk Hrep He Hg _. destruct (rf_packets _ _ Hr _ Hpk) as [_ (Hid&_)].
  destruct (rf_packets _ _ Hr _ (Hrep He)) as [_ Hv]. destruct (Hv Hg). by rewrite Hid in *.
Qed.

(** An acknowledgement that arrives was given to a request of this member. *)
Lemma append_heard to req resp (err : option error) :
  AppendPacket id to req ∈ packets net → (err = None → AppendReply to req resp ∈ packets net) →
  err = None → ar_Success resp = true → ar_Term resp = aq_Term req →
  to ∈ P ∧ ev_match (heard G id) to (aq_Term req) (add64 (aq_PrevLogIndex req) (lenN (aq_Entries req))).
Proof using Hr.
  intros Hpk Hrep He Hs _. destruct (rf_packets _ _ Hr _ Hpk) as [_ [rg Hsent]].
  destruct (rf_packets _ _ Hr _ (Hrep He)) as [_ Hv]. destruct (Hv Hs). split; [done|].
  rewrite add64_small by apply Hsent. done.
Qed.

Lemma request_vote_refines from req resp err n' :
  VotePacket from id req ∈ packets net → RequestVote req n = Some ((resp, err), n') →
  ∃ G', rtc raft_step G G' ∧ refines (advance id n' (replied err (VoteReply id req resp)) net) G' ∧
    attends_all net G (advance id n' (replied err (VoteReply id req resp)) net) G'.
Proof.
  intros Hpk Hrun. destruct (rf_packets _ _ Hr _ Hpk) as [Hty (_&_&Hcamp)].
  destruct (RequestVote_run req n resp err n' (proj1 up_quiescent) Hty Hrun) as [Hp Ha].
  eapply call_refines; try done.
  { eapply run_moves; [|exact Hrun]. apply RequestVote_traced; [apply Hty|by split]. }
  intros G' Ho HI' Hok' Hs'. exists G'. split_and!; [done|done|done|]. intros p Hin.
  destruct err; [by apply elem_of_nil in Hin|]. apply list_elem_of_singleton in Hin as ->.
  destruct (wf_bounds n' (sound_state _ _ _ _ Hs')) as [Ht64 _].
  split; [cbn; by rewrite (va_term _ _ _ _ _ Ha)|]. intros Hg.
  destruct (va_granted _ _ _ _ _ Ha Hg) as (_&Ht&Hv&Hne&_&Hf&_).
  split; [apply (sound_member _ _ _ _ Hs')|]. destruct (sound_healthy _ _ _ _ Hs' Hf) as [_ Him].
  pose proof (i_cast P G' HI' id) as Hcast. rewrite (im_term _ _ Him), (im_vote _ _ Him) in Hcast.
  change (vote_of n' ≠ "" → g_voted G' id (term_of n') (vote_of n')) in Hcast.
  rewrite Ht, Hv in Hcast. by apply Hcast.
Qed.

(** The acknowledgement of a request is an acceptance of what it says. *)
Lemma append_entries_refines from req resp err n' :
  AppendPacket from id req ∈ packets net → AppendEntries req n = Some ((resp, err), n') →
  ∃ G', rtc raft_step G G' ∧ refines (advance id n' (replied err (AppendReply id req resp)) net) G' ∧
    attends_all net G (advance id n' (replied err (AppendReply id req resp)) net) G'.
Proof.
  intros Hpk Hrun. destruct (rf_packets _ _ Hr _ Hpk) as [Hty [rg0 Hsent0]].
  destruct (AppendEntries_run req n resp err n' (proj1 up_quiescent) Hty Hrun) as [Hp Ha].
  eapply call_refines; try done.
  { eapply run_moves; [|exact Hrun]. apply AppendEntries_traced; [apply Hty|]. split; [done|by exists rg0]. }
  intros G1 Ho HI1 Hok' Hs1. pose proof (sound_state _ _ _ _ Hs1) as Hwfs.
  destruct (wf_bounds n' Hwfs) as (Ht64&_&Hl64&_).
  assert (∀ G2, ar_Term resp < two64 ∧ (ar_Success resp = true →
    id ∈ P ∧ acknowledged G2 id (aq_Term req) (reach req)) →
    ∀ p, p ∈ replied err (AppendReply id req resp) → packet_ok P G2 p) as Hreply.
  { intros G2 H2 p Hin. destruct err; [by apply elem_of_nil in Hin|]. by apply list_elem_of_singleton in Hin as ->. }
  assert (ar_Term resp < two64) as Hrt by (by rewrite (an_term _ _ _ _ _ Ha)).
  destruct (ar_Success resp) eqn:Hsucc; [|exists G1; split_and!; [done|done|done|by apply Hreply]].
  destruct (an_accepted _ _ _ _ _ Ha Hsucc) as (_&Ht&Hf&_&Hacc).
  destruct (raft_steps_inv P G G1 (rf_inv _ _ Hr) (os_steps _ _ _ _ Ho)) as [Hg1 _].
  destruct (sent_grows P G G1 req rg0 Hg1 Hsent0) as [rg Hsent].
  destruct (Hacc (st_small _ _ _ _ Hsent)) as [(p&Hpl&Hpt) Hes Hbefore _ _ Hbase].
  destruct (sound_healthy _ _ _ _ Hs1 Hf) as [_ Him]. set (x := g_replica G1 id) in *.
  assert (rooted G1 (rp_log x)) as Hroot by apply (i_rooted P G1 HI1).
  destruct (received table G1 HI1 (rp_log x) req rg
    (length (aq_Entries req)) p Hsent Hroot) as [_ Htake].
  { intros Hpos. split; [|done]. apply (im_log _ _ Him); [done|]. by rewrite Hbefore. }
  { intros k e _ He. destruct (Hes k e He) as [Hei Hl]. rewrite Hei in Hl.
    replace (N.to_nat (aq_PrevLogIndex req) + k)%nat with (N.to_nat (aq_PrevLogIndex req + 1 + N.of_nat k - 1)) by lia.
    apply (im_log _ _ Him); [lia|done]. }
  { done. }
  set (k := N.to_nat (reach req)).
  assert (k = N.to_nat (aq_PrevLogIndex req) + length (aq_Entries req))%nat as Hk by (unfold k, reach, lenN; lia).
  rewrite <-Hk in Htake.
  assert (merge k (rg_log rg) (rp_log x) = rp_log x) as Hm.
  { unfold merge. rewrite <-Htake, decide_True; [done|apply prefix_take]. }
  assert (rp_term x = aq_Term req) as Hxt by (rewrite <-Ht; apply Him).
  set (G2 := add_acks id (aq_Term req) k (set_replica id (mkReplica (aq_Term req) (rp_vote x)
    (merge k (rg_log rg) (rp_log x)) (Nat.max (rp_commit x) (Nat.min 0 k))) G1)).
  assert (raft_step G1 G2) as Hstep.
  { apply rs_accept with (r := x) (rg := rg) (lc := 0%nat); try done; [apply Hsent| |by left].
    rewrite Hk. apply Hsent. }
  assert (g_replica G2 id = x) as Hx2.
  { unfold G2. cbn [add_acks g_replica]. rewrite replica_set, Hm, <-Hxt.
    rewrite Nat.min_0_l, Nat.max_0_r. apply replica_eta. }
  assert (own_steps id G1 G2) as Ho2.
  { split; [by apply rtc_once|intros v Hne; unfold G2; by apply replica_set_ne|].
    intros t rg' Hno Hrg'. change (g_reign G1 t = Some rg') in Hrg'. congruence. }
  exists G2. split_and!; [done| |done|].
  - destruct (raft_step_inv P G1 G2 HI1 Hstep) as [Hg2 _].
    apply (sound_grows table G1 G2 id n' Hg2 Hx2); [|done].
    intros t rg' Hno Hrg'. change (g_reign G1 t = Some rg') in Hrg'. congruence.
  - apply Hreply. split; [done|]. intros _. split; [apply (sound_member _ _ _ _ Hs1)|].
    intros i _ Hi. right. split_and!; [done..|]. exact Hi.
Qed.

End calls.

(** *** Opening *)

Lemma opened_node_ok id ht rt j n' :
  OpenWithRuntime (config id) ht rt j = Some (inr n') → quiescent n' →
  st_identity (n_store n') = identity_cfg (config id) →
  fresh_open (config id) j n' ∧ node_ok id n' ∧ n_peers n' = table.
Proof using Hwf.
  intros Ho Hq Hid. pose proof (open_fresh _ _ _ _ _ Ho (wc_elected config Hwf id)) as Hf.
  split_and!; [done| |].
  - split; [done|apply Hf|done|apply Hf].
  - rewrite (fo_peers _ _ _ Hf). unfold table. by rewrite (wc_peers config Hwf id "").
Qed.

(** A node that has just been opened is sound if its disk and its past are. *)
Lemma opened_sound G id j n' :
  fresh_open (config id) j n' → node_ok id n' → n_peers n' = table →
  image (g_replica G id) (n_state n') →
  n_machine n' = history_machine (take (N.to_nat (n_applied n')) (rp_log (g_replica G id))) →
  sound table G id n'.
Proof.
  intros Hf [[HI Hcu] Hc Hid _] Hp Him Hm. pose proof (inv_core n' HI) as H0. split; try done.
  - rewrite Hc. apply (wc_id config Hwf).
  - apply H0.
  - apply H0.
  - apply H0.
  - unfold disk_ok. rewrite (fo_healthy _ _ _ Hf). split; [|done]. apply (inv_content n' H0), (fo_healthy _ _ _ Hf).
  - split; try done.
    + rewrite (im_commit _ _ Him). done.
    + intros i e Hi _. by apply Him.
    + apply (inv_applied n' H0).
  - unfold office. by rewrite (fo_role _ _ _ Hf).
  - intros p. unfold posted. rewrite (fo_outbox _ _ _ Hf), (fo_calls _ _ _ Hf). by intros ?%elem_of_nil.
Qed.

Lemma first_open_refines net G id j ht rt n' :
  refines net G → members net !! id = Some (Fresh j) →
  OpenWithRuntime (config id) ht rt j = Some (inr n') → refines (advance id n' [] net) G.
Proof.
  intros Hr Hfr Ho. destruct (rf_fresh _ _ Hr id j Hfr) as [Hh Hrep].
  destruct (first_open (config id) ht rt j n' (wc_typed config Hwf id) Hh Ho) as (Hq&_&Hid&_&hist&[Hlen Hm _]).
  destruct (opened_node_ok id ht rt j n' Ho Hq Hid) as (Hf&Hok&Hp).
  destruct (fo_store _ _ _ Hf) as (s&Hos&Hs).
  pose proof (openStoreUsing_empty _ _ _ (identity_text _ _ _ _) Hh Hos) as Hst.
  assert (n_state n' = mkState 0 "" 0 0 [zeroEntry]) as Hst' by (unfold n_state; by rewrite Hs).
  apply (advance_refines net G G id); try done; [|by intros p ?%elem_of_nil].
  apply (opened_sound G id j); try done; rewrite Hrep.
  - rewrite Hst'. apply image_empty.
  - destruct (inv_applied n' (inv_core n' (proj1 Hq))) as [_ Ha]. unfold commit_of in Ha.
    rewrite Hst' in Ha. cbn in Ha. assert (hist = []) as ->; [|cbn [rp_log]; by rewrite take_nil].
    apply nil_length_inv. unfold lenN in Hlen. lia.
Qed.

(** What the journal of a member that is down holds. *)
Lemma down_content G id n :
  Inv n → sound table G id n →
  overflowing (st_wal (n_store n)) (st_identity (n_store n)) ∨
  ∃ s0, content (st_wal (n_store n)) s0 ∧ st_identity s0 = st_identity (n_store n) ∧
    image (g_replica G id) (st_state s0) ∧ ds_base (st_state s0) ≤ n_applied n.
Proof.
  intros HI Hs. pose proof (inv_core n HI) as H0. pose proof (so_disk _ _ _ _ Hs) as Hd. unfold disk_ok in Hd.
  destruct (n_failed n) as [err|] eqn:Hf.
  - destruct Hd as [_ [?|(s0&Hc&Hid&Him)]]; [by left|].
    destruct (inv_recover n H0) as [?|(s1&Hc1&Hid1&_&Hb&_)]; [by rewrite Hf|by left|]. right.
    exists s0. split_and!; [done..|]. destruct (openStoreUsing_content _ _ Hc) as (w0&E0&_).
    destruct (openStoreUsing_content _ _ Hc1) as (w1&E1&_). rewrite Hid in E0. rewrite Hid1, E0 in E1.
    injection E1 as _ _ E _. by rewrite E.
  - destruct Hd as [Hc Him]. right. exists (without_wal (n_store n)). split_and!; [done..|].
    apply (inv_applied n H0).
Qed.

Lemma reopen_refines net G id n ht rt n' :
  refines net G → members net !! id = Some (Down n) →
  OpenWithRuntime (config id) ht rt (st_wal (n_store n)) = Some (inr n') → refines (advance id n' [] net) G.
Proof.
  intros Hr Hdown Ho. destruct (rf_down _ _ Hr id n Hdown) as ([Hq Hcfg Hident Hlisted]&Hs).
  pose proof (reopen True (config id) ht rt n (proj1 Hq) (wc_typed config Hwf id) (eq_sym Hident) (or_introl I)) as Hre.
  rewrite Ho in Hre. destruct Hre as ([Hq' _ _ Hid _ Hap Hhist]&_&_).
  destruct (opened_node_ok id ht rt _ n' Ho Hq' ltac:(congruence)) as (Hf&Hok&Hp).
  destruct (fo_store _ _ _ Hf) as (s&Hos&Hst).
  destruct (down_content G id n (proj1 Hq) Hs) as [Hover|(s0&Hc&Hid0&Him&Hb)].
  { apply overflowing_open in Hover. rewrite Hident in Hover. congruence. }
  destruct (openStoreUsing_content _ _ Hc) as (w'&Eo&_). rewrite Hid0, Hident, Hos in Eo. injection Eo as ->.
  assert (n_state n' = st_state s0) as Est by (unfold n_state; by rewrite Hst). set (x := g_replica G id) in *.
  pose proof (so_past _ _ _ _ Hs) as [P1 P2 P3 P4]. fold x in P1, P2, P4.
  destruct (i_commit P G (rf_inv _ _ Hr) id) as [Hclen _]. fold x in Hclen.
  apply (advance_refines net G G id); try done; [|by intros p ?%elem_of_nil].
  apply (opened_sound G id _ n' Hf Hok Hp); [by rewrite Est|]. fold x.
  destruct (Hhist (take (N.to_nat (n_applied n)) (rp_log x))) as (more&[Hlen Hm Hlog]).
  { split; [unfold lenN; rewrite length_take; lia|done|]. intros i e Hi Hi0 Hia.
    rewrite lookup_take_lt by lia. apply P2; [done|lia|done]. }
  rewrite Hm. f_equal. pose proof (inv_core n' (proj1 Hq')) as H0'.
  destruct (inv_applied n' H0') as [_ Hca]. destruct (Inv0_bounds n' H0') as (_&_&_&_&Hcl&_).
  assert (length (rp_log x) = N.to_nat (last_index (n_state n'))) as Hxl by (rewrite Est; apply Him).
  apply list_eq_same_length with (n := N.to_nat (n_applied n')).
  - rewrite length_take. lia.
  - unfold lenN in Hlen. lia.
  - intros i e1 e2 Hi H1 H2. apply lookup_take_Some in H2 as [H2 _].
    destruct (decide (i < N.to_nat (n_applied n))%nat) as [Hlt|Hge].
    + rewrite lookup_app_l in H1 by (rewrite length_take; lia).
      apply lookup_take_Some in H1 as [H1 _]. congruence.
    + assert (log_at (n_state n') (N.of_nat i + 1) = Some e2) as Hl2.
      { rewrite Est. apply (image_lookup x); [|done| |lia|lia].
        - rewrite <-Est. apply (Inv0_state n' H0').
        - by replace (N.to_nat (N.of_nat i + 1 - 1)) with i by lia. }
      pose proof (Hlog _ _ Hl2 ltac:(lia) ltac:(lia)) as H3.
      replace (N.to_nat (N.of_nat i + 1 - 1)) with i in H3 by lia. congruence.
Qed.

(** *** Every step of the network is steps of the protocol *)

Lemma resting_refines net G id x x' :
  refines net G → members net !! id = Some x →
  match x, x' with
  | Fresh j, Fresh w => ∀ bs, j_holds j bs → j_holds w bs
  | Up n, Down n' | Down n, Down n' => node_ok id n → sound table G id n → node_ok id n' ∧ sound table G id n'
  | _, _ => False
  end →
  refines (mkNetwork (<[id := x']> (members net)) (packets net)) G.
Proof.
  intros Hr Hx Hx'. rewrite <-(app_nil_r (packets net)). apply (others_refine net G G id); try done.
  - intros n ->. by destruct x.
  - intros n ->. destruct x as [j|n0|n0]; [done|..]; apply Hx'.
    + by destruct (rf_up _ _ Hr id n0 Hx) as (?&?&_).
    + by destruct (rf_up _ _ Hr id n0 Hx) as (?&?&_).
    + by destruct (rf_down _ _ Hr id n0 Hx).
    + by destruct (rf_down _ _ Hr id n0 Hx).
  - intros j ->. destruct x as [j0|n0|n0]; [|done..]. destruct (rf_fresh _ _ Hr id j0 Hx). split; [by apply Hx'|done].
  - by intros p ?%elem_of_nil.
Qed.

Lemma net_step_refines net net' G :
  refines net G → net_step config net net' →
  ∃ G', rtc raft_step G G' ∧ refines net' G' ∧ attends_all net G net' G'.
Proof.
  intros Hr Hs.
  destruct Hs as [id n c n' Hup Hl Hty Hrun
    |id n from req resp err n' Hup Hpk Hrun
    |id n from req resp err n' Hup Hpk Hrun
    |id n m req resp err n' Hup Hm Hpk Hrt Hrep Hrun
    |id n i peer req resp err n' Hup Hi Hrt Hrep Hrun
    |id n m req resp err n' Hup Hm Hpk Hrt Hrep Hrun
    |id n peer o n' Hup Hpeer Hrun
    |id n peer req resp err b n' Hup Hpk Hrt Hrep Hrun
    |id n w Hup Hf
    |id n w Hdown Hf
    |id j w Hfr Hf
    |id n rt Hup Hrt
    |id n Hup
    |id j ht rt n' Hfr Ho
    |id n ht rt n' Hdown Ho].
  - apply (quiet_call_refines net G id n); [done|done| |].
    + by eapply (call_post net G Hr id n Hup c).
    + eapply local_moves; try done. apply (rf_up _ _ Hr id n Hup).
  - by eapply request_vote_refines.
  - by eapply append_entries_refines.
  - destruct (rf_up _ _ Hr id n Hup) as (_&Hsound&_). destruct (rf_packets _ _ Hr _ Hpk) as [_ (_&Hto&_)].
    apply (quiet_call_refines net G id n); [done|done| |].
    + by apply (call_post net G Hr id n Hup (CDeliverVote m resp err)).
    + eapply run_moves; [|exact Hrun]. apply DeliverVote_traced; [done|]. intros req' E. rewrite Hm in E.
      injection E as <-. rewrite (peer_named G id n) by done. by eapply vote_heard.
  - destruct (rf_up _ _ Hr id n Hup) as (_&_&Hposted).
    apply (quiet_call_refines net G id n); [done|done| |].
    + by apply (call_post net G Hr id n Hup (CVoteReturns i resp err)).
    + eapply run_moves; [|exact Hrun]. apply vote_returns_traced; [done|]. intros peer' req' E. rewrite Hi in E.
      injection E as <- <-. apply (vote_heard net G Hr id (p_ID peer) req resp err); [|done..]. apply Hposted. unfold posted.
      apply elem_of_app. right. apply list_elem_of_fmap. exists (peer, req). split; [done|].
      by eapply list_elem_of_lookup_2.
  - destruct (rf_up _ _ Hr id n Hup) as (_&Hsound&_).
    apply (quiet_call_refines net G id n); [done|done| |].
    + by apply (call_post net G Hr id n Hup (CDeliverAppend m resp err)).
    + eapply run_moves; [|exact Hrun]. apply DeliverAppend_traced; [done|]. intros req' E He Hsu Ht. rewrite Hm in E.
      injection E as <-. destruct (append_heard net G Hr id (m_To m) req resp err Hpk Hrep He Hsu Ht) as [Hto Hh].
      by rewrite (peer_named G id n).
  - destruct (up_quiescent net G Hr id n Hup) as [HI Hcu].
    pose proof (replicate_call_wp True (λ o n', post n n' ∧ ∀ req, o = Some req → prepared n peer req ∧ n_role n = leader) peer n
      HI (λ _, I) ltac:(intros o' n1 Hp Hq; by split)) as Hw.
    unfold wp in Hw. rewrite Hrun in Hw. destruct Hw as [Hp Hprep].
    eapply call_refines; try done; [eapply run_hush; [|exact Hrun]; by apply (hush_replicate_call quiet)|].
    intros G' Ho HI' _ Hs'. exists G'. split_and!; [done|done|done|]. intros p Hin. destruct o as [req|]; [|by apply elem_of_nil in Hin].
    apply list_elem_of_singleton in Hin as ->. destruct (Hprep req eq_refl) as [Hpr Hrole].
    destruct (raft_steps_inv P G G' (rf_inv _ _ Hr) (os_steps _ _ _ _ Ho)) as [Hg _].
    eapply packet_ok_grows; [done|]. destruct (rf_up _ _ Hr id n Hup) as (_&Hsound&_).
    apply (prepared_ok table G id n); try done. apply Hr.
  - apply (quiet_call_refines net G id n); [done|done| |].
    + destruct (up_quiescent net G Hr id n Hup) as [HI Hcu].
      eapply (run_post (replicate_return peer req resp err)); [|exact Hrun]. by apply acceptAppend_wp.
    + eapply run_moves; [|exact Hrun]. apply acceptAppend_traced; [done|]. intros He Hsu Ht.
      by destruct (append_heard net G Hr id (p_ID peer) req resp err Hpk Hrep He Hsu Ht).
  - destruct (rf_up _ _ Hr id n Hup) as (Hok&Hsound&_). exists G. split_and!; [done| |].
    + apply (advance_refines net G G id); try done; [| |by intros p ?%elem_of_nil].
      * eapply post_node_ok; [done|]. apply post_faults; [apply Hok|done].
      * apply journal_sound; [done|]. intros bs Hh. by eapply j_faults_law.
    + eapply (still_attends net G _ id); [done|done|]. intros n1 n2 Hn1 [= <-]. rewrite Hup in Hn1. by injection Hn1 as <-.
  - exists G. split_and!; [done| |by eapply (still_attends net G _ id)].
    apply (resting_refines net G id (Down n)); [done|done|]. intros Hok Hsound. split.
    + eapply post_node_ok; [done|]. apply post_faults; [apply Hok|done].
    + apply journal_sound; [done|]. intros bs Hh. by eapply j_faults_law.
  - exists G. split_and!; [done| |by eapply (still_attends net G _ id)].
    apply (resting_refines net G id (Fresh j)); [done|done|]. intros bs Hh. by eapply j_faults_law.
  - apply (quiet_call_refines net G id n); [done|done| |].
    + apply post_set_rt; [apply (up_quiescent net G Hr id n Hup)|done].
    + apply moves_quiet. by apply quiet_same.
  - exists G. split_and!; [done|by apply (resting_refines net G id (Up n))|by eapply (still_attends net G _ id)].
  - exists G. split_and!; [done|by eapply first_open_refines|].
    eapply (still_attends net G _ id); [done|done|]. intros n1 n2 Hn1. congruence.
  - exists G. split_and!; [done|by eapply reopen_refines|].
    eapply (still_attends net G _ id); [done|done|]. intros n1 n2 Hn1. congruence.
Qed.

Lemma net_steps_refine net net' G :
  refines net G → rtc (net_step config) net net' → ∃ G', rtc raft_step G G' ∧ refines net' G'.
Proof.
  intros Hr Hs. revert G Hr. induction Hs as [|net net1 net2 Hs _ IH]; intros G Hr; [by exists G|].
  destruct (net_step_refines net net1 G Hr Hs) as (G1&H1&Hr1&_).
  destruct (IH G1 Hr1) as (G2&H2&Hr2). exists G2. split; [by etransitivity|done].
Qed.

End refinement.

(** ** Safety *)

Section safety.
Context {J : Type} `{HJ : Journal J, HJL : !JournalLaws J, HC : Codec record, HCL : !CodecLaws}.
Context `{HP : Platform, HPL : !PlatformLaws}.
Context (config : string → Config) (Hwf : wf_cluster config).
Notation P := (dom (table config)).

(** What explains a network explains what it was before. *)
Lemma reached_refine (net0 net1 net2 : network J) :
  initial net0 → rtc (net_step config) net0 net1 → rtc (net_step config) net1 net2 →
  ∃ G1 G2, refines config net1 G1 ∧ refines config net2 G2 ∧ grows G1 G2.
Proof.
  intros Hi H01 H12.
  destruct (net_steps_refine config Hwf _ _ _ (initial_refines config net0 Hi) H01) as (G1&_&Hr1).
  destruct (net_steps_refine config Hwf _ _ G1 Hr1 H12) as (G2&Hs2&Hr2).
  destruct (raft_steps_inv P G1 G2 (rf_inv _ _ _ Hr1) Hs2) as [Hg _]. by exists G1, G2.
Qed.

Section two.
Context (net1 net2 : network J) (G1 G2 : group).
Context (Hr1 : refines config net1 G1) (Hr2 : refines config net2 G2) (Hg : grows G1 G2).
Context (id1 id2 : string) (n1 n2 : Node J).
Context (Hup1 : members net1 !! id1 = Some (Up n1)) (Hup2 : members net2 !! id2 = Some (Up n2)).

Lemma up_sound net G id n :
  refines config net G → members net !! id = Some (Up n) → Inv n ∧ sound (table config) G id n.
Proof using Type. intros Hr Hup. destruct (rf_up _ _ _ Hr id n Hup) as ([]&?&_). split; [apply nk_quiescent0|done]. Qed.

(** Two committed prefixes are settled in the later state. *)
Lemma committed_prefixes :
  let l1 := take (rp_commit (g_replica G1 id1)) (rp_log (g_replica G1 id1)) in
  let l2 := take (rp_commit (g_replica G2 id2)) (rp_log (g_replica G2 id2)) in
  l1 `prefix_of` l2 ∨ l2 `prefix_of` l1.
Proof using Hr1 Hr2 Hg.
  intros l1 l2. pose proof (rf_inv _ _ _ Hr1) as HI1. pose proof (rf_inv _ _ _ Hr2) as HI2.
  destruct (i_commit P G1 HI1 id1) as [_ H1]. destruct (i_commit P G2 HI2 id2) as [_ H2].
  eapply (settled_agree P G2 HI2); [|exact H2]. eapply settled_grows; [exact Hg|reflexivity|exact H1].
Qed.

(** The history a node has applied. *)
Definition applied_part (G : group) (id : string) (n : Node J) : list Entry :=
  take (N.to_nat (n_applied n)) (rp_log (g_replica G id)).

Lemma applied_explains net G id n :
  refines config net G → members net !! id = Some (Up n) → explains (applied_part G id n) n ∧
  applied_part G id n `prefix_of` take (rp_commit (g_replica G id)) (rp_log (g_replica G id)).
Proof using Type.
  intros Hr Hup. destruct (up_sound net G id n Hr Hup) as [_ Hs].
  pose proof (so_past _ _ _ _ Hs) as [P1 P2 P3 P4]. destruct (i_commit P G (rf_inv _ _ _ Hr) id) as [Hlen _].
  split.
  - split; [unfold applied_part, lenN; rewrite length_take; lia|done|].
    intros i e Hi Hi0 Hia. unfold applied_part. rewrite lookup_take_lt by lia. apply P2; [done|lia|done].
  - unfold applied_part. replace (N.to_nat (n_applied n)) with
      (Nat.min (N.to_nat (n_applied n)) (rp_commit (g_replica G id))) by lia.
    rewrite <-take_take. apply prefix_take.
Qed.

End two.

(** C2. Election safety: in a cluster that starts on empty journals, two nodes
    that lead in the same term, at any two moments, are the same member:
    whatever messages are lost, delayed, duplicated and reordered, whatever
    disks fail, and whichever processes end and are opened again. *)
Theorem election_safety net0 net1 net2 id1 id2 (n1 n2 : Node J) :
  initial net0 → rtc (net_step config) net0 net1 → rtc (net_step config) net1 net2 →
  members net1 !! id1 = Some (Up n1) → members net2 !! id2 = Some (Up n2) →
  n_role n1 = leader → n_role n2 = leader → term_of n1 = term_of n2 → id1 = id2.
Proof.
  intros Hi H01 H12 Hup1 Hup2 Hl1 Hl2 Ht.
  destruct (reached_refine net0 net1 net2 Hi H01 H12) as (G1&G2&Hr1&Hr2&Hg).
  destruct (up_sound _ _ _ _ Hr1 Hup1) as [_ Hs1]. destruct (up_sound _ _ _ _ Hr2 Hup2) as [_ Hs2].
  destruct (sound_leader _ _ _ _ (rf_inv _ _ _ Hr1) Hs1 Hl1) as (rg1&Hrg1&<-&_).
  destruct (sound_leader _ _ _ _ (rf_inv _ _ _ Hr2) Hs2 Hl2) as (rg2&Hrg2&<-&_).
  destruct (gr_reign _ _ Hg _ _ Hrg1) as (rg'&Hrg'&Hl&_). rewrite Ht in Hrg'. congruence.
Qed.

(** C3. State machine safety: what any two members have applied, at any two
    moments, are histories of which one begins the other, and their machines
    are what the commands of these histories make of an empty machine. *)
Theorem state_machine_safety net0 net1 net2 id1 id2 (n1 n2 : Node J) :
  initial net0 → rtc (net_step config) net0 net1 → rtc (net_step config) net1 net2 →
  members net1 !! id1 = Some (Up n1) → members net2 !! id2 = Some (Up n2) →
  ∃ hist1 hist2, explains hist1 n1 ∧ explains hist2 n2 ∧
    (hist1 `prefix_of` hist2 ∨ hist2 `prefix_of` hist1).
Proof.
  intros Hi H01 H12 Hup1 Hup2.
  destruct (reached_refine net0 net1 net2 Hi H01 H12) as (G1&G2&Hr1&Hr2&Hg).
  destruct (applied_explains _ _ _ _ Hr1 Hup1) as [He1 Hp1].
  destruct (applied_explains _ _ _ _ Hr2 Hup2) as [He2 Hp2].
  exists (applied_part G1 id1 n1), (applied_part G2 id2 n2). split_and!; [done..|].
  destruct (committed_prefixes net1 net2 G1 G2 Hr1 Hr2 Hg id1 id2) as [H|H].
  - apply (prefix_weak_total _ _ _ ltac:(etransitivity; [exact Hp1|exact H]) Hp2).
  - apply (prefix_weak_total _ _ _ Hp1 ltac:(etransitivity; [exact Hp2|exact H])).
Qed.

(** Committed entries agree: an index that two members have committed, at
    any two moments, holds the same entry in both logs. *)
Theorem committed_agree net0 net1 net2 id1 id2 (n1 n2 : Node J) i e1 e2 :
  initial net0 → rtc (net_step config) net0 net1 → rtc (net_step config) net1 net2 →
  members net1 !! id1 = Some (Up n1) → members net2 !! id2 = Some (Up n2) →
  0 < i → i ≤ commit_of n1 → i ≤ commit_of n2 →
  log_at (n_state n1) i = Some e1 → log_at (n_state n2) i = Some e2 → e1 = e2.
Proof.
  intros Hi H01 H12 Hup1 Hup2 Hpos Hc1 Hc2 Hl1 Hl2.
  destruct (reached_refine net0 net1 net2 Hi H01 H12) as (G1&G2&Hr1&Hr2&Hg).
  destruct (up_sound _ _ _ _ Hr1 Hup1) as [_ Hs1]. destruct (up_sound _ _ _ _ Hr2 Hup2) as [_ Hs2].
  pose proof (so_past _ _ _ _ Hs1) as [P1 Q1 _ _]. pose proof (so_past _ _ _ _ Hs2) as [P2 Q2 _ _].
  specialize (Q1 i e1 Hpos Hc1 Hl1). specialize (Q2 i e2 Hpos Hc2 Hl2).
  rewrite <-(lookup_take_lt _ (rp_commit (g_replica G1 id1))) in Q1 by lia.
  rewrite <-(lookup_take_lt _ (rp_commit (g_replica G2 id2))) in Q2 by lia.
  destruct (committed_prefixes net1 net2 G1 G2 Hr1 Hr2 Hg id1 id2) as [[k Hk]|[k Hk]]; rewrite Hk in *.
  - rewrite lookup_app_l in Q2 by (by apply lookup_lt_Some in Q1). congruence.
  - rewrite lookup_app_l in Q1 by (by apply lookup_lt_Some in Q2). congruence.
Qed.

(** C4. Leader completeness: what a member has committed is in the log of every
    member that leads, then or later, in the same or a later term. *)
Theorem leader_completeness net0 net1 net2 id1 id2 (n1 n2 : Node J) i e :
  initial net0 → rtc (net_step config) net0 net1 → rtc (net_step config) net1 net2 →
  members net1 !! id1 = Some (Up n1) → members net2 !! id2 = Some (Up n2) →
  n_failed n1 = None → n_role n2 = leader → term_of n1 ≤ term_of n2 →
  0 < i → i ≤ commit_of n1 → log_at (n_state n1) i = Some e →
  i ≤ last_index (n_state n2) ∧ (base_of n2 ≤ i → log_at (n_state n2) i = Some e).
Proof.
  intros Hi H01 H12 Hup1 Hup2 Hf Hl Ht Hpos Hc Hlog.
  destruct (reached_refine net0 net1 net2 Hi H01 H12) as (G1&G2&Hr1&Hr2&Hg).
  destruct (up_sound _ _ _ _ Hr1 Hup1) as [_ Hs1]. destruct (up_sound _ _ _ _ Hr2 Hup2) as [_ Hs2].
  destruct (sound_healthy _ _ _ _ Hs1 Hf) as [_ Him1].
  destruct (sound_leader _ _ _ _ (rf_inv _ _ _ Hr2) Hs2 Hl) as (rg&Hrg&_&Hrl&Him2&_).
  destruct (i_commit P G1 (rf_inv _ _ _ Hr1) id1) as [_ Hset]. rewrite (im_term _ _ Him1) in Hset.
  pose proof (settled_grows P G1 G2 Hg _ _ _ Ht Hset) as Hset2.
  destruct (settled_reign P G2 (rf_inv _ _ _ Hr2) _ _ _ Hset2 Hrg) as [k Hk].
  assert (rp_log (g_replica G2 id2) !! N.to_nat (i - 1) = Some e) as Hin.
  { rewrite Hrl, Hk. apply lookup_app_l_Some. rewrite lookup_take_lt.
    - by apply (im_log _ _ Him1).
    - rewrite (im_commit _ _ Him1). unfold commit_of in Hc. lia. }
  split.
  - apply lookup_lt_Some in Hin. rewrite (im_length _ _ Him2) in Hin. lia.
  - intros Hb. apply (image_lookup _ _ (sound_state _ _ _ _ Hs2) Him2); done.
Qed.

(** C5. Log matching: if the logs of two healthy members, at any two moments,
    have entries of the same index and term, then they agree on every entry up
    to that index that both still hold. *)
Theorem log_matching net0 net1 net2 id1 id2 (n1 n2 : Node J) i e1 e2 :
  initial net0 → rtc (net_step config) net0 net1 → rtc (net_step config) net1 net2 →
  members net1 !! id1 = Some (Up n1) → members net2 !! id2 = Some (Up n2) →
  n_failed n1 = None → n_failed n2 = None →
  log_at (n_state n1) i = Some e1 → log_at (n_state n2) i = Some e2 → e_Term e1 = e_Term e2 →
  ∀ j x1 x2, 0 < j → j ≤ i → log_at (n_state n1) j = Some x1 → log_at (n_state n2) j = Some x2 → x1 = x2.
Proof.
  intros Hi H01 H12 Hup1 Hup2 Hf1 Hf2 Hl1 Hl2 Ht j x1 x2 Hpos Hji Hj1 Hj2.
  destruct (reached_refine net0 net1 net2 Hi H01 H12) as (G1&G2&Hr1&Hr2&Hg).
  destruct (up_sound _ _ _ _ Hr1 Hup1) as [_ Hs1]. destruct (up_sound _ _ _ _ Hr2 Hup2) as [_ Hs2].
  destruct (sound_healthy _ _ _ _ Hs1 Hf1) as [_ Him1]. destruct (sound_healthy _ _ _ _ Hs2 Hf2) as [_ Him2].
  pose proof (rooted_grows G1 G2 Hg _ (i_rooted P G1 (rf_inv _ _ _ Hr1) id1)) as R1.
  pose proof (i_rooted P G2 (rf_inv _ _ _ Hr2) id2) as R2.
  pose proof (im_log _ _ Him1 i e1 ltac:(lia) Hl1) as L1. pose proof (im_log _ _ Him2 i e2 ltac:(lia) Hl2) as L2.
  pose proof (rooted_match P G2 (rf_inv _ _ _ Hr2) _ _ _ e1 e2 R1 R2 L1 L2 Ht) as Heq.
  pose proof (im_log _ _ Him1 j x1 Hpos Hj1) as K1. pose proof (im_log _ _ Him2 j x2 Hpos Hj2) as K2.
  rewrite <-(lookup_take_lt _ (S (N.to_nat (i - 1)))) in K1 by lia.
  rewrite Heq, lookup_take_lt in K1 by lia. congruence.
Qed.

(** C6. The cluster runs Raft: the members' durable terms, votes, logs and
    commit indexes, and the messages between them, are at every moment explained
    by a run of the abstract protocol from its initial state. *)
Theorem cluster_refines net0 (net : network J) :
  initial net0 → rtc (net_step config) net0 net →
  ∃ G0 G, raft_initial G0 ∧ rtc (raft_step P) G0 G ∧ refines config net G.
Proof.
  intros Hi Hs. pose proof (initial_refines config net0 Hi) as Hr0.
  destruct (net_steps_refine config Hwf _ _ _ Hr0 Hs) as (G&HG&Hr). eexists _, G. split_and!; [|exact HG|done].
  split_and!; auto.
Qed.

End safety.
