(* ===== verification/ClusterExamples.v ===== *)
(** * ClusterExamples: a network that runs

    A scheduler for the network of [Cluster] that evaluates, sound for its step
    relation, and a group of three that elects a leader and commits entries. *)

From stdpp Require Import base numbers list gmap strings fin_maps pretty relations sorting options.
From S2P Require Import Prelude Effects Bytes StateMachine Wal Journal Store Codec Events Node NodeInv.
From S2P Require Import NodeRPC NodeSteps NodeOpen NodeProps NodeExamples Trace Raft Cluster Refine ClusterProps.

Local Open Scope N_scope.

#[export] Instance VoteRequest_eq_dec : EqDecision VoteRequest.
Proof. solve_decision. Defined.

#[export] Instance AppendRequest_eq_dec : EqDecision AppendRequest.
Proof. solve_decision. Defined.

Section runner.
Context {J : Type} `{HJ : Journal J, HC : Codec record, HP : Platform}.
Context (config : string → Config) (rt : Runtime).

(** What the scheduler does next; a packet is named by its place in the list of
    all packets. *)
Inductive event :=
  | ELocal (id : string) (c : call)
  | ERequestVote (k : nat)
  | EVoteReply (k : nat)
  | EAppendEntries (k : nat)
  | EAppendReply (to : string) (k : nat)
  | EOpen (id : string)
  | ECrash (id : string)
  | EReopen (id : string).

Definition sent_vote (net : network J) (from to : string) (req : VoteRequest) : bool :=
  existsb (λ p, match p with
                | VotePacket from' to' req' => bool_decide (from' = from ∧ to' = to ∧ req' = req)
                | _ => false
                end) (packets net).

Definition sent_append (net : network J) (from to : string) (req : AppendRequest) : bool :=
  existsb (λ p, match p with
                | AppendPacket from' to' req' => bool_decide (from' = from ∧ to' = to ∧ req' = req)
                | _ => false
                end) (packets net).

Definition is_local (c : call) : bool :=
  match c with
  | CTick | CTakeWake _ | CSubmit _ _ | CPoll _ | CCancel _ | CDrain | CSetPaused _ | CClose => true
  | _ => false
  end.

Definition net_run (e : event) (net : network J) : option (network J) :=
  match e with
  | ELocal id c =>
    match members net !! id with
    | Some (Up n) =>
      if is_local c && bool_decide (typed_call c)
      then '(_, n') ← run_call c n; Some (advance id n' [] net) else None
    | _ => None
    end
  | ERequestVote k =>
    match packets net !! k with
    | Some (VotePacket from id req) =>
      match members net !! id with
      | Some (Up n) =>
        '((resp, err), n') ← RequestVote req n;
        Some (advance id n' (replied err (VoteReply id req resp)) net)
      | _ => None
      end
    | _ => None
    end
  | EVoteReply k =>
    match packets net !! k with
    | Some (VoteReply from req resp) =>
      let id := vq_CandidateID req in
      match members net !! id with
      | Some (Up n) =>
        if sent_vote net id from req && (vr_Term resp <? two64)
        then '(_, n') ← DeliverVote (mkMessage 0 id from (Some req) None) resp None n;
             Some (advance id n' [] net)
        else None
      | _ => None
      end
    | _ => None
    end
  | EAppendEntries k =>
    match packets net !! k with
    | Some (AppendPacket from id req) =>
      match members net !! id with
      | Some (Up n) =>
        '((resp, err), n') ← AppendEntries req n;
        Some (advance id n' (replied err (AppendReply id req resp)) net)
      | _ => None
      end
    | _ => None
    end
  | EAppendReply id k =>
    match packets net !! k with
    | Some (AppendReply from req resp) =>
      match members net !! id with
      | Some (Up n) =>
        if sent_append net id from req && (ar_Term resp <? two64)
        then '(_, n') ← DeliverAppend (mkMessage (busy_of n from) id from None (Some req)) resp None n;
             Some (advance id n' [] net)
        else None
      | _ => None
      end
    | _ => None
    end
  | EOpen id =>
    match members net !! id with
    | Some (Fresh j) =>
      match OpenWithRuntime (config id) false rt j with
      | Some (inr n') => Some (advance id n' [] net)
      | _ => None
      end
    | _ => None
    end
  | ECrash id =>
    match members net !! id with
    | Some (Up n) => Some (mkNetwork (<[id := Down n]> (members net)) (packets net))
    | _ => None
    end
  | EReopen id =>
    match members net !! id with
    | Some (Down n) =>
      match OpenWithRuntime (config id) false rt (st_wal (n_store n)) with
      | Some (inr n') => Some (advance id n' [] net)
      | _ => None
      end
    | _ => None
    end
  end.

Fixpoint net_runs (es : list event) (net : network J) : option (network J) :=
  match es with
  | [] => Some net
  | e :: es' => net' ← net_run e net; net_runs es' net'
  end.

Lemma sent_vote_in net from to req :
  sent_vote net from to req = true → VotePacket from to req ∈ packets net.
Proof.
  unfold sent_vote. rewrite existsb_exists. intros (p&Hin&Hp). apply list_elem_of_In in Hin.
  destruct p; try done. by apply bool_decide_eq_true in Hp as (->&->&->).
Qed.

Lemma sent_append_in net from to req :
  sent_append net from to req = true → AppendPacket from to req ∈ packets net.
Proof.
  unfold sent_append. rewrite existsb_exists. intros (p&Hin&Hp). apply list_elem_of_In in Hin.
  destruct p; try done. by apply bool_decide_eq_true in Hp as (->&->&->).
Qed.

Lemma net_run_step e net net' : net_run e net = Some net' → net_step config net net'.
Proof.
  destruct e as [id c|k|k|k|id k|id|id|id]; cbn [net_run].
  - destruct (members net !! id) as [[j|n|n]|] eqn:Hm; try done.
    destruct (is_local c) eqn:Hl; [|done]. cbn [andb].
    destruct (bool_decide (typed_call c)) eqn:Hty; [|done].
    destruct (run_call c n) as [[[] n']|] eqn:Hrun; [|done]. intros [= <-].
    apply bool_decide_eq_true in Hty.
    apply (net_local config net id n c n' Hm); [by destruct c|done|done].
  - destruct (packets net !! k) as [[from id req| | |]|] eqn:Hk; try done.
    destruct (members net !! id) as [[j|n|n]|] eqn:Hm; try done.
    destruct (RequestVote req n) as [[[resp err] n']|] eqn:Hrun; [|done]. intros [= <-].
    apply list_elem_of_lookup_2 in Hk. by eapply net_request_vote.
  - destruct (packets net !! k) as [[|from req resp| |]|] eqn:Hk; try done.
    destruct (members net !! vq_CandidateID req) as [[j|n|n]|] eqn:Hm; try done.
    destruct (sent_vote _ _ _ _) eqn:Hs; [|done]. cbn [andb].
    destruct (N.ltb_spec (vr_Term resp) two64) as [Ht|]; [|done].
    destruct (DeliverVote _ resp None n) as [[[] n']|] eqn:Hrun; [|done]. intros [= <-].
    apply list_elem_of_lookup_2 in Hk.
    eapply (net_deliver_vote config net _ n (mkMessage 0 (vq_CandidateID req) from (Some req) None)
      req resp None); [done|done|by apply sent_vote_in|done|done|done].
  - destruct (packets net !! k) as [[| |from id req|]|] eqn:Hk; try done.
    destruct (members net !! id) as [[j|n|n]|] eqn:Hm; try done.
    destruct (AppendEntries req n) as [[[resp err] n']|] eqn:Hrun; [|done]. intros [= <-].
    apply list_elem_of_lookup_2 in Hk. by eapply net_append_entries.
  - destruct (packets net !! k) as [[| | |from req resp]|] eqn:Hk; try done.
    destruct (members net !! id) as [[j|n|n]|] eqn:Hm; try done.
    destruct (sent_append _ _ _ _) eqn:Hs; [|done]. cbn [andb].
    destruct (N.ltb_spec (ar_Term resp) two64) as [Ht|]; [|done].
    destruct (DeliverAppend _ resp None n) as [[[] n']|] eqn:Hrun; [|done]. intros [= <-].
    apply list_elem_of_lookup_2 in Hk.
    eapply (net_deliver_append config net _ n (mkMessage (busy_of n from) id from None (Some req))
      req resp None); [done|done|by apply sent_append_in|done|done|done].
  - destruct (members net !! id) as [[j|n|n]|] eqn:Hm; try done.
    destruct (OpenWithRuntime _ _ _ j) as [[|n']|] eqn:Ho; try done. intros [= <-].
    by eapply net_open.
  - destruct (members net !! id) as [[j|n|n]|] eqn:Hm; try done. intros [= <-]. by eapply net_crash.
  - destruct (members net !! id) as [[j|n|n]|] eqn:Hm; try done.
    destruct (OpenWithRuntime _ _ _ (st_wal (n_store n))) as [[|n']|] eqn:Ho; try done. intros [= <-].
    by eapply net_reopen.
Qed.

Lemma net_runs_steps es net net' : net_runs es net = Some net' → rtc (net_step config) net net'.
Proof.
  revert net. induction es as [|e es IH]; intros net H; cbn [net_runs] in H.
  { injection H as <-. apply rtc_refl. }
  destruct (net_run e net) as [net1|] eqn:He; [|done]. cbn [mbind option_bind] in H.
  eapply rtc_l; [by eapply net_run_step|by apply IH].
Qed.

(** Whether [id] leads in term [t]. *)
Definition leads (net : network J) (id : string) (t : N) : bool :=
  match members net !! id with
  | Some (Up n) => bool_decide (n_role n = leader) && (term_of n =? t)
  | _ => false
  end.

Lemma leads_up net id t :
  leads net id t = true → ∃ n, members net !! id = Some (Up n) ∧ n_role n = leader ∧ term_of n = t.
Proof.
  unfold leads. destruct (members net !! id) as [[j|n|n]|]; try done.
  intros [Hr%bool_decide_eq_true Ht%N.eqb_eq]%andb_true_iff. by exists n.
Qed.

(** Whether the member [id] is up and passes a test. *)
Definition up_and (net : network J) (id : string) (f : Node J → bool) : bool :=
  match members net !! id with Some (Up n) => f n | _ => false end.

Lemma up_and_true net id f :
  up_and net id f = true → ∃ n, members net !! id = Some (Up n) ∧ f n = true.
Proof. unfold up_and. destruct (members net !! id) as [[j|n|n]|]; try done. by exists n. Qed.

(** A healthy member in the role [r] of term [t] that has committed up to [c] and
    applied it, and holds the entry [e]. *)
Definition holding (r : role) (t c : N) (e : Entry) (n : Node J) : bool :=
  bool_decide (n_role n = r) && bool_decide (term_of n = t) && bool_decide (n_failed n = None) &&
  bool_decide (commit_of n = c) && bool_decide (n_applied n = c) && bool_decide (base_of n = 0) &&
  bool_decide (log_at (n_state n) (e_Index e) = Some e).

Lemma holding_true r t c e n : holding r t c e n = true →
  n_role n = r ∧ term_of n = t ∧ n_failed n = None ∧ commit_of n = c ∧ n_applied n = c ∧ base_of n = 0 ∧
  log_at (n_state n) (e_Index e) = Some e.
Proof.
  unfold holding. rewrite !andb_true_iff. intros [[[[[[H1 H2] H3] H4] H5] H6] H7].
  by repeat match goal with H : bool_decide _ = true |- _ => apply bool_decide_eq_true in H end.
Qed.

End runner.

(** ** A group of three *)

#[local] Existing Instance ex_platform.
#[local] Existing Instance ex_platform_laws.

Definition ex_empty : memoryDisk := mkMemoryDisk [] "".
Definition ex_network : network memoryDisk :=
  mkNetwork {["a" := Fresh ex_empty; "b" := Fresh ex_empty; "c" := Fresh ex_empty]} [].

(** [a] is elected in term one with the vote of [b], and keeps its office while
    [c] opens and [b] ends and is opened again. *)
Definition ex_elect : list event :=
  [EOpen "a"; EOpen "b"; ELocal "a" CTick; ERequestVote 0; EVoteReply 2].
Definition ex_reign : list event := [EOpen "c"; ECrash "b"; EReopen "b"; ELocal "b" CDrain].

Definition ex_elected : network memoryDisk :=
  default ex_network (net_runs ex_cfg ex_rt ex_elect ex_network).
Definition ex_reigned : network memoryDisk :=
  default ex_network (net_runs ex_cfg ex_rt ex_reign ex_elected).

Lemma ex_wf_cluster : wf_cluster ex_cfg.
Proof. split; [done|done|done|]. intros id. repeat constructor. Qed.

Lemma ex_initial : initial ex_network.
Proof.
  split; [done|]. intros id x Hx. exists ex_empty. split.
  - unfold ex_network in Hx. cbn [members] in Hx. rewrite !lookup_insert_Some in Hx.
    by destruct Hx as [[_ <-]|[_ [[_ <-]|[_ [_ <-]%lookup_singleton_Some]]]].
  - exact (eq_refl (@nil bytes)).
Qed.

Lemma ex_runs es net :
  match net_runs ex_cfg ex_rt es net with Some _ => true | None => false end = true →
  rtc (net_step ex_cfg) net (default ex_network (net_runs ex_cfg ex_rt es net)).
Proof.
  intros H. destruct (net_runs ex_cfg ex_rt es net) as [net'|] eqn:He; [|done].
  exact (net_runs_steps ex_cfg ex_rt es net net' He).
Qed.

Lemma ex_elected_steps : rtc (net_step ex_cfg) ex_network ex_elected.
Proof. apply ex_runs. vm_cast_no_check (@eq_refl bool true). Qed.

Lemma ex_reigned_steps : rtc (net_step ex_cfg) ex_elected ex_reigned.
Proof. apply ex_runs. vm_cast_no_check (@eq_refl bool true). Qed.

(** [a] commits the entry of its election and a command with the help of [b],
    which has not been told that the command is committed when [a] ends; [b]
    succeeds [a] with the vote of [c], and commits with [c]. *)
Definition ex_write : list event :=
  [EOpen "c"; EAppendEntries 5; EAppendReply "a" 7; ELocal "a" (CSubmit (Some ex_command) None);
   EAppendEntries 12; EAppendReply "a" 18; EAppendEntries 24; EAppendReply "a" 25].
Definition ex_succeed : list event :=
  [ECrash "a"; ELocal "b" CTick; ERequestVote 34; EVoteReply 35;
   EAppendEntries 39; EAppendReply "b" 40; EAppendEntries 45; EAppendReply "b" 46].
Definition ex_entry : Entry := mkEntry 2 1 (Some ex_command).

Definition ex_written : network memoryDisk :=
  default ex_network (net_runs ex_cfg ex_rt ex_write ex_elected).
Definition ex_succeeded : network memoryDisk :=
  default ex_network (net_runs ex_cfg ex_rt ex_succeed ex_written).

Lemma ex_written_steps : rtc (net_step ex_cfg) ex_network ex_written.
Proof. etransitivity; [exact ex_elected_steps|]. apply ex_runs. vm_cast_no_check (@eq_refl bool true). Qed.

Lemma ex_succeeded_steps : rtc (net_step ex_cfg) ex_written ex_succeeded.
Proof. apply ex_runs. vm_cast_no_check (@eq_refl bool true). Qed.

Lemma ex_written_holds : up_and ex_written "a" (holding leader 1 2 ex_entry) = true.
Proof. vm_cast_no_check (@eq_refl bool true). Qed.

Lemma ex_succeeded_holds : up_and ex_succeeded "b" (holding leader 2 3 ex_entry) = true.
Proof. vm_cast_no_check (@eq_refl bool true). Qed.

#[local] Opaque ex_elected ex_reigned ex_written ex_succeeded.

(** The two leaders and what is computed of them. *)
Lemma ex_leaders : ∃ n1 n2 : Node memoryDisk,
  members ex_written !! "a" = Some (Up n1) ∧ members ex_succeeded !! "b" = Some (Up n2) ∧
  holding leader 1 2 ex_entry n1 = true ∧ holding leader 2 3 ex_entry n2 = true.
Proof.
  destruct (up_and_true _ _ _ ex_written_holds) as (n1&H1&F1).
  destruct (up_and_true _ _ _ ex_succeeded_holds) as (n2&H2&F2).
  exists n1, n2. exact (conj H1 (conj H2 (conj F1 F2))).
Qed.

Lemma election_safety_witness :
  leads ex_elected "a" 1 = true ∧ leads ex_reigned "a" 1 = true ∧
  ∀ id n, members ex_reigned !! id = Some (Up n) → n_role n = leader → term_of n = 1 → id = "a".
Proof.
  assert (leads ex_elected "a" 1 = true) as H1 by (vm_cast_no_check (@eq_refl bool true)).
  split; [exact H1|split; [vm_cast_no_check (@eq_refl bool true)|]].
  intros id n Hup Hl Ht. destruct (leads_up _ _ _ H1) as (n1&Hup1&Hl1&Ht1). symmetry.
  exact (election_safety ex_cfg ex_wf_cluster ex_network ex_elected ex_reigned "a" id n1 n
    ex_initial ex_elected_steps ex_reigned_steps Hup1 Hup Hl1 Hl (eq_trans Ht1 (eq_sym Ht))).
Defined.

Lemma state_machine_safety_witness :
  ∃ (n1 n2 : Node memoryDisk) hist1 hist2,
    members ex_written !! "a" = Some (Up n1) ∧ members ex_succeeded !! "b" = Some (Up n2) ∧
    explains hist1 n1 ∧ explains hist2 n2 ∧ hist1 `prefix_of` hist2 ∧ lenN hist1 = 2 ∧ lenN hist2 = 3.
Proof.
  destruct ex_leaders as (n1&n2&H1&H2&F1&F2).
  apply holding_true in F1 as (_&_&_&_&A1&_). apply holding_true in F2 as (_&_&_&_&A2&_).
  destruct (state_machine_safety ex_cfg ex_wf_cluster ex_network ex_written ex_succeeded "a" "b" n1 n2
    ex_initial ex_written_steps ex_succeeded_steps H1 H2) as (h1&h2&E1&E2&Hp).
  exists n1, n2, h1, h2. pose proof (ex_length _ _ E1) as L1. pose proof (ex_length _ _ E2) as L2.
  rewrite A1 in L1. rewrite A2 in L2. refine (conj H1 (conj H2 (conj E1 (conj E2 (conj _ (conj L1 L2)))))). destruct Hp as [?|Hp]; [done|].
  apply prefix_length in Hp. unfold lenN in *. lia.
Defined.

Lemma committed_agree_witness :
  ∃ (n1 n2 : Node memoryDisk),
    members ex_written !! "a" = Some (Up n1) ∧ members ex_succeeded !! "b" = Some (Up n2) ∧
    ∀ e, log_at (n_state n2) 2 = Some e → e = ex_entry.
Proof.
  destruct ex_leaders as (n1&n2&H1&H2&F1&F2). exists n1, n2. split; [exact H1|split; [exact H2|]]. intros e He.
  apply holding_true in F1 as (_&_&_&C1&_&_&L1). apply holding_true in F2 as (_&_&_&C2&_&_&_). symmetry.
  apply (committed_agree ex_cfg ex_wf_cluster ex_network ex_written ex_succeeded "a" "b" n1 n2 2
    ex_entry e ex_initial ex_written_steps ex_succeeded_steps H1 H2); [done|lia|lia|exact L1|exact He].
Defined.

Lemma leader_completeness_witness :
  ∃ (n2 : Node memoryDisk), members ex_succeeded !! "b" = Some (Up n2) ∧ n_role n2 = leader ∧
    log_at (n_state n2) 2 = Some ex_entry.
Proof.
  destruct ex_leaders as (n1&n2&H1&H2&F1&F2). exists n2.
  apply holding_true in F1 as (_&T1&Hf&C1&_&_&L1). apply holding_true in F2 as (R2&T2&_&_&_&B2&_).
  destruct (leader_completeness ex_cfg ex_wf_cluster ex_network ex_written ex_succeeded "a" "b" n1 n2 2
    ex_entry ex_initial ex_written_steps ex_succeeded_steps H1 H2 Hf R2 ltac:(lia) ltac:(done) ltac:(lia) L1)
    as [_ Hl]. refine (conj H2 (conj R2 (Hl _))). rewrite B2. lia.
Defined.

Lemma log_matching_witness :
  ∃ (n1 n2 : Node memoryDisk),
    members ex_written !! "a" = Some (Up n1) ∧ members ex_succeeded !! "b" = Some (Up n2) ∧
    ∀ x1 x2, log_at (n_state n1) 1 = Some x1 → log_at (n_state n2) 1 = Some x2 → x1 = x2.
Proof.
  destruct ex_leaders as (n1&n2&H1&H2&F1&F2). exists n1, n2. split; [exact H1|split; [exact H2|]]. intros x1 x2.
  apply holding_true in F1 as (_&_&Hf1&_&_&_&L1). apply holding_true in F2 as (_&_&Hf2&_&_&_&L2).
  apply (log_matching ex_cfg ex_wf_cluster ex_network ex_written ex_succeeded "a" "b" n1 n2 2 ex_entry ex_entry
    ex_initial ex_written_steps ex_succeeded_steps H1 H2 Hf1 Hf2 L1 L2); [done|lia|done].
Defined.

Lemma cluster_refines_witness :
  ∃ G0 G, raft_initial G0 ∧ rtc (raft_step (dom (table ex_cfg))) G0 G ∧ refines ex_cfg ex_written G.
Proof. exact (cluster_refines ex_cfg ex_wf_cluster ex_network ex_written ex_initial ex_written_steps). Defined.
