(* ===== verification/Linear.v ===== *)
(** * Linear: the clients of the cluster see one register after another

    A run of the cluster with what its clients observe: submissions that were
    given a ticket, outcomes that were received for tickets, and processes that
    ended.  The operations of such a history take effect one after the other on
    a single sequence of log entries, each between its submission and its
    outcome: the cluster is linearizable, whichever members its clients talk to
    and whatever messages, disks and processes do in between. *)

From stdpp Require Import base numbers list gmap strings fin_maps fin_map_dom pretty relations sorting options.
From S2P Require Import Prelude Effects Bytes StateMachine Wal Journal Store Events Node NodeInv.
From S2P Require Import NodeRPC NodeSteps NodeOpen NodeProps Trace Raft Cluster Refine ClusterProps.

Local Open Scope N_scope.
#[local] Set Default Proof Using "Type*".

(** ** A submission *)

Section submission.
Context {J : Type} `{HJ : Journal J, HJL : !JournalLaws J, HC : Codec record, HCL : !CodecLaws}.
Implicit Type n : Node J.

(** The leader [n] has appended the entry of the command, and [n1] is waiting
    for it on a new channel. *)
Record awaiting n n1 (command : option Command) (readKey : option string) (t : Ticket) : Prop := {
  aw_leader : n_role n = leader;
  aw_healthy : n_failed n = None;
  aw_index : t_Index t = last_index (n_state n) + 1;
  aw_done : t_done t = n_newchan n;
  aw_node : n1 = registered (set_nstore (n_store n1) n) (t_Index t) (t_done t) (mkWaiter readKey (t_done t));
  aw_term : term_of n1 = term_of n;
  aw_entry : log_at (n_state n1) (t_Index t) = Some (mkEntry (t_Index t) (term_of n) command);
}.

Lemma wp_both {S A} (m : M S A) (Q1 Q2 : A → S → Prop) s :
  wp True m Q1 s → wp True m Q2 s → wp True m (λ a s', Q1 a s' ∧ Q2 a s') s.
Proof using Type. unfold wp. by destruct (m s) as [[a s']|]. Qed.

Lemma submit_awaits ev command readKey t n n' :
  Inv n → (∀ c, command = Some c → rep_command c) →
  submitLocked command readKey n = Some (inr t, n') →
  ∃ n1, moves ev n n1 ∧ moves ev n1 n' ∧ awaiting n n1 command readKey t.
Proof.
  intros HI Hrep Hrun.
  enough (wp True (submitLocked command readKey) (λ r n', ∀ t, r = inr t →
    ∃ n1, moves ev n n1 ∧ moves ev n1 n' ∧ awaiting n n1 command readKey t) n) as H.
  { unfold wp in H. rewrite Hrun in H. by apply H. }
  clear Hrun n' t. unfold submitLocked. apply wp_bind, wp_get.
  destruct (availableLocked n) eqn:Hav; cbn [negb]; [|by apply wp_ret]. pose proof (available_failed n Hav) as Hnf.
  case_bool_decide as Hrole; [by apply wp_ret|].
  match goal with |- context [match ?x with Some err => mret (inl err) | None => _ end] =>
    destruct x eqn:Hval end; [by apply wp_ret|].
  destruct (_ <=? _); [by apply wp_ret|].
  set (e := mkEntry _ _ _). fold (term_of n) (vote_of n) (commit_of n). apply wp_bind.
  eapply wp_mono; [apply (wp_both _
    (λ b n1, b = true → moves ev n n1) (λ b n1, b = true → appended n n1 e))|].
  - assert (purpose ev n (term_of n) (vote_of n) (commit_of n) (e_Index e) [e]) as Hp.
    { apply (for_append ev n command); [done|]. intros c ->. split; [by apply Hrep|done]. }
    apply (persist_traced ev); [done|by constructor| |done].
    intros s' Hs _ _ _. by eapply moves_one, mv_save.
  - apply (persist_entry_wp True command); try done. by left.
  - intros ok n1 [Hm Ha]. destruct ok; cbn [negb]; [|by apply wp_ret].
    specialize (Hm eq_refl). specialize (Ha eq_refl).
    apply wp_bind. unfold make_chan. apply wp_bind, wp_get. apply wp_bind, wp_modify.
    apply wp_bind, wp_modify, wp_ret. apply wp_bind, wp_get.
    apply wp_bind, wp_modify. apply wp_bind, wp_modify. apply wp_bind, emit_wp. intros evs rd.
    set (n2 := registered n1 (e_Index e) (n_newchan n1) (mkWaiter readKey (n_newchan n1))).
    match goal with |- wp _ _ _ ?x => set (n3 := x) end.
    assert (quiet n2 n3) as H23.
    { split; try done; [by left| |by apply tended_same]. intros id Hid. unfold match_of. cbn. by rewrite lookup_insert_ne. }
    assert (moves ev n n2) as H02 by (etransitivity; [exact Hm|by apply moves_one, (mv_await ev n1)]).
    clearbody n3. apply wp_bind. eapply wp_mono; [apply (traced_advanceCommit ev)|]. cbn beta. intros [] n4 H4.
    apply wp_bind. eapply wp_mono; [apply (traced_kick ev)|]. cbn beta. intros [] n5 H5. apply wp_ret.
    intros t [= <-]. exists n2. split_and!; [done| |].
    + etransitivity; [by apply moves_quiet|]. by etransitivity.
    + pose proof (app_core _ _ _ Ha) as Hcore.
      assert (n_newchan n1 = n_newchan n) as Hnc by (by rewrite Hcore).
      split; cbn [t_Index t_done]; rewrite ?Hnc; try done.
      * apply (app_index _ _ _ Ha).
      * unfold n2. rewrite Hnc. cbn [n_store registered set_pending set_newchan set_chans]. by rewrite <-Hcore.
      * apply (app_term _ _ _ Ha).
      * change (log_at (n_state n1) (e_Index e) = Some e). rewrite (app_index _ _ _ Ha). apply Ha.
Qed.

End submission.

(** ** Histories *)

(** What is observed of a run: a submission that was given a ticket, an outcome
    received for a ticket, a process that ended; all else is silent. *)
Inductive observation :=
  | Submitted (id : string) (command : option Command) (readKey : option string) (t : Ticket)
  | Answered (id : string) (t : Ticket) (out : outcome)
  | Stopped (id : string)
  | Silent.

(** Of the events after the [p]-th and before the [q]-th, none ends the process
    of the member. *)
Definition undisturbed (h : list observation) (p q : nat) (id : string) : Prop :=
  Forall (λ ev, ev ≠ Stopped id) (take (q - S p) (drop (S p) h)).

(** A client's operation: submitted to a member, and answered by it. *)
Record operation (h : list observation) (p q : nat) (id : string) (command : option Command)
    (readKey : option string) (t : Ticket) (out : outcome) : Prop := {
  op_submitted : h !! p = Some (Submitted id command readKey t);
  op_answered : h !! q = Some (Answered id t out);
  op_order : (p < q)%nat;
  op_undisturbed : undisturbed h p q id;
}.

(** The operation took effect on the history [H] as the entry its ticket names:
    its outcome is what the command does to the register that the entries
    before it make. *)
Definition took_effect (H : list Entry) (command : option Command) (readKey : option string)
    (t : Ticket) (out : outcome) : Prop :=
  ∃ term, let e := mkEntry (t_Index t) term command in
    H !! N.to_nat (t_Index t - 1) = Some e ∧
    out = answer (history_machine (take (N.to_nat (t_Index t - 1)) H)) e (mkWaiter readKey (t_done t)).

#[export] Instance ticket_dec : EqDecision Ticket.
Proof. solve_decision. Defined.

#[export] Instance stopped_dec id (ev : observation) : Decision (ev ≠ Stopped id).
Proof.
  destruct ev as [| |id'|]; try (by left). destruct (decide (id' = id)) as [->|Hne]; [by right; intros []|].
  left. congruence.
Defined.

#[export] Instance undisturbed_dec h p q id : Decision (undisturbed h p q id).
Proof. unfold undisturbed. apply _. Defined.

Lemma undisturbed_snoc h x p q id :
  (q ≤ length h)%nat → undisturbed (h ++ [x]) p q id ↔ undisturbed h p q id.
Proof.
  intros Hq. unfold undisturbed. destruct (decide (S p ≤ length h)%nat) as [Hp|Hp].
  - rewrite drop_app_le by done. rewrite take_app_le by (rewrite length_drop; lia). done.
  - replace (q - S p)%nat with 0%nat by lia. done.
Qed.

(** Nothing has ended the process until the end. *)
Lemma undisturbed_last h x p id :
  (p < length h)%nat → undisturbed (h ++ [x]) p (length (h ++ [x])) id →
  undisturbed h p (length h) id ∧ x ≠ Stopped id.
Proof.
  intros Hp. unfold undisturbed. rewrite drop_app_le by lia. rewrite !take_ge by (rewrite ?length_app, ?length_drop, ?length_app; lia).
  rewrite Forall_app, Forall_singleton. done.
Qed.

Lemma lookup_snoc {A} (l : list A) x p y :
  (l ++ [x]) !! p = Some y → l !! p = Some y ∨ p = length l ∧ y = x.
Proof.
  intros [?|[Hl Hx]]%lookup_app_Some; [by left|right]. apply list_lookup_singleton_Some in Hx as [? <-].
  split; [lia|done].
Qed.

Section histories.
Context {J : Type} `{HJ : Journal J, HJL : !JournalLaws J, HC : Codec record, HCL : !CodecLaws}.
Context `{HP : Platform, HPL : !PlatformLaws}.
Context (config : string → Config).
Implicit Type n : Node J.
Implicit Type net : network J.

Inductive step_event net : observation → network J → Prop :=
  | sv_submitted id n command readKey t n' :
      members net !! id = Some (Up n) → typed_call (CSubmit command readKey) →
      submitLocked command readKey n = Some (inr t, n') →
      step_event net (Submitted id command readKey t) (advance id n' [] net)
  | sv_answered id n t out n' :
      members net !! id = Some (Up n) → Poll t n = Some (Some out, n') →
      step_event net (Answered id t out) (advance id n' [] net)
  | sv_stopped id n :
      members net !! id = Some (Up n) →
      step_event net (Stopped id) (mkNetwork (<[id := Down n]> (members net)) (packets net))
  | sv_silent net' :
      net_step config net net' →
      (∀ id n, members net !! id = Some (Up n) → ∃ n', members net' !! id = Some (Up n')) →
      step_event net Silent net'.

Inductive run net0 : list observation → network J → Prop :=
  | run_start : run net0 [] net0
  | run_then h net ev net' : run net0 h net → step_event net ev net' → run net0 (h ++ [ev]) net'.

(** Observed or not, a step is a step of the network. *)
Lemma step_event_net net ev net' : step_event net ev net' → net_step config net net'.
Proof using Type.
  intros [id n command readKey t n' Hup Hty Hrun|id n t out n' Hup Hrun|id n Hup|net1 Hs _].
  - apply (net_local config net id n (CSubmit command readKey)); [done..|]. cbn [run_call].
    by rewrite (bind_ok _ _ _ _ _ Hrun).
  - apply (net_local config net id n (CPoll t)); [done..|]. cbn [run_call]. by rewrite (bind_ok _ _ _ _ _ Hrun).
  - by apply (net_crash config net id n).
  - done.
Qed.

Lemma run_net net0 h net : run net0 h net → rtc (net_step config) net0 net.
Proof using Type.
  induction 1 as [|h net ev net' _ IH Hs]; [done|]. eapply rtc_r; [exact IH|]. by eapply step_event_net.
Qed.

(** A member that runs, runs on unless its process ends. *)
Lemma step_event_up net ev net' id n :
  step_event net ev net' → members net !! id = Some (Up n) → ev ≠ Stopped id →
  ∃ n', members net' !! id = Some (Up n').
Proof using Type.
  intros Hs Hup Hev. destruct Hs as [v n1 command readKey t n' Hv _ _|v n1 t out n' Hv _|v n1 Hv|net1 _ Hon].
  - destruct (decide (v = id)) as [->|Hne]; cbn [members advance]; [exists n'; by rewrite lookup_insert_eq|].
    exists n. by rewrite lookup_insert_ne.
  - destruct (decide (v = id)) as [->|Hne]; cbn [members advance]; [exists n'; by rewrite lookup_insert_eq|].
    exists n. by rewrite lookup_insert_ne.
  - exists n. cbn [members]. rewrite lookup_insert_ne by congruence. done.
  - by eapply Hon.
Qed.

End histories.

(** ** Every operation takes effect once, in time *)

Section linear.
Context {J : Type} `{HJ : Journal J, HJL : !JournalLaws J, HC : Codec record, HCL : !CodecLaws}.
Context `{HP : Platform, HPL : !PlatformLaws}.
Context (config : string → Config) (Hwf : wf_cluster config).
Implicit Type n : Node J.
Implicit Type net : network J.
Notation P := (dom (table config)).
Notation raft_step := (raft_step P).
Notation inv := (inv P).
Notation refines := (refines config).
Notation tends := (tends (table config)).
Notation settled := (settled P).

Lemma settled_rooted G t l : inv G → settled G t l → rooted G l.
Proof using Type.
  intros HI [->|(t1&i&_&Hc&Hp)]; [by intros i e ?|].
  destruct Hc as [(rg&_&Hrg&_) _]. unfold prefix_at in Hp. rewrite Hrg in Hp.
  eapply rooted_prefix; [exact Hp|]. eapply rooted_prefix; [apply prefix_take|].
  apply (i_reign P G HI _ _ Hrg).
Qed.

(** The entry a ticket names is in the log of the leader of its term. *)
Definition entered (G : group) (term i : N) (e : Entry) : Prop :=
  0 < i ∧ ∃ rg, g_reign G term = Some rg ∧ rg_log rg !! N.to_nat (i - 1) = Some e.

Lemma entered_grows G G' term i e : grows G G' → entered G term i e → entered G' term i e.
Proof using Type.
  intros Hg (Hi&rg&Hrg&He). destruct (gr_reign _ _ Hg _ _ Hrg) as (rg'&Hrg'&_&_&_&Hp).
  split; [done|]. exists rg'. split; [done|]. by eapply prefix_lookup_Some.
Qed.

(** The member's log held no entry at the index when the ticket was given. *)
Definition vacant (G : group) (term i : N) : Prop :=
  ∃ rg, g_reign G term = Some rg ∧ length (rg_log rg) = N.to_nat (i - 1).

Lemma vacant_entered G term i e : vacant G term i → ¬ entered G term i e.
Proof using Type.
  intros (rg&Hrg&Hlen) (_&rg'&Hrg'&He). rewrite Hrg in Hrg'. injection Hrg' as <-.
  apply lookup_lt_Some in He. lia.
Qed.

Lemma vacant_settled G term i t l x :
  inv G → vacant G term i → settled G t l → l !! N.to_nat (i - 1) = Some x → e_Term x ≠ term.
Proof using Type.
  intros HI (rg&Hrg&Hlen) Hs Hx <-. destruct (settled_rooted G t l HI Hs _ x Hx) as (rg'&Hrg'&Hp).
  rewrite Hrg in Hrg'. injection Hrg' as <-. apply prefix_length in Hp. rewrite length_take in Hp.
  apply lookup_lt_Some in Hx. lia.
Qed.

(** *** The step of a submission *)

Lemma awaiting_tends G id n n1 command readKey t :
  Inv n → sound (table config) G id n1 → awaiting n n1 command readKey t →
  tends G id (t_done t) (t_Index t) (mkWaiter readKey (t_done t)) (mkEntry (t_Index t) (term_of n) command) n1.
Proof.
  intros HI Hs [A1 A2 A3 A4 A5 A6 A7]. pose proof (inv_core n HI) as H0.
  assert (n_failed n1 = None) as Hf by (by rewrite A5).
  destruct (sound_healthy _ _ _ _ Hs Hf) as [_ Him]. split.
  - rewrite A5. cbn. lia.
  - rewrite A5. cbn. intros j v [[<- <-]|[_ Hj]]%lookup_insert_Some Hd.
    + split_and!; [done|done|lia|]. apply (im_log _ _ Him); [lia|done].
    + destruct (inv_pending n H0 _ _ Hj) as (_&_&Hc). rewrite Hd, A4, (inv_fresh n H0) in Hc by done. done.
  - rewrite A5. cbn. intros out [[_ [=]]|[Hne _]]%lookup_insert_Some. congruence.
Qed.

Lemma submission_refines net G id n command readKey t n' :
  refines net G → members net !! id = Some (Up n) → typed_call (CSubmit command readKey) →
  submitLocked command readKey n = Some (inr t, n') →
  let e := mkEntry (t_Index t) (term_of n) command in
  let net' := advance id n' [] net in
  ∃ G', rtc raft_step G G' ∧ refines net' G' ∧ attends_all config net G net' G' ∧
    tends G' id (t_done t) (t_Index t) (mkWaiter readKey (t_done t)) e n' ∧
    vacant G (term_of n) (t_Index t) ∧ entered G' (term_of n) (t_Index t) e.
Proof.
  intros Hr Hup Hty Hrun e net'. destruct (rf_up _ _ _ Hr id n Hup) as (Hok&Hs&_).
  pose proof (rf_inv _ _ _ Hr) as HI. destruct (nk_quiescent _ _ _ Hok) as [HIn _].
  assert (∀ c, command = Some c → rep_command c) as Hrep by (by intros c ->).
  destruct (submit_awaits (heard config G id) command readKey t n n' HIn Hrep Hrun) as (n1&Hm1&Hm2&Ha).
  assert (post n n') as Hp.
  { apply (call_post config net G Hr id n Hup (CSubmit command readKey)); [done|]. cbn [run_call].
    by rewrite (bind_ok _ _ _ _ _ Hrun). }
  pose proof (post_node_ok config id n n' Hok Hp) as Hok'.
  assert (evidence_ok P (heard config G id) G id) as Hev by (by split).
  destruct (moves_attended (table config) _ G id n n1 HI Hev Hs Hm1) as (G1&Ho1&Hs1&Ha1).
  destruct (raft_steps_inv P G G1 HI (os_steps _ _ _ _ Ho1)) as [Hg1 HI1].
  pose proof (evidence_ok_grows P _ G G1 id Hg1 Hev) as Hev1.
  destruct (moves_attended (table config) _ G1 id n1 n' HI1 Hev1 Hs1 Hm2) as (G2&Ho2&Hs2&Ha2).
  destruct (raft_steps_inv P G1 G2 HI1 (os_steps _ _ _ _ Ho2)) as [Hg2 HI2].
  pose proof (own_steps_trans P id G G1 G2 HI1 HI Ho1 Ho2) as Ho.
  pose proof (awaiting_tends G1 id n n1 command readKey t HIn Hs1 Ha) as Ht.
  exists G2. split_and!.
  - apply Ho.
  - eapply advance_refines; try done. by intros p ?%elem_of_nil.
  - eapply (one_attends config Hwf net G _ G2 id); [done|done|done|]. intros n0 n2 Hn0 [= <-].
    rewrite Hup in Hn0. injection Hn0 as <-. intros c i w x Hx. by apply Ha2, Ha1.
  - by apply Ha2.
  - destruct (sound_leader _ _ _ _ HI Hs (aw_leader _ _ _ _ _ Ha)) as (rg&Hrg&_&Hlog&Him&_).
    exists rg. split; [done|]. rewrite <-Hlog, (im_length _ _ Him), (aw_index _ _ _ _ _ Ha). lia.
  - apply (entered_grows G1 G2); [done|]. split; [rewrite (aw_index _ _ _ _ _ Ha); lia|].
    assert (n_role n1 = leader) as Hl1 by (rewrite (aw_node _ _ _ _ _ Ha); apply (aw_leader _ _ _ _ _ Ha)).
    destruct (sound_leader _ _ _ _ HI1 Hs1 Hl1) as (rg&Hrg&_&Hlog&Him&_).
    rewrite (aw_term _ _ _ _ _ Ha) in Hrg. exists rg. split; [done|]. rewrite <-Hlog.
    apply (im_log _ _ Him); [rewrite (aw_index _ _ _ _ _ Ha); lia|apply Ha].
Qed.

(** *** The account of a history *)

(** Submissions with the terms of their entries. *)
Definition asked (gh : list (observation * N)) (p : nat) id command readKey t (term : N) : Prop :=
  gh !! p = Some (Submitted id command readKey t, term).

Definition effect (H : list Entry) command readKey t term out : Prop :=
  let e := mkEntry (t_Index t) term command in
  H !! N.to_nat (t_Index t - 1) = Some e ∧
  out = answer (history_machine (take (N.to_nat (t_Index t - 1)) H)) e (mkWaiter readKey (t_done t)).

Lemma effect_prefix H H' command readKey t term out :
  H `prefix_of` H' → effect H command readKey t term out → effect H' command readKey t term out.
Proof using Type.
  intros [k ->] [H1 ->]. split; [by apply lookup_app_l_Some|]. apply lookup_lt_Some in H1.
  by rewrite take_app_le by lia.
Qed.

Record account (gh : list (observation * N)) (H : list Entry) net (G : group) : Prop := {
  ac_refines : refines net G;
  ac_settled : ∃ t0, settled G t0 H;
  ac_entered : ∀ p id command readKey t term, asked gh p id command readKey t term →
    entered G term (t_Index t) (mkEntry (t_Index t) term command);
  ac_live : ∀ p id command readKey t term, asked gh p id command readKey t term →
    undisturbed gh.*1 p (length gh) id →
    ∃ n, members net !! id = Some (Up n) ∧
      tends G id (t_done t) (t_Index t) (mkWaiter readKey (t_done t)) (mkEntry (t_Index t) term command) n;
  ac_done : ∀ p q id command readKey t term out, asked gh p id command readKey t term →
    operation gh.*1 p q id command readKey t out → refused out ∨ effect H command readKey t term out;
  ac_order : ∀ p1 q1 id1 command1 readKey1 t1 out1 p2 id2 command2 readKey2 t2 term2,
    operation gh.*1 p1 q1 id1 command1 readKey1 t1 out1 → ¬ refused out1 →
    asked gh p2 id2 command2 readKey2 t2 term2 → (q1 < p2)%nat →
    t_Index t1 < t_Index t2 ∨ ∀ x, H !! N.to_nat (t_Index t2 - 1) = Some x → e_Term x ≠ term2;
  ac_once : ∀ p1 p2 id1 command1 readKey1 t1 term1 id2 command2 readKey2 t2 term2,
    asked gh p1 id1 command1 readKey1 t1 term1 → asked gh p2 id2 command2 readKey2 t2 term2 →
    (p1 < p2)%nat → t_Index t1 = t_Index t2 → term1 ≠ term2;
}.

Lemma asked_event gh p id command readKey t :
  gh.*1 !! p = Some (Submitted id command readKey t) → ∃ term, asked gh p id command readKey t term.
Proof using Type.
  rewrite list_lookup_fmap. destruct (gh !! p) as [[ev term]|] eqn:E; [|done]. cbn. intros [= ->].
  by exists term.
Qed.

Lemma operation_before h x p q id command readKey t out :
  operation (h ++ [x]) p q id command readKey t out → (q < length h)%nat →
  operation h p q id command readKey t out.
Proof using Type.
  intros [O1 O2 O3 O4] Hq. rewrite lookup_app_l in O1, O2 by lia. split; [done..|].
  apply undisturbed_snoc in O4; [done|lia].
Qed.

(** One more event. *)
Section one_event.
Context (gh : list (observation * N)) (H : list Entry) (net : network J) (G : group) (Hac : account gh H net G).
Context (ev : observation) (net' : network J) (Hev : step_event config net ev net').
Context (term : N) (H' : list Entry) (G' : group).
Context (Hr' : refines net' G') (Hg : grows G G') (Hatt : attends_all config net G net' G').
Context (Hpre : H `prefix_of` H') (Hset : ∃ t0, settled G' t0 H').
Context (Hask : ∀ id command readKey t, ev = Submitted id command readKey t →
  vacant G term (t_Index t) ∧ entered G' term (t_Index t) (mkEntry (t_Index t) term command) ∧
  ∃ n', members net' !! id = Some (Up n') ∧
    tends G' id (t_done t) (t_Index t) (mkWaiter readKey (t_done t)) (mkEntry (t_Index t) term command) n').
Context (Hans : ∀ p id command readKey t term out, asked gh p id command readKey t term →
  ev = Answered id t out → undisturbed gh.*1 p (length gh) id →
  refused out ∨ effect H' command readKey t term out).

Lemma asked_cases p id command readKey t term0 :
  asked (gh ++ [(ev, term)]) p id command readKey t term0 →
  asked gh p id command readKey t term0 ∨
  p = length gh ∧ ev = Submitted id command readKey t ∧ term = term0.
Proof using Type. intros [?|[-> [= -> ->]]]%lookup_snoc; [by left|by right]. Qed.

Lemma asked_lt p id command readKey t term0 : asked gh p id command readKey t term0 → (p < length gh)%nat.
Proof using Type. apply lookup_lt_Some. Qed.

(** Where an earlier operation took effect, the history is what it was. *)
Lemma effect_before p1 q1 id1 command1 readKey1 t1 out1 i x :
  operation gh.*1 p1 q1 id1 command1 readKey1 t1 out1 → ¬ refused out1 → i ≤ t_Index t1 →
  H' !! N.to_nat (i - 1) = Some x → H !! N.to_nat (i - 1) = Some x.
Proof using Hac Hpre.
  intros Ho Hn Hi Hx. destruct (asked_event gh _ _ _ _ _ (op_submitted _ _ _ _ _ _ _ _ Ho)) as [term1 Hk].
  destruct (ac_done _ _ _ _ Hac _ _ _ _ _ _ _ _ Hk Ho) as [?|[He _]]; [done|].
  apply lookup_lt_Some in He. destruct Hpre as [k E]. by rewrite E, lookup_app_l in Hx by lia.
Qed.

Lemma account_event : account (gh ++ [(ev, term)]) H' net' G'.
Proof.
  assert ((gh ++ [(ev, term)]).*1 = gh.*1 ++ [ev]) as Hfst by (by rewrite fmap_app).
  assert (length gh.*1 = length gh) as Hlen by apply length_fmap.
  split; [done|done|..]; rewrite ?Hfst.
  - intros p id command readKey t term0 [Hk|(->&E&<-)]%asked_cases.
    + eapply entered_grows, (ac_entered _ _ _ _ Hac); [exact Hg|exact Hk].
    + by apply (Hask _ _ _ _ E).
  - intros p id command readKey t term0 Hk Hun. apply asked_cases in Hk as [Hk|(->&E&<-)].
    + pose proof (asked_lt _ _ _ _ _ _ Hk) as Hp.
      replace (length (gh ++ [(ev, term)])) with (length (gh.*1 ++ [ev])) in Hun by (rewrite !length_app, Hlen; done).
      apply undisturbed_last in Hun as [Hun Hne]; [|by rewrite Hlen]. rewrite Hlen in Hun.
      destruct (ac_live _ _ _ _ Hac _ _ _ _ _ _ Hk Hun) as (n&Hup&Ht).
      destruct (step_event_up config net ev net' id n Hev Hup Hne) as [n' Hup']. exists n'.
      split; [done|]. by apply (Hatt id n n' Hup Hup').
    + by apply (Hask _ _ _ _ E).
  - intros p q id command readKey t term0 out Hk Ho.
    pose proof (lookup_lt_Some _ _ _ (op_answered _ _ _ _ _ _ _ _ Ho)) as Hq. pose proof (op_order _ _ _ _ _ _ _ _ Ho) as Hpq.
    rewrite length_app, Hlen in Hq. cbn in Hq. apply asked_cases in Hk as [Hk|(->&_)]; [|lia].
    destruct (decide (q = length gh)) as [->|Hne].
    + destruct Ho as [_ O2 _ O4]. apply undisturbed_snoc in O4; [|lia].
      apply lookup_snoc in O2 as [O2|[_ <-]]; [apply lookup_lt_Some in O2; lia|]. by eapply Hans.
    + apply operation_before in Ho; [|lia]. destruct (ac_done _ _ _ _ Hac _ _ _ _ _ _ _ _ Hk Ho); [by left|right].
      by eapply effect_prefix.
  - intros p1 q1 id1 command1 readKey1 t1 out1 p2 id2 command2 readKey2 t2 term2 Ho Hn Hk Hlt.
    assert (p2 ≤ length gh)%nat as Hp2.
    { apply asked_cases in Hk as [Hk|(->&_)]; [apply asked_lt in Hk; lia|done]. }
    apply operation_before in Ho; [|lia].
    destruct (N.lt_ge_cases (t_Index t1) (t_Index t2)) as [|Hge]; [by left|right]. intros x Hx.
    apply (effect_before _ _ _ _ _ _ _ _ _ Ho Hn Hge) in Hx.
    apply asked_cases in Hk as [Hk|(->&E&<-)].
    + destruct (ac_order _ _ _ _ Hac _ _ _ _ _ _ _ _ _ _ _ _ _ Ho Hn Hk Hlt) as [?|Ho']; [lia|by apply Ho'].
    + destruct (ac_settled _ _ _ _ Hac) as [t0 H0]. destruct (Hask _ _ _ _ E) as [Hv _].
      eapply (vacant_settled G _ _ t0 H x (rf_inv _ _ _ (ac_refines _ _ _ _ Hac)) Hv); done.
  - intros p1 p2 id1 command1 readKey1 t1 term1 id2 command2 readKey2 t2 term2 Hk1 Hk2 Hlt Hi.
    apply asked_cases in Hk1 as [Hk1|(->&_)].
    2: { apply asked_cases in Hk2 as [Hk2|(->&_)]; [apply asked_lt in Hk2; lia|lia]. }
    apply asked_cases in Hk2 as [Hk2|(->&E&<-)]; [by eapply (ac_once _ _ _ _ Hac _ _ _ _ _ _ _ _ _ _ _ _ Hk1 Hk2)|].
    intros <-. destruct (Hask _ _ _ _ E) as [Hv _]. rewrite <-Hi in Hv.
    by eapply vacant_entered, (ac_entered _ _ _ _ Hac).
Qed.

End one_event.

(** Settled logs have a longest among finitely many. *)
Lemma settled_choose G t0 H0 (good : nat → list Entry → Prop) k :
  inv G → settled G t0 H0 → (∀ p l l', good p l → l `prefix_of` l' → good p l') →
  (∀ p, (p < k)%nat → ∃ t l, settled G t l ∧ good p l) →
  ∃ t H, settled G t H ∧ H0 `prefix_of` H ∧ ∀ p, (p < k)%nat → good p H.
Proof using Type.
  intros HI Hs0 Hmono. induction k as [|k IH]; intros Hk; [by exists t0, H0; split_and!; [..|lia]|].
  destruct IH as (t1&H1&Hs1&Hp1&Hg1); [intros p Hp; apply Hk; lia|].
  destruct (Hk k ltac:(lia)) as (t2&l&Hs2&Hg2).
  destruct (settled_agree P G HI _ _ _ _ Hs1 Hs2) as [Hpre|Hpre].
  - exists t2, l. split_and!; [done|by etransitivity|]. intros p Hp.
    destruct (decide (p = k)) as [->|]; [done|]. eapply Hmono; [apply Hg1; lia|done].
  - exists t1, H1. split_and!; [done..|]. intros p Hp.
    destruct (decide (p = k)) as [->|]; [by eapply Hmono|apply Hg1; lia].
Qed.

Lemma settled_kept G G' H : grows G G' → (∃ t0, settled G t0 H) → ∃ t0, settled G' t0 H.
Proof using Type. intros Hg [t0 Hs]. exists t0. by eapply settled_grows. Qed.

(** The outcomes that are received take effect on a history that is settled. *)
Lemma answers_settled gh H net G G' id n t out :
  account gh H net G → grows G G' → inv G' → members net !! id = Some (Up n) →
  n_chans n !! t_done t = Some (Some out) →
  ∃ H', H `prefix_of` H' ∧ (∃ t0, settled G' t0 H') ∧
    ∀ p command readKey term, asked gh p id command readKey t term →
      undisturbed gh.*1 p (length gh) id → refused out ∨ effect H' command readKey t term out.
Proof.
  intros Hac Hg HI' Hup Hch. destruct (settled_kept G G' H Hg (ac_settled _ _ _ _ Hac)) as [t0 Hs0].
  destruct (settled_choose G' t0 H (λ p l, ∀ command readKey term, asked gh p id command readKey t term →
      undisturbed gh.*1 p (length gh) id → refused out ∨ effect l command readKey t term out)
    (length gh) HI' Hs0) as (t1&H'&Hs'&Hp'&Hgood).
  - intros p l l' Hl Hpre command readKey term Hk Hu. destruct (Hl _ _ _ Hk Hu); [by left|right].
    by eapply effect_prefix.
  - intros p _. destruct (gh !! p) as [[[id' command readKey t'| | |] term]|] eqn:E.
    2-5: exists t0, []; split; [by left|]; intros c k T Hk; unfold asked in Hk; congruence.
    destruct (decide (id' = id ∧ t' = t ∧ undisturbed gh.*1 p (length gh) id)) as [(->&->&Hu)|Hno].
    2: { exists t0, []. split; [by left|]. intros c k T Hk Hu. unfold asked in Hk. rewrite E in Hk.
         injection Hk as -> _ _ -> _. by destruct Hno. }
    destruct (ac_live _ _ _ _ Hac p id command readKey t term E Hu) as (n0&Hup0&Ht).
    rewrite Hup in Hup0. injection Hup0 as <-.
    destruct (tn_answer _ _ _ _ _ _ _ _ Ht out Hch) as [Hr|(t2&l&Hs2&Hl&Hout)].
    + exists t0, []. split; [by left|]. by left.
    + exists t2, l. split; [by eapply settled_grows|]. intros c k T Hk _. right. unfold asked in Hk. rewrite E in Hk.
      injection Hk as <- <- <-. by split.
  - exists H'. split_and!; [done|by exists t1|]. intros p c k T Hk Hu. eapply Hgood; [|done|done].
    by eapply asked_lt.
Qed.

Lemma account_then gh H net G ev net' :
  account gh H net G → step_event config net ev net' →
  ∃ term H' G', account (gh ++ [(ev, term)]) H' net' G'.
Proof.
  intros Hac Hs. pose proof (ac_refines _ _ _ _ Hac) as Hr. pose proof (rf_inv _ _ _ Hr) as HI.
  destruct ev as [id command readKey t|id t out|id|].
  - inversion Hs as [? n ? ? ? n' Hup Hty Hrun| | |]; subst.
    destruct (submission_refines net G id n command readKey t n' Hr Hup Hty Hrun) as (G'&Hst&Hr'&Ha&Ht&Hv&He).
    destruct (raft_steps_inv P G G' HI Hst) as [Hg _].
    exists (term_of n), H, G'. eapply (account_event gh H net G Hac _ _ Hs); try done.
    + by eapply settled_kept, (ac_settled _ _ _ _ Hac).
    + intros id0 c0 k0 t0 [= <- <- <- <-]. split_and!; [done..|]. exists n'. split; [|done].
      cbn [members advance]. by rewrite lookup_insert_eq.
  - pose proof (step_event_net config _ _ _ Hs) as Hnet.
    destruct (net_step_refines config Hwf net net' G Hr Hnet) as (G'&Hst&Hr'&Ha).
    destruct (raft_steps_inv P G G' HI Hst) as [Hg HI'].
    inversion Hs as [|? n ? ? n' Hup Hrun| |]; subst. rewrite Poll_eq in Hrun.
    destruct (n_chans n !! t_done t) as [[out'|]|] eqn:Hch; [|done..]. injection Hrun as -> _.
    destruct (answers_settled gh H net G G' id n t out Hac Hg HI' Hup Hch) as (H'&Hp&Hset&Hans).
    exists 0, H', G'. eapply (account_event gh H net G Hac _ _ Hs); try done.
    intros p id0 c k t0 T out0 Hk [= <- <- <-]. by apply (Hans p).
  - destruct (net_step_refines config Hwf net net' G Hr (step_event_net config _ _ _ Hs)) as (G'&Hst&Hr'&Ha).
    destruct (raft_steps_inv P G G' HI Hst) as [Hg _].
    exists 0, H, G'. eapply (account_event gh H net G Hac _ _ Hs); try done.
    by eapply settled_kept, (ac_settled _ _ _ _ Hac).
  - destruct (net_step_refines config Hwf net net' G Hr (step_event_net config _ _ _ Hs)) as (G'&Hst&Hr'&Ha).
    destruct (raft_steps_inv P G G' HI Hst) as [Hg _].
    exists 0, H, G'. eapply (account_event gh H net G Hac _ _ Hs); try done.
    by eapply settled_kept, (ac_settled _ _ _ _ Hac).
Qed.

Lemma run_account net0 h net :
  initial net0 → run config net0 h net → ∃ gh H G, gh.*1 = h ∧ account gh H net G.
Proof.
  intros Hi Hrun. induction Hrun as [|h net ev net' _ IH Hs].
  - eexists [], [], (mkGroup _ _ _ _ _). split; [done|]. pose proof (initial_refines config net0 Hi) as Hr. split; [exact Hr|..].
    + exists 0. by left.
    + by intros p ?.
    + by intros p ?.
    + by intros p ?.
    + intros p1 q1 id1 c1 k1 t1 o1 p2 id2 c2 k2 t2 term2 _ _ Hk. done.
    + by intros p1 ?.
  - destruct IH as (gh&H&G&<-&Hac). destruct (account_then gh H net G ev net' Hac Hs) as (term&H'&G'&Hac').
    exists (gh ++ [(ev, term)]), H', G'. split; [by rewrite fmap_app|done].
Qed.

(** C1. Linearizability.  Whatever clients do, and whatever happens to messages,
    disks, clocks and processes, there is one sequence of log entries such that
    every operation whose client received an outcome was either refused, or took
    effect as the entry its ticket names: its outcome is what its command does to
    the machine made by the entries before it.  Operations that took effect did so at
    different entries, and one that was answered before another was submitted,
    to whatever member, at an earlier entry.  The machine of every member that
    runs is what a beginning of this same sequence makes of an empty machine. *)
Theorem linearizable net0 h net :
  initial net0 → run config net0 h net →
  ∃ H : list Entry,
    (∀ p q id command readKey t out, operation h p q id command readKey t out →
       refused out ∨ took_effect H command readKey t out) ∧
    (∀ p1 q1 id1 command1 readKey1 t1 out1 p2 q2 id2 command2 readKey2 t2 out2,
       operation h p1 q1 id1 command1 readKey1 t1 out1 → ¬ refused out1 →
       operation h p2 q2 id2 command2 readKey2 t2 out2 → ¬ refused out2 →
       ((q1 < p2)%nat → t_Index t1 < t_Index t2) ∧ (t_Index t1 = t_Index t2 → p1 = p2)) ∧
    ∀ id n, members net !! id = Some (Up n) →
      n_machine n = history_machine (take (N.to_nat (n_applied n)) H) ∧ n_applied n ≤ lenN H.
Proof.
  intros Hi Hrun. destruct (run_account net0 h net Hi Hrun) as (gh&H0&G&<-&Hac).
  pose proof (ac_refines _ _ _ _ Hac) as Hr. destruct (ac_settled _ _ _ _ Hac) as [t0 Hs0].
  set (ms := map_to_list (members net)).
  destruct (settled_choose G t0 H0 (λ p l, ∀ id n, ms !! p = Some (id, Up n) →
    applied_part G id n `prefix_of` l) (length ms) (rf_inv _ _ _ Hr) Hs0) as (t1&H&Hs&Hp&Hm).
  { intros p l l' Hl Hpre id n Hn. etransitivity; [by apply Hl|done]. }
  { intros p _. destruct (ms !! p) as [[id [j|n|n]]|] eqn:E; try by (exists t0, []; split; [by left|congruence]).
    exists (rp_term (g_replica G id)), (take (rp_commit (g_replica G id)) (rp_log (g_replica G id))).
    split; [apply (i_commit P G (rf_inv _ _ _ Hr) id)|]. intros id' n' [= <- <-].
    apply list_elem_of_lookup_2, elem_of_map_to_list in E. by apply (applied_explains config net G id n Hr E). }
  exists H. split_and!.
  - intros p q id c k t out Ho. destruct (asked_event gh _ _ _ _ _ (op_submitted _ _ _ _ _ _ _ _ Ho)) as [T Hk].
    destruct (ac_done _ _ _ _ Hac _ _ _ _ _ _ _ _ Hk Ho); [by left|right]. exists T.
    by eapply effect_prefix.
  - intros p1 q1 id1 c1 k1 t1' o1 p2 q2 id2 c2 k2 t2 o2 Ho1 Hn1 Ho2 Hn2.
    destruct (asked_event gh _ _ _ _ _ (op_submitted _ _ _ _ _ _ _ _ Ho1)) as [T1 Hk1].
    destruct (asked_event gh _ _ _ _ _ (op_submitted _ _ _ _ _ _ _ _ Ho2)) as [T2 Hk2].
    destruct (ac_done _ _ _ _ Hac _ _ _ _ _ _ _ _ Hk1 Ho1) as [?|[He1 _]]; [done|].
    destruct (ac_done _ _ _ _ Hac _ _ _ _ _ _ _ _ Hk2 Ho2) as [?|[He2 _]]; [done|]. split.
    + intros Hlt. destruct (ac_order _ _ _ _ Hac _ _ _ _ _ _ _ _ _ _ _ _ _ Ho1 Hn1 Hk2 Hlt) as [|Hne]; [done|].
      by destruct (Hne _ He2).
    + intros Hi'. rewrite Hi', He2 in He1. injection He1 as HT _. destruct (Nat.lt_trichotomy p1 p2) as [Hlt|[|Hlt]]; [|done|].
      * by destruct (ac_once _ _ _ _ Hac _ _ _ _ _ _ _ _ _ _ _ _ Hk1 Hk2 Hlt Hi').
      * by destruct (ac_once _ _ _ _ Hac _ _ _ _ _ _ _ _ _ _ _ _ Hk2 Hk1 Hlt (eq_sym Hi')).
  - intros id n Hup. destruct (applied_explains config net G id n Hr Hup) as [[Hlen Hmach _] _].
    assert (applied_part G id n `prefix_of` H) as [k Hk].
    { apply elem_of_map_to_list, list_elem_of_lookup_1 in Hup as [p Hup]. eapply Hm; [|exact Hup].
      by eapply lookup_lt_Some. }
    rewrite Hk. unfold lenN in *. rewrite length_app. split; [|lia].
    rewrite Hmach. f_equal. replace (N.to_nat (n_applied n)) with (length (applied_part G id n)) by lia.
    by rewrite take_app_length.
Qed.

End linear.
