(* ===== verification/LinearExamples.v ===== *)
(** * LinearExamples: two clients, two leaders

    A scheduler for observed runs of the network, sound for them, and a run in
    which one client writes through a leader whose process then ends, and another
    client reads what was written from the leader that succeeds it. *)

From stdpp Require Import base numbers list gmap strings fin_maps pretty relations sorting options.
From S2P Require Import Prelude Effects Bytes StateMachine Wal Journal Store Codec Events Node NodeInv.
From S2P Require Import NodeRPC NodeSteps NodeOpen NodeProps NodeExamples Trace Raft Cluster Refine ClusterProps.
From S2P Require Import ClusterExamples Linear.

Local Open Scope N_scope.

Section observer.
Context {J : Type} `{HJ : Journal J, HC : Codec record, HP : Platform}.
Context (config : string → Config) (rt : Runtime).

(** What a client or the environment does next. *)
Inductive action :=
  | Quietly (e : event)
  | Submits (id : string) (command : option Command) (readKey : option string)
  | Polls (id : string) (t : Ticket)
  | Ends (id : string).

Definition ends (e : event) : bool := match e with ECrash _ => true | _ => false end.

Definition observe (a : action) (net : network J) : option (observation * network J) :=
  match a with
  | Quietly e => if ends e then None else net' ← net_run config rt e net; Some (Silent, net')
  | Submits id command readKey =>
    match members net !! id with
    | Some (Up n) =>
      if bool_decide (typed_call (CSubmit command readKey)) then
        match submitLocked command readKey n with
        | Some (inr t, n') => Some (Submitted id command readKey t, advance id n' [] net)
        | _ => None
        end
      else None
    | _ => None
    end
  | Polls id t =>
    match members net !! id with
    | Some (Up n) =>
      match Poll t n with
      | Some (Some out, n') => Some (Answered id t out, advance id n' [] net)
      | _ => None
      end
    | _ => None
    end
  | Ends id =>
    match members net !! id with
    | Some (Up n) => Some (Stopped id, mkNetwork (<[id := Down n]> (members net)) (packets net))
    | _ => None
    end
  end.

Fixpoint observes (acts : list action) (net : network J) : option (list observation * network J) :=
  match acts with
  | [] => Some ([], net)
  | a :: acts' =>
    '(o, net1) ← observe a net; '(h, net') ← observes acts' net1; Some (o :: h, net')
  end.

(** A step that ends no process leaves one member running, and the others alone. *)
Lemma net_run_advances e net net' :
  net_run config rt e net = Some net' → ends e = false → ∃ id n ps, net' = advance id n ps net.
Proof.
  intros H Hends. destruct e as [id c|k|k|k|id k|id|id|id]; cbn [net_run ends] in *; try done;
    repeat case_match; try done; try apply bind_Some in H as (x&_&H); repeat case_match; try done;
    injection H as <-; eauto.
Qed.

Lemma observe_step a net o net' : observe a net = Some (o, net') → step_event config net o net'.
Proof.
  destruct a as [e|id command readKey|id t|id]; cbn [observe].
  - destruct (ends e) eqn:He; [done|]. destruct (net_run config rt e net) as [net1|] eqn:Hr; [|done].
    intros [= <- <-]. apply sv_silent; [by eapply net_run_step|]. intros id n Hup.
    destruct (net_run_advances e net net1 Hr He) as (v&n'&ps&->). cbn [members advance].
    destruct (decide (v = id)) as [->|Hne]; [exists n'; by rewrite lookup_insert_eq|].
    exists n. by rewrite lookup_insert_ne.
  - destruct (members net !! id) as [[j|n|n]|] eqn:Hm; try done.
    destruct (bool_decide _) eqn:Hty; [|done]. apply bool_decide_eq_true in Hty.
    destruct (submitLocked command readKey n) as [[[err|t] n']|] eqn:Hs; try done.
    intros [= <- <-]. by eapply sv_submitted.
  - destruct (members net !! id) as [[j|n|n]|] eqn:Hm; try done.
    destruct (Poll t n) as [[[out|] n']|] eqn:Hp; try done. intros [= <- <-]. by eapply sv_answered.
  - destruct (members net !! id) as [[j|n|n]|] eqn:Hm; try done. intros [= <- <-]. by eapply sv_stopped.
Qed.

Lemma observes_run acts net0 h0 net h net' :
  run config net0 h0 net → observes acts net = Some (h, net') → run config net0 (h0 ++ h) net'.
Proof.
  revert h0 net h. induction acts as [|a acts IH]; intros h0 net h Hrun H; cbn [observes] in H.
  { injection H as <- <-. by rewrite app_nil_r. }
  destruct (observe a net) as [[o net1]|] eqn:Ho; [|done]. cbn [mbind option_bind] in H.
  destruct (observes acts net1) as [[h1 net2]|] eqn:Hos; [|done]. cbn [mbind option_bind] in H.
  injection H as <- ->. replace (h0 ++ o :: h1) with ((h0 ++ [o]) ++ h1) by (by rewrite <-app_assoc).
  eapply IH; [|exact Hos]. eapply run_then; [exact Hrun|]. by apply (observe_step a).
Qed.

End observer.

(** ** The run *)

#[local] Existing Instance ex_platform.
#[local] Existing Instance ex_platform_laws.

Definition ex_ticket_a : Ticket := mkTicket 2 0.
Definition ex_ticket_b : Ticket := mkTicket 4 0.

(** [a] is elected, writes, and answers; its process ends, [b] succeeds it, and
    answers a read. *)
Definition ex_actions : list action :=
  (Quietly <$> ex_elect) ++
  (Quietly <$> [EOpen "c"; EAppendEntries 5; EAppendReply "a" 7]) ++
  [Submits "a" (Some ex_command) None] ++
  (Quietly <$> [EAppendEntries 12; EAppendReply "a" 18; EAppendEntries 24; EAppendReply "a" 25;
    ELocal "a" CDrain]) ++
  [Polls "a" ex_ticket_a; Ends "a"] ++
  (Quietly <$> [ELocal "b" CTick; ERequestVote 34; EVoteReply 35; EAppendEntries 39; EAppendReply "b" 40;
    EAppendEntries 45; EAppendReply "b" 46; ELocal "b" CDrain]) ++
  [Submits "b" None (Some "k")] ++
  (Quietly <$> [EAppendEntries 52; EAppendReply "b" 53; EAppendEntries 54; EAppendReply "b" 55]) ++
  [Polls "b" ex_ticket_b].

Definition ex_wrote : outcome := mkOutcome (mkResult "v" true true false) None.
Definition ex_read : outcome := mkOutcome (mkResult "v" true false false) None.

Definition ex_history : list observation :=
  replicate 8 Silent ++ [Submitted "a" (Some ex_command) None ex_ticket_a] ++
  replicate 5 Silent ++ [Answered "a" ex_ticket_a ex_wrote; Stopped "a"] ++
  replicate 8 Silent ++ [Submitted "b" None (Some "k") ex_ticket_b] ++
  replicate 4 Silent ++ [Answered "b" ex_ticket_b ex_read].

Lemma ex_observed : fst <$> observes ex_cfg ex_rt ex_actions ex_network = Some ex_history.
Proof. vm_cast_no_check (@eq_refl (option (list observation)) (Some ex_history)). Qed.

Lemma ex_write_done : operation ex_history 8 14 "a" (Some ex_command) None ex_ticket_a ex_wrote.
Proof. split; [reflexivity|reflexivity|lia|]. repeat constructor; done. Qed.

Lemma ex_read_done : operation ex_history 24 29 "b" None (Some "k") ex_ticket_b ex_read.
Proof. split; [reflexivity|reflexivity|lia|]. repeat constructor; done. Qed.

Lemma ex_not_refused v f a : ¬ refused (mkOutcome (mkResult v f a false) None).
Proof. intros (err&_&[=]). Qed.

(** The write and the read took effect, in this order, on one history. *)
Lemma linearizable_witness :
  ∃ H, took_effect H (Some ex_command) None ex_ticket_a ex_wrote ∧
    took_effect H None (Some "k") ex_ticket_b ex_read ∧ t_Index ex_ticket_a < t_Index ex_ticket_b.
Proof.
  destruct (observes ex_cfg ex_rt ex_actions ex_network) as [[h net]|] eqn:Ho.
  2: { pose proof ex_observed as Hx. rewrite Ho in Hx. discriminate Hx. }
  pose proof ex_observed as Hx. rewrite Ho in Hx. injection Hx as ->.
  pose proof (observes_run ex_cfg ex_rt ex_actions ex_network [] ex_network ex_history net (run_start _ _) Ho) as Hrun.
  pose proof (linearizable ex_cfg ex_wf_cluster ex_network ex_history net ex_initial Hrun) as HL.
  clear Ho Hrun. destruct HL as (H&Heff&Hord&_). exists H.
  pose proof (Heff _ _ _ _ _ _ _ ex_write_done) as E1. pose proof (Heff _ _ _ _ _ _ _ ex_read_done) as E2.
  split; [|split].
  - destruct E1 as [Hr|He]; [exact (False_ind _ (ex_not_refused _ _ _ Hr))|exact He].
  - destruct E2 as [Hr|He]; [exact (False_ind _ (ex_not_refused _ _ _ Hr))|exact He].
  - exact (proj1 (Hord _ _ _ _ _ _ _ _ _ _ _ _ _ _ ex_write_done (ex_not_refused _ _ _) ex_read_done (ex_not_refused _ _ _)) ltac:(lia)).
Defined.
