(* ===== verification/Simulation.v ===== *)
(** * Simulation: the deterministic simulator
    (src/internal/simulation/simulation.go)

    The runner drives the nodes of [Node] from one queue of events in virtual
    time.  Go objects the source shares are kept in stores and named by their
    place: the node objects ever opened ([heap]; [nodes] holds the place of the
    one at each position, or nil), the disks, which the nodes write through, and
    the variables that the closures of one [send] share ([sends]).  A closure in
    the queue is the [action] it runs.

    math/rand/v2 is the class [Random]; the SHA-256 digests of entries and
    machines that the checks compare are the class [Digests].  The hash of the
    trace, which only identifies a run, is left out. *)

From stdpp Require Import base numbers list gmap strings fin_maps pretty sorting options.
From S2P Require Import Prelude Effects Urls Bytes StateMachine Wal Journal Store Events Node.

Local Open Scope Z_scope.

(** ** Scenarios *)

Record Fault := mkFault' {
  AtMS : Z;
  Kind : string;
  FaultNode : Z;
  Other : Z;
}.

Record Scenario := mkScenario {
  Version : Z;
  Seed : N;
  Nodes : Z;
  Operations : Z;
  MaxDelayMS : Z;
  DropPercent : Z;
  DuplicatePercent : Z;
  Faults : list Fault;
}.

Record Trace := mkTrace { tr_AtMS : Z; tr_Type : string; tr_Node : string; tr_Detail : string }.

(** [int64] products and sums wrap; divisions truncate. *)
Definition Default (seed : N) (nodes operations : Z) : Scenario :=
  let span := Z.max (wrap63 (operations * 60)) 2400 in
  let at_ (z : Z) := wrap63 z in
  mkScenario 1 seed nodes operations 80 8 5
    [ mkFault' 1000 "crash" 0 0; mkFault' 1400 "restart" 0 0;
      mkFault' (at_ (1500 + Z.quot span 5)) "partition" 1 0;
      mkFault' (at_ (2100 + Z.quot span 5)) "heal" 0 0;
      mkFault' (at_ (2300 + Z.quot span 4)) "pause" 2 0;
      mkFault' (at_ (2600 + Z.quot span 4)) "resume" 2 0;
      mkFault' (at_ (2800 + Z.quot span 3)) "disk-after" 0 0;
      mkFault' (at_ (3400 + Z.quot span 3)) "restart" 0 0 ].

Definition known_fault (kind : string) : bool :=
  existsb (λ k, bool_decide (kind = k))
    ["crash"; "restart"; "pause"; "resume"; "partition"; "heal"; "disk-before"; "disk-after"].

Fixpoint validate_faults `{URLs} (s : Scenario) (fs : list Fault) : option error :=
  match fs with
  | [] => None
  | f :: fs' =>
    if (AtMS f <? 0) || (3600000 <? AtMS f) || (FaultNode f <? 0) || (Nodes s <=? FaultNode f)
    then Some (ErrNew "invalid fault position")
    else if known_fault (Kind f) then validate_faults s fs'
    else Some (ErrNew ("unknown fault " +:+ Quote (Kind f)))
  end.

Definition Validate `{URLs} (s : Scenario) : option error :=
  if negb (Version s =? 1) || (Nodes s <? 3) || (5 <? Nodes s) || (Operations s <? 1) ||
     (10000 <? Operations s) || (MaxDelayMS s <? 0) || (2000 <? MaxDelayMS s) ||
     (DropPercent s <? 0) || (100 <? DropPercent s) || (DuplicatePercent s <? 0) ||
     (100 <? DuplicatePercent s) || (100 <? Z.of_nat (length (Faults s)))
  then Some (ErrNew "invalid scenario bounds")
  else validate_faults s (Faults s).

(** ** What the simulator uses of the Go library *)

(** A generator of math/rand/v2 and its draws; a draw below a bound that is
    not positive panics. *)
Class Random := {
  source : Type;
  NewPCG : N → N → source;
  Uint64 : source → N * source;
  IntN : source → Z → Z * source;
  range : ∀ A, gmap N A → list (N * A);     (* the entries of a map, in the order [range] takes them *)
}.

(** [EntryHash], [Machine.Digest], and the hash that chains entries. *)
Class Digests := {
  EntryHash : Entry → string;
  Digest : Machine → string;
  chain : string → string → string;
}.

(** The [i]-th of a sequence of draws below one bound. *)
Definition nth_draw `{Random} (src : source) (i : N) (bound : Z) : Z :=
  (IntN (N.iter i (λ s, (IntN s bound).2) src) bound).1.

(** ** The queue *)

Inductive action :=
  | AFault (f : Fault)
  | AClient (op : nat)
  | ARecoverAll
  | ATick
  | ARpcTimeout (send : nat)
  | ADeliver (send : nat)
  | AResponse (send : nat) (v : VoteResponse) (a : AppendResponse) (err : option error)
  | AClientTimeout (op : nat) (best : nat) (ticket : nat * Ticket).

Record item := mkItem { it_at : Z; it_seq : N; it_kind : string; it_run : action }.

Definition Less (x y : item) : bool :=
  if it_at x =? it_at y then (it_seq x <? it_seq y)%N else it_at x <? it_at y.

(** [heap.Push] and [heap.Pop] of container/heap: [Pop] takes out an item that no
    other is less than. *)
Definition Push (x : item) (q : list item) : list item := q ++ [x].

Fixpoint Pop (q : list item) : option (item * list item) :=
  match q with
  | [] => None
  | x :: q' =>
    match Pop q' with
    | None => Some (x, [])
    | Some (y, rest) => if Less y x then Some (y, x :: rest) else Some (x, y :: rest)
    end
  end.

(** ** The runner *)

Record operation := mkOperation {
  op_command : Command;
  op_ticket : option (nat * Ticket);   (* the node it was submitted to, and the ticket *)
  op_source : nat;
  op_done : bool;
  op_retryAt : Z;
}.

(** The variables of one call of [send]. *)
Record sending := mkSending {
  sd_from : nat;
  sd_to : nat;
  sd_source : nat;
  sd_message : Message;
  sd_completed : bool;
}.

Record Audit := mkAudit {
  au_Status : Status;
  au_Vote : string;
  au_Log : list Entry;
  au_StateHash : string;
}.

Section runner.
Context `{HC : Codec record, HP : Platform, HR : Random, HD : Digests}.

Record runner := mkRunner {
  r_s : Scenario;
  r_now : Z;
  r_seq : N;
  r_q : list item;
  r_random : source;
  r_heap : list (nat * Node memoryDisk);
  r_nodes : list (option nat);
  r_disks : list memoryDisk;
  r_peers : list Peer;
  r_isolated : gset nat;
  r_drop : Z;
  r_delay : Z;
  r_sends : list sending;
  r_trace : list Trace;
  r_steps : N;
  r_acknowledged : Z;
  r_converged : bool;
  r_err : option error;
  r_recoverAt : Z;
  r_ops : list operation;
  r_leaders : gmap N string;
  r_votes : gmap string string;
  r_committed : gmap N string;
  r_committedTerms : gmap N N;
  r_logMatching : gmap string string;
  r_previousCommit : list N;
  r_previousApplied : list N;
  r_eventCursor : list N;
}.

(** Assignments to the fields. *)
Definition rset_now (x : Z) (r : runner) : runner :=
  mkRunner (r_s r) x (r_seq r) (r_q r) (r_random r) (r_heap r) (r_nodes r) (r_disks r)
    (r_peers r) (r_isolated r) (r_drop r) (r_delay r) (r_sends r) (r_trace r) (r_steps r)
    (r_acknowledged r) (r_converged r) (r_err r) (r_recoverAt r) (r_ops r) (r_leaders r)
    (r_votes r) (r_committed r) (r_committedTerms r) (r_logMatching r) (r_previousCommit r)
    (r_previousApplied r) (r_eventCursor r).
Definition rset_seq (x : N) (r : runner) : runner :=
  mkRunner (r_s r) (r_now r) x (r_q r) (r_random r) (r_heap r) (r_nodes r) (r_disks r)
    (r_peers r) (r_isolated r) (r_drop r) (r_delay r) (r_sends r) (r_trace r) (r_steps r)
    (r_acknowledged r) (r_converged r) (r_err r) (r_recoverAt r) (r_ops r) (r_leaders r)
    (r_votes r) (r_committed r) (r_committedTerms r) (r_logMatching r) (r_previousCommit r)
    (r_previousApplied r) (r_eventCursor r).
Definition rset_q (x : list item) (r : runner) : runner :=
  mkRunner (r_s r) (r_now r) (r_seq r) x (r_random r) (r_heap r) (r_nodes r) (r_disks r)
    (r_peers r) (r_isolated r) (r_drop r) (r_delay r) (r_sends r) (r_trace r) (r_steps r)
    (r_acknowledged r) (r_converged r) (r_err r) (r_recoverAt r) (r_ops r) (r_leaders r)
    (r_votes r) (r_committed r) (r_committedTerms r) (r_logMatching r) (r_previousCommit r)
    (r_previousApplied r) (r_eventCursor r).
Definition rset_random (x : source) (r : runner) : runner :=
  mkRunner (r_s r) (r_now r) (r_seq r) (r_q r) x (r_heap r) (r_nodes r) (r_disks r) (r_peers
    r) (r_isolated r) (r_drop r) (r_delay r) (r_sends r) (r_trace r) (r_steps r)
    (r_acknowledged r) (r_converged r) (r_err r) (r_recoverAt r) (r_ops r) (r_leaders r)
    (r_votes r) (r_committed r) (r_committedTerms r) (r_logMatching r) (r_previousCommit r)
    (r_previousApplied r) (r_eventCursor r).
Definition rset_heap (x : list (nat * Node memoryDisk)) (r : runner) : runner :=
  mkRunner (r_s r) (r_now r) (r_seq r) (r_q r) (r_random r) x (r_nodes r) (r_disks r)
    (r_peers r) (r_isolated r) (r_drop r) (r_delay r) (r_sends r) (r_trace r) (r_steps r)
    (r_acknowledged r) (r_converged r) (r_err r) (r_recoverAt r) (r_ops r) (r_leaders r)
    (r_votes r) (r_committed r) (r_committedTerms r) (r_logMatching r) (r_previousCommit r)
    (r_previousApplied r) (r_eventCursor r).
Definition rset_nodes (x : list (option nat)) (r : runner) : runner :=
  mkRunner (r_s r) (r_now r) (r_seq r) (r_q r) (r_random r) (r_heap r) x (r_disks r)
    (r_peers r) (r_isolated r) (r_drop r) (r_delay r) (r_sends r) (r_trace r) (r_steps r)
    (r_acknowledged r) (r_converged r) (r_err r) (r_recoverAt r) (r_ops r) (r_leaders r)
    (r_votes r) (r_committed r) (r_committedTerms r) (r_logMatching r) (r_previousCommit r)
    (r_previousApplied r) (r_eventCursor r).
Definition rset_disks (x : list memoryDisk) (r : runner) : runner :=
  mkRunner (r_s r) (r_now r) (r_seq r) (r_q r) (r_random r) (r_heap r) (r_nodes r) x
    (r_peers r) (r_isolated r) (r_drop r) (r_delay r) (r_sends r) (r_trace r) (r_steps r)
    (r_acknowledged r) (r_converged r) (r_err r) (r_recoverAt r) (r_ops r) (r_leaders r)
    (r_votes r) (r_committed r) (r_committedTerms r) (r_logMatching r) (r_previousCommit r)
    (r_previousApplied r) (r_eventCursor r).
Definition rset_isolated (x : gset nat) (r : runner) : runner :=
  mkRunner (r_s r) (r_now r) (r_seq r) (r_q r) (r_random r) (r_heap r) (r_nodes r) (r_disks
    r) (r_peers r) x (r_drop r) (r_delay r) (r_sends r) (r_trace r) (r_steps r)
    (r_acknowledged r) (r_converged r) (r_err r) (r_recoverAt r) (r_ops r) (r_leaders r)
    (r_votes r) (r_committed r) (r_committedTerms r) (r_logMatching r) (r_previousCommit r)
    (r_previousApplied r) (r_eventCursor r).
Definition rset_drop (x : Z) (r : runner) : runner :=
  mkRunner (r_s r) (r_now r) (r_seq r) (r_q r) (r_random r) (r_heap r) (r_nodes r) (r_disks
    r) (r_peers r) (r_isolated r) x (r_delay r) (r_sends r) (r_trace r) (r_steps r)
    (r_acknowledged r) (r_converged r) (r_err r) (r_recoverAt r) (r_ops r) (r_leaders r)
    (r_votes r) (r_committed r) (r_committedTerms r) (r_logMatching r) (r_previousCommit r)
    (r_previousApplied r) (r_eventCursor r).
Definition rset_delay (x : Z) (r : runner) : runner :=
  mkRunner (r_s r) (r_now r) (r_seq r) (r_q r) (r_random r) (r_heap r) (r_nodes r) (r_disks
    r) (r_peers r) (r_isolated r) (r_drop r) x (r_sends r) (r_trace r) (r_steps r)
    (r_acknowledged r) (r_converged r) (r_err r) (r_recoverAt r) (r_ops r) (r_leaders r)
    (r_votes r) (r_committed r) (r_committedTerms r) (r_logMatching r) (r_previousCommit r)
    (r_previousApplied r) (r_eventCursor r).
Definition rset_sends (x : list sending) (r : runner) : runner :=
  mkRunner (r_s r) (r_now r) (r_seq r) (r_q r) (r_random r) (r_heap r) (r_nodes r) (r_disks
    r) (r_peers r) (r_isolated r) (r_drop r) (r_delay r) x (r_trace r) (r_steps r)
    (r_acknowledged r) (r_converged r) (r_err r) (r_recoverAt r) (r_ops r) (r_leaders r)
    (r_votes r) (r_committed r) (r_committedTerms r) (r_logMatching r) (r_previousCommit r)
    (r_previousApplied r) (r_eventCursor r).
Definition rset_trace (x : list Trace) (r : runner) : runner :=
  mkRunner (r_s r) (r_now r) (r_seq r) (r_q r) (r_random r) (r_heap r) (r_nodes r) (r_disks
    r) (r_peers r) (r_isolated r) (r_drop r) (r_delay r) (r_sends r) x (r_steps r)
    (r_acknowledged r) (r_converged r) (r_err r) (r_recoverAt r) (r_ops r) (r_leaders r)
    (r_votes r) (r_committed r) (r_committedTerms r) (r_logMatching r) (r_previousCommit r)
    (r_previousApplied r) (r_eventCursor r).
Definition rset_steps (x : N) (r : runner) : runner :=
  mkRunner (r_s r) (r_now r) (r_seq r) (r_q r) (r_random r) (r_heap r) (r_nodes r) (r_disks
    r) (r_peers r) (r_isolated r) (r_drop r) (r_delay r) (r_sends r) (r_trace r) x
    (r_acknowledged r) (r_converged r) (r_err r) (r_recoverAt r) (r_ops r) (r_leaders r)
    (r_votes r) (r_committed r) (r_committedTerms r) (r_logMatching r) (r_previousCommit r)
    (r_previousApplied r) (r_eventCursor r).
Definition rset_acknowledged (x : Z) (r : runner) : runner :=
  mkRunner (r_s r) (r_now r) (r_seq r) (r_q r) (r_random r) (r_heap r) (r_nodes r) (r_disks
    r) (r_peers r) (r_isolated r) (r_drop r) (r_delay r) (r_sends r) (r_trace r) (r_steps r)
    x (r_converged r) (r_err r) (r_recoverAt r) (r_ops r) (r_leaders r) (r_votes r)
    (r_committed r) (r_committedTerms r) (r_logMatching r) (r_previousCommit r)
    (r_previousApplied r) (r_eventCursor r).
Definition rset_converged (x : bool) (r : runner) : runner :=
  mkRunner (r_s r) (r_now r) (r_seq r) (r_q r) (r_random r) (r_heap r) (r_nodes r) (r_disks
    r) (r_peers r) (r_isolated r) (r_drop r) (r_delay r) (r_sends r) (r_trace r) (r_steps r)
    (r_acknowledged r) x (r_err r) (r_recoverAt r) (r_ops r) (r_leaders r) (r_votes r)
    (r_committed r) (r_committedTerms r) (r_logMatching r) (r_previousCommit r)
    (r_previousApplied r) (r_eventCursor r).
Definition rset_err (x : option error) (r : runner) : runner :=
  mkRunner (r_s r) (r_now r) (r_seq r) (r_q r) (r_random r) (r_heap r) (r_nodes r) (r_disks
    r) (r_peers r) (r_isolated r) (r_drop r) (r_delay r) (r_sends r) (r_trace r) (r_steps r)
    (r_acknowledged r) (r_converged r) x (r_recoverAt r) (r_ops r) (r_leaders r) (r_votes r)
    (r_committed r) (r_committedTerms r) (r_logMatching r) (r_previousCommit r)
    (r_previousApplied r) (r_eventCursor r).
Definition rset_ops (x : list operation) (r : runner) : runner :=
  mkRunner (r_s r) (r_now r) (r_seq r) (r_q r) (r_random r) (r_heap r) (r_nodes r) (r_disks
    r) (r_peers r) (r_isolated r) (r_drop r) (r_delay r) (r_sends r) (r_trace r) (r_steps r)
    (r_acknowledged r) (r_converged r) (r_err r) (r_recoverAt r) x (r_leaders r) (r_votes r)
    (r_committed r) (r_committedTerms r) (r_logMatching r) (r_previousCommit r)
    (r_previousApplied r) (r_eventCursor r).
Definition rset_leaders (x : gmap N string) (r : runner) : runner :=
  mkRunner (r_s r) (r_now r) (r_seq r) (r_q r) (r_random r) (r_heap r) (r_nodes r) (r_disks
    r) (r_peers r) (r_isolated r) (r_drop r) (r_delay r) (r_sends r) (r_trace r) (r_steps r)
    (r_acknowledged r) (r_converged r) (r_err r) (r_recoverAt r) (r_ops r) x (r_votes r)
    (r_committed r) (r_committedTerms r) (r_logMatching r) (r_previousCommit r)
    (r_previousApplied r) (r_eventCursor r).
Definition rset_votes (x : gmap string string) (r : runner) : runner :=
  mkRunner (r_s r) (r_now r) (r_seq r) (r_q r) (r_random r) (r_heap r) (r_nodes r) (r_disks
    r) (r_peers r) (r_isolated r) (r_drop r) (r_delay r) (r_sends r) (r_trace r) (r_steps r)
    (r_acknowledged r) (r_converged r) (r_err r) (r_recoverAt r) (r_ops r) (r_leaders r) x
    (r_committed r) (r_committedTerms r) (r_logMatching r) (r_previousCommit r)
    (r_previousApplied r) (r_eventCursor r).
Definition rset_committed (x : gmap N string) (r : runner) : runner :=
  mkRunner (r_s r) (r_now r) (r_seq r) (r_q r) (r_random r) (r_heap r) (r_nodes r) (r_disks
    r) (r_peers r) (r_isolated r) (r_drop r) (r_delay r) (r_sends r) (r_trace r) (r_steps r)
    (r_acknowledged r) (r_converged r) (r_err r) (r_recoverAt r) (r_ops r) (r_leaders r)
    (r_votes r) x (r_committedTerms r) (r_logMatching r) (r_previousCommit r)
    (r_previousApplied r) (r_eventCursor r).
Definition rset_committedTerms (x : gmap N N) (r : runner) : runner :=
  mkRunner (r_s r) (r_now r) (r_seq r) (r_q r) (r_random r) (r_heap r) (r_nodes r) (r_disks
    r) (r_peers r) (r_isolated r) (r_drop r) (r_delay r) (r_sends r) (r_trace r) (r_steps r)
    (r_acknowledged r) (r_converged r) (r_err r) (r_recoverAt r) (r_ops r) (r_leaders r)
    (r_votes r) (r_committed r) x (r_logMatching r) (r_previousCommit r) (r_previousApplied
    r) (r_eventCursor r).
Definition rset_logMatching (x : gmap string string) (r : runner) : runner :=
  mkRunner (r_s r) (r_now r) (r_seq r) (r_q r) (r_random r) (r_heap r) (r_nodes r) (r_disks
    r) (r_peers r) (r_isolated r) (r_drop r) (r_delay r) (r_sends r) (r_trace r) (r_steps r)
    (r_acknowledged r) (r_converged r) (r_err r) (r_recoverAt r) (r_ops r) (r_leaders r)
    (r_votes r) (r_committed r) (r_committedTerms r) x (r_previousCommit r)
    (r_previousApplied r) (r_eventCursor r).
Definition rset_previousCommit (x : list N) (r : runner) : runner :=
  mkRunner (r_s r) (r_now r) (r_seq r) (r_q r) (r_random r) (r_heap r) (r_nodes r) (r_disks
    r) (r_peers r) (r_isolated r) (r_drop r) (r_delay r) (r_sends r) (r_trace r) (r_steps r)
    (r_acknowledged r) (r_converged r) (r_err r) (r_recoverAt r) (r_ops r) (r_leaders r)
    (r_votes r) (r_committed r) (r_committedTerms r) (r_logMatching r) x (r_previousApplied
    r) (r_eventCursor r).
Definition rset_previousApplied (x : list N) (r : runner) : runner :=
  mkRunner (r_s r) (r_now r) (r_seq r) (r_q r) (r_random r) (r_heap r) (r_nodes r) (r_disks
    r) (r_peers r) (r_isolated r) (r_drop r) (r_delay r) (r_sends r) (r_trace r) (r_steps r)
    (r_acknowledged r) (r_converged r) (r_err r) (r_recoverAt r) (r_ops r) (r_leaders r)
    (r_votes r) (r_committed r) (r_committedTerms r) (r_logMatching r) (r_previousCommit r)
    x (r_eventCursor r).
Definition rset_eventCursor (x : list N) (r : runner) : runner :=
  mkRunner (r_s r) (r_now r) (r_seq r) (r_q r) (r_random r) (r_heap r) (r_nodes r) (r_disks
    r) (r_peers r) (r_isolated r) (r_drop r) (r_delay r) (r_sends r) (r_trace r) (r_steps r)
    (r_acknowledged r) (r_converged r) (r_err r) (r_recoverAt r) (r_ops r) (r_leaders r)
    (r_votes r) (r_committed r) (r_committedTerms r) (r_logMatching r) (r_previousCommit r)
    (r_previousApplied r) x.

Notation R := (M runner).

(** An index into a slice, out of range a panic. *)
Definition index {A} (l : list A) (i : nat) : R A := lift (l !! i).

(** ** Node objects *)

(** Virtual time is the clock of every node. *)
Definition set_clock (now : Z) (n : Node memoryDisk) : Node memoryDisk :=
  mkNode (n_cfg n) (n_peers n)
    (mkRuntime (rt_Manual (n_rt n)) (λ _, now * 1000000) (rt_Int64N (n_rt n)))
    (n_bootID n) (n_store n) (n_machine n) (n_role n) (n_leader n)
    (n_applied n) (n_next n) (n_match n) (n_wake n) (n_pending n) (n_deadline n) (n_failed n)
    (n_closed n) (n_outbox n) (n_busy n) (n_votes n) (n_sequence n) (n_paused n)
    (n_events n) (n_calls n) (n_chans n) (n_newchan n) (n_reads n) (n_draws n).

(** The node with the clock and the disk it shares with the runner. *)
Definition attach (r : runner) (disk : memoryDisk) (n : Node memoryDisk) : Node memoryDisk :=
  set_nstore (set_wal disk (n_store n)) (set_clock (r_now r) n).

(** A method of the node object at a place of the heap. *)
Definition on_node {A} (ref : nat) (m : M (Node memoryDisk) A) : R A := λ r,
  match r_heap r !! ref with
  | None => None
  | Some (i, n) =>
    match r_disks r !! i with
    | None => None
    | Some disk =>
      match m (attach r disk n) with
      | None => None
      | Some (a, n') =>
        Some (a, rset_disks (<[i := st_wal (n_store n')]> (r_disks r))
                   (rset_heap (<[ref := (i, n')]> (r_heap r)) r))
      end
    end
  end.

Definition node_status (ref : nat) : R Status :=
  r ← get; x ← index (r_heap r) ref; mret (statusLocked x.2).

Definition node_audit (ref : nat) : R Audit :=
  r ← get; x ← index (r_heap r) ref;
  let n := x.2 in
  mret (mkAudit (statusLocked n) (ds_vote (n_state n)) (cloneEntries (ds_log (n_state n)))
          (Digest (n_machine n))).

(** ** Events *)

Definition schedule (at_ : Z) (kind : string) (fn : action) : R unit :=
  modify (λ r, rset_seq (add64 (r_seq r) 1) r) ;;
  modify (λ r, rset_q (Push (mkItem at_ (r_seq r) kind fn) (r_q r)) r).

(** Every entry is hashed; the first 600 are kept in the result. *)
Definition record_ (kind node detail : string) : R unit :=
  modify (λ r, rset_trace (r_trace r ++ [mkTrace (r_now r) kind node detail]) r).

Definition fail_with (e : error) : R unit := modify (rset_err (Some e)).

Definition peer_ID (i : nat) : R string := r ← get; p ← index (r_peers r) i; mret (p_ID p).

Definition node_config (r : runner) (id : string) : Config :=
  mkConfig id "simulation" "" (r_peers r) "" 400000000 800000000 50000000 300000000 0 0.

Definition start (i : nat) : R unit :=
  r ← get;
  old ← index (r_nodes r) i;
  match old with Some ref => _ ← on_node ref Close; mret tt | None => mret tt end ;;
  r ← get;
  disk ← index (r_disks r) i;
  modify (rset_disks (<[i := mkMemoryDisk (md_records disk) ""]> (r_disks r))) ;;
  r ← get;
  let '(seed, random) := Uint64 (r_random r) in
  modify (rset_random random) ;;
  id ← peer_ID i;
  r ← get;
  disk ← index (r_disks r) i;
  let src := NewPCG seed (N.lxor seed (N.of_nat (i + 1))) in
  opened ← lift (OpenWithRuntime (node_config r id) false
    (mkRuntime true (λ _, r_now r * 1000000) (nth_draw src)) disk);
  match opened with
  | inl err => fail_with err
  | inr n =>
    modify (λ r, rset_nodes (<[i := Some (length (r_heap r))]> (r_nodes r))
      (rset_heap (r_heap r ++ [(i, n)]) (rset_disks (<[i := st_wal (n_store n)]> (r_disks r)) r))) ;;
    modify (λ r, rset_eventCursor (<[i := 0%N]> (r_eventCursor r)) r) ;;
    record_ "RESTART" id ""
  end.

Definition set_failure (i : nat) (failure : string) : R unit :=
  r ← get; disk ← index (r_disks r) i;
  modify (rset_disks (<[i := mkMemoryDisk (md_records disk) failure]> (r_disks r))).

Definition pause_node (i : nat) (paused : bool) : R unit :=
  r ← get; n ← index (r_nodes r) i;
  match n with Some ref => on_node ref (SetPaused paused) | None => mret tt end.

Definition fault (f : Fault) : R unit :=
  let i := Z.to_nat (FaultNode f) in
  id ← peer_ID i;
  record_ "FAULT" id (Kind f) ;;
  let kind_is k := bool_decide (Kind f = k) in
  if kind_is "crash" then
    r ← get; n ← index (r_nodes r) i;
    match n with
    | Some ref => _ ← on_node ref Close; modify (λ r, rset_nodes (<[i := None]> (r_nodes r)) r)
    | None => mret tt
    end
  else if kind_is "restart" then start i
  else if kind_is "pause" then pause_node i true
  else if kind_is "resume" then pause_node i false
  else if kind_is "partition" then modify (λ r, rset_isolated ({[i]} ∪ r_isolated r) r)
  else if kind_is "heal" then modify (rset_isolated ∅)
  else if kind_is "disk-before" then set_failure i "before"
  else if kind_is "disk-after" then set_failure i "after"
  else mret tt.

(** ** Clients *)

Definition set_op (i : nat) (f : operation → operation) : R unit :=
  modify (λ r, rset_ops (alter f i (r_ops r)) r).

Definition with_ticket t (o : operation) : operation :=
  mkOperation (op_command o) t (op_source o) (op_done o) (op_retryAt o).
Definition with_source ref (o : operation) : operation :=
  mkOperation (op_command o) (op_ticket o) ref (op_done o) (op_retryAt o).
Definition with_done (o : operation) : operation :=
  mkOperation (op_command o) (op_ticket o) (op_source o) true (op_retryAt o).
Definition with_retry at_ (o : operation) : operation :=
  mkOperation (op_command o) (op_ticket o) (op_source o) (op_done o) at_.

(** The healthy leader of the highest term among the running nodes from
    position [i] on: its position and its place in the heap. *)
Fixpoint best_leader (nodes : list (option nat)) (i : nat) (best : option (nat * nat)) (term : N)
    : R (option (nat * nat)) :=
  match nodes with
  | [] => mret best
  | None :: nodes' => best_leader nodes' (S i) best term
  | Some ref :: nodes' =>
    s ← node_status ref;
    if sx_Healthy s && bool_decide (sx_Role s = "leader") &&
       (bool_decide (best = None) || (term <? sx_Term s)%N)
    then best_leader nodes' (S i) (Some (i, ref)) (sx_Term s)
    else best_leader nodes' (S i) best term
  end.

Definition try (op : nat) : R unit :=
  r ← get;
  o ← index (r_ops r) op;
  if op_done o || bool_decide (op_ticket o ≠ None) then mret tt
  else
  set_op op (with_retry (r_now r + 150)) ;;
  best ← best_leader (r_nodes r) 0 None 0;
  match best with
  | None => mret tt
  | Some (best, ref) =>
    submitted ← on_node ref (Submit (Some (op_command o)) None);
    match submitted with
    | inl _ => mret tt
    | inr ticket =>
      set_op op (with_ticket (Some (ref, ticket))) ;;
      set_op op (with_source ref) ;;
      id ← peer_ID best;
      record_ "CLIENT_SUBMIT" id (c_ClientID (op_command o)) ;;
      schedule (r_now r + 1200) "client-timeout" (AClientTimeout op best (ref, ticket))
    end
  end.

(** Pointers to tickets are equal when they are the same ticket of the same node. *)
Definition same_ticket (t1 t2 : nat * Ticket) : bool :=
  (t1.1 =? t2.1)%nat && (t_done t1.2 =? t_done t2.2)%N.

Definition client_timeout (op best : nat) (ticket : nat * Ticket) : R unit :=
  r ← get;
  o ← index (r_ops r) op;
  match op_ticket o with
  | Some t =>
    if same_ticket t ticket then
      on_node ticket.1 (Cancel ticket.2) ;;
      set_op op (with_ticket None) ;;
      set_op op (with_retry (r_now r + 50)) ;;
      id ← peer_ID best;
      record_ "CLIENT_TIMEOUT" id (c_ClientID (op_command o))
    else mret tt
  | None => mret tt
  end.

Definition ack_error : error := ErrNew "acknowledgement before commit or wrong SET result".

(** One round of [collect]; [false] when it returns early. *)
Definition collect_one (op : nat) : R bool :=
  r ← get;
  o ← index (r_ops r) op;
  match op_ticket o with
  | None => mret true
  | Some (ref, ticket) =>
    polled ← on_node ref (Poll ticket);
    match polled with
    | None => mret true
    | Some out =>
      ok ← match o_err out return R bool with
           | Some _ => mret true
           | None =>
             a ← node_audit (op_source o);
             if (sx_CommitIndex (au_Status a) <? t_Index ticket)%N || negb (r_Applied (o_result out))
             then fail_with ack_error ;; mret false
             else
               set_op op with_done ;;
               modify (λ r, rset_acknowledged (r_acknowledged r + 1) r) ;;
               record_ "CLIENT_ACK" (sx_NodeID (au_Status a)) (c_ClientID (op_command o)) ;;
               mret true
           end;
      if (ok : bool) then
        set_op op (with_ticket None) ;; set_op op (with_retry (r_now r + 100)) ;; mret true
      else mret false
    end
  end.

(** A loop that may return early. *)
Fixpoint until_false {A} (body : A → R bool) (l : list A) : R bool :=
  match l with
  | [] => mret true
  | x :: l' => ok ← body x; if (ok : bool) then until_false body l' else mret false
  end.

Definition collect : R unit :=
  r ← get; _ ← until_false collect_one (seq 0 (length (r_ops r))); mret tt.

(** ** Messages *)

Definition blocked (r : runner) (from to : nat) : bool :=
  negb (from =? to)%nat && (bool_decide (from ∈ r_isolated r) || bool_decide (to ∈ r_isolated r)).

Definition draw (bound : Z) : R Z :=
  r ← get;
  if bound <=? 0 then panic
  else let '(x, random) := IntN (r_random r) bound in modify (rset_random random) ;; mret x.

Definition delayMS : R Z := r ← get; x ← draw (r_delay r + 1); mret (1 + x).

Definition complete (id : nat) : R unit :=
  modify (λ r, rset_sends (alter (λ x, mkSending (sd_from x) (sd_to x) (sd_source x) (sd_message x) true)
    id (r_sends r)) r).

(** The closure [finish] of a [send]. *)
Definition finish (id : nat) (v : VoteResponse) (a : AppendResponse) (err : option error) : R unit :=
  r ← get;
  x ← index (r_sends r) id;
  node ← index (r_nodes r) (sd_from x);
  if sd_completed x || negb (bool_decide (node = Some (sd_source x))) then mret tt
  else
    complete id ;;
    if bool_decide (m_Vote (sd_message x) ≠ None)
    then on_node (sd_source x) (DeliverVote (sd_message x) v err)
    else on_node (sd_source x) (DeliverAppend (sd_message x) a err).

Definition zeroVote : VoteResponse := mkVoteResponse 0 false.
Definition zeroAppend : AppendResponse := mkAppendResponse 0 false 0 0.

Definition message_detail (m : Message) : string := m_To m +:+ "/" +:+ pretty (m_Sequence m).

(** The closure [deliver]. *)
Definition deliver (id : nat) : R unit :=
  r ← get;
  x ← index (r_sends r) id;
  let m := sd_message x in
  node ← index (r_nodes r) (sd_to x);
  match node with
  | None => mret tt
  | Some ref =>
    if blocked r (sd_from x) (sd_to x) then mret tt
    else
      record_ "MESSAGE_DELIVERED" (m_From m) (message_detail m) ;;
      answer ← match m_Vote m return R (VoteResponse * AppendResponse * option error) with
               | Some req => '(v, err) ← on_node ref (RequestVote req); mret (v, zeroAppend, err)
               | None =>
                 req ← lift (m_Append m);
                 '(a, err) ← on_node ref (AppendEntries req); mret (zeroVote, a, err)
               end;
      let '(v, a, err) := answer in
      lost ← draw 100;
      if lost <? r_drop r then mret tt
      else d ← delayMS; schedule (r_now r + d) "response" (AResponse id v a err)
  end.

Definition respond (id : nat) (v : VoteResponse) (a : AppendResponse) (err : option error) : R unit :=
  r ← get;
  x ← index (r_sends r) id;
  if blocked r (sd_to x) (sd_from x) then mret tt else finish id v a err.

Definition send (from to : nat) (source : nat) (m : Message) : R unit :=
  r ← get;
  let id := length (r_sends r) in
  modify (rset_sends (r_sends r ++ [mkSending from to source m false])) ;;
  schedule (r_now r + 300) "rpc-timeout" (ARpcTimeout id) ;;
  dropped ← (if blocked r from to then mret true else x ← draw 100; mret (x <? r_drop r));
  if (dropped : bool) then record_ "MESSAGE_DROPPED" (m_From m) (message_detail m)
  else
    d ← delayMS;
    schedule (r_now r + d) "message" (ADeliver id) ;;
    x ← draw 100;
    if x <? DuplicatePercent (r_s r)
    then d ← delayMS; schedule (r_now r + d) "duplicate-message" (ADeliver id)
    else mret tt.

(** The last peer with an identifier. *)
Fixpoint find_peer (peers : list Peer) (id : string) (j : nat) (to : option nat) : option nat :=
  match peers with
  | [] => to
  | p :: peers' => find_peer peers' id (S j) (if bool_decide (p_ID p = id) then Some j else to)
  end.

Definition drain : R unit :=
  r ← get;
  for_each (λ i,
    r ← get; node ← index (r_nodes r) i;
    match node with
    | None => mret tt
    | Some ref =>
      ms ← on_node ref DrainMessages;
      for_each (λ m,
        r ← get;
        match find_peer (r_peers r) (m_To m) 0 None with
        | Some to => send i to ref m
        | None => mret tt
        end) ms
    end) (seq 0 (length (r_nodes r))).

(** ** The checks after every event *)

Definition monotonicity_error : error := ErrNew "commit/apply monotonicity violated".
Definition votes_error : error := ErrNew "two votes in one term".
Definition leaders_error : error := ErrNew "two leaders in one term".
Definition matching_error : error := ErrNew "log matching violated".
Definition prefix_error : error := ErrNew "committed prefix changed".
Definition completeness_error (index : N) (id : string) : error :=
  ErrNew ("future leader lost committed prefix at index " +:+ pretty index +:+ " on " +:+ id).

Definition violation (e : error) : R bool := fail_with e ;; mret false.

(** Whether a map of texts holds something other than [x] at [k]. *)
Definition differs `{Countable K} (m : gmap K string) (k : K) (x : string) : bool :=
  let old := default "" (m !! k) in
  negb (bool_decide (old = "")) && negb (bool_decide (old = x)).

Fixpoint check_log (s : Status) (es : list Entry) (prefix : string) : R bool :=
  match es with
  | [] => mret true
  | entry :: es' =>
    let h := EntryHash entry in
    let prefix := chain prefix h in
    let key := pretty (e_Index entry) +:+ "/" +:+ pretty (e_Term entry) in
    r ← get;
    if differs (r_logMatching r) key prefix then violation matching_error
    else
    modify (rset_logMatching (<[key := prefix]> (r_logMatching r))) ;;
    if (e_Index entry <=? sx_CommitIndex s)%N then
      if differs (r_committed r) (e_Index entry) h then violation prefix_error
      else
        modify (rset_committed (<[e_Index entry := h]> (r_committed r))) ;;
        (if bool_decide (r_committedTerms r !! e_Index entry = None)
         then modify (rset_committedTerms (<[e_Index entry := sx_Term s]> (r_committedTerms r)))
         else mret tt) ;;
        check_log s es' prefix
    else check_log s es' prefix
  end.

(** Whether a leader's log lacks an entry committed by its term, and the first that
    it lacks. *)
Definition lost (r : runner) (a : Audit) (index : N) (h : string) : bool :=
  (default 0%N (r_committedTerms r !! index) <=? sx_Term (au_Status a))%N &&
  match slice_get (au_Log a) index with
  | None => true
  | Some e => negb (bool_decide (EntryHash e = h))
  end.

Definition lost_prefix (r : runner) (a : Audit) : option N :=
  fst <$> List.find (λ '(index, h), lost r a index h) (range string (r_committed r)).

Definition check_event (i : nat) (e : Event) : R unit :=
  modify (λ r, rset_eventCursor (<[i := ev_ID e]> (r_eventCursor r)) r) ;;
  record_ (ev_Type e) (ev_NodeID e)
    (pretty (ev_Term e) +:+ "/" +:+ pretty (ev_Index e) +:+ "/" +:+ ev_Peer e +:+ "/" +:+ ev_MessageID e).

Definition vote_key (s : Status) : string := sx_NodeID s +:+ "/" +:+ pretty (sx_Term s).

Definition is_leader (s : Status) : bool := bool_decide (sx_Role s = "leader").

Definition check_node (i : nat) : R bool :=
  r ← get;
  node ← index (r_nodes r) i;
  match node with
  | None => mret true
  | Some ref =>
    a ← node_audit ref;
    let s := au_Status a in
    x ← index (r_heap r) ref;
    cursor ← index (r_eventCursor r) i;
    for_each (check_event i) (After cursor (n_events x.2)) ;;
    pc ← index (r_previousCommit r) i;
    pa ← index (r_previousApplied r) i;
    if (sx_CommitIndex s <? pc)%N || (sx_LastApplied s <? pa)%N ||
       (sx_CommitIndex s <? sx_LastApplied s)%N
    then violation monotonicity_error
    else
    modify (λ r, rset_previousCommit (<[i := sx_CommitIndex s]> (r_previousCommit r)) r) ;;
    modify (λ r, rset_previousApplied (<[i := sx_LastApplied s]> (r_previousApplied r)) r) ;;
    if negb (bool_decide (au_Vote a = "")) && differs (r_votes r) (vote_key s) (au_Vote a)
    then violation votes_error
    else
    (if bool_decide (au_Vote a = "") then mret tt
     else modify (λ r, rset_votes (<[vote_key s := au_Vote a]> (r_votes r)) r)) ;;
    if is_leader s && differs (r_leaders r) (sx_Term s) (sx_NodeID s)
    then violation leaders_error
    else
    (if is_leader s then modify (λ r, rset_leaders (<[sx_Term s := sx_NodeID s]> (r_leaders r)) r)
     else mret tt) ;;
    es ← lift (slice_from (au_Log a) 1);
    ok ← check_log s es "";
    if negb ok then mret false
    else
    r ← get;
    match (if is_leader s then lost_prefix r a else None) with
    | Some index => violation (completeness_error index (sx_NodeID s))
    | None => mret true
    end
  end.

Definition check : R unit :=
  r ← get; _ ← until_false check_node (seq 0 (length (r_nodes r))); mret tt.

(** The digest and the applied index of the first node, once it is seen. *)
Fixpoint converged_from (nodes : list (option nat)) (first : option (string * N)) : R bool :=
  match nodes with
  | [] => mret true
  | None :: _ => mret false
  | Some ref :: nodes' =>
    a ← node_audit ref;
    let s := au_Status a in
    if negb (sx_Healthy s) || negb (sx_CommitIndex s =? sx_LastLogIndex s)%N then mret false
    else
    match first with
    | None => converged_from nodes' (Some (au_StateHash a, sx_LastApplied s))
    | Some (digest, index) =>
      if negb (bool_decide (digest = au_StateHash a)) || negb (index =? sx_LastApplied s)%N
      then mret false else converged_from nodes' first
    end
  end.

Definition converged : R bool := r ← get; converged_from (r_nodes r) None.

(** ** The run *)

Definition recover_node (i : nat) : R unit :=
  r ← get;
  node ← index (r_nodes r) i;
  set_failure i "" ;;
  match node with
  | None => start i
  | Some ref =>
    s ← node_status ref;
    let wasPaused := sx_Paused s in
    (if wasPaused then on_node ref (SetPaused false) else mret tt) ;;
    s ← node_status ref;
    if negb (sx_Healthy s) then start i
    else if wasPaused then mret tt else on_node ref (SetPaused false)
  end.

Definition recover_all : R unit :=
  modify (rset_isolated ∅) ;; modify (rset_drop 0) ;; modify (rset_delay 5) ;;
  r ← get;
  for_each recover_node (seq 0 (length (r_nodes r))) ;;
  record_ "HEAL_ALL" "" "".

Definition tick_op (op : nat) : R unit :=
  r ← get;
  o ← index (r_ops r) op;
  if negb (op_done o) && bool_decide (op_ticket o = None) && (op_retryAt o <=? r_now r) &&
     (800 <=? r_now r)
  then try op else mret tt.

Definition tick : R unit :=
  r ← get;
  for_each (λ i,
    r ← get; node ← index (r_nodes r) i;
    match node with Some ref => on_node ref Tick | None => mret tt end) (seq 0 (length (r_nodes r))) ;;
  r ← get;
  for_each tick_op (seq 0 (length (r_ops r))) ;;
  r ← get;
  schedule (r_now r + 50) "tick" ATick.

Definition run_action (a : action) : R unit :=
  match a with
  | AFault f => fault f
  | AClient op => r ← get; set_op op (with_retry (r_now r)) ;; try op
  | ARecoverAll => recover_all
  | ATick => tick
  | ARpcTimeout id => finish id zeroVote zeroAppend (Some (ErrNew "virtual RPC timeout"))
  | ADeliver id => deliver id
  | AResponse id v a err => respond id v a err
  | AClientTimeout op best ticket => client_timeout op best ticket
  end.

Definition limit (r : runner) : Z :=
  r_recoverAt r + Z.max 12000 (Operations (r_s r) * 10).

Definition max_steps : N := 2000000.

(** One iteration: the event [e], the checks, and whether to go on. *)
Definition run_event (e : item) : R bool :=
  modify (rset_now (it_at e)) ;;
  modify (λ r, rset_steps (r_steps r + 1)%N r) ;;
  record_ "SCHEDULE" "" (pretty (it_seq e) +:+ ":" +:+ it_kind e) ;;
  run_action (it_run e) ;;
  collect ;;
  drain ;;
  check ;;
  r ← get;
  if (r_recoverAt r + 1500 <? r_now r) && (r_acknowledged r =? Operations (r_s r)) then
    done ← converged;
    if (done : bool) then modify (rset_converged true) ;; mret false else mret true
  else mret true.

(** The context's state at each check. *)
Section loop.
Context (ctx : N → option error).

Fixpoint loop (fuel : nat) : R unit :=
  match fuel with
  | O => mret tt
  | S fuel =>
    r ← get;
    if bool_decide (r_q r = []) || bool_decide (r_err r ≠ None) || (max_steps <=? r_steps r)%N
    then mret tt
    else
    match ctx (r_steps r) with
    | Some err => fail_with err
    | None =>
      '(e, q) ← lift (Pop (r_q r));
      modify (rset_q q) ;;
      if limit r <? it_at e then mret tt
      else
        again ← run_event e;
        if (again : bool) then loop fuel else mret tt
    end
  end.

Definition peer_at (i : nat) : Peer :=
  mkPeer ("node-" +:+ pretty (i + 1)%nat) ("http://peer:" +:+ pretty (8000 + Z.of_nat i))
    ("http://client:" +:+ pretty (7000 + Z.of_nat i)).

Definition client_operation (i : nat) : operation :=
  mkOperation
    (mkCommand ("client-" +:+ pretty i) 1 "SET" ("key-" +:+ pretty (Nat.modulo i 7)) ("value-" +:+ pretty i) "")
    None 0 false (800 + Z.of_nat i * 60).

Definition new_runner (s : Scenario) : runner :=
  let n := Z.to_nat (Nodes s) in
  mkRunner s 0 0 [] (NewPCG (Seed s) (N.lxor (Seed s) 0x853c49e6748fea9b))
    [] (replicate n None) (replicate n (mkMemoryDisk [] "")) (peer_at <$> seq 0 n)
    ∅ (DropPercent s) (MaxDelayMS s) [] [] 0 0 false None (Operations s * 60 + 1800) []
    ∅ ∅ ∅ ∅ ∅ (replicate n 0%N) (replicate n 0%N) (replicate n 0%N).

Definition schedule_fault (f : Fault) : R unit :=
  modify (λ r, mkRunner (r_s r) (r_now r) (r_seq r) (r_q r) (r_random r) (r_heap r) (r_nodes r)
    (r_disks r) (r_peers r) (r_isolated r) (r_drop r) (r_delay r) (r_sends r) (r_trace r) (r_steps r)
    (r_acknowledged r) (r_converged r) (r_err r) (Z.max (r_recoverAt r) (AtMS f + 1000)) (r_ops r)
    (r_leaders r) (r_votes r) (r_committed r) (r_committedTerms r) (r_logMatching r)
    (r_previousCommit r) (r_previousApplied r) (r_eventCursor r)) ;;
  schedule (AtMS f) "fault" (AFault f).

Definition schedule_client (i : nat) : R unit :=
  modify (λ r, rset_ops (r_ops r ++ [client_operation i]) r) ;;
  schedule (800 + Z.of_nat i * 60) "client" (AClient i).

(** Everything before the loop. *)
Definition prepare : R unit :=
  r ← get;
  for_each start (seq 0 (length (r_nodes r))) ;;
  for_each schedule_fault (Faults (r_s r)) ;;
  for_each schedule_client (seq 0 (Z.to_nat (Operations (r_s r)))) ;;
  r ← get;
  schedule (r_recoverAt r) "recover-all" ARecoverAll ;;
  schedule 50 "tick" ATick.

Record SimResult := mkSimResult {
  sr_Passed : bool;
  sr_Error : option error;
  sr_Steps : N;
  sr_VirtualMS : Z;
  sr_Acknowledged : Z;
  sr_Pending : Z;
  sr_Converged : bool;
  sr_Trace : list Trace;
}.

Definition finish_result (r : runner) : SimResult :=
  let pending := Operations (r_s r) - r_acknowledged r in
  let passed := bool_decide (r_err r = None) && r_converged r && (pending =? 0) in
  mkSimResult passed
    (match r_err r with
     | Some e => Some e
     | None => if passed then None
               else Some (ErrNew "cluster did not finish and converge after healing")
     end)
    (r_steps r) (r_now r) (r_acknowledged r) pending (r_converged r) (take 600 (r_trace r)).

(** The loop runs at most [max_steps] events, so its fuel is never used up. *)
Definition run_fuel : nat := S (N.to_nat max_steps).

Definition Run (s : Scenario) : option SimResult :=
  match Validate s with
  | Some err => Some (mkSimResult false (Some err) 0 0 0 0 false [])
  | None =>
    match (prepare ;; loop run_fuel) (new_runner s) with
    | None => None
    | Some (_, r) => Some (finish_result r)
    end
  end.

End loop.

(** ** [Minimize] *)

Section minimize.
Context (ctx_ok : nat → bool) (fails : Scenario → option bool).

Definition with_faults (fs : list Fault) (s : Scenario) : Scenario :=
  mkScenario (Version s) (Seed s) (Nodes s) (Operations s) (MaxDelayMS s) (DropPercent s)
    (DuplicatePercent s) fs.

Definition remove_at {A} (i : nat) (l : list A) : list A := take i l ++ drop (S i) l.

(** The loop: at most a hundred candidates are tried, and none once the context
    has ended, which is asked at each iteration. *)
Fixpoint minimize_loop (fuel : nat) (s : Scenario) (i attempts : nat) : option Scenario :=
  match fuel with
  | O => Some s
  | S fuel =>
    if (i <? length (Faults s))%nat && (attempts <? 100)%nat && ctx_ok attempts then
      let candidate := with_faults (remove_at i (Faults s)) s in
      match fails candidate with
      | None => None
      | Some true => minimize_loop fuel candidate 0 (S attempts)
      | Some false => minimize_loop fuel s (S i) (S attempts)
      end
    else Some s
  end.

(** [sort.SliceStable] by time. *)
Fixpoint insert_fault (f : Fault) (l : list Fault) : list Fault :=
  match l with
  | [] => [f]
  | g :: l' => if AtMS f <=? AtMS g then f :: g :: l' else g :: insert_fault f l'
  end.

Fixpoint sort_faults (l : list Fault) : list Fault :=
  match l with
  | [] => []
  | f :: l' => insert_fault f (sort_faults l')
  end.

(** A predicate that panics makes it panic. *)
Definition Minimize (s : Scenario) : option Scenario :=
  match fails s with
  | None => None
  | Some false => Some s
  | Some true => minimize_loop 101 (with_faults (sort_faults (Faults s)) s) 0 0
  end.

End minimize.

End runner.
