(* ===== verification/SimulationProps.v ===== *)
(** * SimulationProps: the queue, virtual time, and the minimizer

    What the simulator's scheduler promises: it runs the earliest event, virtual
    time never goes back, the loop needs no more fuel than the step limit, and
    the minimizer deletes faults one at a time as long as the scenario fails. *)

From stdpp Require Import base numbers list gmap strings fin_maps pretty relations sorting options.
From S2P Require Import Prelude Effects Bytes StateMachine Wal Journal Store Codec Events Node NodeExamples Simulation.

Local Open Scope Z_scope.
#[local] Set Default Proof Using "Type*".

(** ** The queue *)

Lemma Pop_none q : Pop q = None ↔ q = [].
Proof.
  destruct q as [|x q]; [done|]. split; [|done]. cbn. destruct (Pop q) as [[y rest]|]; [|done].
  by destruct (Less y x).
Qed.

Lemma Less_trans x y z : Less x y = true → Less y z = true → Less x z = true.
Proof.
  unfold Less. destruct (Z.eqb_spec (it_at x) (it_at y)), (Z.eqb_spec (it_at y) (it_at z)),
    (Z.eqb_spec (it_at x) (it_at z)); rewrite ?N.ltb_lt, ?Z.ltb_lt; lia.
Qed.

Lemma Less_false_trans x y z : Less y x = false → Less z y = false → Less z x = false.
Proof.
  unfold Less. destruct (Z.eqb_spec (it_at y) (it_at x)), (Z.eqb_spec (it_at z) (it_at y)),
    (Z.eqb_spec (it_at z) (it_at x)); rewrite ?N.ltb_ge, ?Z.ltb_ge; lia.
Qed.

Lemma Less_asym x y : Less x y = true → Less y x = false.
Proof.
  unfold Less. destruct (Z.eqb_spec (it_at x) (it_at y)), (Z.eqb_spec (it_at y) (it_at x));
    rewrite ?N.ltb_lt, ?N.ltb_ge, ?Z.ltb_lt, ?Z.ltb_ge; lia.
Qed.

Lemma Pop_min q x q' : Pop q = Some (x, q') →
  q ≡ₚ x :: q' ∧ Forall (λ y, Less y x = false) q'.
Proof.
  revert x q'. induction q as [|x0 q IH]; intros x q' H; [done|]. cbn in H.
  destruct (Pop q) as [[y rest]|] eqn:Hp.
  - destruct (IH _ _ eq_refl) as [Hperm Hmin]. destruct (Less y x0) eqn:Hl; injection H as <- <-.
    + split; [by rewrite Hperm, Permutation_swap|]. apply Forall_cons. split; [by apply Less_asym|done].
    + split; [by rewrite Hperm|]. apply Forall_cons. split; [done|].
      eapply Forall_impl; [exact Hmin|]. intros z Hz. by eapply Less_false_trans.
  - injection H as <- <-. apply Pop_none in Hp as ->. split; [done|by apply Forall_nil].
Qed.

(** The queue hands out its events in order: the event taken is one of those
    queued, the others stay, and none of them is due earlier, or as early and
    scheduled before it. *)
Theorem Pop_earliest q x q' :
  Pop q = Some (x, q') →
  q ≡ₚ x :: q' ∧ ∀ y, y ∈ q' → it_at x < it_at y ∨ it_at x = it_at y ∧ (it_seq x ≤ it_seq y)%N.
Proof.
  intros H. destruct (Pop_min _ _ _ H) as [Hp Hm]. split; [done|]. intros y Hy.
  rewrite Forall_forall in Hm. specialize (Hm y Hy). unfold Less in Hm.
  destruct (Z.eqb_spec (it_at y) (it_at x)) as [E|]; [apply N.ltb_ge in Hm|apply Z.ltb_ge in Hm]; lia.
Qed.

(** ** The minimizer *)

Section minimize.
Context (ctx_ok : nat → bool) (fails : Scenario → option bool).

Lemma remove_at_sublist {A} i (l : list A) : remove_at i l `sublist_of` l.
Proof.
  unfold remove_at. rewrite <-(take_drop i l) at 3. apply sublist_app; [done|].
  rewrite <-Nat.add_1_r, <-drop_drop. apply sublist_drop.
Qed.

Lemma with_faults_again fs fs' s : with_faults fs (with_faults fs' s) = with_faults fs s.
Proof. done. Qed.

(** The scenario is a sub-scenario of [s0] that fails, if it is not [s0]. *)
Record shrunk (s0 s : Scenario) : Prop := {
  sh_same : s = with_faults (Faults s) s0;
  sh_faults : Faults s `sublist_of` Faults s0;
  sh_fails : s = s0 ∨ fails s = Some true;
}.

Lemma minimize_loop_shrunk fuel s0 s i attempts s' :
  minimize_loop ctx_ok fails fuel s i attempts = Some s' → shrunk s0 s → shrunk s0 s'.
Proof.
  revert s i attempts. induction fuel as [|fuel IH]; intros s i attempts; cbn [minimize_loop]; [by intros [= <-]|].
  destruct (_ && _); [|by intros [= <-]]. cbv zeta.
  destruct (fails (with_faults _ _)) as [[|]|] eqn:Hf; intros H Hs; [|by eapply IH|done]. eapply IH; [exact H|].
  destruct Hs as [H1 H2 H3]. split.
  - by rewrite H1.
  - cbn [Faults with_faults]. etransitivity; [apply remove_at_sublist|done].
  - by right.
Qed.

(** The attempts that the rest of the loop can take at most. *)
Definition attempts_left (len i : nat) : nat := (len - i) + len * (len - 1) / 2.

Lemma attempts_left_pass len i : (i < len)%nat → attempts_left len i = S (attempts_left len (S i)).
Proof using Type. unfold attempts_left. lia. Qed.

Lemma attempts_left_fail len i : (i < len)%nat → (attempts_left (len - 1) 0 < attempts_left len i)%nat.
Proof using Type.
  intros Hi. unfold attempts_left. assert ((len - 1) * (len - 1 - 1) / 2 + (len - 1) = len * (len - 1) / 2)%nat; [|lia].
  destruct len as [|len]; [lia|]. replace (S len - 1)%nat with len by lia.
  rewrite <-Nat.div_add by done. f_equal. destruct len; [done|]. nia.
Qed.

Lemma length_remove_at {A} i (l : list A) : (i < length l)%nat → length (remove_at i l) = (length l - 1)%nat.
Proof using Type. intros Hi. unfold remove_at. rewrite length_app, length_take, length_drop. lia. Qed.

(** With attempts enough, the loop ends for want of candidates: every deletion of
    one more fault has been tried on the result, and passes. *)
Lemma minimize_loop_minimal fuel s i attempts s' :
  (∀ a, ctx_ok a = true) → (attempts + attempts_left (length (Faults s)) i ≤ 100)%nat →
  (attempts_left (length (Faults s)) i < fuel)%nat →
  (∀ j, (j < i)%nat → fails (with_faults (remove_at j (Faults s)) s) = Some false) →
  minimize_loop ctx_ok fails fuel s i attempts = Some s' →
  ∀ j, (j < length (Faults s'))%nat → fails (with_faults (remove_at j (Faults s')) s') = Some false.
Proof using Type.
  intros Hctx. revert s i attempts. induction fuel as [|fuel IH]; intros s i attempts Ha Hf Hpass; [lia|].
  cbn [minimize_loop]. rewrite Hctx, andb_true_r.
  destruct (Nat.ltb_spec i (length (Faults s))) as [Hi|Hi]; cbn [andb].
  - assert (1 ≤ attempts_left (length (Faults s)) i)%nat by (unfold attempts_left; lia).
    rewrite (proj2 (Nat.ltb_lt _ _)) by lia. cbv zeta.
    destruct (fails (with_faults _ _)) as [[|]|] eqn:Hfail; [apply IH..|done].
    + cbn [Faults with_faults]. rewrite length_remove_at by done.
      pose proof (attempts_left_fail _ _ Hi). lia.
    + cbn [Faults with_faults]. rewrite length_remove_at by done.
      pose proof (attempts_left_fail _ _ Hi). lia.
    + intros j Hj. lia.
    + rewrite attempts_left_pass in Ha by done. lia.
    + rewrite attempts_left_pass in Hf by done. lia.
    + intros j Hj. destruct (Nat.eq_dec j i) as [->|]; [done|]. apply Hpass. lia.
  - intros [= <-] j Hj. apply Hpass. lia.
Qed.

Lemma minimize_loop_panics fuel s i attempts :
  minimize_loop ctx_ok fails fuel s i attempts = None → ∃ x, fails x = None.
Proof using Type.
  revert s i attempts. induction fuel as [|fuel IH]; intros s i attempts; cbn [minimize_loop]; [done|].
  destruct (_ && _); [|done]. cbv zeta. destruct (fails (with_faults _ _)) as [[|]|] eqn:Hf; [apply IH..|by eexists].
Qed.

Lemma insert_fault_perm f l : insert_fault f l ≡ₚ f :: l.
Proof using Type.
  induction l as [|g l IH]; [done|]. cbn. destruct (_ <=? _); [done|]. by rewrite IH, Permutation_swap.
Qed.

Lemma sort_faults_perm l : sort_faults l ≡ₚ l.
Proof using Type. induction l as [|f l IH]; [done|]. cbn. by rewrite insert_fault_perm, IH. Qed.

Lemma insert_fault_sorted f l :
  StronglySorted Z.le (AtMS <$> l) → StronglySorted Z.le (AtMS <$> insert_fault f l).
Proof using Type.
  induction l as [|g l IH]; intros Hs; [cbn; by repeat constructor|]. cbn [insert_fault].
  destruct (Z.leb_spec (AtMS f) (AtMS g)) as [Hle|Hgt].
  - cbn in *. inversion Hs as [|? ? Hs' Hall]; subst. constructor; [done|]. constructor; [done|].
    eapply Forall_impl; [exact Hall|]. cbn. lia.
  - cbn in *. inversion Hs as [|? ? Hs' Hall]; subst. constructor; [by apply IH|].
    rewrite insert_fault_perm. cbn. constructor; [lia|done].
Qed.

Lemma sort_faults_sorted l : StronglySorted Z.le (AtMS <$> sort_faults l).
Proof using Type. induction l as [|f l IH]; [constructor|]. cbn. by apply insert_fault_sorted. Qed.

(** [Minimize] panics only if its predicate does, and returns a passing scenario
    unchanged.  Of a failing one it
    returns a sub-scenario, with faults in the order of their time, that fails,
    unless no deletion failed and it is the whole scenario in that order; it
    differs in nothing but its faults; and of at most thirteen faults, when the
    context lives, it returns a scenario that passes if any one fault more is
    left out. *)
Theorem Minimize_spec s :
  (Minimize ctx_ok fails s = None → ∃ x, fails x = None) ∧
  ∀ s', Minimize ctx_ok fails s = Some s' →
  (fails s = Some false → s' = s) ∧
  (fails s = Some true →
    ∃ s0, s0 = with_faults (sort_faults (Faults s)) s ∧ Faults s0 ≡ₚ Faults s ∧
      StronglySorted Z.le (AtMS <$> Faults s0) ∧ shrunk s0 s' ∧
      ((∀ a, ctx_ok a = true) → (length (Faults s) ≤ 13)%nat →
       ∀ j, (j < length (Faults s'))%nat → fails (with_faults (remove_at j (Faults s')) s') = Some false)).
Proof using Type.
  unfold Minimize. split.
  { destruct (fails s) as [[|]|] eqn:Hf; [apply minimize_loop_panics|done|by eexists]. }
  intros s'. destruct (fails s) as [[|]|]; [|by intros [= ->]|done]. intros H. split; [done|intros _].
  eexists. split; [reflexivity|]. split_and!.
  - apply sort_faults_perm.
  - apply sort_faults_sorted.
  - eapply minimize_loop_shrunk; [exact H|]. split; [done|done|by left].
  - intros Hctx Hlen. eapply minimize_loop_minimal; [done|..|exact H]; [| |intros; lia];
      cbn [Faults with_faults]; rewrite sort_faults_perm; unfold attempts_left;
      (assert (length (Faults s) * (length (Faults s) - 1) / 2 ≤ 13 * 12 / 2)%nat
        by (apply Nat.Div0.div_le_mono; nia)); change (13 * 12 / 2)%nat with 78%nat in *; lia.
Qed.

End minimize.

(** ** Virtual time *)

(** [IntN] draws below its bound. *)
Class RandomLaws `{Random} : Prop := {
  IntN_range src bound : 0 < bound → 0 ≤ (IntN src bound).1 ∧ (IntN src bound).1 < bound;
}.

Section time.
Context `{HC : Codec record, HP : Platform, HR : Random, HRL : !RandomLaws, HD : Digests}.
Notation R := (M runner).

(** Nothing queued is overdue, and the trace is in the order of time. *)
Record timely (r : runner) : Prop := {
  ti_queue : Forall (λ x, r_now r ≤ it_at x) (r_q r);
  ti_trace : Forall (λ t, tr_AtMS t ≤ r_now r) (r_trace r);
  ti_sorted : StronglySorted Z.le (tr_AtMS <$> r_trace r);
  ti_delay : 0 ≤ r_delay r;
}.

(** What the body of an event may do to the clock and the queue. *)
Record forward (r r' : runner) : Prop := {
  fw_now : r_now r' = r_now r;
  fw_steps : r_steps r' = r_steps r;
  fw_scenario : r_s r' = r_s r;
  fw_recoverAt : r_recoverAt r' = r_recoverAt r;
  fw_timely : timely r → timely r';
}.

#[export] Instance forward_preorder : PreOrder forward.
Proof using Type.
  split; [by split|]. intros r1 r2 r3 [] []. split; try congruence. auto.
Qed.

Definition clocked (r : runner) := (r_now r, r_steps r, r_s r, r_recoverAt r, r_q r, r_trace r, r_delay r).

Lemma forward_same r r' : clocked r' = clocked r → forward r r'.
Proof using Type.
  unfold clocked. intros [= E1 E2 E3 E4 E5 E6 E7]. split; try done. intros [].
  split; by rewrite ?E1, ?E5, ?E6, ?E7.
Qed.

Definition tame {A} (m : R A) : Prop := ∀ r, wp True m (λ _ r', forward r r') r.

(** A computation started in a state reached from [r]. *)
Lemma tame_from {A} (m : R A) r r1 : forward r r1 → tame m → wp True m (λ _ r', forward r r') r1.
Proof using Type. intros H Hm. eapply wp_mono; [apply Hm|]. intros a r2 H2. by etransitivity. Qed.

Lemma tame_ret {A} (a : A) : tame (mret a).
Proof using Type. intros r. apply wp_ret. reflexivity. Qed.

Lemma tame_bind {A B} (m : R A) (f : A → R B) : tame m → (∀ a, tame (f a)) → tame (m ≫= f).
Proof using Type.
  intros Hm Hf r. apply wp_bind. eapply wp_mono; [apply Hm|]. cbn beta. intros a r1 H1. by apply tame_from.
Qed.

Lemma tame_get {B} (f : runner → R B) :
  (∀ r, wp True (f r) (λ _ r', forward r r') r) → tame (r ← get; f r).
Proof using Type. intros H r. apply wp_bind, wp_get, H. Qed.

Lemma tame_reading {B} (f : runner → R B) : (∀ r, tame (f r)) → tame (r ← get; f r).
Proof using Type. intros H. apply tame_get. intros r. apply H. Qed.

Lemma tame_modify f : (∀ r, clocked (f r) = clocked r) → tame (modify f).
Proof using Type. intros H r. apply wp_modify. by apply forward_same. Qed.

Lemma tame_lift {A} (o : option A) : tame (lift o).
Proof using Type. intros r. apply wp_lift; [done|]. intros a _. reflexivity. Qed.

Lemma tame_panic {A} : tame (panic : R A).
Proof using Type. done. Qed.

Lemma tame_for_each {A} (body : A → R unit) l : (∀ x, tame (body x)) → tame (for_each body l).
Proof using Type.
  intros H. induction l as [|x l IH]; [apply tame_ret|]. apply tame_bind; [apply H|done].
Qed.

Lemma tame_until_false {A} (body : A → R bool) l : (∀ x, tame (body x)) → tame (until_false body l).
Proof using Type.
  intros H. induction l as [|x l IH]; [apply tame_ret|]. cbn. apply tame_bind; [apply H|].
  intros []; [done|apply tame_ret].
Qed.

Lemma tame_on_node {A} ref (m : M (Node memoryDisk) A) : tame (on_node ref m).
Proof using Type.
  intros r. unfold wp, on_node. destruct (r_heap r !! ref) as [[i n]|]; [|done].
  destruct (r_disks r !! i) as [disk|]; [|done]. destruct (m (attach r disk n)) as [[a n']|]; [|done].
  by apply forward_same.
Qed.

Lemma record_tame kind node detail : tame (record_ kind node detail).
Proof using Type.
  intros r. unfold record_. apply wp_modify. split; try done. intros [H1 H2 H3 H4]. split; cbn; try done.
  - apply Forall_app. split; [done|]. apply Forall_singleton. cbn. lia.
  - rewrite fmap_app. cbn. apply StronglySorted_app. split_and!; [|done|by repeat constructor].
    intros x y Hx Hy. apply list_elem_of_singleton in Hy as ->. apply list_elem_of_fmap in Hx as (t&->&Ht).
    rewrite Forall_forall in H2. by apply H2.
Qed.

(** Scheduling for the present or the future. *)
Lemma schedule_wp at_ kind a r :
  r_now r ≤ at_ → wp True (schedule at_ kind a) (λ _ r', forward r r') r.
Proof using Type.
  intros Ha. unfold schedule. apply wp_bind, wp_modify, wp_modify. split; try done.
  intros [H1 H2 H3 H4]. split; cbn; try done. unfold Push. apply Forall_app. split; [done|].
  by apply Forall_singleton.
Qed.

Lemma schedule_from at_ kind a r r1 :
  forward r r1 → r_now r ≤ at_ → wp True (schedule at_ kind a) (λ _ r', forward r r') r1.
Proof using Type.
  intros H Ha. eapply wp_mono; [apply schedule_wp; by rewrite (fw_now _ _ H)|]. intros [] r2 H2. by etransitivity.
Qed.

Lemma draw_wp bound r : wp True (draw bound) (λ x r', forward r r' ∧ 0 ≤ x) r.
Proof using HRL.
  unfold draw. apply wp_bind, wp_get. destruct (Z.leb_spec bound 0) as [|Hb]; [done|].
  pose proof (IntN_range (r_random r) bound Hb) as Hr. destruct (IntN _ _) as [x random].
  apply wp_bind, wp_modify, wp_ret. split; [by apply forward_same|apply Hr].
Qed.

Lemma delayMS_wp r : wp True delayMS (λ x r', forward r r' ∧ 0 ≤ x) r.
Proof using HRL.
  unfold delayMS. apply wp_bind, wp_get. apply wp_bind. eapply wp_mono; [apply draw_wp|]. cbn beta.
  intros x r1 [H Hx]. apply wp_ret. split; [done|lia].
Qed.

Lemma tame_draw bound : tame (draw bound).
Proof using HRL. intros r. eapply wp_mono; [apply draw_wp|]. by intros x r1 []. Qed.

End time.

(** Symbolic execution of what keeps time. *)
Ltac tame :=
  repeat match goal with
  | |- tame (mret _) => apply tame_ret
  | |- tame (lift _) => apply tame_lift
  | |- tame (index _ _) => apply tame_lift
  | |- tame panic => apply tame_panic
  | |- tame (modify _) => apply tame_modify; intros ?; reflexivity
  | |- tame (record_ _ _ _) => apply record_tame
  | |- tame (on_node _ _) => apply tame_on_node
  | |- tame (for_each _ _) => apply tame_for_each; intros ?
  | |- tame (until_false _ _) => apply tame_until_false; intros ?
  | |- tame (mbind _ get) => apply tame_reading; intros ?
  | |- tame (mbind _ _) => apply tame_bind; [|intros ?]
  | |- tame (if ?b then _ else _) => destruct b
  | |- tame (match ?x with _ => _ end) => destruct x
  | |- tame (let _ := _ in _) => cbv zeta
  | |- tame _ => solve [eauto with tame]
  end.

Create HintDb tame.

Section run.
Context `{HC : Codec record, HP : Platform, HR : Random, HRL : !RandomLaws, HD : Digests}.
Notation R := (M runner).

(** *** Every action keeps time *)

Lemma tame_start i : tame (start i).
Proof using Type.
  unfold start, peer_ID, fail_with. tame.
Qed.
#[local] Hint Resolve tame_start : tame.

Lemma tame_peer_ID i : tame (peer_ID i).
Proof using Type. unfold peer_ID. tame. Qed.
#[local] Hint Resolve tame_peer_ID : tame.

Lemma tame_set_failure i failure : tame (set_failure i failure).
Proof using Type. unfold set_failure. tame. Qed.
#[local] Hint Resolve tame_set_failure : tame.

Lemma tame_fault f : tame (fault f).
Proof using Type. unfold fault, pause_node. tame. Qed.

Lemma tame_set_op i f : tame (set_op i f).
Proof using Type. unfold set_op. tame. Qed.
#[local] Hint Resolve tame_set_op : tame.

Lemma tame_status ref : tame (node_status ref).
Proof using Type. unfold node_status. tame. Qed.

Lemma tame_audit ref : tame (node_audit ref).
Proof using Type. unfold node_audit. tame. Qed.
#[local] Hint Resolve tame_status tame_audit : tame.

Lemma tame_best_leader nodes i best term : tame (best_leader nodes i best term).
Proof using Type. revert i best term. induction nodes as [|[ref|] nodes IH]; intros; cbn [best_leader]; tame. Qed.
#[local] Hint Resolve tame_best_leader : tame.

Lemma tame_try op : tame (try op).
Proof using Type.
  unfold try. apply tame_get. intros r. apply wp_bind. eapply wp_mono; [apply tame_lift|]. cbn beta. intros o r0 H0.
  destruct (_ || _); [by apply wp_ret|].
  apply wp_bind. eapply wp_mono; [by apply (tame_from _ r r0), tame_set_op|]. cbn beta. intros [] r1 H1.
  apply wp_bind. eapply wp_mono; [by apply (tame_from _ r r1), tame_best_leader|]. cbn beta. intros [[best ref]|] r2 H2; [|by apply wp_ret].
  apply wp_bind. eapply wp_mono; [by apply (tame_from _ r r2), tame_on_node|]. cbn beta. intros [err|ticket] r3 H3; [by apply wp_ret|].
  do 2 (apply wp_bind; eapply wp_mono; [by apply (tame_from _ r _ ltac:(eassumption)), tame_set_op|]; cbn beta; intros [] ? ?).
  apply wp_bind. eapply wp_mono; [by apply (tame_from _ r _ ltac:(eassumption)), tame_peer_ID|]. cbn beta. intros id r6 H6.
  apply wp_bind. eapply wp_mono; [by apply (tame_from _ r _ H6), record_tame|]. cbn beta. intros [] r7 H7.
  apply schedule_from; [done|lia].
Qed.
#[local] Hint Resolve tame_try : tame.

Lemma tame_client_timeout op best ticket : tame (client_timeout op best ticket).
Proof using Type. unfold client_timeout. tame. Qed.

Lemma tame_collect : tame collect.
Proof using Type. unfold collect, collect_one, fail_with. tame. Qed.

Lemma tame_finish id v a err : tame (finish id v a err).
Proof using Type. unfold finish, complete. tame. Qed.
#[local] Hint Resolve tame_finish : tame.

Lemma tame_respond id v a err : tame (respond id v a err).
Proof using Type. unfold respond. tame. Qed.

(** A delay, and an event after it. *)
Lemma delayed_from kind a r r1 :
  forward r r1 → wp True (d ← delayMS; schedule (r_now r + d) kind a) (λ _ r', forward r r') r1.
Proof using HRL.
  intros H1. apply wp_bind. eapply wp_mono; [apply delayMS_wp|]. cbn beta. intros d r2 [H2 Hd].
  apply schedule_from; [by etransitivity|lia].
Qed.

Lemma tame_deliver id : tame (deliver id).
Proof using HRL.
  unfold deliver. apply tame_get. intros r. apply wp_bind. eapply wp_mono; [apply tame_lift|]. cbn beta. intros x r1 H1.
  cbv zeta. apply wp_bind. eapply wp_mono; [by apply (tame_from _ r r1), tame_lift|]. cbn beta. intros node r2 H2.
  destruct node as [ref|]; [|by apply wp_ret]. destruct (blocked _ _ _); [by apply wp_ret|].
  apply wp_bind. eapply wp_mono; [by apply (tame_from _ r r2), record_tame|]. cbn beta. intros [] r3 H3.
  apply wp_bind. eapply wp_mono; [apply (tame_from _ r r3 H3); tame|]. cbn beta. intros [[v a] err] r4 H4.
  apply wp_bind. eapply wp_mono; [apply (tame_from _ r r4 H4), tame_draw|]. cbn beta. intros lost r5 H5.
  destruct (_ <? _); [by apply wp_ret|]. by apply delayed_from.
Qed.

Lemma tame_send from to source m : tame (send from to source m).
Proof using HRL.
  unfold send. apply tame_get. intros r. cbv zeta. apply wp_bind, wp_modify. set (r1 := rset_sends _ r).
  assert (forward r r1) as H1 by (by apply forward_same). clearbody r1.
  apply wp_bind. eapply wp_mono; [apply (schedule_from _ _ _ r r1 H1); lia|]. cbn beta. intros [] r2 H2.
  apply wp_bind. eapply wp_mono.
  { apply (tame_from _ r r2 H2). destruct (blocked _ _ _); [apply tame_ret|].
    apply tame_bind; [apply tame_draw|intros; apply tame_ret]. }
  cbn beta. intros dropped r3 H3. destruct dropped; [apply (tame_from _ r r3 H3), record_tame|].
  apply wp_bind. eapply wp_mono; [apply delayMS_wp|]. cbn beta. intros d r4 [H4 Hd].
  apply wp_bind. eapply wp_mono; [apply (schedule_from _ _ _ r r4); [by etransitivity|lia]|]. cbn beta. intros [] r5 H5.
  apply wp_bind. eapply wp_mono; [apply (tame_from _ r r5 H5), tame_draw|]. cbn beta. intros x r6 H6.
  destruct (_ <? _); [by apply delayed_from|by apply wp_ret].
Qed.
#[local] Hint Resolve tame_send : tame.

Lemma tame_drain : tame drain.
Proof using HRL. unfold drain. tame. Qed.

Lemma tame_check_log s es prefix : tame (check_log s es prefix).
Proof using Type.
  revert prefix. induction es as [|e es IH]; intros prefix; cbn [check_log]; [tame|].
  unfold violation, fail_with. tame.
Qed.
#[local] Hint Resolve tame_check_log : tame.

Lemma tame_check : tame check.
Proof using Type. unfold check, check_node, violation, fail_with, check_event. tame. Qed.

Lemma tame_converged_from nodes first : tame (converged_from nodes first).
Proof using Type.
  revert first. induction nodes as [|[ref|] nodes IH]; intros first; cbn [converged_from]; tame.
Qed.
#[local] Hint Resolve tame_converged_from : tame.

Lemma tame_converged : tame converged.
Proof using Type. unfold converged. tame. Qed.

Lemma tame_recover_all : tame recover_all.
Proof using Type.
  unfold recover_all, recover_node. apply tame_bind; [tame|intros _]. apply tame_bind; [tame|intros _].
  apply tame_bind; [|intros _; tame]. intros r. apply wp_modify. split; try done. intros []. by split.
Qed.

Lemma tame_tick : tame tick.
Proof using Type.
  unfold tick, tick_op. apply tame_get. intros r.
  apply wp_bind. eapply wp_mono; [apply (tame_from _ r r); [done|]; tame|]. cbn beta. intros [] r1 H1.
  apply wp_bind, wp_get. apply wp_bind. eapply wp_mono; [apply (tame_from _ r r1 H1); tame|]. cbn beta. intros [] r2 H2.
  apply wp_bind, wp_get. eapply wp_mono; [apply schedule_wp; lia|]. cbn beta. intros [] r3 H3. by etransitivity.
Qed.

Lemma tame_action a : tame (run_action a).
Proof using HRL.
  destruct a; cbn [run_action].
  - apply tame_fault.
  - tame.
  - apply tame_recover_all.
  - apply tame_tick.
  - apply tame_finish.
  - apply tame_deliver.
  - apply tame_respond.
  - apply tame_client_timeout.
Qed.

(** *** The loop *)

(** An event moves the clock to its time and counts one step. *)
Record ran (r r' : runner) : Prop := {
  rn_steps : r_steps r' = (r_steps r + 1)%N;
  rn_scenario : r_s r' = r_s r;
  rn_timely : timely r → timely r';
}.

Lemma run_event_wp e r :
  r_now r ≤ it_at e → Forall (λ x, it_at e ≤ it_at x) (r_q r) →
  wp True (run_event e) (λ _ r', ran r r') r.
Proof using HRL.
  intros He Hq. unfold run_event. apply wp_bind, wp_modify, wp_bind, wp_modify.
  set (r0 := rset_steps _ _).
  assert (wp True (
    record_ "SCHEDULE" "" (pretty (it_seq e) +:+ ":" +:+ it_kind e) ;;
    run_action (it_run e) ;; collect ;; drain ;; check ;;
    r ← get;
    if (r_recoverAt r + 1500 <? r_now r) && (r_acknowledged r =? Operations (r_s r)) then
      done ← converged;
      if (done : bool) then modify (rset_converged true) ;; mret false else mret true
    else mret true) (λ _ r', forward r0 r') r0) as H.
  { apply tame_bind; [apply record_tame|intros _]. apply tame_bind; [apply tame_action|intros _].
    apply tame_bind; [apply tame_collect|intros _]. apply tame_bind; [apply tame_drain|intros _].
    apply tame_bind; [apply tame_check|intros _]. apply tame_reading. intros r1. destruct (_ && _); [|apply tame_ret].
    apply tame_bind; [apply tame_converged|]. intros []; tame. }
  eapply wp_mono; [exact H|]. cbn beta. intros again r' Hr. split; [apply (fw_steps _ _ Hr)|apply (fw_scenario _ _ Hr)|].
  intros [T1 T2 T3 T4]. apply (fw_timely _ _ Hr). split; try done; cbn.
  eapply Forall_impl; [exact T2|]. cbn. lia.
Qed.

Context (ctx : N → option error).

(** The event the loop takes next leaves the rest due no earlier. *)
Lemma Pop_due q e q' : Pop q = Some (e, q') → Forall (λ x, it_at e ≤ it_at x) q' ∧
  ∀ t, Forall (λ x, t ≤ it_at x) q → t ≤ it_at e ∧ Forall (λ x, t ≤ it_at x) q'.
Proof using Type.
  intros Hp. destruct (Pop_min _ _ _ Hp) as [Hperm Hmin]. split.
  - eapply Forall_impl; [exact Hmin|]. intros y Hy. unfold Less in Hy.
    destruct (Z.eqb_spec (it_at y) (it_at e)); [lia|]. apply Z.ltb_ge in Hy. lia.
  - intros t Hq. rewrite Hperm in Hq. by apply Forall_cons in Hq.
Qed.

Lemma loop_timely fuel r : timely r → wp True (loop ctx fuel) (λ _ r', timely r') r.
Proof using HRL.
  revert r. induction fuel as [|fuel IH]; intros r Ht; [by apply wp_ret|]. cbn [loop].
  apply wp_bind, wp_get. destruct (_ || _); [by apply wp_ret|].
  destruct (ctx _) as [err|].
  { apply wp_modify. by destruct Ht. }
  apply wp_bind, wp_lift; [done|]. intros [e q] Hp. apply wp_bind, wp_modify.
  destruct (Pop_due _ _ _ Hp) as [Hdue Hq]. destruct (Hq _ (ti_queue r Ht)) as [Hnow Hrest].
  assert (timely (rset_q q r)) as Ht' by (by destruct Ht).
  destruct (_ <? _); [by apply wp_ret|]. apply wp_bind.
  eapply wp_mono; [by apply run_event_wp|]. cbn beta. intros again r1 [_ _ H1].
  destruct again; [apply IH; by apply H1|apply wp_ret; by apply H1].
Qed.

(** More fuel than steps that remain is enough. *)
Lemma loop_enough fuel fuel' r :
  (max_steps - r_steps r < N.of_nat fuel)%N → (fuel ≤ fuel')%nat → timely r →
  loop ctx fuel' r = loop ctx fuel r.
Proof using HRL.
  revert fuel' r. induction fuel as [|fuel IH]; intros fuel' r Hf Hle Ht; [lia|].
  destruct fuel' as [|fuel']; [lia|]. cbn [loop]. unfold mbind, M_bind, get. cbn beta iota.
  destruct (_ || _) eqn:Hstop; [done|].
  assert (r_steps r < max_steps)%N as Hsteps by (apply orb_false_iff in Hstop as [_ ?]; by apply N.leb_gt).
  destruct (ctx _); [done|]. unfold lift, modify. destruct (Pop (r_q r)) as [[e q]|] eqn:Hp; [|done].
  cbn beta iota. destruct (_ <? _); [done|].
  destruct (Pop_due _ _ _ Hp) as [Hdue Hq]. destruct (Hq _ (ti_queue r Ht)) as [Hnow Hrest].
  pose proof (run_event_wp e (rset_q q r) Hnow Hdue) as Hw. unfold wp in Hw.
  destruct (run_event e (rset_q q r)) as [[again r1]|]; [|done]. destruct Hw as [W1 W2 W3].
  cbn in W1. destruct again; [|done]. apply IH; [rewrite W1; lia|lia|]. apply W3. by destruct Ht.
Qed.

(** *** Before the loop *)

Lemma validate_faults_ok s fs : validate_faults s fs = None → Forall (λ f, 0 ≤ AtMS f) fs.
Proof using Type.
  induction fs as [|f fs IH]; intros H; [by apply Forall_nil|].
  cbn [validate_faults] in H. destruct (_ || _) eqn:Hb in H; [done|]. destruct (known_fault (Kind f)); [|done]. apply Forall_cons. split; [|by apply IH].
  apply orb_false_iff in Hb as [Hb _]. apply orb_false_iff in Hb as [Hb _].
  apply orb_false_iff in Hb as [Hb _]. by apply Z.ltb_ge.
Qed.

Lemma Validate_ok s : Simulation.Validate s = None →
  Forall (λ f, 0 ≤ AtMS f) (Faults s) ∧ 1 ≤ Operations s ∧ 0 ≤ MaxDelayMS s.
Proof using Type.
  unfold Simulation.Validate. destruct (_ || _) eqn:Hb; [done|]. intros Hf. split; [by eapply validate_faults_ok|].
  repeat (apply orb_false_iff in Hb as [Hb ?]).
  repeat match goal with H : (_ <? _) = false |- _ => apply Z.ltb_ge in H end. lia.
Qed.

Lemma new_runner_timely s : 0 ≤ MaxDelayMS s → timely (new_runner s).
Proof using Type. intros H. split; cbn; [by apply Forall_nil|by apply Forall_nil|constructor|done]. Qed.

(** What [prepare] has done of its work when the loop has not begun. *)
Record preparing (s : Scenario) (r : runner) : Prop := {
  pr_now : r_now r = 0;
  pr_steps : r_steps r = 0%N;
  pr_scenario : r_s r = s;
  pr_recoverAt : 0 ≤ r_recoverAt r;
  pr_timely : timely r;
}.

Lemma preparing_forward s r r' : preparing s r → forward r r' → preparing s r'.
Proof using Type. intros [] []. split; (congruence || auto). Qed.

Lemma preparing_tame {A} (m : R A) s r : tame m → preparing s r → wp True m (λ _, preparing s) r.
Proof using Type. intros Hm Hr. eapply wp_mono; [apply Hm|]. intros a r'. by apply preparing_forward. Qed.

Lemma preparing_schedule s at_ kind a r :
  0 ≤ at_ → preparing s r → wp True (schedule at_ kind a) (λ _, preparing s) r.
Proof using Type.
  intros Ha Hr. eapply wp_mono; [apply schedule_wp; by rewrite (pr_now _ _ Hr)|].
  intros [] r'. by apply preparing_forward.
Qed.

Lemma preparing_fault s f r :
  0 ≤ AtMS f → preparing s r → wp True (schedule_fault f) (λ _, preparing s) r.
Proof using Type.
  intros Hf [H1 H2 H3 H4 [T1 T2 T3 T4]]. unfold schedule_fault. apply wp_bind, wp_modify.
  apply preparing_schedule; [done|]. split; cbn; [done|done|done|lia|by split].
Qed.

Lemma preparing_client s i r : preparing s r → wp True (schedule_client i) (λ _, preparing s) r.
Proof using Type.
  intros Hr. unfold schedule_client. apply wp_bind, wp_modify. apply preparing_schedule; [lia|].
  eapply preparing_forward; [exact Hr|]. by apply forward_same.
Qed.

Lemma prepare_wp s :
  Simulation.Validate s = None → wp True prepare (λ _, preparing s) (new_runner s).
Proof using Type.
  intros Hv. destruct (Validate_ok _ Hv) as (Hf & Ho & Hd). unfold prepare. apply wp_bind, wp_get.
  assert (preparing s (new_runner s)) as H0.
  { split; [done|done|done|cbn; lia|by apply new_runner_timely]. }
  apply wp_bind. eapply wp_mono; [apply preparing_tame; [|exact H0]|].
  { apply tame_for_each. intros i. apply tame_start. }
  cbn beta. intros [] r1 H1. apply wp_bind. eapply wp_mono.
  { apply (wp_for_each _ _ (preparing s)); [|exact H1]. intros f r' Hin Hr. apply preparing_fault; [|done].
    rewrite Forall_forall in Hf. by apply Hf. }
  cbn beta. intros [] r2 H2. apply wp_bind. eapply wp_mono.
  { apply (wp_for_each _ _ (preparing s)); [|exact H2]. intros i r' _. apply preparing_client. }
  cbn beta. intros [] r3 H3. apply wp_bind, wp_get, wp_bind.
  eapply wp_mono; [apply preparing_schedule; [apply (pr_recoverAt _ _ H3)|exact H3]|].
  cbn beta. intros [] r4 H4. by apply preparing_schedule.
Qed.

(** The simulator's clock never goes back: whatever the scenario, the draws
    and the end of the context, the times of the trace that [Run] returns are in
    order, and none of them is later than the virtual time it reports. *)
Theorem Run_trace_sorted s :
  match Run ctx s with
  | Some res =>
    StronglySorted Z.le (tr_AtMS <$> sr_Trace res) ∧
    Forall (λ t, tr_AtMS t ≤ sr_VirtualMS res) (sr_Trace res)
  | None => True
  end.
Proof using HRL.
  unfold Run. destruct (Simulation.Validate s) eqn:Hv; [cbn; split; constructor|].
  assert (wp True (prepare ;; loop ctx run_fuel) (λ _ r', timely r') (new_runner s)) as H.
  { apply wp_bind. eapply wp_mono; [by apply prepare_wp|]. intros [] r Hr. apply loop_timely, Hr. }
  unfold wp in H. destruct ((prepare ;; loop ctx run_fuel) (new_runner s)) as [[[] r]|]; [|done].
  destruct H as [_ T2 T3 _]. cbn [finish_result sr_Trace sr_VirtualMS]. split; [|by apply Forall_take].
  rewrite <-(take_drop 600 (r_trace r)), fmap_app in T3. by apply StronglySorted_app in T3 as (_ & ? & _).
Qed.

(** Unless it stops for another reason, the loop takes [max_steps] events. *)
Lemma loop_steps fuel r :
  (r_steps r ≤ max_steps)%N → timely r → wp True (loop ctx fuel) (λ _ r', (r_steps r' ≤ max_steps)%N) r.
Proof using HRL.
  revert r. induction fuel as [|fuel IH]; intros r Hs Ht; [by apply wp_ret|]. cbn [loop].
  apply wp_bind, wp_get. destruct (_ || _) eqn:Hstop; [by apply wp_ret|].
  apply orb_false_iff in Hstop as [_ Hstop]. apply N.leb_gt in Hstop.
  destruct (ctx _) as [err|]; [by apply wp_modify|].
  apply wp_bind, wp_lift; [done|]. intros [e q] Hp. apply wp_bind, wp_modify.
  destruct (Pop_due _ _ _ Hp) as [Hdue Hq]. destruct (Hq _ (ti_queue r Ht)) as [Hnow Hrest].
  assert (timely (rset_q q r)) as Ht' by (by destruct Ht).
  destruct (_ <? _); [by apply wp_ret|]. apply wp_bind.
  eapply wp_mono; [by apply run_event_wp|]. cbn beta. intros again r1 [Hs1 _ H1]. cbn in Hs1.
  destruct again; [|apply wp_ret; lia]. apply IH; [lia|by apply H1].
Qed.

(** C39. The simulator terminates: the step limit stops its loop, so that the
    fuel of the model is never used up (any more of it gives the same run), and
    at most two million events are run. *)
Theorem Run_terminates s fuel :
  Simulation.Validate s = None → (run_fuel ≤ fuel)%nat →
  (prepare ;; loop ctx fuel) (new_runner s) = (prepare ;; loop ctx run_fuel) (new_runner s) ∧
  ∀ res, Run ctx s = Some res → (sr_Steps res ≤ max_steps)%N.
Proof using HRL.
  intros Hv Hfuel. unfold Run. rewrite Hv.
  pose proof (prepare_wp s Hv) as Hp. unfold wp in Hp. unfold mbind, M_bind.
  destruct (prepare (new_runner s)) as [[[] r]|]; [|done]. destruct Hp as [_ Hs _ _ Ht]. split.
  - apply loop_enough; [|done|done]. unfold run_fuel. rewrite Hs. lia.
  - intros res. pose proof (loop_steps run_fuel r ltac:(rewrite Hs; done) Ht) as Hl. unfold wp in Hl.
    destruct (loop ctx run_fuel r) as [[[] r']|]; [|done]. by intros [= <-].
Qed.

End run.

(** ** Witnesses *)

Section witnesses.
#[local] Existing Instance ex_platform.

(** A linear congruential generator stands for math/rand/v2. *)
#[local] Instance ex_random : Random := {
  source := N;
  NewPCG := λ a b, N.lxor a b;
  Uint64 := λ s, (s, ((s * 1103515245 + 12345) mod 2 ^ 31)%N);
  IntN := λ s bound, ((Z.of_N s / 8) mod bound, ((s * 1103515245 + 12345) mod 2 ^ 31)%N);
  range := λ _ m, map_to_list m;
}.

#[local] Instance ex_random_laws : RandomLaws.
Proof. split. intros s bound Hb. cbn. apply Z.mod_pos_bound, Hb. Qed.

#[local] Instance ex_digests : Digests := {
  EntryHash := λ e, pretty (e_Index e) +:+ ":" +:+ pretty (e_Term e);
  Digest := λ m, pretty (count m);
  chain := λ a b, a +:+ "/" +:+ b;
}.


Definition ex_queue : list item :=
  [mkItem 80 0 "client" (AClient 0); mkItem 50 1 "tick" ATick; mkItem 50 2 "fault" (AFault (mkFault' 50 "heal" 0 0))].

Lemma Pop_earliest_witness :
  Pop ex_queue = Some (mkItem 50 1 "tick" ATick, [mkItem 80 0 "client" (AClient 0);
    mkItem 50 2 "fault" (AFault (mkFault' 50 "heal" 0 0))]) ∧
  ∀ y, y ∈ [mkItem 80 0 "client" (AClient 0); mkItem 50 2 "fault" (AFault (mkFault' 50 "heal" 0 0))] →
    50 < it_at y ∨ 50 = it_at y ∧ (1 ≤ it_seq y)%N.
Proof.
  split; [reflexivity|].
  exact (proj2 (Pop_earliest ex_queue (mkItem 50 1 "tick" ATick) _ ltac:(reflexivity))).
Defined.

(** A scenario that fails as long as a crash and a partition are left in it. *)
Definition ex_fails (s : Scenario) : bool :=
  existsb (λ f, bool_decide (Kind f = "crash")) (Faults s) &&
  existsb (λ f, bool_decide (Kind f = "partition")) (Faults s).

Definition ex_reduced : Scenario :=
  with_faults [mkFault' 1000 "crash" 0 0; mkFault' 1980 "partition" 1 0] (Default 1 3 10).

Lemma Minimize_spec_witness :
  Minimize (λ _, true) (λ s, Some (ex_fails s)) (Default 1 3 10) = Some ex_reduced ∧
  ∀ j, (j < length (Faults ex_reduced))%nat → Some (ex_fails (with_faults (remove_at j (Faults ex_reduced)) ex_reduced)) = Some false.
Proof.
  assert (Minimize (λ _, true) (λ s, Some (ex_fails s)) (Default 1 3 10) = Some ex_reduced) as E by (vm_compute; reflexivity).
  split; [exact E|].
  destruct (proj2 (Minimize_spec (λ _, true) (λ s, Some (ex_fails s)) (Default 1 3 10)) ex_reduced E) as [_ H].
  destruct (H eq_refl) as (s0 & _ & _ & _ & _ & Hm). apply Hm; [reflexivity|cbn; lia].
Defined.

Lemma Run_trace_sorted_witness :
  match Run (λ _, None) (Default 3 3 2) with
  | Some res =>
    StronglySorted Z.le (tr_AtMS <$> sr_Trace res) ∧
    Forall (λ t, tr_AtMS t ≤ sr_VirtualMS res) (sr_Trace res)
  | None => True
  end.
Proof. pose proof (Run_trace_sorted (λ _, None) (Default 3 3 2)) as H. exact H. Defined.

Lemma Run_terminates_witness :
  Simulation.Validate (Default 3 3 2) = None ∧
  (prepare ;; loop (λ _, None) (S run_fuel)) (new_runner (Default 3 3 2)) =
    (prepare ;; loop (λ _, None) run_fuel) (new_runner (Default 3 3 2)).
Proof.
  split; [reflexivity|].
  pose proof (Run_terminates (λ _, None) (Default 3 3 2) (S run_fuel) eq_refl (Nat.le_succ_diag_r run_fuel)) as [H _].
  exact H.
Defined.

End witnesses.
