(* ===== verification/Http.v ===== *)
(** * Http: what the program's HTTP code uses of the Go library

    Bodies as readers, escaped path segments, and the way all of the program's
    servers read a JSON body: one value of the expected type and nothing after
    it.  [encoding/json] on a type is the interface [Json], with its laws; an
    instance that evaluates is in the file that first needs one. *)

From Stdlib Require Import Strings.Ascii Strings.String.
From stdpp Require Import base numbers list gmap strings fin_maps options.
From S2P Require Import Prelude Urls.

Local Open Scope N_scope.

(** ** Readers *)

(** The bytes that can be read, and the error after them; [None] is [io.EOF]. *)
Record reader := mkReader { rd_bytes : string; rd_end : option error }.

Definition whole (s : string) : reader := mkReader s None.

Definition take_bytes (n : N) (s : string) : string := String.substring 0 (N.to_nat n) s.

(** [io.LimitReader] and [http.MaxBytesReader]. *)
Definition LimitReader (n : N) (r : reader) : reader :=
  if n <=? strlenN (rd_bytes r) then whole (take_bytes n (rd_bytes r)) else r.

Definition MaxBytesReader (n : N) (r : reader) : reader :=
  if n <? strlenN (rd_bytes r)
  then mkReader (take_bytes n (rd_bytes r)) (Some (ErrNew "http: request body too large"))
  else r.

Lemma MaxBytesReader_small n r : strlenN (rd_bytes r) ≤ n → MaxBytesReader n r = r.
Proof. intros H. unfold MaxBytesReader. by rewrite (proj2 (N.ltb_ge _ _) H). Qed.

(** ** JSON bodies *)

(** What a second [Decode], into anything, finds. *)
Inductive trailing :=
  | AtEOF                    (* an error that is [io.EOF] *)
  | Trailing                 (* another value *)
  | TrailingError (e : error).

Class JsonStream := { DecodeAny : reader → trailing }.

(** [json.Marshal], and [Decode] with unknown fields disallowed: the value and
    what is left to read. *)
Class Json (A : Type) := {
  Encode : A → error + string;
  Decode : reader → error + A * reader;
}.

(** The checks of a body: a value, then the end.  The first message answers a
    body that does not decode, the second one that goes on after the value. *)
Definition decode_one {A E} `{Json A, JsonStream} (invalid trail : E) (r : reader) : E + A :=
  match Decode r with
  | inl _ => inl invalid
  | inr (a, rest) =>
    match DecodeAny rest with
    | AtEOF => inr a
    | _ => inl trail
    end
  end.

(** What [Encoder.Encode] puts after a value. *)
Definition newline : string := String "010" EmptyString.

(** A value that can be represented survives: what is encoded of it decodes to
    it, to the end of the body, with a newline after it or not. *)
Class JsonLaws (A : Type) `{Json A, JsonStream} (rep : A → Prop) (cost : A → N) : Prop := {
  encode_decode : ∀ a, rep a → ∃ s, Encode a = inr s ∧ strlenN s ≤ cost a ∧
    ∀ t, t = "" ∨ t = newline →
    ∃ rest, Decode (whole (s +:+ t)) = inr (a, rest) ∧ DecodeAny rest = AtEOF;
}.

Lemma append_empty s : s +:+ "" = s.
Proof. induction s as [|c s IH]; [done|]. exact (f_equal (String c) IH). Qed.

Lemma decode_one_encode {E} `{JsonLaws A rep cost} (e1 e2 : E) a n :
  rep a → cost a ≤ n →
  ∃ s, Encode a = inr s ∧ decode_one e1 e2 (MaxBytesReader n (whole s)) = inr a.
Proof.
  intros Ha Hn. destruct (encode_decode a Ha) as (s&Hs&Hcost&Hd). exists s. split; [done|].
  destruct (Hd "" (or_introl eq_refl)) as (rest&Hdec&Hr). rewrite append_empty in Hdec.
  rewrite MaxBytesReader_small by (cbn; lia). unfold decode_one. by rewrite Hdec, Hr.
Qed.

(** ** Path segments *)

Definition ascii_between (a b c : ascii) : bool :=
  (nat_of_ascii a <=? nat_of_ascii c)%nat && (nat_of_ascii c <=? nat_of_ascii b)%nat.

(** [shouldEscape] for a path segment. *)
Definition should_escape (c : ascii) : bool :=
  negb (ascii_between "a" "z" c || ascii_between "A" "Z" c || ascii_between "0" "9" c ||
        existsb (Ascii.eqb c) ["-"; "_"; "."; "~"; "$"; "&"; "+"; ":"; "="; "@"]%char).

Definition hex_digit (n : nat) : ascii :=
  ascii_of_nat (if (n <? 10)%nat then 48 + n else 55 + n).

Definition unhex (c : ascii) : option nat :=
  if ascii_between "0" "9" c then Some (nat_of_ascii c - 48)%nat
  else if ascii_between "a" "f" c then Some (nat_of_ascii c - 87)%nat
  else if ascii_between "A" "F" c then Some (nat_of_ascii c - 55)%nat
  else None.

Fixpoint PathEscape (s : string) : string :=
  match s with
  | EmptyString => EmptyString
  | String c s' =>
    if should_escape c then
      String "%" (String (hex_digit (nat_of_ascii c / 16))
        (String (hex_digit (nat_of_ascii c mod 16)) (PathEscape s')))
    else String c (PathEscape s')
  end.

Fixpoint PathUnescape (s : string) : option string :=
  match s with
  | EmptyString => Some EmptyString
  | String "%" s' =>
    match s' with
    | String a (String b s'') =>
      match unhex a, unhex b, PathUnescape s'' with
      | Some x, Some y, Some t => Some (String (ascii_of_nat (16 * x + y)) t)
      | _, _, _ => None
      end
    | _ => None
    end
  | String c s' => String c <$> PathUnescape s'
  end.

Lemma hex_roundtrip c :
  unhex (hex_digit (nat_of_ascii c / 16)) = Some (nat_of_ascii c / 16)%nat ∧
  unhex (hex_digit (nat_of_ascii c mod 16)) = Some (nat_of_ascii c mod 16)%nat.
Proof. by destruct c as [[] [] [] [] [] [] [] []]. Qed.

Lemma PathUnescape_plain c s :
  c ≠ "%"%char → PathUnescape (String c s) = String c <$> PathUnescape s.
Proof. intros Hc. cbn [PathUnescape]. destruct c as [[] [] [] [] [] [] [] []]; done. Qed.

Lemma not_escaped_percent c : should_escape c = false → c ≠ "%"%char.
Proof. by intros H ->. Qed.

Lemma PathEscape_roundtrip s : PathUnescape (PathEscape s) = Some s.
Proof.
  induction s as [|c s IH]; [done|]. cbn [PathEscape]. destruct (should_escape c) eqn:Hc.
  - cbn [PathUnescape]. destruct (hex_roundtrip c) as [-> ->]. rewrite IH.
    rewrite <-Nat.div_mod_eq, ascii_nat_embedding. done.
  - rewrite PathUnescape_plain by by apply not_escaped_percent. by rewrite IH.
Qed.

(** The bytes of an escaped segment: none of them ends it. *)
Definition segment_byte (c : ascii) : bool := negb (should_escape c) || Ascii.eqb c "%".

Fixpoint all_bytes (P : ascii → bool) (s : string) : bool :=
  match s with
  | EmptyString => true
  | String c s' => P c && all_bytes P s'
  end.

Lemma hex_segment_byte c :
  segment_byte (hex_digit (nat_of_ascii c / 16)) = true ∧
  segment_byte (hex_digit (nat_of_ascii c mod 16)) = true.
Proof. by destruct c as [[] [] [] [] [] [] [] []]. Qed.

Lemma PathEscape_bytes s : all_bytes segment_byte (PathEscape s) = true.
Proof.
  induction s as [|c s IH]; [done|]. cbn [PathEscape]. destruct (should_escape c) eqn:Hc; cbn [all_bytes].
  - destruct (hex_segment_byte c) as [-> ->]. by rewrite IH.
  - rewrite IH. unfold segment_byte. by rewrite Hc.
Qed.

(** ** [strings] *)

Definition bytes_of (s : string) : list ascii := String.list_ascii_of_string s.

Fixpoint strip_prefix (p l : list ascii) : option (list ascii) :=
  match p, l with
  | [], _ => Some l
  | a :: p', b :: l' => if Ascii.eqb a b then strip_prefix p' l' else None
  | _ :: _, [] => None
  end.

Fixpoint strip_first (ps : list (list ascii)) (l : list ascii) : option (list ascii) :=
  match ps with
  | [] => None
  | p :: ps' => match strip_prefix p l with Some l' => Some l' | None => strip_first ps' l end
  end.

(** Each of the patterns has a byte, so that the length is fuel enough. *)
Fixpoint trim (fuel : nat) (ps : list (list ascii)) (l : list ascii) : list ascii :=
  match fuel with
  | O => l
  | S fuel => match strip_first ps l with Some l' => trim fuel ps l' | None => l end
  end.

Definition trim_left (ps : list (list ascii)) (l : list ascii) : list ascii := trim (length l) ps l.
Definition trim_right (ps : list (list ascii)) (l : list ascii) : list ascii :=
  reverse (trim_left (map reverse ps) (reverse l)).

(** The characters that [unicode.IsSpace] accepts, in UTF-8. *)
Definition spaces : list (list ascii) :=
  map (map ascii_of_nat)
  ([[9]; [10]; [11]; [12]; [13]; [32]; [194; 133]; [194; 160]; [225; 154; 128]] ++
   map (λ n, [226; 128; 128 + n]) (seq 0 11) ++
   [[226; 128; 168]; [226; 128; 169]; [226; 128; 175]; [226; 129; 159]; [227; 128; 128]])%nat.

Definition TrimSpace (s : string) : string :=
  String.string_of_list_ascii (trim_right spaces (trim_left spaces (bytes_of s))).

(** [strings.TrimRight(s, "/")]. *)
Definition TrimSlashes (s : string) : string :=
  String.string_of_list_ascii (trim_right [["/"%char]] (bytes_of s)).

(** ** Routing

    [http.ServeMux] matches the segments of the escaped path, each unescaped, and
    redirects a path that [path.Clean] would change.  The status it redirects
    with depends on the version of the library. *)

Class ServeMux := { moved : Z }.

Fixpoint split_slash (s : string) : list string :=
  match s with
  | EmptyString => [EmptyString]
  | String c s' =>
    if Ascii.eqb c "/" then EmptyString :: split_slash s'
    else
      match split_slash s' with
      | [] => [String c EmptyString]
      | x :: xs => String c x :: xs
      end
  end.

(** The segments of a rooted path; a path without the slash gets one. *)
Definition segments (path : string) : list string :=
  match path with
  | String c s' => if Ascii.eqb c "/" then split_slash s' else split_slash path
  | EmptyString => [EmptyString]
  end.

(** [path.Clean] on the segments, the ones before on a stack. *)
Fixpoint clean_segments (stack segs : list string) : list string :=
  match segs with
  | [] => reverse stack
  | s :: segs =>
    if bool_decide (s = "") || bool_decide (s = ".") then clean_segments stack segs
    else if bool_decide (s = "..") then clean_segments (tail stack) segs
    else clean_segments (s :: stack) segs
  end.

Definition join_segments (segs : list string) : string :=
  foldr (λ s path, "/" +:+ s +:+ path) "" segs.

Definition ends_in_slash (s : string) : bool := bool_decide (list.last (bytes_of s) = Some "/"%char).

Definition cleanPath (path : string) : string :=
  let np := join_segments (clean_segments [] (segments path)) in
  if bool_decide (np = "") then "/" else if ends_in_slash path then np +:+ "/" else np.

(** The segments a pattern is compared with; one that does not unescape is kept. *)
Definition matched_segments (path : string) : list string :=
  map (λ s, default s (PathUnescape s)) (segments path).

(** ** File names

    [filepath.Clean] and [filepath.Join] where the separator is a slash: empty
    elements and "." go, ".." takes the element before it. *)

Fixpoint clean_elements (rooted : bool) (stack elements : list string) : list string :=
  match elements with
  | [] => reverse stack
  | e :: elements =>
    if bool_decide (e = "") || bool_decide (e = ".") then clean_elements rooted stack elements
    else if bool_decide (e = "..") then
      match stack with
      | top :: below =>
        if bool_decide (top = "..") then clean_elements rooted (e :: stack) elements
        else clean_elements rooted below elements
      | [] => clean_elements rooted (if rooted then [] else [e]) elements
      end
    else clean_elements rooted (e :: stack) elements
  end.

Definition Clean (path : string) : string :=
  let rooted := String.prefix "/" path in
  let clean := String.concat "/" (clean_elements rooted [] (split_slash path)) in
  if rooted then "/" +:+ clean else if bool_decide (clean = "") then "." else clean.

Definition Join (elements : list string) : string :=
  match filter (λ e, e ≠ "") elements with
  | [] => ""
  | elements => Clean (String.concat "/" elements)
  end.

Example Join_examples :
  Join ["data/lab"; "node-1"] = "data/lab/node-1" ∧ Join ["./lab//"; "x"] = "lab/x" ∧ Join ["/a"; "../.."] = "/" ∧
  Join ["a"; "../../b"] = "../b" ∧ Join [""; ""] = "" ∧ Join ["a"; ".."] = ".".
Proof. by vm_compute. Qed.

(** [net.SplitHostPort] and [URL.Port], [URL.Hostname]: a host ends at its last
    colon. *)
Fixpoint last_colon (s : string) : option (string * string) :=
  match s with
  | EmptyString => None
  | String c s =>
    match last_colon s with
    | Some (host, port) => Some (String c host, port)
    | None => if Ascii.eqb c ":" then Some (EmptyString, s) else None
    end
  end.

(** ** Errors *)

(** [err.Error()]. *)
Fixpoint Error (e : error) : string :=
  match e with
  | ErrInvalid msg =>
    if bool_decide (msg = "invalid command") then "invalid command" else "invalid command: " +:+ msg
  | ErrStale => "request ID is older than the last request for this client"
  | ErrReused => "request ID was already used for a different command"
  | ErrUnavailable => "node unavailable"
  | ErrDatabaseUnavailable => "database unavailable; restart required"
  | ErrNoQuorum => "quorum confirmation timed out; write outcome may be unknown"
  | NotLeaderError _ _ => "request must be sent to the current leader"
  | ErrShortWrite => "short write"
  | ErrInjectedDisk => "injected disk failure"
  | ErrContext msg => msg
  | ErrNew msg => msg
  | ErrWrap prefix e => prefix +:+ Error e
  | ErrJoin e1 e2 => Error e1 +:+ String "010" (Error e2)
  end.

(** [errors.As] for a [NotLeaderError]: the first one in the tree. *)
Fixpoint as_NotLeader (e : error) : option (string * string) :=
  match e with
  | NotLeaderError id url => Some (id, url)
  | ErrWrap _ e' => as_NotLeader e'
  | ErrJoin e1 e2 => match as_NotLeader e1 with Some x => Some x | None => as_NotLeader e2 end
  | _ => None
  end.

(** ** Requests *)

Record HttpRequest := mkHttpRequest {
  rq_Method : string;
  rq_URL : string;
  rq_Header : list (string * string);
  rq_Body : string;
}.

Definition token_byte (c : ascii) : bool :=
  ascii_between "a" "z" c || ascii_between "A" "Z" c || ascii_between "0" "9" c ||
  existsb (Ascii.eqb c) ["!"; "#"; "$"; "%"; "&"; "'"; "*"; "+"; "-"; "."; "^"; "_"; "`"; "|"; "~"]%char.

Definition valid_method (method : string) : bool :=
  bool_decide (method ≠ "") && all_bytes token_byte method.

(** [http.NewRequestWithContext]. *)
Definition NewRequest `{URLs} (method url : string) (body : string) : error + HttpRequest :=
  let method := if bool_decide (method = "") then "GET" else method in
  if valid_method method then
    match Parse url with
    | inl err => inl err
    | inr _ => inr (mkHttpRequest method url [] body)
    end
  else inl (ErrNew ("net/http: invalid method " +:+ Quote method)).

Definition set_header (name value : string) (req : HttpRequest) : HttpRequest :=
  mkHttpRequest (rq_Method req) (rq_URL req) (rq_Header req ++ [(name, value)]) (rq_Body req).

Lemma NewRequest_inr `{URLs} method url body req :
  NewRequest method url body = inr req →
  req = mkHttpRequest (if bool_decide (method = "") then "GET" else method) url [] body.
Proof.
  unfold NewRequest. destruct (valid_method _); [|done]. destruct (Parse url); [done|]. by intros [= <-].
Qed.

(** A reply: the status, the Location header, the body. *)
Record Reply := mkReply {
  rp_StatusCode : Z;
  rp_Status : string;
  rp_Location : string;
  rp_Body : reader;
}.

(** ** Servers *)

(** What the handlers read of a request: [C] is its context, [r_After] the [after]
    of its query, [r_Header] a header. *)
Record request (C : Type) := mkRequest {
  r_Context : C;
  r_Method : string;
  r_Path : string;         (* the escaped path *)
  r_URI : string;
  r_After : string;
  r_Header : string → string;
  r_Body : reader;
}.
Arguments mkRequest {_} _ _ _ _ _ _ _.
Arguments r_Context {_} _. Arguments r_Method {_} _. Arguments r_Path {_} _. Arguments r_URI {_} _.
Arguments r_After {_} _. Arguments r_Header {_} _. Arguments r_Body {_} _.

(** A response whose body encodes a payload. *)
Record response (P : Type) := mkResponse {
  rs_Status : Z;
  rs_Location : string;
  rs_Payload : P;
}.
Arguments mkResponse {_} _ _ _. Arguments rs_Status {_} _. Arguments rs_Location {_} _.
Arguments rs_Payload {_} _.

(** The path is redirected to its clean form, if it is another. *)
Definition unclean {C} (r : request C) : bool :=
  bool_decide (r_Method r ≠ "CONNECT") && bool_decide (cleanPath (r_Path r) ≠ r_Path r).
