(* ===== verification/Client.v ===== *)
(** * Client: bounded retries and leader discovery
    (src/internal/cluster/client.go)

    The state of a call is the [Client] it shares with other goroutines, what
    the outside world has become, and the history of the HTTP exchanges so far.
    Every section under the mutex is one step.  The world is the interface
    [Network]: an HTTP exchange, the 75 ms pause and the context are functions of
    its state, and [others] is what the goroutines that share the client do to it
    while this one waits. *)

From Stdlib Require Import Strings.Ascii Strings.String.
From stdpp Require Import base numbers list gmap strings fin_maps pretty options.
From S2P Require Import Prelude Effects Urls Http.

Local Open Scope Z_scope.
#[local] Set Default Proof Using "Type*".

Record Response := mkResponse {
  StatusCode : Z;
  Body : string;
  Server : string;
}.

Definition zeroResponse : Response := mkResponse 0 "" "".

Record Client := mkClient {
  servers : list string;
  preferred : string;
  discovered : gset string;
}.

Section client.
Context `{HU : URLs}.

Definition validOrigin (server : string) : bool :=
  match Parse server with
  | inl _ => false
  | inr u =>
    (bool_decide (u_Scheme u = "http") || bool_decide (u_Scheme u = "https")) &&
    bool_decide (u_Host u ≠ "") && negb (u_User u) && bool_decide (u_Path u = "") &&
    bool_decide (u_RawQuery u = "") && bool_decide (u_Fragment u = "")
  end.

Definition add (server : string) (c : Client) : Client :=
  if bool_decide (server ∈ servers c) then c
  else mkClient (servers c ++ [server]) (preferred c) (discovered c).

Fixpoint new_loop (ss : list string) (c : Client) : error + Client :=
  match ss with
  | [] => inr c
  | server :: ss' =>
    let server := TrimSlashes (TrimSpace server) in
    if validOrigin server then new_loop ss' (add server c)
    else inl (ErrNew ("invalid server URL " +:+ Quote server))
  end.

Definition New (ss : list string) : error + Client :=
  match new_loop ss (mkClient [] "" ∅) with
  | inl err => inl err
  | inr c =>
    if bool_decide (servers c = []) then inl (ErrNew "at least one server is required") else inr c
  end.

Fixpoint index_of (s : string) (l : list string) : option nat :=
  match l with
  | [] => None
  | x :: l' => if bool_decide (x = s) then Some 0%nat else S <$> index_of s l'
  end.

(** The servers, with the preferred one exchanged for the first. *)
Definition addresses (c : Client) : list string :=
  let out := servers c in
  if bool_decide (preferred c = "") then out
  else
    match index_of (preferred c) out with
    | None => out
    | Some i =>
      match out !! 0%nat, out !! i with
      | Some a, Some b => <[i := a]> (<[0%nat := b]> out)
      | _, _ => out
      end
    end.

(** ** The world *)

Class Network := {
  World : Type;
  ctx_Err : World → option error;
  http_Do : HttpRequest → World → (error + Reply) * World;
  pause : World → option error * World;      (* the context's error, if it ends first *)
  decode_peers : reader → option (list string);   (* the clientUrl fields of a status *)
  others : World → Client → Client;
}.

Context `{HN : !Network}.

Record state := mkState {
  st_client : Client;
  st_world : World;
  st_history : list (HttpRequest * (error + Reply));
}.

Definition on_client (f : Client → Client) : M state unit :=
  modify (λ s, mkState (f (st_client s)) (st_world s) (st_history s)).

Definition exchange (req : HttpRequest) : M state (error + Reply) := λ s,
  let '(r, w) := http_Do req (st_world s) in
  Some (r, mkState (others w (st_client s)) w (st_history s ++ [(req, r)])).

Definition wait_pause : M state (option error) := λ s,
  let '(e, w) := pause (st_world s) in
  Some (e, mkState (others w (st_client s)) w (st_history s)).

(** [c.discover]: ask [server] for the members it knows, once. *)
Definition discover (server : string) : M state unit :=
  s ← get;
  if bool_decide (server ∈ discovered (st_client s)) then mret tt
  else
    match NewRequest "GET" (server +:+ "/v1/status") "" with
    | inl _ => mret tt
    | inr req =>
      resp ← exchange req;
      match resp with
      | inl _ => mret tt
      | inr rep =>
        if negb (rp_StatusCode rep =? 200) then mret tt
        else
          match decode_peers (LimitReader 1048576 (rp_Body rep)) with
          | None => mret tt
          | Some urls =>
            for_each (λ url, if validOrigin url then on_client (add url) else mret tt) urls ;;
            on_client (λ c, mkClient (servers c) (preferred c) ({[server]} ∪ discovered c))
          end
      end
    end.

(** ** [Do] *)

(** The loop variables. *)
Record attempt_vars := mkVars {
  v_response : Response;
  v_last : option error;
  v_target : string;
  v_cursor : nat;
}.

(** One attempt: the answer to give up on or to return, or the redirect, the
    response and the error to go on with. *)
Definition one_attempt (method path body : string) (v : attempt_vars) :
    M state (Response * option error + string * Response * option error) :=
  let target := v_target v in
  match NewRequest method (target +:+ path) body with
  | inl err => mret (inl (v_response v, Some err))
  | inr req =>
    resp ← exchange (set_header "Content-Type" "application/json" req);
    match resp with
    | inl err => mret (inr ("", v_response v, Some err))
    | inr rep =>
      let b := LimitReader 16777216 (rp_Body rep) in
      match rd_end b with
      | Some readErr => mret (inr ("", v_response v, Some readErr))
      | None =>
        let response := mkResponse (rp_StatusCode rep) (rd_bytes b) target in
        let last := Some (ErrNew ("server " +:+ target +:+ " returned HTTP " +:+ pretty (rp_StatusCode rep))) in
        if (rp_StatusCode rep =? 307) || (rp_StatusCode rep =? 308) then
          match Parse (rp_Location rep) with
          | inl _ => mret (inr ("", response, last))
          | inr location =>
            let origin := u_Scheme location +:+ "://" +:+ u_Host location in
            if validOrigin origin then
              on_client (add origin) ;; mret (inr (origin, response, last))
            else mret (inr ("", response, last))
          end
        else if negb (rp_StatusCode rep =? 503) then
          on_client (λ c, mkClient (servers c) target (discovered c)) ;;
          (if rp_StatusCode rep <? 300 then discover target else mret tt) ;;
          mret (inl (response, None))
        else mret (inr ("", response, last))
      end
    end
  end.

(** What follows an attempt that did not return: ask for the members, choose
    the next target. *)
Definition next_target (attempt : nat) (redirect : string) (v : attempt_vars) : M state (string * nat) :=
  discover (v_target v) ;;
  if bool_decide (redirect ≠ "") && bool_decide (redirect ≠ v_target v) && Nat.even attempt
  then mret (redirect, v_cursor v)
  else
    s ← get;
    let out := addresses (st_client s) in
    let cursor := S (v_cursor v) in
    target ← lift (if bool_decide (out = []) then None else out !! (cursor mod length out)%nat);
    mret (target, cursor).

Definition deadline (err : error) : error := ErrWrap "request deadline; outcome may be unknown: " err.

Fixpoint attempts (fuel attempt : nat) (method path body : string) (v : attempt_vars) :
    M state (Response * option error) :=
  match fuel with
  | O =>
    mret (v_response v, Some
      match v_last v with
      | Some err => ErrWrap "retry limit reached; outcome may be unknown: " err
      | None => ErrNew "retry limit reached; outcome may be unknown: %!w(<nil>)"
      end)
  | S fuel =>
    s ← get;
    match ctx_Err (st_world s) with
    | Some err => mret (v_response v, Some (deadline err))
    | None =>
      x ← one_attempt method path body v;
      match x with
      | inl r => mret r
      | inr (redirect, response, last) =>
        '(target, cursor) ← next_target attempt redirect v;
        e ← wait_pause;
        match e with
        | Some err => mret (response, Some (deadline err))
        | None => attempts fuel (S attempt) method path body (mkVars response last target cursor)
        end
      end
    end
  end.

Definition Do (method path body : string) : M state (Response * option error) :=
  s ← get;
  target ← lift (addresses (st_client s) !! 0%nat);
  attempts 40 0 method path body (mkVars zeroResponse None target 0).

(** ** What a call keeps *)

(** The servers are valid origins without repetition, and the preferred server,
    when there is one, is among them. *)
Record wf (c : Client) : Prop := {
  wf_valid : Forall (λ s, validOrigin s = true) (servers c);
  wf_nodup : NoDup (servers c);
  wf_preferred : preferred c = "" ∨ preferred c ∈ servers c;
}.

(** Servers are only added, at the end. *)
Record grows (c c' : Client) : Prop := {
  gr_servers : servers c `prefix_of` servers c';
  gr_wf : wf c → wf c';
}.

#[export] Instance grows_preorder : PreOrder grows.
Proof.
  split; [by split|]. intros c1 c2 c3 [H1 W1] [H2 W2]. split; [by etransitivity|auto].
Qed.

Lemma grows_in c c' s : grows c c' → s ∈ servers c → s ∈ servers c'.
Proof. intros [[l Hl] _] Hs. rewrite Hl. apply elem_of_app. by left. Qed.

Lemma grows_nonempty c c' : grows c c' → servers c ≠ [] → servers c' ≠ [].
Proof. intros [[l Hl] _] Hs. rewrite Hl. by destruct (servers c). Qed.

Lemma add_in s c : s ∈ servers (add s c).
Proof.
  unfold add. case_bool_decide; [done|]. cbn. apply elem_of_app. right. by apply list_elem_of_singleton.
Qed.

Lemma add_grows s c : validOrigin s = true → grows c (add s c).
Proof.
  intros Hv. unfold add. case_bool_decide as Hin; [done|]. split; cbn; [by eexists|].
  intros [W1 W2 W3]. split; cbn.
  - apply Forall_app. split; [done|]. by apply Forall_singleton.
  - apply NoDup_app. split; [done|]. split; [|apply NoDup_singleton].
    intros x Hx ->%list_elem_of_singleton. done.
  - destruct W3; [by left|]. right. apply elem_of_app. by left.
Qed.

(** A record update that keeps the servers. *)
Lemma same_servers_grows c p d :
  (p = preferred c ∨ p ∈ servers c) → grows c (mkClient (servers c) p d).
Proof.
  intros Hp. split; [done|]. intros [W1 W2 W3]. split; [done..|]. cbn. destruct Hp as [->|]; [done|by right].
Qed.

Lemma index_of_lookup s l i : index_of s l = Some i → l !! i = Some s.
Proof.
  revert i. induction l as [|x l IH]; intros i; [done|]. cbn. case_bool_decide as Hx.
  - intros [= <-]. by subst.
  - destruct (index_of s l) as [j|]; [|done]. cbn. intros [= <-]. by apply IH.
Qed.

Lemma index_of_in s l : s ∈ l → ∃ i, index_of s l = Some i.
Proof.
  induction l as [|x l IH]; [by intros ?%elem_of_nil|]. intros Hs. cbn. case_bool_decide as Hx; [by eexists|].
  apply elem_of_cons in Hs as [->|Hs]; [done|]. destruct (IH Hs) as [i ->]. by eexists.
Qed.

(** [addresses] is a permutation of the servers, and the preferred server is its
    head. *)
Lemma addresses_perm c : addresses c ≡ₚ servers c.
Proof.
  unfold addresses. case_bool_decide; [done|]. destruct (index_of _ _) as [i|] eqn:Hi; [|done].
  destruct (servers c !! 0%nat) as [a|] eqn:Ha; [|done]. destruct (servers c !! i) as [b|] eqn:Hb; [|done].
  destruct (servers c) as [|a' l]; [done|]. injection Ha as ->. destruct i as [|i]; [by injection Hb as ->|].
  change (b :: <[i := a]> l ≡ₚ a :: l). cbn in Hb.
  rewrite <-(take_drop_middle l i b Hb) at 2. rewrite insert_take_drop by (by eapply lookup_lt_Some).
  rewrite <-!Permutation_middle. constructor 3.
Qed.

Lemma addresses_head c : preferred c ≠ "" → preferred c ∈ servers c → addresses c !! 0%nat = Some (preferred c).
Proof.
  intros Hp Hin. unfold addresses. rewrite bool_decide_eq_false_2 by done.
  destruct (index_of_in _ _ Hin) as [i Hi]. rewrite Hi. apply index_of_lookup in Hi. rewrite Hi.
  destruct (servers c) as [|a l]; [by apply elem_of_nil in Hin|]. destruct i as [|i]; [|done].
  by injection Hi as ->.
Qed.

Lemma addresses_length c : length (addresses c) = length (servers c).
Proof. by rewrite addresses_perm. Qed.

Lemma addresses_lookup c i : servers c ≠ [] →
  ∃ t, addresses c !! (i mod length (addresses c))%nat = Some t ∧ t ∈ servers c.
Proof.
  intros Hne. assert (length (addresses c) ≠ 0%nat) as Hl.
  { rewrite addresses_length. by destruct (servers c). }
  destruct (lookup_lt_is_Some_2 (addresses c) (i mod length (addresses c))) as [t Ht].
  { by apply Nat.mod_upper_bound. }
  exists t. split; [done|]. rewrite <-addresses_perm. by eapply list_elem_of_lookup_2.
Qed.

End client.

(** What goroutines that share the client do to it: like this one, they add valid
    servers, choose a preferred one among them and mark servers as discovered. *)
Class NetworkLaws `{HU : URLs, HN : !Network} : Prop := {
  others_grow w c : grows c (others w c);
}.

Section calls.
Context `{HU : URLs, HN : !Network}.

(** ** The requests of a call *)

Definition status_request (server : string) : HttpRequest :=
  mkHttpRequest "GET" (server +:+ "/v1/status") [] "".

Definition command_request (method path body server : string) : HttpRequest :=
  mkHttpRequest (if bool_decide (method = "") then "GET" else method) (server +:+ path)
    [("Content-Type", "application/json")] body.

(** The commands among the exchanges of a call. *)
Definition is_command (x : HttpRequest * (error + Reply)) : Prop := rq_Header x.1 ≠ [].
#[local] Instance is_command_dec x : Decision (is_command x).
Proof. unfold is_command. apply _. Defined.
Definition commands (h : list (HttpRequest * (error + Reply))) := filter is_command h.

(** What a reply says of the command. *)
Definition read_error (rep : Reply) : option error := rd_end (LimitReader 16777216 (rp_Body rep)).
Definition redirects (rep : Reply) : Prop := rp_StatusCode rep = 307 ∨ rp_StatusCode rep = 308.
Definition definitive (x : error + Reply) : Prop :=
  match x with
  | inl _ => False
  | inr rep => read_error rep = None ∧ ¬ redirects rep ∧ rp_StatusCode rep ≠ 503
  end.
Definition response_of (server : string) (rep : Reply) : Response :=
  mkResponse (rp_StatusCode rep) (rd_bytes (LimitReader 16777216 (rp_Body rep))) server.

(** A request of the call, to one of the servers. *)
Definition allowed (method path body : string) (ss : list string) (req : HttpRequest) : Prop :=
  ∃ s, s ∈ ss ∧ (req = command_request method path body s ∨ req = status_request s).

(** Part of a call: it sent what it may send, and [cs] are the commands. *)
Record sent (method path body : string) (cs : list (HttpRequest * (error + Reply))) (s s' : state) : Prop := {
  se_grows : grows (st_client s) (st_client s');
  se_history : ∃ new, st_history s' = st_history s ++ new ∧ commands new = cs ∧
    Forall (λ x, allowed method path body (servers (st_client s')) x.1) new;
}.

Lemma sent_refl m p b s : sent m p b [] s s.
Proof. split; [done|]. exists []. by rewrite app_nil_r. Qed.

Lemma sent_trans m p b cs1 cs2 s1 s2 s3 :
  sent m p b cs1 s1 s2 → sent m p b cs2 s2 s3 → sent m p b (cs1 ++ cs2) s1 s3.
Proof.
  intros [G1 (n1&H1&C1&F1)] [G2 (n2&H2&C2&F2)]. split; [by etransitivity|].
  exists (n1 ++ n2). split; [by rewrite H2, H1, app_assoc|]. split; [|apply Forall_app; split; [|done]].
  - unfold commands in *. by rewrite filter_app, C1, C2.
  - eapply Forall_impl; [exact F1|]. intros x (t&Ht&Hx). exists t. split; [by eapply grows_in|done].
Qed.

(** A step of this goroutine on the client alone. *)
Lemma sent_on_client m p b f s :
  grows (st_client s) (f (st_client s)) → wp False (on_client f) (λ _ s', sent m p b [] s s') s.
Proof. intros Hg. apply wp_modify. split; [done|]. exists []. by rewrite app_nil_r. Qed.

Context {HL : NetworkLaws}.

Lemma exchange_wp req s :
  wp False (exchange req) (λ r s', grows (st_client s) (st_client s') ∧
    st_history s' = st_history s ++ [(req, r)]) s.
Proof. unfold exchange, wp. destruct (http_Do req (st_world s)) as [r w]. split; [apply others_grow|done]. Qed.

Lemma sent_status m p b server r s s' :
  server ∈ servers (st_client s) → grows (st_client s) (st_client s') →
  st_history s' = st_history s ++ [(status_request server, r)] → sent m p b [] s s'.
Proof.
  intros Hs Hg Hh. split; [done|]. eexists. split; [exact Hh|]. split; [done|].
  apply Forall_singleton. exists server. split; [by eapply grows_in|by right].
Qed.

Lemma sent_command m p b server r s s' :
  server ∈ servers (st_client s) → grows (st_client s) (st_client s') →
  st_history s' = st_history s ++ [(command_request m p b server, r)] →
  sent m p b [(command_request m p b server, r)] s s'.
Proof.
  intros Hs Hg Hh. split; [done|]. eexists. split; [exact Hh|]. split; [done|].
  apply Forall_singleton. exists server. split; [by eapply grows_in|by left].
Qed.

Lemma pause_wp m p b s : wp False wait_pause (λ _ s', sent m p b [] s s') s.
Proof.
  unfold wait_pause, wp. destruct (pause (st_world s)) as [e w]. split; [apply others_grow|].
  exists []. by rewrite app_nil_r.
Qed.

(** Part of a call after part of a call. *)
Lemma sent_then {A} m p b cs1 s s1 (x : M state A) (Q : A → state → Prop) :
  sent m p b cs1 s s1 → wp False x (λ a s', ∃ cs2, sent m p b cs2 s1 s' ∧
    (sent m p b (cs1 ++ cs2) s s' → Q a s')) s1 → wp False x Q s1.
Proof.
  intros H1 Hx. eapply wp_mono; [exact Hx|]. cbn beta. intros a s' (cs2&H2&HQ). apply HQ. by eapply sent_trans.
Qed.

Lemma sent_add_all m p b urls s :
  wp False (for_each (λ url, if validOrigin url then on_client (add url) else mret tt) urls)
    (λ _ s', sent m p b [] s s') s.
Proof.
  eapply (wp_for_each _ _ (λ s', sent m p b [] s s')); [|apply sent_refl].
  intros url s' _ Hs. destruct (validOrigin url) eqn:Hv; [|by apply wp_ret].
  eapply wp_mono; [apply (sent_on_client m p b), add_grows, Hv|]. intros [] s'' H. apply (sent_trans _ _ _ _ _ _ _ _ Hs H).
Qed.

Lemma discover_wp m p b server s :
  server ∈ servers (st_client s) → wp False (discover server) (λ _ s', sent m p b [] s s') s.
Proof.
  intros Hs. unfold discover. apply wp_bind, wp_get. case_bool_decide; [apply wp_ret, sent_refl|].
  destruct (NewRequest _ _ _) as [err|req] eqn:Hr; [apply wp_ret, sent_refl|]. apply NewRequest_inr in Hr as ->.
  apply wp_bind. eapply wp_mono; [apply exchange_wp|]. cbn beta. intros r s1 [Hg Hh].
  pose proof (sent_status m p b server r s s1 Hs Hg Hh) as H1.
  destruct r as [err|rep]; [by apply wp_ret|]. destruct (negb _); [by apply wp_ret|].
  destruct (decode_peers _) as [urls|]; [|by apply wp_ret].
  apply wp_bind. eapply wp_mono; [apply (sent_add_all m p b)|]. cbn beta. intros [] s2 H2.
  pose proof (sent_trans _ _ _ _ _ _ _ _ H1 H2) as H12.
  eapply wp_mono; [apply (sent_on_client m p b), same_servers_grows; by left|].
  intros [] s3 H3. exact (sent_trans _ _ _ _ _ _ _ _ H12 H3).
Qed.

(** ** One attempt *)

Definition attempt_post m p b (v : attempt_vars) (s : state)
    (x : Response * option error + string * Response * option error) (s' : state) : Prop :=
  let req := command_request m p b (v_target v) in
  match x with
  | inl (r, Some err) => sent m p b [] s s'
  | inl (r, None) => ∃ rep, sent m p b [(req, inr rep)] s s' ∧ definitive (inr rep) ∧ r = response_of (v_target v) rep
  | inr (redirect, _, _) => ∃ y, sent m p b [(req, y)] s s' ∧ ¬ definitive y ∧
      (redirect = "" ∨ redirect ∈ servers (st_client s'))
  end.

Lemma one_attempt_wp m p b v s :
  v_target v ∈ servers (st_client s) →
  wp False (one_attempt m p b v) (attempt_post m p b v s) s.
Proof.
  intros Ht. unfold one_attempt. destruct (NewRequest _ _ _) as [err|req] eqn:Hr; [apply wp_ret, sent_refl|].
  apply NewRequest_inr in Hr as ->. apply wp_bind. eapply wp_mono; [apply exchange_wp|]. cbn beta.
  intros r s1 [Hg Hh]. pose proof (sent_command m p b _ r s s1 Ht Hg Hh) as H1. destruct r as [err|rep].
  { apply wp_ret. eexists. split; [exact H1|]. split; [by intros []|by left]. }
  cbv zeta. fold (read_error rep). destruct (read_error rep) as [err|] eqn:Hread.
  { apply wp_ret. eexists. split; [exact H1|]. split; [|by left]. intros [? _]. congruence. }
  destruct (_ || _) eqn:Hred.
  { assert (¬ definitive (inr rep)) as Hnd.
    { intros (_&Hn&_). apply Hn. apply orb_true_iff in Hred. by rewrite !Z.eqb_eq in Hred. }
    destruct (Parse _) as [err|u]; [apply wp_ret; eexists; split; [exact H1|]; split; [done|by left]|].
    destruct (validOrigin _) eqn:Hv; [|apply wp_ret; eexists; split; [exact H1|]; split; [done|by left]].
    apply wp_bind, wp_modify, wp_ret. eexists. split; [|split; [done|right; apply add_in]].
    apply (sent_trans _ _ _ _ [] _ _ _ H1). split; [by apply add_grows|]. exists []. by rewrite app_nil_r. }
  destruct (_ =? 503) eqn:H503; cbn [negb].
  { apply wp_ret. eexists. split; [exact H1|]. split; [|by left]. intros (_&_&Hn). by apply Z.eqb_eq in H503. }
  assert (definitive (inr rep)) as Hd.
  { apply orb_false_iff in Hred as [?%Z.eqb_neq ?%Z.eqb_neq]. apply Z.eqb_neq in H503.
    split; [done|]. split; [|done]. by intros [?|?]. }
  apply wp_bind. eapply wp_mono.
  { apply (sent_on_client m p b), same_servers_grows. right. by eapply grows_in. }
  cbn beta. intros [] s2 H2. apply wp_bind. eapply wp_mono.
  { instantiate (1 := λ _ s', sent m p b [] s2 s'). destruct (_ <? _); [|apply wp_ret, sent_refl].
    apply discover_wp. eapply grows_in; [apply H2|]. by eapply grows_in. }
  cbn beta. intros [] s3 H3. apply wp_ret. exists rep. split; [|done].
  exact (sent_trans _ _ _ _ _ _ _ _ (sent_trans _ _ _ _ _ _ _ _ H1 H2) H3).
Qed.

Lemma next_target_wp m p b attempt redirect v s :
  servers (st_client s) ≠ [] → v_target v ∈ servers (st_client s) →
  (redirect = "" ∨ redirect ∈ servers (st_client s)) →
  wp False (next_target attempt redirect v) (λ x s', sent m p b [] s s' ∧ x.1 ∈ servers (st_client s')) s.
Proof.
  intros Hne Ht Hr. unfold next_target. apply wp_bind. eapply wp_mono; [by apply (discover_wp m p b)|].
  cbn beta. intros [] s1 H1. destruct (_ && _ && _) eqn:Hif.
  - apply wp_ret. split; [done|]. tests. destruct Hr; [done|]. eapply grows_in; [apply H1|done].
  - apply wp_bind, wp_get. cbv zeta.
    assert (servers (st_client s1) ≠ []) as Hne1 by (eapply grows_nonempty; [apply H1|done]).
    destruct (addresses_lookup (st_client s1) (S (v_cursor v)) Hne1) as (t&Hl&Hin).
    rewrite bool_decide_eq_false_2, Hl.
    2: { intros E. rewrite E in Hl. done. }
    apply wp_bind, wp_lift_some, wp_ret. done.
Qed.

(** ** A call *)

(** What a call did, of [n] attempts at most: every command but the last was
    answered by nothing definitive, and the answer returned without an error is
    that of the last. *)
Definition call_post m p b (n : nat) (s : state) (x : Response * option error) (s' : state) : Prop :=
  ∃ tried final, sent m p b (tried ++ final) s s' ∧
    (length (tried ++ final) ≤ n)%nat ∧ Forall (λ y, ¬ definitive y.2) tried ∧
    match x.2 with
    | Some _ => final = []
    | None => ∃ server rep, server ∈ servers (st_client s') ∧ final = [(command_request m p b server, inr rep)] ∧
        definitive (inr rep) ∧ x.1 = response_of server rep
    end.

Lemma call_post_fail m p b n s r err s' :
  sent m p b [] s s' → call_post m p b n s (r, Some err) s'.
Proof. intros H. exists [], []. split_and!; [done|cbn; lia|by apply Forall_nil|done]. Qed.

Lemma call_post_step m p b n s s1 req y x s' :
  sent m p b [(req, y)] s s1 → ¬ definitive y → call_post m p b n s1 x s' → call_post m p b (S n) s x s'.
Proof.
  intros H1 Hy (tried&final&H2&Hn&Hf&Hx). exists ((req, y) :: tried), final. split_and!.
  - exact (sent_trans _ _ _ _ _ _ _ _ H1 H2).
  - cbn. lia.
  - by apply Forall_cons.
  - done.
Qed.

Lemma attempts_wp m p b fuel attempt v s :
  v_target v ∈ servers (st_client s) →
  wp False (attempts fuel attempt m p b v) (call_post m p b fuel s) s.
Proof.
  revert attempt v s. induction fuel as [|fuel IH]; intros attempt v s Ht; cbn [attempts].
  { apply wp_ret. apply call_post_fail, sent_refl. }
  apply wp_bind, wp_get. destruct (ctx_Err _) as [err|]; [apply wp_ret, call_post_fail, sent_refl|].
  apply wp_bind. eapply wp_mono; [by apply one_attempt_wp|]. intros [[r [err|]]|[[redirect response] last]] s1.
  - intros H. apply wp_ret. by apply call_post_fail.
  - intros (rep&H&Hd&->). apply wp_ret. eexists [], [_]. split_and!; [exact H|cbn; lia|by apply Forall_nil|].
    exists (v_target v), rep. split; [|done]. eapply grows_in; [apply H|done].
  - intros (y&H&Hy&Hr). assert (v_target v ∈ servers (st_client s1)) as Ht1 by (eapply grows_in; [apply H|done]).
    apply wp_bind. eapply wp_mono; [apply (next_target_wp m p b); [|done..]|].
    { intros E. rewrite E in Ht1. by apply elem_of_nil in Ht1. }
    cbn beta. intros [target cursor] s2 [H2 Ht2]. cbn [fst] in Ht2. apply wp_bind.
    eapply wp_mono; [apply (pause_wp m p b)|]. cbn beta. intros e s3 H3.
    pose proof (sent_trans _ _ _ _ _ _ _ _ H (sent_trans _ _ _ _ _ _ _ _ H2 H3)) as H13. cbn in H13.
    destruct e as [err|].
    + apply wp_ret. eapply call_post_step; [exact H13|done|]. apply call_post_fail, sent_refl.
    + eapply wp_mono; [apply IH; cbn; eapply grows_in; [apply H3|done]|].
      intros x s'. exact (call_post_step _ _ _ _ _ _ _ _ _ _ H13 Hy).
Qed.

Lemma Do_call m p b s :
  servers (st_client s) ≠ [] →
  ∃ x s', Do m p b s = Some (x, s') ∧ call_post m p b 40 s x s'.
Proof.
  intros Hne. apply wp_total. unfold Do. apply wp_bind, wp_get.
  destruct (addresses_lookup (st_client s) 0 Hne) as (t&Hl&Hin).
  assert (addresses (st_client s) !! 0%nat = Some t) as ->.
  { rewrite Nat.Div0.mod_0_l in Hl. done. }
  apply wp_bind, wp_lift_some. by apply attempts_wp.
Qed.

(** C25. A call of [Do] never panics and sends at most forty commands, all of them
    the same method, path, headers and body to a server of the client, besides
    status requests.  It goes on only after a command that nothing definitive
    answered (no connection, a body that breaks off, 307, 308, 503), and a
    response that it returns without an error is what the server of its last
    command answered, in full.  Whatever other goroutines do in between, the
    client keeps its servers and its invariant. *)
Theorem Do_spec m p b s :
  servers (st_client s) ≠ [] →
  ∃ x s', Do m p b s = Some (x, s') ∧ call_post m p b 40 s x s'.
Proof. apply Do_call. Qed.

(** ** The invariant *)

Lemma new_loop_spec ss c :
  wf c → preferred c = "" →
  let clean := (λ s, TrimSlashes (TrimSpace s)) <$> ss in
  match new_loop ss c with
  | inr c' => Forall (λ s, validOrigin s = true) clean ∧ wf c' ∧ preferred c' = "" ∧
      discovered c' = discovered c ∧ ∀ s, s ∈ servers c' ↔ s ∈ servers c ∨ s ∈ clean
  | inl _ => Exists (λ s, validOrigin s = false) clean
  end.
Proof using Type.
  revert c. induction ss as [|s ss IH]; intros c Hw Hp; cbn [new_loop fmap list_fmap].
  { split_and!; [by apply Forall_nil|done..|]. intros s. rewrite elem_of_nil. tauto. }
  destruct (validOrigin _) eqn:Hv; [|by apply Exists_cons_hd].
  specialize (IH (add (TrimSlashes (TrimSpace s)) c) (gr_wf _ _ (add_grows _ c Hv) Hw)).
  assert (preferred (add (TrimSlashes (TrimSpace s)) c) = "" ∧
    discovered (add (TrimSlashes (TrimSpace s)) c) = discovered c) as [Hp' Hd].
  { unfold add. by case_bool_decide. }
  specialize (IH Hp'). cbv zeta in IH. destruct (new_loop ss _) as [err|c'] eqn:E; [by apply Exists_cons_tl|].
  destruct IH as (H1&H2&H3&H4&H5). split_and!; [by apply Forall_cons|done|done|by rewrite H4|].
  intros x. rewrite H5, elem_of_cons.
  assert (x ∈ servers (add (TrimSlashes (TrimSpace s)) c) ↔ x ∈ servers c ∨ x = TrimSlashes (TrimSpace s)); [|tauto].
  unfold add. case_bool_decide; cbn; [split; [by left|by intros [?| ->]]|].
  by rewrite elem_of_app, list_elem_of_singleton.
Qed.

(** [New] accepts exactly a list of servers that is not empty and whose
    members, without the spaces around them and the slashes after them, are all
    valid origins; the client has each of them once. *)
Theorem New_spec ss :
  let clean := (λ s, TrimSlashes (TrimSpace s)) <$> ss in
  match New ss with
  | inr c => ss ≠ [] ∧ Forall (λ s, validOrigin s = true) clean ∧ wf c ∧ servers c ≠ [] ∧
      (∀ s, s ∈ servers c ↔ s ∈ clean) ∧ preferred c = "" ∧ discovered c = ∅
  | inl _ => ss = [] ∨ Exists (λ s, validOrigin s = false) clean
  end.
Proof using Type.
  cbv zeta. unfold New. pose proof (new_loop_spec ss (mkClient [] "" ∅)) as H. cbv zeta in H.
  destruct (new_loop ss _) as [err|c] eqn:E.
  { right. apply H; [|done]. split; [by apply Forall_nil|constructor|by left]. }
  destruct H as (H1&H2&H3&H4&H5); [split; [by apply Forall_nil|constructor|by left]|done|].
  assert (∀ s, s ∈ servers c ↔ s ∈ (λ s, TrimSlashes (TrimSpace s)) <$> ss) as H6.
  { intros s. rewrite H5. cbn. rewrite elem_of_nil. tauto. }
  case_bool_decide as Hs.
  - left. destruct ss as [|s ss]; [done|]. exfalso.
    pose proof (proj2 (H6 (TrimSlashes (TrimSpace s))) ltac:(cbn; by left)) as Hin.
    rewrite Hs in Hin. by apply elem_of_nil in Hin.
  - split_and!; try done. intros ->. apply Hs. cbn in E. by injection E as <-.
Qed.

(** The calls of one goroutine, one after the other. *)
Fixpoint do_all (calls : list (string * string * string)) : M state (list (Response * option error)) :=
  match calls with
  | [] => mret []
  | (method, path, body) :: calls => x ← Do method path body; xs ← do_all calls; mret (x :: xs)
  end.

(** C26. Whatever calls are made of a client that [New] returned, whatever the
    network answers and other goroutines do, the calls return, and the servers
    are valid origins without repetition, begin with those [New] was given, and
    have the preferred one among them. *)
Theorem client_invariant ss c calls w :
  New ss = inr c →
  ∃ xs s', do_all calls (mkState c w []) = Some (xs, s') ∧
    wf (st_client s') ∧ servers c `prefix_of` servers (st_client s') ∧ servers (st_client s') ≠ [].
Proof.
  intros Hc. pose proof (New_spec ss) as H. cbv zeta in H. rewrite Hc in H. destruct H as (_&_&Hw&Hne&_).
  change c with (st_client (mkState c w [])) in Hne, Hw. change (servers c) with (servers (st_client (mkState c w []))).
  generalize dependent (mkState c w []). clear Hc. intros s.
  revert s. induction calls as [|[[m p] b] calls IH]; intros s Hw Hne; [by eexists _, s|].
  cbn [do_all]. destruct (Do_call m p b s Hne) as (x&s1&Hd&t&f&[Hg _]&_).
  destruct (IH s1) as (xs&s2&H1&H2&H3&H4); [by apply Hg|by eapply grows_nonempty|].
  exists (x :: xs), s2. split; [|split_and!; [done| |done]].
  - unfold mbind, M_bind. rewrite Hd. by rewrite H1.
  - etransitivity; [apply Hg|done].
Qed.

(** ** A server that answers is found *)

(** While a call lasts, the goroutines that share the client learn servers but do
    not choose another one, the context lives, the command can be asked of every
    valid origin, and one server, [live], always gives a definitive answer. *)
Record reachable (m p b : string) (live : string) : Prop := {
  re_ctx w : ctx_Err w = None;
  re_pause w : (pause w).1 = None;
  re_others w c : preferred (others w c) = preferred c;
  re_requests t : validOrigin t = true → ∃ req, NewRequest m (t +:+ p) b = inr req;
  re_live w : definitive (http_Do (command_request m p b live) w).1;
}.

(** The client may have learnt servers, and tries the ones it knew in the same
    order. *)
Definition steady (s s' : state) : Prop :=
  grows (st_client s) (st_client s') ∧ preferred (st_client s') = preferred (st_client s).

#[local] Instance steady_preorder : PreOrder steady.
Proof. split; [by split|]. intros s1 s2 s3 [G1 P1] [G2 P2]. split; [by etransitivity|congruence]. Qed.

Lemma steady_wf s s' : steady s s' → wf (st_client s) → wf (st_client s').
Proof. intros [[_ W] _]. exact W. Qed.

Lemma index_of_app x l k : x ∈ l → index_of x (l ++ k) = index_of x l.
Proof.
  induction l as [|y l IH]; [by intros ?%elem_of_nil|]. intros Hx. cbn. case_bool_decide as Hy; [done|].
  apply elem_of_cons in Hx as [->|Hx]; [done|]. by rewrite IH.
Qed.

Lemma steady_addresses s s' : steady s s' → wf (st_client s) →
  addresses (st_client s) `prefix_of` addresses (st_client s').
Proof.
  intros [[[k Hk] _] Hp] [_ _ Hpref]. unfold addresses. rewrite Hp, Hk.
  case_bool_decide as Hnone; [by eexists|]. destruct Hpref as [?|Hin]; [done|].
  rewrite index_of_app by done. destruct (index_of_in _ _ Hin) as [i Hi]. rewrite Hi.
  apply index_of_lookup, lookup_lt_Some in Hi as Hlt.
  destruct (lookup_lt_is_Some_2 (servers (st_client s)) 0) as [a Ha]; [lia|].
  destruct (lookup_lt_is_Some_2 (servers (st_client s)) i) as [b Hb]; [done|].
  rewrite (lookup_app_l_Some _ _ _ _ Ha), (lookup_app_l_Some _ _ _ _ Hb), Ha, Hb.
  rewrite !insert_app_l by (rewrite ?length_insert; lia). by eexists.
Qed.

Lemma steady_lookup s s' j t : steady s s' → wf (st_client s) →
  addresses (st_client s) !! j = Some t → addresses (st_client s') !! j = Some t.
Proof. intros Hs Hwf Ht. destruct (steady_addresses s s' Hs Hwf) as [k ->]. by apply lookup_app_l_Some. Qed.

Section live.
Context (m p b : string) (live : string) (HR : reachable m p b live).

Lemma exchange_steady req s :
  wp False (exchange req) (λ r s', steady s s' ∧ ∃ w, (http_Do req w).1 = r) s.
Proof using HR HL.
  unfold exchange, wp. destruct (http_Do req (st_world s)) as [r w] eqn:E. split; [|exists (st_world s); by rewrite E].
  split; cbn; [apply others_grow|apply (re_others _ _ _ _ HR)].
Qed.

Lemma add_steady t s : validOrigin t = true →
  steady s (mkState (add t (st_client s)) (st_world s) (st_history s)).
Proof using Type. intros Hv. split; cbn; [by apply add_grows|]. unfold add. by case_bool_decide. Qed.

Lemma discover_steady server s : wp False (discover server) (λ _ s', steady s s') s.
Proof using HR HL.
  unfold discover. apply wp_bind, wp_get. case_bool_decide; [by apply wp_ret|].
  destruct (NewRequest _ _ _) as [err|req]; [by apply wp_ret|].
  apply wp_bind. eapply wp_mono; [apply exchange_steady|]. cbn beta. intros r s1 [H1 _].
  destruct r as [err|rep]; [by apply wp_ret|]. destruct (negb _); [by apply wp_ret|].
  destruct (decode_peers _) as [urls|]; [|by apply wp_ret].
  apply wp_bind. eapply wp_mono.
  { apply (wp_for_each _ _ (λ s', steady s s')); [|exact H1]. intros url s' _ Hs'.
    destruct (validOrigin url) eqn:Hv; [|by apply wp_ret]. apply wp_modify.
    etransitivity; [exact Hs'|by apply add_steady]. }
  cbn beta. intros [] s2 H2. apply wp_modify. etransitivity; [exact H2|].
  split; cbn; [|done]. apply same_servers_grows. by left.
Qed.

(** A final answer. *)
Definition conclusive (x : Response * option error) : Prop :=
  x.2 = None ∧ StatusCode x.1 ≠ 307 ∧ StatusCode x.1 ≠ 308 ∧ StatusCode x.1 ≠ 503.

Lemma one_attempt_steady v s :
  validOrigin (v_target v) = true →
  wp False (one_attempt m p b v) (λ x s',
    match x with
    | inl r => conclusive r
    | inr (redirect, _, _) => steady s s' ∧ (redirect = "" ∨ validOrigin redirect = true) ∧ v_target v ≠ live
    end) s.
Proof using HR HL.
  intros Ht. unfold one_attempt. destruct (re_requests _ _ _ _ HR _ Ht) as [req Hreq]. rewrite Hreq.
  apply NewRequest_inr in Hreq as ->. change (set_header _ _ _) with (command_request m p b (v_target v)).
  apply wp_bind. eapply wp_mono; [apply exchange_steady|]. cbn beta. intros r s1 [H1 [w Hw]].
  assert (¬ definitive r → v_target v ≠ live) as Hlive.
  { intros Hnd E. apply Hnd. rewrite <-Hw, E. apply (re_live _ _ _ _ HR). }
  destruct r as [err|rep]; [apply wp_ret; split_and!; [done|by left|apply Hlive; by intros []]|].
  cbv zeta. fold (read_error rep). destruct (read_error rep) as [err|] eqn:Hread.
  { apply wp_ret. split_and!; [done|by left|]. apply Hlive. intros [? _]. congruence. }
  destruct (_ || _) eqn:Hred.
  - assert (v_target v ≠ live) as Hne.
    { apply Hlive. intros (_&Hn&_). apply Hn. apply orb_true_iff in Hred. by rewrite !Z.eqb_eq in Hred. }
    destruct (Parse _) as [err|u] eqn:Hu; [apply wp_ret; split_and!; [done|by left|done]|].
    destruct (validOrigin (u_Scheme u +:+ "://" +:+ u_Host u)) eqn:Hv; [|apply wp_ret; split_and!; [done|by left|done]].
    apply wp_bind, wp_modify, wp_ret. split_and!; [|by right|done].
    etransitivity; [exact H1|by apply add_steady].
  - apply orb_false_iff in Hred as [H307 H308]. apply Z.eqb_neq in H307, H308.
    destruct (Z.eqb_spec (rp_StatusCode rep) 503) as [H503|H503]; cbn [negb].
    + apply wp_ret. split_and!; [done|by left|]. apply Hlive. by intros (_&_&Hn).
    + apply wp_bind, wp_modify, wp_bind. eapply wp_mono.
      { instantiate (1 := λ _ _, True). destruct (_ <? _); [|by apply wp_ret].
        eapply wp_mono; [apply discover_steady|done]. }
      cbn beta. intros [] s2 _. by apply wp_ret.
Qed.

Lemma next_target_steady attempt redirect v s :
  servers (st_client s) ≠ [] →
  wp False (next_target attempt redirect v) (λ x s', steady s s' ∧
    (Nat.even attempt = true ∧ x = (redirect, v_cursor v) ∧ redirect ≠ "" ∨
     x.2 = S (v_cursor v) ∧
     addresses (st_client s') !! (S (v_cursor v) mod length (addresses (st_client s')))%nat = Some x.1)) s.
Proof using HR HL.
  intros Hne. unfold next_target. apply wp_bind. eapply wp_mono; [by apply discover_steady|].
  cbn beta. intros [] s1 H1. destruct (_ && _ && _) eqn:Hif.
  - apply wp_ret. split; [done|]. left. by tests.
  - apply wp_bind, wp_get. cbv zeta.
    assert (servers (st_client s1) ≠ []) as Hne1 by (by eapply grows_nonempty; [apply H1|]).
    destruct (addresses_lookup (st_client s1) (S (v_cursor v)) Hne1) as (t&Hl&Hin).
    rewrite bool_decide_eq_false_2, Hl.
    2: { intros E. rewrite E in Hl. done. }
    apply wp_bind, wp_lift_some, wp_ret. split; [done|by right].
Qed.

(** The server at the cursor is the next target, or has been; [d] steps of the
    cursor lead to [live], whatever servers the client learns on the way, and each
    takes two attempts at most. *)
Lemma attempts_live i fuel attempt v s d :
  wf (st_client s) → validOrigin (v_target v) = true →
  addresses (st_client s) !! i = Some live → (v_cursor v + d = i)%nat →
  (addresses (st_client s) !! v_cursor v = Some (v_target v) ∧ (2 * d + 1 ≤ fuel)%nat ∨
   Nat.even attempt = false ∧ (1 ≤ d)%nat ∧ (2 * d ≤ fuel)%nat) →
  wp False (attempts fuel attempt m p b v) (λ x _, conclusive x) s.
Proof using HR HL.
  revert attempt v s d. induction fuel as [|fuel IH]; intros attempt v s d Hwf Ht Hlive Hi Hd; [lia|].
  cbn [attempts]. apply wp_bind, wp_get. rewrite (re_ctx _ _ _ _ HR).
  apply wp_bind. eapply wp_mono; [by apply one_attempt_steady|]. cbn beta.
  intros [r|[[redirect response] last]] s1; [intros Hr; by apply wp_ret|]. intros (H1&Hr&Hne).
  assert (1 ≤ d)%nat as Hd1.
  { destruct Hd as [[Hc _]|(_&?&_)]; [|done]. destruct d as [|d]; [|lia]. rewrite Nat.add_0_r in Hi.
    rewrite Hi, Hlive in Hc. by injection Hc as ->. }
  assert (servers (st_client s1) ≠ []) as Hss1.
  { eapply grows_nonempty; [apply H1|]. intros E. apply lookup_lt_Some in Hlive.
    rewrite addresses_length, E in Hlive. cbn in Hlive. lia. }
  apply wp_bind. eapply wp_mono; [by apply next_target_steady|]. cbn beta. intros [target cursor] s2 [H2 Hx].
  apply wp_bind. unfold wait_pause, wp. pose proof (re_pause _ _ _ _ HR (st_world s2)) as Hp.
  destruct (pause (st_world s2)) as [e w]. cbn in Hp. subst e. set (s3 := mkState _ _ _).
  assert (steady s2 s3) as H3 by (split; cbn; [apply others_grow|apply (re_others _ _ _ _ HR)]).
  assert (wf (st_client s2)) as Hwf2 by (eapply steady_wf, steady_wf; [exact H2|exact H1|done]).
  assert (steady s s3) as H03 by (etransitivity; [exact H1|by etransitivity]).
  pose proof (steady_wf _ _ H03 Hwf) as Hwf3. pose proof (steady_lookup _ _ _ _ H03 Hwf Hlive) as Hlive3.
  destruct Hx as [(Heven&Hx&Hrne)|[Hc Hx]].
  - injection Hx as -> ->. apply (IH _ _ _ d); [done|by destruct Hr|done|done|].
    right. split; [by rewrite Nat.even_succ, <-Nat.negb_even, Heven|]. split; [done|].
    destruct Hd as [[_ ?]|(Ho&_)]; [lia|congruence].
  - cbn in Hc, Hx. subst cursor.
    assert (steady s s2) as H02 by (etransitivity; [exact H1|exact H2]).
    pose proof (steady_lookup _ _ _ _ H02 Hwf Hlive) as Hlive2. apply lookup_lt_Some in Hlive2.
    rewrite Nat.mod_small in Hx by lia.
    apply (IH _ _ _ (d - 1)%nat); cbn [v_target v_cursor]; [done| |done|lia|].
    + apply list_elem_of_lookup_2 in Hx. rewrite addresses_perm in Hx.
      by apply (proj1 (Forall_forall _ _) (wf_valid _ Hwf2)).
    + left. split; [|lia]. by apply (steady_lookup s2 s3).
Qed.

End live.

(** C24. If the server [live] is among the first twenty the client knows and
    always gives a definitive answer, [Do] returns a definitive answer as long as
    the context lives: whatever the other servers answer, to whichever origin they
    redirect, known or not, and whichever servers they name as their peers. *)
Theorem Do_reaches_live m p b live s :
  wf (st_client s) → live ∈ take 20 (addresses (st_client s)) → reachable m p b live →
  ∃ r s', Do m p b s = Some (r, s') ∧ conclusive r.
Proof using HU HN HL.
  intros Hwf Hin HR. assert (wp False (Do m p b) (λ x _, conclusive x) s) as H.
  2: { apply wp_total in H as (r&s'&H&He). by exists r, s'. }
  apply list_elem_of_lookup_1 in Hin as [i Hi]. apply lookup_take_Some in Hi as [Hi Hlt].
  destruct (lookup_lt_is_Some_2 (addresses (st_client s)) 0) as [t Hl]; [by apply lookup_lt_Some in Hi; lia|].
  unfold Do. apply wp_bind, wp_get. rewrite Hl. apply wp_bind, wp_lift_some.
  apply (attempts_live m p b live HR i _ _ _ _ i); [done| |done|done|].
  - apply list_elem_of_lookup_2 in Hl. rewrite addresses_perm in Hl.
    by apply (proj1 (Forall_forall _ _) (wf_valid _ Hwf)).
  - left. cbn [v_cursor v_target]. split; [done|lia].
Qed.

End calls.

(** ** Witnesses *)

Section witnesses.

#[local] Existing Instance ex_urls.

(** Server [a] is a follower that redirects to [b]; [b] refuses the first two
    requests and then leads; [c] is down.  The world counts the exchanges. *)
Definition ex_exchange (req : HttpRequest) (n : nat) : (error + Reply) * nat :=
  (if String.prefix "http://a" (rq_URL req) then
     if bool_decide (rq_Header req = []) then inr (mkReply 200 "200 OK" "" (whole "peers"))
     else inr (mkReply 307 "307 Temporary Redirect" "http://b/v1/kv/k" (whole ""))
   else if String.prefix "http://b" (rq_URL req) then
     if (n <? 2)%nat then inl (ErrNew "connection refused") else inr (mkReply 200 "200 OK" "" (whole "done"))
   else inl (ErrNew "no route"), S n).

#[local] Instance ex_network : Network := {
  World := nat;
  ctx_Err := λ _, None;
  http_Do := ex_exchange;
  pause := λ w, (None, w);
  decode_peers := λ r, if bool_decide (rd_bytes r = "peers") then Some ["http://a"; "http://b"] else None;
  others := λ _ c, c;
}.

#[local] Instance ex_network_laws : NetworkLaws.
Proof. by split. Qed.

Definition ex_client : Client := mkClient ["http://c"; "http://a"; "http://b"] "" ∅.
Definition ex_state : state := mkState ex_client 0%nat [].

Lemma New_spec_witness :
  match New ["http://a/"; " http://b "; "http://a"] with
  | inr c => servers c = ["http://a"; "http://b"] ∧ wf c
  | inl _ => False
  end.
Proof.
  pose proof (New_spec ["http://a/"; " http://b "; "http://a"]) as H. split; [reflexivity|].
  vm_compute New in H. apply H.
Defined.

Lemma Do_spec_witness :
  servers (st_client ex_state) ≠ [] ∧
  ∃ s', Do "PUT" "/v1/kv/k" "{}" ex_state = Some ((mkResponse 200 "done" "http://b", None), s') ∧
    call_post "PUT" "/v1/kv/k" "{}" 40 ex_state (mkResponse 200 "done" "http://b", None) s'.
Proof.
  split; [discriminate|].
  destruct (Do_spec "PUT" "/v1/kv/k" "{}" ex_state ltac:(discriminate)) as (x&s'&Hd&Hp).
  assert (fst <$> Do "PUT" "/v1/kv/k" "{}" ex_state = Some (mkResponse 200 "done" "http://b", None)) as Hv
    by reflexivity.
  rewrite Hd in Hv. injection Hv as ->. exists s'. exact (conj Hd Hp).
Defined.

Lemma client_invariant_witness :
  New ["http://c"; "http://a"] = inr (mkClient ["http://c"; "http://a"] "" ∅) ∧
  ∃ xs s', do_all [("PUT", "/v1/kv/k", "{}"); ("GET", "/v1/kv/k", "")]
      (mkState (mkClient ["http://c"; "http://a"] "" ∅) 0%nat []) = Some (xs, s') ∧
    wf (st_client s') ∧ ["http://c"; "http://a"] `prefix_of` servers (st_client s') ∧ servers (st_client s') ≠ [].
Proof.
  split; [reflexivity|].
  exact (client_invariant ["http://c"; "http://a"] _ [("PUT", "/v1/kv/k", "{}"); ("GET", "/v1/kv/k", "")] 0%nat eq_refl).
Defined.

End witnesses.

Section live_witness.
#[local] Existing Instance ex_urls.

(** In the second world [b] leads at once, and the status of [a] names a server
    [d] the client has not heard of, to which [c] redirects in turn. *)
#[local] Instance ex_live_network : Network := {
  World := nat;
  ctx_Err := λ _, None;
  http_Do := λ req n,
    if String.prefix "http://c" (rq_URL req)
    then (inr (mkReply 307 "307 Temporary Redirect" "http://d/v1/kv/k" (whole "")), S n)
    else ex_exchange req (n + 2);
  pause := λ w, (None, w);
  decode_peers := λ r,
    if bool_decide (rd_bytes r = "peers") then Some ["http://a"; "http://b"; "http://d"] else None;
  others := λ _ c, c;
}.

#[local] Instance ex_live_laws : NetworkLaws.
Proof. by split. Qed.

Definition ex_live_state : state := mkState ex_client 0%nat [].

Lemma prefix_app x a b : String.prefix x a = true → String.prefix x (a +:+ b) = true.
Proof.
  revert a. induction x as [|c x IH]; intros [|d a]; [by destruct b|by destruct b|done|].
  change (String d a +:+ b) with (String d (a +:+ b)). cbn [String.prefix].
  destruct (ascii_dec c d); [apply IH|done].
Qed.

Lemma ex_reachable : reachable "PUT" "/v1/kv/k" "{}" "http://b".
Proof.
  split; [done..| |].
  - intros t Ht. unfold NewRequest. cbn [valid_method]. unfold validOrigin, Parse, ex_urls, plain_Parse in *.
    destruct (String.prefix "http://" t) eqn:Hp; [|done]. rewrite (prefix_app _ _ _ Hp).
    destruct (cut_slash (String.substring 7 (String.length (t +:+ _) - 7) (t +:+ _))). by eexists.
  - intros w. cbn. replace (w + 2)%nat with (S (S w)) by lia. split; [done|]. split; [by intros []|done].
Qed.

Lemma Do_reaches_live_witness :
  wf ex_client ∧ reachable "PUT" "/v1/kv/k" "{}" "http://b" ∧
  ∃ r s', Do "PUT" "/v1/kv/k" "{}" ex_live_state = Some (r, s') ∧ conclusive r.
Proof.
  assert (wf ex_client) as Hwf.
  { split; [by repeat constructor| |by left]. apply (bool_decide_unpack _). reflexivity. }
  split; [exact Hwf|]. split; [exact ex_reachable|].
  apply (Do_reaches_live "PUT" "/v1/kv/k" "{}" "http://b" ex_live_state); [exact Hwf| |exact ex_reachable].
  right. right. left.
Defined.

(** On the way the client has asked [d], which it did not know. *)
Example ex_live_trace :
  match Do "PUT" "/v1/kv/k" "{}" ex_live_state with
  | Some ((r, _), s') => r = mkResponse 200 "done" "http://b" ∧
      (rq_URL ∘ fst) <$> st_history s' =
        ["http://c/v1/kv/k"; "http://c/v1/status"; "http://d/v1/kv/k"; "http://d/v1/status";
         "http://a/v1/kv/k"; "http://a/v1/status"; "http://b/v1/kv/k"; "http://b/v1/status"]
  | None => False
  end.
Proof. vm_compute. split; reflexivity. Qed.

End live_witness.
