(* ===== verification/Api.v ===== *)
(** * Api: the client HTTP interface (src/internal/api/http.go)

    Requests arrive as the parts of them the handlers read; responses are the
    status, the Location header and the value that is encoded as JSON.  The
    handlers are generic in the store that executes commands, as they are in the
    source: [Handler] is their instance on the standalone database, and
    [ClusterHandler] on a node, whose [Execute] and [Get] wait for the cluster
    and are here computations on whatever state the cluster has. *)

From Stdlib Require Import Strings.Ascii Strings.String.
From stdpp Require Import base numbers list gmap strings fin_maps options.
From S2P Require Import Prelude Effects Bytes StateMachine Wal Journal Store Codec Events Node Database Urls Http.

Local Open Scope Z_scope.
#[local] Set Default Proof Using "Type*".

Record writeRequest := mkWriteRequest {
  wr_ClientID : string;
  wr_RequestID : N;
  wr_Value : option string;
  wr_Expected : option string;
}.

(** What is encoded: [V] are the values the caller provides. *)
Inductive payload (V : Type) :=
  | PEmpty
  | PAlive
  | PValue (v : V)
  | PResult (r : Result)
  | PError (code message : string)
  | PNotLeader (id url : string).
Arguments PEmpty {_}. Arguments PAlive {_}. Arguments PValue {_} _. Arguments PResult {_} _.
Arguments PError {_} _ _. Arguments PNotLeader {_} _ _.

Section handlers.
Context {V C : Type}.

Definition respond (status : Z) (value : payload V) : response (payload V) := mkResponse status "" value.

Definition apiError (status : Z) (code message : string) : response (payload V) :=
  respond status (PError code message).

Definition handleError (err : error) : response (payload V) :=
  if error_is is_ErrInvalid err then apiError 400 "invalid_command" (Error err)
  else if error_is is_ErrStale err then apiError 409 "stale_request" (Error err)
  else if error_is is_ErrReused err then apiError 409 "request_id_reused" (Error err)
  else apiError 503 "storage_unavailable"
    "storage unavailable; outcome may be unknown, restart and retry the same request".

Definition handleRequestError (uri : string) (err : error) : response (payload V) :=
  match as_NotLeader err with
  | Some (id, url) =>
    if bool_decide (url ≠ "") then mkResponse 307 (url +:+ uri) (PNotLeader id url)
    else apiError 503 "leader_unknown" "leader election in progress; retry the same request"
  | None =>
    if error_is is_ErrNoQuorum err then apiError 503 "no_quorum" (Error err) else handleError err
  end.

(** ** The handlers *)

Context {S : Type} `{HM : ServeMux, HJ : JsonStream, HW : Json writeRequest}.
Context (execute : C → Command → M S (Result * option error)).
Context (get_key : C → string → M S (string * bool * option error)).
Context (status : M S V).

Definition get_handler (key : string) (r : request C) : M S (response (payload V)) :=
  if (1024 <? strlenN key)%N
  then mret (apiError 400 "invalid_key" "key exceeds 1024 bytes")
  else
    '(value, found, err) ← get_key (r_Context r) key;
    match err with
    | Some err => mret (handleRequestError (r_URI r) err)
    | None =>
      mret (respond (if (found : bool) then 200 else 404) (PResult (mkResult value found false false)))
    end.

(** The checks of the fields a command may and must have. *)
Definition missing_field (operation : string) (body : writeRequest) : bool :=
  (bool_decide (operation = "SET") || bool_decide (operation = "CAS")) && bool_decide (wr_Value body = None) ||
  bool_decide (operation = "CAS") && bool_decide (wr_Expected body = None).

Definition unexpected_field (operation : string) (body : writeRequest) : bool :=
  bool_decide (operation = "DELETE") && (bool_decide (wr_Value body ≠ None) || bool_decide (wr_Expected body ≠ None)) ||
  bool_decide (operation = "SET") && bool_decide (wr_Expected body ≠ None).

Definition write_command (operation key : string) (body : writeRequest) : Command :=
  mkCommand (wr_ClientID body) (wr_RequestID body) operation key
    (default "" (wr_Value body)) (default "" (wr_Expected body)).

(** The body's command, or the refusal. *)
Definition read_command (operation key : string) (r : request C) : response (payload V) + Command :=
  match decode_one (apiError 400 "invalid_json" "expected a JSON command body")
          (apiError 400 "invalid_json" "body must contain exactly one JSON object")
          (MaxBytesReader 16777216 (r_Body r)) with
  | inl refusal => inl refusal
  | inr body =>
    if missing_field operation body
    then inl (apiError 400 "invalid_command" "value is required; CAS also requires expected")
    else if unexpected_field operation body
    then inl (apiError 400 "invalid_command" "unexpected value or expected field")
    else inr (write_command operation key body)
  end.

Definition write_response (uri : string) (x : Result * option error) : response (payload V) :=
  match x.2 with
  | Some err => handleRequestError uri err
  | None => respond (if r_Conflict x.1 then 409 else 200) (PResult x.1)
  end.

Definition write (operation key : string) (r : request C) : M S (response (payload V)) :=
  match read_command operation key r with
  | inl refusal => mret refusal
  | inr command => x ← execute (r_Context r) command; mret (write_response (r_URI r) x)
  end.

(** [/v1/kv/{key}] and, with [true], [/v1/kv/{key}/cas]: a wildcard matches a
    segment that is not empty. *)
Definition key_segment (segs : list string) : option (string * bool) :=
  match segs with
  | [v1; kv; key] =>
    if bool_decide (v1 = "v1") && bool_decide (kv = "kv") && bool_decide (key ≠ "")
    then Some (key, false) else None
  | [v1; kv; key; cas] =>
    if bool_decide (v1 = "v1") && bool_decide (kv = "kv") && bool_decide (key ≠ "") && bool_decide (cas = "cas")
    then Some (key, true) else None
  | _ => None
  end.

(** The patterns that match the path: a method and what it serves.  A pattern
    for GET serves HEAD too. *)
Definition patterns (segs : list string) : list (string * (request C → M S (response (payload V)))) :=
  if bool_decide (segs = ["health"]) then [("GET", λ _, mret (respond 200 PAlive))]
  else if bool_decide (segs = ["v1"; "status"]) then [("GET", λ _, v ← status; mret (respond 200 (PValue v)))]
  else
    match key_segment segs with
    | Some (key, false) => [("GET", get_handler key); ("PUT", write "SET" key); ("DELETE", write "DELETE" key)]
    | Some (key, true) => [("POST", write "CAS" key)]
    | None => []
    end.

Definition serves (method : string) (p : string * (request C → M S (response (payload V)))) : bool :=
  bool_decide (p.1 = method) || bool_decide (p.1 = "GET") && bool_decide (method = "HEAD").

Definition handler (r : request C) : M S (response (payload V)) :=
  if unclean r
  then mret (mkResponse moved (cleanPath (r_Path r)) PEmpty)
  else
    let ps := patterns (matched_segments (r_Path r)) in
    match List.find (serves (r_Method r)) ps with
    | Some (_, h) => h r
    | None => mret (respond (if bool_decide (ps = []) then 404 else 405) PEmpty)
    end.

End handlers.

(** ** [Handler]: the standalone server *)

Section standalone.
Context {C : Type} `{HC : Codec Command, HM : ServeMux, HJ : JsonStream, HW : Json writeRequest}.

Record standalone_status := mkStandaloneStatus {
  so_NodeID : string;
  so_Mode : string;
  so_Stats : DatabaseStats;
}.

Definition database_execute (_ : C) (c : Command) : M (Database * Disk) (Result * option error) :=
  Database.Execute c.
Definition database_get (_ : C) (key : string) : M (Database * Disk) (string * bool * option error) :=
  gets (λ s, Database.Get s.1 key).
Definition database_status (nodeID : string) : M (Database * Disk) standalone_status :=
  gets (λ s, mkStandaloneStatus nodeID "standalone" (Database.Stats s.1)).

Definition Handler (nodeID : string) (r : request C) : M (Database * Disk) (response (payload standalone_status)) :=
  handler database_execute database_get (database_status nodeID) r.

End standalone.

(** ** [ClusterHandler] and [AdminHandler]: a node of a cluster *)

(** [strconv.ParseUint] in base ten, without its error: 0 for what is no number,
    the largest for what is too large. *)
Fixpoint parse_digits (s : string) (n : N) : option N :=
  match s with
  | EmptyString => Some n
  | String c s' =>
    if ascii_between "0" "9" c
    then parse_digits s' (10 * n + N.of_nat (nat_of_ascii c - 48))%N
    else None
  end.

Definition ParseUint (s : string) : N :=
  if bool_decide (s = "") then 0%N
  else match parse_digits s 0 with
       | None => 0%N
       | Some n => if (n <? two64)%N then n else (two64 - 1)%N
       end.

Section cluster.
Context {C V S : Type} `{HM : ServeMux, HJ : JsonStream, HW : Json writeRequest}.
Context (node_execute : C → Command → M S (Result * option error)).
Context (node_get : C → string → M S (string * bool * option error)).
Context (node_status : M S V) (node_inspect : N → M S V).

Definition ClusterHandler (r : request C) : M S (response (payload V)) :=
  if unclean r
  then mret (mkResponse moved (cleanPath (r_Path r)) PEmpty)
  else if bool_decide (matched_segments (r_Path r) = ["v1"; "inspect"]) &&
          (bool_decide (r_Method r = "GET") || bool_decide (r_Method r = "HEAD"))
  then v ← node_inspect (ParseUint (r_After r)); mret (respond 200 (PValue v))
  else handler node_execute node_get node_status r.

End cluster.

Section admin.
Context {C J : Type} `{Journal J, Codec record}.

Definition AdminHandler (token : string) (r : request C) : M (Node J) (response (payload Status)) :=
  if bool_decide (token = "") || bool_decide (r_Header r "X-ShardZero-Admin" ≠ token)
  then mret (apiError 403 "forbidden" "admin token required")
  else if bool_decide (r_Method r ≠ "POST") then mret (respond 405 PEmpty)
  else if bool_decide (PathUnescape (r_Path r) = Some "/admin/pause") then
    SetPaused true ;; s ← gets statusLocked; mret (respond 200 (PValue s))
  else if bool_decide (PathUnescape (r_Path r) = Some "/admin/resume") then
    SetPaused false ;; s ← gets statusLocked; mret (respond 200 (PValue s))
  else mret (respond 404 PEmpty).

End admin.

(** ** What a status says *)

(** An error that is none of the program's refusals. *)
Definition system_error (e : error) : bool :=
  negb (bool_decide (is_Some (as_NotLeader e)) || error_is is_ErrNoQuorum e || error_is is_ErrInvalid e ||
        error_is is_ErrStale e || error_is is_ErrReused e).

Lemma Check_error m c r dup e :
  Check m c = (r, dup, Some e) →
  (∃ msg, e = ErrInvalid msg) ∨ e = ErrStale ∨ e = ErrReused.
Proof.
  unfold Check. destruct (Validate c) as [e'|] eqn:Hv.
  - intros [= <- <- <-]. left. revert Hv. unfold Validate. repeat case_match; try done; intros [= <-]; by eexists.
  - destruct (sessions m !! c_ClientID c); [|done]. repeat case_match; try done; intros [= <- <- <-]; auto.
Qed.

(** What [encoding/json] puts in a field of type [uint64]. *)
Class WriteRequestTyped `{Json writeRequest} : Prop := {
  request_id_typed r body rest : Decode r = inr (body, rest) → (wr_RequestID body < two64)%N;
}.

Section outcomes.
Context {C : Type} `{HC : Codec Command, HCL : !CommandCodecLaws}.
Context `{HM : ServeMux, HJ : JsonStream, HW : Json writeRequest, HWT : !WriteRequestTyped}.

(** The operating system's errors are none of the program's refusals. *)
Definition system_fault (f : fault) : Prop := ∀ e, f_err f = Some e → system_error e = true.

Definition unavailable : response (payload standalone_status) :=
  apiError 503 "storage_unavailable"
    "storage unavailable; outcome may be unknown, restart and retry the same request".

(** The answer to a command that is refused. *)
Definition refused (e : error) : option (Z * string) :=
  match e with
  | ErrInvalid _ => Some (400, "invalid_command")
  | ErrStale => Some (409, "stale_request")
  | ErrReused => Some (409, "request_id_reused")
  | _ => None
  end.

(** What became of the command [c] when the server answers. *)
Inductive written (c : Command) (d : Database) (disk : Disk) :
    response (payload standalone_status) → Database → Disk → Prop :=
  | written_new res d' disk' :
    (* executed once, in memory and on the disk *)
    fresh (machine d) c → Apply (machine d) c = (machine d', (res, None)) → durable d' disk' (machine d') →
    written c d disk (respond (if r_Conflict res then 409 else 200) (PResult res)) d' disk'
  | written_again res :
    (* executed before: the answer it had *)
    Apply (machine d) c = (machine d, (res, None)) →
    written c d disk (respond (if r_Conflict res then 409 else 200) (PResult res)) d disk
  | written_refused status code res e :
    (* never executed *)
    Apply (machine d) c = (machine d, (res, Some e)) → refused e = Some (status, code) →
    written c d disk (apiError status code (Error e)) d disk
  | written_unavailable :
    closed d || failed d = true →
    written c d disk unavailable d disk
  | written_unknown m d' disk' :
    (* the disk failed while the command was written: it may be found after a restart *)
    fresh (machine d) c → faults disk ≠ [] → machine d' = machine d → failed d' = true →
    durable d' disk' m → m = machine d ∨ m = (Apply (machine d) c).1 →
    written c d disk unavailable d' disk'.

(** *** Where the errors of a write come from *)

Lemma system_error_join e1 e2 :
  system_error e1 = true → system_error e2 = true → system_error (ErrJoin e1 e2) = true.
Proof using Type.
  unfold system_error. rewrite !negb_true_iff, !orb_false_iff. cbn [error_is as_NotLeader is_ErrNoQuorum
    is_ErrInvalid is_ErrStale is_ErrReused]. intros [[[[H1 H2] H3] H4] H5] [[[[K1 K2] K3] K4] K5].
  rewrite H2, H3, H4, H5, K2, K3, K4, K5. destruct (as_NotLeader e1); [done|]. by rewrite K1.
Qed.

Lemma system_error_response uri e :
  system_error e = true → handleRequestError (V := standalone_status) uri e = unavailable.
Proof using Type.
  unfold system_error, handleRequestError, handleError. rewrite negb_true_iff, !orb_false_iff.
  intros [[[[H1 H2] H3] H4] H5]. tests. destruct (as_NotLeader e); [by destruct H1|].
  by rewrite H2, H3, H4, H5.
Qed.

Lemma next_fault_system disk :
  Forall system_fault (faults disk) →
  wp False next_fault (λ f disk', system_fault f ∧ Forall system_fault (faults disk')) disk.
Proof using Type.
  unfold wp, next_fault. destruct (faults disk) as [|x fs] eqn:Hf; [by rewrite Hf|].
  cbn. by intros [? ?]%Forall_cons.
Qed.

Lemma write_file_system name b disk :
  Forall system_fault (faults disk) →
  wp False (write_file name b) (λ x disk', (∀ e, x.2 = Some e → system_error e = true) ∧
    Forall system_fault (faults disk')) disk.
Proof using Type.
  intros Hs. apply wp_bind. eapply wp_mono; [by apply next_fault_system|]. cbn beta.
  intros f disk1 [Hf Hs1]. by apply wp_bind, wp_modify, wp_ret.
Qed.

Lemma sync_file_system name disk :
  Forall system_fault (faults disk) →
  wp False (sync_file name) (λ err disk', (∀ e, err = Some e → system_error e = true) ∧
    Forall system_fault (faults disk')) disk.
Proof using Type.
  intros Hs. apply wp_bind, wp_bind. eapply wp_mono; [by apply next_fault_system|]. cbn beta.
  intros f disk1 [Hf Hs1]. apply wp_ret. destruct (f_err f) as [e|] eqn:He; [|by apply wp_bind, wp_modify, wp_ret].
  apply wp_ret. split; [|done]. intros e' [= <-]. by apply Hf.
Qed.

Lemma Append_system b w disk err w' disk' :
  Append b (w, disk) = Some (err, (w', disk')) → w_failed w = None → Forall system_fault (faults disk) →
  (∀ e, err = Some e → system_error e = true) ∧ Forall system_fault (faults disk').
Proof using Type.
  unfold Append. intros H Hw Hs. rewrite Hw in H. destruct (invalid_size b).
  { injection H as <- <- <-. split; [by intros e [= <-]|done]. }
  cbv zeta in H.
  destruct (if w_open w then _ else _) as [[[n err1] disk1]|] eqn:Hwr; [|done].
  assert ((∀ e, err1 = Some e → system_error e = true) ∧ Forall system_fault (faults disk1)) as [He1 Hs1].
  { destruct (w_open w).
    - pose proof (write_file_system (w_path w) (frame b) disk Hs) as Hx. unfold wp in Hx. by rewrite Hwr in Hx.
    - injection Hwr as <- <- <-.  by split; [intros e [= <-]|]. }
  set (err2 := match err1 with None => _ | Some _ => _ end) in H.
  assert (∀ e, err2 = Some e → system_error e = true) as He2.
  { unfold err2. destruct err1; [done|]. destruct (negb _); [by intros e [= <-]|done]. }
  destruct (match err2 with None => _ | Some _ => _ end) as [[err3 disk3]|] eqn:Hsy; [|done].
  assert ((∀ e, err3 = Some e → system_error e = true) ∧ Forall system_fault (faults disk3)) as [He3 Hs3].
  { destruct err2 as [e|].
    - injection Hsy as <- <-. by split; [intros e' [= <-]; apply He2|].
    - pose proof (sync_file_system (w_path w) disk1 Hs1) as Hx. unfold wp in Hx. by rewrite Hsy in Hx. }
  injection H as <- <- <-. split; [|done]. intros e. destruct err3 as [e3|]; [|done]. intros [= <-].
  exact (He3 e3 eq_refl).
Qed.

(** A new command is answered with an error only by a failing disk. *)
Lemma Execute_system c d disk res err d' disk' :
  Database.Execute c (d, disk) = Some ((res, err), (d', disk')) → in_use d disk →
  Forall system_fault (faults disk) →
  Forall system_fault (faults disk') ∧
  (fresh (machine d) c → failed d' = true → ∀ e, err = Some e → system_error e = true).
Proof using Type.
  unfold Database.Execute. intros H [_ Huse] Hs. destruct (closed d || failed d) eqn:Hcf.
  { injection H as <- <- <- <-. split; [done|]. by intros _ _ e [= <-]. }
  apply orb_false_iff in Hcf as [Hcl Hfl]. destruct (Huse Hfl Hcl) as [_ Hwf].
  destruct (Check (machine d) c) as [[r dup] e0] eqn:Hck.
  destruct (dup || bool_decide (e0 ≠ None)) eqn:Hdup.
  { injection H as <- <- <- <-. split; [done|]. intros _ Hf. congruence. }
  destruct (marshal c) as [e1|b].
  { injection H as <- <- <- <-. split; [done|]. intros _ Hf. congruence. }
  destruct (Append b (wal d, disk)) as [[[e1|] [w disk1]]|] eqn:Ha; [| |done];
    destruct (Append_system _ _ _ _ _ _ Ha Hwf Hs) as [He Hs1].
  - injection H as <- <- <- <-. split; [done|]. intros _ _ e [= <-].
    apply system_error_join; [done|by apply He].
  - destruct (Apply (machine d) c) as [m r']. injection H as -> <- <-. split; [done|]. cbn. congruence.
Qed.

Lemma read_command_cases operation key (r : request C) :
  match read_command (V := standalone_status) operation key r with
  | inl refusal => rs_Status refusal = 400
  | inr c => ∃ body rest rest', Decode rest = inr (body, rest') ∧ c = write_command operation key body
  end.
Proof using Type.
  unfold read_command, decode_one. destruct (Decode _) as [e|[body rest]] eqn:Hd; [done|].
  destruct (DecodeAny rest); [|done|done].
  destruct (missing_field operation body); [done|]. destruct (unexpected_field operation body); [done|].
  eexists body, _, rest. exact (conj Hd eq_refl).
Qed.

Lemma write_response_error uri res e :
  (∃ msg, e = ErrInvalid msg) ∨ e = ErrStale ∨ e = ErrReused →
  ∃ status code, refused e = Some (status, code) ∧
    write_response (V := standalone_status) uri (res, Some e) = apiError status code (Error e).
Proof using Type. intros [[msg ->]|[->| ->]]; by do 2 eexists. Qed.

(** A write, when the database is in use. *)
Lemma write_outcome operation key (r : request C) d disk :
  in_use d disk → Forall system_fault (faults disk) →
  ∃ resp d' disk', write database_execute operation key r (d, disk) = Some (resp, (d', disk')) ∧
    Forall system_fault (faults disk') ∧
    match read_command operation key r with
    | inl refusal => resp = refusal ∧ rs_Status resp = 400 ∧ d' = d ∧ disk' = disk
    | inr c => written c d disk resp d' disk'
    end.
Proof using HCL HWT.
  intros Huse Hsys. unfold write. pose proof (read_command_cases operation key r) as Hrc.
  destruct (read_command operation key r) as [refusal|c]; [by eexists _, d, disk|].
  destruct Hrc as (body&rest&rest'&Hd&->). set (c := write_command operation key body).
  destruct (Execute_spec c d disk Huse) as ([res err]&d'&disk'&He&Hx); [by eapply request_id_typed|].
  destruct (Execute_system _ _ _ _ _ _ _ He Huse Hsys) as [Hsys' Herr].
  eexists _, d', disk'. split; [unfold database_execute; by erewrite bind_ok by exact He|].
  split; [done|]. clear He. remember (res, err) as x eqn:Ex.
  destruct Hx as [Hcf|x Hcf Hnf Ha|w disk' Hcf Hf Hd' Hw1 Hw2|w disk' e m Hcf Hf Hflt d' Hdur Hm].
  - by apply written_unavailable.
  - subst x. destruct err as [e|]; [|by apply written_again].
    destruct (Check (machine d) c) as [[res' dup] err] eqn:Hck.
    assert (err = Some e) as ->.
    { destruct err as [err|]; [rewrite (Apply_error _ _ _ _ _ Hck) in Ha; congruence|].
      destruct dup; [rewrite (Apply_dup _ _ _ Hck) in Ha; congruence|].
      destruct (Check_cases (machine d) c) as [[? H]|[(?&_&_&_&H)|H]]; [congruence..|done]. }
    destruct (write_response_error (r_URI r) res e (Check_error _ _ _ _ _ Hck)) as (status&code&Hrf&->).
    by apply (written_refused _ _ _ _ _ res e).
  - clear Ex. pose proof (Apply_fresh _ _ Hf) as Ha. rewrite Ha in Hd' |- *. cbn [snd fst] in *.
    apply written_new; [done| |exact Hd']. by rewrite Ha.
  - injection Ex as -> <-. unfold write_response. cbn [snd].
    rewrite system_error_response by (apply Herr; done).
    by apply (written_unknown c d disk m d' disk').
Qed.

(** The writes among the requests, by method and path. *)
Definition routed_write (r : request C) : option (string * string) :=
  if unclean r then None
  else
    match key_segment (matched_segments (r_Path r)) with
    | Some (key, false) =>
      if bool_decide (r_Method r = "PUT") then Some ("SET", key)
      else if bool_decide (r_Method r = "DELETE") then Some ("DELETE", key)
      else None
    | Some (key, true) => if bool_decide (r_Method r = "POST") then Some ("CAS", key) else None
    | None => None
    end.

Lemma handler_write {V S} (execute : C → Command → M S (Result * option error)) get_key (status : M S V) r operation key :
  routed_write r = Some (operation, key) →
  handler execute get_key status r = write execute operation key r.
Proof using Type.
  unfold routed_write, handler. destruct (unclean r); [done|]. unfold patterns.
  destruct (bool_decide (_ = ["health"])) eqn:E1; [by apply bool_decide_eq_true in E1 as ->|].
  destruct (bool_decide (_ = ["v1"; "status"])) eqn:E2; [by apply bool_decide_eq_true in E2 as ->|].
  destruct (key_segment _) as [[k []]|]; [| |done].
  - destruct (decide (r_Method r = "POST")) as [Hm|Hm]; rewrite ?Hm; [by intros [= <- <-]|].
    by rewrite (bool_decide_eq_false_2 (r_Method r = "POST")).
  - destruct (decide (r_Method r = "PUT")) as [Hm|Hm]; rewrite ?Hm; [by intros [= <- <-]|].
    rewrite (bool_decide_eq_false_2 (r_Method r = "PUT")) by done.
    destruct (decide (r_Method r = "DELETE")) as [Hm'|Hm']; rewrite ?Hm'; [by intros [= <- <-]|].
    by rewrite (bool_decide_eq_false_2 (r_Method r = "DELETE")).
Qed.

(** The reads, and what they are answered. *)
Definition routed_read (r : request C) : option string :=
  if unclean r then None
  else
    match key_segment (matched_segments (r_Path r)) with
    | Some (key, false) =>
      if bool_decide (r_Method r = "GET") || bool_decide (r_Method r = "HEAD") then Some key else None
    | _ => None
    end.

Definition read_answer (d : Database) (key : string) : response (payload standalone_status) :=
  if (1024 <? strlenN key)%N then apiError 400 "invalid_key" "key exceeds 1024 bytes"
  else if closed d || failed d then unavailable
  else
    match values (machine d) !! key with
    | Some value => respond 200 (PResult (mkResult value true false false))
    | None => respond 404 (PResult (mkResult "" false false false))
    end.

Lemma handler_read {V S} (execute : C → Command → M S (Result * option error)) get_key (status : M S V) r key :
  routed_read r = Some key →
  routed_write r = None ∧ handler execute get_key status r = get_handler get_key key r.
Proof using Type.
  unfold routed_read, routed_write, handler. destruct (unclean r); [done|]. unfold patterns.
  destruct (bool_decide (_ = ["health"])) eqn:E1; [by apply bool_decide_eq_true in E1 as ->|].
  destruct (bool_decide (_ = ["v1"; "status"])) eqn:E2; [by apply bool_decide_eq_true in E2 as ->|].
  destruct (key_segment _) as [[k []]|]; [done| |done].
  destruct (_ || _) eqn:Hm; [|done]. intros [= <-]. apply orb_true_iff in Hm.
  rewrite !bool_decide_eq_true in Hm. by destruct Hm as [-> | ->].
Qed.

Lemma get_answer key (r : request C) d disk :
  get_handler database_get key r (d, disk) = Some (read_answer d key, (d, disk)).
Proof using Type.
  unfold get_handler, read_answer. destruct (1024 <? strlenN key)%N; [done|].
  unfold database_get. erewrite bind_ok by reflexivity. cbn [fst].
  unfold Database.Get. destruct (closed d || failed d); [done|].
  unfold StateMachine.Get. by destruct (values (machine d) !! key).
Qed.

Lemma handler_other {V S} (execute : C → Command → M S (Result * option error)) get_key (status : M S V) r s :
  (∀ c k, wp False (get_key c k) (λ _ s', s' = s) s) → wp False status (λ _ s', s' = s) s →
  routed_write r = None → wp False (handler execute get_key status r) (λ _ s', s' = s) s.
Proof using Type.
  intros Hget Hst. unfold routed_write, handler. destruct (unclean r); [by intros; apply wp_ret|].
  unfold patterns.
  assert (∀ key, wp False (get_handler (V := V) get_key key r) (λ _ s', s' = s) s) as Hg.
  { intros key. unfold get_handler. destruct (_ <? _)%N; [by apply wp_ret|]. apply wp_bind.
    eapply wp_mono; [apply Hget|]. cbn beta. intros [[value found] [err|]] s' ->; by apply wp_ret. }
  destruct (bool_decide (_ = ["health"])) eqn:E1.
  { intros _. cbn [List.find]. destruct (serves _ _); by apply wp_ret. }
  destruct (bool_decide (_ = ["v1"; "status"])) eqn:E2.
  { intros _. cbn [List.find]. destruct (serves _ _); [|by apply wp_ret].
    apply wp_bind. eapply wp_mono; [exact Hst|]. intros v s' ->. by apply wp_ret. }
  destruct (key_segment _) as [[k []]|]; [| |intros _; by apply wp_ret].
  - destruct (decide (r_Method r = "POST")) as [Hm|Hm]; [by rewrite bool_decide_eq_true_2|].
    intros _. cbn [List.find]. unfold serves at 1. cbn [fst].
    rewrite (bool_decide_eq_false_2 ("POST" = r_Method r)) by congruence. by apply wp_ret.
  - destruct (decide (r_Method r = "PUT")) as [Hm|Hm]; [by rewrite bool_decide_eq_true_2|].
    rewrite (bool_decide_eq_false_2 (r_Method r = "PUT")) by done.
    destruct (decide (r_Method r = "DELETE")) as [Hm'|Hm']; [by rewrite bool_decide_eq_true_2|].
    intros _. cbn [List.find].
    destruct (serves _ ("GET", _)); [apply Hg|]. unfold serves. cbn [fst].
    rewrite (bool_decide_eq_false_2 ("PUT" = r_Method r)), (bool_decide_eq_false_2 ("DELETE" = r_Method r)) by congruence.
    by apply wp_ret.
Qed.

(** C27. Whatever request reaches the standalone server and whatever the disk does,
    it answers, and the answer tells the truth.  Only PUT and DELETE of a key and
    POST of its [cas] change anything.  A result (200, or 409 with a result)
    means that the command is executed and durable, once, however often it was
    sent; 400, and 409 with an error code, that it was refused for the reason the
    answer names and not executed.  Everything else is the one answer of 503: the
    database is out of use, or the disk failed, which leaves the machine as it was
    and the journal with or without the command.  A GET is answered from the
    machine.  The errors of the operating system are none of the program's own. *)
Theorem Handler_outcome nodeID (r : request C) d disk :
  in_use d disk → Forall system_fault (faults disk) →
  ∃ resp d' disk', Handler nodeID r (d, disk) = Some (resp, (d', disk')) ∧
    Forall system_fault (faults disk') ∧
    match routed_write r with
    | None => d' = d ∧ disk' = disk ∧ ∀ key, routed_read r = Some key → resp = read_answer d key
    | Some (operation, key) =>
      match read_command operation key r with
      | inl refusal => resp = refusal ∧ rs_Status resp = 400 ∧ d' = d ∧ disk' = disk
      | inr c => written c d disk resp d' disk'
      end
    end.
Proof using HCL HWT.
  intros Huse Hsys. unfold Handler. destruct (routed_write r) as [[operation key]|] eqn:Hr.
  - rewrite (handler_write _ _ _ _ _ _ Hr). by apply write_outcome.
  - destruct (routed_read r) as [key|] eqn:Hrd.
    { destruct (handler_read database_execute database_get (database_status nodeID) r key Hrd) as [_ ->].
      exists (read_answer d key), d, disk. split; [apply get_answer|]. by split_and!; [..|intros k [= <-]]. }
    pose proof (handler_other database_execute database_get (database_status nodeID) r (d, disk)) as H.
    apply wp_total in H as (resp&s'&H&->); [|done..]. exists resp, d, disk. by split_and!.
Qed.

(** C28. Retries over HTTP are executed once: a write that was answered with a
    result has that answer again, and changes nothing, whenever the same request
    reaches a server whose database has executed it and then any commands of
    other clients and earlier or equal requests of the same client, restarts
    included. *)
Theorem http_exactly_once nodeID (r : request C) operation key c d disk res resp d1 disk1 cs d2 disk2 :
  in_use d disk → routed_write r = Some (operation, key) →
  read_command (V := standalone_status) operation key r = inr c →
  Handler nodeID r (d, disk) = Some (resp, (d1, disk1)) → rs_Payload resp = PResult res →
  (∀ c', c' ∈ cs → c_ClientID c' = c_ClientID c → (c_RequestID c' ≤ c_RequestID c)%N) →
  machine d2 = (ApplyAll (machine d1) cs).1 → closed d2 = false → failed d2 = false →
  Handler nodeID r (d2, disk2) = Some (resp, (d2, disk2)).
Proof using HCL HWT.
  intros Huse Hrw Hr. unfold Handler. rewrite !(handler_write _ _ _ _ _ _ Hrw). unfold write. rewrite Hr.
  intros Hw Hp Hcs Hm Hcl Hf.
  pose proof (read_command_cases operation key r) as Hrc. rewrite Hr in Hrc.
  destruct Hrc as (body&rest&rest'&Hdec&Hc).
  destruct (Execute_spec c d disk Huse) as (x&d'&disk'&He&Hx); [rewrite Hc; by eapply request_id_typed|].
  unfold database_execute in Hw. erewrite bind_ok in Hw by exact He. injection Hw as <- <- <-.
  assert (x = (res, None) ∧ Apply (machine d) c = (machine d', (res, None))) as [-> Ha].
  { destruct x as [res' [err|]].
    { revert Hp. unfold write_response, handleRequestError, handleError. cbn. repeat case_match; done. }
    cbn in Hp. injection Hp as ->. split; [done|]. inversion Hx; subst; [done|].
    match goal with H : (Apply _ _).2 = _ |- _ => destruct (Apply (machine d) _); cbn in *; by rewrite H end. }
  destruct (Apply_session _ _ _ _ Ha) as (p&Hpp&Hcp&<-).
  assert (Check (machine d2) c = (s_Result p, true, None)) as Hck.
  { rewrite Hm. apply (Check_session _ _ p); [by eapply Apply_valid| |done].
    apply ApplyAll_session_stable; [done|]. by rewrite Hcp. }
  assert (Database.Execute c (d2, disk2) = Some ((s_Result p, None), (d2, disk2))) as He2.
  { unfold Database.Execute. by rewrite Hcl, Hf, Hck. }
  unfold database_execute. by erewrite bind_ok by exact He2.
Qed.

End outcomes.

(** ** A codec of request bodies that evaluates

    The fields are written as [flat_codec] writes a command's, with marks for the
    optional ones in place of the operation. *)

Definition marks (body : writeRequest) : string :=
  (if wr_Value body then "v" else "") +:+ (if wr_Expected body then "e" else "").

Definition body_command (body : writeRequest) : Command :=
  mkCommand (wr_ClientID body) (wr_RequestID body) (marks body) ""
    (default "" (wr_Value body)) (default "" (wr_Expected body)).

Definition command_body (c : Command) : writeRequest :=
  let marked m := existsb (Ascii.eqb m) (bytes_of (c_Operation c)) in
  mkWriteRequest (c_ClientID c) (c_RequestID c)
    (if marked "v"%char then Some (c_Value c) else None)
    (if marked "e"%char then Some (c_Expected c) else None).

Lemma command_body_roundtrip body : command_body (body_command body) = body.
Proof. by destruct body as [id n [v|] [e|]]. Qed.

#[export] Instance plain_stream : JsonStream := {
  DecodeAny := λ r,
    match rd_end r with
    | Some e => TrailingError e
    | None => if bool_decide (rd_bytes r = "") then AtEOF else Trailing
    end;
}.

#[export] Instance flat_body : Json writeRequest := {
  Encode := λ body,
    match flat_marshal (body_command body) with
    | inl err => inl err
    | inr b => inr (String.string_of_list_byte b)
    end;
  Decode := λ r,
    match rd_end r with
    | Some err => inl err
    | None =>
      match flat_unmarshal (String.list_byte_of_string (rd_bytes r)) with
      | inl err => inl err
      | inr c => inr (command_body c, whole "")
      end
    end;
}.

(** Texts and a request id that JSON can represent. *)
Definition rep_body (body : writeRequest) : Prop := rep_command (body_command body).
Definition body_cost (body : writeRequest) : N := (6 * text_bytes (body_command body) + 256)%N.

Lemma length_string_of_bytes b : String.length (String.string_of_list_byte b) = length b.
Proof. unfold String.string_of_list_byte. induction b as [|x b IH]; [done|]. cbn. by rewrite IH. Qed.

Lemma list_byte_of_string_app s t :
  String.list_byte_of_string (s +:+ t) = String.list_byte_of_string s ++ String.list_byte_of_string t.
Proof.
  induction s as [|c s IH]; [done|]. exact (f_equal (cons (byte_of_ascii c)) IH).
Qed.

#[export] Instance flat_body_laws : JsonLaws writeRequest rep_body body_cost.
Proof.
  split. intros body Hrep. exists (String.string_of_list_byte (put_command (body_command body))).
  split; [done|]. split.
  { unfold strlenN, body_cost. rewrite length_string_of_bytes. fold (lenN (put_command (body_command body))).
    rewrite length_put_command. lia. }
  intros t _. exists (whole ""). unfold Decode, flat_body. cbn [rd_end whole rd_bytes].
  rewrite list_byte_of_string_app, String.list_byte_of_string_of_list_byte, flat_unmarshal_app by done.
  by rewrite command_body_roundtrip.
Qed.

#[export] Instance flat_body_typed : WriteRequestTyped.
Proof.
  split. intros r body rest. unfold Decode, flat_body. destruct (rd_end r); [done|].
  destruct (flat_unmarshal _) as [e|c] eqn:Hc; [done|]. intros [= <- <-].
  exact (rep_RequestID _ (command_decodes (H := flat_codec) _ c Hc)).
Qed.

(** ** Witnesses *)

Section witnesses.
#[local] Instance ex_mux : ServeMux := { moved := 301 }.

Definition ex_body : writeRequest := mkWriteRequest "a" 1 (Some "v") None.
Definition ex_put : request unit :=
  mkRequest tt "PUT" "/v1/kv/k" "/v1/kv/k" "" (λ _, "")
    (match Encode ex_body with inr s => whole s | inl _ => whole "" end).

Definition ex_put_result : Result := mkResult "v" true true false.

(** The first write is executed. *)
Lemma Handler_outcome_witness :
  in_use ex_db ex_db_disk ∧ routed_write ex_put = Some ("SET", "k") ∧
  ∃ resp d' disk', Handler "node-1" ex_put (ex_db, ex_db_disk) = Some (resp, (d', disk')) ∧
    rs_Status resp = 200 ∧ rs_Payload resp = PResult ex_put_result ∧
    written (mkCommand "a" 1 "SET" "k" "v" "") ex_db ex_db_disk resp d' disk'.
Proof.
  split; [exact ex_db_in_use|]. split; [reflexivity|].
  assert (Forall system_fault (faults ex_db_disk)) as Hsys.
  { apply Forall_forall. intros f Hf e He. vm_compute in Hf. repeat
      (apply elem_of_cons in Hf as [->|Hf]; [first [discriminate He|injection He as <-; reflexivity]|]).
    by apply elem_of_nil in Hf. }
  destruct (Handler_outcome "node-1" ex_put ex_db ex_db_disk ex_db_in_use Hsys) as (resp&d'&disk'&H&_&Hw).
  assert ((λ x, x.1) <$> Handler "node-1" ex_put (ex_db, ex_db_disk) =
    Some (mkResponse 200 "" (PResult ex_put_result))) as Hv by (vm_compute; reflexivity).
  rewrite H in Hv. injection Hv as ->. exists (mkResponse 200 "" (PResult ex_put_result)), d', disk'.
  split; [exact H|]. split; [reflexivity|]. split; [reflexivity|]. exact Hw.
Defined.

Lemma http_exactly_once_witness :
  ∃ resp d1 disk1, Handler "node-1" ex_put (ex_db, ex_db_disk) = Some (resp, (d1, disk1)) ∧
    rs_Payload resp = PResult ex_put_result ∧
    Handler "node-1" ex_put (d1, disk1) = Some (resp, (d1, disk1)).
Proof.
  destruct (Handler "node-1" ex_put (ex_db, ex_db_disk)) as [[resp [d1 disk1]]|] eqn:H; [|vm_compute in H; discriminate].
  assert (rs_Payload resp = PResult ex_put_result ∧ closed d1 = false ∧ failed d1 = false) as (Hp&Hc&Hf).
  { vm_compute in H. injection H as <- <- <-. vm_compute. repeat split. }
  assert (read_command (V := standalone_status) "SET" "k" ex_put = inr (mkCommand "a" 1 "SET" "k" "v" "")) as Hr
    by (vm_compute; reflexivity).
  exists resp, d1, disk1. split; [reflexivity|]. split; [exact Hp|].
  apply (http_exactly_once "node-1" ex_put "SET" "k" (mkCommand "a" 1 "SET" "k" "v" "") ex_db ex_db_disk
    ex_put_result resp d1 disk1 [] d1 disk1 ex_db_in_use eq_refl Hr H Hp); try assumption.
  - intros c' Hc'. by apply elem_of_nil in Hc'.
  - reflexivity.
Defined.

End witnesses.
