(* ===== verification/Transport.v ===== *)
(** * Transport: Raft RPCs over HTTP (src/internal/transport/http.go)

    The caller's side, [call], sends one POST and decodes the reply; the
    [Handler] decodes the request, runs the RPC on its node and encodes the
    answer.  What lies between, [http.Client.Do], is an argument of the caller's
    side.  The theorems put the two together: an RPC over a connection that
    delivers is the call of the handler on the other node, and every batch a
    leader prepares passes the size limit of its follower. *)

From Stdlib Require Import Strings.Ascii Strings.String Strings.Byte.
From stdpp Require Import base numbers list gmap strings fin_maps pretty options.
From S2P Require Import Prelude Effects Bytes StateMachine Wal Journal Store Codec Events Node NodeInv.
From S2P Require Import NodeRPC NodeSteps NodeOpen NodeProps NodeExamples Database Urls Http Api.

Local Open Scope N_scope.
#[local] Set Default Proof Using "Type*".

Lemma strlenN_append s t : strlenN (s +:+ t) = strlenN s + strlenN t.
Proof.
  unfold strlenN. assert (String.length (s +:+ t) = (String.length s + String.length t)%nat) as ->; [|lia].
  induction s as [|c s IH]; [done|]. exact (f_equal Datatypes.S IH).
Qed.

(** ** The caller *)

Section caller.
Context {S : Type} `{HU : URLs} (do_http : HttpRequest → M S (error + Reply)).

Definition set_headers (hs : list (string * string)) (req : HttpRequest) : HttpRequest :=
  fold_left (λ req h, set_header h.1 h.2 req) hs req.

Definition call {A B} `{Json A, Json B} (peer : Peer) (path : string) (headers : list (string * string))
    (input : A) : M S (error + B) :=
  match Encode input with
  | inl err => mret (inl err)
  | inr b =>
    match NewRequest "POST" (p_PeerURL peer +:+ path) b with
    | inl err => mret (inl err)
    | inr req =>
      resp ← do_http (set_headers (("Content-Type", "application/json") :: headers) req);
      match resp with
      | inl err => mret (inl err)
      | inr rep =>
        if negb (rp_StatusCode rep =? 200)%Z then mret (inl (ErrNew ("peer returned " +:+ rp_Status rep)))
        else
          match Decode (LimitReader 1048576 (rp_Body rep)) with
          | inl err => mret (inl err)
          | inr (output, _) => mret (inr output)
          end
      end
    end
  end.

Context `{HV : Json VoteRequest, HVR : Json VoteResponse, HA : Json AppendRequest, HAR : Json AppendResponse}.

Definition rpc_headers (from message : string) : list (string * string) :=
  [("X-ShardZero-From", from); ("X-ShardZero-Message", message)].

Definition http_RequestVote (p : Peer) (r : VoteRequest) : M S (error + VoteResponse) :=
  call p "/raft/vote" (rpc_headers (vq_CandidateID r) (vq_MessageID r)) r.

Definition http_AppendEntries (p : Peer) (r : AppendRequest) : M S (error + AppendResponse) :=
  call p "/raft/append" (rpc_headers (aq_LeaderID r) (aq_MessageID r)) r.

End caller.

(** ** The handler *)

Inductive rpc_payload :=
  | RVote (out : VoteResponse)
  | RAppend (out : AppendResponse)
  | RFailed (message : string)     (* an object with the error *)
  | RText (message : string)
  | REmpty.

Section handler.
Context {C J : Type} `{HJ : Journal J, HC : Codec record, HM : ServeMux, HS : JsonStream}.
Context `{HV : Json VoteRequest, HA : Json AppendRequest}.

Definition rpc_decode {A} `{Json A} (r : request C) : response rpc_payload + A :=
  decode_one (mkResponse 400 "" (RText "invalid RPC")) (mkResponse 400 "" (RText "trailing RPC data"))
    (MaxBytesReader 16777216 (r_Body r)).

Definition reply {A} (wrap : A → rpc_payload) (x : A * option error) : response rpc_payload :=
  match x.2 with
  | Some err => mkResponse 503 "" (RFailed (Error err))
  | None => mkResponse 200 "" (wrap x.1)
  end.

Definition serve {A B} `{Json A} (rpc : A → M (Node J) (B * option error)) (wrap : B → rpc_payload)
    (r : request C) : M (Node J) (response rpc_payload) :=
  match rpc_decode r with
  | inl refusal => mret refusal
  | inr req => x ← rpc req; mret (reply wrap x)
  end.

Definition Handler (r : request C) : M (Node J) (response rpc_payload) :=
  if unclean r then mret (mkResponse moved (cleanPath (r_Path r)) REmpty)
  else
    let path := matched_segments (r_Path r) in
    let post := bool_decide (r_Method r = "POST") in
    if bool_decide (path = ["raft"; "vote"]) then
      if post then serve RequestVote RVote r else mret (mkResponse 405 "" REmpty)
    else if bool_decide (path = ["raft"; "append"]) then
      if post then serve AppendEntries RAppend r else mret (mkResponse 405 "" REmpty)
    else mret (mkResponse 404 "" REmpty).

End handler.

(** ** A connection that delivers *)

Section wire.
Context {J : Type} `{HJ : Journal J, HC : Codec record, HM : ServeMux, HS : JsonStream}.
Context `{HV : Json VoteRequest, HVR : Json VoteResponse, HA : Json AppendRequest, HAR : Json AppendResponse}.
Context (encode_error status_line : string → string).

(** What the encoder writes of a payload; what cannot be encoded is not written. *)
Definition payload_bytes (p : rpc_payload) : string :=
  match p with
  | RVote out => match Encode out with inr s => s +:+ newline | inl _ => "" end
  | RAppend out => match Encode out with inr s => s +:+ newline | inl _ => "" end
  | RFailed message => encode_error message +:+ newline
  | RText message => message +:+ newline
  | REmpty => ""
  end.

Definition wire_reply (r : response rpc_payload) : Reply :=
  mkReply (rs_Status r) (status_line (pretty (rs_Status r))) (rs_Location r) (whole (payload_bytes (rs_Payload r))).

Definition header_of (req : HttpRequest) (name : string) : string :=
  default "" (snd <$> List.find (λ h, bool_decide (h.1 = name)) (rq_Header req)).

(** [req], sent to [path] on the server of a node. *)
Definition on_wire (path : string) (req : HttpRequest) : M (Node J) (error + Reply) :=
  r ← Handler (mkRequest tt (rq_Method req) path path "" (header_of req) (whole (rq_Body req)));
  mret (inr (wire_reply r)).

(** What of an RPC's answer reaches the caller. *)
Definition over_http {A} (x : A * option error) : error + A :=
  match x.2 with
  | Some _ => inl (ErrNew ("peer returned " +:+ status_line "503"))
  | None => inr x.1
  end.

Context `{HU : URLs} (do_http : HttpRequest → M (Node J) (error + Reply)) (peer : Peer).

(** The peer's URL is that of the node's server, and the connection holds. *)
Record delivers : Prop := {
  de_url path : path = "/raft/vote" ∨ path = "/raft/append" →
    ∃ u, Parse (p_PeerURL peer +:+ path) = inr u;
  de_do path req n : path = "/raft/vote" ∨ path = "/raft/append" →
    rq_URL req = p_PeerURL peer +:+ path → do_http req n = on_wire path req n;
}.

Lemma set_headers_keeps hs req :
  rq_Method (set_headers hs req) = rq_Method req ∧ rq_URL (set_headers hs req) = rq_URL req ∧
  rq_Body (set_headers hs req) = rq_Body req.
Proof using Type.
  revert req. induction hs as [|h hs IH]; intros req; [done|]. cbn. apply (IH (set_header h.1 h.2 req)).
Qed.

Lemma Handler_vote r : r_Path r = "/raft/vote" → r_Method r = "POST" →
  Handler (C := unit) (J := J) r = serve RequestVote RVote r.
Proof using Type. destruct r as [c m p u a h b]. cbn. by intros -> ->. Qed.

Lemma Handler_append r : r_Path r = "/raft/append" → r_Method r = "POST" →
  Handler (C := unit) (J := J) r = serve AppendEntries RAppend r.
Proof using Type. destruct r as [c m p u a h b]. cbn. by intros -> ->. Qed.

(** The RPC [rpc] with requests in [A] and answers in [B]. *)
Lemma call_spec {A B} `{JA : Json A, JB : Json B} {repA costA repB costB}
    `{LA : !JsonLaws A repA costA, LB : !JsonLaws B repB costB}
    (rpc : A → M (Node J) (B * option error)) (wrap : B → rpc_payload) path headers input n :
  delivers → path = "/raft/vote" ∨ path = "/raft/append" →
  (∀ r, r_Path r = path → r_Method r = "POST" → Handler (C := unit) (J := J) r = serve rpc wrap r) →
  (∀ out, payload_bytes (wrap out) = match Encode out with inr s => s +:+ newline | inl _ => "" end) →
  repA input → costA input ≤ 16777216 →
  (∀ out n', rpc input n = Some ((out, None), n') → repB out ∧ costB out < 1048575) →
  call do_http peer path headers input n =
    match rpc input n with Some (x, n') => Some (over_http x, n') | None => None end.
Proof.
  intros Hd Hpath HH Hpay Ha Hca Hb. unfold call.
  destruct (decode_one_encode (mkResponse 400 "" (RText "invalid RPC"))
    (mkResponse 400 "" (RText "trailing RPC data")) input 16777216 Ha Hca) as (s&Hs&Hdec).
  rewrite Hs. unfold NewRequest. destruct (de_url Hd path Hpath) as [u Hu]. cbn [bool_decide].
  rewrite (bool_decide_eq_false_2 ("POST" = "")) by done. change (valid_method "POST") with true. cbn iota.
  rewrite Hu. set (req := set_headers _ _).
  assert (rq_Method req = "POST" ∧ rq_URL req = p_PeerURL peer +:+ path ∧ rq_Body req = s) as (Hm&Hurl&Hbody)
    by apply (set_headers_keeps _ (mkHttpRequest "POST" (p_PeerURL peer +:+ path) [] s)).
  clearbody req.
  unfold mbind, M_bind. rewrite (de_do Hd path req n Hpath Hurl). unfold on_wire.
  rewrite HH by done. unfold serve, rpc_decode. cbn [r_Body]. rewrite Hbody, Hdec.
  unfold mbind, M_bind. destruct (rpc input n) as [[[out [err|]] n']|] eqn:Hrpc; [done| |done].
  cbn. destruct (Hb out n' eq_refl) as [Hrep Hcost]. rewrite Hpay.
  destruct (encode_decode out Hrep) as (t&Ht&Htc&Htd). rewrite Ht.
  destruct (Htd newline (or_intror eq_refl)) as (rest&Hdec'&_).
  unfold LimitReader. cbn [rd_bytes whole].
  assert (strlenN (t +:+ newline) = strlenN t + 1) as Hlen.
  { unfold newline. by rewrite strlenN_append. }
  rewrite (proj2 (N.leb_gt _ _)) by lia. by rewrite Hdec'.
Qed.

End wire.

(** ** What an answer holds *)

Section answers.
Context {J : Type} `{HJ : Journal J, HC : Codec record}.

Lemma wp_bind_any {S A B} (m : M S A) (f : A → M S B) Q s :
  (∀ a s', wp True (f a) Q s') → wp True (m ≫= f) Q s.
Proof using Type. intros H. apply wp_bind. unfold wp at 1. by destruct (m s) as [[a s']|]. Qed.

Definition numbers (r : AppendResponse * option error) : Prop :=
  ar_MatchIndex r.1 < two64 ∧ ar_ConflictIndex r.1 < two64.

Lemma sub64_lt a b : sub64 a b < two64.
Proof using Type. apply N.mod_lt. discriminate. Qed.

Lemma append_response_numbers err (n : Node J) : wp True (append_response err) (λ r _, numbers r) n.
Proof using Type. apply wp_bind, wp_get, wp_ret. split; [done|apply add64_lt]. Qed.

Lemma conflict_index_lt fuel (n : Node J) prev c r :
  c < two64 → conflict_index fuel n prev c = Some r → r < two64.
Proof using Type.
  revert c. induction fuel as [|fuel IH]; intros c Hc; cbn [conflict_index]; [by intros [= <-]|].
  destruct (_ <? _); [|by intros [= <-]].
  destruct (entryLocked n (sub64 c 1)) as [e|]; [|done]. destruct (entryLocked n prev) as [p|]; [|done].
  cbn [mbind option_bind]. destruct (_ =? _); [|by intros [= <-]]. apply IH, sub64_lt.
Qed.

Lemma append_conflict_numbers c (n : Node J) : c < two64 → wp True (append_conflict c) (λ r _, numbers r) n.
Proof using Type. intros Hc. by apply wp_bind, wp_get, wp_ret. Qed.

Lemma AppendEntries_numbers req (n : Node J) :
  aq_PrevLogIndex req < two64 → wp True (AppendEntries req) (λ r _, numbers r) n.
Proof using Type.
  intros Hp. unfold AppendEntries. apply wp_bind, wp_get.
  destruct (negb _); [apply append_response_numbers|]. destruct (_ || _); [apply append_response_numbers|].
  apply wp_bind_any. intros _ n1. destruct (_ <? _); [apply append_response_numbers|].
  apply wp_bind_any. intros ok n2. destruct (negb ok); [apply append_response_numbers|].
  apply wp_bind_any. intros _ n3. apply wp_bind, wp_get. destruct (_ <? _); [apply append_response_numbers|].
  destruct (_ <? _); [apply append_conflict_numbers, add64_lt|].
  apply wp_bind, wp_lift; [done|]. intros p _. destruct (negb _).
  { apply wp_bind, wp_lift; [done|]. intros c Hc. apply append_conflict_numbers. by eapply conflict_index_lt. }
  unfold append_entries. apply wp_bind, wp_get, wp_bind, wp_lift; [done|]. intros [err|[from es]] _.
  { apply append_response_numbers. }
  cbv zeta. destruct (_ && _); [apply append_response_numbers|].
  assert (∀ n, wp True (n ← get; mret (mkAppendResponse (ds_term (n_state n)) true
    (add64 (aq_PrevLogIndex req) (lenN (aq_Entries req))) 0, None)) (λ r _, numbers r) (n : Node J)) as Hdone.
  { intros n4. apply wp_bind, wp_get, wp_ret. split; [apply add64_lt|done]. }
  destruct (_ || _); [|apply Hdone]. apply wp_bind_any. intros _ n4. apply wp_bind_any. intros ok' n5.
  destruct (negb ok'); [apply append_response_numbers|]. apply wp_bind_any. intros _ n6. apply Hdone.
Qed.

End answers.

(** ** RPCs *)

Definition rep_vote (r : VoteRequest) : Prop :=
  typed_vote r ∧ text (vq_MessageID r) ∧ text (vq_ClusterID r) ∧ text (vq_CandidateID r).
Definition rep_append (r : AppendRequest) : Prop :=
  typed_append r ∧ aq_PrevLogTerm r < two64 ∧
  text (aq_MessageID r) ∧ text (aq_ClusterID r) ∧ text (aq_LeaderID r).
Definition rep_vote_response (r : VoteResponse) : Prop := vr_Term r < two64.
Definition rep_append_response (r : AppendResponse) : Prop :=
  ar_Term r < two64 ∧ ar_MatchIndex r < two64 ∧ ar_ConflictIndex r < two64.

(** Six bytes for a byte of text, and the rest of the object. *)
Definition vote_cost (r : VoteRequest) : N :=
  6 * (strlenN (vq_MessageID r) + strlenN (vq_ClusterID r) + strlenN (vq_CandidateID r)) + 512.
Definition entry_cost (e : Entry) : N :=
  match e_Command e with Some c => 6 * text_bytes c + 512 | None => 256 end.
Definition entries_cost (es : list Entry) : N := foldr (λ e, N.add (entry_cost e)) 0 es.
Definition append_cost (r : AppendRequest) : N :=
  6 * (strlenN (aq_MessageID r) + strlenN (aq_ClusterID r) + strlenN (aq_LeaderID r)) + 512 +
  entries_cost (aq_Entries r).

Section rpcs.
Context {J : Type} `{HJ : Journal J, HJL : !JournalLaws J, HC : Codec record, HCL : !CodecLaws}.
Context `{HM : ServeMux, HS : JsonStream, HU : URLs}.
Context `{HV : Json VoteRequest, HVR : Json VoteResponse, HA : Json AppendRequest, HAR : Json AppendResponse}.
Context `{LV : !JsonLaws VoteRequest rep_vote vote_cost}.
Context `{LVR : !JsonLaws VoteResponse rep_vote_response (λ _, 512)}.
Context `{LA : !JsonLaws AppendRequest rep_append append_cost}.
Context `{LAR : !JsonLaws AppendResponse rep_append_response (λ _, 512)}.
Context (encode_error status_line : string → string).
Context (do_http : HttpRequest → M (Node J) (error + Reply)) (peer : Peer).
Context (HD : delivers encode_error status_line do_http peer).

Lemma http_RequestVote_spec req n :
  quiescent n → rep_vote req → vote_cost req ≤ 16777216 →
  http_RequestVote do_http peer req n =
    match RequestVote req n with Some (x, n') => Some (over_http status_line x, n') | None => None end.
Proof using HJL HCL LV LVR HD.
  intros Hq Hrep Hcost. unfold http_RequestVote.
  apply (call_spec encode_error status_line do_http peer RequestVote RVote); try done; [by left| |].
  - intros r. apply Handler_vote.
  - intros out n' Hr. destruct (RequestVote_run _ _ _ _ _ (proj1 Hq) (proj1 Hrep) Hr) as [Hp Ha].
    split; [|done]. unfold rep_vote_response. rewrite (va_term _ _ _ _ _ Ha).
    apply (Inv0_bounds n'), inv_core, Hp.
Qed.

Lemma http_AppendEntries_spec req n :
  quiescent n → rep_append req → append_cost req ≤ 16777216 →
  http_AppendEntries do_http peer req n =
    match AppendEntries req n with Some (x, n') => Some (over_http status_line x, n') | None => None end.
Proof using HJL HCL LA LAR HD.
  intros Hq Hrep Hcost. unfold http_AppendEntries.
  apply (call_spec encode_error status_line do_http peer AppendEntries RAppend); try done; [by right| |].
  - intros r. apply Handler_append.
  - intros out n' Hr. destruct (AppendEntries_run _ _ _ _ _ (proj1 Hq) (proj1 Hrep) Hr) as [Hp Ha].
    pose proof (AppendEntries_numbers req n (ta_Prev _ (proj1 Hrep))) as Hnum. unfold wp in Hnum.
    rewrite Hr in Hnum. destruct Hnum as [Hm Hc].
    split; [|done]. split; [|done]. rewrite (an_term _ _ _ _ _ Ha).
    apply (Inv0_bounds n'), inv_core, Hp.
Qed.

(** C30. An RPC over a connection that delivers is the call of the method on the
    other node: the caller has the answer of [RequestVote] or [AppendEntries]
    there, or an error when that has one, and the node is in the state the method
    leaves. *)
Theorem rpc_over_http n :
  quiescent n →
  (∀ req, rep_vote req → vote_cost req ≤ 16777216 →
    http_RequestVote do_http peer req n =
      match RequestVote req n with Some (x, n') => Some (over_http status_line x, n') | None => None end) ∧
  (∀ req, rep_append req → append_cost req ≤ 16777216 →
    http_AppendEntries do_http peer req n =
      match AppendEntries req n with Some (x, n') => Some (over_http status_line x, n') | None => None end).
Proof using HJL HCL LV LVR LA LAR HD.
  intros Hq. split; intros req Hr Hc; [by apply http_RequestVote_spec|by apply http_AppendEntries_spec].
Qed.

End rpcs.

(** ** The size of a batch *)

Section batch.
Context {J : Type} `{HJ : Journal J, HC : Codec record}.
Implicit Type n : Node J.

(** What [prepareAppendLocked] counts for an entry. *)
Definition counted (e : Entry) : N :=
  match e_Command e with
  | Some c => 1024 + 6 * (strlenN (c_Key c) + strlenN (c_Value c) + strlenN (c_Expected c) + strlenN (c_ClientID c))
  | None => 1024
  end.
Definition counted_all (es : list Entry) : N := foldr (λ e, N.add (counted e)) 0 es.

Lemma counted_drop k es : counted_all (drop k es) ≤ counted_all es.
Proof using Type.
  revert k. induction es as [|e es IH]; intros k; [by rewrite drop_nil|].
  destruct k; [done|]. cbn. specialize (IH k). unfold counted_all in *. lia.
Qed.

(** The bytes of a valid command are counted: one entry always fits. *)
Lemma counted_valid e : valid_entry e → entry_cost e ≤ counted e ∧ counted e ≤ 12590848.
Proof using Type.
  intros Hv. unfold entry_cost, counted. destruct (e_Command e) as [c|] eqn:Hc; [|lia].
  specialize (Hv c Hc). apply Validate_None in Hv as ((_&_&?)&_&(_&?&_)&[? _]&[? _]&Hop).
  unfold text_bytes, MaxValueBytes in *.
  assert (strlenN (c_Operation c) ≤ 6) by (by destruct Hop as [->|[->| ->]]). lia.
Qed.

(** The batch that begins at [end_] when [bytes] are counted already. *)
Lemma batch_end_counted fuel n next end_ bytes end' es :
  wf_state (n_state n) → last_index (n_state n) + 1 < two64 →
  base_of n ≤ end_ → next ≤ end_ →
  batch_end fuel n next end_ bytes = Some end' →
  lenN es = end' - end_ → (∀ k e, es !! k = Some e → log_at (n_state n) (end_ + N.of_nat k) = Some e) →
  counted_all es = 0 ∨ bytes + counted_all es ≤ 15728640.
Proof using Type.
  intros H0 Hl. revert end_ bytes es. induction fuel as [|fuel IH]; intros end_ bytes es Hb Hn.
  { intros [= <-] Hlen _. destruct es; [by left|]. rewrite lenN_cons in Hlen. lia. }
  cbn [batch_end]. rewrite lastLocked_wf by done.
  assert (∀ es : list Entry, lenN es = end_ - end_ → counted_all es = 0) as Hnone.
  { intros [|e es'] Hlen; [done|]. rewrite lenN_cons in Hlen. lia. }
  destruct (N.leb_spec end_ (last_index (n_state n))) as [Hle|]; cbn [andb];
    [|intros [= <-] Hlen _; left; by apply Hnone].
  destruct (_ <? 32); [|intros [= <-] Hlen _; left; by apply Hnone].
  rewrite entryLocked_wf by (done || lia). destruct (log_at_some _ H0 end_) as [e He]; [done|done|].
  rewrite He. cbn [mbind option_bind]. fold (counted e).
  destruct (N.ltb_spec 15728640 (bytes + counted e)); [intros [= <-] Hlen _; left; by apply Hnone|].
  rewrite add64_small by lia. intros Hend Hlen Hes.
  destruct es as [|e' es]; [by left|]. right.
  assert (e' = e) as ->.
  { specialize (Hes 0%nat e' eq_refl). rewrite N.add_0_r in Hes. congruence. }
  rewrite lenN_cons in Hlen.
  destruct (IH (end_ + 1) (bytes + counted e) es) as [IH'|IH']; [lia|lia|done|lia| | |].
  - intros k x Hx. rewrite <-(Hes (Datatypes.S k) x Hx). f_equal. lia.
  - cbn. unfold counted_all in IH'. lia.
  - cbn. unfold counted_all in IH'. lia.
Qed.

(** The first entry is in the batch. *)
Lemma batch_end_progress fuel n next end' :
  wf_state (n_state n) → last_index (n_state n) + 1 < two64 → base_of n < next →
  next ≤ last_index (n_state n) → batch_end (Datatypes.S fuel) n next next 1024 = Some end' → next < end'.
Proof using Type.
  intros H0 Hl Hb Hle. cbn [batch_end]. rewrite lastLocked_wf by done. rewrite (proj2 (N.leb_le _ _)) by done.
  rewrite sub64_small, N.sub_diag by lia. cbn [andb N.ltb N.compare].
  rewrite entryLocked_wf by (done || lia). destruct (log_at_some _ H0 next) as [e He]; [unfold base_of in *; lia|done|].
  rewrite He. cbn [mbind option_bind]. fold (counted e).
  destruct (log_at_entry _ H0 _ _ He) as (_&_&Hv); [unfold base_of in *; lia|].
  destruct (counted_valid e Hv) as [_ Hc]. rewrite (proj2 (N.ltb_ge _ _)) by lia.
  rewrite add64_small by lia.
  destruct (batch_end_spec fuel n next (next + 1) (1024 + counted e) H0 Hl) as (x&Hx&Hge&_);
    [lia|lia|lia|lia|]. rewrite Hx. intros [= <-]. lia.
Qed.

Lemma counted_bound n (lo hi : N) es :
  wf_state (n_state n) → base_of n ≤ lo → hi ≤ last_index (n_state n) + 1 →
  last_index (n_state n) + 1 < two64 → lo ≤ hi →
  batch_end 33 n lo lo 1024 = Some hi →
  ∀ nx, lo ≤ nx → lenN es = hi - nx → (∀ k e, es !! k = Some e → log_at (n_state n) (nx + N.of_nat k) = Some e) →
  counted_all es ≤ 15727616.
Proof using Type.
  intros H0 Hb Hhi Hl Hlo Hend nx Hnx Hlen Hes.
  destruct (entries_between_spec (N.to_nat (hi - lo)) n lo hi H0) as (full&_&Hfull&Hall); [done..|].
  destruct (N.le_gt_cases hi nx) as [|Hlt].
  { destruct es as [|e es]; [cbn; lia|]. rewrite lenN_cons in Hlen. lia. }
  assert (es = drop (N.to_nat (nx - lo)) full) as ->.
  { apply list_eq_same_length with (length es); [rewrite length_drop; unfold lenN in *; lia|done|].
    intros k x y _ Hx Hy. rewrite lookup_drop in Hy. apply Hes in Hx. apply Hall in Hy.
    replace (lo + N.of_nat (N.to_nat (nx - lo) + k)) with (nx + N.of_nat k) in Hy by lia. congruence. }
  pose proof (counted_drop (N.to_nat (nx - lo)) full).
  destruct (batch_end_counted 33 n lo lo 1024 hi full) as [?|?]; try done; lia.
Qed.

Lemma prepareAppend_batch peer n :
  wf_state (n_state n) →
  wp True (prepareAppendLocked peer) (λ req _, counted_all (aq_Entries req) ≤ 15727616 ∧
    (base_of n < resume n peer → resume n peer ≤ last_index (n_state n) → aq_Entries req ≠ [])) n.
Proof using Type.
  intros H0. destruct (wf_bounds n H0) as (Ht64&Hc64&Hl64&Hbc&Hcl&_).
  pose proof (wf_len _ H0) as Hlen. destruct (resume_bounds n peer) as [Hr1 Hr2]; [lia|].
  unfold prepareAppendLocked. apply wp_bind, wp_get. rewrite lastLocked_wf by done. fold (base_of n).
  destruct (N.le_gt_cases two64 (last_index (n_state n) + 1)) as [Hov|Hov].
  { assert (last_index (n_state n) = two64 - 1) as Hlast by lia. rewrite Hlast.
    change (add64 (two64 - 1) 1) with 0. rewrite N.min_0_r.
    assert (base_of n ≠ 0) as Hb0 by (intros Hb0; pose proof (base_zero_end n H0 Hb0); lia).
    rewrite batch_end_panics by (done || lia). by apply wp_bind, wp_lift. }
  rewrite add64_small by done. fold (resume n peer). set (next := resume n peer) in *.
  destruct (N.lt_ge_cases next (base_of n)) as [Hlow|Hhigh].
  { rewrite batch_end_panics by (done || lia). by apply wp_bind, wp_lift. }
  apply wp_bind, wp_lift; [done|]. intros end' Hend.
  destruct (batch_end_spec 33 n next next 1024 H0) as (x&Hx&Hge&Hle&_);
    [done|lia|lia|lia|rewrite N.sub_diag; lia|]. rewrite Hend in Hx. injection Hx as <-.
  rewrite sub64_small by lia.
  assert (∃ prev nx, (if next - 1 <? base_of n then (base_of n, add64 (base_of n) 1) else (next - 1, next))
    = (prev, nx) ∧ next ≤ nx ∧ (base_of n < next → nx = next)) as (prev&nx&->&Hnn&Hsame).
  { destruct (N.ltb_spec (next - 1) (base_of n)).
    - exists (base_of n), (base_of n + 1). rewrite add64_small by lia. split_and!; [done|lia|lia].
    - exists (next - 1), next. split_and!; [done|lia|lia]. }
  destruct (N.ltb_spec end' nx) as [|Hnx']; [done|].
  destruct (entries_between_spec (N.to_nat (end' - nx)) n nx end' H0) as (es&Hes&Hlen'&Hall);
    [done|done|lia|lia|].
  rewrite Hes. apply wp_bind, wp_lift_some, wp_bind, wp_lift; [done|]. intros p _.
  do 2 (apply wp_bind_any; intros ? ?). apply wp_ret. change (cloneEntries es) with es. cbn [aq_Entries].
  split.
  - by eapply counted_bound.
  - intros Hbn Hrl. rewrite (Hsame Hbn) in Hlen'.
    pose proof (batch_end_progress 32 n next end' H0 Hov Hbn Hrl Hend). intros ->. rewrite lenN_nil in Hlen'. lia.
Qed.

Lemma entries_cost_counted es : Forall valid_entry es → entries_cost es ≤ counted_all es.
Proof using Type.
  induction 1 as [|e es He _ IH]; [done|]. cbn. destruct (counted_valid e He). unfold entries_cost, counted_all in *. lia.
Qed.

Context `{HJL : !JournalLaws J, HCL : !CodecLaws}.

(** C31. Whatever a leader replicates passes: a batch is counted so that its request
    can be represented and is, with names that are not excessive, within the 16
    MiB that the follower's handler reads.  And it makes progress: a batch for a
    peer that lacks an entry the leader still has is not empty. *)
Theorem replication_fits peer n req n' :
  quiescent n → replicate_call peer n = Some (Some req, n') →
  text (aq_MessageID req) → text (aq_ClusterID req) →
  6 * (strlenN (aq_MessageID req) + strlenN (aq_ClusterID req) + strlenN (aq_LeaderID req)) ≤ 1048576 →
  rep_append req ∧ append_cost req ≤ 16777216 ∧
  (base_of n < resume n peer → resume n peer ≤ last_index (n_state n) → aq_Entries req ≠ []).
Proof.
  intros [HI Hcu] Hr Hm Hcl Hids. pose proof (inv_core n HI) as H0. pose proof (Inv0_state n H0) as Hwf.
  pose proof (replicate_call_wp True (λ o _, ∀ req, o = Some req → prepared n peer req ∧ n_role n = leader) peer n
    HI (λ _, I) (λ o n' _ H, H)) as Hp.
  unfold wp in Hp. rewrite Hr in Hp. destruct (Hp req eq_refl) as [P _]. clear Hp.
  assert (counted_all (aq_Entries req) ≤ 15727616 ∧
    (base_of n < resume n peer → resume n peer ≤ last_index (n_state n) → aq_Entries req ≠ [])) as [Hc Hne].
  { pose proof (prepareAppend_batch peer n Hwf) as Hb. revert Hr. unfold replicate_call, mbind, M_bind, get.
    destruct (_ || _); [done|]. unfold wp in Hb. destruct (prepareAppendLocked peer n) as [[r n1]|]; [|done].
    by intros [= -> _]. }
  assert (∀ k e, aq_Entries req !! k = Some e → rep_entry e ∧ valid_entry e) as Hent.
  { intros k e Hk. pose proof (pr_entries _ _ _ P k e Hk) as Hl. split.
    - unfold log_at in Hl. destruct (_ <? _); [done|]. pose proof (wf_rep _ Hwf) as Hrep.
      rewrite Forall_lookup in Hrep. by eapply Hrep.
    - apply (log_at_entry _ Hwf _ _ Hl). rewrite (pr_prev _ _ _ P). unfold base_of. lia. }
  destruct (Inv0_bounds n H0) as (Ht&Hc64&Hl64&Hbc&Hcll&_).
  split; [|split; [|exact Hne]].
  - split; [split|split_and!].
    + by rewrite (pr_term _ _ _ P).
    + destruct (pr_prev_term _ _ _ P) as (p&Hpl&_).
      assert (is_Some (log_at (n_state n) (aq_PrevLogIndex req))) as Hs by done.
      apply log_at_is_Some in Hs. rewrite last_index_end in Hs by done. lia.
    + by rewrite (pr_commit _ _ _ P).
    + split; [pose proof (pr_length _ _ _ P); unfold two63; lia|]. apply Forall_lookup. intros k e Hk. by apply (Hent k).
    + destruct (pr_prev_term _ _ _ P) as (p&Hpl&->). unfold log_at in Hpl. destruct (_ <? _); [done|].
      pose proof (wf_rep _ Hwf) as Hrep. rewrite Forall_lookup in Hrep. by eapply (rep_Term p), Hrep.
    + done.
    + done.
    + rewrite (pr_leader _ _ _ P). by apply text_self.
  - unfold append_cost.
    assert (Forall valid_entry (aq_Entries req)) as Hv by (apply Forall_lookup; intros k e Hk; by apply (Hent k)).
    pose proof (entries_cost_counted _ Hv). lia.
Qed.

End batch.

(** ** Codecs of the RPCs that evaluate *)

Definition flat_json {A} (put : A → bytes) (get : bytes → option (A * bytes)) : Json A := {|
  Encode := λ a, inr (String.string_of_list_byte (put a));
  Decode := λ r,
    match rd_end r with
    | Some err => inl err
    | None =>
      match get (String.list_byte_of_string (rd_bytes r)) with
      | Some (a, _) => inr (a, whole "")
      | None => inl (ErrNew "invalid value")
      end
    end;
|}.

Lemma flat_json_laws {A} put get (rep : A → Prop) cost :
  (∀ a rest, rep a → get (put a ++ rest) = Some (a, rest)) → (∀ a, rep a → lenN (put a) ≤ cost a) →
  @JsonLaws A (flat_json put get) plain_stream rep cost.
Proof.
  intros Hget Hcost. split. intros a Ha. exists (String.string_of_list_byte (put a)). split; [done|]. split.
  { unfold strlenN. rewrite length_string_of_bytes. by apply Hcost. }
  intros t _. exists (whole ""). unfold Decode, flat_json. cbn [rd_end whole rd_bytes].
  by rewrite list_byte_of_string_app, String.list_byte_of_string_of_list_byte, Hget.
Qed.

#[local] Arguments put64 : simpl never.
#[local] Arguments get64 : simpl never.
#[local] Arguments put_text : simpl never.
#[local] Arguments get_text : simpl never.
#[local] Arguments put_command : simpl never.
#[local] Arguments get_command : simpl never.

Definition put_flag (b : bool) : bytes := [if b then x01 else x00].
Definition get_flag (b : bytes) : option (bool * bytes) :=
  match b with
  | x00 :: rest => Some (false, rest)
  | x01 :: rest => Some (true, rest)
  | _ => None
  end.

Lemma get_put_flag f rest : get_flag (put_flag f ++ rest) = Some (f, rest).
Proof. by destruct f. Qed.

#[local] Arguments put_flag : simpl never.
#[local] Arguments get_flag : simpl never.

Definition put_vote (r : VoteRequest) : bytes :=
  put_text (vq_MessageID r) ++ put_text (vq_ClusterID r) ++ put64 (vq_Term r) ++ put_text (vq_CandidateID r) ++
  put64 (vq_LastLogIndex r) ++ put64 (vq_LastLogTerm r).
Definition get_vote (b : bytes) : option (VoteRequest * bytes) :=
  '(message, b) ← get_text b; '(cluster, b) ← get_text b; '(term, b) ← get64 b; '(id, b) ← get_text b;
  '(index, b) ← get64 b; '(lastTerm, b) ← get64 b;
  Some (mkVoteRequest message cluster term id index lastTerm, b).

Definition put_vote_response (r : VoteResponse) : bytes := put64 (vr_Term r) ++ put_flag (vr_Granted r).
Definition get_vote_response (b : bytes) : option (VoteResponse * bytes) :=
  '(term, b) ← get64 b; '(granted, b) ← get_flag b; Some (mkVoteResponse term granted, b).

Definition put_append_response (r : AppendResponse) : bytes :=
  put64 (ar_Term r) ++ put_flag (ar_Success r) ++ put64 (ar_MatchIndex r) ++ put64 (ar_ConflictIndex r).
Definition get_append_response (b : bytes) : option (AppendResponse * bytes) :=
  '(term, b) ← get64 b; '(success, b) ← get_flag b; '(matched, b) ← get64 b; '(conflict, b) ← get64 b;
  Some (mkAppendResponse term success matched conflict, b).

Definition put_entry (e : Entry) : bytes :=
  put64 (e_Index e) ++ put64 (e_Term e) ++
  match e_Command e with None => put_flag false | Some c => put_flag true ++ put_command c end.
Definition get_entry (b : bytes) : option (Entry * bytes) :=
  '(index, b) ← get64 b; '(term, b) ← get64 b; '(some, b) ← get_flag b;
  if (some : bool) then '(c, b) ← get_command b; Some (mkEntry index term (Some c), b)
  else Some (mkEntry index term None, b).

Fixpoint put_entries (es : list Entry) : bytes :=
  match es with
  | [] => put_flag false
  | e :: es => put_flag true ++ put_entry e ++ put_entries es
  end.
Fixpoint get_entries (fuel : nat) (b : bytes) : option (list Entry * bytes) :=
  match fuel with
  | O => None
  | Datatypes.S fuel =>
    '(more, b) ← get_flag b;
    if (more : bool) then '(e, b) ← get_entry b; '(es, b) ← get_entries fuel b; Some (e :: es, b)
    else Some ([], b)
  end.

Definition put_append (r : AppendRequest) : bytes :=
  put_text (aq_MessageID r) ++ put_text (aq_ClusterID r) ++ put64 (aq_Term r) ++ put_text (aq_LeaderID r) ++
  put64 (aq_PrevLogIndex r) ++ put64 (aq_PrevLogTerm r) ++ put_entries (aq_Entries r) ++ put64 (aq_LeaderCommit r).
Definition get_append (b : bytes) : option (AppendRequest * bytes) :=
  '(message, b) ← get_text b; '(cluster, b) ← get_text b; '(term, b) ← get64 b; '(id, b) ← get_text b;
  '(prev, b) ← get64 b; '(prevTerm, b) ← get64 b; '(es, b) ← get_entries (length b) b; '(commit, b) ← get64 b;
  Some (mkAppendRequest message cluster term id prev prevTerm es commit, b).

#[export] Instance flat_vote : Json VoteRequest := flat_json put_vote get_vote.
#[export] Instance flat_vote_response : Json VoteResponse := flat_json put_vote_response get_vote_response.
#[export] Instance flat_append : Json AppendRequest := flat_json put_append get_append.
#[export] Instance flat_append_response : Json AppendResponse := flat_json put_append_response get_append_response.

Lemma length_put64 n : lenN (put64 n) = 8.
Proof. done. Qed.

Lemma length_put_flag f : lenN (put_flag f) = 1.
Proof. done. Qed.

(** Reading back what was written, field by field. *)
Ltac read_back :=
  repeat (rewrite <-?app_assoc;
    first [rewrite get_put_text | rewrite get_put64 by done | rewrite get_put_flag
          | rewrite get_put_command by auto];
    cbn [mbind option_bind]).

Ltac measure :=
  rewrite ?lenN_app, ?length_put_text, ?length_put64, ?length_put_flag, ?length_put_command.

#[export] Instance flat_vote_laws : JsonLaws VoteRequest rep_vote vote_cost.
Proof.
  apply flat_json_laws.
  - intros [m c t i x y] rest [[] _]. cbn in *. unfold put_vote, get_vote. cbn. by read_back.
  - intros r _. unfold put_vote, vote_cost. measure. lia.
Qed.

#[export] Instance flat_vote_response_laws : JsonLaws VoteResponse rep_vote_response (λ _, 512).
Proof.
  apply flat_json_laws.
  - intros [t g] rest Ht. unfold rep_vote_response in Ht. cbn in Ht. unfold put_vote_response, get_vote_response.
    cbn. by read_back.
  - intros r _. unfold put_vote_response. measure. lia.
Qed.

#[export] Instance flat_append_response_laws : JsonLaws AppendResponse rep_append_response (λ _, 512).
Proof.
  apply flat_json_laws.
  - intros [t s m c] rest (?&?&?). cbn in *. unfold put_append_response, get_append_response. cbn. by read_back.
  - intros r _. unfold put_append_response. measure. lia.
Qed.

Lemma get_put_entry e rest : rep_entry e → get_entry (put_entry e ++ rest) = Some (e, rest).
Proof.
  destruct e as [i t [c|]]; intros [Hi Ht Hc]; cbn in *; unfold put_entry, get_entry; cbn.
  - specialize (Hc c eq_refl). by read_back.
  - by read_back.
Qed.

Lemma get_put_entries es fuel rest :
  Forall rep_entry es → (length es < fuel)%nat → get_entries fuel (put_entries es ++ rest) = Some (es, rest).
Proof.
  intros Hes. revert fuel. induction Hes as [|e es He _ IH]; intros fuel Hf; (destruct fuel as [|fuel]; [cbn in Hf; lia|]);
    cbn [put_entries get_entries].
  - by read_back.
  - read_back. rewrite get_put_entry by done. cbn [mbind option_bind]. rewrite IH by (cbn in Hf; lia). done.
Qed.

Lemma length_put_entry e : lenN (put_entry e) + 1 ≤ entry_cost e.
Proof. unfold put_entry, entry_cost. measure. destruct (e_Command e); measure; lia. Qed.

Lemma length_put_entries es : (length es < length (put_entries es))%nat ∧ lenN (put_entries es) ≤ entries_cost es + 1.
Proof.
  induction es as [|e es [IH1 IH2]]; [split; [exact Nat.lt_0_1|apply N.le_refl]|]. cbn [put_entries]. split.
  - rewrite !length_app. change (length (put_flag true)) with 1%nat. cbn. lia.
  - measure. change (entries_cost (e :: es)) with (entry_cost e + entries_cost es).
    pose proof (length_put_entry e). lia.
Qed.

#[export] Instance flat_append_laws : JsonLaws AppendRequest rep_append append_cost.
Proof.
  apply flat_json_laws.
  - intros [m c t i p pt es k] rest [[? ? ? [_ Hes]] [? _]]. cbn in *. unfold put_append, get_append.
    cbn [aq_MessageID aq_ClusterID aq_Term aq_LeaderID aq_PrevLogIndex aq_PrevLogTerm aq_Entries aq_LeaderCommit].
    read_back. rewrite get_put_entries.
    + cbn [mbind option_bind]. by read_back.
    + done.
    + rewrite !length_app. pose proof (proj1 (length_put_entries es)). lia.
  - intros r _. unfold put_append, append_cost. measure. pose proof (proj2 (length_put_entries (aq_Entries r))). lia.
Qed.

(** ** Witnesses *)

Section witnesses.
#[local] Existing Instance ex_urls.
#[local] Instance ex_mux : ServeMux := { moved := 301%Z }.

(** A network on which node [b] is reached at its peer URL. *)
Definition ex_do (req : HttpRequest) : M (Node memoryDisk) (error + Reply) :=
  if bool_decide (rq_URL req = "http://peer-b/raft/vote") then on_wire id id "/raft/vote" req
  else if bool_decide (rq_URL req = "http://peer-b/raft/append") then on_wire id id "/raft/append" req
  else mret (inl (ErrNew "no route")).

Lemma ex_delivers : delivers id id ex_do (ex_peer "b").
Proof.
  split; [intros path [->| ->]; by eexists|]. intros path req n [->| ->] H; unfold ex_do; by rewrite H.
Qed.

Lemma rpc_over_http_witness :
  delivers id id ex_do (ex_peer "b") ∧ quiescent ex_b ∧ rep_vote ex_vote ∧ vote_cost ex_vote ≤ 16777216 ∧
  http_RequestVote ex_do (ex_peer "b") ex_vote ex_b =
    match RequestVote ex_vote ex_b with Some (x, n') => Some (over_http id x, n') | None => None end.
Proof.
  assert (rep_vote ex_vote) as Hrep by done.
  assert (vote_cost ex_vote ≤ 16777216) as Hcost by (vm_compute; discriminate).
  refine (conj ex_delivers (conj ex_b_quiescent (conj Hrep (conj Hcost _)))).
  exact (proj1 (rpc_over_http id id ex_do (ex_peer "b") ex_delivers ex_b ex_b_quiescent) ex_vote Hrep Hcost).
Defined.

(** The request by which [b] catches up with the leader of the example. *)
Definition ex_sent : option (option AppendRequest * Node memoryDisk) := replicate_call (ex_peer "b") ex_leader.

Definition ex_sentb : bool :=
  match ex_sent with
  | Some (Some req, _) =>
    ValidString (aq_MessageID req) && ValidString (aq_ClusterID req) &&
    (6 * (strlenN (aq_MessageID req) + strlenN (aq_ClusterID req) + strlenN (aq_LeaderID req)) <=? 1048576)
  | _ => false
  end.

Lemma ex_sends : ex_sentb = true →
  ∃ req n', ex_sent = Some (Some req, n') ∧ text (aq_MessageID req) ∧ text (aq_ClusterID req) ∧
    6 * (strlenN (aq_MessageID req) + strlenN (aq_ClusterID req) + strlenN (aq_LeaderID req)) ≤ 1048576.
Proof.
  unfold ex_sentb. destruct ex_sent as [[[req|] n']|]; try done. intros H. tests. by exists req, n'.
Qed.

Lemma replication_fits_witness :
  ∃ req n', replicate_call (ex_peer "b") ex_leader = Some (Some req, n') ∧ rep_append req ∧
    append_cost req ≤ 16777216.
Proof.
  destruct ex_sends as (req&n'&Hr&Ht&Hc&Hs); [vm_cast_no_check (@eq_refl bool true)|].
  destruct (replication_fits (ex_peer "b") ex_leader req n' ex_leader_quiescent Hr Ht Hc Hs) as (H1&H2&_).
  exact (ex_intro _ req (ex_intro _ n' (conj Hr (conj H1 H2)))).
Defined.

End witnesses.
