(* ===== verification/Lab.v ===== *)
(** * Lab: the local control plane (src/internal/lab/)

    The manager owns the node processes and the peer proxies of a demonstration
    cluster.  Its state is the [Manager]; every section under its mutex is one
    computation on it, and what the operating system, the clock and the network
    answer in between is an argument.  The waiting goroutine of a process is the
    entry of its command in [mg_waiting]: [Start] adds it, and [exited] is what it
    does when the process has ended.  Latencies are microseconds, where the
    source has floating-point milliseconds. *)

From Stdlib Require Import Strings.Ascii Strings.String.
From stdpp Require Import base numbers list gmap strings fin_maps pretty sorting options.
From S2P Require Import Prelude Effects StateMachine Events Node Urls Http Client.

Local Open Scope Z_scope.
#[local] Set Default Proof Using "Type*".

(** ** Data *)

Record LabConfig := mkLabConfig {
  lc_Nodes : Z;
  lc_BasePort : Z;
  lc_DataDir : string;
  lc_NodeBinary : string;
}.

(** A command that was started is named by the order of the starts. *)
Record Member := mkMember {
  mb_ID : string;
  mb_ClientURL : string;
  mb_PeerAddress : string;
  mb_AdminURL : string;
  mb_ProxyAddress : string;
  mb_cmd : option nat;
  mb_running : bool;
}.

Record Inspection := mkInspection {
  in_Status : Status;
  in_BootID : string;
  in_StateHash : string;
  in_Log : list LogMeta;
  in_Events : list Event;
}.

Record NodeView := mkNodeView {
  nv_Inspection : Inspection;
  nv_ID : string;
  nv_Online : bool;
  nv_Running : bool;
  nv_SeenAt : Z;
}.

Record FaultState := mkFaultState { fs_Isolated : list string; fs_DelayMS : Z; fs_DropPercent : Z }.

Record Metrics := mkMetrics {
  me_Requests : Z;
  me_Succeeded : Z;
  me_Conflicts : Z;
  me_Failed : Z;
  me_P50 : Z;           (* microseconds *)
  me_P95 : Z;
  me_RateTenths : Z;    (* the rate times ten *)
  me_Workload : bool;
}.

Record ReplicaObservation := mkReplica {
  ro_ID : string;
  ro_Online : bool;
  ro_Healthy : bool;
  ro_Applied : N;
  ro_Hash : string;
}.

Record Observation := mkObservation {
  ob_Time : Z;
  ob_Matched : bool;
  ob_Replicas : list ReplicaObservation;
}.

Record LabSnapshot := mkLabSnapshot {
  ls_Time : Z;
  ls_Nodes : list NodeView;
  ls_Faults : FaultState;
  ls_Events : list Event;
  ls_Timeline : list Event;
  ls_Metrics : Metrics;
  ls_Converged : bool;
  ls_Consistency : string;
  ls_EventGaps : Z;
  ls_BeforeFault : option Observation;
  ls_Observed : Observation;
}.

Record sample := mkSample { sa_time : Z; sa_us : Z }.

Record Manager := mkManager {
  mg_cfg : LabConfig;
  mg_members : list Member;
  mg_views : gmap string NodeView;
  mg_closing : bool;
  mg_configPath : string;
  mg_token : string;
  mg_events : Buffer;
  mg_timeline : Buffer;
  mg_isolated : gset string;
  mg_delayMS : Z;
  mg_drop : Z;
  mg_packet : N;
  mg_metrics : Metrics;
  mg_samples : list sample;
  mg_workCancel : option nat;          (* the workload that runs *)
  mg_works : gmap nat (string * N);    (* the goroutines: client and next request *)
  mg_beforeFault : option Observation;
  mg_eventGaps : Z;
  mg_waiting : gmap nat string;        (* the goroutines that wait for a command: its member *)
  mg_killed : gset nat;
  mg_commands : nat;
  mg_workloads : nat;
  mg_files : gmap string string;       (* what it has written to the file system *)
}.

Definition zeroStatus : Status := mkStatus "" "" "" 0 "" "" 0 0 0 0 0 0 false false [].
Definition zeroInspection : Inspection := mkInspection zeroStatus "" "" [] [].
Definition zeroView : NodeView := mkNodeView zeroInspection "" false false 0.
Definition zeroMetrics : Metrics := mkMetrics 0 0 0 0 0 0 0 false.

(** Assignments to the fields. *)
Definition ms_members (x : list Member) (m : Manager) : Manager :=
  mkManager (mg_cfg m) x (mg_views m) (mg_closing m) (mg_configPath m) (mg_token m) (mg_events m)
    (mg_timeline m) (mg_isolated m) (mg_delayMS m) (mg_drop m) (mg_packet m) (mg_metrics m)
    (mg_samples m) (mg_workCancel m) (mg_works m) (mg_beforeFault m) (mg_eventGaps m) (mg_waiting m)
    (mg_killed m) (mg_commands m) (mg_workloads m) (mg_files m).
Definition ms_views (x : gmap string NodeView) (m : Manager) : Manager :=
  mkManager (mg_cfg m) (mg_members m) x (mg_closing m) (mg_configPath m) (mg_token m) (mg_events m)
    (mg_timeline m) (mg_isolated m) (mg_delayMS m) (mg_drop m) (mg_packet m) (mg_metrics m)
    (mg_samples m) (mg_workCancel m) (mg_works m) (mg_beforeFault m) (mg_eventGaps m) (mg_waiting m)
    (mg_killed m) (mg_commands m) (mg_workloads m) (mg_files m).
Definition ms_closing (x : bool) (m : Manager) : Manager :=
  mkManager (mg_cfg m) (mg_members m) (mg_views m) x (mg_configPath m) (mg_token m) (mg_events m)
    (mg_timeline m) (mg_isolated m) (mg_delayMS m) (mg_drop m) (mg_packet m) (mg_metrics m)
    (mg_samples m) (mg_workCancel m) (mg_works m) (mg_beforeFault m) (mg_eventGaps m) (mg_waiting m)
    (mg_killed m) (mg_commands m) (mg_workloads m) (mg_files m).
Definition ms_events (x : Buffer) (m : Manager) : Manager :=
  mkManager (mg_cfg m) (mg_members m) (mg_views m) (mg_closing m) (mg_configPath m) (mg_token m) x
    (mg_timeline m) (mg_isolated m) (mg_delayMS m) (mg_drop m) (mg_packet m) (mg_metrics m)
    (mg_samples m) (mg_workCancel m) (mg_works m) (mg_beforeFault m) (mg_eventGaps m) (mg_waiting m)
    (mg_killed m) (mg_commands m) (mg_workloads m) (mg_files m).
Definition ms_timeline (x : Buffer) (m : Manager) : Manager :=
  mkManager (mg_cfg m) (mg_members m) (mg_views m) (mg_closing m) (mg_configPath m) (mg_token m)
    (mg_events m) x (mg_isolated m) (mg_delayMS m) (mg_drop m) (mg_packet m) (mg_metrics m)
    (mg_samples m) (mg_workCancel m) (mg_works m) (mg_beforeFault m) (mg_eventGaps m) (mg_waiting m)
    (mg_killed m) (mg_commands m) (mg_workloads m) (mg_files m).
Definition ms_packet (x : N) (m : Manager) : Manager :=
  mkManager (mg_cfg m) (mg_members m) (mg_views m) (mg_closing m) (mg_configPath m) (mg_token m)
    (mg_events m) (mg_timeline m) (mg_isolated m) (mg_delayMS m) (mg_drop m) x (mg_metrics m)
    (mg_samples m) (mg_workCancel m) (mg_works m) (mg_beforeFault m) (mg_eventGaps m) (mg_waiting m)
    (mg_killed m) (mg_commands m) (mg_workloads m) (mg_files m).
Definition ms_metrics (x : Metrics) (m : Manager) : Manager :=
  mkManager (mg_cfg m) (mg_members m) (mg_views m) (mg_closing m) (mg_configPath m) (mg_token m)
    (mg_events m) (mg_timeline m) (mg_isolated m) (mg_delayMS m) (mg_drop m) (mg_packet m) x
    (mg_samples m) (mg_workCancel m) (mg_works m) (mg_beforeFault m) (mg_eventGaps m) (mg_waiting m)
    (mg_killed m) (mg_commands m) (mg_workloads m) (mg_files m).
Definition ms_samples (x : list sample) (m : Manager) : Manager :=
  mkManager (mg_cfg m) (mg_members m) (mg_views m) (mg_closing m) (mg_configPath m) (mg_token m)
    (mg_events m) (mg_timeline m) (mg_isolated m) (mg_delayMS m) (mg_drop m) (mg_packet m)
    (mg_metrics m) x (mg_workCancel m) (mg_works m) (mg_beforeFault m) (mg_eventGaps m) (mg_waiting
    m) (mg_killed m) (mg_commands m) (mg_workloads m) (mg_files m).
Definition ms_workCancel (x : option nat) (m : Manager) : Manager :=
  mkManager (mg_cfg m) (mg_members m) (mg_views m) (mg_closing m) (mg_configPath m) (mg_token m)
    (mg_events m) (mg_timeline m) (mg_isolated m) (mg_delayMS m) (mg_drop m) (mg_packet m)
    (mg_metrics m) (mg_samples m) x (mg_works m) (mg_beforeFault m) (mg_eventGaps m) (mg_waiting m)
    (mg_killed m) (mg_commands m) (mg_workloads m) (mg_files m).
Definition ms_works (x : gmap nat (string * N)) (m : Manager) : Manager :=
  mkManager (mg_cfg m) (mg_members m) (mg_views m) (mg_closing m) (mg_configPath m) (mg_token m)
    (mg_events m) (mg_timeline m) (mg_isolated m) (mg_delayMS m) (mg_drop m) (mg_packet m)
    (mg_metrics m) (mg_samples m) (mg_workCancel m) x (mg_beforeFault m) (mg_eventGaps m)
    (mg_waiting m) (mg_killed m) (mg_commands m) (mg_workloads m) (mg_files m).
Definition ms_beforeFault (x : option Observation) (m : Manager) : Manager :=
  mkManager (mg_cfg m) (mg_members m) (mg_views m) (mg_closing m) (mg_configPath m) (mg_token m)
    (mg_events m) (mg_timeline m) (mg_isolated m) (mg_delayMS m) (mg_drop m) (mg_packet m)
    (mg_metrics m) (mg_samples m) (mg_workCancel m) (mg_works m) x (mg_eventGaps m) (mg_waiting m)
    (mg_killed m) (mg_commands m) (mg_workloads m) (mg_files m).
Definition ms_eventGaps (x : Z) (m : Manager) : Manager :=
  mkManager (mg_cfg m) (mg_members m) (mg_views m) (mg_closing m) (mg_configPath m) (mg_token m)
    (mg_events m) (mg_timeline m) (mg_isolated m) (mg_delayMS m) (mg_drop m) (mg_packet m)
    (mg_metrics m) (mg_samples m) (mg_workCancel m) (mg_works m) (mg_beforeFault m) x (mg_waiting m)
    (mg_killed m) (mg_commands m) (mg_workloads m) (mg_files m).
Definition ms_waiting (x : gmap nat string) (m : Manager) : Manager :=
  mkManager (mg_cfg m) (mg_members m) (mg_views m) (mg_closing m) (mg_configPath m) (mg_token m)
    (mg_events m) (mg_timeline m) (mg_isolated m) (mg_delayMS m) (mg_drop m) (mg_packet m)
    (mg_metrics m) (mg_samples m) (mg_workCancel m) (mg_works m) (mg_beforeFault m) (mg_eventGaps m)
    x (mg_killed m) (mg_commands m) (mg_workloads m) (mg_files m).
Definition ms_killed (x : gset nat) (m : Manager) : Manager :=
  mkManager (mg_cfg m) (mg_members m) (mg_views m) (mg_closing m) (mg_configPath m) (mg_token m)
    (mg_events m) (mg_timeline m) (mg_isolated m) (mg_delayMS m) (mg_drop m) (mg_packet m)
    (mg_metrics m) (mg_samples m) (mg_workCancel m) (mg_works m) (mg_beforeFault m) (mg_eventGaps m)
    (mg_waiting m) x (mg_commands m) (mg_workloads m) (mg_files m).
Definition ms_commands (x : nat) (m : Manager) : Manager :=
  mkManager (mg_cfg m) (mg_members m) (mg_views m) (mg_closing m) (mg_configPath m) (mg_token m)
    (mg_events m) (mg_timeline m) (mg_isolated m) (mg_delayMS m) (mg_drop m) (mg_packet m)
    (mg_metrics m) (mg_samples m) (mg_workCancel m) (mg_works m) (mg_beforeFault m) (mg_eventGaps m)
    (mg_waiting m) (mg_killed m) x (mg_workloads m) (mg_files m).
Definition ms_workloads (x : nat) (m : Manager) : Manager :=
  mkManager (mg_cfg m) (mg_members m) (mg_views m) (mg_closing m) (mg_configPath m) (mg_token m)
    (mg_events m) (mg_timeline m) (mg_isolated m) (mg_delayMS m) (mg_drop m) (mg_packet m)
    (mg_metrics m) (mg_samples m) (mg_workCancel m) (mg_works m) (mg_beforeFault m) (mg_eventGaps m)
    (mg_waiting m) (mg_killed m) (mg_commands m) x (mg_files m).
Definition ms_files (x : gmap string string) (m : Manager) : Manager :=
  mkManager (mg_cfg m) (mg_members m) (mg_views m) (mg_closing m) (mg_configPath m) (mg_token m)
    (mg_events m) (mg_timeline m) (mg_isolated m) (mg_delayMS m) (mg_drop m) (mg_packet m)
    (mg_metrics m) (mg_samples m) (mg_workCancel m) (mg_works m) (mg_beforeFault m) (mg_eventGaps m)
    (mg_waiting m) (mg_killed m) (mg_commands m) (mg_workloads m) x.
Definition ms_faults (isolated : gset string) (delay drop : Z) (m : Manager) : Manager :=
  mkManager (mg_cfg m) (mg_members m) (mg_views m) (mg_closing m) (mg_configPath m) (mg_token m)
    (mg_events m) (mg_timeline m) isolated delay drop (mg_packet m) (mg_metrics m) (mg_samples m)
    (mg_workCancel m) (mg_works m) (mg_beforeFault m) (mg_eventGaps m) (mg_waiting m) (mg_killed m)
    (mg_commands m) (mg_workloads m) (mg_files m).

Local Notation L := (M Manager).

(** ** Reading *)

Definition find_member (id : string) (m : Manager) : option Member :=
  List.find (λ n, bool_decide (mb_ID n = id)) (mg_members m).

Definition view_of (m : Manager) (id : string) : NodeView := default zeroView (mg_views m !! id).

Definition replica_of (m : Manager) (n : Member) : ReplicaObservation :=
  let v := view_of m (mb_ID n) in
  mkReplica (mb_ID n) (nv_Online v) (sx_Healthy (in_Status (nv_Inspection v)))
    (sx_LastApplied (in_Status (nv_Inspection v))) (in_StateHash (nv_Inspection v)).

Definition replica_matches (first r : ReplicaObservation) : bool :=
  ro_Online r && ro_Healthy r && (ro_Applied r =? ro_Applied first)%N && bool_decide (ro_Hash r = ro_Hash first).

(** The loop of [observationLocked]: the first replica is appended before it is
    compared with itself. *)
Fixpoint observe (m : Manager) (ns : list Member) (o : Observation) : Observation :=
  match ns with
  | [] => o
  | n :: ns =>
    let r := replica_of m n in
    let replicas := ob_Replicas o ++ [r] in
    let first := match replicas with [] => r | first :: _ => first end in
    observe m ns (mkObservation (ob_Time o) (ob_Matched o && replica_matches first r) replicas)
  end.

Definition observationLocked (now : Z) (m : Manager) : Observation :=
  observe m (mg_members m) (mkObservation now true []).

(** ** Events *)

Definition on_timeline (kind : string) : bool :=
  existsb (λ k, bool_decide (kind = k))
    ["PROCESS_STARTED"; "PROCESS_EXITED"; "NETWORK_CHANGED"; "PAUSED"; "RESUMED"; "DISK_ERROR";
     "ELECTION_STARTED"; "LEADER_ELECTED"; "STEPPED_DOWN"; "VOTE_GRANTED"; "LOG_REPAIRED"].

Definition publish (e : Event) : L unit :=
  modify (λ m, ms_events (Publish e (mg_events m)) m) ;;
  when (on_timeline (ev_Type e)) (modify (λ m, ms_timeline (Publish e (mg_timeline m)) m)).

Definition lab_event (now : Z) (id kind detail : string) : Event :=
  mkEvent 0 now id kind 0 0 "" "" detail.

(** ** Processes *)

(** The assignments to the fields of the member with an id. *)
Definition update_member (id : string) (f : Member → Member) : L unit :=
  modify (λ m, ms_members (map (λ n, if bool_decide (mb_ID n = id) then f n else n) (mg_members m)) m).

Definition set_process (cmd : option nat) (running : bool) (n : Member) : Member :=
  mkMember (mb_ID n) (mb_ClientURL n) (mb_PeerAddress n) (mb_AdminURL n) (mb_ProxyAddress n) cmd running.

(** [url[len("http://"):]] *)
Definition without_scheme (url : string) : string := String.substring 7 (String.length url - 7) url.

Definition node_arguments (m : Manager) (n : Member) : list string :=
  ["--id=" +:+ mb_ID n; "--cluster=" +:+ mg_configPath m; "--listen=" +:+ without_scheme (mb_ClientURL n);
   "--peer-listen=" +:+ mb_PeerAddress n; "--admin-listen=" +:+ without_scheme (mb_AdminURL n);
   "--data=" +:+ Join [lc_DataDir (mg_cfg m); mb_ID n]].

(** What the system answers to a start: to opening the log, to starting the
    binary with its arguments and the token (the process id), and the time. *)
Record start_answer := mkStartAnswer {
  sa_open : option error;
  sa_start : string → list string → string → error + Z;
  sa_now : Z;
}.

Definition Start (a : start_answer) (id : string) : L (option error) :=
  m ← get;
  if mg_closing m then mret (Some (ErrNew "lab closed"))
  else
  match find_member id m with
  | None => mret (Some (ErrNew "unknown node"))
  | Some member =>
    if mb_running member then mret None
    else
    match sa_open a with
    | Some err => mret (Some err)
    | None =>
      match sa_start a (lc_NodeBinary (mg_cfg m)) (node_arguments m member) (mg_token m) with
      | inl err => mret (Some err)
      | inr pid =>
        let cmd := mg_commands m in
        modify (ms_commands (S cmd)) ;;
        update_member id (set_process (Some cmd) true) ;;
        publish (lab_event (sa_now a) id "PROCESS_STARTED" ("PID " +:+ pretty pid)) ;;
        modify (λ m, ms_waiting (<[cmd := id]> (mg_waiting m)) m) ;;
        mret None
      end
    end
  end.

(** The goroutine of a command, when its process has ended: the section that
    notes it, and the event, which it publishes after it has left the section. *)
Definition exited (cmd : nat) : L unit :=
  m ← get;
  match mg_waiting m !! cmd with
  | None => mret tt
  | Some id =>
    modify (λ m, ms_waiting (delete cmd (mg_waiting m)) m) ;;
    update_member id (λ n, if bool_decide (mb_cmd n = Some cmd) then set_process (mb_cmd n) false n else n)
  end.

Definition report_exit (now : Z) (id : string) (err : option error) : L unit :=
  publish (lab_event now id "PROCESS_EXITED" (match err with Some e => Error e | None => "stopped" end)).

(** [Process.Kill], with the system's answer. *)
Definition kill (answer : nat → option error) (cmd : option nat) : L (option error) :=
  match cmd with
  | None => panic
  | Some cmd => modify (λ m, ms_killed ({[cmd]} ∪ mg_killed m) m) ;; mret (answer cmd)
  end.

Definition before_fault (now : Z) : L unit :=
  modify (λ m, ms_beforeFault (Some (observationLocked now m)) m).

Definition Crash (now : Z) (answer : nat → option error) (id : string) : L (option error) :=
  m ← get;
  match find_member id m with
  | None => mret (Some (ErrNew "unknown node"))
  | Some member =>
    if negb (mb_running member) then mret None
    else before_fault now ;; kill answer (mb_cmd member)
  end.

(** The request to a node's admin listener; the reply is its status. *)
Definition Pause `{URLs} (now : Z) (do_http : HttpRequest → L (error + Z)) (id : string) (paused : bool) :
    L (option error) :=
  m ← get;
  let member := find_member id m in
  when (paused && bool_decide (is_Some member)) (before_fault now) ;;
  match member with
  | None => mret (Some (ErrNew "unknown node"))
  | Some member =>
    let action := if paused then "pause" else "resume" in
    match NewRequest "POST" (mb_AdminURL member +:+ "/admin/" +:+ action) "" with
    | inl err => mret (Some err)
    | inr req =>
      resp ← do_http (set_header "X-ShardZero-Admin" (mg_token m) req);
      match resp with
      | inl err => mret (Some err)
      | inr status => mret (if status =? 200 then None else Some (ErrNew ("admin returned " +:+ pretty status)))
      end
    end
  end.

(** The loop over the ids to isolate. *)
Fixpoint check_isolated (m : Manager) (ids : list string) (blocked : gset string) : error + gset string :=
  match ids with
  | [] => inr blocked
  | id :: ids =>
    if find_member id m then check_isolated m ids ({[id]} ∪ blocked) else inl (ErrNew "unknown node")
  end.

(** [%v] of a slice of strings. *)
Definition format_strings (l : list string) : string :=
  "[" +:+ String.concat " " l +:+ "]".

Definition SetFaults (now : Z) (isolated : list string) (delay drop : Z) : L (option error) :=
  m ← get;
  if (delay <? 0) || (2000 <? delay) || (drop <? 0) || (100 <? drop)
  then mret (Some (ErrNew "invalid delay/drop range"))
  else
    match check_isolated m isolated ∅ with
    | inl err => mret (Some err)
    | inr blocked =>
      when (bool_decide (blocked ≠ ∅) || (0 <? delay) || (0 <? drop)) (before_fault now) ;;
      modify (ms_faults blocked delay drop) ;;
      publish (lab_event now "" "NETWORK_CHANGED"
        ("isolated=" +:+ format_strings isolated +:+ " delay=" +:+ pretty delay +:+ "ms drop=" +:+
         pretty drop +:+ "%")) ;;
      mret None
    end.

(** [Close], up to the wait for the goroutines. *)
Definition Close (answer : nat → option error) : L unit :=
  m ← get;
  if mg_closing m then mret tt
  else
    modify (ms_closing true) ;;
    for_each (λ n, if mb_running n then kill answer (mb_cmd n) ;; mret tt else mret tt) (mg_members m).

(** ** Observing the nodes *)

Definition set_view (id : string) (v : NodeView) : L unit :=
  modify (λ m, ms_views (<[id := v]> (mg_views m)) m).

Definition last_id (es : list Event) : N :=
  match list.last es with Some e => ev_ID e | None => 0%N end.

(** What one goroutine of [poll] does with its node's answer: the inspection, if
    the request succeeded with status 200 and decoded. *)
Definition poll_member (now : Z) (id : string) (answer : option Inspection) : L unit :=
  m ← get;
  let prior := view_of m id in
  let running := match find_member id m with Some n => mb_running n | None => false end in
  match answer with
  | None => set_view id (mkNodeView (nv_Inspection prior) id false running (nv_SeenAt prior))
  | Some inspect =>
    let old := nv_Inspection prior in
    let last :=
      if bool_decide (in_BootID old = in_BootID inspect) && bool_decide (in_Events old ≠ [])
      then last_id (in_Events old) else 0%N in
    let first := match in_Events inspect with e :: _ => ev_ID e | [] => 0%N end in
    when (bool_decide (in_Events inspect ≠ []) && (0 <? last)%N && (add64 last 1 <? first)%N)
      (modify (λ m, ms_eventGaps (mg_eventGaps m + 1) m)) ;;
    for_each (λ e, when (last <? ev_ID e)%N (publish e)) (in_Events inspect) ;;
    set_view id (mkNodeView inspect id true running now)
  end.

(** The node's answer to the request for its inspection: online is a node that
    answers with status 200 and a body that decodes. *)
Definition inspected (decode : reader → error + Inspection) (answer : error + Reply) : option Inspection :=
  match answer with
  | inl _ => None
  | inr resp =>
    if rp_StatusCode resp =? 200 then
      match decode (rp_Body resp) with inl _ => None | inr inspect => Some inspect end
    else None
  end.

(** One round: a goroutine per member, which end in any order. *)
Definition poll (decode : reader → error + Inspection) (now : string → Z) (answers : string → error + Reply)
    (order : list Member) : L unit :=
  for_each (λ n, poll_member (now (mb_ID n)) (mb_ID n) (inspected decode (answers (mb_ID n)))) order.

(** ** [Snapshot] *)

(** The view that is shown of a member: with its process, without its events. *)
Definition shown_view (m : Manager) (n : Member) : NodeView :=
  let v := view_of m (mb_ID n) in
  let i := nv_Inspection v in
  mkNodeView (mkInspection (in_Status i) (in_BootID i) (in_StateHash i) (in_Log i) []) (mb_ID n)
    (nv_Online v) (mb_running n) (nv_SeenAt v).

Definition view_applied (v : NodeView) : N := sx_LastApplied (in_Status (nv_Inspection v)).
Definition view_healthy (v : NodeView) : bool := sx_Healthy (in_Status (nv_Inspection v)).
Definition view_hash (v : NodeView) : string := in_StateHash (nv_Inspection v).

(** The loop over the members, from index [i] on. *)
Fixpoint converge (vs : list NodeView) (i : nat) (digest : string) (applied : N) (converged : bool) : bool :=
  match vs with
  | [] => converged
  | v :: vs =>
    let converged := if negb (nv_Online v) || negb (view_healthy v) then false else converged in
    match i with
    | O => converge vs 1 (view_hash v) (view_applied v) converged
    | S _ =>
      converge vs (S i) digest applied
        (if bool_decide (view_hash v ≠ digest) || negb (view_applied v =? applied)%N then false else converged)
    end
  end.

Definition window : Z := 10 * 1000000000.

(** [latencies[(len(latencies)-1)*p/100]] of the sorted latencies. *)
Definition percentile (p : nat) (sorted : list Z) : option Z :=
  sorted !! (((length sorted - 1) * p) / 100)%nat.

(** The two percentiles, which stay what they were while there are no samples. *)
Definition latency_percentiles (me : Metrics) (samples : list sample) : option (Z * Z) :=
  let latencies := merge_sort Z.le (sa_us <$> samples) in
  if bool_decide (latencies = []) then Some (me_P50 me, me_P95 me)
  else
    match latencies !! ((length latencies - 1) / 2)%nat, percentile 95 latencies with
    | Some p50, Some p95 => Some (p50, p95)
    | _, _ => None
    end.

Definition Snapshot (now : Z) : L LabSnapshot :=
  m ← get;
  let nodes := shown_view m <$> mg_members m in
  let converged := converge nodes 0 "" 0%N true in
  let count := length (filter (λ s, now - sa_time s < window) (mg_samples m)) in
  let me := mg_metrics m in
  percentiles ← lift (latency_percentiles me (mg_samples m));
  mret (mkLabSnapshot now nodes
    (mkFaultState (merge_sort String.le (elements (mg_isolated m))) (mg_delayMS m) (mg_drop m))
    (After 0 (mg_events m)) (After 0 (mg_timeline m))
    (mkMetrics (me_Requests me) (me_Succeeded me) (me_Conflicts me) (me_Failed me)
       percentiles.1 percentiles.2 (Z.of_nat count) (me_Workload me))
    converged
    (if (converged : bool) then "All observed replicas have the same applied index and state hash"
     else "Waiting for all replicas to reach the same applied state")
    (mg_eventGaps m) (mg_beforeFault m) (observationLocked now m)).

(** ** Commands *)

Record CommandRequest := mkCommandRequest {
  cr_Operation : string;
  cr_Key : string;
  cr_Value : string;
  cr_Expected : string;
  cr_ClientID : string;
  cr_RequestID : N;
}.

Record CommandResponse := mkCommandResponse {
  cs_Status : Z;
  cs_Body : string;
  cs_LatencyUS : Z;
  cs_Server : string;
}.

Definition zeroCommandResponse : CommandResponse := mkCommandResponse 0 "" 0 "".

(** The fields of a write's body: [encoding/json] writes a map with these keys. *)
Record write_body := mkWriteBody {
  wb_clientId : string;
  wb_requestId : N;
  wb_value : option string;
  wb_expected : option string;
}.

(** [strings.ToUpper], on ASCII and the two letters that become ASCII.  What the
    others become is not ASCII, so that the operation is unknown as it stands. *)
Definition upper (c : ascii) : ascii :=
  if ascii_between "a" "z" c then ascii_of_nat (nat_of_ascii c - 32) else c.

Definition two_bytes (a b : nat) (c d : ascii) : bool := (nat_of_ascii c =? a)%nat && (nat_of_ascii d =? b)%nat.

Fixpoint ToUpper (s : string) : string :=
  match s with
  | EmptyString => EmptyString
  | String c s' =>
    match s' with
    | EmptyString => String (upper c) EmptyString
    | String d s'' =>
      if two_bytes 197 191 c d then String "S" (ToUpper s'')        (* long s *)
      else if two_bytes 196 177 c d then String "I" (ToUpper s'')   (* dotless i *)
      else String (upper c) (ToUpper s')
    end
  end.

Section commands.
Context {E : Type} (marshal_body : write_body → E + string) (marshal_error : string → string) (json_valid : string → bool).
Context (wrong : error → E).

(** The method, path and body of a command. *)
Definition commandHTTP (c : CommandRequest) : E + (string * string * string) :=
  let operation := ToUpper (cr_Operation c) in
  if bool_decide (cr_Key c = "") || (1024 <? strlenN (cr_Key c))%N
  then inl (wrong (ErrNew "key must contain 1–1024 bytes"))
  else
    let path := "/v1/kv/" +:+ PathEscape (cr_Key c) in
    if bool_decide (operation = "GET") then inr ("GET", path, "")
    else
    match Validate (mkCommand (cr_ClientID c) (cr_RequestID c) operation (cr_Key c) (cr_Value c) (cr_Expected c)) with
    | Some err => inl (wrong err)
    | None =>
      let body value expected := marshal_body (mkWriteBody (cr_ClientID c) (cr_RequestID c) value expected) in
      let finish method path b := match b with inl err => inl err | inr b => inr (method, path, b) end in
      if bool_decide (operation = "SET") then finish "PUT" path (body (Some (cr_Value c)) None)
      else if bool_decide (operation = "DELETE") then finish "DELETE" path (body None None)
      else if bool_decide (operation = "CAS")
      then finish "POST" (path +:+ "/cas") (body (Some (cr_Value c)) (Some (cr_Expected c)))
      else finish "" path (body None None)
    end.

(** The last [n] of a list. *)
Definition last_n {A} (n : nat) (l : list A) : list A := drop (length l - n) l.

Definition count_response (err : option error) (status : Z) (me : Metrics) : Metrics :=
  let requests := me_Requests me + 1 in
  let set s c f := mkMetrics requests s c f (me_P50 me) (me_P95 me) (me_RateTenths me) (me_Workload me) in
  if bool_decide (err ≠ None) || (500 <=? status)
  then set (me_Succeeded me) (me_Conflicts me) (me_Failed me + 1)
  else if status =? 409 then set (me_Succeeded me) (me_Conflicts me + 1) (me_Failed me)
  else if status <? 300 then set (me_Succeeded me + 1) (me_Conflicts me) (me_Failed me)
  else set (me_Succeeded me) (me_Conflicts me) (me_Failed me).

(** What [Command] does with the client's answer. *)
Definition command_done (now us : Z) (resp : Response) (err : option error) : L CommandResponse :=
  modify (λ m, ms_metrics (count_response err (StatusCode resp) (mg_metrics m)) m) ;;
  modify (λ m, ms_samples (last_n 300 (mg_samples m ++ [mkSample now us])) m) ;;
  let body := if json_valid (Body resp) then Body resp else "{}" in
  mret match err with
       | None => mkCommandResponse (StatusCode resp) body us (Server resp)
       | Some err => mkCommandResponse 503 (marshal_error (Error err)) us (Server resp)
       end.

Definition Command (do_request : string → string → string → L (Response * option error)) (now us : Z)
    (request : CommandRequest) : L (E + CommandResponse) :=
  match commandHTTP request with
  | inl err => mret (inl err)
  | inr (method, path, payload) =>
    '(resp, err) ← do_request method path payload;
    r ← command_done now us resp err;
    mret (inr r)
  end.

End commands.

(** ** The workload *)

Definition set_workload (b : bool) (me : Metrics) : Metrics :=
  mkMetrics (me_Requests me) (me_Succeeded me) (me_Conflicts me) (me_Failed me) (me_P50 me) (me_P95 me)
    (me_RateTenths me) b.

(** [Workload] at a time: the goroutine it starts takes its name from the clock. *)
Definition Workload (now : Z) (enabled : bool) : L unit :=
  m ← get;
  if mg_closing m then mret tt
  else
    modify (ms_workCancel None) ;;
    modify (λ m, ms_metrics (set_workload enabled (mg_metrics m)) m) ;;
    when enabled (
      modify (λ m, ms_works (<[mg_workloads m := ("workload-" +:+ pretty now, 1%N)]> (mg_works m)) m) ;;
      modify (λ m, ms_workCancel (Some (mg_workloads m)) m) ;;
      modify (λ m, ms_workloads (S (mg_workloads m)) m)).

(** The request of a workload. *)
Definition work_request (w : string * N) : CommandRequest :=
  mkCommandRequest "SET" "lab:counter" (pretty w.2) "" w.1 w.2.

(** Its goroutine after an answer with [status], and at the end of its context. *)
Definition work_answered (i : nat) (status : Z) : L unit :=
  m ← get;
  match mg_works m !! i with
  | Some (client, id) =>
    when (status =? 200) (modify (λ m, ms_works (<[i := (client, add64 id 1)]> (mg_works m)) m))
  | None => mret tt
  end.

Definition work_ended (i : nat) : L unit :=
  m ← get;
  when (mg_closing m || bool_decide (mg_workCancel m ≠ Some i))
    (modify (λ m, ms_works (delete i (mg_works m)) m)).

(** ** The peer proxies (proxy.go) *)

(** A request to the proxy of a member. *)
Record proxy_request := mkProxyRequest {
  px_Method : string;
  px_Path : string;
  px_From : string;        (* X-ShardZero-From *)
  px_Message : string;     (* X-ShardZero-Message *)
  px_Body : reader;
}.

(** The response: a status, what is passed on of the node's body, and whether
    anything was written before the client went away. *)
Inductive proxy_response :=
  | PxStatus (status : Z)
  | PxLost                               (* injected network loss, 503 *)
  | PxGone
  | PxReply (status : Z) (body : reader).

Definition cut_off (m : Manager) (from target : string) : bool :=
  bool_decide (from ∈ mg_isolated m) || bool_decide (target ∈ mg_isolated m).

Definition proxy_event (now : Z) (from target kind message : string) : Event :=
  mkEvent 0 now from kind 0 0 target message "".

(** The section at arrival: whether the sender is known, the packet is to be
    dropped and the two are cut off, and the delay. *)
Definition proxy_arrival (from target : string) : L (bool * bool * bool * Z) :=
  m ← get;
  let known := bool_decide (is_Some (find_member from m)) in
  let packet := add64 (mg_packet m) 1 in
  modify (ms_packet packet) ;;
  mret (known, (packet mod 100 <? Z.to_N (mg_drop m))%N, cut_off m from target, mg_delayMS m).

Section proxy.
Context `{HU : URLs}.
Context (now : Z) (wait : Z → L bool) (do_http : HttpRequest → reader → L (error + Reply)).

Definition proxy_forward (target : Member) (r : proxy_request) : L proxy_response :=
  m ← get;
  if cut_off m (px_From r) (mb_ID target) then mret (PxStatus 503)
  else
    match NewRequest "POST" ("http://" +:+ mb_PeerAddress target +:+ px_Path r) "" with
    | inl _ => mret (PxStatus 502)
    | inr req =>
      resp ← do_http (set_header "Content-Type" "application/json" req) (MaxBytesReader 16777216 (px_Body r));
      match resp with
      | inl _ => mret (PxStatus 503)
      | inr rep =>
        m ← get;
        if cut_off m (px_From r) (mb_ID target) then mret (PxStatus 503)
        else mret (PxReply (rp_StatusCode rep) (LimitReader 1048576 (rp_Body rep)))
      end
    end.

(** [m.proxy(target)].  [wait] is the delay: false when the client has gone.  The
    body is passed on as a reader. *)
Definition proxy (target : Member) (r : proxy_request) : L proxy_response :=
  if bool_decide (px_Method r ≠ "POST") ||
     negb (bool_decide (px_Path r = "/raft/vote") || bool_decide (px_Path r = "/raft/append"))
  then mret (PxStatus 404)
  else
    '(known, drop, blocked, delay) ← proxy_arrival (px_From r) (mb_ID target);
    if negb known then mret (PxStatus 403)
    else if (blocked : bool) || (drop : bool) then
      modify (λ m, ms_events (Publish (proxy_event now (px_From r) (mb_ID target) "MESSAGE_DROPPED" (px_Message r))
        (mg_events m)) m) ;;
      mret PxLost
    else if 0 <? delay then
      modify (λ m, ms_events (Publish (proxy_event now (px_From r) (mb_ID target) "MESSAGE_DELAYED" (px_Message r))
        (mg_events m)) m) ;;
      here ← wait delay;
      if (here : bool) then proxy_forward target r else mret PxGone
    else proxy_forward target r.

End proxy.

(** ** [New] *)

Definition lab_member (cfg : LabConfig) (i : nat) : Member :=
  let port group := pretty (lc_BasePort cfg + group + Z.of_nat i) in
  mkMember ("node-" +:+ pretty i) ("http://127.0.0.1:" +:+ port 100) ("127.0.0.1:" +:+ port 200)
    ("http://127.0.0.1:" +:+ port 300) ("127.0.0.1:" +:+ port 400) None false.

Definition lab_members (cfg : LabConfig) : list Member := lab_member cfg <$> seq 1 (Z.to_nat (lc_Nodes cfg)).

(** The members as the nodes know each other: through the proxies. *)
Definition lab_peer (n : Member) : Peer :=
  mkPeer (mb_ID n) ("http://" +:+ mb_ProxyAddress n) (mb_ClientURL n).

Definition lab_membership (cfg : LabConfig) : Membership :=
  mkMembership "shardzero-lab" (lab_peer <$> lab_members cfg).

(** The addresses that must be free: groups 1 to 3 of ports. *)
Definition probe_addresses (cfg : LabConfig) : list string :=
  group ← seq 1 3; i ← seq 1 (Z.to_nat (lc_Nodes cfg));
  ["127.0.0.1:" +:+ pretty (lc_BasePort cfg + 100 * Z.of_nat group + Z.of_nat i)].

Fixpoint probe (listen : string → option error) (addresses : list string) : option error :=
  match addresses with
  | [] => None
  | address :: addresses =>
    match listen address with
    | Some err => Some (ErrWrap ("lab port " +:+ address +:+ " unavailable: ") err)
    | None => probe listen addresses
    end
  end.

Fixpoint listen_all (listen : string → option error) (ns : list Member) : option error :=
  match ns with
  | [] => None
  | n :: ns => match listen (mb_ProxyAddress n) with Some err => Some err | None => listen_all listen ns end
  end.

(** What the system answers while the lab starts. *)
Record new_answer := mkNewAnswer {
  na_probe : string → option error;
  na_mkdir : option error;
  na_token : error + string;
  na_marshal : Membership → error + string;    (* [json.MarshalIndent] *)
  na_write : string → string → option error;   (* writing the membership *)
  na_listen : string → option error;
  na_start : string → start_answer;
  na_kill : nat → option error;
}.

Definition empty_manager (cfg : LabConfig) (token : string) : Manager :=
  mkManager cfg (lab_members cfg) ∅ false (Join [lc_DataDir cfg; "membership.json"]) token
    (NewBuffer 400) (NewBuffer 200) ∅ 0 0 0 zeroMetrics [] None ∅ None 0 ∅ ∅ 0 0 ∅.

Fixpoint start_all (a : new_answer) (ns : list Member) : L (option error) :=
  match ns with
  | [] => mret None
  | n :: ns =>
    err ← Start (na_start a (mb_ID n)) (mb_ID n);
    match err with
    | Some err => Close (na_kill a) ;; mret (Some err)
    | None => start_all a ns
    end
  end.

(** The manager, or the error and, once it exists, the closed manager. *)
Definition New (cfg : LabConfig) (a : new_answer) : option (error * option Manager + Manager) :=
  if negb (lc_Nodes cfg =? 3) && negb (lc_Nodes cfg =? 5)
  then Some (inl (ErrNew "lab requires 3 or 5 nodes", None))
  else if (lc_BasePort cfg <? 1024) || (64000 <? lc_BasePort cfg)
  then Some (inl (ErrNew "invalid base port", None))
  else
  match probe (na_probe a) (probe_addresses cfg) with
  | Some err => Some (inl (err, None))
  | None =>
    match na_mkdir a, na_token a with
    | Some err, _ => Some (inl (err, None))
    | None, inl err => Some (inl (err, None))
    | None, inr token =>
      let m := empty_manager cfg token in
      let b := match na_marshal a (lab_membership cfg) with inl _ => "" | inr b => b end in
      match na_write a (mg_configPath m) b with
      | Some err => Some (inl (err, None))
      | None =>
      let m := ms_files (<[mg_configPath m := b]> (mg_files m)) m in
      match listen_all (na_listen a) (mg_members m) with
      | Some err =>
        match Close (na_kill a) m with
        | None => None
        | Some (_, m) => Some (inl (err, Some m))
        end
      | None =>
        match start_all a (mg_members m) m with
        | None => None
        | Some (Some err, m) => Some (inl (err, Some m))
        | Some (None, m) => Some (inr m)
        end
      end
      end
    end
  end.
