(* ===== verification/LabHttp.v ===== *)
(** * LabHttp: the dashboard's HTTP interface (src/internal/lab/http.go)

    The guard in front of every request, the JSON endpoints and the control
    actions.  Simulations are run by an argument, as they are all that the
    endpoint adds to [Simulation.Run]; the event stream is the value [LStream]:
    it repeats the snapshot until the client goes away. *)

From Stdlib Require Import Strings.Ascii Strings.String.
From stdpp Require Import base numbers list gmap strings fin_maps pretty options.
From S2P Require Import Prelude Effects StateMachine Events Node Simulation Client Lab Urls Http.

Local Open Scope Z_scope.
#[local] Set Default Proof Using "Type*".
Local Notation L := (M Manager).

Record lab_request := mkLabRequest {
  lr_Method : string;
  lr_Path : string;
  lr_Host : string;
  lr_Origin : string;
  lr_Control : string;     (* X-ShardZero-Control *)
  lr_Body : reader;
}.

Record chaos_request := mkChaosRequest {
  ch_Action : string;
  ch_Node : string;
  ch_Isolated : list string;
  ch_DelayMS : Z;
  ch_DropPercent : Z;
}.

Record workload_request := mkWorkloadRequest { wq_Enabled : bool }.

Record simulate_request := mkSimulateRequest {
  sq_Seed : N;
  sq_Nodes : Z;
  sq_Operations : Z;
  sq_Scenario : option Scenario;
}.

Inductive lab_payload :=
  | LToken (token : string)
  | LState (s : LabSnapshot)
  | LStream
  | LCommand (r : CommandResponse)
  | LError (message : string)
  | LOk
  | LEnabled (enabled : bool)
  | LResult (r : SimResult)
  | LFile (path : string)
  | LText (message : string)
  | LEmpty.

(** [net.SplitHostPort]: the host and the port. *)
Class Net := { SplitHostPort : string → error + string * string }.

Section handler.
Context `{HU : URLs, HM : ServeMux, HN : Net, HS : JsonStream}.
Context `{HJ1 : Json CommandRequest, HJ2 : Json chaos_request, HJ3 : Json workload_request, HJ4 : Json simulate_request}.
Context (now : Z) (start_of : string → start_answer) (kill_of : nat → option error) (admin : HttpRequest → L (error + Z)).
Context (command : CommandRequest → L (error + CommandResponse)).
Context (simulating : bool) (run : Scenario → SimResult).

Definition jsonReply (status : Z) (value : lab_payload) : L (response lab_payload) :=
  mret (mkResponse status "" value).

(** [readJSON]: the value, or the answer to a body that is none. *)
Definition readJSON {A} `{Json A} (r : lab_request) : response lab_payload + A :=
  decode_one (mkResponse 400 "" (LError "invalid request JSON")) (mkResponse 400 "" (LError "trailing request data"))
    (MaxBytesReader 2097152 (lr_Body r)).

(** The members restarted and resumed by a reset, after [err]. *)
Fixpoint reset_members (ns : list Member) (err : option error) : L (option error) :=
  match ns with
  | [] => mret err
  | n :: ns =>
    e ← Start (start_of (mb_ID n)) (mb_ID n);
    let err :=
      match e with
      | None => err
      | Some e => match err with None => Some e | Some err => Some (ErrJoin err e) end
      end in
    Pause now admin (mb_ID n) false ;;
    reset_members ns err
  end.

Definition chaos (r : chaos_request) : L (option error) :=
  if bool_decide (ch_Action r = "crash") then Crash now kill_of (ch_Node r)
  else if bool_decide (ch_Action r = "restart") then Start (start_of (ch_Node r)) (ch_Node r)
  else if bool_decide (ch_Action r = "pause") then Pause now admin (ch_Node r) true
  else if bool_decide (ch_Action r = "resume") then Pause now admin (ch_Node r) false
  else if bool_decide (ch_Action r = "network") then SetFaults now (ch_Isolated r) (ch_DelayMS r) (ch_DropPercent r)
  else if bool_decide (ch_Action r = "heal") then SetFaults now [] 0 0
  else if bool_decide (ch_Action r = "reset") then
    err ← SetFaults now [] 0 0;
    m ← get;
    reset_members (mg_members m) err
  else mret (Some (ErrNew "unknown action")).

Definition serve_command (r : lab_request) : L (response lab_payload) :=
  match readJSON r with
  | inl refusal => mret refusal
  | inr c =>
    result ← command c;
    match result with
    | inl err => jsonReply 400 (LError (Error err))
    | inr result => jsonReply 200 (LCommand result)
    end
  end.

Definition serve_chaos (r : lab_request) : L (response lab_payload) :=
  match readJSON r with
  | inl refusal => mret refusal
  | inr c =>
    err ← chaos c;
    match err with
    | Some err => jsonReply 400 (LError (Error err))
    | None => jsonReply 200 LOk
    end
  end.

Definition serve_workload (r : lab_request) : L (response lab_payload) :=
  match readJSON r with
  | inl refusal => mret refusal
  | inr w => Workload now (wq_Enabled w) ;; jsonReply 200 (LEnabled (wq_Enabled w))
  end.

Definition serve_simulate (r : lab_request) : L (response lab_payload) :=
  if simulating then jsonReply 409 (LError "a simulation is already running")
  else
  match readJSON r with
  | inl refusal => mret refusal
  | inr q =>
    let s := default (Default (sq_Seed q) (sq_Nodes q) (sq_Operations q)) (sq_Scenario q) in
    if 500 <? Operations s
    then jsonReply 400 (LError "dashboard simulation limit is 500 operations; use the CLI for larger runs")
    else
      match Simulation.Validate s with
      | Some err => jsonReply 400 (LError (Error err))
      | None => jsonReply 200 (LResult (run s))
      end
  end.

Definition reads (method : string) : bool := bool_decide (method = "GET") || bool_decide (method = "HEAD").

(** The routes; everything else is a file of the dashboard. *)
Definition route (r : lab_request) : L (response lab_payload) :=
  let path := matched_segments (lr_Path r) in
  if bool_decide (lr_Method r ≠ "CONNECT") && bool_decide (cleanPath (lr_Path r) ≠ lr_Path r)
  then mret (mkResponse moved (cleanPath (lr_Path r)) LEmpty)
  else if reads (lr_Method r) && bool_decide (path = ["api"; "session"])
  then m ← get; jsonReply 200 (LToken (mg_token m))
  else if reads (lr_Method r) && bool_decide (path = ["api"; "state"])
  then s ← Snapshot now; jsonReply 200 (LState s)
  else if reads (lr_Method r) && bool_decide (path = ["api"; "events"]) then jsonReply 200 LStream
  else if bool_decide (lr_Method r = "POST") && bool_decide (path = ["api"; "command"]) then serve_command r
  else if bool_decide (lr_Method r = "POST") && bool_decide (path = ["api"; "chaos"]) then serve_chaos r
  else if bool_decide (lr_Method r = "POST") && bool_decide (path = ["api"; "workload"]) then serve_workload r
  else if bool_decide (lr_Method r = "POST") && bool_decide (path = ["api"; "simulate"]) then serve_simulate r
  else jsonReply 200 (LFile (lr_Path r)).

Definition loopback (host : string) : bool :=
  bool_decide (host = "127.0.0.1") || bool_decide (host = "localhost") || bool_decide (host = "::1").

(** The guard: the refusal of a request, if it is refused. *)
Definition guard (token : string) (r : lab_request) : option string :=
  match SplitHostPort (lr_Host r) with
  | inl _ => Some "loopback host required"
  | inr (host, _) =>
    if negb (loopback host) then Some "loopback host required"
    else if bool_decide (lr_Origin r ≠ "") && bool_decide (lr_Origin r ≠ "http://" +:+ lr_Host r)
    then Some "same origin required"
    else if negb (reads (lr_Method r)) && bool_decide (lr_Control r ≠ token)
    then Some "control token required"
    else None
  end.

Definition Handler (r : lab_request) : L (response lab_payload) :=
  m ← get;
  match guard (mg_token m) r with
  | Some message => mret (mkResponse 403 "" (LText message))
  | None => route r
  end.

End handler.
