(* ===== verification/LabProps.v ===== *)
(** * LabProps: what the lab's control plane keeps

    The invariant of the manager over its operations in any order, the processes,
    the proxies, what the dashboard is told, and who may change anything. *)

From Stdlib Require Import Strings.Ascii Strings.String.
From stdpp Require Import base numbers list gmap strings fin_maps pretty sorting options.
From S2P Require Import Prelude Effects StateMachine Events Node Simulation Client Lab LabHttp Urls Http.

Local Open Scope Z_scope.
#[local] Set Default Proof Using "Type*".
Local Notation L := (M Manager).

(** ** The invariant *)

(** The processes: a member runs exactly while its command is waited for. *)
Record processes (m : Manager) : Prop := {
  pc_running n : n ∈ mg_members m → mb_running n = true →
    ∃ c, mb_cmd n = Some c ∧ mg_waiting m !! c = Some (mb_ID n);
  pc_waiting c id : mg_waiting m !! c = Some id → (c < mg_commands m)%nat ∧
    ∃ n, n ∈ mg_members m ∧ mb_ID n = id ∧ mb_cmd n = Some c ∧ mb_running n = true;
}.

Record counted_metrics (me : Metrics) : Prop := {
  cm_succeeded : 0 ≤ me_Succeeded me;
  cm_conflicts : 0 ≤ me_Conflicts me;
  cm_failed : 0 ≤ me_Failed me;
  cm_requests : me_Succeeded me + me_Conflicts me + me_Failed me ≤ me_Requests me;
}.

Record lab_wf (m : Manager) : Prop := {
  lw_ids : NoDup (mb_ID <$> mg_members m);
  lw_processes : processes m;
  lw_isolated id : id ∈ mg_isolated m → id ∈ mb_ID <$> mg_members m;
  lw_delay : 0 ≤ mg_delayMS m ∧ mg_delayMS m ≤ 2000;
  lw_drop : 0 ≤ mg_drop m ∧ mg_drop m ≤ 100;
  lw_samples : (length (mg_samples m) ≤ 300)%nat;
  lw_metrics : counted_metrics (mg_metrics m);
  lw_workload : me_Workload (mg_metrics m) = bool_decide (is_Some (mg_workCancel m));
  lw_closed : mg_closing m = true → ∀ c id, mg_waiting m !! c = Some id → c ∈ mg_killed m;
}.

(** What the invariant speaks of. *)
Definition kept (m : Manager) :=
  (mg_members m, mg_waiting m, mg_commands m, mg_isolated m, mg_delayMS m, mg_drop m, mg_samples m,
   mg_metrics m, mg_workCancel m, mg_closing m, mg_killed m).

Lemma lab_wf_kept m m' : kept m' = kept m → lab_wf m → lab_wf m'.
Proof.
  unfold kept. intros [= E1 E2 E3 E4 E5 E6 E7 E8 E9 E10 E11] [H1 [H2 H3] H4 H5 H6 H7 H8 H9 H10].
  split; rewrite ?E1, ?E2, ?E4, ?E5, ?E6, ?E7, ?E8, ?E9, ?E10, ?E11; try done. split.
  - intros n. rewrite E1, E2. apply H2.
  - intros c id. rewrite E1, E2, E3. apply H3.
Qed.

Lemma kept_members m m' : kept m' = kept m → mg_members m' = mg_members m.
Proof. by intros [=]. Qed.

(** A section that leaves alone what the invariant speaks of. *)
Definition quiet {A} (x : L A) : Prop := ∀ m, wp False x (λ _ m', kept m' = kept m) m.

Lemma quiet_ret {A} (a : A) : quiet (mret a).
Proof. intros m. by apply wp_ret. Qed.

Lemma quiet_bind {A B} (x : L A) (f : A → L B) : quiet x → (∀ a, quiet (f a)) → quiet (x ≫= f).
Proof.
  intros Hx Hf m. apply wp_bind. eapply wp_mono; [apply Hx|]. cbn beta. intros a m1 H1.
  eapply wp_mono; [apply Hf|]. cbn beta. intros b m2 H2. congruence.
Qed.

Lemma quiet_modify f : (∀ m, kept (f m) = kept m) → quiet (modify f).
Proof. intros H m. apply wp_modify, H. Qed.

Lemma quiet_get : quiet get.
Proof. intros m. by apply wp_get. Qed.

Lemma quiet_when b (x : L unit) : quiet x → quiet (when b x).
Proof. destruct b; [done|]. intros _. apply quiet_ret. Qed.

Lemma quiet_for_each {A} (f : A → L unit) l : (∀ a, quiet (f a)) → quiet (for_each f l).
Proof.
  intros Hf. induction l as [|a l IH]; [apply quiet_ret|]. apply quiet_bind; [apply Hf|done].
Qed.

Lemma quiet_wf {A} (x : L A) m : quiet x → lab_wf m → wp False x (λ _ m', lab_wf m') m.
Proof. intros Hx Hm. eapply wp_mono; [apply Hx|]. cbn beta. intros a m'. intros H. by eapply lab_wf_kept. Qed.

Create HintDb lab.

(** Sections made of quiet parts. *)
Ltac quiet :=
  repeat match goal with
  | |- quiet (mret _) => apply quiet_ret
  | |- quiet (mbind _ _) => apply quiet_bind; [|intros ?]
  | |- quiet get => apply quiet_get
  | |- quiet (when _ _) => apply quiet_when
  | |- quiet (for_each _ _) => apply quiet_for_each; intros ?
  | |- quiet (modify _) => apply quiet_modify; intros ?; reflexivity
  | |- quiet (if ?b then _ else _) => destruct b
  | |- quiet (match ?x with _ => _ end) => destruct x
  | |- quiet (let _ := _ in _) => cbv zeta
  | |- quiet _ => solve [eauto with lab]
  end.

Lemma quiet_publish e : quiet (publish e).
Proof. unfold publish. quiet. Qed.
#[local] Hint Resolve quiet_publish : lab.

Lemma quiet_before_fault now : quiet (before_fault now).
Proof. unfold before_fault. quiet. Qed.
#[local] Hint Resolve quiet_before_fault : lab.

Lemma quiet_set_view id v : quiet (set_view id v).
Proof. unfold set_view. quiet. Qed.
#[local] Hint Resolve quiet_set_view : lab.

Lemma quiet_poll now id answer : quiet (poll_member now id answer).
Proof. unfold poll_member. quiet. Qed.

Lemma quiet_arrival from target : quiet (proxy_arrival from target).
Proof. unfold proxy_arrival. quiet. Qed.

Lemma quiet_work_answered i status : quiet (work_answered i status).
Proof. unfold work_answered. quiet. Qed.

Lemma quiet_work_ended i : quiet (work_ended i).
Proof. unfold work_ended. quiet. Qed.

Lemma find_member_spec id m n : find_member id m = Some n → n ∈ mg_members m ∧ mb_ID n = id.
Proof.
  unfold find_member. intros H. apply List.find_some in H as [Hin Hid]. split; [by apply list_elem_of_In|].
  by apply bool_decide_eq_true in Hid.
Qed.

Lemma find_member_in id m : id ∈ mb_ID <$> mg_members m ↔ is_Some (find_member id m).
Proof.
  unfold find_member. rewrite list_elem_of_fmap. split.
  - intros (n&->&Hn). destruct (List.find _ _) eqn:H; [by eexists|]. exfalso.
    apply List.find_none with (x := n) in H; [|by apply list_elem_of_In].
    by rewrite bool_decide_eq_true_2 in H.
  - intros [n Hn]. destruct (find_member_spec id m n Hn). by exists n.
Qed.

Lemma find_member_unique m n n' : NoDup (mb_ID <$> mg_members m) →
  n ∈ mg_members m → n' ∈ mg_members m → mb_ID n = mb_ID n' → n = n'.
Proof.
  intros Hnd Hn Hn' Hid. apply list_elem_of_lookup_1 in Hn as [i Hi]. apply list_elem_of_lookup_1 in Hn' as [j Hj].
  assert (i = j) as ->; [|congruence].
  eapply (NoDup_lookup (mb_ID <$> mg_members m)); [done| |].
  - by rewrite list_lookup_fmap, Hi.
  - by rewrite list_lookup_fmap, Hj, Hid.
Qed.

(** ** The operations keep it *)

Definition updated (id : string) (f : Member → Member) (ns : list Member) : list Member :=
  map (λ n, if bool_decide (mb_ID n = id) then f n else n) ns.

Lemma updated_ids id f ns : (∀ n, mb_ID (f n) = mb_ID n) → mb_ID <$> updated id f ns = mb_ID <$> ns.
Proof.
  intros Hf. induction ns as [|n ns IH]; [done|]. cbn. rewrite <-IH. f_equal. by case_bool_decide.
Qed.

Lemma updated_in id f ns n : n ∈ updated id f ns ↔
  ∃ n0, n0 ∈ ns ∧ n = if bool_decide (mb_ID n0 = id) then f n0 else n0.
Proof. unfold updated. rewrite (list_elem_of_fmap _ ns). naive_solver. Qed.

Lemma set_process_id cmd running n : mb_ID (set_process cmd running n) = mb_ID n.
Proof. done. Qed.

(** A process of a member that runs none is started. *)
Lemma processes_start m m' n :
  NoDup (mb_ID <$> mg_members m) → processes m → n ∈ mg_members m → mb_running n = false →
  mg_members m' = updated (mb_ID n) (set_process (Some (mg_commands m)) true) (mg_members m) →
  mg_waiting m' = <[mg_commands m := mb_ID n]> (mg_waiting m) → mg_commands m' = S (mg_commands m) →
  processes m'.
Proof.
  intros Hnd [P1 P2] Hn Hrun Hm Hw Hc. split.
  - intros x. rewrite Hm, updated_in. intros (x0&Hx0&->) Hr. rewrite Hw. case_bool_decide as Hid.
    + exists (mg_commands m). split; [done|]. cbn. by rewrite Hid, lookup_insert_eq.
    + destruct (P1 x0 Hx0 Hr) as (c&Hcmd&Hwc). exists c. split; [done|].
      destruct (P2 c _ Hwc) as [Hlt _]. by rewrite lookup_insert_ne by lia.
  - intros c id. rewrite Hw, Hc, Hm. destruct (decide (c = mg_commands m)) as [->|Hne].
    + rewrite lookup_insert_eq. intros [= <-]. split; [lia|].
      exists (set_process (Some (mg_commands m)) true n). split; [|done].
      apply updated_in. exists n. split; [done|]. by rewrite bool_decide_eq_true_2.
    + rewrite lookup_insert_ne by done. intros Hwc. destruct (P2 c id Hwc) as (Hlt&x&Hx&Hid&Hcmd&Hr).
      split; [lia|]. exists x. split; [|done]. apply updated_in. exists x. split; [done|].
      rewrite bool_decide_eq_false_2; [done|]. intros E.
      rewrite (find_member_unique m x n Hnd Hx Hn E) in Hr. congruence.
Qed.

(** The process of a command has ended. *)
Lemma processes_exit m m' c id :
  NoDup (mb_ID <$> mg_members m) → processes m → mg_waiting m !! c = Some id →
  mg_members m' = updated id (λ n, if bool_decide (mb_cmd n = Some c) then set_process (mb_cmd n) false n else n)
    (mg_members m) →
  mg_waiting m' = delete c (mg_waiting m) → mg_commands m' = mg_commands m → processes m'.
Proof.
  intros Hnd [P1 P2] Hwc Hm Hw Hc. destruct (P2 c id Hwc) as (Hlt&n&Hn&Hid&Hcmd&Hrun). split.
  - intros x. rewrite Hm, updated_in. intros (x0&Hx0&->). rewrite Hw. case_bool_decide as Hx.
    + case_bool_decide as Hxc; [done|]. intros Hr. destruct (P1 x0 Hx0 Hr) as (c'&Hcmd'&Hw').
      exists c'. split; [done|]. rewrite lookup_delete_ne by (intros ->; congruence). done.
    + intros Hr. destruct (P1 x0 Hx0 Hr) as (c'&Hcmd'&Hw').
      exists c'. split; [done|]. rewrite lookup_delete_ne by (intros ->; congruence). done.
  - intros c' id'. rewrite Hw, Hc, Hm. destruct (decide (c' = c)) as [->|Hne]; [by rewrite lookup_delete_eq|].
    rewrite lookup_delete_ne by done. intros Hw'. destruct (P2 c' id' Hw') as (Hlt'&x&Hx&Hid'&Hcmd'&Hr').
    split; [done|]. exists x. split; [|done]. apply updated_in. exists x. split; [done|].
    case_bool_decide as E; [|done]. case_bool_decide as E'; [|done]. congruence.
Qed.

(** Steps that change other things than what [processes] reads. *)
Lemma publish_wp e (Q : unit → Manager → Prop) m :
  (∀ ev tl, Q tt (ms_timeline tl (ms_events ev m))) → wp False (publish e) Q m.
Proof.
  intros HQ. unfold publish. apply wp_bind, wp_modify. apply wp_when; intros Ht.
  - apply wp_modify. apply HQ.
  - pose proof (HQ (Publish e (mg_events m)) (mg_timeline m)) as H. by destruct m.
Qed.

(** Steps that change the members and their processes. *)
Lemma lab_wf_processes id f m m' :
  (∀ n, mb_ID (f n) = mb_ID n) → mg_members m' = updated id f (mg_members m) →
  mg_isolated m' = mg_isolated m → mg_delayMS m' = mg_delayMS m → mg_drop m' = mg_drop m →
  mg_samples m' = mg_samples m → mg_metrics m' = mg_metrics m → mg_workCancel m' = mg_workCancel m →
  processes m' → (mg_closing m' = true → ∀ c id, mg_waiting m' !! c = Some id → c ∈ mg_killed m') →
  lab_wf m → lab_wf m'.
Proof.
  intros Hf E1 E2 E3 E4 E5 E6 E7 Hp Hc [H1 H2 H3 H4 H5 H6 H7 H8 H9].
  split; rewrite ?E1, ?E2, ?E3, ?E4, ?E5, ?E6, ?E7, ?updated_ids by done; done.
Qed.

Lemma Start_wf a id m : lab_wf m → wp False (Start a id) (λ _ m', lab_wf m') m.
Proof.
  intros Hw. pose proof Hw as [H1 H2 H3 H4 H5 H6 H7 H8 H9]. unfold Start. apply wp_bind, wp_get.
  destruct (mg_closing m) eqn:Hcl; [by apply wp_ret|].
  destruct (find_member id m) as [n|] eqn:Hf; [|by apply wp_ret].
  destruct (mb_running n) eqn:Hr; [by apply wp_ret|]. destruct (sa_open a); [by apply wp_ret|].
  destruct (sa_start a _ _ _) as [err|pid]; [by apply wp_ret|].
  destruct (find_member_spec id m n Hf) as [Hn Hid].
  apply wp_bind, wp_modify, wp_bind, wp_modify, wp_bind, publish_wp. intros ev tl.
  apply wp_bind, wp_modify, wp_ret.
  apply (lab_wf_processes id (set_process (Some (mg_commands m)) true) m); try done.
  - apply (processes_start m _ n); try done; by rewrite Hid.
  - cbn. congruence.
Qed.

Lemma exited_wf c m : lab_wf m → wp False (exited c) (λ _ m', lab_wf m') m.
Proof.
  intros Hw. pose proof Hw as [H1 H2 H3 H4 H5 H6 H7 H8 H9]. unfold exited. apply wp_bind, wp_get.
  destruct (mg_waiting m !! c) as [id|] eqn:Hc; [|by apply wp_ret].
  apply wp_bind, wp_modify, wp_modify.
  set (f := λ n, if bool_decide (mb_cmd n = Some c) then set_process (mb_cmd n) false n else n).
  assert (∀ n, mb_ID (f n) = mb_ID n) as Hf by (intros n; unfold f; by destruct (bool_decide (mb_cmd n = Some c))).
  apply (lab_wf_processes id f m); try done; [by apply (processes_exit m _ c id)|].
  intros Hcl c' id' Hc'. change (delete c (mg_waiting m) !! c' = Some id') in Hc'. apply lookup_delete_Some in Hc' as [_ Hc']. by apply (H9 Hcl c' id').
Qed.

Lemma lab_wf_killed c m : lab_wf m → lab_wf (ms_killed ({[c]} ∪ mg_killed m) m).
Proof. intros [H1 [] H3 H4 H5 H6 H7 H8 H9]. split; try done. cbn. set_solver. Qed.

Lemma Crash_wf now answer id m : lab_wf m → wp False (Crash now answer id) (λ _ m', lab_wf m') m.
Proof.
  intros Hw. unfold Crash. apply wp_bind, wp_get. destruct (find_member id m) as [n|] eqn:Hf; [|by apply wp_ret].
  destruct (negb (mb_running n)) eqn:Hr; [by apply wp_ret|]. apply negb_false_iff in Hr.
  destruct (find_member_spec id m n Hf) as [Hn _].
  destruct (pc_running m (lw_processes m Hw) n Hn Hr) as (c&Hc&_). rewrite Hc.
  apply wp_bind. eapply wp_mono; [apply quiet_before_fault|]. cbn beta. intros [] m1 H1.
  apply wp_bind, wp_modify, wp_ret, lab_wf_killed. by eapply lab_wf_kept.
Qed.

Lemma quiet_Pause `{URLs} now do_http id paused :
  (∀ req, quiet (do_http req)) → quiet (Pause now do_http id paused).
Proof. intros Hd. unfold Pause. quiet. all: apply Hd. Qed.

Lemma check_isolated_spec m ids blocked blocked' :
  check_isolated m ids blocked = inr blocked' →
  ∀ id, id ∈ blocked' → id ∈ blocked ∨ id ∈ mb_ID <$> mg_members m.
Proof.
  revert blocked. induction ids as [|id ids IH]; intros blocked; cbn; [intros [= <-]; by left|].
  destruct (find_member id m) as [n|] eqn:Hf; [|done]. intros H x Hx.
  destruct (IH _ H x Hx) as [Hin|]; [|by right]. apply elem_of_union in Hin as [->%elem_of_singleton|]; [|by left].
  right. apply find_member_in. by eexists.
Qed.

Lemma SetFaults_wf now isolated delay drop m :
  lab_wf m → wp False (SetFaults now isolated delay drop) (λ _ m', lab_wf m') m.
Proof.
  intros Hw. unfold SetFaults. apply wp_bind, wp_get. destruct (_ || _) eqn:Hr; [by apply wp_ret|].
  repeat (apply orb_false_iff in Hr as [Hr ?]). rewrite !Z.ltb_ge in *.
  destruct (check_isolated m isolated ∅) as [err|blocked] eqn:Hc; [by apply wp_ret|].
  apply wp_bind. eapply wp_mono; [apply quiet_when, quiet_before_fault|]. cbn beta. intros [] m1 Hm1.
  pose proof (lab_wf_kept _ _ Hm1 Hw) as [W1 W2 W3 W4 W5 W6 W7 W8 W9].
  apply wp_bind, wp_modify, wp_bind, publish_wp. intros ev tl. apply wp_ret.
  split; cbn; try done; try lia; [by destruct W2|].
  intros id Hid. rewrite (kept_members _ _ Hm1).
  destruct (check_isolated_spec _ _ _ _ Hc id Hid) as [Hin|]; [|done]. by apply elem_of_empty in Hin.
Qed.

(** The loop of [Close] kills what runs. *)
Lemma close_loop answer ns m :
  (∀ n, n ∈ ns → mb_running n = true → is_Some (mb_cmd n)) →
  wp False (for_each (λ n, if mb_running n then kill answer (mb_cmd n) ;; mret tt else mret tt) ns)
    (λ _ m', ∃ K, m' = ms_killed K m ∧ mg_killed m ⊆ K ∧
       ∀ n c, n ∈ ns → mb_running n = true → mb_cmd n = Some c → c ∈ K) m.
Proof.
  revert m. induction ns as [|n ns IH]; intros m Hns.
  - apply wp_ret. exists (mg_killed m). split; [by destruct m|]. split; [done|]. intros ?? []%not_elem_of_nil.
  - apply wp_bind. assert (∀ x, x ∈ ns → mb_running x = true → is_Some (mb_cmd x)) as Hns'
      by (intros x Hx; apply Hns; by right).
    destruct (mb_running n) eqn:Hr.
    + destruct (Hns n (list_elem_of_here _ _) Hr) as [c Hc]. rewrite Hc.
      apply wp_bind, wp_bind, wp_modify, wp_ret, wp_ret. eapply wp_mono; [apply IH, Hns'|]. cbn beta.
      intros _ m' (K&->&HK&Hall). exists K. cbn in HK. split; [by destruct m|]. split; [set_solver|].
      intros x c' [->|Hx]%elem_of_cons Hxr Hxc; [|by eapply Hall]. apply HK. set_solver.
    + apply wp_ret. eapply wp_mono; [apply IH, Hns'|]. cbn beta. intros _ m' (K&->&HK&Hall).
      exists K. do 2 (split; [done|]). intros x c' [->|Hx]%elem_of_cons Hxr; [congruence|by eapply Hall].
Qed.

Lemma Close_wf answer m : lab_wf m → wp False (Close answer) (λ _ m', lab_wf m' ∧ mg_closing m' = true) m.
Proof.
  intros Hw. pose proof Hw as [W1 W2 W3 W4 W5 W6 W7 W8 W9]. unfold Close. apply wp_bind, wp_get.
  destruct (mg_closing m) eqn:Hcl; [by apply wp_ret|]. apply wp_bind, wp_modify.
  eapply wp_mono; [apply close_loop|]; cbn beta.
  - intros n Hn Hr. destruct (pc_running m W2 n Hn Hr) as (c&Hc&_). by eexists.
  - intros _ m' (K&->&_&Hall). split; [|done]. destruct W2 as [P1 P2]. split; try done. intros _ c id Hc.
    destruct (P2 c id Hc) as (_&n&Hn&_&Hcmd&Hr). by eapply Hall.
Qed.

Lemma counted_response err status me : counted_metrics me → counted_metrics (count_response err status me).
Proof.
  intros [C1 C2 C3 C4]. unfold count_response. destruct (_ || _); [split; cbn; lia|].
  destruct (_ =? 409); [split; cbn; lia|]. destruct (_ <? 300); split; cbn; lia.
Qed.

Lemma count_response_workload err status me : me_Workload (count_response err status me) = me_Workload me.
Proof. unfold count_response. destruct (_ || _); [done|]. destruct (_ =? 409); [done|]. by destruct (_ <? 300). Qed.

Lemma last_n_length {A} n (l : list A) : (length (last_n n l) ≤ n)%nat.
Proof. unfold last_n. rewrite length_drop. lia. Qed.

Lemma command_done_wf marshal_error json_valid now us resp err m :
  lab_wf m → wp False (command_done marshal_error json_valid now us resp err) (λ _ m', lab_wf m') m.
Proof.
  intros [W1 [] W3 W4 W5 W6 W7 W8 W9]. unfold command_done. apply wp_bind, wp_modify, wp_bind, wp_modify, wp_ret.
  split; try done; [apply last_n_length|by apply counted_response|]. cbn. by rewrite count_response_workload.
Qed.

Lemma Workload_wf now enabled m : lab_wf m → wp False (Workload now enabled) (λ _ m', lab_wf m') m.
Proof.
  intros Hw. pose proof Hw as [W1 [] W3 W4 W5 W6 [] W8 W9]. unfold Workload. apply wp_bind, wp_get.
  destruct (mg_closing m) eqn:Hcl; [by apply wp_ret|]. apply wp_bind, wp_modify, wp_bind, wp_modify.
  apply wp_when; intros ->; [apply wp_bind, wp_modify, wp_bind, wp_modify, wp_modify|]; (split; [done|by split|done..|by split|done|cbn; congruence]).
Qed.

(** ** Any sequence of operations *)

(** The sections that change the manager, with what the clock, the system and
    the nodes answer.  A command that is forwarded, a proxied message and a
    running workload take several of them, interleaved with the others. *)
Inductive lab_op :=
  | OStart (a : start_answer) (id : string)
  | OExited (cmd : nat)
  | OReport (now : Z) (id : string) (err : option error)
  | OCrash (now : Z) (answer : nat → option error) (id : string)
  | OPause (now : Z) (answer : error + Z) (id : string) (paused : bool)
  | OFaults (now : Z) (isolated : list string) (delay drop : Z)
  | OPoll (now : Z) (id : string) (answer : option Inspection)
  | OCommand (now us : Z) (resp : Response) (err : option error)
  | OWorkload (now : Z) (enabled : bool)
  | OAnswered (i : nat) (status : Z)
  | OEnded (i : nat)
  | OPacket (from target : string)
  | OEvent (e : Event)
  | OClose (answer : nat → option error).

Section operations.
Context `{HU : URLs} (marshal_error : string → string) (json_valid : string → bool).

Definition run_op (o : lab_op) : L unit :=
  match o with
  | OStart a id => Start a id ;; mret tt
  | OExited cmd => exited cmd
  | OReport now id err => report_exit now id err
  | OCrash now answer id => Crash now answer id ;; mret tt
  | OPause now answer id paused => Pause now (λ _, mret answer) id paused ;; mret tt
  | OFaults now isolated delay drop => SetFaults now isolated delay drop ;; mret tt
  | OPoll now id answer => poll_member now id answer
  | OCommand now us resp err => command_done marshal_error json_valid now us resp err ;; mret tt
  | OWorkload now enabled => Workload now enabled
  | OAnswered i status => work_answered i status
  | OEnded i => work_ended i
  | OPacket from target => proxy_arrival from target ;; mret tt
  | OEvent e => publish e
  | OClose answer => Close answer
  end.

Definition run_ops (ops : list lab_op) : L unit := for_each run_op ops.

Lemma wp_unit {A} (x : L A) (Q : Manager → Prop) m :
  wp False x (λ _ m', Q m') m → wp False (x ;; mret tt) (λ _ m', Q m') m.
Proof. intros H. apply wp_bind. eapply wp_mono; [apply H|]. cbn beta. intros _ m' HQ. by apply wp_ret. Qed.

Lemma run_op_wf o m : lab_wf m → wp False (run_op o) (λ _ m', lab_wf m') m.
Proof.
  intros Hm. destruct o; cbn [run_op]; try apply wp_unit.
  - by apply Start_wf.
  - by apply exited_wf.
  - apply quiet_wf; [apply quiet_publish|done].
  - by apply Crash_wf.
  - apply quiet_wf; [|done]. apply quiet_Pause. intros _. apply quiet_ret.
  - by apply SetFaults_wf.
  - apply quiet_wf; [apply quiet_poll|done].
  - by apply command_done_wf.
  - by apply Workload_wf.
  - apply quiet_wf; [apply quiet_work_answered|done].
  - apply quiet_wf; [apply quiet_work_ended|done].
  - apply quiet_wf; [apply quiet_arrival|done].
  - apply quiet_wf; [apply quiet_publish|done].
  - eapply wp_mono; [by apply Close_wf|]. by intros _ m' [].
Qed.

Lemma run_ops_wf ops m : lab_wf m → wp False (run_ops ops) (λ _ m', lab_wf m') m.
Proof. apply wp_for_each. intros o m' _. apply run_op_wf. Qed.

End operations.

(** ** The lab starts, or closes what it has started *)

Definition runs (m : Manager) (id : string) : Prop :=
  ∃ n, n ∈ mg_members m ∧ mb_ID n = id ∧ mb_running n = true.

Lemma Start_runs a id m : mg_closing m = false →
  wp False (Start a id) (λ err m', mg_closing m' = false ∧ (∀ x, runs m x → runs m' x) ∧ (err = None → runs m' id)) m.
Proof.
  intros Hcl. unfold Start. apply wp_bind, wp_get. rewrite Hcl.
  destruct (find_member id m) as [n|] eqn:Hf; [|by apply wp_ret].
  destruct (find_member_spec id m n Hf) as [Hn Hid].
  destruct (mb_running n) eqn:Hr; [apply wp_ret; do 2 (split; [done|]); intros _; by exists n|].
  destruct (sa_open a); [by apply wp_ret|].
  destruct (sa_start a _ _ _) as [err|pid]; [by apply wp_ret|].
  apply wp_bind, wp_modify, wp_bind, wp_modify, wp_bind, publish_wp. intros ev tl.
  apply wp_bind, wp_modify, wp_ret. split; [done|].
  set (m' := ms_waiting _ _). set (f := set_process (Some (mg_commands m)) true).
  assert (∀ x, x ∈ mg_members m → runs m (mb_ID x) ∨ mb_ID x = id → runs m' (mb_ID x)) as Hgo.
  { intros x Hx Hrun. destruct (decide (mb_ID x = id)) as [E|E].
    - exists (f x). split; [|done]. apply (updated_in id f). exists x. by rewrite bool_decide_eq_true_2.
    - destruct Hrun as [(y&Hy&Hyx&Hyr)|]; [|done]. exists y. split; [|done].
      apply (updated_in id f). exists y. rewrite bool_decide_eq_false_2; [done|congruence]. }
  split; [|intros _; rewrite <-Hid; apply Hgo; [done|by right]].
  intros x (y&Hy&<-&Hyr). apply Hgo; [done|]. left. by exists y.
Qed.

Lemma start_all_spec a ns m : lab_wf m → mg_closing m = false →
  wp False (start_all a ns) (λ err m', lab_wf m' ∧ (∀ x, runs m x → err = None → runs m' x) ∧
    if err then mg_closing m' = true else mg_closing m' = false ∧ ∀ n, n ∈ ns → runs m' (mb_ID n)) m.
Proof.
  revert m. induction ns as [|n ns IH]; intros m Hw Hcl; cbn [start_all].
  { apply wp_ret. split; [done|]. split; [done|]. split; [done|]. intros ? []%not_elem_of_nil. }
  apply wp_bind. pose proof (Start_wf (na_start a (mb_ID n)) (mb_ID n) m Hw) as H1.
  pose proof (Start_runs (na_start a (mb_ID n)) (mb_ID n) m Hcl) as H2. unfold wp in *.
  destruct (Start _ _ m) as [[[err|] m1]|]; [| |done].
  - destruct H2 as (_&H2&_). pose proof (Close_wf (na_kill a) m1 H1) as H3. unfold wp, mbind, M_bind in *.
    destruct (Close _ m1) as [[[] m2]|]; [|done]. cbn. destruct H3 as [H3 H3']. by split.
  - destruct H2 as (H2&H2'&H2''). pose proof (IH m1 H1 H2) as H3. unfold wp in H3.
    destruct (start_all a ns m1) as [[err m2]|]; [|done]. destruct H3 as (H3&H4&H5). split; [done|].
    split; [auto|]. destruct err; [done|]. destruct H5 as [H5 H6]. split; [done|].
    intros x [->|Hx]%elem_of_cons; [|auto]. apply H4; auto.
Qed.

Lemma lab_members_ids cfg : NoDup (mb_ID <$> lab_members cfg).
Proof.
  unfold lab_members. rewrite <-list_fmap_compose. apply NoDup_fmap_2_strong; [|apply NoDup_seq].
  intros i j _ _ H. cbn in H. by apply (inj (String.append "node-")), (inj pretty) in H.
Qed.

Lemma empty_manager_wf cfg token : lab_wf (empty_manager cfg token).
Proof.
  split; cbn; try lia; try done.
  - apply lab_members_ids.
  - split; cbn; [|done]. intros n Hn. unfold lab_members in Hn. by apply list_elem_of_fmap in Hn as (i&->&_).
Qed.

(** What [New] returns, on every path. *)
Lemma New_starts cfg a :
  match New cfg a with
  | None => False
  | Some (inl (_, None)) => True
  | Some (inl (_, Some m)) => lab_wf m ∧ mg_closing m = true
  | Some (inr m0) =>
    (lc_Nodes cfg = 3 ∨ lc_Nodes cfg = 5) ∧ (∀ n, n ∈ lab_members cfg → runs m0 (mb_ID n)) ∧ lab_wf m0
  end.
Proof.
  unfold New. destruct (negb _ && negb _) eqn:Hn; [done|]. destruct (_ || _); [done|].
  destruct (probe _ _); [done|]. destruct (na_mkdir a); [done|]. destruct (na_token a) as [|token]; [done|].
  cbv zeta. set (b := match na_marshal a _ with inl _ => _ | inr b => b end).
  destruct (na_write a _ _); [done|]. set (m1 := ms_files _ _).
  assert (lab_wf m1) as Hw by (eapply lab_wf_kept; [|apply (empty_manager_wf cfg token)]; done).
  destruct (listen_all _ _).
  - pose proof (Close_wf (na_kill a) _ Hw) as H. unfold wp in H. by destruct (Close _ _) as [[[] m]|].
  - pose proof (start_all_spec a (mg_members m1) _ Hw eq_refl) as H. unfold wp in H.
    destruct (start_all _ _ _) as [[[err|] m]|]; [|destruct H as (H&_&_&Hr)|done].
    + by destruct H as (H&_&Hc).
    + split_and!; [|done|done]. apply andb_false_iff in Hn as [Hn|Hn]; apply negb_false_iff, Z.eqb_eq in Hn; auto.
Qed.

Section claims.
Context `{HU : URLs} (marshal_error : string → string) (json_valid : string → bool).

(** C32. The lab is well formed from its start on, under every sequence of
    operations and answers: its ids are distinct, a member runs exactly while
    its one command is waited for, the injected faults are in range and name
    members, the request counts add up, at most 300 samples are kept, and once
    it is closing every process that is left has been killed.  None of the
    operations panics.  [New] itself returns a lab whose members all run, or
    closes what it has started. *)
Theorem lab_invariant cfg a :
  match New cfg a with
  | None => False
  | Some (inl (_, None)) => True
  | Some (inl (_, Some m)) => lab_wf m ∧ mg_closing m = true
  | Some (inr m0) =>
    (lc_Nodes cfg = 3 ∨ lc_Nodes cfg = 5) ∧ (∀ n, n ∈ lab_members cfg → runs m0 (mb_ID n)) ∧
    ∀ ops, ∃ m, run_ops marshal_error json_valid ops m0 = Some (tt, m) ∧ lab_wf m
  end.
Proof.
  pose proof (New_starts cfg a) as H. destruct (New cfg a) as [[[err [m|]]|m0]|]; [done..| |done].
  destruct H as (Hn&Hr&H). split; [done|]. split; [done|]. intros ops.
  pose proof (run_ops_wf marshal_error json_valid ops m0 H) as Ho. apply wp_total in Ho as ([]&m'&Ho&Hm'). by exists m'.
Qed.

End claims.

(** ** A lab for the examples *)

Definition ex_config : LabConfig := mkLabConfig 3 8000 "lab" "node".

Definition ex_start : start_answer := mkStartAnswer None (λ _ _ _, inr 4711) 0.

(** An encoding of memberships that evaluates. *)
Definition flat_membership (mm : Membership) : error + string :=
  inr (String.concat "|" (mm_ClusterID mm :: (mm_Peers mm ≫= λ p, [p_ID p; p_PeerURL p; p_ClientURL p]))).

Definition ex_answer_new : new_answer :=
  mkNewAnswer (λ _, None) None (inr "token") flat_membership (λ _ _, None) (λ _, None) (λ _, ex_start) (λ _, None).

(** It starts, with three running members. *)
Example ex_new :
  match New ex_config ex_answer_new with
  | Some (inr m) => (λ n, (mb_ID n, mb_ClientURL n, mb_cmd n, mb_running n)) <$> mg_members m =
      [("node-1", "http://127.0.0.1:8101", Some 0%nat, true); ("node-2", "http://127.0.0.1:8102", Some 1%nat, true);
       ("node-3", "http://127.0.0.1:8103", Some 2%nat, true)]
  | _ => False
  end.
Proof. vm_compute. reflexivity. Qed.
