(* ===== verification/LabViews.v ===== *)
(** * LabViews: what the lab's dashboard is told

    The snapshot and its convergence flag, and the event stream that the polls of
    the nodes put together. *)

From Stdlib Require Import Strings.Ascii Strings.String.
From stdpp Require Import base numbers list gmap strings fin_maps pretty sorting options.
From S2P Require Import Prelude Effects StateMachine Events Node Lab LabProps.

Local Open Scope Z_scope.
#[local] Set Default Proof Using "Type*".
Local Notation L := (M Manager).

(** ** The snapshot *)

(** A member's last view agrees with an applied index and a state hash. *)
Definition agrees (m : Manager) (applied : N) (hash : string) (n : Member) : bool :=
  let v := view_of m (mb_ID n) in
  nv_Online v && view_healthy v && (view_applied v =? applied)%N && bool_decide (view_hash v = hash).

Lemma agrees_shown m applied hash n : agrees m applied hash n =
  nv_Online (shown_view m n) && view_healthy (shown_view m n) &&
  (view_applied (shown_view m n) =? applied)%N && bool_decide (view_hash (shown_view m n) = hash).
Proof. done. Qed.

Lemma converge_rest m hash applied ns i b :
  converge (shown_view m <$> ns) (S i) hash applied b = b && forallb (agrees m applied hash) ns.
Proof.
  revert i b. induction ns as [|n ns IH]; intros i b; [by rewrite andb_true_r|].
  rewrite fmap_cons. cbn [converge forallb]. rewrite IH, andb_assoc. f_equal. rewrite agrees_shown.
  rewrite bool_decide_not.
  by destruct b, (nv_Online _), (view_healthy _), (_ =? _)%N, (bool_decide (view_hash _ = hash)).
Qed.

Lemma observe_rest m r0 rs ns t b :
  ob_Matched (observe m ns (mkObservation t b (r0 :: rs))) =
  b && forallb (agrees m (ro_Applied r0) (ro_Hash r0)) ns.
Proof.
  revert rs b. induction ns as [|n ns IH]; intros rs b; [by rewrite andb_true_r|].
  cbn [observe forallb ob_Replicas ob_Time ob_Matched]. rewrite <-app_comm_cons, IH, andb_assoc. done.
Qed.

Lemma observed_converged now m :
  converge (shown_view m <$> mg_members m) 0 "" 0%N true = ob_Matched (observationLocked now m).
Proof.
  unfold observationLocked. destruct (mg_members m) as [|n ns]; [done|].
  rewrite fmap_cons. cbn [converge observe app ob_Replicas ob_Time ob_Matched].
  rewrite converge_rest, observe_rest. f_equal.
  unfold replica_matches. rewrite N.eqb_refl, bool_decide_eq_true_2 by done. cbn [replica_of ro_Online ro_Healthy].
  change (nv_Online (shown_view m n)) with (nv_Online (view_of m (mb_ID n))).
  change (view_healthy (shown_view m n)) with (sx_Healthy (in_Status (nv_Inspection (view_of m (mb_ID n))))).
  by destruct (nv_Online _), (sx_Healthy _).
Qed.

Lemma converge_iff m :
  converge (shown_view m <$> mg_members m) 0 "" 0%N true = true ↔
  ∃ applied hash, ∀ n, n ∈ mg_members m → agrees m applied hash n = true.
Proof.
  destruct (mg_members m) as [|n ns].
  { split; [|done]. intros _. exists 0%N, "". intros n []%not_elem_of_nil. }
  rewrite fmap_cons. cbn [converge]. rewrite converge_rest, andb_true_iff, forallb_forall. split.
  - intros [Hn Hns]. exists (view_applied (shown_view m n)), (view_hash (shown_view m n)).
    intros x [->|Hx]%elem_of_cons; [|by apply Hns, list_elem_of_In].
    rewrite agrees_shown, N.eqb_refl, bool_decide_eq_true_2 by done.
    by destruct (nv_Online _), (view_healthy _).
  - intros (applied&hash&Hall). pose proof (Hall n (list_elem_of_here _ _)) as Hn. rewrite agrees_shown in Hn.
    apply andb_true_iff in Hn as [[Hn Ha%N.eqb_eq]%andb_true_iff Hh%bool_decide_eq_true]. rewrite Ha, Hh. split.
    + apply andb_true_iff in Hn as [-> ->]. done.
    + intros x Hx%list_elem_of_In. apply Hall. by right.
Qed.

Lemma sorted_le l i j x y :
  StronglySorted Z.le l → (i ≤ j)%nat → l !! i = Some x → l !! j = Some y → x ≤ y.
Proof.
  intros Hs. revert i j. induction Hs as [|z l Hs IH Hz]; intros i j Hij Hi Hj; [done|].
  destruct i as [|i], j as [|j]; cbn in *; simplify_eq; [lia| |lia|].
  - rewrite Forall_forall in Hz. apply Hz. by eapply list_elem_of_lookup_2.
  - apply (IH i j); [lia|done|done].
Qed.

Lemma percentiles_in (l : list Z) : l ≠ [] →
  ∃ p50 p95, merge_sort Z.le l !! ((length (merge_sort Z.le l) - 1) / 2)%nat = Some p50 ∧
    percentile 95 (merge_sort Z.le l) = Some p95 ∧ p50 ∈ l ∧ p95 ∈ l ∧ p50 ≤ p95.
Proof.
  intros Hl. unfold percentile. pose proof (merge_sort_Permutation Z.le l) as Hp.
  pose proof (StronglySorted_merge_sort Z.le l) as Hs. set (sl := merge_sort Z.le l) in *.
  assert (length sl ≠ 0%nat) as Hlen by (rewrite Hp; by destruct l).
  assert (length sl - 1 < length sl)%nat as Hk by lia. set (k := (length sl - 1)%nat) in *.
  assert (k / 2 ≤ k * 95 / 100)%nat as Hle.
  { clearbody k. destruct k as [|[|k']]; [apply Nat.le_0_l..|]. apply Nat.div_le_lower_bound; [lia|].
    pose proof (Nat.div_mod_eq (S (S k')) 2). pose proof (Nat.mod_upper_bound (S (S k')) 2). lia. }
  assert (k * 95 / 100 ≤ k)%nat as Hub by (apply Nat.Div0.div_le_upper_bound; lia).
  destruct (lookup_lt_is_Some_2 sl (k / 2)) as [p50 H50]; [lia|].
  destruct (lookup_lt_is_Some_2 sl (k * 95 / 100)) as [p95 H95]; [lia|].
  exists p50, p95. split; [done|]. split; [done|].
  split; [rewrite <-Hp; by eapply list_elem_of_lookup_2|].
  split; [rewrite <-Hp; by eapply list_elem_of_lookup_2|]. exact (sorted_le sl _ _ p50 p95 Hs Hle H50 H95).
Qed.

Lemma latency_percentiles_spec me samples :
  ∃ p, latency_percentiles me samples = Some p ∧
    (samples ≠ [] → p.1 ≤ p.2 ∧ p.1 ∈ sa_us <$> samples ∧ p.2 ∈ sa_us <$> samples).
Proof.
  unfold latency_percentiles. cbv zeta. case_bool_decide as E.
  - eexists. split; [done|]. intros Hs. exfalso. apply (f_equal length) in E.
    rewrite merge_sort_Permutation in E. by destruct samples.
  - destruct (percentiles_in (sa_us <$> samples)) as (p50&p95&->&->&Hin50&Hin95&Hle).
    + intros Hs. apply E. by rewrite Hs.
    + by exists (p50, p95).
Qed.

(** What the dashboard is shown: [Snapshot] returns and changes nothing, one view
    per member, without its events; the flag, its sentence and the observation
    taken beside it agree; it is set exactly when every node is online, healthy
    and at one applied index and state hash; and the latencies are samples in
    their order. *)
Theorem snapshot_consistent now m :
  ∃ s, Snapshot now m = Some (s, m) ∧
    nv_ID <$> ls_Nodes s = mb_ID <$> mg_members m ∧ Forall (λ v, in_Events (nv_Inspection v) = []) (ls_Nodes s) ∧
    ls_Converged s = ob_Matched (ls_Observed s) ∧
    (ls_Converged s = true ↔ ∃ applied hash, ∀ n, n ∈ mg_members m → agrees m applied hash n = true) ∧
    (mg_samples m ≠ [] → me_P50 (ls_Metrics s) ≤ me_P95 (ls_Metrics s) ∧
       me_P50 (ls_Metrics s) ∈ sa_us <$> mg_samples m ∧ me_P95 (ls_Metrics s) ∈ sa_us <$> mg_samples m).
Proof.
  destruct (latency_percentiles_spec (mg_metrics m) (mg_samples m)) as (p&Hp&Hps).
  unfold Snapshot, get, lift, mbind, M_bind. rewrite Hp. eexists. split; [reflexivity|].
  cbn [ls_Nodes ls_Converged ls_Observed ls_Metrics me_P50 me_P95].
  split; [by rewrite <-list_fmap_compose|]. split; [by apply Forall_fmap, Forall_forall|].
  split; [apply observed_converged|]. split; [apply converge_iff|done].
Qed.

(** ** The event stream *)

(** What the node's buffer of [cap] events shows after its first [n] events. *)
Definition buffered (cap : Z) (es : list Event) (n : nat) : list Event :=
  After 0 (publish_all (take n es) (NewBuffer cap)).

(** An answer of a node during one boot, with the number of its events so far. *)
Record poll_answer := mkPollAnswer {
  pa_now : Z;
  pa_inspection : option (nat * Inspection);
}.

Definition answers (boot : string) (cap : Z) (es : list Event) (p : poll_answer) : Prop :=
  match pa_inspection p with
  | Some (n, i) => (n ≤ length es)%nat ∧ in_BootID i = boot ∧ in_Events i = buffered cap es n
  | None => True
  end.

Definition poll_with (id : string) (p : poll_answer) : L unit :=
  poll_member (pa_now p) id (snd <$> pa_inspection p).

(** What the polls pass on after the first [k] events, and the gaps they see. *)
Fixpoint passed_on (cap : nat) (es : list Event) (k : nat) (ps : list poll_answer) : list Event :=
  match ps with
  | [] => []
  | p :: ps =>
    match pa_inspection p with
    | Some (n, _) => drop (Nat.max k (n - cap)) (number 0 (take n es)) ++ passed_on cap es n ps
    | None => passed_on cap es k ps
    end
  end.

Fixpoint gaps_seen (cap : nat) (k : nat) (ps : list poll_answer) : Z :=
  match ps with
  | [] => 0
  | p :: ps =>
    match pa_inspection p with
    | Some (n, _) => (if (0 <? k)%nat && (k <? n - cap)%nat then 1 else 0) + gaps_seen cap n ps
    | None => gaps_seen cap k ps
    end
  end.

(** The polls come in the order of the events: from [k] on, and up to the last. *)
Fixpoint in_order (k : nat) (ps : list poll_answer) : Prop :=
  match ps with
  | [] => True
  | p :: ps => match pa_inspection p with Some (n, _) => (k ≤ n)%nat ∧ in_order n ps | None => in_order k ps end
  end.

Fixpoint events_seen (k : nat) (ps : list poll_answer) : nat :=
  match ps with
  | [] => k
  | p :: ps => events_seen (match pa_inspection p with Some (n, _) => n | None => k end) ps
  end.

(** How far the lab has followed a boot of a node. *)
Definition followed (m : Manager) (id boot : string) : N :=
  let old := nv_Inspection (view_of m id) in
  if bool_decide (in_BootID old = boot) && bool_decide (in_Events old ≠ []) then last_id (in_Events old) else 0%N.

Lemma for_each_publish (k : N) es m :
  wp False (for_each (λ e, when (k <? ev_ID e)%N (publish e)) es)
    (λ _ m', let new := filter (λ e, (k < ev_ID e)%N) es in
       mg_events m' = publish_all new (mg_events m) ∧
       mg_timeline m' = publish_all (filter (λ e, on_timeline (ev_Type e) = true) new) (mg_timeline m) ∧
       mg_eventGaps m' = mg_eventGaps m ∧ mg_views m' = mg_views m) m.
Proof.
  revert m. induction es as [|e es IH]; intros m; [by apply wp_ret|].
  apply wp_bind. apply wp_when; intros Hk; [apply N.ltb_lt in Hk|apply N.ltb_ge in Hk].
  - rewrite filter_cons_True by done. unfold publish. apply wp_bind, wp_modify, wp_when; intros Ht.
    + apply wp_modify. eapply wp_mono; [apply IH|]. cbn beta zeta. intros _ m' (->&->&->&->).
      by rewrite (filter_cons_True (λ e, on_timeline (ev_Type e) = true)) by done.
    + eapply wp_mono; [apply IH|]. cbn beta zeta. intros _ m' (->&->&->&->).
      by rewrite (filter_cons_False (λ e, on_timeline (ev_Type e) = true)) by congruence.
  - rewrite filter_cons_False by lia. apply IH.
Qed.

Lemma buffered_spec cap es n : (lenN es < two64)%N → (n ≤ length es)%nat →
  buffered cap es n = drop (n - Z.to_nat (Z.max 1 cap)) (number 0 (take n es)).
Proof.
  intros Hes Hn. unfold buffered. assert (length (take n es) = n) as Hl by (rewrite length_take; lia).
  destruct (After_complete cap (take n es) 0) as [_ H]; [unfold lenN in *; rewrite Hl; lia|lia|].
  by rewrite H, Hl.
Qed.

Lemma buffered_after cap es n k : (lenN es < two64)%N → (n ≤ length es)%nat → (k ≤ n)%nat →
  filter (λ e, (N.of_nat k < ev_ID e)%N) (buffered cap es n) =
  drop (Nat.max k (n - Z.to_nat (Z.max 1 cap))) (number 0 (take n es)).
Proof.
  intros Hes Hn Hk. assert (length (take n es) = n) as Hl by (rewrite length_take; lia).
  destruct (After_complete cap (take n es) (N.of_nat k)) as [_ H]; [unfold lenN in *; rewrite Hl; lia|unfold lenN; lia|].
  rewrite Hl, Nat2N.id in H. rewrite <-H. unfold buffered, After. rewrite list_filter_filter.
  apply list_filter_iff. intros e. lia.
Qed.

(** The numbers of the first and the last event that are shown. *)
Lemma buffered_ids cap es n : (lenN es < two64)%N → (n ≤ length es)%nat → (0 < n)%nat →
  buffered cap es n ≠ [] ∧ last_id (buffered cap es n) = N.of_nat n ∧
  match buffered cap es n with e :: _ => ev_ID e = N.of_nat (n - Z.to_nat (Z.max 1 cap)) + 1 | [] => False end%N.
Proof.
  intros Hes Hn Hpos. rewrite buffered_spec by done. set (c := Z.to_nat (Z.max 1 cap)).
  assert (length (take n es) = n) as Hl by (rewrite length_take; lia).
  assert (∀ i e, drop (n - c) (number 0 (take n es)) !! i = Some e → ev_ID e = N.of_nat (n - c + i) + 1)%N as Hid.
  { intros i e H. rewrite lookup_drop in H. apply number_lookup in H. lia. }
  set (l := drop _ _) in *. assert (length l = n - (n - c))%nat as Hll.
  { unfold l. by rewrite length_drop, length_number, Hl. }
  assert (1 ≤ c)%nat as Hc by lia. clearbody l c. destruct l as [|e l]; [cbn in Hll; lia|].
  split; [done|]. split; [|by rewrite (Hid 0%nat e eq_refl), Nat.add_0_r].
  unfold last_id. rewrite last_lookup. destruct ((e :: l) !! _) as [x|] eqn:Hx.
  - rewrite (Hid _ x Hx), Hll. lia.
  - apply lookup_ge_None in Hx. rewrite Hll in Hx. lia.
Qed.

Lemma followed_set m m' id boot v : mg_views m' = <[id := v]> (mg_views m) → in_BootID (nv_Inspection v) = boot →
  followed m' id boot = if bool_decide (in_Events (nv_Inspection v) ≠ []) then last_id (in_Events (nv_Inspection v)) else 0%N.
Proof.
  intros Hv Hb. unfold followed, view_of. rewrite Hv, lookup_insert_eq. cbn [default]. by rewrite bool_decide_eq_true_2.
Qed.

(** One poll that is answered. *)
Lemma poll_step cap es now id boot k n i m :
  (lenN es + 1 < two64)%N → followed m id boot = N.of_nat k → (k ≤ n)%nat → (n ≤ length es)%nat →
  in_BootID i = boot → in_Events i = buffered cap es n →
  let c := Z.to_nat (Z.max 1 cap) in
  let new := drop (Nat.max k (n - c)) (number 0 (take n es)) in
  wp False (poll_member now id (Some i)) (λ _ m',
    mg_events m' = publish_all new (mg_events m) ∧
    mg_timeline m' = publish_all (filter (λ e, on_timeline (ev_Type e) = true) new) (mg_timeline m) ∧
    mg_eventGaps m' = mg_eventGaps m + (if (0 <? k)%nat && (k <? n - c)%nat then 1 else 0) ∧
    followed m' id boot = N.of_nat n) m.
Proof.
  intros Hes' Hk Hkn Hn Hb Hi c new. assert (lenN es < two64)%N as Hes by lia. unfold poll_member. apply wp_bind, wp_get.
  assert ((if bool_decide (in_BootID (nv_Inspection (view_of m id)) = in_BootID i) &&
             bool_decide (in_Events (nv_Inspection (view_of m id)) ≠ [])
           then last_id (in_Events (nv_Inspection (view_of m id))) else 0) = N.of_nat k)%N as -> by (by rewrite Hb).
  assert ((bool_decide (in_Events i ≠ []) && (0 <? N.of_nat k) &&
    (add64 (N.of_nat k) 1 <? match in_Events i with e :: _ => ev_ID e | [] => 0 end))%N =
    (0 <? k)%nat && (k <? n - c)%nat) as ->.
  { rewrite Hi. destruct (Nat.ltb_spec 0 k) as [Hk0|Hk0].
    - destruct (buffered_ids cap es n) as (Hne&_&Hf); [done|done|lia|].
      rewrite bool_decide_eq_true_2 by done. destruct (buffered cap es n) as [|e l]; [done|]. rewrite Hf. fold c.
      rewrite add64_small by (unfold lenN in *; lia). assert (0 <? N.of_nat k = true)%N as -> by (apply N.ltb_lt; lia).
      cbn [andb]. destruct (Nat.ltb_spec k (n - c)); [apply N.ltb_lt|apply N.ltb_ge]; lia.
    - replace k with 0%nat by lia. by rewrite andb_false_r. }
  apply wp_bind.
  set (m1 := if (0 <? k)%nat && (k <? n - c)%nat then ms_eventGaps (mg_eventGaps m + 1) m else m).
  assert (mg_events m1 = mg_events m ∧ mg_timeline m1 = mg_timeline m ∧
    mg_eventGaps m1 = mg_eventGaps m + (if (0 <? k)%nat && (k <? n - c)%nat then 1 else 0)) as (E1&E2&E3).
  { unfold m1. destruct (_ && _); cbn; split_and!; try done; lia. }
  rewrite <-E1, <-E2, <-E3. clear E1 E2 E3.
  assert (wp False (when ((0 <? k)%nat && (k <? n - c)%nat) (modify (λ m, ms_eventGaps (mg_eventGaps m + 1) m)))
    (λ _ m', m' = m1) m) as Hw by (unfold m1; apply wp_when; intros ->; [by apply wp_modify|done]).
  eapply wp_mono; [exact Hw|]. cbn beta. intros _ ? ->. apply wp_bind.
  eapply wp_mono; [apply for_each_publish|]. cbn beta zeta. intros _ m2 (H1&H2&H3&H4).
  rewrite Hi, (buffered_after cap es n k) in H1, H2 by done. fold c new in H1, H2.
  unfold set_view. apply wp_modify. split; [done|]. split; [done|]. split; [done|].
  rewrite (followed_set m2 _ id boot (mkNodeView i id true
    match find_member id m with Some x => mb_running x | None => false end now)) by done.
  cbn [nv_Inspection]. rewrite Hi. destruct (decide (0 < n)%nat) as [Hn0|Hn0].
  - destruct (buffered_ids cap es n) as (Hne&Hl&_); [done|done|done|]. by rewrite bool_decide_eq_true_2.
  - replace n with 0%nat by lia. rewrite buffered_spec by (done || lia). by rewrite bool_decide_eq_false_2 by (intros []; done).
Qed.

(** A poll that is not answered. *)
Lemma poll_lost now id boot m :
  wp False (poll_member now id None) (λ _ m', mg_events m' = mg_events m ∧ mg_timeline m' = mg_timeline m ∧
    mg_eventGaps m' = mg_eventGaps m ∧ followed m' id boot = followed m id boot) m.
Proof.
  unfold poll_member. apply wp_bind, wp_get, wp_modify. do 3 (split; [done|]).
  unfold followed, view_of. cbn. rewrite lookup_insert_eq. by destruct (mg_views m !! id).
Qed.

Lemma publish_all_app es1 es2 b : publish_all (es1 ++ es2) b = publish_all es2 (publish_all es1 b).
Proof. apply fold_left_app. Qed.

Lemma gaps_seen_nonneg c k ps : 0 ≤ gaps_seen c k ps.
Proof.
  revert k. induction ps as [|[? [[n ?]|]] ps IH]; intros k; cbn [gaps_seen pa_inspection]; [done| |apply IH].
  pose proof (IH n). destruct (_ && _); lia.
Qed.

Lemma events_seen_le k ps : in_order k ps → (k ≤ events_seen k ps)%nat.
Proof.
  revert k. induction ps as [|[? [[n ?]|]] ps IH]; intros k Ho; cbn in *; [done| |by apply IH].
  destruct Ho as [? Ho]. pose proof (IH _ Ho). lia.
Qed.

(** Without a gap, what is passed on is all that is new. *)
Lemma no_gap_complete boot cap c es k ps :
  Forall (answers boot cap es) ps → in_order k ps → (0 < k)%nat → gaps_seen c k ps = 0 →
  passed_on c es k ps = drop k (number 0 (take (events_seen k ps) es)).
Proof.
  intros Ha. revert k. induction Ha as [|[now [[n i]|]] ps Hp Ha IH]; intros k Ho Hk Hg;
    cbn [passed_on gaps_seen events_seen pa_inspection] in *.
  - symmetry. apply drop_ge. rewrite length_number, length_take. lia.
  - destruct Hp as (Hn&_&_), Ho as [Hkn Ho]. pose proof (gaps_seen_nonneg c n ps).
    destruct (Nat.ltb_spec 0 k); [|lia]. destruct (Nat.ltb_spec k (n - c)); cbn in Hg; [lia|].
    rewrite Nat.max_l by lia. rewrite (IH n Ho ltac:(lia) Hg).
    rewrite <-(take_drop n (take (events_seen n ps) es)), take_take, Nat.min_l by (by apply events_seen_le).
    rewrite number_app. assert (length (number 0 (take n es)) = n) as Hl by (rewrite length_number, length_take; lia).
    rewrite (drop_app_le _ _ k), (drop_app_ge _ _ n) by lia. by rewrite Hl, Nat.sub_diag.
  - by apply IH.
Qed.

(** One boot of a node is followed by any sequence of polls, some of which get no
    answer: what is published to the dashboard are the node's events in order,
    each once, from the first that is not yet followed, and every skip of events
    that the node's buffer no longer held is counted.  If the buffer held on to
    them each time, then nothing is missing. *)
Theorem poll_follows cap es id boot k ps m :
  (lenN es + 1 < two64)%N → followed m id boot = N.of_nat k → in_order k ps → Forall (answers boot cap es) ps →
  let c := Z.to_nat (Z.max 1 cap) in
  let new := passed_on c es k ps in
  wp False (for_each (poll_with id) ps) (λ _ m',
    mg_events m' = publish_all new (mg_events m) ∧
    mg_timeline m' = publish_all (filter (λ e, on_timeline (ev_Type e) = true) new) (mg_timeline m) ∧
    mg_eventGaps m' = mg_eventGaps m + gaps_seen c k ps ∧ followed m' id boot = N.of_nat (events_seen k ps)) m ∧
  ((0 < k)%nat → gaps_seen c k ps = 0 → new = drop k (number 0 (take (events_seen k ps) es))).
Proof.
  intros Hes Hk Ho Ha c. cbv zeta. split.
  - revert k m Hk Ho. induction Ha as [|[now [[n i]|]] ps Hp Ha IH]; intros k m Hk Ho; cbn [for_each passed_on gaps_seen events_seen] in *.
    + apply wp_ret. by rewrite Z.add_0_r.
    + destruct Hp as (Hn&Hb&Hi), Ho as [Hkn Ho]. apply wp_bind. eapply wp_mono.
      { apply (poll_step cap es now id boot k n i m); done. }
      cbn beta zeta. fold c. intros _ m1 (H1&H2&H3&H4). eapply wp_mono; [apply (IH n m1 H4 Ho)|].
      cbn beta. intros _ m2 (->&->&->&->). rewrite H1, H2, H3. cbn [pa_inspection].
      rewrite publish_all_app, filter_app, publish_all_app, Z.add_assoc. done.
    + apply wp_bind. eapply wp_mono; [apply (poll_lost now id boot m)|]. cbn beta. intros _ m1 (H1&H2&H3&H4).
      eapply wp_mono; [apply (IH k m1); [congruence|done]|]. cbn beta. intros _ m2. by rewrite H1, H2, H3.
  - intros Hk0 Hg. by eapply no_gap_complete.
Qed.

(** ** A round of polls *)

(** The view that a poll leaves of a member. *)
Definition polled_view (now : Z) (m : Manager) (id : string) (answer : option Inspection) : NodeView :=
  let prior := view_of m id in
  let running := match find_member id m with Some n => mb_running n | None => false end in
  match answer with
  | None => mkNodeView (nv_Inspection prior) id false running (nv_SeenAt prior)
  | Some inspect => mkNodeView inspect id true running now
  end.

Lemma poll_member_view now id answer m :
  wp False (poll_member now id answer) (λ _ m',
    mg_views m' = <[id := polled_view now m id answer]> (mg_views m) ∧ mg_members m' = mg_members m) m.
Proof.
  unfold poll_member, polled_view. apply wp_bind, wp_get. destruct answer as [i|]; [|by apply wp_modify].
  cbv zeta. match goal with |- context [if ?b then last_id ?es else 0%N] => set (last := if b then last_id es else 0%N) end. apply wp_bind.
  eapply (wp_mono False _ (λ _ m1, mg_views m1 = mg_views m ∧ mg_members m1 = mg_members m)).
  { by apply wp_when; [intros _; apply wp_modify|]. }
  intros _ m1 [V1 M1]. apply wp_bind.
  eapply (wp_mono False _ (λ _ m2, mg_views m2 = mg_views m1 ∧ mg_members m2 = mg_members m1)).
  { set (es := in_Events i). clearbody es. clear V1 M1. revert m1.
    induction es as [|e es IH]; intros m1; [by apply wp_ret|]. apply wp_bind.
    eapply (wp_mono False _ (λ _ m2, mg_views m2 = mg_views m1 ∧ mg_members m2 = mg_members m1)).
    { apply wp_when; [intros _|done]. unfold publish. apply wp_bind, wp_modify. by apply wp_when; [intros _; apply wp_modify|]. }
    intros _ m2 [<- <-]. apply IH. }
  intros _ m2 [V2 M2]. unfold set_view. apply wp_modify. cbn. by rewrite V2, V1, M2, M1.
Qed.

(** In whatever order the answers of a round arrive, each member's view is its own:
    of one that answered the new inspection, of one that did not the last one,
    marked as offline; and nobody else's view changes. *)
Theorem poll_round decode now answers order m :
  NoDup (mb_ID <$> order) →
  wp False (poll decode now answers order) (λ _ m',
    (∀ n, n ∈ order → let id := mb_ID n in
       view_of m' id = polled_view (now id) m id (inspected decode (answers id))) ∧
    (∀ id, id ∉ mb_ID <$> order → view_of m' id = view_of m id) ∧ mg_members m' = mg_members m) m.
Proof.
  unfold poll. revert m. induction order as [|n order IH]; intros m Hnd; cbn [for_each].
  { apply wp_ret. split_and!; [|done|done]. intros n Hn. by apply not_elem_of_nil in Hn. }
  rewrite fmap_cons in Hnd. apply NoDup_cons in Hnd as [Hn Hnd]. apply wp_bind.
  eapply wp_mono; [apply poll_member_view|]. cbn beta. intros _ m1 [V1 M1].
  eapply wp_mono; [by apply IH|]. cbn beta. intros _ m2 (H1&H2&H3).
  assert (∀ id, id ≠ mb_ID n → view_of m1 id = view_of m id) as Hother.
  { intros id Hid. unfold view_of. by rewrite V1, lookup_insert_ne. }
  split; [|split; [|by rewrite H3]].
  - intros n' [->|Hn']%elem_of_cons; cbv zeta.
    + rewrite H2 by done. unfold view_of at 1. by rewrite V1, lookup_insert_eq.
    + rewrite (H1 n' Hn'). assert (mb_ID n' ≠ mb_ID n) as Hne.
      { intros E. apply Hn. rewrite <-E. by apply list_elem_of_fmap_2. }
      unfold polled_view, find_member. by rewrite M1, Hother.
  - intros id Hid. rewrite fmap_cons in Hid. apply not_elem_of_cons in Hid as [Hid1 Hid2].
    rewrite H2 by done. by apply Hother.
Qed.

(** ** Witness *)

(** Three events, of which the node keeps two. *)
Definition ex_events : list Event := [ex_event; ex_event; ex_event].

Definition ex_answer (n : nat) : poll_answer :=
  mkPollAnswer 0 (Some (n, mkInspection zeroStatus "boot" "" [] (buffered 2 ex_events n))).

Lemma poll_follows_witness :
  wp False (for_each (poll_with "node-1") [ex_answer 1; mkPollAnswer 0 None; ex_answer 3])
    (λ _ m', mg_events m' = publish_all (number 0 ex_events) (NewBuffer 400) ∧ mg_eventGaps m' = 0)
    (empty_manager ex_config "token").
Proof.
  eapply wp_mono.
  - refine (proj1 (poll_follows 2 ex_events "node-1" "boot" 0 [ex_answer 1; mkPollAnswer 0 None; ex_answer 3]
      (empty_manager ex_config "token") _ _ _ _)).
    + vm_compute. reflexivity.
    + reflexivity.
    + cbn. lia.
    + repeat constructor; cbn; lia.
  - cbn beta zeta. intros _ m' (H1&_&H2&_). rewrite H1, H2. split; [f_equal|]; vm_compute; reflexivity.
Defined.
