(* ===== verification/LabProxy.v ===== *)
(** * LabProxy: the faults that the lab's peer proxies inject

    Partitions, the loss rate, and that a proxy without faults is not there. *)

From Stdlib Require Import Strings.Ascii Strings.String.
From stdpp Require Import base numbers list gmap strings fin_maps pretty options.
From S2P Require Import Prelude Effects StateMachine Events Node Urls Http Lab LabProps.

Local Open Scope Z_scope.
#[local] Set Default Proof Using "Type*".
Local Notation L := (M Manager).

(** ** Partitions *)

Section proxy.
Context `{HU : URLs} (now : Z) (wait : Z → L bool) (do_http : HttpRequest → reader → L (error + Reply)).

(** A network that must not be used across a partition. *)
Definition guarded (from target : string) (req : HttpRequest) (body : reader) : L (error + Reply) :=
  m ← get;
  if cut_off m from target then panic else do_http req body.

Lemma bind_ext {A B} (x : L A) (f g : A → L B) m :
  (∀ a m', x m = Some (a, m') → f a m' = g a m') → (x ≫= f) m = (x ≫= g) m.
Proof. unfold mbind, M_bind. destruct (x m) as [[a m']|]; [auto|done]. Qed.

Lemma ret_inv {A} (a b : A) (m m' : Manager) : (mret a : L A) m = Some (b, m') → a = b ∧ m = m'.
Proof. intros H. unfold mret, M_ret in H. by simplify_eq. Qed.

Lemma forward_guarded target r m :
  proxy_forward (guarded (px_From r) (mb_ID target)) target r m = proxy_forward do_http target r m.
Proof.
  unfold proxy_forward, guarded, get, mbind, M_bind. destruct (cut_off m _ _) eqn:Hc; [done|].
  destruct (NewRequest _ _ _); [done|]. by rewrite Hc.
Qed.

Lemma proxy_guarded target r m :
  proxy now wait (guarded (px_From r) (mb_ID target)) target r m = proxy now wait do_http target r m.
Proof.
  unfold proxy. destruct (_ || _); [done|]. apply bind_ext. intros [[[known drop] blocked] delay] m1 _.
  destruct (negb known); [done|]. destruct (_ || _); [done|].
  destruct (0 <? delay); [|apply forward_guarded]. apply bind_ext. intros [] m2 _.
  apply bind_ext. intros [] m3 _; [apply forward_guarded|done].
Qed.

(** A reply is passed on by [proxy_forward] only where the partition allows it. *)
Lemma forward_reply target r m status body m' :
  proxy_forward do_http target r m = Some (PxReply status body, m') → cut_off m' (px_From r) (mb_ID target) = false.
Proof.
  unfold proxy_forward, get, mbind, M_bind. destruct (cut_off m _ _); [done|].
  destruct (NewRequest _ _ _); [done|]. destruct (do_http _ _ _) as [[[|rep] m1]|]; [done| |done].
  destruct (cut_off m1 _ _) eqn:Hc; [done|]. intros H. unfold mret, M_ret in H. by simplify_eq.
Qed.

(** C34. Partitions: a proxy uses the network only while neither end is isolated (a
    network that must not be used across a partition serves it as well), a reply
    is passed on only if that still holds after it has come, and a message that
    arrives during a partition is answered without the network, counted as a
    packet and, if its sender is a member, shown as dropped. *)
Theorem proxy_partition target r m :
  proxy now wait (guarded (px_From r) (mb_ID target)) target r m = proxy now wait do_http target r m ∧
  (∀ status body m', proxy now wait do_http target r m = Some (PxReply status body, m') →
     cut_off m' (px_From r) (mb_ID target) = false) ∧
  (cut_off m (px_From r) (mb_ID target) = true →
     let m1 := ms_packet (add64 (mg_packet m) 1) m in
     proxy now wait do_http target r m =
       if bool_decide (px_Method r ≠ "POST") ||
          negb (bool_decide (px_Path r = "/raft/vote") || bool_decide (px_Path r = "/raft/append"))
       then Some (PxStatus 404, m)
       else if find_member (px_From r) m
       then Some (PxLost, ms_events (Publish (proxy_event now (px_From r) (mb_ID target) "MESSAGE_DROPPED"
                                       (px_Message r)) (mg_events m)) m1)
       else Some (PxStatus 403, m1)).
Proof.
  split; [apply proxy_guarded|]. unfold proxy.
  destruct (_ || _) eqn:Hr; [split; [by intros ??? [? _]%ret_inv|done]|]. clear Hr. split.
  - intros status body m'. unfold proxy_arrival, get, mbind, M_bind, modify. cbv zeta. cbn [mret M_ret].
    destruct (bool_decide (is_Some _)); cbn [negb]; [|by intros [? _]%ret_inv]. destruct (_ || _); [by intros [? _]%ret_inv|].
    destruct (0 <? _); [|apply forward_reply].
    destruct (wait _ _) as [[[] m1]|]; [apply forward_reply|by intros [? _]%ret_inv|done].
  - intros Hc. unfold proxy_arrival, get, mbind, M_bind, modify. cbv zeta. cbn [mret M_ret]. rewrite Hc.
    unfold bool_decide. by destruct (find_member (px_From r) m).
Qed.

(** ** Transparency *)

(** Without faults a proxy is not there: a member's message goes to the node under
    the same path, with all of its body that fits the limit, and the node's reply
    comes back. *)
Theorem proxy_transparent target r m req rep m' :
  px_Method r = "POST" → px_Path r = "/raft/vote" ∨ px_Path r = "/raft/append" →
  is_Some (find_member (px_From r) m) → mg_isolated m = ∅ → mg_delayMS m = 0 → mg_drop m = 0 →
  NewRequest "POST" ("http://" +:+ mb_PeerAddress target +:+ px_Path r) "" = inr req →
  do_http (set_header "Content-Type" "application/json" req) (MaxBytesReader 16777216 (px_Body r))
    (ms_packet (add64 (mg_packet m) 1) m) = Some (inr rep, m') →
  mg_isolated m' = ∅ →
  proxy now wait do_http target r m = Some (PxReply (rp_StatusCode rep) (LimitReader 1048576 (rp_Body rep)), m').
Proof.
  intros Hp Hpath Hf Hi Hd Hdr Hreq Hdo Hi'. unfold proxy. rewrite bool_decide_eq_false_2 by (intros C; by apply C).
  assert (bool_decide (px_Path r = "/raft/vote") || bool_decide (px_Path r = "/raft/append") = true) as ->.
  { apply orb_true_iff. by rewrite !bool_decide_eq_true. }
  unfold proxy_arrival, get, mbind, M_bind, modify. cbv zeta. cbn [mret M_ret orb negb].
  rewrite bool_decide_eq_true_2 by done. cbn [negb]. rewrite Hdr, Hd.
  assert (∀ m, mg_isolated m = ∅ → cut_off m (px_From r) (mb_ID target) = false) as Hcut.
  { intros m0 E. unfold cut_off. rewrite E. by rewrite !bool_decide_eq_false_2 by set_solver. }
  rewrite Hcut by done. assert ((add64 (mg_packet m) 1 mod 100 <? Z.to_N 0)%N = false) as -> by (apply N.ltb_ge, N.le_0_l).
  cbn [orb]. change (0 <? 0) with false. cbv iota.
  unfold proxy_forward, get, mbind, M_bind. rewrite Hcut by done. rewrite Hreq, Hdo. by rewrite Hcut.
Qed.

End proxy.

(** ** The loss rate *)

(** Messages that arrive one after the other, each with its sender and target:
    whether it is dropped for the rate. *)
Fixpoint arrivals (l : list (string * string)) : L (list bool) :=
  match l with
  | [] => mret []
  | (from, target) :: l =>
    '(_, drop, _, _) ← proxy_arrival from target;
    drops ← arrivals l;
    mret (drop :: drops)
  end.

(** How many of the [n] packets from number [p] on are dropped at a rate [d]. *)
Definition dropped (d p : N) (n : nat) : nat :=
  length (filter (λ i, (N.of_nat i mod 100 < d)%N) (seq (N.to_nat p) n)).

Lemma ms_packet_same m : ms_packet (mg_packet m) m = m.
Proof. by destruct m. Qed.

Lemma arrivals_spec l m : (mg_packet m + lenN l < two64)%N →
  ∃ drops, arrivals l m = Some (drops, ms_packet (mg_packet m + lenN l) m) ∧ length drops = length l ∧
    length (filter (λ b, b = true) drops) = dropped (Z.to_N (mg_drop m)) (mg_packet m + 1) (length l).
Proof.
  revert m. induction l as [|[from target] l IH]; intros m Hp.
  - exists []. split; [|done]. cbn. by rewrite N.add_0_r, ms_packet_same.
  - rewrite lenN_cons in *. assert (add64 (mg_packet m) 1 = mg_packet m + 1)%N as Ha by (apply add64_small; lia).
    destruct (IH (ms_packet (mg_packet m + 1) m)) as (drops&Hr&Hl&Hd); [cbn [ms_packet mg_packet]; lia|].
    exists ((((mg_packet m + 1) mod 100 <? Z.to_N (mg_drop m))%N) :: drops). split; [|split; [by cbn; rewrite Hl|]].
    + cbn [arrivals]. unfold proxy_arrival, get, modify, mbind, M_bind in *. cbv zeta. rewrite Ha.
      unfold mret at 1, M_ret at 1. cbv beta iota. rewrite Hr.
      by replace (mg_packet m + (lenN l + 1))%N with (mg_packet m + 1 + lenN l)%N by lia.
    + cbn in Hd. unfold dropped in *. cbn [seq length]. rewrite filter_cons, filter_cons, N2Nat.id.
      replace (S (N.to_nat (mg_packet m + 1))) with (N.to_nat (mg_packet m + 1 + 1)) by lia.
      destruct (N.ltb_spec ((mg_packet m + 1) mod 100) (Z.to_N (mg_drop m))).
      * rewrite decide_True, decide_True by done. cbn [length]. by rewrite Hd.
      * rewrite decide_False, decide_False by (done || lia). done.
Qed.

Definition drops_one (d p : N) : nat := if (p mod 100 <? d)%N then 1 else 0.

Lemma dropped_cons d p n : dropped d p (S n) = (drops_one d p + dropped d (p + 1) n)%nat.
Proof.
  unfold dropped, drops_one. cbn [seq]. rewrite filter_cons, N2Nat.id.
  replace (N.to_nat (p + 1)) with (S (N.to_nat p)) by lia.
  by destruct (N.ltb_spec (p mod 100) d); [rewrite decide_True by done|rewrite decide_False by lia].
Qed.

Lemma dropped_snoc d p n : dropped d p (S n) = (dropped d p n + drops_one d (p + N.of_nat n))%nat.
Proof.
  unfold dropped, drops_one. rewrite seq_S, filter_app, length_app. f_equal.
  replace (N.of_nat (N.to_nat p + n)) with (p + N.of_nat n)%N by lia.
  rewrite filter_cons, filter_nil. replace (N.of_nat (N.to_nat p + n)) with (p + N.of_nat n)%N by lia.
  by destruct (N.ltb_spec ((p + N.of_nat n) mod 100) d); [rewrite decide_True by done|rewrite decide_False by lia].
Qed.

(** A window of one hundred packets: sliding it changes nothing. *)
Lemma dropped_slide d p : dropped d (p + 1) 100 = dropped d p 100.
Proof.
  rewrite dropped_snoc, (dropped_cons d p 99). unfold drops_one.
  replace (p + 1 + N.of_nat 99)%N with (p + 1 * 100)%N by lia. rewrite N.Div0.mod_add. lia.
Qed.

Lemma dropped_window d p : (d ≤ 100)%N → dropped d p 100 = N.to_nat d.
Proof.
  intros Hd. induction p as [|p IH] using N.peano_ind.
  - unfold dropped. change (N.to_nat 0) with 0%nat.
    assert (∀ n, (n ≤ 100)%nat → length (filter (λ i, (N.of_nat i mod 100 < d)%N) (seq 0 n)) = Nat.min n (N.to_nat d)) as H.
    { induction n as [|n IHn]; intros Hn; [done|]. rewrite seq_S, filter_app, length_app, IHn by lia.
      cbn [Nat.add]. rewrite filter_cons, filter_nil, N.mod_small by lia. destruct (decide _); cbn [length]; lia. }
    rewrite H by lia. lia.
  - rewrite <-N.add_1_r, dropped_slide. exact IH.
Qed.

(** The loss rate is exact: of any one hundred messages that arrive one after the
    other, at whichever proxies, exactly [DropPercent] are dropped for it, as
    long as the packet counter does not wrap around. *)
Theorem drop_rate l m :
  length l = 100%nat → 0 ≤ mg_drop m ∧ mg_drop m ≤ 100 → (mg_packet m + 100 < two64)%N →
  ∃ drops m', arrivals l m = Some (drops, m') ∧ length drops = 100%nat ∧
    length (filter (λ b, b = true) drops) = Z.to_nat (mg_drop m) ∧ mg_packet m' = (mg_packet m + 100)%N.
Proof.
  intros Hl Hd Hp. assert (lenN l = 100%N) as Hn by (unfold lenN; by rewrite Hl).
  destruct (arrivals_spec l m) as (drops&Hr&Hlen&Hc); [by rewrite Hn|].
  exists drops, (ms_packet (mg_packet m + lenN l) m). split; [done|]. split; [congruence|]. split; [|by rewrite Hn].
  rewrite Hc, Hl, dropped_window by lia. lia.
Qed.

(** ** Witnesses *)

Definition ex_packet : proxy_request := mkProxyRequest "POST" "/raft/vote" "node-1" "m-1" (whole "{}").

Definition ex_lab : Manager := empty_manager ex_config "token".

Lemma drop_rate_witness :
  ∃ drops m', arrivals (replicate 100 ("node-1", "node-2")) (ms_faults ∅ 0 30 ex_lab) = Some (drops, m') ∧
    length drops = 100%nat ∧ length (filter (λ b, b = true) drops) = 30%nat ∧ mg_packet m' = 100%N.
Proof. apply (drop_rate (replicate 100 ("node-1", "node-2")) (ms_faults ∅ 0 30 ex_lab)); [done|done|by vm_compute]. Defined.

Lemma proxy_transparent_witness :
  proxy (HU := ex_urls) 0 (λ _, mret true) (λ _ _, mret (inr (mkReply 200 "200 OK" "" (whole "{}"))))
    (lab_member ex_config 2) ex_packet ex_lab =
  Some (PxReply 200 (LimitReader 1048576 (whole "{}")), ms_packet 1 ex_lab).
Proof.
  apply (proxy_transparent (HU := ex_urls) 0 (λ _, mret true)
    (λ _ _, mret (inr (mkReply 200 "200 OK" "" (whole "{}")))) (lab_member ex_config 2) ex_packet ex_lab
    (mkHttpRequest "POST" "http://127.0.0.1:8202/raft/vote" [] "") (mkReply 200 "200 OK" "" (whole "{}"))
    (ms_packet 1 ex_lab)); try reflexivity.
  - by left.
  - vm_compute. by eexists.
Defined.
