(* ===== verification/LabControl.v ===== *)
(** * LabControl: who may change the lab

    The dashboard's handler under its guard. *)

From Stdlib Require Import Strings.Ascii Strings.String.
From stdpp Require Import base numbers list gmap strings fin_maps pretty options.
From S2P Require Import Prelude Effects StateMachine Events Node Simulation Client Lab LabHttp LabProps LabViews Urls Http.

Local Open Scope Z_scope.
#[local] Set Default Proof Using "Type*".
Local Notation L := (M Manager).

Lemma Snapshot_same now m : wp False (Snapshot now) (λ _ m', m' = m) m.
Proof.
  unfold Snapshot. apply wp_bind, wp_get. destruct (latency_percentiles_spec (mg_metrics m) (mg_samples m)) as (p&Hp&_).
  apply wp_bind. rewrite Hp. by apply wp_lift_some, wp_ret.
Qed.

Section control.
Context `{HU : URLs, HM : ServeMux, HN : Net, HS : JsonStream}.
Context `{HJ1 : Json CommandRequest, HJ2 : Json chaos_request, HJ3 : Json workload_request, HJ4 : Json simulate_request}.
Context (now : Z) (start_of : string → start_answer) (kill_of : nat → option error) (admin : HttpRequest → L (error + Z)).
Context (command : CommandRequest → L (error + CommandResponse)) (simulating : bool) (run : Scenario → SimResult).

(** What the handler relies on of the requests it has others make: that they keep
    the lab well formed. *)
Context (admin_quiet : ∀ req, quiet (admin req)).
Context (command_wf : ∀ c m, lab_wf m → wp False (command c) (λ _ m', lab_wf m') m).

Lemma reset_wf ns err m : lab_wf m → wp False (reset_members now start_of admin ns err) (λ _ m', lab_wf m') m.
Proof.
  revert err m. induction ns as [|n ns IH]; intros err m Hm; [by apply wp_ret|]. cbn [reset_members].
  apply wp_bind. eapply wp_mono; [by apply Start_wf|]. cbn beta. intros e m1 H1. apply wp_bind.
  eapply wp_mono; [apply quiet_wf; [by apply quiet_Pause|done]|]. cbn beta. intros _ m2 H2. by apply IH.
Qed.

Lemma chaos_wf c m : lab_wf m → wp False (chaos now start_of kill_of admin c) (λ _ m', lab_wf m') m.
Proof.
  intros Hm. unfold chaos. repeat (destruct (bool_decide _); [|]).
  - by apply Crash_wf.
  - by apply Start_wf.
  - apply quiet_wf; [by apply quiet_Pause|done].
  - apply quiet_wf; [by apply quiet_Pause|done].
  - by apply SetFaults_wf.
  - by apply SetFaults_wf.
  - apply wp_bind. eapply wp_mono; [by apply SetFaults_wf|]. cbn beta. intros e m1 H1.
    apply wp_bind, wp_get. by apply reset_wf.
  - by apply wp_ret.
Qed.

Lemma serve_wf {A} `{Json A} (k : A → L (response lab_payload)) (r : lab_request) m :
  lab_wf m → (∀ a, wp False (k a) (λ _ m', lab_wf m') m) →
  wp False (match readJSON r with inl refusal => mret refusal | inr a => k a end) (λ _ m', lab_wf m') m.
Proof. intros Hm Hk. destruct (readJSON r); [by apply wp_ret|apply Hk]. Qed.

Lemma route_wf r m : lab_wf m →
  wp False (route now start_of kill_of admin command simulating run r)
    (λ _ m', lab_wf m' ∧ (reads (lr_Method r) = true → m' = m)) m.
Proof.
  intros Hm. assert (∀ x, reads x = true → bool_decide (x = "POST") = false) as Hpost.
  { intros x. unfold reads. intros [->%bool_decide_eq_true| ->%bool_decide_eq_true]%orb_true_iff; done. }
  unfold route. cbv zeta. destruct (_ && _); [by apply wp_ret|]. destruct (_ && _); [by apply wp_bind, wp_get, wp_ret|].
  destruct (_ && _).
  { apply wp_bind. eapply wp_mono; [apply Snapshot_same|]. cbn beta. intros s ? ->. by apply wp_ret. }
  destruct (_ && _); [by apply wp_ret|].
  assert (∀ b (x y : L (response lab_payload)),
    wp False x (λ _ m', lab_wf m') m →
    wp False y (λ _ m', lab_wf m' ∧ (reads (lr_Method r) = true → m' = m)) m →
    wp False (if bool_decide (lr_Method r = "POST") && b then x else y)
      (λ _ m', lab_wf m' ∧ (reads (lr_Method r) = true → m' = m)) m) as Hif.
  { intros b x y Hx Hy. destruct (bool_decide (lr_Method r = "POST") && b) eqn:Hp; [|done].
    eapply wp_mono; [exact Hx|]. cbn beta. intros _ m' H. split; [done|]. intros Hr. by rewrite (Hpost _ Hr) in Hp. }
  repeat apply Hif.
  - apply serve_wf; [done|]. intros c. apply wp_bind. eapply wp_mono; [by apply command_wf|]. cbn beta.
    intros [] m' H; by apply wp_ret.
  - apply serve_wf; [done|]. intros c. apply wp_bind. eapply wp_mono; [by apply chaos_wf|]. cbn beta.
    intros [] m' H; by apply wp_ret.
  - apply serve_wf; [done|]. intros w. apply wp_bind. eapply wp_mono; [by apply Workload_wf|]. cbn beta.
    intros [] m' H; by apply wp_ret.
  - unfold serve_simulate. destruct simulating; [by apply wp_ret|]. apply serve_wf; [done|]. intros q. cbv zeta.
    destruct (_ <? _); [by apply wp_ret|]. destruct (Simulation.Validate _); by apply wp_ret.
  - by apply wp_ret.
Qed.

(** The request comes from a browser or tool on this machine, not from another site. *)
Definition is_local (r : lab_request) : bool :=
  match SplitHostPort (lr_Host r) with
  | inl _ => false
  | inr (host, _) =>
    loopback host && (bool_decide (lr_Origin r = "") || bool_decide (lr_Origin r = "http://" +:+ lr_Host r))
  end.

Definition may_pass (token : string) (r : lab_request) : bool :=
  is_local r && (reads (lr_Method r) || bool_decide (lr_Control r = token)).

Lemma guard_spec token r : guard token r = None ↔ may_pass token r = true.
Proof.
  unfold guard, may_pass, is_local. destruct (SplitHostPort (lr_Host r)) as [err|[host port]]; [done|].
  rewrite !bool_decide_not.
  by destruct (loopback host), (bool_decide (lr_Origin r = "")), (bool_decide (lr_Origin r = _)),
    (reads (lr_Method r)), (bool_decide (lr_Control r = token)).
Qed.

(** C35. The guard: every request is answered and leaves the lab well formed.  It is
    refused without any effect unless it is addressed to this machine and comes
    from no other site; and only a request that also carries the control token
    and does not merely read can change anything. *)
Theorem control_guard r m : lab_wf m →
  wp False (Handler now start_of kill_of admin command simulating run r) (λ resp m', lab_wf m' ∧
    (may_pass (mg_token m) r = false → rs_Status resp = 403 ∧ m' = m) ∧
    (m' ≠ m → is_local r = true ∧ reads (lr_Method r) = false ∧ lr_Control r = mg_token m)) m.
Proof.
  intros Hm. unfold Handler. apply wp_bind, wp_get. destruct (guard (mg_token m) r) as [message|] eqn:Hg.
  - apply wp_ret. split; [done|]. split; [done|]. by intros [].
  - apply guard_spec in Hg. rewrite Hg. eapply wp_mono; [by apply route_wf|]. cbn beta. intros resp m' [Hw Hs].
    split; [done|]. split; [done|]. intros Hne. apply andb_true_iff in Hg as [Hl Hr]. split; [done|].
    destruct (reads (lr_Method r)); [by specialize (Hs eq_refl)|]. split; [done|]. by apply bool_decide_eq_true in Hr.
Qed.

End control.

(** ** Witness *)

(** A concrete outside: an address split at its last colon, bodies that are one
    value written as [value]. *)
Definition ex_net : Net :=
  {| SplitHostPort s := match last_colon s with Some hp => inr hp | None => inl (ErrNew "missing port in address") end |}.

Definition ex_json {A} (a : A) : Json A :=
  {| Encode _ := inr "value";
     Decode r := if bool_decide (rd_bytes r = "value") then inr (a, whole "") else inl (ErrNew "EOF") |}.

Definition ex_stream : JsonStream := {| DecodeAny r := if bool_decide (rd_bytes r = "") then AtEOF else Trailing |}.

(** A partition that is asked for by a page of another site, and by the dashboard. *)
Definition ex_chaos (origin : string) : lab_request :=
  mkLabRequest "POST" "/api/chaos" "127.0.0.1:9000" origin "token" (whole "value").

Definition ex_handler (r : lab_request) : L (response lab_payload) :=
  Handler (HU := ex_urls) (HM := {| moved := 301 |}) (HN := ex_net) (HS := ex_stream)
    (HJ1 := ex_json (mkCommandRequest "GET" "k" "" "" "" 0))
    (HJ2 := ex_json (mkChaosRequest "network" "" ["node-1"] 0 0))
    (HJ3 := ex_json (mkWorkloadRequest true)) (HJ4 := ex_json (mkSimulateRequest 1 3 10 None))
    0 (λ _, ex_start) (λ _, None) (λ _, mret (inr 200)) (λ _, mret (inr zeroCommandResponse)) false
    (λ _, mkSimResult true None 0 0 0 0 true []) r.

Lemma control_guard_witness :
  wp False (ex_handler (ex_chaos "http://elsewhere")) (λ resp m', rs_Status resp = 403 ∧
    m' = empty_manager ex_config "token") (empty_manager ex_config "token") ∧
  wp False (ex_handler (ex_chaos "http://127.0.0.1:9000")) (λ resp m', lab_wf m' ∧ rs_Status resp = 200 ∧
    mg_isolated m' = {["node-1"]}) (empty_manager ex_config "token").
Proof.
  assert (∀ r, wp False (ex_handler r) (λ resp m', lab_wf m' ∧
    (may_pass (HN := ex_net) "token" r = false → rs_Status resp = 403 ∧ m' = empty_manager ex_config "token"))
    (empty_manager ex_config "token")) as H.
  { intros r. eapply wp_mono.
    - refine (control_guard (HU := ex_urls) (HM := {| moved := 301 |}) (HN := ex_net) (HS := ex_stream)
        0 (λ _, ex_start) (λ _, None) (λ _, mret (inr 200)) (λ _, mret (inr zeroCommandResponse)) false _ _ _ r
        (empty_manager ex_config "token") (empty_manager_wf ex_config "token")).
      + intros req. apply quiet_ret.
      + intros c m Hm. by apply wp_ret.
    - cbn beta. intros resp m' (H1&H2&_). exact (conj H1 H2). }
  split.
  - eapply wp_mono; [apply H|]. cbn beta. intros resp m' [_ H1]. by apply H1.
  - pose proof (H (ex_chaos "http://127.0.0.1:9000")) as H1. unfold wp in *.
    assert ((λ x, (rs_Status x.1, bool_decide (mg_isolated x.2 = {["node-1"]}))) <$>
      ex_handler (ex_chaos "http://127.0.0.1:9000") (empty_manager ex_config "token") = Some (200, true)) as Hv
      by (vm_compute; reflexivity).
    destruct (ex_handler _ _) as [[resp m']|]; [|done]. destruct H1 as [H1 _]. split; [done|].
    injection Hv as Hs Hi. by apply bool_decide_eq_true in Hi.
Defined.
