(* ===== verification/Service.v ===== *)
(** * Service: a command's way from the lab to a server

    The request that [commandHTTP] makes of a command, taken through the routing,
    the checks and the decoding of the server's handler.  The client in between
    passes method, path and body on as they are ([Client.Do]). *)

From Stdlib Require Import Strings.Ascii Strings.String.
From stdpp Require Import base numbers list gmap strings fin_maps pretty options.
From S2P Require Import Prelude Effects Lab Store Codec Node Database Client Api StateMachine Urls Http.

Local Open Scope Z_scope.
#[local] Set Default Proof Using "Type*".

(** ** Paths of keys *)

Definition not_slash (c : ascii) : bool := negb (Ascii.eqb c "/").

Lemma segment_not_slash c : segment_byte c = true → not_slash c = true.
Proof. destruct c as [[] [] [] [] [] [] [] []]; vm_compute; congruence. Qed.

Lemma all_bytes_impl (P Q : ascii → bool) s :
  (∀ c, P c = true → Q c = true) → all_bytes P s = true → all_bytes Q s = true.
Proof.
  intros HPQ. induction s as [|c s IH]; [done|]. cbn. intros [Hc Hs]%andb_true_iff. by rewrite (HPQ _ Hc), IH.
Qed.

Lemma escaped_no_slash s : all_bytes not_slash (PathEscape s) = true.
Proof. eapply all_bytes_impl; [exact segment_not_slash|apply PathEscape_bytes]. Qed.

Lemma split_no_slash s : all_bytes not_slash s = true → split_slash s = [s].
Proof.
  induction s as [|c s IH]; [done|]. cbn [all_bytes split_slash]. intros [Hc Hs]%andb_true_iff.
  apply negb_true_iff in Hc. by rewrite Hc, IH.
Qed.

Lemma split_then_slash s t : all_bytes not_slash s = true → split_slash (s +:+ String "/" t) = s :: split_slash t.
Proof.
  induction s as [|c s IH]; [done|]. cbn [all_bytes]. intros [Hc Hs]%andb_true_iff. apply negb_true_iff in Hc.
  change (String c s +:+ String "/" t) with (String c (s +:+ String "/" t)). cbn [split_slash]. by rewrite Hc, IH.
Qed.

Lemma escape_inj s t : PathEscape s = PathEscape t → s = t.
Proof. intros H. apply (f_equal PathUnescape) in H. rewrite !PathEscape_roundtrip in H. congruence. Qed.

(** Keys whose segment a path keeps when it is cleaned. *)
Definition addressable (key : string) : Prop := key ≠ "" ∧ key ≠ "." ∧ key ≠ "..".

Lemma addressable_escape key : addressable key → addressable (PathEscape key).
Proof.
  intros (H1&H2&H3). split_and!; intros E; [apply H1|apply H2|apply H3]; apply escape_inj; by rewrite E.
Qed.

Lemma clean_keeps stack seg segs : addressable seg → clean_segments stack (seg :: segs) = clean_segments (seg :: stack) segs.
Proof. intros (H1&H2&H3). cbn [clean_segments]. by rewrite !bool_decide_eq_false_2. Qed.

Lemma bytes_of_app s t : bytes_of (s +:+ t) = bytes_of s ++ bytes_of t.
Proof. induction s as [|c s IH]; [done|]. exact (f_equal (cons c) IH). Qed.

Lemma no_slash_last s c : all_bytes not_slash s = true → list.last (bytes_of s) = Some c → c ≠ "/"%char.
Proof.
  intros Hs Hl ->. apply last_Some_elem_of in Hl. induction s as [|c s IH]; [by apply elem_of_nil in Hl|].
  cbn [all_bytes] in Hs. apply andb_true_iff in Hs as [Hc Hs]. change (bytes_of (String c s)) with (c :: bytes_of s) in Hl.
  apply elem_of_cons in Hl as [<-|Hl]; [done|by apply IH].
Qed.

Definition key_path (key : string) : string := "/v1/kv/" +:+ PathEscape key.

Lemma key_path_segments key : segments (key_path key) = ["v1"; "kv"; PathEscape key].
Proof.
  change (segments (key_path key)) with (split_slash ("v1" +:+ String "/" ("kv" +:+ String "/" (PathEscape key)))).
  by rewrite !split_then_slash, split_no_slash by (done || apply escaped_no_slash).
Qed.

Lemma cas_path_segments key : segments (key_path key +:+ "/cas") = ["v1"; "kv"; PathEscape key; "cas"].
Proof.
  change (segments (key_path key +:+ "/cas")) with
    (split_slash ("v1" +:+ String "/" ("kv" +:+ String "/" (PathEscape key +:+ String "/" "cas")))).
  by rewrite !split_then_slash by (done || apply escaped_no_slash).
Qed.

Lemma key_path_clean key : addressable key → cleanPath (key_path key) = key_path key.
Proof.
  intros Hk%addressable_escape. unfold cleanPath. rewrite key_path_segments.
  rewrite 2 clean_keeps by (by split_and!). rewrite clean_keeps by done. cbn [clean_segments reverse rev_append].
  assert (ends_in_slash (key_path key) = false) as ->.
  { unfold ends_in_slash. apply bool_decide_eq_false_2. unfold key_path. rewrite bytes_of_app, last_app.
    destruct (list.last (bytes_of (PathEscape key))) as [c|] eqn:Hl.
    - intros [= ->]. by eapply no_slash_last; [apply escaped_no_slash| |].
    - apply last_None in Hl. destruct Hk as [Hk _]. by destruct (PathEscape key). }
  cbn. rewrite append_empty. done.
Qed.

Lemma cas_path_clean key : addressable key → cleanPath (key_path key +:+ "/cas") = key_path key +:+ "/cas".
Proof.
  intros Hk%addressable_escape. unfold cleanPath. rewrite cas_path_segments.
  rewrite 2 clean_keeps by (by split_and!). rewrite 2 clean_keeps by (done || by split_and!).
  cbn [clean_segments reverse rev_append].
  assert (ends_in_slash (key_path key +:+ "/cas") = false) as ->.
  { unfold ends_in_slash. apply bool_decide_eq_false_2. by rewrite bytes_of_app, last_app. }
  done.
Qed.

(** ** Routing *)

Section routing.
Context {C V S : Type} `{HM : ServeMux, HJ : JsonStream, HW : Json writeRequest}.
Context (execute : C → Command → M S (Result * option error)).
Context (get_key : C → string → M S (string * bool * option error)) (status : M S V).

Lemma key_segment_key key : addressable key →
  key_segment (matched_segments (key_path key)) = Some (key, false).
Proof using Type.
  intros (Hk&_&_). unfold matched_segments. rewrite key_path_segments. cbn [map].
  rewrite PathEscape_roundtrip.
  change (PathUnescape "v1") with (Some "v1"). change (PathUnescape "kv") with (Some "kv").
  change (PathUnescape "cas") with (Some "cas"). cbn [default]. unfold key_segment. by rewrite !bool_decide_eq_true_2 by done.
Qed.

Lemma key_segment_cas key : addressable key →
  key_segment (matched_segments (key_path key +:+ "/cas")) = Some (key, true).
Proof using Type.
  intros (Hk&_&_). unfold matched_segments. rewrite cas_path_segments. cbn [map].
  rewrite PathEscape_roundtrip.
  change (PathUnescape "v1") with (Some "v1"). change (PathUnescape "kv") with (Some "kv").
  change (PathUnescape "cas") with (Some "cas"). cbn [default]. unfold key_segment. by rewrite !bool_decide_eq_true_2 by done.
Qed.

Lemma handler_get (r : request C) key : addressable key → r_Path r = key_path key → r_Method r = "GET" →
  handler execute get_key status r = get_handler get_key key r.
Proof using Type.
  intros Hk Hp Hm. unfold handler. unfold unclean. rewrite Hp, key_path_clean by done.
  rewrite (bool_decide_eq_false_2 (key_path key ≠ key_path key)) by tauto. rewrite andb_false_r.
  unfold patterns. assert (∀ x y, matched_segments (key_path key) ≠ [x; y]) as Hne.
  { intros x y. unfold matched_segments. by rewrite key_path_segments. }
  rewrite bool_decide_eq_false_2 by (unfold matched_segments; by rewrite key_path_segments).
  rewrite bool_decide_eq_false_2 by apply Hne. rewrite key_segment_key by done. rewrite Hm. done.
Qed.

Lemma routed_key (r : request C) key operation : addressable key →
  r_Path r = key_path key ∧ (r_Method r = "PUT" ∧ operation = "SET" ∨ r_Method r = "DELETE" ∧ operation = "DELETE") ∨
  r_Path r = key_path key +:+ "/cas" ∧ r_Method r = "POST" ∧ operation = "CAS" →
  routed_write r = Some (operation, key).
Proof using Type.
  intros Hk Hr. unfold routed_write, unclean.
  assert (∀ path : string, bool_decide (path ≠ path) = false) as Hs by (intros; apply bool_decide_eq_false_2; tauto).
  destruct Hr as [[-> [[-> ->]|[-> ->]]]|(->&->&->)].
  - by rewrite key_path_clean, Hs, andb_false_r, key_segment_key by done.
  - by rewrite key_path_clean, Hs, andb_false_r, key_segment_key by done.
  - by rewrite cas_path_clean, Hs, andb_false_r, key_segment_cas by done.
Qed.

End routing.

(** ** A command arrives *)

Definition request_of (b : write_body) : writeRequest :=
  mkWriteRequest (wb_clientId b) (wb_requestId b) (wb_value b) (wb_expected b).

Definition optional_bytes (o : option string) : N := strlenN (default "" o).

(** [json.Marshal] of the body, a map, for the server's decoder: texts are
    written with at most six bytes for one, and come back. *)
Class BodyLaws `{Json writeRequest, JsonStream} (marshal_body : write_body → error + string) : Prop := {
  body_decodes : ∀ b, text (wb_clientId b) → text (default "" (wb_value b)) → text (default "" (wb_expected b)) →
    (wb_requestId b < two64)%N →
    ∃ s, marshal_body b = inr s ∧
      (strlenN s ≤ 6 * (strlenN (wb_clientId b) + optional_bytes (wb_value b) + optional_bytes (wb_expected b)) + 512)%N ∧
      ∃ rest, Decode (whole s) = inr (request_of b, rest) ∧ DecodeAny rest = AtEOF;
}.

(** The command that a request of the lab stands for. *)
Definition lab_command (c : CommandRequest) : Command :=
  mkCommand (cr_ClientID c) (cr_RequestID c) (ToUpper (cr_Operation c)) (cr_Key c) (cr_Value c) (cr_Expected c).

Section arrival.
Context {C V S : Type} `{HM : ServeMux, HJ : JsonStream, HW : Json writeRequest}.
Context (execute : C → Command → M S (Result * option error)).
Context (get_key : C → string → M S (string * bool * option error)) (status : M S V).
Context (marshal_body : write_body → error + string) `{HB : !BodyLaws marshal_body}.

(** A body that is read back: the fields that the operation has, and no others. *)
Lemma read_marshalled operation key (b : write_body) (r : request C) s :
  text (wb_clientId b) → text (default "" (wb_value b)) → text (default "" (wb_expected b)) →
  (wb_requestId b < two64)%N → (strlenN (wb_clientId b) ≤ 128)%N →
  (optional_bytes (wb_value b) ≤ MaxValueBytes)%N → (optional_bytes (wb_expected b) ≤ MaxValueBytes)%N →
  missing_field operation (request_of b) = false → unexpected_field operation (request_of b) = false →
  marshal_body b = inr s → r_Body r = whole s →
  read_command (V := V) operation key r = inr (write_command operation key (request_of b)).
Proof using HB.
  intros H1 H2 H3 H4 L1 L2 L3 Hm Hu Hs Hr. destruct (body_decodes b H1 H2 H3 H4) as (s'&Hs'&Hlen&rest&Hd&He).
  rewrite Hs in Hs'. injection Hs' as <-. unfold read_command. rewrite Hr, MaxBytesReader_small.
  - unfold decode_one. by rewrite Hd, He, Hm, Hu.
  - cbn [whole rd_bytes]. unfold MaxValueBytes in *. lia.
Qed.

(** How the two sides write the same command. *)
Definition sent_as (c : Command) (method path : string) (b : write_body) : Prop :=
  c_Operation c = "SET" ∧ method = "PUT" ∧ path = key_path (c_Key c) ∧
    b = mkWriteBody (c_ClientID c) (c_RequestID c) (Some (c_Value c)) None ∨
  c_Operation c = "DELETE" ∧ method = "DELETE" ∧ path = key_path (c_Key c) ∧
    b = mkWriteBody (c_ClientID c) (c_RequestID c) None None ∨
  c_Operation c = "CAS" ∧ method = "POST" ∧ path = key_path (c_Key c) +:+ "/cas" ∧
    b = mkWriteBody (c_ClientID c) (c_RequestID c) (Some (c_Value c)) (Some (c_Expected c)).

Lemma Validate_fields c : Validate c = None →
  (c_Operation c = "SET" → c_Expected c = "") ∧ (c_Operation c = "DELETE" → c_Value c = "" ∧ c_Expected c = "").
Proof using Type.
  intros Hv. unfold Validate in Hv. destruct (existsb _ _); [done|]. destruct (_ || _); [done|].
  destruct (_ || _); [done|]. destruct (_ || _); [done|]. split; intros Ho; rewrite Ho in Hv.
  - rewrite (bool_decide_eq_true_2 ("SET" = "SET")) in Hv by done.
    destruct (decide (c_Expected c = "")) as [|E]; [done|]. by rewrite bool_decide_eq_true_2 in Hv.
  - rewrite (bool_decide_eq_false_2 ("DELETE" = "SET")), (bool_decide_eq_true_2 ("DELETE" = "DELETE")) in Hv by done.
    destruct (decide (c_Value c = "")) as [|E]; [|by rewrite (bool_decide_eq_true_2 (c_Value c ≠ "")) in Hv].
    destruct (decide (c_Expected c = "")) as [|E]; [done|].
    by rewrite (bool_decide_eq_true_2 (c_Expected c ≠ "")), orb_true_r in Hv.
Qed.

Lemma sent_fields c method path b : Validate c = None → sent_as c method path b →
  missing_field (c_Operation c) (request_of b) = false ∧ unexpected_field (c_Operation c) (request_of b) = false ∧
  write_command (c_Operation c) (c_Key c) (request_of b) = c ∧
  wb_clientId b = c_ClientID c ∧ wb_requestId b = c_RequestID c ∧
  default "" (wb_value b) = c_Value c ∧ default "" (wb_expected b) = c_Expected c.
Proof using Type.
  intros [Hset Hdel]%Validate_fields Hs. unfold missing_field, unexpected_field, write_command.
  unfold sent_as in Hs. destruct c as [id n op key value expected]. cbn [c_ClientID c_RequestID c_Operation c_Key c_Value c_Expected] in *.
  destruct Hs as [(->&_&_&->)|[(->&_&_&->)|(->&_&_&->)]].
  - by rewrite Hset by done.
  - destruct (Hdel eq_refl) as [-> ->]. done.
  - done.
Qed.

(** A command that [statemachine.Validate] accepts, as a request. *)
Lemma write_arrives c (r : request C) path method b s :
  addressable (c_Key c) → (c_RequestID c < two64)%N → Validate c = None → sent_as c method path b →
  marshal_body b = inr s → r_Path r = path → r_Method r = method → r_Body r = whole s →
  handler execute get_key status r = (x ← execute (r_Context r) c; mret (write_response (r_URI r) x)).
Proof using HB.
  intros Hk Hid Hv Hop Hs Hp Hm Hb.
  destruct (sent_fields c method path b Hv Hop) as (F1&F2&F3&F4&F5&F6&F7).
  rewrite (handler_write _ _ _ _ (c_Operation c) (c_Key c)) by (apply routed_key; [done|]; unfold sent_as in Hop; naive_solver).
  unfold write. pose proof (Validate_None c Hv) as ((V1&_&V2)&_&_&[V3 V4]&[V5 V6]&_).
  rewrite (read_marshalled _ _ b r s); [by rewrite F3|unfold text, optional_bytes; rewrite ?F4, ?F5, ?F6, ?F7; done..].
Qed.

(** C29. The way of a command: what [commandHTTP] refuses is a key or a command that
    the server would refuse as well; a request that it makes reaches the server's
    handler as exactly the same command, executed and answered there, or as the
    read of the same key.  The keys "." and ".." do not arrive. *)
Theorem command_arrives c ctx uri after header :
  addressable (cr_Key c) → (cr_RequestID c < two64)%N →
  match commandHTTP marshal_body id c with
  | inl err => (1024 < strlenN (cr_Key c))%N ∨ ToUpper (cr_Operation c) ≠ "GET" ∧ Validate (lab_command c) = Some err
  | inr (method, path, body) =>
    let r := mkRequest ctx method path uri after header (whole body) in
    ToUpper (cr_Operation c) = "GET" ∧ handler execute get_key status r = get_handler get_key (cr_Key c) r ∨
    Validate (lab_command c) = None ∧
      handler execute get_key status r = (x ← execute ctx (lab_command c); mret (write_response uri x))
  end.
Proof using HB.
  intros Hk Hid. unfold commandHTTP. rewrite (bool_decide_eq_false_2 (cr_Key c = "")) by apply Hk. cbn [orb].
  destruct (N.ltb_spec 1024 (strlenN (cr_Key c))) as [Hlen|Hlen]; [by left|].
  destruct (decide (ToUpper (cr_Operation c) = "GET")) as [Hg|Hg].
  { rewrite bool_decide_eq_true_2 by done. left. split; [done|]. by apply handler_get. }
  rewrite bool_decide_eq_false_2 by done. cbv zeta. fold (lab_command c).
  destruct (Validate (lab_command c)) as [err|] eqn:Hv; [by right|].
  assert (∀ method path b, sent_as (lab_command c) method path b →
    match (match marshal_body b with inl err => inl err | inr s => inr (method, path, s) end) with
    | inl err => (1024 < strlenN (cr_Key c))%N ∨ ToUpper (cr_Operation c) ≠ "GET" ∧ None = Some err
    | inr (method, path, body) =>
      let r := mkRequest ctx method path uri after header (whole body) in
      ToUpper (cr_Operation c) = "GET" ∧ handler execute get_key status r = get_handler get_key (cr_Key c) r ∨
      (None : option error) = None ∧
        handler execute get_key status r = (x ← execute ctx (lab_command c); mret (write_response uri x))
    end) as Hgo.
  { intros method path b Hb.
    destruct (sent_fields _ method path b Hv Hb) as (_&_&_&F4&F5&F6&F7).
    pose proof (Validate_None _ Hv) as ((V1&_&V2)&_&_&[V3 V4]&[V5 V6]&_).
    destruct (body_decodes b) as (s&Hs&_); [unfold text; rewrite ?F4, ?F5, ?F6, ?F7; done..|].
    rewrite Hs. cbv zeta. right. split; [done|].
    exact (write_arrives (lab_command c) (mkRequest ctx method path uri after header (whole s)) path method b s
      Hk Hid Hv Hb Hs eq_refl eq_refl eq_refl). }
  pose proof (Validate_None _ Hv) as (_&_&_&_&_&[Ho|[Ho|Ho]]); cbn [lab_command c_Operation] in Ho; rewrite Ho in *.
  - apply (Hgo "PUT"). by left.
  - apply (Hgo "DELETE"). right. by left.
  - apply (Hgo "POST"). right. by right.
Qed.

End arrival.

(** ** Witness *)

Definition flat_marshal_body (b : write_body) : error + string := Encode (request_of b).

#[export] Instance flat_body_arrives : BodyLaws flat_marshal_body.
Proof.
  split. intros b H1 H2 H3 H4. destruct (encode_decode (request_of b)) as (s&Hs&Hc&Hd).
  - unfold rep_body. split; try done; destruct b as [? ? [] []]; done.
  - exists s. split; [done|]. split.
    + unfold body_cost, text_bytes in Hc. cbn [body_command request_of c_ClientID c_Operation c_Key c_Value c_Expected
        wr_ClientID wr_Value wr_Expected] in Hc. change (strlenN "") with 0%N in Hc.
      assert (strlenN (marks (request_of b)) ≤ 2)%N as Hm by (by destruct b as [? ? [] []]).
      unfold optional_bytes. lia.
    + destruct (Hd "" (or_introl eq_refl)) as (rest&Hr&He). rewrite append_empty in Hr. by exists rest.
Qed.

Section witnesses.
#[local] Instance ex_service_mux : ServeMux := { moved := 301 }.

(** A compare-and-set under a key with a slash, typed in lower case. *)
Definition ex_cas : CommandRequest := mkCommandRequest "cas" "a/b" "2" "1" "client" 7.

Lemma command_arrives_witness :
  ∃ body, commandHTTP flat_marshal_body id ex_cas = inr ("POST", "/v1/kv/a%2Fb/cas", body) ∧
  ∀ execute, handler execute (λ (_ : unit) _, mret ("", false, None)) (mret tt : M unit unit)
    (mkRequest tt "POST" "/v1/kv/a%2Fb/cas" "/v1/kv/a%2Fb/cas" "" (λ _, "") (whole body)) =
  (x ← execute tt (mkCommand "client" 7 "CAS" "a/b" "2" "1"); mret (write_response "/v1/kv/a%2Fb/cas" x)).
Proof.
  eexists. split; [vm_compute; reflexivity|]. intros execute.
  destruct (command_arrives execute (λ (_ : unit) _, mret ("", false, None)) (mret tt : M unit unit)
    flat_marshal_body ex_cas tt "/v1/kv/a%2Fb/cas" "" (λ _, "")) as [[H _]|[_ H]].
  - by split_and!.
  - by vm_compute.
  - vm_compute in H. discriminate.
  - exact H.
Defined.
End witnesses.
