(* ===== verification/Commands.v ===== *)
(** * Commands: the command-line client, the membership file and the launcher's checks

    src/cmd/client/main.go, src/internal/raft/config.go, and of the commands whose
    processes are in [Processes] the flags, the configurations that they make of
    them and what they check.  The flags are records, the rest of the process is an
    argument: what the files, the random numbers and the standard output answer. *)

From Stdlib Require Import Strings.Ascii Strings.String.
From stdpp Require Import base numbers list gmap strings fin_maps pretty options.
From S2P Require Import Prelude Effects Lab LabHttp LabProps Store Codec Node Client Api StateMachine Urls Http Service.

Local Open Scope Z_scope.
#[local] Set Default Proof Using "Type*".

(** ** The client (cmd/client/main.go) *)

(** [strings.Split(s, ",")]. *)
Fixpoint split_comma (s : string) : list string :=
  match s with
  | EmptyString => [EmptyString]
  | String c s' =>
    if Ascii.eqb c "," then EmptyString :: split_comma s'
    else match split_comma s' with [] => [String c EmptyString] | x :: xs => String c x :: xs end
  end.

Record client_flags := mkClientFlags {
  cf_server : string;
  cf_servers : string;
  cf_client : string;
  cf_request : N;
}.

(** The number of arguments of an operation, itself among them; 0 for none. *)
Definition arity (op : string) : nat :=
  if bool_decide (op = "GET") then 2
  else if bool_decide (op = "SET") then 3
  else if bool_decide (op = "DELETE") then 2
  else if bool_decide (op = "CAS") then 4 else 0.

Definition usage : error :=
  ErrNew "usage: client [flags] SET key value | GET key | DELETE key | CAS key expected value | STATUS".

Section client.
Context (marshal_body : write_body → error + string).

(** The method, path and body, with the random client id for a write without one. *)
Definition client_request (random : error + string) (f : client_flags) (args : list string) :
    error + (string * string * string) :=
  match args with
  | [] => inl usage
  | arg0 :: rest =>
    let op := ToUpper arg0 in
    if bool_decide (op ≠ "STATUS") then
      if (arity op =? 0)%nat || negb (length args =? arity op)%nat
      then inl (ErrNew "invalid command or argument count")
      else
        let path := "/v1/kv/" +:+ PathEscape (default "" (args !! 1%nat)) in
        if bool_decide (op ≠ "GET") then
          match (if bool_decide (cf_client f = "") then random else inr (cf_client f)) with
          | inl err => inl err
          | inr clientID =>
            let finish method path value expected :=
              match marshal_body (mkWriteBody clientID (cf_request f) value expected) with
              | inl err => inl err
              | inr encoded => inr (method, path, encoded)
              end in
            if bool_decide (op = "SET") then finish "PUT" path (args !! 2%nat) None
            else if bool_decide (op = "DELETE") then finish "DELETE" path None None
            else finish "POST" (path +:+ "/cas") (args !! 3%nat) (args !! 2%nat)
          end
        else inr ("GET", path, "")
    else
      match rest with
      | [] => inr ("GET", "/v1/status", "")
      | _ => inl (ErrNew "STATUS takes no arguments")
      end
  end.

Context `{HU : URLs, HN : !Network}.

(** What the process does: what it has printed, its error (an exit status that is
    not zero), and what went over the network. *)
Record client_exit := mkClientExit {
  ce_printed : option string;
  ce_error : option error;
  ce_history : list (HttpRequest * (error + Reply));
}.

Definition client_run (random : error + string) (stdout : string → option error) (f : client_flags)
    (args : list string) (w : World) : option client_exit :=
  match client_request random f args with
  | inl err => Some (mkClientExit None (Some err) [])
  | inr (method, path, body) =>
    let seeds := if bool_decide (cf_servers f ≠ "") then split_comma (cf_servers f) else [cf_server f] in
    match Client.New seeds with
    | inl err => Some (mkClientExit None (Some err) [])
    | inr client =>
      match Do method path body (mkState client w []) with
      | None => None
      | Some ((resp, Some err), s) =>
        Some (mkClientExit None (Some (ErrWrap "request failed; write outcome may be unknown: " err)) (st_history s))
      | Some ((resp, None), s) =>
        match stdout (Body resp) with
        | Some err => Some (mkClientExit None (Some err) (st_history s))
        | None =>
          Some (mkClientExit (Some (Body resp))
            (if 300 <=? StatusCode resp then Some (ErrNew ("HTTP " +:+ pretty (StatusCode resp))) else None)
            (st_history s))
        end
      end
    end
  end.

End client.

(** ** The membership file (raft/config.go) *)

Definition LoadMembership `{Json Membership, JsonStream} (file : error + reader) : error + Membership :=
  match file with
  | inl err => inl err
  | inr f =>
    match Decode (LimitReader 1048576 f) with
    | inl err => inl err
    | inr (m, rest) =>
      match DecodeAny rest with
      | AtEOF => inr m
      | _ => inl (ErrNew "invalid trailing membership data")
      end
    end
  end.

(** ** The node (cmd/node/main.go) *)

Record node_flags := mkNodeFlags {
  nf_id : string;
  nf_listen : string;
  nf_data : string;
  nf_cluster : string;
  nf_peer_listen : string;
  nf_fixed_leader : string;
  nf_snapshot_every : N;
  nf_admin_listen : string;
}.

(** The flags with their defaults, and [flag.Parse] on the definitions of a command:
    [set] assigns a flag, unless there is none of the name. *)
Definition node_defaults : node_flags :=
  mkNodeFlags "node-1" "127.0.0.1:7001" "" "" "127.0.0.1:8001" "" 128 "".

Definition set_node_flag (ParseUint : string → error + N) (name value : string) (f : node_flags) :
    option (error + node_flags) :=
  let '(mkNodeFlags id listen data cluster peer fixed every admin) := f in
  if bool_decide (name = "id") then Some (inr (mkNodeFlags value listen data cluster peer fixed every admin))
  else if bool_decide (name = "listen") then Some (inr (mkNodeFlags id value data cluster peer fixed every admin))
  else if bool_decide (name = "data") then Some (inr (mkNodeFlags id listen value cluster peer fixed every admin))
  else if bool_decide (name = "cluster") then Some (inr (mkNodeFlags id listen data value peer fixed every admin))
  else if bool_decide (name = "peer-listen") then
    Some (inr (mkNodeFlags id listen data cluster value fixed every admin))
  else if bool_decide (name = "fixed-leader") then
    Some (inr (mkNodeFlags id listen data cluster peer value every admin))
  else if bool_decide (name = "snapshot-every") then
    Some (match ParseUint value with
          | inl err => inl err
          | inr n => inr (mkNodeFlags id listen data cluster peer fixed n admin)
          end)
  else if bool_decide (name = "admin-listen") then
    Some (inr (mkNodeFlags id listen data cluster peer fixed every value))
  else None.

Section flags.
Context `{HU : URLs} {F : Type} (set : string → string → F → option (error + F)).

(** The name and the value of [name=value]. *)
Fixpoint cut_value (s : string) : string * option string :=
  match s with
  | EmptyString => (EmptyString, None)
  | String c s' =>
    if Ascii.eqb c "=" then (EmptyString, Some s')
    else let '(name, value) := cut_value s' in (String c name, value)
  end.

(** The text of a flag after one dash or two; [None] where the flags end. *)
Definition flag_text (arg : string) : option string :=
  match arg with
  | String c (String d s) =>
    if Ascii.eqb c "-" then
      if Ascii.eqb d "-" then (if bool_decide (s = "") then None else Some s) else Some (String d s)
    else None
  | _ => None
  end.

Definition bad_flag (s : string) : bool :=
  match s with EmptyString => true | String c _ => Ascii.eqb c "-" || Ascii.eqb c "=" end.

Fixpoint parse_flags (args : list string) (f : F) : error + F :=
  match args with
  | [] => inr f
  | arg :: rest =>
    match flag_text arg with
    | None => inr f
    | Some s =>
      if bad_flag s then inl (ErrNew ("bad flag syntax: " +:+ arg))
      else
        let '(name, value) := cut_value s in
        let assign value :=
          match set name value f with
          | None => inl (ErrNew ("flag provided but not defined: -" +:+ name))
          | Some (inl err) => inl (ErrWrap ("invalid value " +:+ Quote value +:+ " for flag -" +:+ name +:+ ": ") err)
          | Some (inr f) => inr f
          end in
        match value with
        | Some value => match assign value with inl err => inl err | inr f => parse_flags rest f end
        | None =>
          match rest with
          | value :: rest => match assign value with inl err => inl err | inr f => parse_flags rest f end
          | [] => inl (match set name "" f with
                       | None => ErrNew ("flag provided but not defined: -" +:+ name)
                       | Some _ => ErrNew ("flag needs an argument: -" +:+ name)
                       end)
          end
        end
    end
  end.

End flags.

Definition data_directory (f : node_flags) : string :=
  if bool_decide (nf_data f = "") then
    if bool_decide (nf_cluster f ≠ "") then Join ["data"; "raft"; nf_id f] else Join ["data"; nf_id f]
  else nf_data f.

Definition node_config (f : node_flags) (m : Membership) : Config :=
  mkConfig (nf_id f) (mm_ClusterID m) (data_directory f) (mm_Peers m) (nf_fixed_leader f) 0 0 0 0 0 (nf_snapshot_every f).

(** ** The local launcher (cmd/cluster/main.go) *)

(** [URL.Hostname] and [URL.Port]. *)
Definition digits (s : string) : bool := all_bytes (ascii_between "0" "9") s.

Definition unbracket (host : string) : string :=
  if String.prefix "[" host && bool_decide (list.last (bytes_of host) = Some "]"%char)
  then String.substring 1 (String.length host - 2) host else host.

Definition split_host (host : string) : string * string :=
  match last_colon host with
  | Some (h, port) => if digits port then (unbracket h, port) else (unbracket host, "")
  | None => (unbracket host, "")
  end.

Definition simple_name (id : string) : bool :=
  negb (bool_decide (id = "") || bool_decide (id = ".") || bool_decide (id = "..") ||
        existsb (λ c, existsb (Ascii.eqb c) ["/"; "\"; ":"]%char) (bytes_of id)).

Record launch_flags := mkLaunchFlags {
  lf_config : string;
  lf_data : string;
  lf_fixed : string;
  lf_snapshot_every : N;
}.

Section launcher.
Context `{HU : URLs}.

Definition local_address (address : string) : bool :=
  match Parse address with
  | inl _ => false
  | inr u =>
    let '(host, port) := split_host (u_Host u) in
    bool_decide (u_Scheme u = "http") && bool_decide (port ≠ "") &&
    (bool_decide (host = "127.0.0.1") || bool_decide (host = "localhost"))
  end.

Fixpoint check_members (ps : list Peer) : option error :=
  match ps with
  | [] => None
  | p :: ps =>
    if negb (simple_name (p_ID p)) then Some (ErrNew "node IDs must be simple directory names")
    else if negb (local_address (p_PeerURL p) && local_address (p_ClientURL p))
    then Some (ErrNew "local launcher requires HTTP loopback addresses with explicit ports")
    else check_members ps
  end.

(** The host of an address; to take it of one that does not parse is a panic. *)
Definition host_of (address : string) : option string :=
  match Parse address with inl _ => None | inr u => Some (u_Host u) end.

Definition child_arguments (f : launch_flags) (p : Peer) : option (list string) :=
  client ← host_of (p_ClientURL p);
  peer ← host_of (p_PeerURL p);
  Some (["--id=" +:+ p_ID p; "--cluster=" +:+ lf_config f; "--listen=" +:+ client; "--peer-listen=" +:+ peer;
         "--data=" +:+ Join [lf_data f; p_ID p]] ++
        (if bool_decide (lf_fixed f ≠ "") then ["--fixed-leader=" +:+ lf_fixed f] else []) ++
        ["--snapshot-every=" +:+ pretty (lf_snapshot_every f)]).

End launcher.

Inductive launch_event := Interrupted | ChildExited (e : error).

(** The loop: how it returns, unless it still waits after these events. *)
Fixpoint supervise (events : list launch_event) (remaining : Z) : option (option error) :=
  match events with
  | [] => None
  | Interrupted :: _ => Some None
  | ChildExited _ :: events =>
    let remaining := remaining - 1 in
    if remaining =? 0 then Some (Some (ErrNew "all cluster processes exited")) else supervise events remaining
  end.

(** ** What the client's exit says *)

Section exit.
Context `{HU : URLs, HN : !Network, HL : !NetworkLaws} (marshal_body : write_body → error + string).

(** The client always ends.  Every command that it has sent is the one of its
    arguments, all the same bytes; and when it ends without an error, the last of
    them was answered with a status below 300 whose whole body it has printed,
    and nothing definitive answered those before. *)
Theorem client_exit_truthful random stdout f args w :
  ∃ x, client_run marshal_body random stdout f args w = Some x ∧
  match client_request marshal_body random f args with
  | inl err => x = mkClientExit None (Some err) []
  | inr (m, p, b) =>
    (∀ y, y ∈ commands (ce_history x) → ∃ server, y.1 = command_request m p b server) ∧
    (ce_error x = None → ∃ tried server rep,
       commands (ce_history x) = tried ++ [(command_request m p b server, inr rep)] ∧
       Forall (λ y, ¬ definitive y.2) tried ∧ read_error rep = None ∧ rp_StatusCode rep < 300 ∧
       ce_printed x = Some (rd_bytes (LimitReader 16777216 (rp_Body rep))))
  end.
Proof.
  unfold client_run. destruct (client_request _ _ _ _) as [err|[[m p] b]]; [by eexists|]. cbv zeta.
  set (seeds := if bool_decide _ then _ else _). pose proof (New_spec seeds) as Hnew. cbv zeta in Hnew.
  destruct (Client.New seeds) as [err|c].
  { eexists. split; [done|]. split; [intros y []%not_elem_of_nil|done]. }
  destruct Hnew as (_&_&_&Hne&_).
  destruct (Do_call m p b (mkState c w []) Hne) as ([resp e]&s&->&tried&final&Hs&_&Htried&Hfinal).
  destruct Hs as [_ (new&Hh&Hc&Ha)]. cbn [st_history app] in Hh. subst new.
  assert (∀ y, y ∈ commands (st_history s) → ∃ server, y.1 = command_request m p b server) as Hall.
  { intros y Hy. apply list_elem_of_filter in Hy as [Hy Hin]. rewrite Forall_forall in Ha.
    destruct (Ha y Hin) as (server&_&[->|E]); [by exists server|]. unfold is_command in Hy. by rewrite E in Hy. }
  destruct e as [err|]; [eexists; split; [done|]; by split|]. cbn [fst snd] in Hfinal.
  destruct Hfinal as (server&rep&_&->&(Hread&_&_)&->). destruct (stdout _); [eexists; split; [done|]; by split|].
  eexists. split; [done|]. split; [done|]. cbn [ce_error ce_history ce_printed response_of StatusCode Body].
  destruct (Z.leb_spec 300 (rp_StatusCode rep)); [done|]. intros _. exists tried, server, rep. by split_and!.
Qed.

End exit.

(** ** The client and the lab send the same *)

(** The arguments and flags for a command of the lab. *)
Definition typed (c : CommandRequest) : list string :=
  let op := ToUpper (cr_Operation c) in
  cr_Operation c :: cr_Key c ::
  (if bool_decide (op = "SET") then [cr_Value c] else if bool_decide (op = "CAS") then [cr_Expected c; cr_Value c] else []).

Definition flags_of (c : CommandRequest) (server : string) : client_flags :=
  mkClientFlags server "" (cr_ClientID c) (cr_RequestID c).

(** What the lab sends for a command is what the command-line client sends for the
    same words: the same method, path and body. *)
Theorem client_as_lab marshal_body random server c x :
  commandHTTP marshal_body id c = inr x → client_request marshal_body random (flags_of c server) (typed c) = inr x.
Proof.
  unfold commandHTTP, client_request, typed, flags_of. cbn [cf_client cf_request].
  destruct (_ || _); [done|]. set (op := ToUpper (cr_Operation c)). cbv zeta.
  destruct (decide (op = "GET")) as [E|E].
  { rewrite E. intros H. injection H as <-. done. }
  rewrite bool_decide_eq_false_2 by done. destruct (Validate _) as [err|] eqn:Hv; [done|].
  pose proof (Validate_None _ Hv) as ((_&Hid&_)&_&_&_&_&Ho). cbn [c_ClientID c_Operation] in Hid, Ho.
  rewrite (bool_decide_eq_false_2 (cr_ClientID c = "")) by done.
  destruct Ho as [Ho|[Ho|Ho]]; rewrite Ho; exact id.
Qed.

(** ** What the launcher accepts *)

Section launching.
Context `{HU : URLs}.

Lemma local_host address : local_address address = true → is_Some (host_of address).
Proof. unfold local_address, host_of. by destruct (Parse address). Qed.

Definition member_ok (p : Peer) : bool :=
  simple_name (p_ID p) && (local_address (p_PeerURL p) && local_address (p_ClientURL p)).

Lemma check_members_spec ps : check_members ps = None ↔ forallb member_ok ps = true.
Proof.
  induction ps as [|p ps IH]; [done|]. cbn [check_members forallb]. unfold member_ok at 1.
  destruct (simple_name _); [|done]. by destruct (local_address _ && local_address _).
Qed.

End launching.

(** ** Witnesses *)

Lemma client_as_lab_witness :
  ∃ body, commandHTTP flat_marshal_body id ex_cas = inr ("POST", "/v1/kv/a%2Fb/cas", body) ∧
    client_request flat_marshal_body (inr "random") (mkClientFlags "http://a" "" "client" 7) ["cas"; "a/b"; "1"; "2"] =
      inr ("POST", "/v1/kv/a%2Fb/cas", body).
Proof.
  eexists. split; [vm_compute; reflexivity|].
  apply (client_as_lab flat_marshal_body (inr "random") "http://a" ex_cas). vm_compute. reflexivity.
Defined.
