(* ===== verification/LabNodes.v ===== *)
(** * LabNodes: the nodes that the lab starts accept what it tells them

    What [Lab.New] writes and [Start] passes on the command line is read by
    cmd/node/main.go and checked by raft.OpenWithRuntime: here the three meet.  The
    addresses, the file and the configuration of a lab never change, so this holds
    of a node that is started again at any later time. *)

From Stdlib Require Import Strings.Ascii Strings.String.
From stdpp Require Import base numbers list gmap strings fin_maps pretty options.
From S2P Require Import Prelude Effects Urls Http Bytes StateMachine Store Database Node NodeOpen.
From S2P Require Import Api Transport Lab LabHttp LabProps Commands.

Local Open Scope Z_scope.
#[local] Set Default Proof Using "Type*".
Local Notation L := (M Manager).

(** ** Decimal numbers are short texts of digits *)

Definition digit (c : ascii) : bool := ascii_between "0" "9" c.

Lemma all_bytes_app P a b : all_bytes P (a +:+ b) = all_bytes P a && all_bytes P b.
Proof.
  induction a as [|c a IH]; [done|]. change (String c a +:+ b) with (String c (a +:+ b)). cbn [all_bytes].
  by rewrite IH, andb_assoc.
Qed.

Lemma all_bytes_mono (P Q : ascii → bool) s :
  (∀ c, P c = true → Q c = true) → all_bytes P s = true → all_bytes Q s = true.
Proof.
  intros H. induction s as [|c s IH]; [done|]. cbn [all_bytes]. rewrite !andb_true_iff. intros [? ?]. auto.
Qed.

Lemma pretty_N_go_digits k x s : (x < 10 ^ N.of_nat k)%N → all_bytes digit s = true →
  all_bytes digit (pretty_N_go x s) = true ∧ (String.length (pretty_N_go x s) ≤ k + String.length s)%nat.
Proof.
  revert x s. induction k as [|k IH]; intros x s Hx Hs.
  { replace x with 0%N by (cbn in Hx; lia). by rewrite pretty_N_go_0. }
  destruct (decide (x = 0)%N) as [->|Hne]; [rewrite pretty_N_go_0; split; [done|lia]|].
  rewrite pretty_N_go_step by lia.
  destruct (IH (x `div` 10)%N (String (pretty_N_char (x `mod` 10)) s)) as [H1 H2].
  - apply N.Div0.div_lt_upper_bound. rewrite Nat2N.inj_succ, N.pow_succ_r' in Hx. lia.
  - cbn [all_bytes]. rewrite Hs, andb_true_r. unfold pretty_N_char.
    destruct (x `mod` 10)%N as [|p]; [done|]. by repeat (destruct p as [p|p|]; try done).
  - split; [done|]. cbn [String.length] in H2. lia.
Qed.

Lemma port_digits port : 0 < port < 65536 →
  all_bytes digit (pretty port) = true ∧ (String.length (pretty port) ≤ 5)%nat.
Proof.
  intros [H1 H2]. destruct port as [|p|p]; [lia| |lia].
  change (pretty (Z.pos p)) with (pretty_N_go (N.pos p) "").
  destruct (pretty_N_go_digits 5 (N.pos p) "") as [Ha Hb]; [cbn; lia|done|]. split; [done|exact Hb].
Qed.

Lemma number_digits i : (0 < i ≤ 9)%nat →
  all_bytes digit (pretty i) = true ∧ (String.length (pretty i) ≤ 1)%nat.
Proof. intros [H1 H2]. do 10 (destruct i as [|i]; [first [lia|split; [by vm_compute|apply Nat.leb_le; by vm_compute]]|]). lia. Qed.

(** ASCII is UTF-8. *)
Definition ascii_byte (c : ascii) : bool := (N_of_ascii c <? 128)%N.

Lemma ascii_text s : all_bytes ascii_byte s = true → text s.
Proof.
  unfold text. induction s as [|c s IH]; [done|]. cbn [all_bytes]. rewrite andb_true_iff. intros [Hc Hs].
  cbn [ValidString]. unfold ascii_byte in Hc. rewrite Hc. by apply IH.
Qed.

Lemma digit_ascii c : digit c = true → ascii_byte c = true.
Proof. destruct c as [[] [] [] [] [] [] [] []]; done. Qed.

(** ** What never changes in a lab *)

(** Where a member is: its id and addresses. *)
Definition place (n : Member) : string * string * string * string * string :=
  (mb_ID n, mb_ClientURL n, mb_PeerAddress n, mb_AdminURL n, mb_ProxyAddress n).

Definition setup (m : Manager) := (mg_cfg m, mg_configPath m, mg_files m, place <$> mg_members m).

Definition settled {A} (x : L A) : Prop := ∀ m, wp True x (λ _ m', setup m' = setup m) m.

Lemma settled_ret {A} (a : A) : settled (mret a).
Proof. intros m. by apply wp_ret. Qed.

Lemma settled_bind {A B} (x : L A) (f : A → L B) : settled x → (∀ a, settled (f a)) → settled (x ≫= f).
Proof.
  intros Hx Hf m. apply wp_bind. eapply wp_mono; [apply Hx|]. cbn beta. intros a m1 H1.
  eapply wp_mono; [apply Hf|]. cbn beta. intros b m2 H2. congruence.
Qed.

Lemma settled_modify f : (∀ m, setup (f m) = setup m) → settled (modify f).
Proof. intros H m. apply wp_modify, H. Qed.

Lemma settled_get : settled get.
Proof. intros m. by apply wp_get. Qed.

Lemma settled_panic {A} : settled (panic : L A).
Proof. done. Qed.

Lemma settled_when b (x : L unit) : settled x → settled (when b x).
Proof. destruct b; [done|]. intros _. apply settled_ret. Qed.

Lemma settled_for_each {A} (f : A → L unit) l : (∀ a, settled (f a)) → settled (for_each f l).
Proof.
  intros Hf. induction l as [|a l IH]; [apply settled_ret|]. apply settled_bind; [apply Hf|done].
Qed.

Lemma settled_update id f : (∀ n, place (f n) = place n) → settled (update_member id f).
Proof.
  intros Hf. apply settled_modify. intros m. unfold setup. cbn. f_equal. rewrite <-list_fmap_compose.
  apply list_fmap_ext. intros _ n _. unfold compose. by case_bool_decide.
Qed.

Create HintDb lab_nodes.

Ltac settled :=
  repeat match goal with
  | |- settled (mret _) => apply settled_ret
  | |- settled (mbind _ _) => apply settled_bind; [|intros ?]
  | |- settled get => apply settled_get
  | |- settled panic => apply settled_panic
  | |- settled (when _ _) => apply settled_when
  | |- settled (for_each _ _) => apply settled_for_each; intros ?
  | |- settled (update_member _ _) => apply settled_update; intros ?
  | |- settled (modify _) => apply settled_modify; intros ?; reflexivity
  | |- settled (if ?b then _ else _) => destruct b
  | |- settled (match ?x with _ => _ end) => destruct x
  | |- settled (let _ := _ in _) => cbv zeta
  | |- settled _ => solve [eauto with lab_nodes]
  | |- place (if ?b then _ else _) = _ => destruct b
  | |- place _ = place _ => reflexivity
  end.

Lemma settled_publish e : settled (publish e).
Proof. unfold publish. settled. Qed.
#[local] Hint Resolve settled_publish : lab_nodes.

Lemma settled_before_fault now : settled (before_fault now).
Proof. unfold before_fault. settled. Qed.
#[local] Hint Resolve settled_before_fault : lab_nodes.

Lemma settled_kill answer cmd : settled (kill answer cmd).
Proof. unfold kill. settled. Qed.
#[local] Hint Resolve settled_kill : lab_nodes.

Lemma settled_Start a id : settled (Start a id).
Proof. unfold Start. settled. Qed.
#[local] Hint Resolve settled_Start : lab_nodes.

Lemma settled_Close answer : settled (Close answer).
Proof. unfold Close. settled. Qed.
#[local] Hint Resolve settled_Close : lab_nodes.

Lemma settled_start_all a ns : settled (start_all a ns).
Proof. induction ns as [|n ns IH]; cbn [start_all]; settled. Qed.

Lemma settled_run_op `{URLs} marshal_error json_valid o : settled (run_op marshal_error json_valid o).
Proof.
  destruct o; cbn [run_op]; settled.
  all: unfold exited, report_exit, Crash, Pause, SetFaults, poll_member, set_view, command_done, Workload,
    work_answered, work_ended, proxy_arrival; settled.
Qed.

Lemma run_ops_setup `{URLs} marshal_error json_valid ops m m' :
  run_ops marshal_error json_valid ops m = Some (tt, m') → setup m' = setup m.
Proof.
  intros Hrun. assert (settled (run_ops marshal_error json_valid ops)) as Hs
    by (apply settled_for_each; intros o; apply settled_run_op).
  specialize (Hs m). unfold wp in Hs. by rewrite Hrun in Hs.
Qed.

(** What [New] sets up. *)
Lemma New_setup cfg a m :
  Lab.New cfg a = Some (inr m) →
  (lc_Nodes cfg = 3 ∨ lc_Nodes cfg = 5) ∧ 1024 ≤ lc_BasePort cfg ≤ 64000 ∧
  ∃ b, b = match na_marshal a (lab_membership cfg) with inl _ => "" | inr b => b end ∧
    let path := Join [lc_DataDir cfg; "membership.json"] in
    setup m = (cfg, path, {[path := b]}, place <$> lab_members cfg).
Proof.
  unfold Lab.New. destruct (negb _ && negb _) eqn:Hn; [done|]. destruct (_ || _) eqn:Hb; [done|].
  destruct (probe _ _); [done|]. destruct (na_mkdir a); [done|]. destruct (na_token a) as [|token]; [done|].
  cbv zeta. destruct (na_write a _ _); [done|]. set (m1 := ms_files _ _).
  destruct (listen_all _ _); [by destruct (Close _ _) as [[[] m2]|]|].
  pose proof (settled_start_all a (mg_members m1) m1) as Hs. unfold wp in Hs.
  destruct (start_all a (mg_members m1) m1) as [[[err|] m2]|]; [done| |done]. intros [= <-].
  apply orb_false_iff in Hb as [Hb1%Z.ltb_ge Hb2%Z.ltb_ge]. split; [|split; [done|]].
  { apply andb_false_iff in Hn as [Hn|Hn]; apply negb_false_iff, Z.eqb_eq in Hn; auto. }
  eexists. split; [reflexivity|]. rewrite Hs. unfold m1, setup. cbn. by rewrite insert_empty.
Qed.

(** ** The addresses of a lab *)

Definition local_url (port : Z) : string := "http://127.0.0.1:" +:+ pretty port.

Lemma local_url_inj : Inj (=) (=) local_url.
Proof. intros x y H. by apply (inj (String.append "http://127.0.0.1:")), (inj pretty) in H. Qed.

Lemma local_url_text port : 0 < port < 65536 → text (local_url port) ∧ (strlenN (local_url port) ≤ 22)%N.
Proof.
  intros Hp. destruct (port_digits port Hp) as [Hd Hl]. split.
  - apply ascii_text. unfold local_url. rewrite all_bytes_app. apply andb_true_iff. split; [done|].
    eapply all_bytes_mono, Hd. apply digit_ascii.
  - unfold local_url. rewrite strlenN_append. unfold strlenN. cbn [String.length]. lia.
Qed.

(** The ports of a member's proxy and client listener. *)
Definition peer_ports (base : Z) (i : nat) : list Z := [base + 400 + Z.of_nat i; base + 100 + Z.of_nat i].

Definition addresses_of (p : Peer) : list string := [p_PeerURL p; p_ClientURL p].

Lemma lab_addresses cfg :
  mm_Peers (lab_membership cfg) ≫= addresses_of =
    local_url <$> (seq 1 (Z.to_nat (lc_Nodes cfg)) ≫= peer_ports (lc_BasePort cfg)).
Proof.
  unfold lab_membership, lab_members. cbn [mm_Peers]. induction (seq 1 _) as [|i l IH]; [done|].
  rewrite fmap_cons, fmap_cons, bind_cons, IH, bind_cons, fmap_app. done.
Qed.

Lemma peer_ports_nodup base n : (n = 3 ∨ n = 5)%nat → NoDup (seq 1 n ≫= peer_ports base).
Proof.
  intros Hn. assert (seq 1 n ≫= peer_ports base = Z.add base <$> (seq 1 n ≫= peer_ports 0)) as ->.
  { induction (seq 1 n) as [|i l IH]; [done|]. rewrite !bind_cons, fmap_app, IH. apply (f_equal2 app); [|done].
    apply (f_equal2 cons); [lia|]. apply (f_equal2 cons); [lia|done]. }
  apply NoDup_fmap_2_strong; [intros x y _ _; lia|]. destruct Hn as [-> | ->]; apply (bool_decide_unpack _); by vm_compute.
Qed.

(** The members of a lab that [New] accepts. *)
Definition lab_sized (cfg : LabConfig) : Prop :=
  (lc_Nodes cfg = 3 ∨ lc_Nodes cfg = 5) ∧ 1024 ≤ lc_BasePort cfg ≤ 64000.

Lemma lab_member_in cfg p : lab_sized cfg → p ∈ mm_Peers (lab_membership cfg) →
  ∃ i, (0 < i ≤ 5)%nat ∧ p = mkPeer ("node-" +:+ pretty i) (local_url (lc_BasePort cfg + 400 + Z.of_nat i))
    (local_url (lc_BasePort cfg + 100 + Z.of_nat i)).
Proof.
  intros [Hn _] Hp. unfold lab_membership, lab_members in Hp. cbn [mm_Peers] in Hp.
  rewrite <-list_fmap_compose in Hp. apply list_elem_of_fmap in Hp as (i&->&Hi%elem_of_seq). exists i.
  split; [destruct Hn; lia|done].
Qed.

Lemma lab_peer_place n n' : place n = place n' → lab_peer n = lab_peer n'.
Proof. unfold place, lab_peer. by intros [= -> -> _ _ ->]. Qed.

(** ** The file that [New] writes *)

Definition rep_membership (mm : Membership) : Prop :=
  text (mm_ClusterID mm) ∧ Forall (λ p, text (p_ID p) ∧ text (p_PeerURL p) ∧ text (p_ClientURL p)) (mm_Peers mm).

(** Six bytes for a byte of text, and the rest of the objects. *)
Definition peer_cost (p : Peer) : N :=
  (6 * (strlenN (p_ID p) + strlenN (p_PeerURL p) + strlenN (p_ClientURL p)) + 128)%N.
Definition membership_cost (mm : Membership) : N :=
  (6 * strlenN (mm_ClusterID mm) + 128 + foldr (λ p, N.add (peer_cost p)) 0 (mm_Peers mm))%N.

Lemma lab_membership_rep cfg : lab_sized cfg →
  rep_membership (lab_membership cfg) ∧ (membership_cost (lab_membership cfg) < 1048576)%N.
Proof.
  intros Hs. assert (Forall (λ p, (text (p_ID p) ∧ text (p_PeerURL p) ∧ text (p_ClientURL p)) ∧ (peer_cost p ≤ 428)%N)
    (mm_Peers (lab_membership cfg))) as Hall.
  { apply Forall_forall. intros p Hp. destruct (lab_member_in cfg p Hs Hp) as (i&Hi&->). destruct Hs as [_ Hb].
    cbn [p_ID p_PeerURL p_ClientURL]. unfold peer_cost. cbn [p_ID p_PeerURL p_ClientURL].
    destruct (number_digits i ltac:(lia)) as [Hd Hl].
    destruct (local_url_text (lc_BasePort cfg + 400 + Z.of_nat i) ltac:(lia)) as [H1 H2].
    destruct (local_url_text (lc_BasePort cfg + 100 + Z.of_nat i) ltac:(lia)) as [H3 H4].
    assert (strlenN ("node-" +:+ pretty i) ≤ 6)%N.
    { rewrite strlenN_append. unfold strlenN. cbn [String.length]. lia. }
    split; [|lia]. split_and!; [|done|done]. apply ascii_text. rewrite all_bytes_app. apply andb_true_iff.
    split; [done|]. eapply all_bytes_mono, Hd. apply digit_ascii. }
  split; [split; [done|]|].
  - eapply Forall_impl; [exact Hall|]. by intros p [].
  - assert (∀ ps : list Peer, Forall (λ p, (peer_cost p ≤ 428)%N) ps →
      (foldr (λ p, N.add (peer_cost p)) 0 ps ≤ 428 * N.of_nat (length ps))%N) as Hsum.
    { induction 1 as [|p ps Hp _ IH]; [done|]. cbn [foldr length]. lia. }
    assert (length (mm_Peers (lab_membership cfg)) = Z.to_nat (lc_Nodes cfg)) as Hlen.
    { unfold lab_membership, lab_members. cbn [mm_Peers]. by rewrite !length_fmap, length_seq. }
    assert (Forall (λ p, (peer_cost p ≤ 428)%N) (mm_Peers (lab_membership cfg))) as Hc
      by (eapply Forall_impl; [exact Hall|]; by intros p []).
    apply Hsum in Hc. rewrite Hlen in Hc. unfold membership_cost. destruct Hs as [Hn _].
    change (strlenN (mm_ClusterID (lab_membership cfg))) with 13%N. destruct Hn as [E|E]; rewrite E in Hc; cbn in Hc |- *; lia.
Qed.

(** ** The checks of the nodes *)

(** What [url.Parse] makes of a local address. *)
Definition parses_local `{URLs} : Prop := ∀ port, 0 < port < 65536 →
  Parse (local_url port) = inr (mkURL "http" ("127.0.0.1:" +:+ pretty port) false "" "" "").

(** What [json.MarshalIndent] writes of a representable membership is not too long,
    and decodes to it. *)
Definition writes_membership `{Json Membership, JsonStream} (marshal : Membership → error + string) : Prop :=
  ∀ mm, rep_membership mm → ∃ s rest, marshal mm = inr s ∧ (strlenN s ≤ membership_cost mm)%N ∧
    Decode (whole s) = inr (mm, rest) ∧ DecodeAny rest = AtEOF.

Lemma LoadMembership_written `{Json Membership, JsonStream} marshal mm :
  writes_membership marshal → rep_membership mm → (membership_cost mm < 1048576)%N →
  ∃ s, marshal mm = inr s ∧ LoadMembership (inr (whole s)) = inr mm.
Proof.
  intros Hw Hr Hc. destruct (Hw mm Hr) as (s&rest&Hs&Hl&Hd&He). exists s. split; [done|].
  unfold LoadMembership, LimitReader. cbn [whole rd_bytes].
  destruct (N.leb_spec 1048576 (strlenN s)) as [Hge|_]; [lia|]. by rewrite Hd, He.
Qed.

Section checks.
Context `{HP : Platform}.

Lemma local_origin port : parses_local → 0 < port < 65536 → valid_origin (local_url port) = true.
Proof. intros Hp H. unfold valid_origin. by rewrite Hp. Qed.

Lemma check_addresses_ok l seen :
  Forall (λ a, valid_origin a = true) l → NoDup l → (∀ a, a ∈ l → a ∉ seen) →
  check_addresses l seen = inr (list_to_set l ∪ seen).
Proof.
  intros Hv. revert seen. induction Hv as [|a l Ha Hv IH]; intros seen Hnd Hs; cbn [check_addresses list_to_set].
  - f_equal. set_solver.
  - apply NoDup_cons in Hnd as [Hal Hnd]. rewrite Ha. cbn [negb].
    rewrite bool_decide_eq_false_2 by (apply Hs; by left). rewrite IH; [f_equal; set_solver|done|].
    intros b Hb. rewrite elem_of_union, elem_of_singleton. intros [->|Hin]; [done|]. by eapply Hs; [right|].
Qed.

(** Members with distinct names and addresses pass the node's checks. *)
Lemma accepted_peers ps peers seen ids :
  NoDup (p_ID <$> ps) → NoDup (ps ≫= addresses_of) →
  Forall (λ p, p_ID p ≠ "" ∧ Forall (λ a, valid_origin a = true) (addresses_of p)) ps →
  (∀ p, p ∈ ps → peers !! p_ID p = None) → (∀ a, a ∈ ps ≫= addresses_of → a ∉ seen) →
  ∃ peers', check_peers ps peers seen ids = inr (peers', ids ++ (p_ID <$> ps)).
Proof.
  revert peers seen ids. induction ps as [|p ps IH]; intros peers seen ids Hids Hnd Hok Hp Hs.
  { exists peers. cbn. by rewrite app_nil_r. }
  apply Forall_cons in Hok as [[Hne Hva] Hok]. cbn in Hids. apply NoDup_cons in Hids as [Hnp Hids].
  rewrite bind_cons in Hnd, Hs. apply NoDup_app in Hnd as (Hn1&Hdis&Hn2). cbn [check_peers].
  rewrite bool_decide_eq_false_2 by done. rewrite bool_decide_eq_false_2 by (rewrite Hp by (by left); by intros []).
  rewrite (check_addresses_ok (addresses_of p)); [|done|done|intros a Ha; apply Hs, elem_of_app; by left].
  destruct (IH (<[p_ID p := p]> peers) (list_to_set (addresses_of p) ∪ seen) (ids ++ [p_ID p])) as (peers'&Hc).
  - done.
  - done.
  - done.
  - intros q Hq. rewrite lookup_insert_ne; [apply Hp; by right|]. intros E. apply Hnp. rewrite E. by apply list_elem_of_fmap_2.
  - intros a Ha. rewrite elem_of_union, elem_of_list_to_set. intros [Hin|Hin]; [by eapply Hdis|].
    eapply Hs; [|exact Hin]. apply elem_of_app. by right.
  - exists peers'. by rewrite Hc, <-app_assoc.
Qed.

(** The configuration of a member. *)
Lemma member_configured cfg f :
  lab_sized cfg → parses_local → nf_id f ∈ p_ID <$> mm_Peers (lab_membership cfg) → nf_fixed_leader f = "" →
  ∃ peers identity,
    check_config (with_defaults (node_config f (lab_membership cfg))) true false = inr (peers, identity) ∧
    ∀ id p, peers !! id = Some p ↔ p ∈ mm_Peers (lab_membership cfg) ∧ p_ID p = id.
Proof.
  intros Hs Hv Hid Hf. set (ps := mm_Peers (lab_membership cfg)) in *.
  assert (NoDup (p_ID <$> ps)) as Hids.
  { unfold ps, lab_membership. cbn [mm_Peers]. rewrite <-list_fmap_compose. apply lab_members_ids. }
  destruct (accepted_peers ps ∅ ∅ []) as (peers&Hc).
  - done.
  - unfold ps. rewrite lab_addresses. apply (NoDup_fmap_2 local_url), peer_ports_nodup.
    destruct Hs as [[-> | ->] _]; auto.
  - apply Forall_forall. intros p Hp. destruct (lab_member_in cfg p Hs Hp) as (i&Hi&->). destruct Hs as [_ Hb].
    split; [done|]. repeat (apply Forall_cons; split); [..|by apply Forall_nil]; apply local_origin; try done; lia.
  - intros p _. apply lookup_empty.
  - intros x _. apply not_elem_of_empty.
  - destruct (check_peers_ok _ _ _ _ _ _ Hc) as (Hin&_&Hall&_).
    apply list_elem_of_fmap in Hid as (q&Hq&Hqin). unfold check_config, node_config, with_defaults.
    cbn [cfg_ID cfg_ClusterID cfg_Peers cfg_FixedLeader mm_ClusterID]. fold ps. rewrite Hc, Hf.
    assert (nf_id f ≠ "") as Hne.
    { rewrite Hq. destruct (lab_member_in cfg q Hs Hqin) as (i&_&->). done. }
    rewrite (bool_decide_eq_false_2 (nf_id f = "")) by done.
    rewrite (bool_decide_eq_true_2 (is_Some (peers !! nf_id f))) by (rewrite Hq; by apply Hall).
    eexists peers, _. split; [reflexivity|]. intros id p. split.
    + intros Hp. destruct (Hin id p Hp) as [He|(?&?&_)]; [by rewrite lookup_empty in He|done].
    + intros [Hp <-]. destruct (Hall p Hp) as [p' Hp']. rewrite Hp'. f_equal.
      destruct (Hin _ _ Hp') as [He|(Hp2&He&_)]; [by rewrite lookup_empty in He|].
      apply list_elem_of_lookup in Hp as [i Hi], Hp2 as [j Hj].
      assert (i = j) as ->; [|congruence].
      apply (NoDup_lookup _ i j (p_ID p) Hids); rewrite list_lookup_fmap; [by rewrite Hi|by rewrite Hj; cbn; rewrite He].
Qed.

End checks.

(** The node of a member reads from its arguments what the lab has put there. *)
Lemma arguments_read `{URLs} parse_uint m n :
  parse_flags (set_node_flag parse_uint) (node_arguments m n) node_defaults =
    inr (mkNodeFlags (mb_ID n) (without_scheme (mb_ClientURL n)) (Join [lc_DataDir (mg_cfg m); mb_ID n])
           (mg_configPath m) (mb_PeerAddress n) "" 128 (without_scheme (mb_AdminURL n))).
Proof. reflexivity. Qed.

Lemma substring_all s : String.substring 0 (String.length s) s = s.
Proof. induction s as [|c s IH]; [done|]. cbn. by rewrite IH. Qed.

Lemma scheme_cut s : without_scheme ("http://" +:+ s) = s.
Proof.
  unfold without_scheme. change (String.length ("http://" +:+ s)) with (7 + String.length s)%nat.
  replace (7 + String.length s - 7)%nat with (String.length s) by lia. exact (substring_all s).
Qed.

(** C33. The nodes of the lab accept what the lab tells them.  Whenever in the life of
    a lab that [New] has started a member is started, its node reads from the
    arguments that [Start] gives it its own id and the addresses the lab reaches it
    at, finds at the path it is given the membership that [New] has written, and
    passes the checks of its configuration, with exactly the members of the lab as
    its peers, behind their proxies.  The library's part: [url.Parse] understands
    local addresses, and JSON memberships can be read back. *)
Theorem lab_nodes_configured `{HP : Platform, HM : Json Membership, HS : JsonStream}
    parse_uint marshal_error json_valid cfg a ops m0 m n :
  parses_local → writes_membership (na_marshal a) →
  Lab.New cfg a = Some (inr m0) → run_ops marshal_error json_valid ops m0 = Some (tt, m) → n ∈ mg_members m →
  ∃ f file mm peers identity,
    parse_flags (set_node_flag parse_uint) (node_arguments m n) node_defaults = inr f ∧
    mg_files m !! nf_cluster f = Some file ∧ LoadMembership (inr (whole file)) = inr mm ∧
    check_config (with_defaults (node_config f mm)) true false = inr (peers, identity) ∧
    nf_id f = mb_ID n ∧ nf_peer_listen f = mb_PeerAddress n ∧
    mb_ClientURL n = "http://" +:+ nf_listen f ∧ mb_AdminURL n = "http://" +:+ nf_admin_listen f ∧
    ∀ id p, peers !! id = Some p ↔ ∃ n', n' ∈ mg_members m ∧ mb_ID n' = id ∧ p = lab_peer n'.
Proof.
  intros Hv Hw Hnew Hrun Hn. destruct (New_setup cfg a m0 Hnew) as (Hnodes&Hbase&b&Hb&Hset). cbv zeta in Hset.
  assert (lab_sized cfg) as Hs by done. destruct (lab_membership_rep cfg Hs) as [Hrep Hcost].
  destruct (LoadMembership_written _ _ Hw Hrep Hcost) as (s&Hms&Hload). rewrite Hms in Hb. subst b.
  rewrite <-(run_ops_setup _ _ _ _ _ Hrun) in Hset. injection Hset as Hcfg Hpath Hfiles Hplaces.
  assert (∀ p, p ∈ mm_Peers (lab_membership cfg) ↔ ∃ n', n' ∈ mg_members m ∧ p = lab_peer n') as Hpeers.
  { assert (lab_peer <$> lab_members cfg = lab_peer <$> mg_members m) as E.
    { clear -Hplaces. revert Hplaces. generalize (lab_members cfg). induction (mg_members m) as [|x l IH];
        intros [|y l'] E; try done. injection E as E1 E2 E3 E4 E5 E6. cbn. rewrite (IH l' E6).
      f_equal. apply lab_peer_place. unfold place. by rewrite E1, E2, E3, E4, E5. }
    intros p. unfold lab_membership. cbn [mm_Peers]. rewrite E, list_elem_of_fmap. naive_solver. }
  assert (∃ k, k ∈ lab_members cfg ∧ place n = place k) as (k&Hk&Hplace).
  { assert (place n ∈ place <$> mg_members m) as Hin by (by apply list_elem_of_fmap_2).
    rewrite Hplaces in Hin. apply list_elem_of_fmap in Hin as (k&?&?). by exists k. }
  eexists _, s, (lab_membership cfg).
  destruct (member_configured cfg (mkNodeFlags (mb_ID n) (without_scheme (mb_ClientURL n))
    (Join [lc_DataDir (mg_cfg m); mb_ID n]) (mg_configPath m) (mb_PeerAddress n) "" 128
    (without_scheme (mb_AdminURL n))) Hs Hv) as (peers&identity&Hc&Hall); [|done|].
  { cbn [nf_id]. change (mb_ID n) with (p_ID (lab_peer n)). apply list_elem_of_fmap_2, Hpeers. by exists n. }
  exists peers, identity. split; [apply arguments_read|].
  cbn [nf_cluster nf_id nf_peer_listen nf_listen nf_admin_listen].
  split; [by rewrite Hfiles, Hpath, lookup_singleton_eq|]. split; [done|]. split; [exact Hc|].
  split; [done|]. split; [done|].
  unfold place in Hplace. injection Hplace as _ -> _ -> _.
  unfold lab_members in Hk. apply list_elem_of_fmap in Hk as (i&->&_). split; [|split].
  - exact (eq_sym (f_equal (String.append "http://") (scheme_cut ("127.0.0.1:" +:+ _)))).
  - exact (eq_sym (f_equal (String.append "http://") (scheme_cut ("127.0.0.1:" +:+ _)))).
  - intros id p. rewrite Hall, Hpeers. naive_solver.
Qed.

(** ** Witness *)

(** Memberships in the encoding of [Transport], and [url.Parse] on local addresses. *)
Fixpoint put_peers (ps : list Peer) : bytes :=
  match ps with
  | [] => put_flag false
  | p :: ps =>
    put_flag true ++ put_text (p_ID p) ++ put_text (p_PeerURL p) ++ put_text (p_ClientURL p) ++ put_peers ps
  end.
Fixpoint get_peers (fuel : nat) (b : bytes) : option (list Peer * bytes) :=
  match fuel with
  | O => None
  | S fuel =>
    '(more, b) ← get_flag b;
    if (more : bool) then
      '(id, b) ← get_text b; '(peer, b) ← get_text b; '(client, b) ← get_text b;
      '(ps, b) ← get_peers fuel b; Some (mkPeer id peer client :: ps, b)
    else Some ([], b)
  end.

Definition put_membership (mm : Membership) : bytes := put_text (mm_ClusterID mm) ++ put_peers (mm_Peers mm).
Definition get_membership (b : bytes) : option (Membership * bytes) :=
  '(cluster, b) ← get_text b; '(ps, b) ← get_peers (length b) b; Some (mkMembership cluster ps, b).

#[local] Arguments put_text : simpl never.
#[local] Arguments get_text : simpl never.
#[local] Arguments put_flag : simpl never.
#[local] Arguments get_flag : simpl never.

Lemma length_put_peers ps :
  (lenN (put_peers ps) ≤ foldr (λ p, N.add (peer_cost p)) 1 ps)%N ∧ (length ps < length (put_peers ps))%nat.
Proof.
  induction ps as [|p ps [IH1 IH2]]; [split; [done|exact Nat.lt_0_1]|]. cbn [put_peers foldr length].
  set (cost := foldr _ _ ps) in *. rewrite !lenN_app, !length_app. rewrite !length_put_text. change (lenN (put_flag true)) with 1%N.
  change (length (put_flag true)) with 1%nat. unfold peer_cost. split; lia.
Qed.

Lemma get_put_peers ps fuel rest : (length ps < fuel)%nat → get_peers fuel (put_peers ps ++ rest) = Some (ps, rest).
Proof.
  revert fuel. induction ps as [|p ps IH]; intros [|fuel] Hf; cbn in Hf; try lia; cbn [put_peers get_peers].
  - rewrite get_put_flag. done.
  - rewrite <-!app_assoc, get_put_flag. cbn [mbind option_bind].
    do 3 (rewrite get_put_text; cbn [mbind option_bind]). rewrite IH by lia. by destruct p.
Qed.

#[local] Instance flat_membership_json : Json Membership := flat_json put_membership get_membership.
#[local] Existing Instance plain_stream.

Lemma flat_writes : writes_membership (Encode : Membership → error + string).
Proof.
  intros mm _. exists (String.string_of_list_byte (put_membership mm)), (whole ""). split; [done|].
  destruct (length_put_peers (mm_Peers mm)) as [H1 H2]. split; [|split; [|done]].
  - unfold strlenN. rewrite length_string_of_bytes. fold (lenN (put_membership mm)).
    unfold put_membership, membership_cost. rewrite lenN_app, length_put_text.
    assert (foldr (λ p, N.add (peer_cost p)) 1 (mm_Peers mm) = foldr (λ p, N.add (peer_cost p)) 0 (mm_Peers mm) + 1)%N as E.
    { induction (mm_Peers mm) as [|p ps IH]; [done|]. cbn [foldr]. cbn [foldr] in IH.
      destruct (length_put_peers ps) as [H3 H4]. rewrite (IH H3 H4). lia. }
    lia.
  - unfold Decode, flat_membership_json, flat_json. cbn [rd_end whole rd_bytes].
    rewrite String.list_byte_of_string_of_list_byte. unfold get_membership, put_membership.
    rewrite get_put_text. cbn [mbind option_bind].
    pose proof (get_put_peers (mm_Peers mm) (length (put_peers (mm_Peers mm))) [] H2) as H.
    rewrite app_nil_r in H. rewrite H. by destruct mm.
Qed.

#[local] Instance local_platform : Platform := {| platform_urls := ex_urls; identity_of _ id _ _ := id |}.

Lemma no_slash s : all_bytes (λ c, negb (Ascii.eqb c "/")) s = true → String.index 0 "/" s = None.
Proof.
  induction s as [|c s IH]; [done|]. cbn [all_bytes]. rewrite andb_true_iff, negb_true_iff. intros [Hc Hs].
  cbn [String.index]. apply Ascii.eqb_neq in Hc.
  assert (String.prefix "/" (String c s) = false) as ->.
  { change (String.prefix "/" (String c s)) with (if ascii_dec "/" c then String.prefix "" s else false).
    destruct (ascii_dec "/" c) as [E|]; [by subst|done]. }
  by rewrite (IH Hs).
Qed.

Lemma ex_parses : parses_local.
Proof.
  intros port Hp. destruct (port_digits port Hp) as [Hd _].
  change (Parse (local_url port)) with (plain_Parse (local_url port)).
  unfold plain_Parse, local_url. change (String.prefix "http://" _) with true. cbv iota.
  change (String.substring 7 _ _) with (without_scheme ("http://" +:+ ("127.0.0.1:" +:+ pretty port))).
  rewrite scheme_cut. unfold cut_slash. rewrite no_slash; [done|].
  rewrite all_bytes_app. apply andb_true_iff. split; [done|]. eapply all_bytes_mono, Hd.
  intros [[] [] [] [] [] [] [] []]; done.
Qed.

Definition ex_lab_new : new_answer :=
  mkNewAnswer (λ _, None) None (inr "token") Encode (λ _ _, None) (λ _, None) (λ _, ex_start) (λ _, None).

(** Member 2 is stopped and started again. *)
Definition ex_restart : list lab_op :=
  [OCrash 1 (λ _, None) "node-2"; OExited 1; OStart ex_start "node-2"].

Definition ex_restarted : option Manager :=
  match Lab.New ex_config ex_lab_new with
  | Some (inr m0) => snd <$> run_ops (λ s, s) (λ _, true) ex_restart m0
  | _ => None
  end.

Lemma lab_nodes_configured_witness :
  ∃ m n f mm peers identity, ex_restarted = Some m ∧ mg_members m !! 1%nat = Some n ∧ mb_cmd n = Some 3%nat ∧
    parse_flags (set_node_flag (λ _, inr 0%N)) (node_arguments m n) node_defaults = inr f ∧
    check_config (with_defaults (node_config f mm)) true false = inr (peers, identity) ∧
    nf_id f = "node-2" ∧ dom (peers : gmap string Peer) = {["node-1"; "node-2"; "node-3"]}.
Proof.
  destruct (Lab.New ex_config ex_lab_new) as [[[err m0]|m0]|] eqn:Hn; [vm_compute in Hn; discriminate| |vm_compute in Hn; discriminate].
  destruct (run_ops (λ s, s) (λ _, true) ex_restart m0) as [[[] m]|] eqn:Hr.
  2: { vm_compute in Hn. injection Hn as <-. vm_compute in Hr. discriminate. }
  assert (ex_restarted = Some m) as Hm by (unfold ex_restarted; rewrite Hn, Hr; reflexivity).
  assert ((λ m, (λ n, (mb_ID n, mb_cmd n)) <$> mg_members m) <$> ex_restarted =
    Some [("node-1", Some 0%nat); ("node-2", Some 3%nat); ("node-3", Some 2%nat)]) as Hids by (vm_compute; reflexivity).
  rewrite Hm in Hids. cbn in Hids. injection Hids as Hids.
  destruct (mg_members m) as [|n1 [|n2 [|n3 [|]]]] eqn:Hms; try discriminate Hids.
  cbn in Hids. injection Hids as H1 _ H2 Hc H3 _.
  destruct (lab_nodes_configured (λ _, inr 0%N) (λ s, s) (λ _, true) ex_config ex_lab_new ex_restart m0 m n2
    ex_parses flat_writes Hn Hr) as (f&file&mm&peers&identity&Hf&_&_&Hcheck&Hid&_&_&_&Hpeers);
    [rewrite Hms; right; left|].
  exists m, n2, f, mm, peers, identity. split; [exact Hm|]. split; [rewrite Hms; reflexivity|]. split; [exact Hc|].
  split; [exact Hf|]. split; [exact Hcheck|]. split; [by rewrite Hid|].
  apply set_eq. intros x. rewrite elem_of_dom, !elem_of_union, !elem_of_singleton. rewrite Hms in Hpeers. split.
  - intros [p Hp]. apply Hpeers in Hp as (n'&Hin&<-&_). rewrite !elem_of_cons in Hin.
    destruct Hin as [->|[->|[->|Hin]]]; [rewrite H1|rewrite H2|rewrite H3|by apply elem_of_nil in Hin]; auto.
  - intros [[->| ->]| ->]; eexists; apply Hpeers; [exists n1|exists n2|exists n3]; (split; [|by split]);
      rewrite !elem_of_cons; auto.
Defined.
