(* ===== verification/Defer.v ===== *)
(** * Defer: functions with deferred calls

    The [run] functions of the commands are computations that log what they do and
    may defer calls, which run, latest first, when the function returns; and what
    it means that such a log releases what it has opened. *)

From stdpp Require Import base list strings options.
From S2P Require Import Prelude.

#[local] Set Default Proof Using "Type*".

(** ** Functions with deferred calls *)

Section functions.
Context {X : Type}.

(** What the function has done, and the calls it has deferred, latest first; a
    deferred call does what it does given what has been done when it runs. *)
Record frame := mkFrame { fr_log : list X; fr_defers : list (list X → list X) }.

(** Inside the function: a panic, an event to wait for that has not come, a
    return with an error or none, or control that goes on. *)
Inductive step (A : Type) :=
  | Panics
  | Waits (log : list X)
  | Returns (r : option error) (s : frame)
  | Goes (a : A) (s : frame).
Arguments Panics {_}. Arguments Waits {_} _. Arguments Returns {_} _ _. Arguments Goes {_} _ _.

Definition func (A : Type) := frame → step A.

#[export] Instance func_ret : MRet func := λ A a s, Goes a s.
#[export] Instance func_bind : MBind func := λ A B f m s,
  match m s with
  | Panics => Panics
  | Waits log => Waits log
  | Returns r s => Returns r s
  | Goes a s => f a s
  end.

Definition return_ {A} (r : option error) : func A := λ s, Returns r s.
Definition wait {A} : func A := λ s, Waits (fr_log s).
Definition perform (x : X) : func unit := λ s, Goes tt (mkFrame (fr_log s ++ [x]) (fr_defers s)).
Definition defer (c : list X → list X) : func unit := λ s, Goes tt (mkFrame (fr_log s) (c :: fr_defers s)).

(** [if err != nil { return err }], with and without a value. *)
Definition check (e : option error) : func unit :=
  match e with Some err => return_ (Some err) | None => mret tt end.
Definition try {A} (e : error + A) : func A :=
  match e with inl err => return_ (Some err) | inr a => mret a end.
Definition present {A} (o : option A) : func A := λ s,
  match o with None => Panics | Some a => Goes a s end.

Inductive ending :=
  | Panicked
  | Waiting (log : list X)
  | Returned (r : option error) (log : list X).

(** The call of a function: when it returns, the deferred calls run. *)
Definition call (m : func unit) : ending :=
  let close s := foldl (λ log c, log ++ c log) (fr_log s) (fr_defers s) in
  match m (mkFrame [] []) with
  | Panics => Panicked
  | Waits log => Waiting log
  | Returns r s => Returned r (close s)
  | Goes tt s => Returned None (close s)
  end.

End functions.
Arguments Panics {_ _}. Arguments Waits {_ _} _. Arguments Returns {_ _} _ _. Arguments Goes {_ _} _ _.
Arguments frame : clear implicits. Arguments func : clear implicits. Arguments ending : clear implicits.

(** Symbolic execution of a function. *)
Ltac run_func :=
  cbv beta iota zeta delta [call mbind mret func_ret func_bind return_ wait perform defer check try present Defer.fr_log Defer.fr_defers].

(** The next question that the run asks. *)
Ltac ask :=
  match goal with
  | |- context [match ?x with _ => _ end] =>
    lazymatch x with
    | context [match _ with _ => _ end] => fail
    | context [frame] => fail
    | _ => let E := fresh "E" in destruct x eqn:E; run_func
    end
  end.

(** ** What is opened is closed *)

Inductive act (H : Type) :=
  | Opened (h : H)
  | Serving (h : H)       (* a goroutine serves a listener *)
  | Shutting (h : H)      (* a graceful shutdown, or SIGTERM *)
  | Killing (h : H)
  | Closed (h : H)        (* closed, or a child that ended and was waited for *)
  | Ran (words : list string)
  | Made (directory : string).
Arguments Opened {_} _. Arguments Serving {_} _. Arguments Shutting {_} _. Arguments Killing {_} _.
Arguments Closed {_} _. Arguments Ran {_} _. Arguments Made {_} _.

Section acts.
Context {H : Type} `{!EqDecision H}.

Definition closes (h : H) (log : list (act H)) : bool :=
  existsb (λ x, match x with Closed h' => bool_decide (h' = h) | _ => false end) log.

(** Whatever is opened, or begins to serve, is closed later. *)
Fixpoint released (log : list (act H)) : bool :=
  match log with
  | [] => true
  | Opened h :: log | Serving h :: log => closes h log && released log
  | _ :: log => released log
  end.

Definition serves (h : H) (log : list (act H)) : bool :=
  existsb (λ x, match x with Serving h' => bool_decide (h' = h) | _ => false end) log.

(** Nothing that [uses] names is closed while one of its users still serves;
    [up] are the servers that serve. *)
Fixpoint outlived (uses : H → list H) (up : list H) (log : list (act H)) : bool :=
  match log with
  | [] => true
  | Serving h :: log => outlived uses (h :: up) log
  | Closed h :: log =>
    forallb (λ s, negb (bool_decide (s ∈ uses h))) up &&
    outlived uses (filter (λ s, s ≠ h) up) log
  | _ :: log => outlived uses up log
  end.

(** What has been opened or serves. *)
Definition held (log : list (act H)) : list H :=
  log ≫= λ x, match x with Opened h | Serving h => [h] | _ => [] end.

Lemma released_app l1 l2 : (∀ h, h ∈ held l1 → closes h l2 = true) → released l2 = true → released (l1 ++ l2) = true.
Proof using Type.
  intros Hc Hr. assert (∀ h l, closes h l2 = true → closes h (l ++ l2) = true) as Happ.
  { intros h l E. unfold closes. rewrite existsb_app. by apply orb_true_iff; right. }
  induction l1 as [|x l1 IH]; [done|]. unfold held in Hc. rewrite bind_cons in Hc.
  destruct x; cbn [app released] in Hc |- *.
  1,2: apply andb_true_iff; split; [apply Happ, Hc; by left|apply IH; intros h' Hh'; apply Hc; by right].
  all: by apply IH.
Qed.

(** To open a thing and defer its closing; to defer the closing alone. *)
Definition release (h : H) : func (act H) unit := defer (λ _, [Closed h]).
Definition hold (h : H) : func (act H) unit := perform (Opened h) ;; release h.

End acts.
