(* ===== verification/Processes.v ===== *)
(** * Processes: the lives of the program's processes

    What the [run] functions of the commands start, hold and release: the node
    (src/cmd/node/main.go), the local launcher (src/cmd/cluster/main.go) and the
    laboratory (src/cmd/lab/main.go), as functions with deferred calls ([Defer]);
    what the system answers is an argument. *)

From Stdlib Require Import Strings.Ascii Strings.String.
From stdpp Require Import base numbers list gmap strings fin_maps pretty options.
From S2P Require Import Prelude Effects Store Node Client Urls Http Lab LabHttp LabProps Commands Defer.

Local Open Scope Z_scope.
#[local] Set Default Proof Using "Type*".

(** ** The node (cmd/node/main.go) *)

Inductive node_handle :=
  | Database | Raft | PeerListener | AdminListener | ClientListener | Signals
  | ClientServer | PeerServer | AdminServer.

#[export] Instance node_handle_dec : EqDecision node_handle.
Proof. solve_decision. Defined.

(** What a node serves: the client listener's handler and, of a member, the peer
    listener and the admin listener with its token. *)
Inductive served (D M : Type) :=
  | ServeDatabase (db : D) (id : string)
  | ServeMember (node : M) (admin : option string).
Arguments ServeDatabase {_ _} _ _. Arguments ServeMember {_ _} _ _.

(** What the system answers. *)
Record node_answers (D M : Type) := mkNodeAnswers {
  no_database : string → error + D;
  no_membership : string → error + Membership;
  no_listen : node_handle → string → option error;
  no_open : Config → error + M;
  no_loopback : string → bool;        (* [net.ParseIP(host).IsLoopback()] *)
  no_token : string;                  (* SHARDZERO_ADMIN_TOKEN *)
  no_shutdown : node_handle → option error;
}.
Arguments no_database {_ _} _ _. Arguments no_membership {_ _} _ _. Arguments no_listen {_ _} _ _.
Arguments no_open {_ _} _ _. Arguments no_loopback {_ _} _ _. Arguments no_token {_ _} _. Arguments no_shutdown {_ _} _ _.

(** What ends the wait of the process: a server's [Serve] returns, or a signal
    arrives. *)
Inductive process_event :=
  | ServeReturned (err : error)
  | Signalled.

(** [http.ErrServerClosed]. *)
Definition ErrServerClosed : error := ErrNew "http: Server closed".

(** Whether an address may be used by a listener for this machine alone. *)
Definition loopback `{Net} (parse : string → bool) (address : string) : bool :=
  match SplitHostPort address with inl _ => false | inr (host, _) => parse host end.

Section node.
Context `{HN : Net} {D M : Type} (a : node_answers D M) (f : node_flags).

(** The admin listener and its token. *)
Definition admin_listener : func (act node_handle) (option string) :=
  if bool_decide (nf_admin_listen f = "") then mret None
  else if negb (loopback (no_loopback a) (nf_admin_listen f))
  then return_ (Some (ErrNew "admin listener must use a loopback IP"))
  else if bool_decide (no_token a = "") then return_ (Some (ErrNew "admin token required"))
  else
    check (no_listen a AdminListener (nf_admin_listen f)) ;;
    hold AdminListener ;;
    release AdminServer ;;
    mret (Some (no_token a)).

Definition node_start : func (act node_handle) (served D M) :=
  s ← (if bool_decide (nf_cluster f = "") then
         if bool_decide (nf_fixed_leader f ≠ "") then return_ (Some (ErrNew "--fixed-leader requires --cluster"))
         else
           db ← try (no_database a (data_directory f));
           hold Database ;;
           mret (ServeDatabase db (nf_id f))
       else
         m ← try (no_membership a (nf_cluster f));
         check (no_listen a PeerListener (nf_peer_listen f)) ;;
         hold PeerListener ;;
         node ← try (no_open a (node_config f m));
         hold Raft ;;
         admin ← admin_listener;
         mret (ServeMember node admin));
  check (no_listen a ClientListener (nf_listen f)) ;;
  hold ClientListener ;;
  mret s.

Definition has_peer (s : served D M) : bool := match s with ServeMember _ _ => true | _ => false end.
Definition has_admin (s : served D M) : bool := match s with ServeMember _ (Some _) => true | _ => false end.

Definition shut (h : node_handle) : func (act node_handle) unit := perform (Shutting h) ;; check (no_shutdown a h).

(** The branch of the select on a signal. *)
Definition node_shutdown (s : served D M) : func (act node_handle) unit :=
  perform (Shutting ClientServer) ;;
  match no_shutdown a ClientServer with
  | Some err => perform (Closed ClientServer) ;; return_ (Some err)
  | None =>
    (if has_peer s then shut PeerServer else mret tt) ;;
    (if has_admin s then shut AdminServer else mret tt)
  end.

(** [run]: the start, the servers, and what ends the wait. *)
Definition node_process (event : option process_event) : func (act node_handle) unit :=
  s ← node_start;
  hold Signals ;;
  perform (Serving ClientServer) ;; release ClientServer ;;
  (if has_peer s then perform (Serving PeerServer) ;; release PeerServer else mret tt) ;;
  (if has_admin s then perform (Serving AdminServer) else mret tt) ;;
  match event with
  | None => wait
  | Some (ServeReturned err) =>
    if error_is (λ e, bool_decide (e = ErrServerClosed)) err then return_ None else return_ (Some err)
  | Some Signalled => node_shutdown s
  end.

(** The servers whose handlers call the database or the Raft node. *)
Definition node_uses (h : node_handle) : list node_handle :=
  match h with
  | Database => [ClientServer]
  | Raft => [ClientServer; PeerServer; AdminServer]
  | _ => []
  end.

(** The admin listener serves only this machine, and only with a token. *)
Definition admin_guarded (log : list (act node_handle)) : Prop :=
  serves AdminServer log = true → loopback (no_loopback a) (nf_admin_listen f) = true ∧ no_token a ≠ "".

Ltac guarded :=
  solve [ intros H; discriminate H
        | intros _; split; [by apply negb_false_iff|by eapply bool_decide_eq_false_1] ].

(** A flag that is not empty, in the branch where it is. *)
Ltac contradicted Hf :=
  match type of Hf with
  | ?x ≠ _ => match goal with E : bool_decide (x = _) = true |- _ => by apply bool_decide_eq_true_1 in E end
  end.

(** C36. The life of a node's process: it returns only with everything closed that it
    had opened, on every path and whatever fails; neither the database nor the
    Raft node is ever closed before a server whose handlers use it; the admin
    listener serves only on a loopback address and with a token; and the process
    ends without an error only when its servers had been closed, or a signal came
    and every server that it has was shut down in time. *)
Theorem node_lifetime event :
  match call (node_process event) with
  | Panicked => False
  | Waiting log => event = None ∧ outlived node_uses [] log = true ∧ admin_guarded log
  | Returned r log =>
    released log = true ∧ outlived node_uses [] log = true ∧ admin_guarded log ∧
    (r = None → (∃ err, event = Some (ServeReturned err) ∧ error_is (λ e, bool_decide (e = ErrServerClosed)) err = true) ∨
      event = Some Signalled ∧ no_shutdown a ClientServer = None ∧
      (nf_cluster f ≠ "" → no_shutdown a PeerServer = None ∧
         (nf_admin_listen f ≠ "" → no_shutdown a AdminServer = None)))
  end.
Proof.
  unfold node_process, node_start, admin_listener, node_shutdown, shut, hold, release, has_peer, has_admin, admin_guarded.
  run_func. repeat ask.
  all: repeat (split; [reflexivity|]); try (split; [guarded|]); try guarded.
  all: try (intros [=]; fail).
  all: try (intros _; left; by eexists).
  all: intros _; right; do 2 (split; [reflexivity|]); intros Hc; try contradicted Hc.
  all: split; [reflexivity|]; intros Ha; first [reflexivity|contradicted Ha].
Qed.

End node.

(** ** The local launcher (cmd/cluster/main.go) *)

Inductive launch_handle :=
  | LaunchSignals
  | Child (command : list string) (i : nat).

#[export] Instance launch_handle_dec : EqDecision launch_handle.
Proof. solve_decision. Defined.

(** What the system answers, [la_ends] whether a child ends within five seconds
    of being asked to. *)
Record launch_answers := mkLaunchAnswers {
  la_windows : bool;
  la_membership : error + Membership;
  la_mkdir : option error;
  la_abs : string → error + string;   (* [filepath.Abs] *)
  la_build : option error;
  la_start : nat → list string → option error;
  la_ends : nat → bool;
}.

Definition binary_path (windows : bool) (name : string) : string :=
  Join ["bin"; if windows then name +:+ ".exe" else name].

Section launcher.
Context `{HU : URLs} (a : launch_answers) (f : launch_flags).

(** The deferred function: the children are asked to end, then waited for. *)
Definition ask_end (h : launch_handle) : act launch_handle := if la_windows a then Killing h else Shutting h.
Definition reap (h : launch_handle) : list (act launch_handle) :=
  match h with
  | Child _ i => (if la_ends a i then [] else [Killing h]) ++ [Closed h]
  | LaunchSignals => []
  end.
Definition children (log : list (act launch_handle)) : list launch_handle :=
  filter (λ h, h ≠ LaunchSignals) (held log).
Definition stop_children (log : list (act launch_handle)) : list (act launch_handle) :=
  (ask_end <$> children log) ++ (children log ≫= reap).

Fixpoint start_children (binary : string) (i : nat) (ps : list Peer) : func (act launch_handle) unit :=
  match ps with
  | [] => mret tt
  | p :: ps =>
    args ← present (child_arguments f p);
    check (la_start a i (binary :: args)) ;;
    perform (Opened (Child (binary :: args) i)) ;;
    start_children binary (S i) ps
  end.

Definition wrap_build (e : option error) : option error := ErrWrap "build node: " <$> e.

(** [run]. *)
Definition launcher_process (events : list launch_event) : func (act launch_handle) unit :=
  m ← try (la_membership a);
  if bool_decide (mm_Peers m = []) then return_ (Some (ErrNew "empty cluster"))
  else
    check (check_members (mm_Peers m)) ;;
    check (la_mkdir a) ;; perform (Made "bin") ;;
    binary ← try (la_abs a (binary_path (la_windows a) "shardzero-node"));
    hold LaunchSignals ;;
    perform (Ran ["go"; "build"; "-o"; binary; "./cmd/node"]) ;;
    check (wrap_build (la_build a)) ;;
    defer stop_children ;;
    start_children binary 0 (mm_Peers m) ;;
    match supervise events (Z.of_nat (length (mm_Peers m))) with
    | None => wait
    | Some r => return_ r
    end.

(** The children that were started. *)
Definition is_child (h : launch_handle) : Prop :=
  match h with Child command i => la_start a i command = None | LaunchSignals => False end.

Lemma start_children_run binary i ps s : forallb member_ok ps = true →
  ∃ cs err,
    start_children binary i ps s =
      (match err with Some e => Returns (Some e) | None => Goes tt end) (mkFrame (fr_log s ++ (Opened <$> cs)) (fr_defers s)) ∧
    Forall is_child cs ∧ (err = None → length cs = length ps).
Proof.
  revert i s. induction ps as [|p ps IH]; intros i s; cbn [forallb start_children].
  { intros _. exists [], None. destruct s as [log defers]. cbn [fmap list_fmap fr_log fr_defers]. rewrite app_nil_r. by split_and!. }
  intros [[_ [Hp Hc]%andb_true_iff]%andb_true_iff Hps]%andb_true_iff.
  destruct (local_host _ Hp) as [peer Hpeer], (local_host _ Hc) as [client Hclient].
  unfold child_arguments. rewrite Hpeer, Hclient. cbn [option_bind].
  run_func. unfold option_bind. match goal with |- context [binary :: ?l] => set (command := binary :: l) end.
  destruct (la_start a i command) as [err|] eqn:Hs.
  { exists [], (Some err). cbn [fmap list_fmap]. rewrite app_nil_r. by destruct s as [log defers]. }
  edestruct (IH (S i) (mkFrame (fr_log s ++ [Opened (Child command i)]) (fr_defers s)) Hps) as (cs&err&Hrun&Hall&Hlen).
  destruct s as [log defers]. cbn [fr_log fr_defers] in Hrun |- *. rewrite Hrun, <-app_assoc.
  exists (Child command i :: cs), err. split; [done|]. split; [by constructor|]. intros He. cbn. by rewrite Hlen.
Qed.

(** The acts of a run that has started [cs], and those of its end. *)
Definition started (binary : string) (cs : list launch_handle) : list (act launch_handle) :=
  [Made "bin"; Opened LaunchSignals; Ran ["go"; "build"; "-o"; binary; "./cmd/node"]] ++ (Opened <$> cs).
Definition stopped (log : list (act launch_handle)) : list (act launch_handle) :=
  log ++ stop_children log ++ [Closed LaunchSignals].

Lemma held_opened (cs : list launch_handle) : held (Opened <$> cs) = cs.
Proof using Type. induction cs as [|h cs IH]; [done|]. unfold held in *. cbn. by rewrite IH. Qed.

Lemma children_started binary cs : Forall is_child cs → children (started binary cs) = cs.
Proof.
  intros Hc. unfold children, started. unfold held. rewrite bind_app. fold (held (Opened <$> cs)). rewrite held_opened.
  change (_ ++ cs) with (LaunchSignals :: cs). rewrite filter_cons_False by (by intros []).
  induction Hc as [|h cs Hh Hc IH]; [done|]. rewrite filter_cons_True by (by intros ->). by rewrite IH.
Qed.

Lemma stop_children_acts log x : x ∈ stop_children log ↔
  ∃ h, h ∈ children log ∧ (x = ask_end h ∨ x ∈ reap h).
Proof.
  unfold stop_children. rewrite elem_of_app, list_elem_of_fmap, list_elem_of_bind. naive_solver.
Qed.

(** What becomes of a child: it is asked to end, and killed when it does not; on
    Windows, which cannot ask, it is killed.  It is waited for. *)
Definition ended (h : launch_handle) (i : nat) (log : list (act launch_handle)) : Prop :=
  Closed h ∈ log ∧
  if la_windows a then Killing h ∈ log ∧ Shutting h ∉ log
  else Shutting h ∈ log ∧ (Killing h ∈ log ↔ la_ends a i = false).

Lemma stop_children_child log command i : Child command i ∈ children log →
  ended (Child command i) i (stop_children log).
Proof.
  intros Hh. unfold ended. set (h := Child command i) in *. split.
  { rewrite stop_children_acts. exists h. split; [done|]. right. subst h. cbn [reap]. set_solver. }
  destruct (la_windows a) eqn:Hw; rewrite !stop_children_acts; unfold ask_end; rewrite Hw.
  - split; [exists h; split; [exact Hh|by left]|]. intros (h'&_&[[=]|Hin]). destruct h' as [|c j]; [by apply not_elem_of_nil in Hin|].
    cbn [reap] in Hin. destruct (la_ends a j); cbn in Hin; set_solver.
  - split; [exists h; split; [exact Hh|by left]|split].
    + intros (h'&_&[[=]|Hin]). destruct h' as [|c j]; [by apply not_elem_of_nil in Hin|]. cbn [reap] in Hin.
      destruct (la_ends a j) eqn:He; cbn in Hin; set_solver.
    + intros He. exists h. split; [done|]. right. subst h. cbn [reap]. rewrite He. set_solver.
Qed.

(** The acts that start the children end none. *)
Lemma ended_app h i log1 log2 :
  Killing h ∉ log1 → Shutting h ∉ log1 → ended h i log2 → ended h i (log1 ++ log2 ++ [Closed LaunchSignals]).
Proof.
  intros Hk Hs [Hc He]. assert (∀ x, x ≠ Closed LaunchSignals → x ∉ log1 →
    (x ∈ log1 ++ log2 ++ [Closed LaunchSignals] ↔ x ∈ log2)) as Hin.
  { intros x Hx Hx1. rewrite !elem_of_app, list_elem_of_singleton. naive_solver. }
  split; [by rewrite !elem_of_app; auto|]. destruct (la_windows a); rewrite !Hin by done; done.
Qed.

Lemma closes_elem (h : launch_handle) log : Closed h ∈ log → closes h log = true.
Proof using Type.
  intros Hin. apply existsb_exists. exists (Closed h). split; [by apply list_elem_of_In|by apply bool_decide_eq_true].
Qed.

Lemma released_tail (log : list (act launch_handle)) : held log = [] → released log = true.
Proof using Type.
  induction log as [|x log IH]; [done|]. unfold held. rewrite bind_cons. intros [Hx Hl]%app_nil. by destruct x; [| |apply IH..].
Qed.

Lemma held_stop_children log : held (stop_children log ++ [Closed LaunchSignals]) = [].
Proof.
  unfold held. rewrite bind_app. unfold stop_children. rewrite bind_app, app_nil_r.
  induction (children log) as [|h cs IH]; [done|]. rewrite fmap_cons, !bind_cons, bind_app. apply app_nil in IH as [E1 E2].
  rewrite E1, E2, !app_nil_r. unfold ask_end. destruct (la_windows a), h as [|c j]; [done| |done|]; cbn [reap]; by destruct (la_ends a j).
Qed.

Lemma stopped_released binary cs : released (stopped (started binary cs)) = true.
Proof.
  unfold stopped. apply released_app; [|apply released_tail, held_stop_children].
  intros h Hh. apply closes_elem, elem_of_app.
  destruct h as [|c j]; [right; by left|left]. apply (stop_children_child _ c j).
  unfold children. by apply list_elem_of_filter.
Qed.

Lemma stopped_spec binary cs : Forall is_child cs →
  let log := stopped (started binary cs) in
  released log = true ∧ children log = cs ∧
  ∀ command i, Child command i ∈ children log → la_start a i command = None ∧ ended (Child command i) i log.
Proof.
  intros Hc log. assert (children log = cs) as Hcs.
  { unfold log, stopped, children, held. rewrite bind_app. fold (held (stop_children (started binary cs) ++ [Closed LaunchSignals])).
    rewrite held_stop_children, app_nil_r. exact (children_started binary cs Hc). }
  split; [exact (stopped_released binary cs)|]. split; [done|]. rewrite Hcs. intros command i Hin.
  split; [exact (proj1 (Forall_forall _ _) Hc _ Hin)|].
  rewrite <-(children_started binary cs Hc) in Hin. apply stop_children_child in Hin.
  apply ended_app; [..|exact Hin]; unfold started; rewrite elem_of_app, list_elem_of_fmap; clear.
  all: intros [Hin|(h&[=]&_)]; repeat (apply elem_of_cons in Hin as [[=]|Hin]); by apply not_elem_of_nil in Hin.
Qed.

Lemma supervise_spec events n : 0 < n →
  match supervise events n with
  | None => Interrupted ∉ events ∧ Z.of_nat (length events) < n
  | Some None => Interrupted ∈ events
  | Some (Some _) => n ≤ Z.of_nat (length events)
  end.
Proof using Type.
  revert n. induction events as [|[|e] events IH]; intros n Hn; cbn [supervise length].
  - split; [apply not_elem_of_nil|lia].
  - by left.
  - cbv zeta. destruct (Z.eqb_spec (n - 1) 0); [lia|]. specialize (IH (n - 1) ltac:(lia)).
    destruct (supervise events (n - 1)) as [[r|]|]; [lia|by right|]. destruct IH as [IH ?]. split; [|lia].
    by intros [[=]|?]%elem_of_cons.
Qed.

(** A return with an error before any child has been started. *)
Ltac refused := solve [split; [reflexivity|split; [intros ?? Hin; by apply not_elem_of_nil in Hin|intros [=]]]].

(** C37. The life of the launcher: it never panics.  It waits only while it has not
    been interrupted and one of its children, one for every member, still runs.
    When it returns, on every path and whatever fails, each child that it had
    started was asked to end, was killed if and only if it did not within five
    seconds, and was waited for; on Windows, where a process cannot be asked, it was
    killed at once and waited for.  It returns without an error only when every
    child had been started and it was interrupted. *)
Theorem launcher_lifetime events :
  match call (launcher_process events) with
  | Panicked => False
  | Waiting log =>
    Interrupted ∉ events ∧ ∃ m, la_membership a = inr m ∧ length (children log) = length (mm_Peers m) ∧
      (length events < length (mm_Peers m))%nat
  | Returned r log =>
    released log = true ∧
    (∀ command i, Child command i ∈ children log → la_start a i command = None ∧
       Closed (Child command i) ∈ log ∧
       if la_windows a then Killing (Child command i) ∈ log ∧ Shutting (Child command i) ∉ log
       else Shutting (Child command i) ∈ log ∧ (Killing (Child command i) ∈ log ↔ la_ends a i = false)) ∧
    (r = None → Interrupted ∈ events ∧ ∃ m, la_membership a = inr m ∧ length (children log) = length (mm_Peers m))
  end.
Proof.
  unfold launcher_process, hold, release. run_func.
  do 6 (ask; try refused). apply check_members_spec in E1.
  match goal with |- context [start_children _ _ _ ?frame] =>
    destruct (start_children_run s 0 _ frame E1) as (cs&err&Hrun&Hc&Hlen) end.
  cbn [fr_log fr_defers] in Hrun. rewrite Hrun. change (_ ++ (Opened <$> cs)) with (started s cs).
  pose proof (stopped_spec s cs Hc) as (Hr&Hcs&Hk). unfold stopped in *. rewrite app_assoc in *.
  destruct err as [err|]; [by split_and!|].
  assert (0 < Z.of_nat (length (mm_Peers m))) as Hn.
  { apply bool_decide_eq_false_1 in E0. destruct (mm_Peers m); [done|]. cbn. lia. }
  pose proof (supervise_spec events _ Hn) as Hs. destruct (supervise _ _) as [[r|]|]; run_func; cbn [foldl].
  - by split_and!.
  - split_and!; [done..|]. intros _. split; [done|]. exists m. split; [done|]. rewrite Hcs. by apply Hlen.
  - destruct Hs as [Hi Hs]. split; [done|]. exists m. split_and!; [done| |lia]. rewrite children_started by done. by apply Hlen.
Qed.

End launcher.

(** ** The laboratory (cmd/lab/main.go) *)

Inductive lab_handle := LabSignals | Dashboard | LabManager | DashboardServer.

#[export] Instance lab_handle_dec : EqDecision lab_handle.
Proof. solve_decision. Defined.

Record lab_flags := mkLabFlags {
  bf_listen : string;
  bf_base_port : Z;
  bf_nodes : Z;
  bf_data : string;
  bf_build_ui : bool;
}.

(** What the system answers. *)
Record lab_answers := mkLabAnswers {
  lb_windows : bool;
  lb_loopback : string → bool;            (* [net.ParseIP(host).IsLoopback()] *)
  lb_no_modules : bool;                   (* [os.IsNotExist] of the stat *)
  lb_run : list string → option error;    (* running a command to its end *)
  lb_dist : option error;
  lb_mkdir : option error;
  lb_abs : string → string;
  lb_listen : string → option error;
  lb_new : new_answer;
}.

Section laboratory.
Context `{HN : Net} (a : lab_answers) (f : lab_flags).

Definition dashboard_missing (err : error) : error :=
  ErrNew "dashboard missing: run npm --prefix dashboard ci and npm --prefix dashboard run build".

Definition execute_command (words : list string) : func (act lab_handle) unit :=
  perform (Ran words) ;; check (lb_run a words).

Definition npm (args : list string) : func (act lab_handle) unit :=
  execute_command ((if lb_windows a then ["cmd"; "/c"; "npm.cmd"] else ["npm"]) ++ args).

(** The configuration of the manager. *)
Definition lab_binary : string := lb_abs a (binary_path (lb_windows a) "lab-node").
Definition lab_config : LabConfig := mkLabConfig (bf_nodes f) (bf_base_port f) (bf_data f) lab_binary.

(** [lab.New]; the lab that a failed start leaves has been closed. *)
Definition new_manager : func (act lab_handle) Manager :=
  match Lab.New lab_config (lb_new a) with
  | None => present None
  | Some (inl (err, _)) => return_ (Some err)
  | Some (inr m) => mret m
  end.

(** [run]. *)
Definition lab_process (event : option process_event) : func (act lab_handle) unit :=
  if negb (loopback (lb_loopback a) (bf_listen f)) then return_ (Some (ErrNew "lab must bind a loopback IP"))
  else
    hold LabSignals ;;
    (if bf_build_ui f then
       (if lb_no_modules a then npm ["ci"] else mret tt) ;;
       npm ["run"; "build"]
     else mret tt) ;;
    check (dashboard_missing <$> lb_dist a) ;;
    check (lb_mkdir a) ;; perform (Made "bin") ;;
    execute_command ["go"; "build"; "-o"; lab_binary; "./cmd/node"] ;;
    check (lb_listen a (bf_listen f)) ;;
    hold Dashboard ;;
    _ ← new_manager;
    hold LabManager ;;
    release DashboardServer ;;
    perform (Serving DashboardServer) ;;
    match event with
    | None => wait
    | Some (ServeReturned err) => return_ (Some err)
    | Some Signalled => return_ None
    end.

(** The dashboard's handlers and the manager's goroutines use the manager. *)
Definition lab_uses (h : lab_handle) : list lab_handle :=
  match h with LabManager => [DashboardServer] | _ => [] end.

Context `{HU : URLs} (marshal_error : string → string) (json_valid : string → bool).

(** A manager that serves: whatever is done to it, closing it afterwards kills
    every node process that has not ended. *)
Definition closable (log : list (act lab_handle)) : Prop :=
  serves DashboardServer log = true → ∃ m0, Lab.New lab_config (lb_new a) = Some (inr m0) ∧
    ∀ ops answer, ∃ m, (run_ops marshal_error json_valid ops ;; Lab.Close answer) m0 = Some (tt, m) ∧
      ∀ c id, mg_waiting m !! c = Some id → c ∈ mg_killed m.

Lemma new_closable m0 log : Lab.New lab_config (lb_new a) = Some (inr m0) → closable log.
Proof.
  intros Hn _. exists m0. split; [done|]. intros ops answer. pose proof (New_starts lab_config (lb_new a)) as H.
  rewrite Hn in H. destruct H as (_&_&H). apply (run_ops_wf marshal_error json_valid ops), wp_total in H as ([]&m1&Ho&H1).
  pose proof (Close_wf answer m1 H1) as H2. apply wp_total in H2 as ([]&m&Hm&Hw&Hc).
  exists m. split; [|by apply (lw_closed m Hw)]. unfold mbind, M_bind. by rewrite Ho.
Qed.

(** The life of the laboratory: it never panics.  Unless it is to listen on a
    loopback address it has done nothing when it returns.  On every path it closes
    all that it had opened, the manager only after the server whose handlers use
    it, and closing the manager leaves no node alive, whatever has been done to the
    lab; it returns without an error only on a signal, with the dashboard served
    from then on. *)
Theorem lab_lifetime event :
  match call (lab_process event) with
  | Panicked => False
  | Waiting log => event = None ∧ outlived lab_uses [] log = true ∧ closable log
  | Returned r log =>
    released log = true ∧ outlived lab_uses [] log = true ∧ closable log ∧
    (loopback (lb_loopback a) (bf_listen f) = false → log = []) ∧
    (r = None → event = Some Signalled ∧ serves DashboardServer log = true)
  end.
Proof.
  pose proof (New_starts lab_config (lb_new a)) as Hnew.
  unfold lab_process, npm, execute_command, hold, release, new_manager. run_func. repeat ask.
  all: try contradiction.
  all: clear Hnew; repeat (split; [reflexivity|]).
  all: try (split; [first [intros H; discriminate H|by eapply new_closable]|]).
  all: try (first [intros H; discriminate H|by eapply new_closable]).
  all: split; [first [reflexivity|intros Hl; rewrite Hl in E; discriminate E]|].
  all: first [intros H; discriminate H|intros _; split; reflexivity].
Qed.

End laboratory.
