(* ===== verification/Explorer.v ===== *)
(** * Explorer: the simulator's command (src/cmd/simulator/main.go)

    Runs of consecutive seeds, the artifacts that are written of each, and the
    reduction of the first that fails, around [Simulation.Run] and
    [Simulation.Minimize].  Reading, decoding and writing files are arguments. *)

From Stdlib Require Import Strings.Ascii Strings.String.
From stdpp Require Import base numbers list gmap strings fin_maps pretty sorting options.
From S2P Require Import Prelude Effects Urls Http Store Node Simulation SimulationProps Defer Codec NodeExamples.

Local Open Scope Z_scope.
#[local] Set Default Proof Using "Type*".

Record explore_flags := mkExploreFlags {
  xf_seed : N;
  xf_nodes : Z;
  xf_operations : Z;
  xf_scenario : string;
  xf_out : string;
  xf_runs : Z;
  xf_minimize : bool;
}.

(** What the command leaves behind: files, and lines of its output. *)
Inductive artifact :=
  | ScenarioFile (path : string) (s : Scenario)
  | ReportFile (path : string) (r : SimResult)
  | MinimalFile (path : string) (s : Scenario)
  | Line (s : Scenario) (r : SimResult).

(** What the system answers.  [json.Unmarshal] decodes onto the default scenario:
    what the file does not name keeps its default. *)
Record explore_answers := mkExploreAnswers {
  xa_read : string → error + string;
  xa_unmarshal : string → Scenario → error + Scenario;
  xa_mkdir : string → option error;
  xa_write : artifact → option error;     (* [json.MarshalIndent] and [os.WriteFile] *)
}.

Section explorer.
Context `{HC : Codec record, HP : Platform, HR : Random, HD : Digests}.
Context (a : explore_answers) (f : explore_flags).

(** [context.Background()] never ends. *)
Definition run_scenario (s : Scenario) : option SimResult := Run (λ _, None) s.
Definition reduce (fails : Scenario → option bool) (s : Scenario) : option Scenario := Minimize (λ _, true) fails s.

(** The field [Error] of the report. *)
Definition report_error (r : SimResult) : string := default "" (Http.Error <$> sr_Error r).

Definition write_file (x : artifact) : func artifact unit := check (xa_write a x) ;; perform x.

Definition base_scenario : func artifact Scenario :=
  let s := Default (xf_seed f) (xf_nodes f) (xf_operations f) in
  if bool_decide (xf_scenario f ≠ "") then
    b ← try (xa_read a (xf_scenario f));
    try (xa_unmarshal a b s)
  else mret s.

Definition with_seed (seed : N) (s : Scenario) : Scenario :=
  mkScenario (Version s) seed (Nodes s) (Operations s) (MaxDelayMS s) (DropPercent s) (DuplicatePercent s) (Faults s).

(** [current.Seed += uint64(i)]. *)
Definition nth_scenario (s : Scenario) (i : nat) : Scenario := with_seed (add64 (Seed s) (N.of_nat i)) s.

Definition artifact_name (s : Scenario) : string := Join [xf_out f; "seed-" +:+ pretty (Seed s)].

(** The predicate given to [Minimize]. *)
Definition fails_alike (r : SimResult) (x : Scenario) : option bool :=
  (λ r', bool_decide (report_error r' = report_error r)) <$> run_scenario x.

Definition scenario_failed (name : string) (r : SimResult) : error :=
  ErrNew ("scenario failed: " +:+ report_error r +:+ " (replay " +:+ name +:+ ".scenario.json)").

(** The body of the loop. *)
Definition explore_one (current : Scenario) : func artifact unit :=
  r ← present (run_scenario current);
  let name := artifact_name current in
  write_file (ScenarioFile (name +:+ ".scenario.json") current) ;;
  write_file (ReportFile (name +:+ ".report.json") r) ;;
  perform (Line current r) ;;
  if negb (sr_Passed r) then
    (if xf_minimize f then
       small ← present (reduce (fails_alike r) current);
       write_file (MinimalFile (name +:+ ".minimal.json") small)
     else mret tt) ;;
    return_ (Some (scenario_failed name r))
  else mret tt.

Fixpoint explore_loop (s : Scenario) (ns : list nat) : func artifact unit :=
  match ns with
  | [] => mret tt
  | i :: ns => explore_one (nth_scenario s i) ;; explore_loop s ns
  end.

(** [run]. *)
Definition explore : func artifact unit :=
  if (xf_runs f <? 1) || (10000 <? xf_runs f) then return_ (Some (ErrNew "runs must be 1–10000"))
  else
    s ← base_scenario;
    check (xa_mkdir a (xf_out f)) ;;
    explore_loop s (seq 0 (Z.to_nat (xf_runs f))) ;;
    return_ None.

(** ** What a run leaves behind *)
















End explorer.

(** ** An example *)

Section example.
#[local] Existing Instance ex_platform.

#[local] Instance some_random : Random := { source := N; NewPCG := N.lxor; Uint64 := λ s, (s, s); IntN := λ _ _, (0, 0%N); range := λ _ m, map_to_list m }.
#[local] Instance some_digests : Digests := { EntryHash := λ _, ""; Digest := λ _, ""; chain := λ _ _, "" }.

Definition ex_disk : explore_answers := mkExploreAnswers (λ _, inr "") (λ _ s, inr s) (λ _, None) (λ _, None).

(** Seven nodes are too many: the scenario and its report are written, and of the
    faults none matters for that. *)
Example explore_invalid :
  match call (explore ex_disk (mkExploreFlags 7 7 100 "" "out/" 3 true)) with
  | Returned (Some _) [ScenarioFile "out/seed-7.scenario.json" s; ReportFile "out/seed-7.report.json" r; Line _ _;
      MinimalFile "out/seed-7.minimal.json" small] =>
    s = Default 7 7 100 ∧ sr_Passed r = false ∧ Faults small = []
  | _ => False
  end.
Proof. vm_compute. by split_and!. Qed.

End example.
